(* ===== verification/_CoqProject ===== *)
-Q . S2P
Prelude.v
Comparator.v
AvlUtil.v
AvlTree.v
Slist.v
ReservedArray.v
Dict.v
HashTableBase.v
HashTable.v
TreeHashTable.v
HashSet.v
Dictionary.v
Blist.v
Cache.v
ListCache.v
LfuCache.v
Vset.v
Kvdb.v
KvdbSpec.v
KvdbValues.v
KvdbRefine.v
KvdbCalls.v
KvdbFacts.v
KvdbErrors.v
KvdbFrame.v
KvdbExamples.v
Mmbp.v
MmbpCodec.v
MmbpExamples.v
Storage.v
StorageFacts.v
StorageRefine.v
Server.v
ServerExamples.v
Disk.v
Recovery.v
RecoveryExamples.v
Translator.v
TranslatorFacts.v
TranslatorExamples.v
Controller.v
ControllerFacts.v
ControllerErrors.v
ConfigdClient.v
ControllerExamples.v
Joining.v
JoiningFacts.v
JoiningExamples.v
RawMmbp.v
Sharder.v
SharderFacts.v
SharderErrors.v
SharderExamples.v
Console.v
ConsoleFacts.v
ConsoleExamples.v
ServerMain.v
ServerMainExamples.v
