(* ===== verification/Prelude.v ===== *)
(** * Verification of mmkv

    mmkv is an in-memory key-value server.  A client's requests arrive on a TCP
    connection as frames of a binary protocol; the codec reassembles and checks the
    frames, the server parses each request and hands it to the database manager,
    which picks a database by the hash of the key and executes the command on it;
    the response goes back through the codec.  A database maps keys to strings,
    lists, sorted sets, maps and sets, keeps expiration times, evicts keys by a
    replacement policy, and indexes keys by shard.  It is built on the project's own
    containers.  Requests that write can be logged to a file, from which a new server
    recovers.  A console translates lines into requests.  Several servers can form a
    cluster: keys fall into shards, and a controller keeps which node holds which
    shards; nodes join and leave by its leave, and clients look shards up.

    ** The files, bottom up

    Names of files are relative to [src/mmkv].

    - [Prelude] (this file): machine integers, tactics, hints, lemmas on lists.
    - [Comparator]: [algo/comparator_util.h], [algo/internal/func_util.h],
      [algo/key_value.h].
    - [AvlUtil], [AvlTree]: [algo/internal/avl_node.h], [avl_util.h],
      [avl_tree_base.h], [avl_tree_base_impl.h], [avl_tree.h], [avl_list.h].  A node
      pointer is a position in a tree (a zipper).
    - [Slist]: [algo/slist.h].
    - [ReservedArray]: [algo/reserved_array.h] and the [Table] of the hash tables.
    - [Dict]: the interface of the dictionaries, a class of operations [DictOps] and
      its laws [DictLaws]; the clients of the tables are proved against it.
    - [HashTableBase], [HashTable], [TreeHashTable]: [algo/hash_table.h],
      [algo/internal/hash_table_impl.h], [tree_hashtable.h], [tree_hashtable_impl.h]
      and their iterators: two tables and a rehash of one bucket per operation.
    - [HashSet], [Dictionary]: [algo/hash_set.h], [algo/dictionary.h],
      [algo/avl_dictionary.h].
    - [Blist]: [algo/blist.h], on an explicit heap of nodes.
    - [Cache], [ListCache], [LfuCache]: [replacement/cache_interface.h],
      [lru_cache.h], [mru_cache.h], [lfu_cache.h] and their implementations.
    - [Vset]: [db/vset.h], [db/vset.cc], the sorted sets.
    - [Kvdb]: [db/kvdb.h], [db/kvdb.cc], [db/mmkv_data.h]: every call of the
      database, in a monad with faults and status codes.
    - [KvdbSpec]: the reference database on finite maps.  [KvdbValues],
      [KvdbRefine], [KvdbCalls]: the simulation.  [KvdbFacts], [KvdbErrors],
      [KvdbFrame]: the theorems.  [KvdbExamples]: concrete runs.
    - [Mmbp]: [protocol/mmbp_util.h], [mmbp_request.h], [mmbp_request.cc],
      [mmbp_response.h], [mmbp_response.cc]: the messages on the wire.
    - [MmbpCodec]: [protocol/mmbp_codec.h], [mmbp_codec.cc]: frames, their checksum,
      and the loop that takes complete frames out of the bytes received.  The
      messages a codec carries are a class, [Message] with its laws [MessageLaws];
      requests and responses are its instances.  [MmbpExamples]: a concrete varint
      codec, byte order and checksum.
    - [Storage]: [storage/db.h], [storage/db.cc], [protocol/command.h],
      [disk/log_command.cc], [db/data_type.cc]: the execution of a request on an
      instance, the locks, and the manager of the instances.  [StorageFacts],
      [StorageRefine]: the theorems.
    - [Server]: [server/mmkv_server.cc]: the callbacks of a connection, put together
      from all of the above.  [ServerExamples]: concrete requests and runs.
    - [Disk]: [disk/file.cc], [disk/request_log.h], [disk/request_log.cc],
      [disk/recover.cc], [LogRequestToFile] of the server and the loop of
      [app/rlog_dump.cc]: the log as a state machine of what its threads do, what is
      written to it, and how it is read.  [Recovery]: the theorems.
      [RecoveryExamples]: concrete logs.
    - [Translator]: [util/tokenizer.h], [client/information.cc],
      [client/translator.cc], [protocol/command.cc]: the words of a line and the
      request they stand for.  [TranslatorFacts]: the theorems.
      [TranslatorExamples]: concrete lines.
    - [Controller]: [tracker/type.h], [tracker/shard_controller_server.h],
      [shard_controller_server.cc], [shard_controller_session.cc],
      [tracker/internal/shard_controller_session_impl.h] and [configd/configd.cc]:
      the configurations of a cluster, and the handlers of the controller.
      [ControllerFacts], [ControllerErrors]: the theorems.
    - [ConfigdClient]: [configd/configd_client.h], [configd_client.cc]: what a client
      keeps of the configurations it is sent.  [ControllerExamples]: concrete runs.
    - [Joining]: [tracker/shard_controller_client.h], [shard_controller_client.cc],
      [tracker/internal/shard_controller_client_impl.h], [sharder/sharder_client.h],
      [sharder_client.cc]: the node's side of joining and leaving, what it sends and
      what it does to its database as a list of actions.  [JoiningFacts]: the
      theorems.  [JoiningExamples]: concrete joins.
    - [RawMmbp]: the readers of raw memory of [protocol/mmbp_util.h],
      [mmbp_request.cc] and [mmbp.h], which the sharder uses.
    - [Sharder]: [sharder/util.h], [util.cc], [sharder.h], [sharder_session.cc],
      [sharder/internal/shard_session_impl.h], [sharder_client.cc]: how the data of a
      shard is locked, sent, received and deleted.  [SharderFacts], [SharderErrors]:
      the theorems.  [SharderExamples]: concrete transfers.
    - [Console]: [client/mmkv_client.cc], [client/information.cc],
      [client/response_printer.cc], [protocol/status_code.cc]: the console, the node it
      sends a command to, and what it prints.  [ConsoleFacts]: the theorem.
      [ConsoleExamples]: lines typed at a console of a cluster.
    - [ServerMain]: [server/config.h], [server/config.cc], [util/conv.cc],
      [app/server_main.cc], and of [server/mmkv_server.cc] the start and the commands of
      the cluster.  [ServerMainExamples]: a server that starts, and one that is told to
      join.

    ** How code is represented

    A C++ function is a Gallina function with its guards in the order of the code.
    State is passed explicitly; in [Kvdb] by the monad [M], in [Mmbp] by the monad
    [Reader].  [None] is what the C++ program must not do: a failed [assert], a null
    or dangling pointer, an index out of bounds, a throwing [any] cast; in [Storage],
    [Joining] and [ServerMain] also a call that waits for a lock or a connection and does
    not return.  Status codes are values.  [size_t] and [uint64_t] are [Z] with [u64] where the
    arithmetic of the code can wrap; [int32_t] and [int64_t] likewise with [i32] and
    [i64].  Strings are sequences of bytes.  Doubles are, in the sorted sets, any type
    with a lawful comparator (the doubles but NaN), and, in the protocol, their 64
    bits.

    Code that is not in the repository is a parameter with the laws the code relies
    on: hash functions ([HashFunc]; no law but totality), random numbers, the clock
    and the configuration ([Env]), the varint codec ([Kvarint]), the byte order
    functions ([NetOrder], [NetOrder16]), the checksum ([XXHash]), the chunks of an
    output buffer ([ChunkBuffer]), the bits of a double ([DoubleBits]), string views
    ([StringView]), [strtod] ([Strtod]), what the console calls of kanon and replxx
    ([ConsoleLib]), and for the controller the network, its
    random numbers and the order of a protobuf map ([Net]).  The files of examples have an instance of
    each, with its laws.  That a varint below 128 is one byte ([KvarintSmall]) is used
    only to show what the logger reads in its place.

    Bounds.  Loops that are not structural run on fuel: [loop_fuel] of [Env] for the
    iteration of a set that is changed while it is iterated, a fuel computed from
    the state elsewhere, and theorems show it is enough where the loop ends.  Tables
    hold at most [max_elems] = 2^61 elements, because the code's load factor
    arithmetic is in 64 bits; [history_cost] bounds how many a history can add.

    ** What the theorems show

    - Containers: insertion, extraction, search and bounds of the AVL trees keep
      order and balance and do to the sequence of values what they should; any
      history of operations on a hash table, tree hash table, hash set, linked list
      and replacement policy answers as the finite map, set, sequence or recency
      list it stands for; iteration visits each element once.
    - Database: any history of the calls of [cmd] on a new database answers as the
      reference database does, which keeps strings, lists, maps, sets and deadlines as
      finite maps and sequences, and has sorted sets, shard index, policy and log in
      common with the database ([mmkvdb_refines_reference]); without sharding, replacement and
      the calls that leave a deadline behind it never faults; objects have the type
      their entry says; expiring keys exist; written values are read back; a call
      leaves other keys alone; errors, deadlines and the active expiration cycle.
    - Protocol: what is written is read back ([messages_round_trip]).  However the
      network cuts the bytes of a sequence of frames into pieces, the codec delivers
      the messages, in order, each once ([codec_reassembles]); a message that is
      delivered had the tag and the checksum of its bytes.
    - Storage: a request that carries the fields of its command is one call of the
      database, and its response is made of the result as [answer] says (inverted for
      [DEL], without a count for [LPOPFRONT] and [LPOPBACK]); the instance of a key
      exists; locks are released, but for the one of [MEM_STAT]; and the instances
      together answer requests that are one call on their key as one reference database
      ([manager_is_one_database]).  [MGETS], [SRANDDELM], [RENAME], operations on two
      sets, commands without a key, [LAPPEND] while requests are logged, shard servers
      and replacement policies are not covered there.
    - Server: the bytes of such requests, in whatever pieces, are answered by the bytes
      of responses made of the results of one reference database
      ([server_is_one_database]); a range does not cross the wire.
    - Request log and recovery: whatever the threads do in whatever order, the file
      and the blocks hold the bytes appended, in order ([request_log_in_order]); a new
      server that reads the log back answers as the reference database that executed
      the logged requests ([recovery_restores]), as long as they carry no lists and fit
      the first read; the dump prints each of them ([rlog_dump_prints]).
    - Console: the words of a line ([tokenizer_words]) become the request that the
      server reads back and executes as the call they name ([console_line_is_call], which
      lists the commands); in a cluster without leaving nodes it goes to a node that holds
      the shard of its key ([console_reaches_holder]).
    - Cluster: whatever nodes join and report in whatever order, every configuration
      gives each shard to one node and shares them evenly
      ([controller_shares_shards]); a new node is accepted
      ([controller_accepts_node]), pulls exactly its shards, reports once, and is in
      the configuration ([node_joins_cluster], if nothing is pending and it is not told
      to pull nothing from a node); queries and clients find the node
      that holds a shard ([query_names_holders], [clients_find_holders]).
    - Shards: the strings that are filed under a shard arrive at the node that pulls it
      ([pulled_shard_arrives]); filed are only keys whose whole hash is the
      shard's number; raw memory is parsed as a buffer is, but for weights
      ([raw_parses_as_buffer]).
    - Faults: runs in which the code goes wrong are theorems of their own: what is
      not logged, lists that recovery merges, sizes it loses, lines that the console
      refuses or mistranslates, deadlines that outlive their keys, locks that stay
      taken, nodes that cannot leave or are forgotten, a controller that stops, shards that
      are dropped where they are pushed and stay where they are deleted, commands of
      the cluster that stop the server and the console or are never answered.

    ** Not modelled

    Memory allocation (it succeeds) and the allocators; copying of containers that the
    program does not use; [algo/block_array.h], which nothing includes; the forwarder,
    which is callbacks around sockets; the encoding of protobuf messages, which the
    build generates (messages are records); connecting and the threads of the console,
    and its completion, which is a vendored ternary tree; the sets of cancelled
    sessions of the sharder, which stay empty; the Lua and terminal libraries; the
    vendored xxHash. *)

From stdpp Require Export base tactics option list list_numbers sorting gmap strings.
From Stdlib Require Export ZArith Lia.

Open Scope Z_scope.

(** ** Machine integers *)

Declare Scope mmkv_scope.
Delimit Scope mmkv_scope with mmkv.

(** [size_t], [uint64_t]: arithmetic modulo 2^64. *)
Definition u64 (x : Z) : Z := x mod 2 ^ 64.

(** [int], [int32_t]: the conversion of a wide integer to a 32-bit signed one. *)
Definition i32 (x : Z) : Z := (x + 2 ^ 31) mod 2 ^ 32 - 2 ^ 31.

Notation "x ⊞ y" := (u64 (x + y)) (at level 50, left associativity) : mmkv_scope.
Notation "x ⊟ y" := (u64 (x - y)) (at level 50, left associativity) : mmkv_scope.
Open Scope mmkv_scope.

(** ** Tactics and the hint database of the development *)

Create HintDb mmkv discriminated.

(** Case analysis on the boolean tests of the translated code, with the
    arithmetic facts they stand for. *)
Ltac zcases :=
  repeat match goal with
  | |- context [Z.eqb ?a ?b] => destruct (Z.eqb_spec a b)
  | |- context [Z.leb ?a ?b] => destruct (Z.leb_spec a b)
  | |- context [Z.ltb ?a ?b] => destruct (Z.ltb_spec a b)
  | H : context [Z.eqb ?a ?b] |- _ => destruct (Z.eqb_spec a b)
  | H : context [Z.leb ?a ?b] |- _ => destruct (Z.leb_spec a b)
  | H : context [Z.ltb ?a ?b] |- _ => destruct (Z.ltb_spec a b)
  end.

(** Right-nested form of list appends. *)
Ltac app_norm := repeat progress (rewrite <-?app_assoc, ?app_nil_r; cbn [app]).

Ltac split_ands := repeat match goal with |- _ ∧ _ => split end.

(** ** Generic lemmas *)

Lemma u64_small x : 0 ≤ x < 2 ^ 64 → u64 x = x.
Proof. intros; unfold u64; by apply Z.mod_small. Qed.

Lemma u64_range x : 0 ≤ u64 x < 2 ^ 64.
Proof. unfold u64. apply Z.mod_pos_bound. lia. Qed.

Lemma u64_succ_mod n : u64 (u64 n + 1) = u64 (n + 1).
Proof. unfold u64. by rewrite Zplus_mod_idemp_l. Qed.

Lemma u64_pred_mod n : u64 (u64 n - 1) = u64 (n - 1).
Proof. unfold u64. by rewrite Zminus_mod_idemp_l. Qed.

Lemma i32_small x : - 2 ^ 31 ≤ x < 2 ^ 31 → i32 x = x.
Proof. intros. unfold i32. rewrite Z.mod_small; lia. Qed.

#[export] Hint Resolve u64_range : mmkv.
#[export] Hint Rewrite u64_succ_mod u64_pred_mod : mmkv.

(** A filter that keeps everything. *)
Lemma filter_all {A} (P : A → Prop) `{∀ x, Decision (P x)} (l : list A) : (∀ x, x ∈ l → P x) → filter P l = l.
Proof.
  induction l as [|x l IH]; intros Hl; [done|]. rewrite filter_cons_True by (apply Hl; set_solver).
  f_equal. apply IH. intros y Hy. apply Hl. set_solver.
Qed.

(** A filter that keeps nothing. *)
Lemma filter_none {A} (P : A → Prop) `{∀ x, Decision (P x)} (l : list A) : (∀ x, x ∈ l → ¬ P x) → filter P l = [].
Proof.
  induction l as [|x l IH]; intros Hl; [done|]. rewrite filter_cons_False by (apply Hl; set_solver).
  apply IH. intros y Hy. apply Hl. set_solver.
Qed.

(** [int64_t]: the conversion of an unsigned or wide integer. *)
Definition i64 (x : Z) : Z := (x + 2 ^ 63) mod 2 ^ 64 - 2 ^ 63.

Lemma i64_small x : - 2 ^ 63 ≤ x < 2 ^ 63 → i64 x = x.
Proof. intros. unfold i64. rewrite Z.mod_small; lia. Qed.
