(* ===== verification/Comparator.v ===== *)
(** * Comparators and key extraction

    [mmkv/algo/comparator_util.h], [mmkv/algo/internal/func_util.h],
    [mmkv/algo/key_value.h]: the three-way comparators the trees are
    instantiated with, and the functors that read the key of an element. *)

From S2P Require Import Prelude.

(** ** The interfaces *)

(** [Comparator<T>::operator()]: a negative, zero or positive [int]. *)
Class Comparator (K : Type) := TO_COMPARE : K → K → Z.

(** What the trees rely on: a total preorder.  Keys that compare equal need not
    be equal (a string comparator stops at the first NUL byte). *)
Class ComparatorOk (K : Type) `{Comparator K} : Prop := {
  cmp_refl x : TO_COMPARE x x = 0;
  cmp_antisym x y : Z.sgn (TO_COMPARE y x) = - Z.sgn (TO_COMPARE x y);
  cmp_trans x y z : TO_COMPARE x y ≤ 0 → TO_COMPARE y z ≤ 0 → TO_COMPARE x z ≤ 0
}.

(** [GetKey<V>::operator()]. *)
Class GetKey (K V : Type) := TO_GK : V → K.

(** [struct KeyValue]. *)
Record KeyValue (K V : Type) := MkKeyValue { key : K; value : V }.
Arguments MkKeyValue {K V}.
Arguments key {K V}.
Arguments value {K V}.

#[export] Instance KeyValue_eq_dec `{EqDecision K, EqDecision V} : EqDecision (KeyValue K V).
Proof. solve_decision. Defined.

#[export] Instance GetKey_self (K : Type) : GetKey K K := λ k, k.
#[export] Instance GetKey_kv (K V : Type) : GetKey K (KeyValue K V) := key.

(** ** The order lemmas the clients use *)

Section order.
Context {K : Type} `{ComparatorOk K}.

Lemma cmp_flip_lt x y : TO_COMPARE x y < 0 ↔ 0 < TO_COMPARE y x.
Proof. pose proof (cmp_antisym x y). lia. Qed.

Lemma cmp_flip_eq x y : TO_COMPARE x y = 0 ↔ TO_COMPARE y x = 0.
Proof. pose proof (cmp_antisym x y). lia. Qed.

Lemma cmp_flip_le x y : TO_COMPARE x y ≤ 0 ↔ 0 ≤ TO_COMPARE y x.
Proof. pose proof (cmp_antisym x y). lia. Qed.

Lemma cmp_lt_le_trans x y z :
  TO_COMPARE x y < 0 → TO_COMPARE y z ≤ 0 → TO_COMPARE x z < 0.
Proof.
  intros Hxy Hyz. assert (TO_COMPARE x z ≤ 0) by (eapply cmp_trans; [|done]; lia).
  destruct (decide (TO_COMPARE x z = 0)) as [E%cmp_flip_eq|]; [|lia].
  assert (TO_COMPARE y x ≤ 0) by (eapply cmp_trans; [done|]; lia).
  pose proof (cmp_antisym x y). lia.
Qed.

Lemma cmp_le_lt_trans x y z :
  TO_COMPARE x y ≤ 0 → TO_COMPARE y z < 0 → TO_COMPARE x z < 0.
Proof.
  intros Hxy Hyz. assert (TO_COMPARE x z ≤ 0) by (eapply cmp_trans; [done|]; lia).
  destruct (decide (TO_COMPARE x z = 0)) as [E%cmp_flip_eq|]; [|lia].
  assert (TO_COMPARE z y ≤ 0) by (eapply cmp_trans; [|done]; lia).
  pose proof (cmp_antisym y z). lia.
Qed.

Lemma cmp_lt_trans x y z :
  TO_COMPARE x y < 0 → TO_COMPARE y z < 0 → TO_COMPARE x z < 0.
Proof. intros; eapply cmp_lt_le_trans; [done|lia]. Qed.

Lemma cmp_eq_l x y z : TO_COMPARE x y = 0 → Z.sgn (TO_COMPARE x z) = Z.sgn (TO_COMPARE y z).
Proof.
  intros E. pose proof (proj1 (cmp_flip_eq x y) E).
  pose proof (cmp_trans x y z). pose proof (cmp_trans y x z).
  pose proof (cmp_lt_le_trans y z x). pose proof (cmp_lt_le_trans x z y).
  pose proof (cmp_le_lt_trans x y z). pose proof (cmp_le_lt_trans y x z).
  lia.
Qed.
End order.

(** ** The comparators of the code *)

(** [Comparator<uint8_t>] ... [Comparator<uint64_t>]. *)
Definition compare_unsigned (x y : Z) : Z := if x <? y then -1 else if x =? y then 0 else 1.

(** [Comparator<int8_t>] ... [Comparator<int64_t>]: [return x - y;] as an [int]. *)
Definition compare_signed (x y : Z) : Z := i32 (x - y).

(** [strcmp] on [c_str()]: bytes as [unsigned char], up to the terminating NUL,
    which [c_str()] puts after the last character. *)
Definition byte_of (c : Ascii.ascii) : Z := Z.of_N (Ascii.N_of_ascii c).

Fixpoint strcmp (x y : string) : Z :=
  match x, y with
  | EmptyString, EmptyString => 0
  | EmptyString, String d _ => - byte_of d
  | String c _, EmptyString => byte_of c
  | String c x', String d y' =>
      if byte_of c =? byte_of d
      then if byte_of c =? 0 then 0 else strcmp x' y'
      else byte_of c - byte_of d
  end.

(** The prefix of a string that [strcmp] looks at. *)
Fixpoint c_str (x : string) : string :=
  match x with
  | EmptyString => EmptyString
  | String c x' => if byte_of c =? 0 then EmptyString else String c (c_str x')
  end.

#[export] Instance Comparator_string : Comparator string := strcmp.

Lemma byte_of_range c : 0 ≤ byte_of c < 256.
Proof. unfold byte_of. pose proof (Ascii.N_ascii_bounded c). lia. Qed.

Lemma byte_of_inj c d : byte_of c = byte_of d → c = d.
Proof.
  unfold byte_of. intros E.
  rewrite <- (Ascii.ascii_N_embedding c), <- (Ascii.ascii_N_embedding d). f_equal. lia.
Qed.

Lemma strcmp_flip x y : strcmp y x = - strcmp x y.
Proof.
  revert y. induction x as [|c x IH]; intros [|d y]; simpl; try lia.
  rewrite (Z.eqb_sym (byte_of d)). zcases; first [lia | apply IH].
Qed.

Lemma strcmp_refl x : strcmp x x = 0.
Proof. pose proof (strcmp_flip x x). lia. Qed.

Lemma strcmp_trans x y z : strcmp x y ≤ 0 → strcmp y z ≤ 0 → strcmp x z ≤ 0.
Proof.
  revert y z. induction x as [|c x IH]; intros [|d y] [|e z]; simpl; try lia;
    repeat match goal with c : Ascii.ascii |- _ => pose proof (byte_of_range c); revert c end;
    intros; zcases; try lia; try congruence; eauto.
Qed.

#[export] Instance Comparator_string_ok : ComparatorOk string.
Proof.
  split; unfold TO_COMPARE, Comparator_string.
  - apply strcmp_refl.
  - intros x y. rewrite strcmp_flip. lia.
  - apply strcmp_trans.
Qed.

#[export] Instance Comparator_uint64 : Comparator Z := compare_unsigned.

#[export] Instance Comparator_uint64_ok : ComparatorOk Z.
Proof.
  split; unfold TO_COMPARE, Comparator_uint64, compare_unsigned; intros; zcases; simpl; lia.
Qed.

(** The string comparator identifies exactly the keys with the same NUL-free
    prefix. *)
Lemma strcmp_eq x y : strcmp x y = 0 ↔ c_str x = c_str y.
Proof.
  revert y. induction x as [|c x IH]; intros [|d y]; simpl; try done;
    repeat match goal with c : Ascii.ascii |- _ => pose proof (byte_of_range c); revert c end; intros;
    zcases; try lia; try (split; [done|lia]); try (split; [lia|done]).
  - split; [|intros [= _ ?]; by apply IH]. intros ?%IH. f_equal; [by apply byte_of_inj|done].
  - split; [lia|]. intros [= -> _]. done.
Qed.

(** ** Keys the comparator tells apart *)

(** On exact keys, comparing equal is being equal. *)
Class ExactKeys (K : Type) `{Comparator K} := {
  exact_key : K → Prop;
  exact_eq k k' : exact_key k → exact_key k' → TO_COMPARE k k' = 0 → k = k'
}.

(** Strings without a NUL byte. *)
#[export] Program Instance ExactKeys_string : ExactKeys string := {| exact_key x := c_str x = x |}.
Next Obligation. intros x y Hx Hy Hc%strcmp_eq. congruence. Qed.

#[export] Program Instance ExactKeys_uint64 : ExactKeys Z := {| exact_key _ := True |}.
Next Obligation. intros x y _ _. unfold TO_COMPARE, Comparator_uint64, compare_unsigned. zcases; lia. Qed.
