(* ===== verification/AvlUtil.v ===== *)
(** * AVL nodes: linking, rotation, rebalancing, erasure, iteration

    [mmkv/algo/internal/avl_node.h] and [mmkv/algo/internal/avl_util.h].

    A node pointer of the code carries its [parent]; here a pointer is a
    position in the tree: the subtree it points to together with the list of
    its ancestors, nearest first (a zipper).  [node->parent] is the head of
    that list, and writing the children of a node on the path is plugging the
    subtree back.  A failed [assert] or a null dereference is [None]. *)

From S2P Require Import Prelude.

(** ** Data *)

(** [AvlBaseNode] with the value of [AvlNode<T>]; [Null] is [nullptr]. *)
Inductive tree (V : Type) : Type :=
| Null : tree V
| Node (left : tree V) (val : V) (height : Z) (right : tree V) : tree V.
Arguments Null {V}.
Arguments Node {V}.

(** The parent link of a node: the parent, the side the node hangs on, and the
    parent's other child. *)
Inductive frame (V : Type) : Type :=
| InLeft (val : V) (height : Z) (right : tree V) : frame V
| InRight (left : tree V) (val : V) (height : Z) : frame V.
Arguments InLeft {V}.
Arguments InRight {V}.

Abbreviation path V := (list (frame V)).

(** A non-null node pointer into a tree. *)
Abbreviation pos V := (tree V * path V)%type.

Section avl_util.
Context {V : Type}.
Implicit Types (t l r : tree V) (p : path V) (f : frame V).

(** Write [t] into the child field the frame stands for: the parent node. *)
Definition plug f t : tree V :=
  match f with
  | InLeft v h r => Node t v h r
  | InRight l v h => Node l v h t
  end.

(** The whole tree a position belongs to ([*root]). *)
Fixpoint zip p t : tree V :=
  match p with
  | [] => t
  | f :: p' => zip p' (plug f t)
  end.

(** [_LinkSlot(slot, node, parent)]: [slot] is the empty child field of
    [parent] the path ends in; the result is the position of [parent], where
    the fixup starts. *)
Definition _LinkSlot p t : option (pos V) :=
  match p with
  | [] => None
  | parent :: p' => Some (plug parent t, p')
  end.

(** [LEFT_HEIGHT], [RIGHT_HEIGHT]: the height of a possibly null child. *)
Definition height_of t : Z := match t with Null => 0 | Node _ _ h _ => h end.

Definition AVL_MAX (x y : Z) : Z := if x <? y then y else x.

(** [_RotateLeft(node, root)]: [right] takes the place of [node] under
    [parent] ([_ChildPlace] is the plugging of the result). *)
Definition _RotateLeft t : option (tree V) :=
  match t with
  | Node l v h (Node rl rv rh rr) => Some (Node (Node l v h rl) rv rh rr)
  | _ => None
  end.

Definition _RotateRight t : option (tree V) :=
  match t with
  | Node (Node ll lv lh lr) v h r => Some (Node ll lv lh (Node lr v h r))
  | _ => None
  end.

Definition _UpdateHeight t : tree V :=
  match t with
  | Null => Null
  | Node l v _ r => Node l v (AVL_MAX (height_of l) (height_of r) + 1) r
  end.

(** [_UpdateHeight(node->left)], [_UpdateHeight(node->right)]. *)
Definition update_left t : tree V :=
  match t with Null => Null | Node l v h r => Node (_UpdateHeight l) v h r end.
Definition update_right t : tree V :=
  match t with Null => Null | Node l v h r => Node l v h (_UpdateHeight r) end.

Definition _FixupLeftHeavy t : option (tree V) :=
  match t with
  | Node (Node ll lv lh lr as left) v h r =>
      left ← (if height_of ll <? height_of lr
              then left' ← _RotateLeft left; Some (_UpdateHeight (update_left left'))
              else Some left);
      node ← _RotateRight (Node left v h r);
      Some (_UpdateHeight (update_right node))
  | _ => None
  end.

Definition _FixupRigtHeavy t : option (tree V) :=
  match t with
  | Node l v h (Node rl rv rh rr as right) =>
      right ← (if height_of rr <? height_of rl
               then right' ← _RotateRight right; Some (_UpdateHeight (update_right right'))
               else Some right);
      node ← _RotateLeft (Node l v h right);
      Some (_UpdateHeight (update_left node))
  | _ => None
  end.

(** The body shared by the two retracing loops once the height is written. *)
Definition fix_balance t (bf : Z) : option (tree V) :=
  if 2 <=? bf then _FixupLeftHeavy t
  else if bf <=? -2 then _FixupRigtHeavy t
  else Some t.

(** [_InsertFixup(node, root)]: [node] is the focus, [node = node->parent]
    goes one frame up. *)
Fixpoint _InsertFixup t p : option (tree V) :=
  match t with
  | Null => Some (zip p Null)
  | Node l v ht r =>
      let lh := height_of l in
      let rh := height_of r in
      let h := AVL_MAX lh rh + 1 in
      if ht =? h then Some (zip p t)
      else
        node ← fix_balance (Node l v h r) (lh - rh);
        match p with
        | [] => Some node
        | f :: p' => _InsertFixup (plug f node) p'
        end
  end.

(** [_EraseFixup(node, root)]. *)
Fixpoint _EraseFixup t p : option (tree V) :=
  match t with
  | Null => Some (zip p Null)
  | Node l v ht r =>
      let lh := height_of l in
      let rh := height_of r in
      let h := AVL_MAX lh rh + 1 in
      let bf := lh - rh in
      if (ht =? h) && (-1 <=? bf) && (bf <=? 1) then Some (zip p t)
      else
        node ← fix_balance (Node l v h r) bf;
        match p with
        | [] => Some node
        | f :: p' => _EraseFixup (plug f node) p'
        end
  end.

(** [_EraseFixup] started at [parent], which may be null. *)
Definition erase_fixup_parent t p : option (tree V) :=
  match p with
  | [] => Some t
  | f :: p' => _EraseFixup (plug f t) p'
  end.

(** [while ((left = node->left)) node = left;] from the right child. *)
Fixpoint descend_left t p : pos V :=
  match t with
  | Node (Node _ _ _ _ as l) v h r => descend_left l (InLeft v h r :: p)
  | _ => (t, p)
  end.

(** [_Erase(node, root)]. *)
Definition _Erase (node : pos V) : option (tree V) :=
  let '(t, p) := node in
  match t with
  | Null => None
  | Node l v h r =>
      match l, r with
      | Node _ _ _ _, Node _ _ _ _ =>
          match descend_left r [] with
          | (Null, _) => None
          | (Node _ mv _ mr, []) =>
              (* the successor is the right child of the erased node *)
              _EraseFixup (Node l mv h mr) p
          | (Node _ mv _ mr, f2 :: q) =>
              (* the successor is spliced out below [parent2] and put in the
                 place of the erased node *)
              _EraseFixup (plug f2 mr) (q ++ InRight l mv h :: p)
          end
      | Node _ _ _ _, Null => erase_fixup_parent l p
      | Null, Node _ _ _ _ => erase_fixup_parent r p
      | Null, Null => erase_fixup_parent Null p
      end
  end.

(** ** Iteration *)

Fixpoint descend_right t p : pos V :=
  match t with
  | Node l v h (Node _ _ _ _ as r) => descend_right r (InRight l v h :: p)
  | _ => (t, p)
  end.

Definition _GetFirstNode (node : pos V) : option (pos V) :=
  match node with
  | (Null, _) => None
  | (t, p) => Some (descend_left t p)
  end.

Definition _GetLastNode (node : pos V) : option (pos V) :=
  match node with
  | (Null, _) => None
  | (t, p) => Some (descend_right t p)
  end.

(** The [for (;;)] climb of [_GetNextNode]: up to the first ancestor whose
    left child the path comes from. *)
Fixpoint climb_from_left t p : option (pos V) :=
  match p with
  | [] => None
  | (InLeft _ _ _ as f) :: p' => Some (plug f t, p')
  | (InRight _ _ _ as f) :: p' => climb_from_left (plug f t) p'
  end.

Fixpoint climb_from_right t p : option (pos V) :=
  match p with
  | [] => None
  | (InRight _ _ _ as f) :: p' => Some (plug f t, p')
  | (InLeft _ _ _ as f) :: p' => climb_from_right (plug f t) p'
  end.

Definition _GetNextNode (node : pos V) : option (pos V) :=
  match node with
  | (Null, _) => None
  | (Node l v h (Node _ _ _ _ as r), p) => Some (descend_left r (InRight l v h :: p))
  | (t, p) => climb_from_left t p
  end.

Definition _GetPrevNode (node : pos V) : option (pos V) :=
  match node with
  | (Null, _) => None
  | (Node (Node _ _ _ _ as l) v h r, p) => Some (descend_right l (InLeft v h r :: p))
  | (t, p) => climb_from_right t p
  end.
End avl_util.

(** ** Specification vocabulary *)

Section spec.
Context {V : Type}.
Implicit Types (t l r : tree V) (p : path V) (f : frame V).

(** The values in iteration order. *)
Fixpoint inorder t : list V :=
  match t with
  | Null => []
  | Node l v _ r => inorder l ++ v :: inorder r
  end.

(** The values a path puts before and after its hole. *)
Fixpoint before p : list V :=
  match p with
  | [] => []
  | InLeft _ _ _ :: p' => before p'
  | InRight l v _ :: p' => before p' ++ inorder l ++ [v]
  end.

Fixpoint after p : list V :=
  match p with
  | [] => []
  | InLeft v _ r :: p' => v :: inorder r ++ after p'
  | InRight _ _ _ :: p' => after p'
  end.

(** The AVL property: every stored height is the height of the subtree, and
    siblings differ by at most one. *)
Fixpoint avl t : Prop :=
  match t with
  | Null => True
  | Node l _ h r =>
      avl l ∧ avl r ∧ h = 1 + Z.max (height_of l) (height_of r)
      ∧ -1 ≤ height_of l - height_of r ≤ 1
  end.

(** No stored height is negative: what keeps the rotations from reaching
    through a null child, whether or not the heights are the right ones. *)
Fixpoint heights_ok t : Prop :=
  match t with
  | Null => True
  | Node l _ h r => heights_ok l ∧ heights_ok r ∧ 0 ≤ h
  end.

Definition frame_ok f : Prop :=
  match f with
  | InLeft _ h r => heights_ok r ∧ 0 ≤ h
  | InRight l _ h => heights_ok l ∧ 0 ≤ h
  end.

(** [avl_path p k]: the path is that of an AVL tree whose subtree in the hole
    has height [k]. *)
Fixpoint avl_path p (k : Z) : Prop :=
  match p with
  | [] => True
  | InLeft _ h s :: p' | InRight s _ h :: p' =>
      avl s ∧ -1 ≤ k - height_of s ≤ 1 ∧ h = 1 + Z.max k (height_of s) ∧ avl_path p' h
  end.
End spec.

(** ** Basic facts *)

Section facts.
Context {V : Type}.
Implicit Types (t l r : tree V) (p : path V) (f : frame V).

Lemma AVL_MAX_max x y : AVL_MAX x y = Z.max x y.
Proof. unfold AVL_MAX. zcases; lia. Qed.

Lemma zip_app p q t : zip (p ++ q) t = zip q (zip p t).
Proof. revert t. induction p; intros; simpl; auto. Qed.

Lemma inorder_zip p t : inorder (zip p t) = before p ++ inorder t ++ after p.
Proof.
  revert t. induction p as [|[v h r|l v h] p IH]; intros t; simpl.
  - by rewrite app_nil_r.
  - rewrite IH; simpl. by rewrite <-!app_assoc.
  - rewrite IH; simpl. by rewrite <-!app_assoc.
Qed.

Lemma heights_ok_zip p t : heights_ok (zip p t) ↔ Forall frame_ok p ∧ heights_ok t.
Proof.
  revert t. induction p as [|[v h r|l v h] p IH]; intros t; simpl.
  - naive_solver.
  - rewrite IH, Forall_cons. simpl. tauto.
  - rewrite IH, Forall_cons. simpl. tauto.
Qed.

Lemma avl_height t : avl t → 0 ≤ height_of t ∧ (height_of t = 0 → t = Null).
Proof.
  induction t as [|l IHl v h r IHr]; simpl; [done|].
  intros (Hl & Hr & -> & _). destruct (IHl Hl), (IHr Hr). split; [lia|]. lia.
Qed.

Lemma avl_heights_ok t : avl t → heights_ok t.
Proof.
  induction t as [|l IHl v h r IHr]; simpl; [done|].
  intros (Hl & Hr & -> & _). destruct (avl_height l Hl), (avl_height r Hr).
  split_ands; auto. lia.
Qed.

Lemma heights_ok_nonneg t : heights_ok t → 0 ≤ height_of t.
Proof. destruct t; simpl; [done|tauto]. Qed.

Lemma avl_zip p t : avl_path p (height_of t) → avl t → avl (zip p t).
Proof.
  revert t. induction p as [|[v h r|l v h] p IH]; intros t; simpl; [done|..];
    intros (Hs & ? & -> & Hp) Ht; apply IH; simpl; auto; split_ands; auto; lia.
Qed.

Lemma avl_unzip p t : avl (zip p t) → avl_path p (height_of t) ∧ avl t.
Proof.
  revert t. induction p as [|[v h r|l v h] p IH]; intros t; simpl; [done|..];
    intros H; destruct (IH _ H) as [Hp Ht]; simpl in *; naive_solver lia.
Qed.

(** *** Rotation and rebalancing keep the order *)

Lemma _RotateLeft_inorder t t' : _RotateLeft t = Some t' → inorder t' = inorder t.
Proof. destruct t as [|? ? ? []]; intros; simplify_eq/=. by rewrite <-app_assoc. Qed.

Lemma _RotateRight_inorder t t' : _RotateRight t = Some t' → inorder t' = inorder t.
Proof. destruct t as [|[] ? ? ?]; intros; simplify_eq/=. by rewrite <-app_assoc. Qed.

Lemma _UpdateHeight_inorder t : inorder (_UpdateHeight t) = inorder t.
Proof. by destruct t. Qed.

Lemma update_left_inorder t : inorder (update_left t) = inorder t.
Proof. destruct t as [|l ???]; simpl; [done|]. by rewrite _UpdateHeight_inorder. Qed.

Lemma update_right_inorder t : inorder (update_right t) = inorder t.
Proof. destruct t as [|???r]; simpl; [done|]. by rewrite _UpdateHeight_inorder. Qed.

Lemma _FixupLeftHeavy_inorder t t' : _FixupLeftHeavy t = Some t' → inorder t' = inorder t.
Proof.
  destruct t as [|[|ll lv lh lr] v h r]; try done. cbn [_FixupLeftHeavy].
  intros (left & Hleft & (node & Hnode & ?)%bind_Some)%bind_Some. simplify_eq.
  rewrite _UpdateHeight_inorder, update_right_inorder, (_RotateRight_inorder _ _ Hnode).
  simpl. f_equal. case_match; [|by simplify_eq].
  apply bind_Some in Hleft as (l' & Hl' & ?). simplify_eq.
  by rewrite _UpdateHeight_inorder, update_left_inorder, (_RotateLeft_inorder _ _ Hl').
Qed.

Lemma _FixupRigtHeavy_inorder t t' : _FixupRigtHeavy t = Some t' → inorder t' = inorder t.
Proof.
  destruct t as [|l v h [|rl rv rh rr]]; try done. cbn [_FixupRigtHeavy].
  intros (right & Hright & (node & Hnode & ?)%bind_Some)%bind_Some. simplify_eq.
  rewrite _UpdateHeight_inorder, update_left_inorder, (_RotateLeft_inorder _ _ Hnode).
  simpl. do 2 f_equal. case_match; [|by simplify_eq].
  apply bind_Some in Hright as (r' & Hr' & ?). simplify_eq.
  by rewrite _UpdateHeight_inorder, update_right_inorder, (_RotateRight_inorder _ _ Hr').
Qed.

Lemma fix_balance_inorder t bf t' : fix_balance t bf = Some t' → inorder t' = inorder t.
Proof.
  unfold fix_balance. intros H. repeat case_match; simplify_eq;
    eauto using _FixupLeftHeavy_inorder, _FixupRigtHeavy_inorder.
Qed.

(** With non-negative heights a rotation always has the child it needs. *)
Lemma fix_balance_total l v h r :
  heights_ok l → heights_ok r → 0 ≤ h →
  ∃ t', fix_balance (Node l v h r) (height_of l - height_of r) = Some t' ∧ heights_ok t'.
Proof.
  intros Hl Hr Hh. pose proof (heights_ok_nonneg l Hl). pose proof (heights_ok_nonneg r Hr).
  unfold fix_balance. zcases.
  - destruct l as [|ll lv lh lr]; [simpl in *; lia|]. simpl. destruct Hl as (Hll & Hlr & ?).
    pose proof (heights_ok_nonneg _ Hll). pose proof (heights_ok_nonneg _ Hlr).
    zcases; [destruct lr as [|a b c d]; [simpl in *; lia|]|];
      simpl in *; eexists; split; try done; simpl; rewrite ?AVL_MAX_max; naive_solver lia.
  - destruct r as [|rl rv rh rr]; [simpl in *; lia|]. simpl. destruct Hr as (Hrl & Hrr & ?).
    pose proof (heights_ok_nonneg _ Hrl). pose proof (heights_ok_nonneg _ Hrr).
    zcases; [destruct rl as [|a b c d]; [simpl in *; lia|]|];
      simpl in *; eexists; split; try done; simpl; rewrite ?AVL_MAX_max; naive_solver lia.
  - eexists; split; [done|]. simpl. auto.
Qed.
End facts.

(** ** Rebalancing restores the AVL property *)

Section balance.
Context {V : Type}.
Implicit Types (t l r : tree V) (p : path V) (f : frame V).

(** One rebalancing step on a node whose children are AVL trees at most two
    apart: the result is an AVL tree, of the height just written or one less. *)
Lemma fix_balance_avl l v h r :
  avl l → avl r → -2 ≤ height_of l - height_of r ≤ 2 →
  h = 1 + Z.max (height_of l) (height_of r) →
  ∃ t', fix_balance (Node l v h r) (height_of l - height_of r) = Some t' ∧ avl t'
    ∧ (height_of t' = h
       ∨ height_of t' = h - 1 ∧ (height_of l - height_of r = 2 ∨ height_of l - height_of r = -2)).
Proof.
  intros Hl Hr Hbf Hh. destruct (avl_height l Hl) as [? _], (avl_height r Hr) as [? _].
  unfold fix_balance. zcases.
  - destruct l as [|ll lv lh lr]; [simpl in *; lia|]. simpl in *.
    destruct Hl as (Hll & Hlr & -> & ?).
    destruct (avl_height ll Hll) as [? _], (avl_height lr Hlr) as [? _].
    zcases; [destruct lr as [|a b c d]; [simpl in *; lia|]|]; simpl in *;
      eexists; (split; [done|]); simpl; rewrite ?AVL_MAX_max; [|split_ands; auto; lia].
    destruct Hlr as (Ha & Hd & -> & ?).
    destruct (avl_height a Ha) as [? _], (avl_height d Hd) as [? _].
    split_ands; auto; lia.
  - destruct r as [|rl rv rh rr]; [simpl in *; lia|]. simpl in *.
    destruct Hr as (Hrl & Hrr & -> & ?).
    destruct (avl_height rl Hrl) as [? _], (avl_height rr Hrr) as [? _].
    zcases; [destruct rl as [|a b c d]; [simpl in *; lia|]|]; simpl in *;
      eexists; (split; [done|]); simpl; rewrite ?AVL_MAX_max; [|split_ands; auto; lia].
    destruct Hrl as (Ha & Hd & -> & ?).
    destruct (avl_height a Ha) as [? _], (avl_height d Hd) as [? _].
    split_ands; auto; lia.
  - eexists; split; [done|]. simpl. split_ands; auto; lia.
Qed.

(** The node a retracing loop looks at: the stored height is the one before
    the update, one of the children may have grown by [d]. *)
Definition one_off (d hl hr ht : Z) : Prop :=
  ∃ hl0 hr0, -1 ≤ hl0 - hr0 ≤ 1 ∧ ht = 1 + Z.max hl0 hr0
    ∧ (hl = hl0 ∧ hr = hr0 ∨ hl = hl0 + d ∧ hr = hr0 ∨ hl = hl0 ∧ hr = hr0 + d).

Lemma one_off_plug f p t k d :
  avl_path (f :: p) k → avl t → height_of t = k ∨ height_of t = k + d →
  ∃ l v ht r, plug f t = Node l v ht r ∧ avl l ∧ avl r ∧ avl_path p ht
    ∧ one_off d (height_of l) (height_of r) ht.
Proof.
  destruct f as [v h s|s v h]; simpl; intros (Hs & Hk & Hh & Hp) Ht Hd;
    eexists _, _, _, _; (split; [reflexivity|]); split_ands; auto.
  - exists k, (height_of s). lia.
  - exists (height_of s), k. lia.
Qed.

Lemma insert_fixup_avl p l v ht r :
  avl l → avl r → one_off 1 (height_of l) (height_of r) ht → avl_path p ht →
  ∃ t', _InsertFixup (Node l v ht r) p = Some t' ∧ avl t'.
Proof.
  revert l v ht r. induction p as [|f p IH]; intros l v ht r Hl Hr Hoff Hp;
    simpl; rewrite AVL_MAX_max; destruct (Z.eqb_spec ht (Z.max (height_of l) (height_of r) + 1)) as [E|E].
  - eexists; split; [done|]. simpl. destruct Hoff as (?&?&?&?&?). split_ands; auto; lia.
  - destruct (fix_balance_avl l v (Z.max (height_of l) (height_of r) + 1) r) as (t' & Ht' & Havl & _);
      auto; [|lia|]; [destruct Hoff as (?&?&?&?&?); lia|]. rewrite Ht'. by eexists.
  - eexists; split; [done|]. apply (avl_zip (f :: p)); [done|].
    simpl. destruct Hoff as (?&?&?&?&?). split_ands; auto; lia.
  - destruct (fix_balance_avl l v (Z.max (height_of l) (height_of r) + 1) r) as (t' & Ht' & Havl & Hh);
      auto; [|lia|]; [destruct Hoff as (?&?&?&?&?); lia|]. rewrite Ht'. simpl.
    destruct (one_off_plug f p t' ht 1) as (l' & v' & ht' & r' & -> & ? & ? & ? & ?); auto.
    destruct Hoff as (?&?&?&?&?). lia.
Qed.

Lemma erase_fixup_avl p l v ht r :
  avl l → avl r → one_off (-1) (height_of l) (height_of r) ht → avl_path p ht →
  ∃ t', _EraseFixup (Node l v ht r) p = Some t' ∧ avl t'.
Proof.
  revert l v ht r. induction p as [|f p IH]; intros l v ht r Hl Hr Hoff Hp;
    simpl; rewrite AVL_MAX_max;
    destruct ((ht =? Z.max (height_of l) (height_of r) + 1) && (-1 <=? height_of l - height_of r)
       && (height_of l - height_of r <=? 1)) eqn:E.
  - eexists; split; [done|]. simpl. split_ands; auto; lia.
  - destruct (fix_balance_avl l v (Z.max (height_of l) (height_of r) + 1) r) as (t' & Ht' & Havl & _);
      auto; [|lia|]; [destruct Hoff as (?&?&?&?&?); lia|]. rewrite Ht'. by eexists.
  - eexists; split; [done|]. apply (avl_zip (f :: p)); simpl; [|split_ands; auto; lia].
    done.
  - destruct (fix_balance_avl l v (Z.max (height_of l) (height_of r) + 1) r) as (t' & Ht' & Havl & Hh);
      auto; [|lia|]; [destruct Hoff as (?&?&?&?&?); lia|]. rewrite Ht'. simpl.
    destruct (one_off_plug f p t' ht (-1)) as (l' & v' & ht' & r' & -> & ? & ? & ? & ?); auto.
    destruct Hoff as (?&?&?&?&?). lia.
Qed.

Lemma erase_fixup_parent_avl p t k :
  avl_path p k → avl t → height_of t = k - 1 →
  ∃ t', erase_fixup_parent t p = Some t' ∧ avl t'.
Proof.
  destruct p as [|f p]; simpl; intros Hp Ht Hk; [by eexists|].
  destruct (one_off_plug f p t k (-1)) as (l & v & ht & r & -> & ? & ? & ? & ?); auto with lia.
  by apply erase_fixup_avl.
Qed.

(** *** The retracing loops keep the order and never fail *)

Lemma _InsertFixup_inorder t p t' : _InsertFixup t p = Some t' → inorder t' = inorder (zip p t).
Proof.
  revert t. induction p as [|f p IH]; intros [|l v ht r]; simpl; intros H; simplify_eq; try done;
    (case_match; [by simplify_eq|]); apply bind_Some in H as (n & Hn & H);
    apply fix_balance_inorder in Hn.
  { by simplify_eq. }
  rewrite (IH _ H), !inorder_zip. destruct f; simpl in *; by rewrite Hn.
Qed.

Lemma _EraseFixup_inorder t p t' : _EraseFixup t p = Some t' → inorder t' = inorder (zip p t).
Proof.
  revert t. induction p as [|f p IH]; intros [|l v ht r]; simpl; intros H; simplify_eq; try done;
    (case_match; [by simplify_eq|]); apply bind_Some in H as (n & Hn & H);
    apply fix_balance_inorder in Hn.
  { by simplify_eq. }
  rewrite (IH _ H), !inorder_zip. destruct f; simpl in *; by rewrite Hn.
Qed.

Lemma heights_ok_plug f t : frame_ok f → heights_ok t → heights_ok (plug f t).
Proof. destruct f; simpl; tauto. Qed.

Lemma _InsertFixup_total t p :
  Forall frame_ok p → heights_ok t → ∃ t', _InsertFixup t p = Some t' ∧ heights_ok t'.
Proof.
  revert t. induction p as [|f p IH]; intros [|l v ht r] Hp Ht; simpl; try by eauto.
  1: destruct Ht as (?&?&?). 2: by (eexists; split; [done|]; apply (heights_ok_zip (f :: p))).
  2: destruct Ht as (?&?&?).
  all: assert (0 ≤ height_of l ∧ 0 ≤ height_of r) by auto using heights_ok_nonneg;
    destruct (ht =? _); [eexists; split; [done|]; by apply (heights_ok_zip (_ :: _)) || done|].
  all: destruct (fix_balance_total l v (AVL_MAX (height_of l) (height_of r) + 1) r) as (t' & -> & Ht');
    auto; [rewrite AVL_MAX_max; lia|]; simpl.
  { by eauto. }
  apply Forall_cons in Hp as [? ?]. apply IH; auto using heights_ok_plug.
Qed.

Lemma _EraseFixup_total t p :
  Forall frame_ok p → heights_ok t → ∃ t', _EraseFixup t p = Some t' ∧ heights_ok t'.
Proof.
  revert t. induction p as [|f p IH]; intros [|l v ht r] Hp Ht; simpl; try by eauto.
  1: destruct Ht as (?&?&?). 2: by (eexists; split; [done|]; apply (heights_ok_zip (f :: p))).
  2: destruct Ht as (?&?&?).
  all: assert (0 ≤ height_of l ∧ 0 ≤ height_of r) by auto using heights_ok_nonneg;
    destruct (_ && _); [eexists; split; [done|]; by apply (heights_ok_zip (_ :: _)) || done|].
  all: destruct (fix_balance_total l v (AVL_MAX (height_of l) (height_of r) + 1) r) as (t' & -> & Ht');
    auto; [rewrite AVL_MAX_max; lia|]; simpl.
  { by eauto. }
  apply Forall_cons in Hp as [? ?]. apply IH; auto using heights_ok_plug.
Qed.
End balance.

(** ** Erasure *)

Section erase.
Context {V : Type}.
Implicit Types (t l r : tree V) (p : path V) (f : frame V).

Lemma descend_left_app t p : descend_left t p = ((descend_left t []).1, (descend_left t []).2 ++ p).
Proof.
  revert p. induction t as [|l IH v h r _]; intros p; [done|].
  destruct l as [|a b c d]; [done|]. cbn [descend_left] in *.
  rewrite (IH (InLeft v h r :: p)), (IH [InLeft v h r]). simpl. by rewrite <-app_assoc.
Qed.

Lemma descend_left_zip t p t' p' : descend_left t p = (t', p') → zip p' t' = zip p t.
Proof.
  revert p. induction t as [|l IH v h r _]; intros p H; [by simplify_eq/=|].
  destruct l as [|a b c d]; [by simplify_eq/=|]. by apply IH in H.
Qed.

Lemma descend_left_null t p t' p' :
  descend_left t p = (t', p') → t ≠ Null →
  ∃ v h r, t' = Node Null v h r ∧ before p' = before p.
Proof.
  revert p. induction t as [|l IH v h r _]; intros p H ?; [done|].
  destruct l as [|a b c d]; [simplify_eq/=; by eauto 10|]. by apply IH in H.
Qed.

(** The last part of [_Erase]: a tree and its root path agree on the AVL
    property whatever value sits at a node. *)
Lemma avl_zip_value p l v v' h r : avl (zip p (Node l v h r)) → avl (zip p (Node l v' h r)).
Proof. intros [Hp Ht]%avl_unzip. by apply avl_zip. Qed.

Lemma heights_ok_zip_value p l v v' h r :
  heights_ok (zip p (Node l v h r)) → heights_ok (zip p (Node l v' h r)).
Proof. by rewrite !heights_ok_zip. Qed.

Lemma inorder_erase_parent t p t' :
  erase_fixup_parent t p = Some t' → inorder t' = before p ++ inorder t ++ after p.
Proof.
  destruct p as [|f p]; simpl; intros H; [simplify_eq; by rewrite app_nil_r|].
  rewrite (_EraseFixup_inorder _ _ _ H), (inorder_zip p), <-(inorder_zip (f :: p)).
  simpl. by rewrite inorder_zip.
Qed.

(** [_Erase] removes exactly the value of the node it is given. *)
Lemma _Erase_inorder l v h r p t' :
  _Erase (Node l v h r, p) = Some t' →
  inorder t' = before p ++ inorder l ++ inorder r ++ after p.
Proof.
  cbn [_Erase]. destruct l as [|ll lv lh lr], r as [|rl rv rh rr];
    intros H; try (by rewrite (inorder_erase_parent _ _ _ H); simpl; rewrite ?app_nil_r).
  set (l := Node ll lv lh lr) in *. set (r := Node rl rv rh rr) in *.
  destruct (descend_left r []) as [m q] eqn:Hd.
  destruct (descend_left_null _ _ _ _ Hd) as (mv & mh & mr & -> & Hb); [done|].
  apply descend_left_zip in Hd. simpl in Hd, Hb.
  assert (inorder r = mv :: inorder mr ++ after q) as ->.
  { rewrite <-Hd, inorder_zip, Hb. done. }
  destruct q as [|f2 q]; apply _EraseFixup_inorder in H; rewrite H, inorder_zip; simpl.
  - by rewrite <-!app_assoc.
  - rewrite <-(inorder_zip (q ++ _)), zip_app. simpl. rewrite inorder_zip. simpl.
    change (zip q (plug f2 mr)) with (zip (f2 :: q) mr). rewrite inorder_zip, Hb. simpl.
    by app_norm.
Qed.

(** [_Erase] never reaches through a null pointer. *)
Lemma _Erase_total t p :
  t ≠ Null → heights_ok (zip p t) → ∃ t', _Erase (t, p) = Some t' ∧ heights_ok t'.
Proof.
  destruct t as [|l v h r]; [done|]. intros _ Hok. cbn [_Erase].
  assert (Hpar : ∀ s, heights_ok s → Forall frame_ok p →
    ∃ t', erase_fixup_parent s p = Some t' ∧ heights_ok t').
  { intros s Hs Hp. destruct p as [|f p]; simpl; [by eauto|]. apply Forall_cons in Hp as [??].
    apply _EraseFixup_total; auto using heights_ok_plug. }
  pose proof (proj1 (heights_ok_zip _ _) Hok) as (Hp & Hl & Hr & Hh).
  destruct l as [|ll lv lh lr], r as [|rl rv rh rr]; try (by apply Hpar).
  destruct (descend_left _ []) as [m q] eqn:Hd.
  destruct (descend_left_null _ _ _ _ Hd) as (mv & mh & mr & -> & _); [done|].
  apply descend_left_zip in Hd. simpl in Hd. rewrite <-Hd, heights_ok_zip in Hr.
  destruct Hr as [Hq (_ & Hmr & _)].
  destruct q as [|f2 q]; apply _EraseFixup_total; auto.
  - simpl in *; tauto.
  - apply Forall_cons in Hq as [??]. rewrite Forall_app, Forall_cons. simpl in *; tauto.
  - apply Forall_cons in Hq as [??]. auto using heights_ok_plug.
Qed.

(** [_Erase] keeps an AVL tree an AVL tree. *)
Lemma _Erase_avl t p :
  t ≠ Null → avl (zip p t) → ∃ t', _Erase (t, p) = Some t' ∧ avl t'.
Proof.
  destruct t as [|l v h r]; [done|]. intros _ Havl. cbn [_Erase].
  pose proof (avl_unzip _ _ Havl) as [Hp (Hl & Hr & Hh & Hb)].
  destruct (avl_height _ Hl) as [? ?], (avl_height _ Hr) as [? ?].
  destruct l as [|ll lv lh lr], r as [|rl rv rh rr];
    try (eapply erase_fixup_parent_avl; [done..|simpl in *; lia]).
  set (l := Node ll lv lh lr) in *. set (r := Node rl rv rh rr) in *.
  destruct (descend_left r []) as [m q] eqn:Hd.
  destruct (descend_left_null _ _ _ _ Hd) as (mv & mh & mr & -> & _); [done|].
  apply descend_left_zip in Hd. simpl in Hd.
  apply (avl_zip_value _ _ _ mv) in Havl.
  assert (avl (zip (q ++ InRight l mv h :: p) (Node Null mv mh mr))) as [Hpath Hm]%avl_unzip.
  { by rewrite zip_app, Hd. }
  simpl in Hm. destruct Hm as (_ & Hmr & Hmh & ?).
  destruct (avl_height _ Hmr) as [? ?].
  destruct q as [|f2 q]; simpl in Hpath, Hd.
  - destruct Hpath as (? & ? & ? & ?). apply erase_fixup_avl; auto.
    exists (height_of l), mh. simpl in *. lia.
  - destruct (one_off_plug f2 (q ++ InRight l mv h :: p) mr mh (-1))
      as (l' & v' & ht' & r' & -> & ? & ? & ? & ?); auto; [right; lia|].
    by apply erase_fixup_avl.
Qed.
End erase.

(** ** Iteration *)

Section iteration.
Context {V : Type}.
Implicit Types (t l r : tree V) (p : path V) (x y : pos V).

(** The value a position points to, and the values before and after it. *)
Definition pos_val x : option V := match x.1 with Null => None | Node _ v _ _ => Some v end.
Definition pos_before x : list V :=
  before x.2 ++ match x.1 with Null => [] | Node l _ _ _ => inorder l end.
Definition pos_after x : list V :=
  match x.1 with Null => [] | Node _ _ _ r => inorder r end ++ after x.2.
Definition pos_root x : tree V := zip x.2 x.1.

Lemma pos_inorder x v :
  pos_val x = Some v → inorder (pos_root x) = pos_before x ++ v :: pos_after x.
Proof.
  destruct x as [[|l w h r] p]; [done|]; intros [= ->].
  unfold pos_root, pos_before, pos_after; simpl. rewrite inorder_zip. simpl. by app_norm.
Qed.

Lemma descend_left_pos t p :
  t ≠ Null →
  ∃ v, pos_val (descend_left t p) = Some v ∧ pos_root (descend_left t p) = zip p t
    ∧ pos_before (descend_left t p) = before p.
Proof.
  intros Ht. destruct (descend_left t p) as [t' p'] eqn:E.
  destruct (descend_left_null _ _ _ _ E Ht) as (v & h & r & -> & Hb).
  exists v. split_ands; [done|by apply descend_left_zip in E|].
  unfold pos_before; simpl. by rewrite app_nil_r.
Qed.

Lemma descend_right_pos t p :
  t ≠ Null →
  ∃ v, pos_val (descend_right t p) = Some v ∧ pos_root (descend_right t p) = zip p t
    ∧ pos_after (descend_right t p) = after p.
Proof.
  revert p. induction t as [|l _ v h r IH]; intros p Ht; [done|].
  destruct r as [|a b c d]; [by exists v|].
  apply (IH (InRight l v h :: p)). done.
Qed.

Lemma climb_from_left_spec t p :
  match climb_from_left t p with
  | None => after p = []
  | Some y => ∃ w, pos_val y = Some w ∧ pos_root y = zip p t
      ∧ pos_before y = before p ++ inorder t ∧ after p = w :: pos_after y
  end.
Proof.
  revert t. induction p as [|[v h r|l v h] p IH]; intros t; [done| |]; cbn [climb_from_left].
  - by exists v.
  - specialize (IH (plug (InRight l v h) t)). case_match; [|done].
    destruct IH as (w & ? & ? & Hb & ?). exists w. split_ands; try done.
    rewrite Hb. simpl. by app_norm.
Qed.

Lemma climb_from_right_spec t p :
  match climb_from_right t p with
  | None => before p = []
  | Some y => ∃ w, pos_val y = Some w ∧ pos_root y = zip p t
      ∧ pos_after y = inorder t ++ after p ∧ before p = pos_before y ++ [w]
  end.
Proof.
  revert t. induction p as [|[v h r|l v h] p IH]; intros t; [done| |]; cbn [climb_from_right].
  - specialize (IH (plug (InLeft v h r) t)). case_match; [|done].
    destruct IH as (w & ? & ? & Ha & ?). exists w. split_ands; try done.
    rewrite Ha. simpl. by app_norm.
  - exists v. split_ands; try done. unfold pos_before; simpl. by app_norm.
Qed.

(** [_GetNextNode] is the in-order successor: it fails only at the last node,
    and otherwise moves one value on in the same tree. *)
Lemma _GetNextNode_spec x v :
  pos_val x = Some v →
  match _GetNextNode x with
  | None => pos_after x = []
  | Some y => ∃ w, pos_val y = Some w ∧ pos_root y = pos_root x
      ∧ pos_before y = pos_before x ++ [v] ∧ pos_after x = w :: pos_after y
  end.
Proof.
  destruct x as [[|l u h r] p]; [done|]; intros [= ->]; cbn [_GetNextNode _GetPrevNode].
  destruct r as [|rl rv rh rr].
  - pose proof (climb_from_left_spec (Node l v h Null) p) as Hc. simpl in *.
    case_match; [|done]. destruct Hc as (w & ? & ? & Hb & ?). exists w. split_ands; try done.
    rewrite Hb. unfold pos_before; simpl. by app_norm.
  - destruct (descend_left_pos (Node rl rv rh rr) (InRight l v h :: p)) as (w & Hv & Hr & Hb); [done|].
    exists w. split_ands; try done.
    + rewrite Hb. unfold pos_before; simpl. by app_norm.
    + pose proof (pos_inorder _ _ Hv) as Hin. rewrite Hr, Hb, inorder_zip in Hin.
      by apply app_inv_head in Hin.
Qed.

Lemma _GetPrevNode_spec x v :
  pos_val x = Some v →
  match _GetPrevNode x with
  | None => pos_before x = []
  | Some y => ∃ w, pos_val y = Some w ∧ pos_root y = pos_root x
      ∧ pos_after y = v :: pos_after x ∧ pos_before x = pos_before y ++ [w]
  end.
Proof.
  destruct x as [[|l u h r] p]; [done|]; intros [= ->]; cbn [_GetNextNode _GetPrevNode].
  destruct l as [|ll lv lh lr].
  - pose proof (climb_from_right_spec (Node Null v h r) p) as Hc. simpl in *.
    replace (pos_before (Node Null v h r, p)) with (before p)
      by (unfold pos_before; simpl; by rewrite app_nil_r).
    case_match; [|done]. destruct Hc as (w & ? & ? & Ha & ?). by exists w.
  - destruct (descend_right_pos (Node ll lv lh lr) (InLeft v h r :: p)) as (w & Hv & Hr & Ha); [done|].
    exists w. split_ands; try done.
    pose proof (pos_inorder _ _ Hv) as Hin. rewrite Hr, Ha, inorder_zip in Hin.
    remember (descend_right _ _) as y. unfold pos_before at 1. cbn [before after fst snd] in *.
    apply (app_inv_tail (v :: inorder r ++ after p)). app_norm. by rewrite Hin.
Qed.

Lemma _GetFirstNode_spec t :
  match _GetFirstNode (t, []) with
  | None => inorder t = []
  | Some y => ∃ w, pos_val y = Some w ∧ pos_root y = t ∧ pos_before y = []
  end.
Proof.
  unfold _GetFirstNode. destruct t as [|l v h r]; [done|].
  destruct (descend_left_pos (Node l v h r) []) as (w & ? & ? & ?); [done|]. by exists w.
Qed.

Lemma _GetLastNode_spec t :
  match _GetLastNode (t, []) with
  | None => inorder t = []
  | Some y => ∃ w, pos_val y = Some w ∧ pos_root y = t ∧ pos_after y = []
  end.
Proof.
  unfold _GetLastNode. destruct t as [|l v h r]; [done|].
  destruct (descend_right_pos (Node l v h r) []) as (w & ? & ? & ?); [done|]. by exists w.
Qed.
End iteration.
