(* ===== verification/AvlTree.v ===== *)
(** * The AVL tree class

    [mmkv/algo/internal/avl_tree_base.h], [avl_tree_base_impl.h], [avl_tree.h]
    and [avl_list.h]: insertion with and without duplicate keys, search, bounds,
    erasure, extraction, the traversals.

    The derived class hooks ([_IncreaseCount] ...) are the class [Count]:
    [AvlTree] keeps a [size_t], [AvlList] nothing.  Operations return [None]
    when the code would fail an [assert] or dereference a null pointer. *)

From S2P Require Import Prelude Comparator AvlUtil.

(** The count hooks the derived class provides (CRTP parameter [D]). *)
Class Count (D : Type) := {
  count_init : D;
  _IncreaseCount : D → D;
  _DecreaseCount : D → D;
  _SetCount : Z → D → D
}.

(** [AvlTree]: [size_type count_]. *)
#[export] Instance Count_AvlTree : Count Z := {
  count_init := 0;
  _IncreaseCount := λ c, c ⊞ 1;
  _DecreaseCount := λ c, c ⊟ 1;
  _SetCount := λ n _, n
}.

(** [AvlList]: the default implementation of the hooks. *)
#[export] Instance Count_AvlList : Count unit := {
  count_init := ();
  _IncreaseCount := λ c, c;
  _DecreaseCount := λ c, c;
  _SetCount := λ _ c, c
}.

Record AvlTreeBase (D V : Type) := MkAvlTreeBase { root_ : tree V; count_ : D }.
Arguments MkAvlTreeBase {D V}.
Arguments root_ {D V}.
Arguments count_ {D V}.

(** A node outside any tree: its links are null, its [height] field is
    whatever it was when the node was taken out. *)
Record DetachedNode (V : Type) := MkDetached { node_value : V; node_height : Z }.
Arguments MkDetached {V}.
Arguments node_value {V}.
Arguments node_height {V}.

Section avl_tree_base.
Context {K V D : Type} `{Comparator K} `{GetKey K V} `{Count D}.
Implicit Types (a : AvlTreeBase D V) (t : tree V) (p : path V) (k : K) (v : V).

Definition set_root a t : AvlTreeBase D V := MkAvlTreeBase t (count_ a).

Definition IncreaseCount a : AvlTreeBase D V := MkAvlTreeBase (root_ a) (_IncreaseCount (count_ a)).
Definition DecreaseCount a : AvlTreeBase D V := MkAvlTreeBase (root_ a) (_DecreaseCount (count_ a)).

Definition avl_empty : AvlTreeBase D V := MkAvlTreeBase Null count_init.

Definition CreateNode v : tree V := Node Null v 1 Null.
Definition attach (n : DetachedNode V) : tree V := Node Null (node_value n) (node_height n) Null.

(** The [while (slot[0])] descent of the unique insertions: the path to the
    empty slot, or the value already stored under an equal key. *)
Fixpoint descend_slot k t p : path V + V :=
  match t with
  | Null => inl p
  | Node l v h r =>
      let res := TO_COMPARE (TO_GK v) k in
      if 0 <? res then descend_slot k l (InLeft v h r :: p)
      else if res <? 0 then descend_slot k r (InRight l v h :: p)
      else inr v
  end.

(** The descent of [PushEq]: equal keys go to the lower side. *)
Fixpoint descend_slot_eq k t p : path V :=
  match t with
  | Null => p
  | Node l v h r =>
      let res := TO_COMPARE (TO_GK v) k in
      if 0 <? res then descend_slot_eq k l (InLeft v h r :: p)
      else if res <? 0 then descend_slot_eq k r (InRight l v h :: p)
      else if height_of l <? height_of r then descend_slot_eq k l (InLeft v h r :: p)
      else descend_slot_eq k r (InRight l v h :: p)
  end.

(** [_LinkSlot(slot, node, parent); _InsertFixup(parent, &root_);] *)
Definition link_and_fixup p t : option (tree V) :=
  '(parent, q) ← _LinkSlot p t; _InsertFixup parent q.

(** [_InsertWithDuplicate(value, dup)]: the flag it returns and the value
    [*dup] points to. *)
Definition InsertWithDuplicate a v : option (AvlTreeBase D V * bool * V) :=
  match root_ a with
  | Null => Some (IncreaseCount (set_root a (CreateNode v)), true, v)
  | Node Null rv rh Null =>
      let res := TO_COMPARE (TO_GK v) (TO_GK rv) in
      if 0 <? res then Some (set_root a (Node Null rv rh (CreateNode v)), true, v)
      else if res <? 0 then Some (set_root a (Node (CreateNode v) rv rh Null), true, v)
      else Some (a, false, rv)
  | t =>
      match descend_slot (TO_GK v) t [] with
      | inr w => Some (a, false, w)
      | inl p =>
          t' ← link_and_fixup p (CreateNode v);
          Some (IncreaseCount (set_root a t'), true, v)
      end
  end.

Definition Insert a v : option (AvlTreeBase D V * bool) :=
  '(a', ok, _) ← InsertWithDuplicate a v; Some (a', ok).

(** [PushWithDuplicate(node, duplicate)]; [want_dup] says whether [duplicate]
    is a non-null pointer.  In the single-node case the code reads
    [slot[0]] with [slot] null to report the duplicate. *)
Definition PushWithDuplicate a (n : DetachedNode V) (want_dup : bool)
    : option (AvlTreeBase D V * bool * V) :=
  let v := node_value n in
  match root_ a with
  | Null => Some (IncreaseCount (set_root a (attach n)), true, v)
  | Node Null rv rh Null =>
      let res := TO_COMPARE (TO_GK v) (TO_GK rv) in
      if 0 <? res then Some (set_root a (Node Null rv rh (attach n)), true, v)
      else if res <? 0 then Some (set_root a (Node (attach n) rv rh Null), true, v)
      else if want_dup then None
      else Some (a, false, rv)
  | t =>
      match descend_slot (TO_GK v) t [] with
      | inr w => Some (a, false, w)
      | inl p =>
          t' ← link_and_fixup p (attach n);
          Some (IncreaseCount (set_root a t'), true, v)
      end
  end.

Definition Push a (n : DetachedNode V) : option (AvlTreeBase D V * bool) :=
  '(a', ok, _) ← PushWithDuplicate a n false; Some (a', ok).

Definition PushEq a (n : DetachedNode V) : option (AvlTreeBase D V) :=
  match root_ a with
  | Null => Some (IncreaseCount (set_root a (attach n)))
  | t =>
      t' ← link_and_fixup (descend_slot_eq (TO_GK (node_value n)) t []) (attach n);
      Some (IncreaseCount (set_root a t'))
  end.

(** [_InsertEq(value)]: [PushEq(CreateNode(value))]. *)
Definition InsertEq a v : option (AvlTreeBase D V) := PushEq a (MkDetached v 1).

(** [FindNode(key)] from the root. *)
Fixpoint find_node k t p : option (pos V) :=
  match t with
  | Null => None
  | Node l v h r =>
      let res := TO_COMPARE (TO_GK v) k in
      if 0 <? res then find_node k l (InLeft v h r :: p)
      else if res <? 0 then find_node k r (InRight l v h :: p)
      else Some (t, p)
  end.

Definition FindNode a k : option (pos V) := find_node k (root_ a) [].

Definition Find a k : option V := x ← FindNode a k; pos_val x.

(** [LowerBound], [UpperBound]: the last node at which the loop went left. *)
Fixpoint bound_loop (go_left : Z → bool) k t p (track : option (pos V)) : option (pos V) :=
  match t with
  | Null => track
  | Node l v h r =>
      if go_left (TO_COMPARE (TO_GK v) k)
      then bound_loop go_left k l (InLeft v h r :: p) (Some (t, p))
      else bound_loop go_left k r (InRight l v h :: p) track
  end.

Definition LowerBound a k : option (pos V) := bound_loop (λ res, 0 <=? res) k (root_ a) [] None.
Definition UpperBound a k : option (pos V) := bound_loop (λ res, 0 <? res) k (root_ a) [] None.

Definition EraseRoutine a (x : pos V) : option (AvlTreeBase D V) :=
  t' ← _Erase x; Some (DecreaseCount (set_root a t')).

Definition EraseNode a (x : option (pos V)) : option (AvlTreeBase D V * bool) :=
  match x with
  | None => Some (a, false)
  | Some x => a' ← EraseRoutine a x; Some (a', true)
  end.

(** [Erase(key)]. *)
Definition Erase a k : option (AvlTreeBase D V * bool) := EraseNode a (FindNode a k).

(** [Erase(key, pred)]: the loop runs from the node [FindNode] returned; a
    step past the last node reads [node->value] of a null pointer. *)
Fixpoint erase_pred_loop (n : nat) a k (pred : V → bool) (x : pos V)
    : option (AvlTreeBase D V * bool) :=
  match n with
  | O => None
  | S n =>
      v ← pos_val x;
      if pred v then a' ← EraseRoutine a x; Some (a', true)
      else
        y ← _GetNextNode x;
        w ← pos_val y;
        if TO_COMPARE (TO_GK w) k =? 0 then erase_pred_loop n a k pred y
        else Some (a, false)
  end.

Definition ErasePred a k (pred : V → bool) : option (AvlTreeBase D V * bool) :=
  match FindNode a k with
  | None => Some (a, false)
  | Some x => erase_pred_loop (S (length (inorder (root_ a)))) a k pred x
  end.

(** [Extract(key)]: the node keeps its [height] field. *)
Definition Extract a k : option (AvlTreeBase D V * option (DetachedNode V)) :=
  match FindNode a k with
  | None => Some (a, None)
  | Some x =>
      t' ← _Erase x;
      v ← pos_val x;
      Some (DecreaseCount (set_root a t'), Some (MkDetached v (height_of x.1)))
  end.

(** [ReuseAllNodes(node_cb)]: the nodes in the order the callback gets them,
    detached and with [height = 0]. *)
Fixpoint reuse_loop (n : nat) t p (out : list (DetachedNode V)) : option (list (DetachedNode V)) :=
  match n with
  | O => None
  | S n =>
      match t with
      | Null => Some out
      | Node (Node _ _ _ _ as l) v h r => reuse_loop n l (InLeft v h r :: p) out
      | Node Null v h (Node _ _ _ _ as r) => reuse_loop n r (InRight Null v h :: p) out
      | Node Null v h Null =>
          let out' := out ++ [MkDetached v 0] in
          match p with
          | [] => Some out'
          | parent :: p' => reuse_loop n (plug parent Null) p' out'
          end
      end
  end.

Definition ReuseAllNodes a : option (AvlTreeBase D V * list (DetachedNode V)) :=
  ns ← reuse_loop (2 * length (inorder (root_ a)) + 1) (root_ a) [] [];
  Some (MkAvlTreeBase Null (_SetCount 0 (count_ a)), ns).

Definition Clear a : option (AvlTreeBase D V) := '(a', _) ← ReuseAllNodes a; Some a'.

(** [ClearApply(cb)]: the values the callback sees. *)
Definition ClearApply a : option (AvlTreeBase D V * list V) :=
  '(a', ns) ← ReuseAllNodes a; Some (a', map node_value ns).

(** [DoInAll(cb)]: the explicit stack of the in-order walk. *)
Fixpoint push_lefts t (nodes : list (tree V)) : list (tree V) :=
  match t with
  | Null => nodes
  | Node l _ _ _ => push_lefts l (t :: nodes)
  end.

Fixpoint do_in_all_loop (n : nat) t (nodes : list (tree V)) (out : list V) : option (list V) :=
  match n with
  | O => None
  | S n =>
      match push_lefts t nodes with
      | [] => Some out
      | Null :: _ => None
      | Node _ v _ r :: nodes' => do_in_all_loop n r nodes' (out ++ [v])
      end
  end.

Definition DoInAll a : option (list V) :=
  do_in_all_loop (S (length (inorder (root_ a)))) (root_ a) [] [].
End avl_tree_base.

(** ** Specification vocabulary *)

Section spec.
Context {K V : Type} `{Comparator K} `{GetKey K V}.
Implicit Types (t : tree V) (k : K) (x y v : V).

Definition key_lt x y : Prop := TO_COMPARE (TO_GK x) (TO_GK y) < 0.
Definition key_le x y : Prop := TO_COMPARE (TO_GK x) (TO_GK y) ≤ 0.

(** [vcmp x k]: how the code compares a stored value with a searched key. *)
Definition vcmp x k : Z := TO_COMPARE (TO_GK x) k.

(** Search trees with unique keys, and with repeated keys. *)
Definition bst t : Prop := StronglySorted key_lt (inorder t).
Definition bst_eq t : Prop := StronglySorted key_le (inorder t).

(** The balance of the trees the class builds.  Hanging a second node below a
    lone root does not update the root's height, which then stays 1. *)
Definition avl_root t : Prop :=
  avl t ∨ (∃ v w, t = Node (Node Null w 1 Null) v 1 Null)
  ∨ (∃ v w, t = Node Null v 1 (Node Null w 1 Null)).

(** The values in the order [ReuseAllNodes] frees them. *)
Fixpoint postorder t : list V :=
  match t with
  | Null => []
  | Node l v _ r => postorder l ++ postorder r ++ [v]
  end.
End spec.

(** ** Search *)

Section search.
Context {K V D : Type} `{ComparatorOk K} `{GetKey K V} `{Count D}.
Implicit Types (t : tree V) (p : path V) (k : K) (v w : V).

(** Where a search position for [k] may be: everything on the path before
    the hole is smaller than [k] and everything after it is larger. *)
Definition around k p : Prop :=
  Forall (λ v, vcmp v k < 0) (before p) ∧ Forall (λ v, 0 < vcmp v k) (after p).

Lemma bst_node l v h r :
  bst (Node l v h r) ↔
  bst l ∧ bst r ∧ Forall (λ w, key_lt w v) (inorder l) ∧ Forall (key_lt v) (inorder r).
Proof.
  unfold bst. simpl. rewrite StronglySorted_app, StronglySorted_cons.
  rewrite !Forall_forall. set_unfold. split.
  - intros (Hlr & Hl & Hv & Hr). split_ands; auto.
  - intros (Hl & Hr & Hlv & Hvr). split_ands; auto.
    intros x1 x2 Hx1 [->|Hx2]; [auto|]. eapply cmp_lt_trans; [by apply Hlv|by apply Hvr].
Qed.

Lemma around_left k v h r p l :
  bst (Node l v h r) → 0 < vcmp v k → around k p → around k (InLeft v h r :: p).
Proof.
  intros (_ & _ & _ & Hr)%bst_node Hv [Hb Ha]. split; simpl; [done|].
  apply Forall_cons; split; [done|]. apply Forall_app; split; [|done].
  eapply Forall_impl; [done|]. intros w Hw. unfold vcmp, key_lt in *.
  apply cmp_flip_lt. apply cmp_flip_lt in Hv. by eapply cmp_lt_trans.
Qed.

Lemma around_right k v h r p l :
  bst (Node l v h r) → vcmp v k < 0 → around k p → around k (InRight l v h :: p).
Proof.
  intros (_ & _ & Hl & _)%bst_node Hv [Hb Ha]. split; simpl; [|done].
  apply Forall_app; split; [done|]. apply Forall_app; split; [|by apply Forall_singleton].
  eapply Forall_impl; [done|]. intros w Hw. unfold vcmp, key_lt in *. by eapply cmp_lt_trans.
Qed.

(** [FindNode]: the position it returns holds an equal key; when it returns
    null no stored key is equal. *)
Lemma find_node_spec k t p :
  bst t →
  match find_node k t p with
  | Some x => ∃ v, pos_val x = Some v ∧ vcmp v k = 0 ∧ v ∈ inorder t ∧ pos_root x = zip p t
  | None => Forall (λ v, vcmp v k ≠ 0) (inorder t)
  end.
Proof.
  revert p. induction t as [|l IHl v h r IHr]; intros p Hbst; [by constructor|].
  pose proof (proj1 (bst_node _ _ _ _) Hbst) as (Hl & Hr & Hlv & Hvr).
  cbn [find_node]. fold (vcmp v k). zcases.
  - specialize (IHl (InLeft v h r :: p) Hl). case_match.
    + destruct IHl as (w & ? & ? & ? & ?). exists w. set_solver.
    + simpl. apply Forall_app; split; [done|]. apply Forall_cons; split; [lia|].
      eapply Forall_impl; [done|]. intros w Hw Hk. unfold vcmp, key_lt in *.
      apply cmp_flip_eq in Hk. pose proof (cmp_eq_l _ _ (TO_GK v) Hk).
      apply cmp_flip_lt in Hw. pose proof (cmp_antisym (TO_GK v) k). lia.
  - specialize (IHr (InRight l v h :: p) Hr). case_match.
    + destruct IHr as (w & ? & ? & ? & ?). exists w. set_solver.
    + simpl. apply Forall_app; split; [|apply Forall_cons; split; [lia|done]].
      eapply Forall_impl; [done|]. intros w Hw Hk. unfold vcmp, key_lt in *.
      apply cmp_flip_eq in Hk. pose proof (cmp_eq_l _ _ (TO_GK v) Hk).
      pose proof (cmp_antisym (TO_GK v) k). lia.
  - exists v. split_ands; try done; [lia|]. set_solver.
Qed.

(** The insertion descent ends in the empty slot where the key belongs, or at
    the value stored under an equal key. *)
Lemma descend_slot_spec k t p :
  bst t → around k p →
  match descend_slot k t p with
  | inl q => zip q Null = zip p t ∧ around k q
  | inr w => w ∈ inorder t ∧ vcmp w k = 0
  end.
Proof.
  revert p. induction t as [|l IHl v h r IHr]; intros p Hbst Hp; [done|].
  pose proof (proj1 (bst_node _ _ _ _) Hbst) as (Hl & Hr & _ & _).
  cbn [descend_slot]. fold (vcmp v k). zcases.
  - specialize (IHl (InLeft v h r :: p) Hl (around_left _ _ _ _ _ _ Hbst ltac:(done) Hp)).
    case_match; set_solver.
  - specialize (IHr (InRight l v h :: p) Hr (around_right _ _ _ _ _ _ Hbst ltac:(done) Hp)).
    case_match; set_solver.
  - set_solver by lia.
Qed.

Lemma descend_slot_zip k t p q : descend_slot k t p = inl q → zip q Null = zip p t.
Proof.
  revert p. induction t as [|l IHl v h r IHr]; intros p; cbn [descend_slot]; [by intros [= ->]|].
  intros Hd. repeat case_match; [by apply IHl in Hd|by apply IHr in Hd|done].
Qed.

Lemma descend_slot_eq_zip k t p : zip (descend_slot_eq k t p) Null = zip p t.
Proof.
  revert p. induction t as [|l IHl v h r IHr]; intros p; cbn [descend_slot_eq]; [done|].
  repeat case_match; rewrite ?IHl, ?IHr; done.
Qed.
End search.

(** ** Insertion *)

Section insert.
Context {K V D : Type} `{ComparatorOk K} `{GetKey K V} `{Count D}.
Implicit Types (a : AvlTreeBase D V) (t : tree V) (p : path V) (k : K) (v w : V).

(** What a unique insertion promises: refuse an equal key and say which value
    holds it, or add the value at its place in the order. *)
Definition insert_result t v t' (ok : bool) (dup : V) : Prop :=
  if ok
  then dup = v ∧ Forall (λ w, vcmp w (TO_GK v) ≠ 0) (inorder t)
       ∧ ∃ l1 l2, inorder t = l1 ++ l2 ∧ inorder t' = l1 ++ v :: l2
           ∧ Forall (λ w, key_lt w v) l1 ∧ Forall (key_lt v) l2
  else t' = t ∧ dup ∈ inorder t ∧ vcmp dup (TO_GK v) = 0.

Lemma insert_result_bst t v t' ok dup : bst t → insert_result t v t' ok dup → bst t'.
Proof.
  unfold insert_result, bst. intros Hb. destruct ok; [|by intros [-> _]].
  intros (_ & _ & l1 & l2 & E & -> & Hl1 & Hl2). rewrite E, StronglySorted_app in Hb.
  destruct Hb as (Hb & H1' & H2'). rewrite StronglySorted_app, StronglySorted_cons.
  rewrite Forall_forall in Hl1. split_ands; try done.
  intros x1 x2 Hx1 [->|Hx2]%elem_of_cons; auto.
Qed.

Lemma link_and_fixup_spec p t :
  p ≠ [] → heights_ok (zip p t) →
  ∃ t', link_and_fixup p t = Some t' ∧ heights_ok t' ∧ inorder t' = before p ++ inorder t ++ after p.
Proof.
  destruct p as [|f p]; [done|]. intros _ [Hp Ht]%heights_ok_zip.
  apply Forall_cons in Hp as [Hf Hp].
  destruct (_InsertFixup_total (plug f t) p) as (t' & Ht' & Hok); auto using heights_ok_plug.
  exists t'. split_ands; [done..|]. rewrite (_InsertFixup_inorder _ _ _ Ht').
  change (zip p (plug f t)) with (zip (f :: p) t). by rewrite inorder_zip.
Qed.

Lemma around_nil k : around (V := V) k [].
Proof. by split; constructor. Qed.

Lemma around_insert p v t t' :
  zip p Null = t → around (TO_GK v) p → inorder t' = before p ++ [v] ++ after p →
  insert_result t v t' true v.
Proof.
  intros <- [Hb Ha] Hin. unfold insert_result. rewrite inorder_zip. simpl. split_ands; [done| |].
  - apply Forall_app; split; (eapply Forall_impl; [done|]); simpl; lia.
  - exists (before p), (after p). split_ands; try done.
    eapply Forall_impl; [done|]. intros w Hw. by apply cmp_flip_lt.
Qed.

(** The general case of the unique insertions, for a node of any height. *)
Lemma insert_general t v (n : tree V) :
  t ≠ Null → bst t → heights_ok t → heights_ok n → inorder n = [v] →
  match descend_slot (TO_GK v) t [] with
  | inr w => insert_result t v t false w
  | inl p => ∃ t', link_and_fixup p n = Some t' ∧ heights_ok t' ∧ insert_result t v t' true v
  end.
Proof.
  intros Hne Hb Hok Hn Hin. pose proof (descend_slot_spec (TO_GK v) t [] Hb (around_nil _)) as Hs.
  destruct (descend_slot _ t []) as [p|w]; [|by unfold insert_result].
  destruct Hs as [Hz Har]. simpl in Hz.
  destruct (link_and_fixup_spec p n) as (t' & -> & ? & Ht').
  - by intros ->.
  - rewrite <-Hz, heights_ok_zip in Hok. apply heights_ok_zip. naive_solver.
  - exists t'. split_ands; try done. rewrite Hin in Ht'. by eapply around_insert.
Qed.

(** The single-node case. *)
Lemma insert_single rv rh v h :
  let res := TO_COMPARE (TO_GK v) (TO_GK rv) in
  let t := Node Null rv rh Null in
  (0 < res → insert_result t v (Node Null rv rh (Node Null v h Null)) true v)
  ∧ (res < 0 → insert_result t v (Node (Node Null v h Null) rv rh Null) true v)
  ∧ (res = 0 → insert_result t v t false rv).
Proof.
  simpl. unfold insert_result; simpl. split_ands; intros Hr.
  - apply (cmp_flip_lt (TO_GK rv)) in Hr. split_ands; [done| |].
    + apply Forall_singleton. unfold vcmp. lia.
    + exists [rv], []. split_ands; try done; by apply Forall_singleton.
  - split_ands; [done| |].
    + apply Forall_singleton. unfold vcmp. apply cmp_flip_lt in Hr. lia.
    + exists [], [rv]. split_ands; try done; by apply Forall_singleton.
  - split_ands; [done|set_solver|]. by apply cmp_flip_eq.
Qed.

Lemma insert_empty v h : insert_result Null v (Node Null v h Null) true v.
Proof. unfold insert_result. split_ands; [done|by constructor|]. exists [], []. by split_ands. Qed.

(** The code treats null and single-node roots apart. *)
Definition is_single t : bool := match t with Node Null _ _ Null => true | _ => false end.

Lemma PushWithDuplicate_spec a n :
  bst (root_ a) → heights_ok (root_ a) → 0 ≤ node_height n →
  ∃ a' ok d, PushWithDuplicate a n false = Some (a', ok, d)
    ∧ heights_ok (root_ a') ∧ insert_result (root_ a) (node_value n) (root_ a') ok d.
Proof.
  intros Hb Hok Hh. pose proof (insert_general (root_ a) (node_value n) (attach n)) as Hgen.
  unfold PushWithDuplicate.
  destruct (root_ a) as [|l rv rh r] eqn:Hroot.
  - do 3 eexists; split; [done|]. split; [by simpl|]. apply insert_empty.
  - specialize (Hgen ltac:(done) Hb Hok ltac:(by repeat split) eq_refl).
    destruct (is_single (Node l rv rh r)) eqn:Hs.
    + destruct l, r; try done.
      destruct (insert_single rv rh (node_value n) (node_height n)) as (H1' & H2' & H3').
      destruct Hok as (_ & _ & ?).
      zcases; do 3 eexists; (split; [done|]); simpl; rewrite ?Hroot; simpl;
        (split; [by repeat split|]); [by apply H1'|by apply H2'|apply H3'; lia].
    + assert (∃ a' ok d, match descend_slot (TO_GK (node_value n)) (Node l rv rh r) [] with
        | inl p => link_and_fixup p (attach n) ≫=
            λ t', Some (IncreaseCount (set_root a t'), true, node_value n)
        | inr w => Some (a, false, w) end = Some (a', ok, d)
        ∧ heights_ok (root_ a') ∧ insert_result (Node l rv rh r) (node_value n) (root_ a') ok d) as Hres.
      { destruct (descend_slot _ _ _); [|do 3 eexists; split; [done|]; by rewrite Hroot].
        destruct Hgen as (t' & -> & ? & ?). do 3 eexists. by split. }
      destruct l, r; try done.
Qed.

(** A fresh node has height 1; apart from the null [slot] of the single-node
    case the two insertions are the same code. *)
Lemma InsertWithDuplicate_Push a v :
  InsertWithDuplicate a v = PushWithDuplicate a (MkDetached v 1) false.
Proof. unfold InsertWithDuplicate, PushWithDuplicate. by destruct (root_ a) as [|[] ?? []]. Qed.

Lemma avl_InsertWithDuplicate_spec a v :
  bst (root_ a) → heights_ok (root_ a) →
  ∃ a' ok d, InsertWithDuplicate a v = Some (a', ok, d)
    ∧ heights_ok (root_ a') ∧ insert_result (root_ a) v (root_ a') ok d.
Proof. intros. rewrite InsertWithDuplicate_Push. by apply PushWithDuplicate_spec. Qed.
End insert.

(** ** Insertion with repeated keys *)

Section insert_eq.
Context {K V D : Type} `{ComparatorOk K} `{GetKey K V} `{Count D}.
Implicit Types (a : AvlTreeBase D V) (t : tree V) (p : path V) (k : K) (v w : V).

Definition around_eq k p : Prop :=
  Forall (λ v, vcmp v k ≤ 0) (before p) ∧ Forall (λ v, 0 ≤ vcmp v k) (after p).

Lemma bst_eq_node l v h r :
  bst_eq (Node l v h r) ↔
  bst_eq l ∧ bst_eq r ∧ Forall (λ w, key_le w v) (inorder l) ∧ Forall (key_le v) (inorder r).
Proof.
  unfold bst_eq. simpl. rewrite StronglySorted_app, StronglySorted_cons.
  rewrite !Forall_forall. set_unfold. split.
  - intros (Hlr & Hl & Hv & Hr). split_ands; auto.
  - intros (Hl & Hr & Hlv & Hvr). split_ands; auto.
    intros x1 x2 Hx1 [->|Hx2]; [auto|]. eapply cmp_trans; [by apply Hlv|by apply Hvr].
Qed.

Lemma around_eq_left k v h r p l :
  bst_eq (Node l v h r) → 0 ≤ vcmp v k → around_eq k p → around_eq k (InLeft v h r :: p).
Proof.
  intros (_ & _ & _ & Hr)%bst_eq_node Hv [Hb Ha]. split; simpl; [done|].
  apply Forall_cons; split; [done|]. apply Forall_app; split; [|done].
  eapply Forall_impl; [done|]. intros w Hw. unfold vcmp, key_le in *.
  apply cmp_flip_le. apply cmp_flip_le in Hv. by eapply cmp_trans.
Qed.

Lemma around_eq_right k v h r p l :
  bst_eq (Node l v h r) → vcmp v k ≤ 0 → around_eq k p → around_eq k (InRight l v h :: p).
Proof.
  intros (_ & _ & Hl & _)%bst_eq_node Hv [Hb Ha]. split; simpl; [|done].
  apply Forall_app; split; [done|]. apply Forall_app; split; [|by apply Forall_singleton].
  eapply Forall_impl; [done|]. intros w Hw. unfold vcmp, key_le in *. by eapply cmp_trans.
Qed.

Lemma descend_slot_eq_spec k t p :
  bst_eq t → around_eq k p → around_eq k (descend_slot_eq k t p).
Proof.
  revert p. induction t as [|l IHl v h r IHr]; intros p Hbst Hp; [done|].
  pose proof (proj1 (bst_eq_node _ _ _ _) Hbst) as (Hl & Hr & _ & _).
  cbn [descend_slot_eq]. fold (vcmp v k).
  destruct (Z.ltb_spec 0 (vcmp v k)); [|destruct (Z.ltb_spec (vcmp v k) 0); [|case_match]];
    (apply IHl || apply IHr); auto;
    (eapply around_eq_left || eapply around_eq_right); eauto; lia.
Qed.

(** What [PushEq] promises: the value is added next to its equals. *)
Definition insert_eq_result t v t' : Prop :=
  ∃ l1 l2, inorder t = l1 ++ l2 ∧ inorder t' = l1 ++ v :: l2
    ∧ Forall (λ w, key_le w v) l1 ∧ Forall (key_le v) l2.

Lemma insert_eq_result_bst t v t' : bst_eq t → insert_eq_result t v t' → bst_eq t'.
Proof.
  unfold bst_eq. intros Hb (l1 & l2 & E & -> & Hl1 & Hl2). rewrite E, StronglySorted_app in Hb.
  destruct Hb as (Hb & H1' & H2'). rewrite StronglySorted_app, StronglySorted_cons.
  rewrite Forall_forall in Hl1. split_ands; try done.
  intros x1 x2 Hx1 [->|Hx2]%elem_of_cons; auto.
Qed.

Lemma PushEq_spec a n :
  bst_eq (root_ a) → heights_ok (root_ a) → 0 ≤ node_height n →
  ∃ a', PushEq a n = Some a' ∧ heights_ok (root_ a') ∧ count_ a' = _IncreaseCount (count_ a)
    ∧ insert_eq_result (root_ a) (node_value n) (root_ a').
Proof.
  intros Hb Hok Hn. unfold PushEq. destruct (root_ a) as [|l rv rh r] eqn:Hroot.
  - eexists; split; [done|]. simpl. split_ands; try done. exists [], []. by split_ands.
  - set (t := Node l rv rh r) in *. set (q := descend_slot_eq _ t []).
    assert (zip q Null = t) as Hz by apply descend_slot_eq_zip.
    assert (around_eq (TO_GK (node_value n)) q) as [Hlo Hhi]
      by (apply descend_slot_eq_spec; [done|by split; constructor]).
    destruct (link_and_fixup_spec q (attach n)) as (t' & -> & ? & Ht').
    + by intros Hq; rewrite Hq in Hz.
    + rewrite <-Hz, heights_ok_zip in Hok. apply heights_ok_zip. naive_solver.
    + eexists; split; [done|]. split_ands; try done.
      exists (before q), (after q). split_ands; try done.
      * rewrite <-Hz, inorder_zip. done.
      * eapply Forall_impl; [done|]. intros w Hw. by apply cmp_flip_le.
Qed.
End insert_eq.

(** ** Balance *)

Section balanced.
Context {K V D : Type} `{Comparator K} `{GetKey K V} `{Count D}.
Implicit Types (a : AvlTreeBase D V) (t : tree V) (p : path V) (k : K) (v w : V).

(** The empty slots of a two-node tree. *)
Lemma two_node_slots p u w :
  (zip p Null = Node (Node Null w 1 Null) u 1 Null →
    p = [InRight (Node Null w 1 Null) u 1] ∨ p = [InLeft w 1 Null; InLeft u 1 Null]
    ∨ p = [InRight Null w 1; InLeft u 1 Null])
  ∧ (zip p Null = Node Null u 1 (Node Null w 1 Null) →
    p = [InLeft u 1 (Node Null w 1 Null)] ∨ p = [InLeft w 1 Null; InRight Null u 1]
    ∨ p = [InRight Null w 1; InRight Null u 1]).
Proof.
  assert (∀ t : tree V, length (inorder t) = 2%nat → zip p Null = t → (length p < 3)%nat) as Hlen.
  { intros t Ht <-. rewrite inorder_zip in Ht. clear -Ht. revert Ht.
    assert (length p ≤ length (before p ++ inorder Null ++ after p))%nat; [|lia].
    induction p as [|[] p IH]; simpl in *; rewrite ?length_app in *; simpl;
      rewrite ?length_app in *; simpl in *; lia. }
  split; intros E; assert (length p < 3)%nat by (by eapply Hlen; [|apply E]);
    destruct p as [|f [|g [|e p]]]; simpl in *; try lia; try done;
    repeat match goal with f : frame V |- _ => destruct f end; naive_solver.
Qed.

(** A new leaf below an existing node: the fixup restores the balance, also
    when the tree is a two-node tree whose root height is stale. *)
Lemma link_and_fixup_avl p v :
  p ≠ [] → avl_root (zip p Null) → ∃ t', link_and_fixup p (CreateNode v) = Some t' ∧ avl t'.
Proof.
  intros Hp [Havl|[(u & w & E)|(u & w & E)]].
  - destruct p as [|f p]; [done|]. apply avl_unzip in Havl as [Hpath _].
    unfold link_and_fixup. cbn [_LinkSlot]. simpl mbind.
    destruct (one_off_plug f p (CreateNode v) 0 1) as (l & w & h & r & -> & ? & ? & ? & ?);
      [done|by simpl; split_ands|by right|]. by apply insert_fixup_avl.
  - apply two_node_slots in E as [->|[->| ->]]; eexists; (split; [reflexivity|]);
      by simpl; split_ands.
  - apply two_node_slots in E as [->|[->| ->]]; eexists; (split; [reflexivity|]);
      by simpl; split_ands.
Qed.

Lemma avl_root_heights_ok t : avl_root t → heights_ok t.
Proof. intros [?|[(v & w & ->)|(v & w & ->)]]; [by apply avl_heights_ok|by simpl; split_ands..]. Qed.

(** Unique insertion keeps the balance, in spite of the height the
    single-node case leaves unset. *)
Lemma InsertWithDuplicate_avl a v :
  avl_root (root_ a) →
  ∃ a' ok d, InsertWithDuplicate a v = Some (a', ok, d) ∧ avl_root (root_ a').
Proof.
  unfold InsertWithDuplicate. intros Havl.
  destruct (root_ a) as [|l rv rh r] eqn:Hroot.
  { do 3 eexists; split; [done|]. left. by simpl; split_ands. }
  destruct (is_single (Node l rv rh r)) eqn:Hs.
  - destruct l, r; try done. destruct Havl as [(_ & _ & -> & _)|]; [|naive_solver].
    zcases; do 3 eexists; (split; [done|]); simpl.
    + right; right. by eexists _, _.
    + right; left. by eexists _, _.
    + left. rewrite Hroot. by simpl; split_ands.
  - assert (∃ a' ok d, match descend_slot (TO_GK v) (Node l rv rh r) [] with
        | inl p => link_and_fixup p (CreateNode v) ≫= λ t', Some (IncreaseCount (set_root a t'), true, v)
        | inr w => Some (a, false, w) end = Some (a', ok, d) ∧ avl_root (root_ a')) as Hres.
    { destruct (descend_slot _ _ _) as [p|] eqn:Hd; [|do 3 eexists; split; [done|]; by rewrite Hroot].
      apply descend_slot_zip in Hd. simpl in Hd.
      destruct (link_and_fixup_avl p v) as (t' & -> & Ht'); [by intros ->|by rewrite Hd|].
      do 3 eexists. split; [done|]. by left. }
    destruct l, r; try done.
Qed.

Lemma InsertEq_avl a v :
  avl_root (root_ a) → ∃ a', InsertEq a v = Some a' ∧ avl_root (root_ a').
Proof.
  unfold InsertEq, PushEq. intros Havl. destruct (root_ a) as [|l rv rh r] eqn:Hroot.
  { eexists; split; [done|]. left. by simpl; split_ands. }
  set (t := Node l rv rh r) in *. cbn [node_value].
  assert (zip (descend_slot_eq (TO_GK v) t []) Null = t) as Hz by apply descend_slot_eq_zip.
  destruct (link_and_fixup_avl (descend_slot_eq (TO_GK v) t []) v) as (t' & Ht' & Havl').
  - by intros Hq; rewrite Hq in Hz.
  - by rewrite Hz.
  - change (attach (MkDetached v 1)) with (CreateNode v). rewrite Ht'.
    eexists; split; [done|]. by left.
Qed.

(** Erasing a node of a balanced tree leaves a balanced tree. *)
Lemma _Erase_avl_root (x : pos V) v :
  pos_val x = Some v → avl_root (pos_root x) → ∃ t', _Erase x = Some t' ∧ avl t'.
Proof.
  destruct x as [t p]. unfold pos_val, pos_root; cbn [fst snd].
  intros Hv [Havl|[(u & w & E)|(u & w & E)]]; destruct t as [|l v0 h r]; try done.
  { by apply _Erase_avl. }
  all: assert (length (inorder (zip p (Node l v0 h r))) = 2%nat) as Hlen by (by rewrite E).
  all: rewrite inorder_zip in Hlen; simpl in Hlen;
    repeat (rewrite length_app in Hlen; simpl in Hlen).
  all: destruct p as [|f [|g p]]; simpl in E;
    repeat match goal with f : frame V |- _ => destruct f end; simplify_eq/=;
    try (eexists; split; [reflexivity|]; by simpl; split_ands);
    repeat (rewrite length_app in Hlen; simpl in Hlen); try lia.
Qed.
End balanced.

(** ** Erasure and extraction *)

Section erase.
Context {K V D : Type} `{ComparatorOk K} `{GetKey K V} `{Count D}.
Implicit Types (a : AvlTreeBase D V) (t : tree V) (p : path V) (k : K) (v w : V) (x : pos V).

Lemma _Erase_pos_inorder x v t' :
  pos_val x = Some v → _Erase x = Some t' → inorder t' = pos_before x ++ pos_after x.
Proof.
  destruct x as [[|l w h r] p]; [done|]. intros _ He.
  rewrite (_Erase_inorder _ _ _ _ _ _ He). unfold pos_before, pos_after; simpl. by app_norm.
Qed.

Lemma _Erase_pos_total x v :
  pos_val x = Some v → heights_ok (pos_root x) → ∃ t', _Erase x = Some t' ∧ heights_ok t'.
Proof. destruct x as [t p]. intros Hv. apply _Erase_total. by destruct t. Qed.

(** What the erasures by key promise. *)
Definition erase_result k t t' (removed : option V) : Prop :=
  match removed with
  | Some v => vcmp v k = 0 ∧ ∃ l1 l2, inorder t = l1 ++ v :: l2 ∧ inorder t' = l1 ++ l2
  | None => t' = t ∧ Forall (λ v, vcmp v k ≠ 0) (inorder t)
  end.

Lemma erase_result_bst k t t' removed : bst t → erase_result k t t' removed → bst t'.
Proof.
  unfold bst. destruct removed as [v|]; [|by intros ? [-> _]].
  intros Hb (_ & l1 & l2 & E & ->). rewrite E in Hb.
  rewrite StronglySorted_app in Hb |- *. rewrite StronglySorted_cons in Hb.
  destruct Hb as (Hx & ? & _ & ?). split_ands; try done. intros; apply Hx; set_solver.
Qed.

(** [Extract]: the node comes out with the height it had in the tree. *)
Lemma avl_Extract_spec a k :
  bst (root_ a) → heights_ok (root_ a) →
  ∃ a' n, Extract a k = Some (a', n) ∧ heights_ok (root_ a')
    ∧ erase_result k (root_ a) (root_ a') (node_value <$> n)
    ∧ (∀ d, n = Some d → 0 ≤ node_height d).
Proof.
  intros Hb Hok. unfold Extract, FindNode.
  pose proof (find_node_spec k (root_ a) [] Hb) as Hf. case_match; last first.
  { do 2 eexists; split; [done|]. by split_ands. }
  destruct Hf as (v & Hv & Hk & _ & Hr). simpl in Hr. rename p into x.
  destruct (_Erase_pos_total x v Hv) as (t' & Ht' & Hok'); [by rewrite Hr|].
  rewrite Ht', Hv. do 2 eexists; split; [done|]. simpl. split_ands; try done.
  - exists (pos_before x), (pos_after x). split; [|by eapply _Erase_pos_inorder].
    rewrite <-(pos_inorder _ _ Hv). by rewrite Hr.
  - intros d [= <-]. simpl. apply heights_ok_nonneg.
    rewrite <-Hr in Hok. by apply heights_ok_zip in Hok as [_ ?].
Qed.

Lemma Erase_Extract a k : Erase a k = '(a', n) ← Extract a k; Some (a', bool_decide (is_Some n)).
Proof.
  unfold Erase, Extract, EraseNode, EraseRoutine. case_match eqn:Hf; [|done].
  assert (is_Some (pos_val p)) as [v ->].
  { unfold FindNode in Hf. revert Hf. generalize (@nil (frame V)).
    induction (root_ a) as [|l IHl v h r IHr]; intros q; [done|]; cbn [find_node].
    repeat case_match; intros; simplify_eq; eauto. }
  by destruct (_Erase p).
Qed.
End erase.

(** ** The traversals *)

Section traversals.
Context {V D : Type} `{Count D}.
Implicit Types (a : AvlTreeBase D V) (t : tree V) (p : path V) (v w : V).

Lemma push_lefts_app t nodes : push_lefts t nodes = push_lefts t [] ++ nodes.
Proof.
  revert nodes. induction t as [|l IH v h r _]; intros nodes; [done|].
  cbn [push_lefts]. rewrite IH, (IH [_]). by app_norm.
Qed.

(** What the stack of [DoInAll] still has to visit. *)
Definition pending (nodes : list (tree V)) : list V :=
  nodes ≫= λ t, match t with Null => [] | Node _ v _ r => v :: inorder r end.

Lemma pending_push_lefts t nodes : pending (push_lefts t nodes) = inorder t ++ pending nodes.
Proof.
  revert nodes. induction t as [|l IH v h r _]; intros nodes; [done|].
  cbn [push_lefts]. rewrite IH. simpl. by app_norm.
Qed.

Lemma push_lefts_nonnull t nodes :
  Forall (.≠ Null) nodes → Forall (.≠ Null) (push_lefts t nodes).
Proof.
  revert nodes. induction t as [|l IH v h r _]; intros nodes Hn; [done|].
  apply IH. by constructor.
Qed.

Lemma do_in_all_loop_spec n t nodes out :
  Forall (.≠ Null) nodes → (length (inorder t ++ pending nodes) < n)%nat →
  do_in_all_loop n t nodes out = Some (out ++ inorder t ++ pending nodes).
Proof.
  revert t nodes out. induction n as [|n IH]; intros t nodes out Hn Hlen; [lia|].
  cbn [do_in_all_loop]. rewrite <-pending_push_lefts in Hlen |- *.
  pose proof (push_lefts_nonnull t nodes Hn) as Hn'.
  destruct (push_lefts t nodes) as [|[|l v h r] nodes'].
  - by rewrite app_nil_r.
  - by apply Forall_cons in Hn' as [? _].
  - apply Forall_cons in Hn' as [_ ?].
    change (pending (Node l v h r :: nodes')) with ((v :: inorder r) ++ pending nodes') in *.
    rewrite IH; [by app_norm|done|]. simpl in Hlen. lia.
Qed.

Lemma DoInAll_inorder a : DoInAll a = Some (inorder (root_ a)).
Proof.
  unfold DoInAll. rewrite do_in_all_loop_spec; [by simpl; rewrite app_nil_r|by constructor|].
  simpl. rewrite app_nil_r. lia.
Qed.

Lemma length_postorder t : length (postorder t) = length (inorder t).
Proof. induction t; simpl; [done|]. rewrite !length_app. simpl. lia. Qed.

Lemma postorder_perm t : postorder t ≡ₚ inorder t.
Proof.
  induction t as [|l IHl v h r IHr]; simpl; [done|].
  rewrite IHl, IHr. by rewrite <-Permutation_cons_append.
Qed.

Lemma inorder_pos t : t ≠ Null → (1 ≤ length (inorder t))%nat.
Proof. destruct t; [done|]. intros _. simpl. rewrite length_app. simpl. lia. Qed.

(** The loop of [ReuseAllNodes] below a path: it empties the subtree in
    postorder, in two steps per node, and comes back to the parent with the
    child field nulled. *)
Definition reuse_after n p (out : list (DetachedNode V)) : option (list (DetachedNode V)) :=
  match p with
  | [] => Some out
  | f :: p' => reuse_loop n (plug f Null) p' out
  end.

Lemma reuse_loop_right v h r n p out :
  (∀ m q out, r ≠ Null →
    reuse_loop ((2 * length (inorder r) - 1) + m) r q out
    = reuse_after m q (out ++ map (λ v, MkDetached v 0) (postorder r))) →
  reuse_loop (2 * length (inorder r) + 1 + n) (Node Null v h r) p out
  = reuse_after n p (out ++ map (λ v, MkDetached v 0) (postorder r ++ [v])).
Proof.
  intros IH. destruct r as [|rl rv rh rr]; [done|]. set (r := Node rl rv rh rr) in *.
  assert (r ≠ Null) as Hr by done. pose proof (inorder_pos r Hr).
  replace (2 * length (inorder r) + 1 + n)%nat
    with (S ((2 * length (inorder r) - 1) + S n))%nat by lia.
  transitivity (reuse_loop ((2 * length (inorder r) - 1) + S n) r (InRight Null v h :: p) out); [done|].
  rewrite IH by done. cbn [reuse_after]. rewrite map_app, app_assoc. done.
Qed.

Lemma reuse_loop_spec t n p out :
  t ≠ Null →
  reuse_loop ((2 * length (inorder t) - 1) + n) t p out
  = reuse_after n p (out ++ map (λ v, MkDetached v 0) (postorder t)).
Proof.
  revert n p out. induction t as [|l IHl v h r IHr]; intros n p out Ht; [done|]. clear Ht.
  cbn [inorder postorder]. rewrite length_app. cbn [length].
  destruct l as [|ll lv lh lr].
  - replace (2 * (length (inorder Null) + S (length (inorder r))) - 1 + n)%nat
      with (2 * length (inorder r) + 1 + n)%nat by (simpl; lia).
    by rewrite reuse_loop_right by (intros; by apply IHr).
  - set (l := Node ll lv lh lr) in *. assert (l ≠ Null) as Hl by done. pose proof (inorder_pos l Hl).
    replace (2 * (length (inorder l) + S (length (inorder r))) - 1 + n)%nat
      with (S ((2 * length (inorder l) - 1) + (2 * length (inorder r) + 1 + n)))%nat by lia.
    transitivity (reuse_loop ((2 * length (inorder l) - 1) + (2 * length (inorder r) + 1 + n))
      l (InLeft v h r :: p) out); [done|].
    rewrite IHl by done. cbn [reuse_after plug].
    rewrite reuse_loop_right by (intros; by apply IHr). rewrite !map_app. by app_norm.
Qed.

(** [ReuseAllNodes] terminates, hands every node out exactly once, children
    before their parent, and leaves an empty tree. *)
Lemma ReuseAllNodes_spec a :
  ReuseAllNodes a =
  Some (MkAvlTreeBase Null (_SetCount 0 (count_ a)),
        map (λ v, MkDetached v 0) (postorder (root_ a))).
Proof.
  unfold ReuseAllNodes. destruct (root_ a) as [|l v h r] eqn:E; [done|]. rewrite <-E.
  assert (root_ a ≠ Null) as Hne by (by rewrite E). pose proof (inorder_pos _ Hne).
  replace (2 * length (inorder (root_ a)) + 1)%nat
    with ((2 * length (inorder (root_ a)) - 1) + 2)%nat by lia.
  by rewrite reuse_loop_spec.
Qed.
End traversals.

(** ** Bounds *)

Section bounds.
Context {K V D : Type} `{ComparatorOk K} `{GetKey K V} `{Count D}.
Implicit Types (a : AvlTreeBase D V) (t : tree V) (p : path V) (k : K) (v w : V) (x : pos V).

Section loop.
Variables (go_left : Z → bool) (k : K).
(** The test is monotone along the order of the tree. *)
Hypothesis go_left_mono :
  ∀ v w, key_le v w → go_left (vcmp v k) = true → go_left (vcmp w k) = true.

(** The first value of the tree that passes the test. *)
Definition bound_result t (res : option (pos V)) : Prop :=
  match res with
  | None => Forall (λ v, go_left (vcmp v k) = false) (inorder t)
  | Some x => pos_root x = t ∧ ∃ v, pos_val x = Some v ∧ go_left (vcmp v k) = true
      ∧ Forall (λ v, go_left (vcmp v k) = false) (pos_before x)
  end.

Lemma bound_loop_spec t p track root :
  bst_eq t → zip p t = root →
  Forall (λ v, go_left (vcmp v k) = false) (before p) →
  match track with
  | None => after p = []
  | Some x => pos_root x = root ∧ pos_before x = before p ++ inorder t
      ∧ ∃ v, pos_val x = Some v ∧ go_left (vcmp v k) = true
  end →
  bound_result root (bound_loop go_left k t p track).
Proof.
  revert p track. induction t as [|l IHl v h r IHr]; intros p track Hb Hz Hbef Htr.
  - simpl. destruct track as [x|]; simpl in *.
    + destruct Htr as (Hr & Hbx & v & ? & ?). split; [done|]. exists v. split_ands; try done.
      by rewrite Hbx, app_nil_r.
    + rewrite <-Hz, inorder_zip, Htr. simpl. by rewrite app_nil_r.
  - apply bst_eq_node in Hb as (Hl & Hr & Hlv & Hvr). cbn [bound_loop]. fold (vcmp v k).
    destruct (go_left (vcmp v k)) eqn:Hg.
    + apply IHl; try done. split_ands; [done..|]. by exists v.
    + apply IHr; try done.
      * simpl. apply Forall_app; split; [done|]. apply Forall_app; split; [|by apply Forall_singleton].
        eapply Forall_impl; [done|]. intros w Hw. simpl.
        destruct (go_left (vcmp w k)) eqn:Hgw; [|done].
        by rewrite (go_left_mono w v Hw Hgw) in Hg.
      * destruct track as [x|]; [|done]. destruct Htr as (? & Hbx & ?). split_ands; try done.
        rewrite Hbx. simpl. by app_norm.
Qed.
End loop.

Lemma LowerBound_bound a k :
  bst_eq (root_ a) → bound_result (λ res, 0 <=? res) k (root_ a) (LowerBound a k).
Proof.
  intros Hb. apply bound_loop_spec; try done.
  intros v w Hvw Hv. unfold vcmp, key_le in *. rewrite Z.leb_le in *.
  apply cmp_flip_le. apply cmp_flip_le in Hv. by eapply cmp_trans.
Qed.

Lemma UpperBound_bound a k :
  bst_eq (root_ a) → bound_result (λ res, 0 <? res) k (root_ a) (UpperBound a k).
Proof.
  intros Hb. apply bound_loop_spec; try done.
  intros v w Hvw Hv. unfold vcmp, key_le in *. rewrite Z.ltb_lt in *.
  apply cmp_flip_lt. apply cmp_flip_lt in Hv. by eapply cmp_lt_le_trans.
Qed.
End bounds.

(** ** The height of a balanced tree *)

Section height.
Context {V : Type}.
Implicit Types (t : tree V) (p : path V).

Lemma avl_size_sq t : avl t → 2 ^ height_of t ≤ (Z.of_nat (length (inorder t)) + 1) ^ 2.
Proof.
  induction t as [|l IHl v h r IHr]; [simpl; lia|]. cbn [avl]. intros (Hl & Hr & Hh & Hb).
  destruct (avl_height l Hl) as [? _], (avl_height r Hr) as [? _].
  specialize (IHl Hl). specialize (IHr Hr). cbn [height_of inorder].
  rewrite length_app; simpl length. rewrite Nat2Z.inj_add, Nat2Z.inj_succ.
  set (x := Z.of_nat (length (inorder l))) in *. set (y := Z.of_nat (length (inorder r))) in *.
  assert (0 ≤ x ∧ 0 ≤ y) as [? ?] by lia.
  assert (∀ a b X, 0 < X → 1 ≤ a → 1 ≤ b → X ≤ a ^ 2 → X ≤ b ^ 2 → 2 * X ≤ a ^ 2 ∨ 2 * X ≤ b ^ 2 →
    4 * X ≤ (a + b) ^ 2) as Harith.
  { intros a b X ????? ?. assert (X ≤ a * b) by nia. nia. }
  assert (1 ≤ h) by lia. destruct (decide (h = 1)) as [->|]; [change (2 ^ 1) with 2; nia|].
  replace (x + Z.succ y + 1) with ((x + 1) + (y + 1)) by lia.
  replace (2 ^ h) with (4 * 2 ^ (h - 2)); last first.
  { replace h with ((h - 2) + 2) at 2 by lia. rewrite Z.pow_add_r by lia. lia. }
  assert (2 ^ (h - 1) = 2 * 2 ^ (h - 2)) as Hp1.
  { replace (h - 1) with ((h - 2) + 1) by lia. rewrite Z.pow_add_r by lia. lia. }
  assert (0 < 2 ^ (h - 2)) by lia.
  assert (∀ z, z = h - 1 ∨ z = h - 2 → 2 ^ (h - 2) ≤ 2 ^ z) as Hge by (intros z [->| ->]; rewrite ?Hp1; lia).
  apply Harith; try lia.
  - pose proof (Hge (height_of l)). lia.
  - pose proof (Hge (height_of r)). lia.
  - assert (height_of l = h - 1 ∨ height_of r = h - 1) as [E|E] by lia; rewrite E in *; lia.
Qed.

(** [height] is logarithmic in the number of values. *)
Lemma avl_height_log t :
  avl t → height_of t ≤ 2 * Z.log2 (Z.of_nat (length (inorder t)) + 1) + 1.
Proof.
  intros Ht. pose proof (avl_size_sq t Ht). destruct (avl_height t Ht) as [? _].
  set (n := Z.of_nat (length (inorder t)) + 1) in *. assert (0 < n) by lia.
  pose proof (Z.log2_spec n ltac:(lia)) as [_ Hn]. pose proof (Z.log2_nonneg n).
  assert (n ^ 2 < 2 ^ (2 * Z.log2 n + 2)) as Hlt.
  { replace (2 * Z.log2 n + 2) with (Z.succ (Z.log2 n) * 2) by lia. rewrite Z.pow_mul_r by lia.
    apply Z.pow_lt_mono_l; lia. }
  assert (2 ^ height_of t < 2 ^ (2 * Z.log2 n + 2)) as Hlt2 by lia.
  apply Z.pow_lt_mono_r_iff in Hlt2; lia.
Qed.

(** A path is no longer than the tree is high. *)
Lemma avl_path_length p t :
  avl (zip p t) → Z.of_nat (length p) + height_of t ≤ height_of (zip p t).
Proof.
  revert t. induction p as [|f p IH]; intros t; simpl; [lia|]. intros Ha.
  pose proof (IH _ Ha). apply avl_unzip in Ha as [_ Ha].
  destruct f; simpl in *; lia.
Qed.
End height.

(** ** The properties of the class *)

Section properties.
Context {K V D : Type} `{ComparatorOk K} `{GetKey K V} `{Count D}.
Implicit Types (a : AvlTreeBase D V) (k : K) (v w : V) (x : pos V).

(** C6: unique insertion is correct on every branch.  On a balanced search
    tree it never fails; an equal key is refused, the stored value reported
    and the tree left alone; a new key is added at its place in the order, and
    the result is again a balanced search tree. *)
Theorem avl_insert_correct a v :
  bst (root_ a) → avl_root (root_ a) →
  ∃ a' ok d, InsertWithDuplicate a v = Some (a', ok, d)
    ∧ insert_result (root_ a) v (root_ a') ok d ∧ bst (root_ a') ∧ avl_root (root_ a').
Proof.
  intros Hb Ha. destruct (InsertWithDuplicate_avl a v Ha) as (a' & ok & d & E & Ha').
  destruct (avl_InsertWithDuplicate_spec a v Hb (avl_root_heights_ok _ Ha)) as (? & ? & ? & E' & _ & Hr).
  rewrite E in E'. injection E' as <- <- <-. exists a', ok, d. eauto using insert_result_bst.
Qed.

(** C7: extraction and erasure by key are correct on every branch: a missing key leaves
    the tree and its count alone, and [Erase] reports that there was none; of a present
    key exactly one value is removed, [Extract] hands it out, [Erase] reports it, the
    count goes down by one; and the result is again a balanced search tree. *)
Theorem avl_extract_correct a k :
  bst (root_ a) → avl_root (root_ a) →
  ∃ a' n, Extract a k = Some (a', n) ∧ Erase a k = Some (a', bool_decide (is_Some n))
    ∧ erase_result k (root_ a) (root_ a') (node_value <$> n)
    ∧ count_ a' = (if n is Some _ then _DecreaseCount (count_ a) else count_ a)
    ∧ bst (root_ a') ∧ avl_root (root_ a').
Proof.
  intros Hb Ha. destruct (avl_Extract_spec a k Hb (avl_root_heights_ok _ Ha)) as (a' & n & E & _ & Hr & _).
  exists a', n. rewrite Erase_Extract, E. unfold Extract, FindNode in E. pose proof (find_node_spec k (root_ a) [] Hb) as Hf.
  destruct (find_node k (root_ a) []) as [x|].
  2: { simplify_eq. split_ands; [done..|by eapply erase_result_bst|done]. }
  destruct Hf as (v & Hv & _ & _ & Hroot). simpl in Hroot.
  destruct (_Erase_avl_root x v Hv) as (t' & Ht' & Havl); [by rewrite Hroot|].
  rewrite Ht', Hv in E. injection E as <- <-. pose proof (erase_result_bst _ _ _ _ Hb Hr). split_and!; [done..|by left].
Qed.

(** Insertion with repeated keys, as the sorted sets use it: on a
    balanced tree in key order it never fails, puts the value among its
    equals, counts it, and the result is balanced and in order. *)
Theorem avl_insert_eq_correct a v :
  bst_eq (root_ a) → avl_root (root_ a) →
  ∃ a', InsertEq a v = Some a' ∧ insert_eq_result (root_ a) v (root_ a')
    ∧ count_ a' = _IncreaseCount (count_ a) ∧ bst_eq (root_ a') ∧ avl_root (root_ a').
Proof.
  intros Hb Ha. destruct (InsertEq_avl a v Ha) as (a' & E & Ha').
  destruct (PushEq_spec a (MkDetached v 1) Hb (avl_root_heights_ok _ Ha)) as (a2 & E' & _ & ? & ?); [done|].
  unfold InsertEq in E |- *. rewrite E in E'. simplify_eq. exists a2. eauto 10 using insert_eq_result_bst.
Qed.

(** Search is sound and complete, and takes at most
    [2 log2 (n + 1) + 1] steps down on a balanced tree of [n] values. *)
Theorem avl_find_correct a k :
  bst (root_ a) → avl (root_ a) →
  match FindNode a k with
  | Some (t, p) => ∃ v, pos_val (t, p) = Some v ∧ v ∈ inorder (root_ a) ∧ vcmp v k = 0
      ∧ Find a k = Some v
      ∧ Z.of_nat (length p) ≤ 2 * Z.log2 (Z.of_nat (length (inorder (root_ a))) + 1)
  | None => Find a k = None ∧ Forall (λ v, vcmp v k ≠ 0) (inorder (root_ a))
  end.
Proof.
  intros Hb Ha. unfold Find, FindNode. pose proof (find_node_spec k (root_ a) [] Hb) as Hf.
  destruct (find_node k (root_ a) []) as [[t p]|]; [|done].
  destruct Hf as (v & Hv & ? & ? & Hr). unfold pos_root in Hr; simpl in Hr.
  exists v. split_ands; try done.
  pose proof (avl_path_length p t) as Hlen. pose proof (avl_height_log (root_ a) Ha).
  rewrite Hr in Hlen. specialize (Hlen Ha).
  assert (1 ≤ height_of t); [|lia].
  destruct t as [|l w h r]; [done|]. rewrite <-Hr in Ha. apply avl_unzip in Ha as [_ (Hl & Hr' & -> & _)].
  destruct (avl_height l Hl), (avl_height r Hr'). simpl. lia.
Qed.

(** The bounds of a weight range.  On a tree in key order [LowerBound] is
    the first value not below the key and [UpperBound] the first above it;
    both return null exactly when there is none. *)
Theorem avl_bounds_correct a k :
  bst_eq (root_ a) →
  bound_result (λ res, 0 <=? res) k (root_ a) (LowerBound a k)
  ∧ bound_result (λ res, 0 <? res) k (root_ a) (UpperBound a k).
Proof. split; [by apply LowerBound_bound|by apply UpperBound_bound]. Qed.

(** Nodes whose stored height is stale ([ReuseAllNodes] zeroes it, [Extract]
    leaves the old one) are pushed back safely: whatever the heights, as long
    as none is negative, the push never reaches through a null child, and it
    still adds the value at its place in the order. *)
Theorem avl_push_stale_height a n :
  bst (root_ a) → heights_ok (root_ a) → 0 ≤ node_height n →
  ∃ a' ok d, PushWithDuplicate a n false = Some (a', ok, d)
    ∧ insert_result (root_ a) (node_value n) (root_ a') ok d
    ∧ bst (root_ a') ∧ heights_ok (root_ a').
Proof.
  intros Hb Hh Hn. destruct (PushWithDuplicate_spec a n Hb Hh Hn) as (a' & ok & d & ? & ? & ?).
  exists a', ok, d. eauto using insert_result_bst.
Qed.

(** The walk over all nodes that frees or moves them terminates within two
    steps per node and hands out every value exactly once; the in-order walk
    visits exactly the in-order sequence. *)
Theorem avl_traversals_correct a :
  DoInAll a = Some (inorder (root_ a))
  ∧ ∃ a' ns, ReuseAllNodes a = Some (a', ns) ∧ root_ a' = Null
    ∧ map node_value ns ≡ₚ inorder (root_ a) ∧ Forall (λ n, node_height n = 0) ns.
Proof.
  split; [apply DoInAll_inorder|]. rewrite ReuseAllNodes_spec. do 2 eexists. split; [done|].
  split_ands; [done| |].
  - rewrite map_map. simpl. rewrite map_id. apply postorder_perm.
  - apply Forall_map. by apply Forall_true.
Qed.
End properties.

(** ** The debugging checker, and the behaviours it exposes *)

Section debug.
Context {K V : Type} `{Comparator K} `{GetKey K V}.

Fixpoint CalculateHeight (t : tree V) : Z :=
  match t with
  | Null => 0
  | Node l _ _ r => 1 + AVL_MAX (CalculateHeight l) (CalculateHeight r)
  end.

(** The checks of [VerifyAvlProperties] at one node. *)
Definition verify_node (t : tree V) : bool :=
  match t with
  | Null => true
  | Node l v _ r =>
      let bf := CalculateHeight l - CalculateHeight r in
      match l with Null => true | Node _ lv _ _ => TO_COMPARE (TO_GK lv) (TO_GK v) <? 0 end
      && match r with Null => true | Node _ rv _ _ => 0 <? TO_COMPARE (TO_GK rv) (TO_GK v) end
      && negb ((2 <=? bf) || (bf <=? -2))
  end.

Fixpoint verify_loop (n : nat) (x : option (pos V)) : bool :=
  match n, x with
  | S n, Some x => verify_node x.1 && verify_loop n (_GetNextNode x)
  | _, _ => true
  end.

Definition VerifyAvlProperties (t : tree V) : bool :=
  verify_loop (length (inorder t)) (_GetFirstNode (t, [])).
End debug.

Module AvlExamples.
(** [AvlTreeSet<uint64_t>] filled by [Insert], in the given order. *)
Definition insert_all (l : list Z) : option (AvlTreeBase Z Z) :=
  foldl (λ o v, a ← o; '(a', _) ← Insert a v; Some a') (Some avl_empty) l.

Definition tree_of (l : list Z) : AvlTreeBase Z Z := default avl_empty (insert_all l).

Definition five : AvlTreeBase Z Z := tree_of [10; 20; 30; 40; 50].

(** A weight tree filled by [InsertEq], as [Vset] does. *)
Definition weights (l : list (Z * string)) : AvlTreeBase Z (KeyValue Z string) :=
  default avl_empty
    (foldl (λ o wm, a ← o; InsertEq a (MkKeyValue wm.1 wm.2)) (Some avl_empty) l).

Definition three_equal : AvlTreeBase Z (KeyValue Z string) :=
  weights [(1, "a"%string); (1, "b"%string); (1, "c"%string)].

(** The nodes of a tree, moved to another one as the rehashing does. *)
Definition moved (a : AvlTreeBase Z Z) : option (AvlTreeBase Z Z) :=
  '(_, ns) ← ReuseAllNodes a;
  foldl (λ o n, b ← o; '(b', _) ← Push b n; Some b') (Some avl_empty) ns.
End AvlExamples.
Import AvlExamples.

Lemma five_bst : bst (root_ five).
Proof. unfold bst. vm_compute inorder. repeat constructor. Qed.

Lemma five_avl : avl (root_ five).
Proof. vm_compute. repeat split; discriminate. Qed.

Lemma avl_insert_correct_witness :
  ∃ a' ok d, InsertWithDuplicate five 35 = Some (a', ok, d)
    ∧ insert_result (root_ five) 35 (root_ a') ok d ∧ bst (root_ a') ∧ avl_root (root_ a').
Proof. apply avl_insert_correct; [apply five_bst|left; apply five_avl]. Defined.

Lemma avl_extract_correct_witness :
  ∃ a' n, Extract five 20 = Some (a', n) ∧ Erase five 20 = Some (a', bool_decide (is_Some n))
    ∧ erase_result 20 (root_ five) (root_ a') (node_value <$> n)
    ∧ count_ a' = (if n is Some _ then _DecreaseCount (count_ five) else count_ five)
    ∧ bst (root_ a') ∧ avl_root (root_ a').
Proof. apply avl_extract_correct; [apply five_bst|left; apply five_avl]. Defined.

Lemma three_equal_bst : bst_eq (root_ three_equal).
Proof. unfold bst_eq. vm_compute inorder. repeat constructor; by vm_compute. Qed.

Lemma avl_insert_eq_correct_witness :
  ∃ a', InsertEq three_equal (MkKeyValue 1 "d"%string) = Some a'
    ∧ insert_eq_result (root_ three_equal) (MkKeyValue 1 "d"%string) (root_ a')
    ∧ count_ a' = _IncreaseCount (count_ three_equal) ∧ bst_eq (root_ a') ∧ avl_root (root_ a').
Proof.
  apply avl_insert_eq_correct; [apply three_equal_bst|]. left. vm_compute. repeat split; discriminate.
Defined.

Lemma avl_find_correct_witness :
  match FindNode five 40 with
  | Some (t, p) => ∃ v, pos_val (t, p) = Some v ∧ v ∈ inorder (root_ five) ∧ vcmp v 40 = 0
      ∧ Find five 40 = Some v
      ∧ Z.of_nat (length p) ≤ 2 * Z.log2 (Z.of_nat (length (inorder (root_ five))) + 1)
  | None => Find five 40 = None ∧ Forall (λ v, vcmp v 40 ≠ 0) (inorder (root_ five))
  end.
Proof. apply (avl_find_correct five 40); [apply five_bst|apply five_avl]. Defined.

Lemma avl_bounds_correct_witness :
  bound_result (λ res, 0 <=? res) 1 (root_ three_equal) (LowerBound three_equal 1)
  ∧ bound_result (λ res, 0 <? res) 1 (root_ three_equal) (UpperBound three_equal 1).
Proof. apply avl_bounds_correct, three_equal_bst. Defined.

Lemma avl_push_stale_height_witness :
  ∃ a' ok d, PushWithDuplicate five (MkDetached 35 7) false = Some (a', ok, d)
    ∧ insert_result (root_ five) 35 (root_ a') ok d ∧ bst (root_ a') ∧ heights_ok (root_ a').
Proof.
  apply (avl_push_stale_height five (MkDetached 35 7));
    [apply five_bst|apply avl_heights_ok, five_avl|by vm_compute].
Defined.

(** The second value inserted into a tree with unique keys is not counted. *)
Theorem avl_second_insert_not_counted :
  count_ (tree_of [10; 20]) = 1 ∧ inorder (root_ (tree_of [10; 20])) = [10; 20].
Proof. by vm_compute. Qed.

(** Three members of one weight: the search starts at the topmost of them and
    only moves right, so the member in its left subtree is never reached and the
    loop runs off the end of the tree. *)
Theorem avl_erase_pred_misses_left :
  MkKeyValue 1 "c"%string ∈ inorder (root_ three_equal)
  ∧ ErasePred three_equal 1 (λ kv, bool_decide (value kv = "c"%string)) = None.
Proof. split; [|by vm_compute]. vm_compute inorder. set_solver. Qed.

(** Nodes moved by [ReuseAllNodes] carry height 0: three of them pushed into an
    empty tree end up in a chain, which the class's own checker rejects. *)
Theorem avl_moved_nodes_unbalanced :
  VerifyAvlProperties (root_ (tree_of [10; 20; 30])) = true
  ∧ (b ← moved (tree_of [10; 20; 30]); Some (VerifyAvlProperties (root_ b))) = Some false.
Proof. by vm_compute. Qed.
