(* ===== verification/Slist.v ===== *)
(** * The singly linked list

    [mmkv/algo/slist.h], [internal/snode.h]: the bucket type of the hash table.
    A list is the sequence of the values reachable from [header_]; a node that
    was taken out has a null [next].  [None] is a failed [assert] or a null
    dereference. *)

From S2P Require Import Prelude.

Section slist.
Context {T : Type}.
Implicit Types (l : list T) (x : T).

(** [EmplaceFront], [EmplaceFrontNode]. *)
Definition EmplaceFront x l : list T := x :: l.

Definition Front l : option T := head l.

Definition slist_empty l : bool := match l with [] => true | _ => false end.

(** [GetSize()]: the loop over the nodes. *)
Fixpoint GetSize_loop l (ret : Z) : Z :=
  match l with
  | [] => ret
  | _ :: l' => GetSize_loop l' (ret ⊞ 1)
  end.
Definition GetSize l : Z := GetSize_loop l 0.

Definition ExtractFront l : option (list T * T) :=
  match l with
  | [] => None
  | x :: l' => Some (l', x)
  end.

(** [SearchNodeIf(pred)]. *)
Fixpoint SearchIf (pred : T → bool) l : option T :=
  match l with
  | [] => None
  | x :: l' => if pred x then Some x else SearchIf pred l'
  end.

(** The loop of [ExtractNodeIf] over the successors of [header]. *)
Fixpoint extract_after (pred : T → bool) (header : T) l : list T * option T :=
  match l with
  | [] => ([header], None)
  | x :: l' =>
      if pred x then (header :: l', Some x)
      else let '(rest, ret) := extract_after pred x l' in (header :: rest, ret)
  end.

Definition ExtractNodeIf (pred : T → bool) l : list T * option T :=
  match l with
  | [] => ([], None)
  | x :: l' => if pred x then (l', Some x) else extract_after pred x l'
  end.

Definition EraseIf (pred : T → bool) l : list T * Z :=
  let '(l', ret) := ExtractNodeIf pred l in
  (l', match ret with Some _ => 1 | None => 0 end).

Definition PopFront l : option (list T) := '(l', _) ← ExtractFront l; Some l'.

(** [InsertAfterNode(pos, val)] and [EraseAfterNode(pos)] at the [i]-th node. *)
Definition InsertAfter (i : nat) x l : option (list T) :=
  if decide (i < length l)%nat then Some (take (S i) l ++ x :: drop (S i) l) else None.

Definition EraseAfter (i : nat) l : option (list T) :=
  if decide (S i < length l)%nat then Some (take (S i) l ++ drop (S (S i)) l) else None.

Fixpoint slist_Clear l : list T :=
  match l with
  | [] => []
  | _ :: l' => slist_Clear l'
  end.

(** The copy constructor: the first node, then one [InsertAfterNode] per
    further node of [other], [header] moving along. *)
Fixpoint copy_loop l (i : nat) (rest : list T) : option (list T) :=
  match rest with
  | [] => Some l
  | y :: rest' => l' ← InsertAfter i y l; copy_loop l' (S i) rest'
  end.

Definition slist_copy (other : list T) : option (list T) :=
  match other with
  | [] => Some []
  | y :: rest => copy_loop (EmplaceFront y []) 0 rest
  end.

(** The loop of the copy assignment, on the nodes from [header] and from
    [header2] on: values are overwritten while both lists go on; then the
    remaining nodes of [other] are appended, or those of the list erased. *)
Fixpoint assign_loop l (other : list T) : option (list T) :=
  match l, other with
  | [], _ | _, [] => None
  | _ :: l', y :: other' =>
      match l', other' with
      | [], _ => Some (y :: other')
      | _, [] => Some [y]
      | _, _ => rest ← assign_loop l' other'; Some (y :: rest)
      end
  end.

(** [operator=(Slist const &)] for two different lists. *)
Definition slist_assign l (other : list T) : option (list T) :=
  l ← (if slist_empty l then slist_copy other else Some l);
  assign_loop l other.
End slist.

Section slist_facts.
Context {T : Type}.
Implicit Types (l : list T) (x : T) (pred : T → bool).

Lemma GetSize_loop_length l n : GetSize_loop l n = match l with [] => n | _ => u64 (n + Z.of_nat (length l)) end.
Proof.
  revert n. induction l as [|x l IH]; intros n; [done|]. cbn [GetSize_loop]. rewrite IH.
  destruct l; [done|]. unfold u64. rewrite Zplus_mod_idemp_l. f_equal. simpl. lia.
Qed.

Lemma extract_after_spec pred y l l' ret :
  pred y = false → extract_after pred y l = (l', ret) →
  match ret with
  | Some x => pred x = true ∧ ∃ l1 l2, y :: l = l1 ++ x :: l2 ∧ l' = l1 ++ l2
      ∧ Forall (λ z, pred z = false) l1
  | None => l' = y :: l ∧ Forall (λ z, pred z = false) (y :: l)
  end.
Proof.
  revert y l' ret. induction l as [|z l IH]; intros y l' ret Hy; cbn [extract_after].
  - intros [= <- <-]. split; [done|]. by apply Forall_singleton.
  - destruct (pred z) eqn:Hz.
    + intros [= <- <-]. split; [done|]. exists [y], l. split_ands; [done..|]. by apply Forall_singleton.
    + destruct (extract_after pred z l) as [rest r] eqn:E. intros [= <- <-].
      specialize (IH z rest r Hz E). destruct r as [x|].
      * destruct IH as (? & l1 & l2 & -> & -> & ?). split; [done|]. exists (y :: l1), l2.
        split_ands; [done..|]. by constructor.
      * destruct IH as [-> ?]. split; [done|]. by constructor.
Qed.

(** [ExtractNodeIf] takes out the first value that satisfies the predicate. *)
Lemma ExtractNodeIf_spec pred l l' ret :
  ExtractNodeIf pred l = (l', ret) →
  match ret with
  | Some x => pred x = true ∧ ∃ l1 l2, l = l1 ++ x :: l2 ∧ l' = l1 ++ l2
      ∧ Forall (λ z, pred z = false) l1
  | None => l' = l ∧ Forall (λ z, pred z = false) l
  end.
Proof.
  destruct l as [|y l]; cbn [ExtractNodeIf].
  - intros [= <- <-]. by split.
  - destruct (pred y) eqn:Hy; [|by apply extract_after_spec].
    intros [= <- <-]. split; [done|]. exists [], l. by split_ands.
Qed.

Lemma SearchIf_spec pred l :
  match SearchIf pred l with
  | Some x => x ∈ l ∧ pred x = true
  | None => Forall (λ z, pred z = false) l
  end.
Proof.
  induction l as [|y l IH]; simpl; [by constructor|]. destruct (pred y) eqn:Hy.
  - split; [set_solver|done].
  - destruct (SearchIf pred l); [set_solver|by constructor].
Qed.

Lemma slist_Clear_nil l : slist_Clear l = [].
Proof. by induction l. Qed.

Lemma copy_loop_spec l rest : l ≠ [] → copy_loop l (length l - 1) rest = Some (l ++ rest).
Proof.
  revert l. induction rest as [|y rest IH]; intros l Hl; cbn [copy_loop]; [by rewrite app_nil_r|].
  assert (1 ≤ length l)%nat by (destruct l; [done|simpl; lia]).
  unfold InsertAfter. case_decide; [|lia]. simpl mbind.
  replace (S (length l - 1)) with (length l) by lia. rewrite take_ge, drop_ge by lia.
  replace (length l) with (length (l ++ [y]) - 1)%nat by (rewrite length_app; simpl; lia).
  rewrite IH by (by destruct l). by app_norm.
Qed.

Lemma slist_copy_same l : slist_copy l = Some l.
Proof.
  destruct l as [|y rest]; [done|]. unfold slist_copy, EmplaceFront.
  by apply (copy_loop_spec [y]).
Qed.

Lemma assign_loop_same l other : l ≠ [] → other ≠ [] → assign_loop l other = Some other.
Proof.
  revert other. induction l as [|x l IH]; intros [|y other] Hl Ho; try done. cbn [assign_loop].
  destruct l as [|x' l], other as [|y' other]; try done. by rewrite IH.
Qed.

(** Copying: the copy constructor always yields an equal list; the assignment
    does so when the source is not empty, and otherwise dereferences the null
    [header] or [header2]. *)
Theorem slist_copy_correct l other :
  slist_copy other = Some other
  ∧ slist_assign l other = match other with [] => None | _ => Some other end.
Proof.
  split; [apply slist_copy_same|]. unfold slist_assign.
  destruct l as [|x l]; cbn [slist_empty]; rewrite ?slist_copy_same;
    unfold mbind, option_bind; destruct other as [|y other]; try done; by apply assign_loop_same.
Qed.
End slist_facts.
