(* ===== verification/ReservedArray.v ===== *)
(** * Reserved arrays and the bucket tables built on them

    [mmkv/algo/reserved_array.h], and the nested [struct Table] of
    [mmkv/algo/hash_table.h] and [mmkv/algo/internal/tree_hashtable.h].

    An array is the list of its initialised elements; allocation succeeds.  The
    two overloads of [Reallocate] and of [Shrink_impl] (in place, or into a new
    block) leave the same contents.  Reading or writing past the end fails the
    [assert] of [operator[]], which is [None]. *)

From S2P Require Import Prelude.

(** ** ReservedArray *)

Section reserved_array.
Context {T : Type} (dflt : T).
Implicit Types (a : list T) (i n : Z).

Definition asize a : Z := Z.of_nat (length a).

(** [ReservedArray(n)]. *)
Definition reserved n : list T := replicate (Z.to_nat n) dflt.

Definition Reallocate a n : list T := a ++ replicate (Z.to_nat n - length a) dflt.
Definition Shrink_impl a n : list T := take (Z.to_nat n) a.

Definition Grow a n : list T := if n <=? asize a then a else Reallocate a n.
Definition Shrink a n : list T := if asize a <=? n then a else Shrink_impl a n.

(** [operator[](i)], as a read and as a write of the element. *)
Definition aget a i : option T := if 0 <=? i then a !! Z.to_nat i else None.
Definition aset a i (x : T) : option (list T) :=
  if (0 <=? i) && (i <? asize a) then Some (<[Z.to_nat i := x]> a) else None.

(** [operator=(ReservedArray const &)]: in place when the sizes are equal,
    into a resized block otherwise. *)
Definition assign a (other : list T) : list T :=
  if asize a =? asize other then other
  else if asize a <? asize other
       then take (length a) other ++ drop (length a) other
       else other.
End reserved_array.

(** ** The bucket tables *)

Record Table (B : Type) := MkTable { table : list B; used : Z; size_mask : Z }.
Arguments MkTable {B}.
Arguments table {B}.
Arguments used {B}.
Arguments size_mask {B}.

(** [(size_type)-1]. *)
Definition npos : Z := 2 ^ 64 - 1.

Section tables.
Context {B : Type} (bnil : B).
Implicit Types (t : Table B).

(** [Table()]: [table(0)], [used(0)], [size_mask(table.size() - 1)]. *)
Definition table_init : Table B := MkTable (reserved bnil 0) 0 (0 ⊟ 1).

Definition table_size t : Z := asize (table t).

Definition table_Grow t (n : Z) : Table B :=
  let a := Grow bnil (table t) n in MkTable a (used t) (asize a ⊟ 1).

Definition table_Shrink t (n : Z) : Table B :=
  let a := Shrink (table t) n in MkTable a (used t) (asize a ⊟ 1).

(** [swap]: the arrays and masks, not [used]. *)
Definition table_swap (t1 t2 : Table B) : Table B * Table B :=
  (MkTable (table t2) (used t1) (size_mask t2), MkTable (table t1) (used t2) (size_mask t1)).

Definition set_used t (n : Z) : Table B := MkTable (table t) n (size_mask t).

(** [bucket_index(table_index, hash_val)]. *)
Definition bucket_index t (hash_val : Z) : Z := Z.land hash_val (size_mask t).

(** [table()[i]], read and written. *)
Definition bucket_get t (i : Z) : option B := aget (table t) i.
Definition bucket_set t (i : Z) (b : B) : option (Table B) :=
  a ← aset (table t) i b; Some (MkTable a (used t) (size_mask t)).
End tables.

(** ** What the tables hold *)

(** A bucket type: how it lists its elements. *)
Class BucketElems (B T : Type) := bucket_elems : B → list T.

Section table_spec.
Context {B T K : Type} `{BucketElems B T} (gk : T → K) (HF : K → Z).
Implicit Types (tbl : list B) (t : Table B) (b : B) (x : T).

Definition elems tbl : list T := tbl ≫= bucket_elems.

(** Every element sits in the bucket its hash selects. *)
Definition placed (mask : Z) tbl : Prop :=
  ∀ i b x, tbl !! i = Some b → x ∈ bucket_elems b → i = Z.to_nat (Z.land (HF (gk x)) mask).

(** A table of 2^n buckets. *)
Definition sized (n : Z) t : Prop :=
  2 ≤ n ∧ table_size t = 2 ^ n ∧ size_mask t = 2 ^ n - 1.

Lemma sized_index n t h : sized n t → 0 ≤ bucket_index t h < table_size t.
Proof.
  intros (Hn & -> & Hm). unfold bucket_index. rewrite Hm.
  replace (2 ^ n - 1) with (Z.ones n) by (by rewrite Z.ones_equiv, Z.sub_1_r).
  rewrite Z.land_ones by lia. apply Z.mod_pos_bound. lia.
Qed.

Lemma bucket_get_Some n t h : sized n t → ∃ b, bucket_get t (bucket_index t h) = Some b.
Proof.
  intros Hs. pose proof (sized_index n t h Hs) as Hi. unfold bucket_get, aget.
  destruct (Z.leb_spec 0 (bucket_index t h)); [|lia].
  apply lookup_lt_is_Some. unfold table_size, asize in Hi. lia.
Qed.

Lemma elems_lookup tbl x : x ∈ elems tbl ↔ ∃ i b, tbl !! i = Some b ∧ x ∈ bucket_elems b.
Proof.
  unfold elems. rewrite list_elem_of_bind. split.
  - intros (b & Hx & (i & Hi)%list_elem_of_lookup). eauto.
  - intros (i & b & Hi & Hx). exists b. split; [done|]. apply list_elem_of_lookup. eauto.
Qed.

Lemma elems_app tbl1 tbl2 : elems (tbl1 ++ tbl2) = elems tbl1 ++ elems tbl2.
Proof. apply bind_app. Qed.

(** Changing one bucket changes the elements of that bucket only. *)
Lemma elems_insert tbl i b :
  tbl !! i = Some b →
  ∃ rest, elems tbl ≡ₚ bucket_elems b ++ rest
    ∧ ∀ b', elems (<[i := b']> tbl) ≡ₚ bucket_elems b' ++ rest.
Proof.
  intros Hi. exists (elems (take i tbl) ++ elems (drop (S i) tbl)).
  rewrite <-(take_drop_middle tbl i b Hi) at 1. split.
  - rewrite elems_app. simpl. fold (elems (drop (S i) tbl)).
    rewrite !app_assoc. apply Permutation_app_tail, Permutation_app_comm.
  - intros b'. rewrite insert_take_drop by (by apply lookup_lt_Some in Hi).
    rewrite elems_app. simpl. fold (elems (drop (S i) tbl)).
    rewrite !app_assoc. apply Permutation_app_tail, Permutation_app_comm.
Qed.

Lemma elems_replicate n b : bucket_elems b = [] → elems (replicate n b) = [].
Proof. intros Hb. induction n as [|n IH]; [done|]. simpl. rewrite Hb. apply IH. Qed.

Lemma placed_insert mask tbl i b :
  placed mask tbl →
  (∀ x, x ∈ bucket_elems b → i = Z.to_nat (Z.land (HF (gk x)) mask)) →
  placed mask (<[i := b]> tbl).
Proof.
  intros Hp Hb j c x [(-> & <- & _)|[_ Hj]]%list_lookup_insert_Some Hx; [by apply Hb|by eapply Hp].
Qed.

(** In a table whose elements are placed, looking into one bucket is enough. *)
Lemma placed_bucket n t x b :
  sized n t → placed (size_mask t) (table t) →
  bucket_get t (bucket_index t (HF (gk x))) = Some b →
  x ∈ elems (table t) → x ∈ bucket_elems b.
Proof.
  intros Hs Hp Hg (i & b' & Hi & Hx)%elems_lookup.
  pose proof (Hp _ _ _ Hi Hx) as ->. unfold bucket_get, aget, bucket_index in Hg.
  case_match; congruence.
Qed.

Lemma bucket_get_elems t i b x : bucket_get t i = Some b → x ∈ bucket_elems b → x ∈ elems (table t).
Proof. unfold bucket_get, aget. case_match; [|done]. intros ??. apply elems_lookup. eauto. Qed.

(** Writing back the bucket at an element's index. *)
Lemma bucket_set_Some n t i b b' :
  sized n t → bucket_get t i = Some b →
  ∃ t', bucket_set t i b' = Some t' ∧ sized n t' ∧ used t' = used t ∧ size_mask t' = size_mask t
    ∧ table t' = <[Z.to_nat i := b']> (table t)
    ∧ ∃ rest, elems (table t) ≡ₚ bucket_elems b ++ rest ∧ elems (table t') ≡ₚ bucket_elems b' ++ rest.
Proof.
  unfold bucket_get, aget, bucket_set, aset. intros (? & Hsz & Hm) Hi.
  destruct (Z.leb_spec 0 i); [|done]. pose proof (lookup_lt_Some _ _ _ Hi).
  destruct (Z.ltb_spec i (asize (table t))); [|unfold asize in *; lia].
  eexists; split; [done|]. simpl. split_ands; try done.
  - unfold sized, table_size, asize in *. cbn [table size_mask]. by rewrite length_insert.
  - destruct (elems_insert _ _ _ Hi) as (rest & ? & Hr). eauto.
Qed.
End table_spec.
