(* ===== verification/Dict.v ===== *)
(** * The interface of the dictionaries

    [HashTable] and [TreeHashTable] offer the same operations under the same
    contract, and the components above them ([HashSet], [Dictionary],
    [AvlDictionary], [Vset], the caches, the database) only rely on that
    contract.  [DictOps] has the operations, [DictLaws] the contract: an
    invariant, the finite map the dictionary stands for, and the effect of every
    operation on that map.

    Operations are partial ([None] is a failed [assert], an access out of
    bounds or a null dereference); the laws say that they succeed.  A lookup
    changes the structure (it moves a bucket of an unfinished rehash, and moves
    the node it found), so it returns the new state.  [d_update d k f] is a
    lookup followed by a write of [f] of the value through the pointer the
    lookup returned; [d_write d k f] is that write alone, through a pointer to
    the entry of [k] that the caller already has. *)

From S2P Require Import Prelude.

(** ** Lists of elements with unique keys, as maps *)

Section kmap.
Context {K T : Type} `{Countable K} (gk : T → K).
Implicit Types (l : list T) (x : T) (k : K).

Definition kmap l : gmap K T := list_to_map (map (λ x, (gk x, x)) l).

Lemma kmap_fst l : (map (λ x, (gk x, x)) l).*1 = map gk l.
Proof. induction l as [|x l IH]; [done|]. cbn. f_equal. done. Qed.

Lemma kmap_cons x l : kmap (x :: l) = <[gk x := x]> (kmap l).
Proof. done. Qed.

Lemma kmap_perm l l' : NoDup (map gk l) → l ≡ₚ l' → kmap l = kmap l'.
Proof.
  intros Hnd Hl. apply list_to_map_proper; [by rewrite kmap_fst|].
  by apply Permutation_map.
Qed.

Lemma kmap_lookup_None l k : k ∉ map gk l → kmap l !! k = None.
Proof. intros Hk. apply not_elem_of_list_to_map_1. by rewrite kmap_fst. Qed.

Lemma kmap_lookup l x : NoDup (map gk l) → x ∈ l → kmap l !! gk x = Some x.
Proof.
  intros Hnd Hx. apply elem_of_list_to_map_1; [by rewrite kmap_fst|].
  apply list_elem_of_fmap. eauto.
Qed.

Lemma kmap_lookup_inv l k x : kmap l !! k = Some x → gk x = k ∧ x ∈ l.
Proof.
  intros Hl%elem_of_list_to_map_2. apply list_elem_of_fmap in Hl as (y & ? & Hy). by simplify_eq.
Qed.

Lemma kmap_size l : NoDup (map gk l) → size (kmap l) = length l.
Proof.
  induction l as [|x l IH]; [done|]. cbn [map]. intros [Hx Hnd]%NoDup_cons.
  rewrite kmap_cons, map_size_insert_None by (by apply kmap_lookup_None). by rewrite IH.
Qed.

Lemma kmap_delete x l : NoDup (map gk (x :: l)) → kmap l = delete (gk x) (kmap (x :: l)).
Proof.
  cbn [map]. intros [Hx Hnd]%NoDup_cons. rewrite kmap_cons, delete_insert_id; [done|].
  by apply kmap_lookup_None.
Qed.
End kmap.

(** ** The interface *)

Class DictOps (D K T : Type) := {
  d_init : D;
  d_insert : D → T → option (D * bool * T);
  d_find : D → K → option (D * option T);
  d_update : D → K → (T → T) → option (D * option T);
  d_write : D → K → (T → T) → option D;
  d_extract : D → K → option (D * option T);
  d_clear : D → option D;
  d_size : D → Z;
}.

(** The number of elements up to which insertions are guaranteed to succeed:
    the tables then have at most 2^62 buckets. *)
Definition max_elems : Z := 2 ^ 61.

(** Some erasures do not count down: by how much the reported size exceeds the
    number of entries. *)
Class Drift := { drift : Z; drift_nonneg : 0 ≤ drift }.

#[export] Instance no_drift : Drift | 100 := {| drift := 0; drift_nonneg := ltac:(lia) |}.

Program Definition more_drift (dr : Drift) : Drift := {| drift := drift + 1 |}.
Next Obligation. intros dr. pose proof drift_nonneg. lia. Qed.

Class DictLaws (D K T : Type) `{Countable K} (gk : T → K) `{DictOps D K T} := {
  d_wfx : Drift → D → Prop;
  d_key_ok : K → Prop;
  d_view : D → gmap K T;
  d_init_law : d_wfx no_drift d_init ∧ d_view d_init = ∅;
  d_view_keyx dr d k x : d_wfx dr d → d_view d !! k = Some x → gk x = k ∧ d_key_ok k;
  d_insert_lawx dr d v : d_wfx dr d → Z.of_nat (size (d_view d)) + drift < max_elems → d_key_ok (gk v) →
    ∃ d' ok dup, d_insert d v = Some (d', ok, dup) ∧ d_wfx dr d' ∧
      match d_view d !! gk v with
      | Some y => ok = false ∧ dup = y ∧ d_view d' = d_view d
      | None => ok = true ∧ dup = v ∧ d_view d' = <[gk v := v]> (d_view d)
      end;
  d_find_lawx dr d k : d_wfx dr d → d_key_ok k →
    ∃ d', d_find d k = Some (d', d_view d !! k) ∧ d_wfx dr d' ∧ d_view d' = d_view d;
  d_update_lawx dr d k f : d_wfx dr d → d_key_ok k → (∀ x, gk x = k → gk (f x) = k) →
    ∃ d', d_update d k f = Some (d', d_view d !! k) ∧ d_wfx dr d'
      ∧ d_view d' = match d_view d !! k with Some x => <[k := f x]> (d_view d) | None => d_view d end;
  d_write_lawx dr d k f x : d_wfx dr d → (∀ x, gk x = k → gk (f x) = k) → d_view d !! k = Some x →
    ∃ d', d_write d k f = Some d' ∧ d_wfx dr d' ∧ d_view d' = <[k := f x]> (d_view d);
  d_extract_lawx dr d k : d_wfx dr d → d_key_ok k →
    ∃ d', d_extract d k = Some (d', d_view d !! k) ∧ d_wfx dr d' ∧ d_view d' = delete k (d_view d);
  d_clear_lawx dr d : d_wfx dr d → ∃ d', d_clear d = Some d' ∧ d_wfx no_drift d' ∧ d_view d' = ∅;
  d_size_lawx dr d : d_wfx dr d → d_size d = u64 (Z.of_nat (size (d_view d)) + drift);
}.

(** Dictionaries whose size is exact. *)
Abbreviation d_wf := (d_wfx no_drift).

Section exact.
Context {D K T : Type} `{Countable K} {gk : T → K} `{!DictOps D K T} `{!DictLaws D K T gk}.
Implicit Types (d : D) (k : K) (v x : T) (f : T → T).

Lemma d_view_key d k x : d_wf d → d_view d !! k = Some x → gk x = k ∧ d_key_ok k.
Proof. apply d_view_keyx. Qed.

Lemma d_insert_law d v : d_wf d → Z.of_nat (size (d_view d)) < max_elems → d_key_ok (gk v) →
  ∃ d' ok dup, d_insert d v = Some (d', ok, dup) ∧ d_wf d' ∧
    match d_view d !! gk v with
    | Some y => ok = false ∧ dup = y ∧ d_view d' = d_view d
    | None => ok = true ∧ dup = v ∧ d_view d' = <[gk v := v]> (d_view d)
    end.
Proof. intros Hw Hs. apply d_insert_lawx; [done|]. simpl. lia. Qed.

Lemma d_find_law d k : d_wf d → d_key_ok k →
  ∃ d', d_find d k = Some (d', d_view d !! k) ∧ d_wf d' ∧ d_view d' = d_view d.
Proof. apply d_find_lawx. Qed.

Lemma d_update_law d k f : d_wf d → d_key_ok k → (∀ x, gk x = k → gk (f x) = k) →
  ∃ d', d_update d k f = Some (d', d_view d !! k) ∧ d_wf d'
    ∧ d_view d' = match d_view d !! k with Some x => <[k := f x]> (d_view d) | None => d_view d end.
Proof. apply d_update_lawx. Qed.

Lemma d_extract_law d k : d_wf d → d_key_ok k →
  ∃ d', d_extract d k = Some (d', d_view d !! k) ∧ d_wf d' ∧ d_view d' = delete k (d_view d).
Proof. apply d_extract_lawx. Qed.

Lemma d_clear_law d : d_wf d → ∃ d', d_clear d = Some d' ∧ d_wf d' ∧ d_view d' = ∅.
Proof. apply d_clear_lawx. Qed.

Lemma d_size_law d : d_wf d → d_size d = u64 (Z.of_nat (size (d_view d))).
Proof. intros Hw. rewrite (d_size_lawx _ _ Hw). simpl. f_equal. lia. Qed.
End exact.

(** ** Histories

    A sequence of operations on a dictionary answers like the same sequence on
    a finite map. *)

Inductive dict_op (K T : Type) :=
  | OpInsert (v : T)
  | OpFind (k : K)
  | OpUpdate (k : K) (f : T → T)
  | OpExtract (k : K)
  | OpClear.
Arguments OpInsert {K T}.
Arguments OpFind {K T}.
Arguments OpUpdate {K T}.
Arguments OpExtract {K T}.
Arguments OpClear {K T}.

(** What an operation answers: the entry found, inserted or in the way, and
    the size afterwards. *)
Record dict_answer (T : Type) := MkAnswer { ans_ok : bool; ans_elem : option T; ans_size : Z }.
Arguments MkAnswer {T}.

Section histories.
Context {D K T : Type} `{Countable K} (gk : T → K) `{!DictOps D K T}.

Definition dict_run1 (d : D) (o : dict_op K T) : option (D * dict_answer T) :=
  match o with
  | OpInsert v => '(d', ok, dup) ← d_insert d v; Some (d', MkAnswer ok (Some dup) (d_size d'))
  | OpFind k => '(d', r) ← d_find d k; Some (d', MkAnswer true r (d_size d'))
  | OpUpdate k f => '(d', r) ← d_update d k f; Some (d', MkAnswer true r (d_size d'))
  | OpExtract k => '(d', r) ← d_extract d k; Some (d', MkAnswer true r (d_size d'))
  | OpClear => d' ← d_clear d; Some (d', MkAnswer true None (d_size d'))
  end.

Fixpoint dict_run (d : D) (os : list (dict_op K T)) : option (D * list (dict_answer T)) :=
  match os with
  | [] => Some (d, [])
  | o :: os' =>
      '(d', a) ← dict_run1 d o;
      '(d'', l) ← dict_run d' os';
      Some (d'', a :: l)
  end.

(** The reference: the same operations on a finite map. *)
Definition map_run1 (m : gmap K T) (o : dict_op K T) : gmap K T * dict_answer T :=
  let ans m' ok r := (m', MkAnswer ok r (Z.of_nat (size m'))) in
  match o with
  | OpInsert v =>
      match m !! gk v with
      | Some y => ans m false (Some y)
      | None => ans (<[gk v := v]> m) true (Some v)
      end
  | OpFind k => ans m true (m !! k)
  | OpUpdate k f => ans (match m !! k with Some x => <[k := f x]> m | None => m end) true (m !! k)
  | OpExtract k => ans (delete k m) true (m !! k)
  | OpClear => ans ∅ true None
  end.

Fixpoint map_run (m : gmap K T) (os : list (dict_op K T)) : gmap K T * list (dict_answer T) :=
  match os with
  | [] => (m, [])
  | o :: os' =>
      let '(m', a) := map_run1 m o in
      let '(m'', l) := map_run m' os' in
      (m'', a :: l)
  end.

Context `{!DictLaws D K T gk}.

(** The keys are acceptable, and writes keep the key of the entry. *)
Definition op_ok (o : dict_op K T) : Prop :=
  match o with
  | OpInsert v => d_key_ok (gk v)
  | OpFind k | OpExtract k => d_key_ok k
  | OpUpdate k f => d_key_ok k ∧ ∀ x, gk x = k → gk (f x) = k
  | OpClear => True
  end.

Lemma dict_size_small d : d_wf d → Z.of_nat (size (d_view d)) ≤ max_elems → d_size d = Z.of_nat (size (d_view d)).
Proof. intros Hw Hs. rewrite d_size_law by done. apply u64_small. unfold max_elems in Hs. lia. Qed.

Lemma map_run1_size m o : (size (fst (map_run1 m o)) ≤ S (size m))%nat.
Proof.
  destruct o as [v|k|k f|k|]; simpl.
  - destruct (m !! gk v) eqn:Hl; simpl; [lia|]. by rewrite map_size_insert_None.
  - lia.
  - destruct (m !! k) eqn:Hl; [|lia]. rewrite map_size_insert_Some by eauto. lia.
  - pose proof (map_size_delete k m) as ->. destruct (m !! k); simpl; lia.
  - rewrite map_size_empty. lia.
Qed.

Lemma dict_run1_refines d o :
  d_wf d → Z.of_nat (size (d_view d)) < max_elems → op_ok o →
  ∃ d', dict_run1 d o = Some (d', snd (map_run1 (d_view d) o)) ∧ d_wf d'
    ∧ d_view d' = fst (map_run1 (d_view d) o).
Proof.
  intros Hw Hs Ho. pose proof (map_run1_size (d_view d) o) as Hsz.
  assert (∀ d', d_wf d' → d_view d' = fst (map_run1 (d_view d) o) →
    d_size d' = Z.of_nat (size (fst (map_run1 (d_view d) o)))) as Hans.
  { intros d' Hw' Hv. rewrite dict_size_small; [by rewrite Hv|done|]. rewrite Hv. lia. }
  destruct o as [v|k|k f|k|]; cbn [dict_run1 map_run1 op_ok] in *.
  - destruct (d_insert_law d v Hw Hs Ho) as (d' & ok & dup & -> & Hw' & He). cbn [mbind option_bind].
    destruct (d_view d !! gk v); destruct He as (-> & -> & Hv); eexists; (split; [|done]); simpl in *;
      by rewrite (Hans d').
  - destruct (d_find_law d k Hw Ho) as (d' & -> & Hw' & Hv). eexists; (split; [|done]). simpl in *.
    by rewrite (Hans d').
  - destruct Ho as [Ho Hf]. destruct (d_update_law d k f Hw Ho Hf) as (d' & -> & Hw' & Hv).
    eexists; (split; [|done]). simpl in *. by rewrite (Hans d').
  - destruct (d_extract_law d k Hw Ho) as (d' & -> & Hw' & Hv). eexists; (split; [|done]). simpl in *.
    by rewrite (Hans d').
  - destruct (d_clear_law d Hw) as (d' & -> & Hw' & Hv). eexists; (split; [|done]). simpl in *.
    by rewrite (Hans d').
Qed.

Lemma dict_run_refines d os :
  d_wf d → Z.of_nat (size (d_view d)) + Z.of_nat (length os) ≤ max_elems → Forall op_ok os →
  ∃ d', dict_run d os = Some (d', snd (map_run (d_view d) os)) ∧ d_wf d'
    ∧ d_view d' = fst (map_run (d_view d) os).
Proof.
  revert d. induction os as [|o os IH]; intros d Hw Hs Hok; cbn [dict_run map_run]; [by eauto|].
  apply Forall_cons in Hok as [Ho Hok]. cbn [length] in Hs.
  destruct (dict_run1_refines d o Hw ltac:(lia) Ho) as (d' & -> & Hw' & Hv). cbn [mbind option_bind].
  pose proof (map_run1_size (d_view d) o) as Hsz.
  destruct (map_run1 (d_view d) o) as [m a]. cbn [fst snd] in *. subst m.
  destruct (IH d' Hw' ltac:(lia) Hok) as (d'' & -> & ? & ?). cbn [mbind option_bind].
  destruct (map_run (d_view d') os) as [m l]. by eauto.
Qed.

(** From the empty dictionary, fewer than 2^61 operations. *)
Lemma dict_history_refines os :
  Z.of_nat (length os) ≤ max_elems → Forall op_ok os →
  ∃ d', dict_run d_init os = Some (d', snd (map_run ∅ os)) ∧ d_wf d' ∧ d_view d' = fst (map_run ∅ os).
Proof.
  intros Hs Hok. destruct d_init_law as [Hw Hv].
  destruct (dict_run_refines d_init os Hw) as (d' & ? & ? & ?); [|done|].
  - rewrite Hv, map_size_empty. lia.
  - rewrite Hv in *. eauto.
Qed.
End histories.
