(* ===== verification/HashTableBase.v ===== *)
(** * The state of the incrementally rehashed tables

    [HashTable] ([mmkv/algo/hash_table.h]) and [TreeHashTable]
    ([mmkv/algo/internal/tree_hashtable.h]) keep the same state: two tables of
    buckets, and the index of the next bucket of the first table to move into
    the second, or [(size_type)-1] when no rehash is under way.  This file has
    that state, the parts of the code that are the same text in both, and the
    invariant with the lemmas on it. *)

From S2P Require Import Prelude Comparator ReservedArray Dict.

(** [HASH_FUNC], the functor [HF]. *)
Class HashFunc (K : Type) := HASH_FUNC : K → Z.

Record HashState (B : Type) := MkHash {
  table1 : Table B;
  table2 : Table B;
  rehash_move_bucket_index_ : Z
}.
Arguments MkHash {B}.
Arguments table1 {B}.
Arguments table2 {B}.
Arguments rehash_move_bucket_index_ {B}.

Section state.
Context {B : Type} (bnil : B).
Implicit Types (ht : HashState B).

(** The constructors: [table1().Grow(4)]. *)
Definition hash_init : HashState B := MkHash (table_Grow bnil (table_init bnil) 4) (table_init bnil) npos.

Definition InRehashing ht : bool := negb (rehash_move_bucket_index_ ht =? npos).

Definition hash_size ht : Z := used (table1 ht).

(** [Rehash()]. *)
Definition Rehash ht : HashState B :=
  if negb (InRehashing ht) && (table_size (table1 ht) <=? used (table1 ht))
  then MkHash (table1 ht) (table_Grow bnil (table2 ht) (u64 (Z.shiftl (table_size (table1 ht)) 1))) 0
  else ht.

(** The end of [IncrementalRehash()]: the next bucket, or the swap of the
    tables; [reset] is the class's [Table::Reset]. *)
Definition rehash_advance (reset : Table B → Table B) ht : HashState B :=
  let i := rehash_move_bucket_index_ ht ⊞ 1 in
  if i =? table_size (table1 ht)
  then if 0 <? table_size (table2 ht)
       then let '(t1, t2) := table_swap (table1 ht) (table2 ht) in MkHash t1 (reset t2) npos
       else MkHash (table1 ht) (table2 ht) npos
  else MkHash (table1 ht) (table2 ht) i.

Definition used_incr ht : HashState B :=
  MkHash (set_used (table1 ht) (used (table1 ht) ⊞ 1)) (table2 ht) (rehash_move_bucket_index_ ht).
Definition used_decr ht : HashState B :=
  MkHash (set_used (table1 ht) (used (table1 ht) ⊟ 1)) (table2 ht) (rehash_move_bucket_index_ ht).

Definition set_table1 ht (t : Table B) : HashState B :=
  MkHash t (table2 ht) (rehash_move_bucket_index_ ht).
Definition set_table2 ht (t : Table B) : HashState B :=
  MkHash (table1 ht) t (rehash_move_bucket_index_ ht).
End state.

(** [push_all push val t nodes]: every node of [nodes] goes into the bucket of
    [t] that its hash selects; the loops of [IncrementalRehash()]. *)
Section push_all.
Context {B N T K : Type} (gk : T → K) (HF : K → Z) (push : B → N → option B) (val : N → T).

Definition push_at (t : Table B) (x : N) : option (Table B) :=
  let i := bucket_index t (HF (gk (val x))) in
  b ← bucket_get t i;
  b' ← push b x;
  bucket_set t i b'.

Fixpoint push_all (t : Table B) (nodes : list N) : option (Table B) :=
  match nodes with
  | [] => Some t
  | x :: rest => t' ← push_at t x; push_all t' rest
  end.

(** [IncrementalRehash()]; [take_all] empties a bucket and lists its nodes in
    the order the loop visits them. *)
Definition incremental_rehash (take_all : B → option (B * list N)) (reset : Table B → Table B)
    (ht : HashState B) : option (HashState B) :=
  if InRehashing ht then
    b ← bucket_get (table1 ht) (rehash_move_bucket_index_ ht);
    '(b', nodes) ← take_all b;
    t1 ← bucket_set (table1 ht) (rehash_move_bucket_index_ ht) b';
    t2 ← push_all (table2 ht) nodes;
    Some (rehash_advance reset (MkHash t1 t2 (rehash_move_bucket_index_ ht)))
  else Some ht.
End push_all.

(** The searches of [FindSlot], [FindNode] and [Extract]:
    [for (i = 0; i < table_num; ++i)] the bucket of the hash value in table [i]
    is searched, until something is found.  [bop] is the search of one bucket;
    the result is the table where it succeeded. *)
Section search.
Context {B R : Type} (bop : B → option (B * option R)) (hash_val : Z).

Definition table_num (ht : HashState B) : nat := if InRehashing ht then 2 else 1.

Definition table_at (ht : HashState B) (i : Z) : Table B := if i =? 0 then table1 ht else table2 ht.
Definition set_table_at (ht : HashState B) (i : Z) (t : Table B) : HashState B :=
  if i =? 0 then set_table1 ht t else set_table2 ht t.

Definition search_bucket (t : Table B) : option (Table B * option R) :=
  b ← bucket_get t (bucket_index t hash_val);
  '(b', r) ← bop b;
  t' ← bucket_set t (bucket_index t hash_val) b';
  Some (t', r).

Fixpoint search_loop (n : nat) (i : Z) (ht : HashState B) : option (HashState B * option (Z * R)) :=
  match n with
  | O => Some (ht, None)
  | S n' =>
      '(t', r) ← search_bucket (table_at ht i);
      let ht' := set_table_at ht i t' in
      match r with
      | Some x => Some (ht', Some (i, x))
      | None => search_loop n' (i + 1) ht'
      end
  end.

Definition search_tables (ht : HashState B) : option (HashState B * option (Z * R)) :=
  search_loop (table_num ht) 0 ht.
End search.

(** ** The invariant *)

Section invariant.
Context {B T K : Type} `{BucketElems B T} (gk : T → K) (HF : K → Z).
Context (bucket_ok : B → Prop) (key_ok : K → Prop) {dr : Drift}.
Implicit Types (ht : HashState B) (t : Table B) (b : B) (x : T) (k : K).

Definition all_elems ht : list T := elems (table (table1 ht)) ++ elems (table (table2 ht)).

(** A well-formed table: 2^n buckets, elements in the buckets of their hash. *)
Definition table_wf (n : Z) t : Prop :=
  sized n t ∧ n ≤ 63 ∧ placed gk HF (size_mask t) (table t) ∧ Forall bucket_ok (table t).

(** The first buckets, below [i], have been moved. *)
Definition moved_upto (i : Z) t : Prop :=
  ∀ j b, Z.of_nat j < i → table t !! j = Some b → bucket_elems b = [].

(** The phase: no rehash and an empty second table, or a second table of twice
    the size and the first buckets of the first table already moved. *)
Definition phase_wf (n : Z) ht : Prop :=
  rehash_move_bucket_index_ ht = npos ∧ table (table2 ht) = []
  ∨ 0 ≤ rehash_move_bucket_index_ ht < 2 ^ n ∧ table_wf (n + 1) (table2 ht)
    ∧ moved_upto (rehash_move_bucket_index_ ht) (table1 ht).

Definition hash_shape ht : Prop := ∃ n, table_wf n (table1 ht) ∧ phase_wf n ht.

(** Unique keys, all acceptable to the bucket type. *)
Definition keys_wf (l : list T) : Prop := NoDup (map gk l) ∧ Forall (λ x, key_ok (gk x)) l.

Definition hash_wf ht : Prop :=
  hash_shape ht ∧ keys_wf (all_elems ht) ∧ used (table1 ht) = u64 (Z.of_nat (length (all_elems ht)) + drift).

#[global] Instance keys_wf_perm : Proper ((≡ₚ) ==> iff) keys_wf.
Proof. intros l l' Hl. unfold keys_wf. by rewrite Hl. Qed.

Lemma pow2_lt_npos n : 2 ≤ n ≤ 63 → 4 ≤ 2 ^ n < npos.
Proof.
  intros Hn. unfold npos. pose proof (Z.pow_le_mono_r 2 2 n). pose proof (Z.pow_le_mono_r 2 n 63).
  split; [lia|]. change (2 ^ 64) with (2 * 2 ^ 63). lia.
Qed.

Lemma phase_cases n ht :
  table_wf n (table1 ht) → phase_wf n ht →
  (InRehashing ht = false ∧ rehash_move_bucket_index_ ht = npos ∧ table (table2 ht) = [])
  ∨ (InRehashing ht = true ∧ 0 ≤ rehash_move_bucket_index_ ht < 2 ^ n ∧ table_wf (n + 1) (table2 ht)
     ∧ moved_upto (rehash_move_bucket_index_ ht) (table1 ht)).
Proof.
  unfold InRehashing. intros ((? & _) & ? & _) [[-> ?]|[Hi ?]]; [by left|right].
  pose proof (pow2_lt_npos n ltac:(lia)). split; [|done].
  destruct (Z.eqb_spec (rehash_move_bucket_index_ ht) npos); [lia|done].
Qed.

Section empty_bucket.
Context (bnil : B).
Hypothesis bnil_elems : bucket_elems bnil = [].
Hypothesis bnil_ok : bucket_ok bnil.

(** A table grown from the empty one. *)
Lemma table_Grow_wf n t :
  table t = [] → 2 ≤ n ≤ 63 →
  table_wf n (table_Grow bnil t (2 ^ n)) ∧ elems (table (table_Grow bnil t (2 ^ n))) = []
  ∧ used (table_Grow bnil t (2 ^ n)) = used t.
Proof.
  intros Ht Hn. pose proof (pow2_lt_npos n Hn). unfold table_Grow, Grow. rewrite Ht.
  destruct (Z.leb_spec (2 ^ n) (asize (@nil B))); [change (asize (@nil B)) with 0 in *; lia|].
  cbn [table size_mask used]. unfold Reallocate. cbn [length app]. rewrite Nat.sub_0_r.
  assert (asize (replicate (Z.to_nat (2 ^ n)) bnil) = 2 ^ n) as Hsz.
  { unfold asize. rewrite length_replicate. lia. }
  unfold table_wf. split_ands; [| | | |by apply elems_replicate|done].
  - unfold sized, table_size. cbn [table size_mask]. rewrite Hsz. split_ands; [lia|done|].
    rewrite u64_small; [lia|]. unfold npos in *. lia.
  - lia.
  - cbn [size_mask table]. intros i b x [-> _]%lookup_replicate Hx. rewrite bnil_elems in Hx. set_solver.
  - cbn [table]. by apply Forall_replicate.
Qed.

Lemma hash_init_shape :
  hash_shape (hash_init bnil) ∧ all_elems (hash_init bnil) = [] ∧ used (table1 (hash_init bnil)) = 0.
Proof.
  destruct (table_Grow_wf 2 (table_init bnil) eq_refl ltac:(lia)) as (Hw & He & Hu).
  change (2 ^ 2) with 4 in *. split_ands; [|unfold all_elems, hash_init; simpl table1; by rewrite He|done].
  exists 2. split; [done|]. by left.
Qed.

Lemma Rehash_wf ht :
  hash_wf ht → table_size (table1 ht) < 2 ^ 63 →
  hash_wf (Rehash bnil ht) ∧ all_elems (Rehash bnil ht) = all_elems ht.
Proof.
  intros Hw Hlt. unfold Rehash. destruct (InRehashing ht) eqn:Hr; [done|]. cbn [negb andb].
  destruct (Z.leb_spec (table_size (table1 ht)) (used (table1 ht))); [|done].
  destruct Hw as ((n & Hw1 & Hph) & Hk & Hu).
  destruct (phase_cases _ _ Hw1 Hph) as [(_ & _ & H2)|(? & _)]; [|congruence].
  assert (2 ≤ n ∧ table_size (table1 ht) = 2 ^ n) as [Hn Hsz] by (by destruct Hw1 as ((? & ? & _) & _)).
  assert (n < 63) by (apply (Z.pow_lt_mono_r_iff 2); lia).
  assert (u64 (Z.shiftl (table_size (table1 ht)) 1) = 2 ^ (n + 1)) as ->.
  { rewrite Z.shiftl_mul_pow2 by lia. rewrite Hsz, Z.pow_add_r by lia. apply u64_small. lia. }
  destruct (table_Grow_wf (n + 1) (table2 ht) H2 ltac:(lia)) as (Hw2 & He & _).
  assert (∀ u, all_elems (MkHash (table1 ht) (table_Grow bnil (table2 ht) (2 ^ (n + 1))) u) = all_elems ht) as Ha.
  { intros u. unfold all_elems. cbn [table1 table2]. by rewrite He, H2. }
  split; [|done]. unfold hash_wf. rewrite Ha. split_ands; [|done..].
  exists n. split; [done|]. right. split_ands; cbn [rehash_move_bucket_index_]; [lia|lia|done|].
  intros j b ?; lia.
Qed.

End empty_bucket.

(** ** Changing one bucket *)

(** [b] may be the bucket of the hash value [h]. *)
Definition fits t (h : Z) b : Prop :=
  bucket_ok b ∧ ∀ x, x ∈ bucket_elems b → bucket_index t (HF (gk x)) = bucket_index t h.

Lemma bucket_get_fits n t h : table_wf n t → ∃ b, bucket_get t (bucket_index t h) = Some b ∧ fits t h b.
Proof.
  intros (Hs & _ & Hp & Hb). destruct (bucket_get_Some n t h Hs) as (b & Hg). exists b. split; [done|].
  pose proof (sized_index n t h Hs). unfold bucket_get, aget in Hg.
  destruct (Z.leb_spec 0 (bucket_index t h)); [|done]. split.
  - by eapply Forall_lookup_1.
  - intros x Hx. pose proof (Hp _ _ _ Hg Hx). pose proof (sized_index n t (HF (gk x)) Hs).
    unfold bucket_index in *. lia.
Qed.

Lemma fits_sub t h b b' :
  fits t h b → bucket_ok b' → (∀ x, x ∈ bucket_elems b' → x ∈ bucket_elems b ∨ HF (gk x) = h) → fits t h b'.
Proof. intros [_ Hb] Hok Hsub. split; [done|]. intros x [?| ->]%Hsub; auto. Qed.

Lemma bucket_set_wf n t h b b' :
  table_wf n t → bucket_get t (bucket_index t h) = Some b → fits t h b' →
  ∃ t', bucket_set t (bucket_index t h) b' = Some t' ∧ table_wf n t' ∧ used t' = used t
    ∧ size_mask t' = size_mask t ∧ table t' = <[Z.to_nat (bucket_index t h) := b']> (table t)
    ∧ ∃ rest, elems (table t) ≡ₚ bucket_elems b ++ rest ∧ elems (table t') ≡ₚ bucket_elems b' ++ rest.
Proof.
  intros (Hs & Hn & Hp & Hb) Hg [Hok Hfit].
  destruct (bucket_set_Some n t _ b b' Hs Hg) as (t' & -> & Hs' & Hu & Hm & Ht & Hrest).
  exists t'. split_ands; try done. unfold table_wf. rewrite Hm, Ht. split_ands; try done.
  - apply placed_insert; [done|]. intros x Hx. unfold bucket_index in Hfit.
    rewrite (Hfit x Hx). done.
  - by apply Forall_insert.
Qed.

Lemma push_all_wf {N} (push : B → N → option B) (val : N → T) (node_ok : N → Prop) n t nodes :
  (∀ b (x : N), bucket_ok b → node_ok x → keys_wf (val x :: bucket_elems b) →
     ∃ b', push b x = Some b' ∧ bucket_ok b' ∧ bucket_elems b' ≡ₚ val x :: bucket_elems b) →
  table_wf n t → Forall node_ok nodes → keys_wf (map val nodes ++ elems (table t)) →
  ∃ t', push_all gk HF push val t nodes = Some t' ∧ table_wf n t' ∧ used t' = used t
    ∧ elems (table t') ≡ₚ map val nodes ++ elems (table t).
Proof.
  intros Hpush. revert t. induction nodes as [|x nodes IH]; intros t Hw Hnodes Hk; cbn [push_all map app].
  { eauto. }
  apply Forall_cons in Hnodes as [Hx Hnodes].
  destruct (bucket_get_fits n t (HF (gk (val x))) Hw) as (b & Hg & Hfit).
  assert (keys_wf (val x :: bucket_elems b)) as Hkb.
  { destruct Hw as (Hs & _). destruct (bucket_set_Some n t _ b b Hs Hg) as (? & _ & _ & _ & _ & _ & rest & Hr & _).
    rewrite Hr in Hk. destruct Hk as [Hk1 Hk2]. cbn [map app] in Hk1, Hk2. rewrite !map_app in Hk1.
    unfold keys_wf. cbn [map]. rewrite NoDup_cons, !NoDup_app in *. rewrite !Forall_cons, !Forall_app in *.
    set_solver. }
  destruct (Hpush b x (proj1 Hfit) Hx Hkb) as (b' & Hb' & Hok' & Hel').
  destruct (bucket_set_wf n t _ b b' Hw Hg) as (t' & Hset & Hw' & Hu' & _ & _ & rest & Hr & Hr').
  { apply (fits_sub _ _ b); [done..|]. intros y. rewrite Hel'. set_solver. }
  assert (elems (table t') ≡ₚ val x :: elems (table t)) as He' by (by rewrite Hr', Hel', Hr).
  unfold push_at. rewrite Hg. simpl. rewrite Hb'. simpl. rewrite Hset. simpl.
  destruct (IH t' Hw' Hnodes) as (t'' & -> & Hw'' & Hu'' & He'').
  { rewrite He'. by rewrite <-Permutation_middle. }
  exists t''. split_ands; [done|done|congruence|]. by rewrite He'', He', Permutation_middle.
Qed.

(** ** One step of the incremental rehash *)

Lemma bucket_index_self n t i : sized n t → 0 ≤ i < 2 ^ n → bucket_index t i = i.
Proof.
  intros (Hn & _ & Hm) Hi. unfold bucket_index. rewrite Hm.
  replace (2 ^ n - 1) with (Z.ones n) by (by rewrite Z.ones_equiv, Z.sub_1_r).
  rewrite Z.land_ones by lia. by apply Z.mod_small.
Qed.

Lemma moved_upto_insert i j b t t' :
  moved_upto i t → table t' = <[Z.to_nat j := b]> (table t) → 0 ≤ j → (j < i → bucket_elems b = []) →
  moved_upto i t'.
Proof.
  intros Hm Ht Hj Hb k c Hk. rewrite Ht. intros [(<- & <- & _)|[_ Hl]]%list_lookup_insert_Some.
  - apply Hb. lia.
  - by eapply Hm.
Qed.

Lemma moved_upto_all n t : sized n t → moved_upto (2 ^ n) t → elems (table t) = [].
Proof.
  intros (_ & Hsz & _) Hm. unfold table_size, asize in Hsz.
  destruct (elems (table t)) as [|x l] eqn:He; [done|]. exfalso.
  assert (x ∈ elems (table t)) as (i & b & Hi & Hx)%elems_lookup by (rewrite He; set_solver).
  pose proof (lookup_lt_Some _ _ _ Hi). rewrite (Hm i b) in Hx; [set_solver|lia|done].
Qed.

(** The end of the step: [t1] has its first [i + 1] buckets moved. *)
Lemma rehash_advance_wf reset n t1 t2 i :
  (∀ t, table (reset t) = []) →
  table_wf n t1 → table_wf (n + 1) t2 → 0 ≤ i < 2 ^ n → moved_upto (i + 1) t1 →
  let ht' := rehash_advance reset (MkHash t1 t2 i) in
  hash_shape ht' ∧ used (table1 ht') = used t1
  ∧ all_elems ht' ≡ₚ elems (table t1) ++ elems (table t2).
Proof.
  intros Hreset Hw1 Hw2 Hi Hm. unfold rehash_advance, table_swap.
  cbn [table1 table2 rehash_move_bucket_index_].
  assert (2 ≤ n ≤ 63 ∧ table_size t1 = 2 ^ n) as [Hn Hsz]
    by (destruct Hw1 as ((? & ? & _) & ? & _); done).
  assert (table_size t2 = 2 ^ (n + 1)) as Hsz2 by (by destruct Hw2 as ((_ & ? & _) & _)).
  pose proof (pow2_lt_npos n Hn). unfold npos in *. rewrite u64_small by lia. rewrite Hsz, Hsz2.
  destruct (Z.eqb_spec (i + 1) (2 ^ n)) as [Heq|Hne].
  - destruct (Z.ltb_spec 0 (2 ^ (n + 1))); [|pose proof (Z.pow_pos_nonneg 2 (n + 1)); lia].
    rewrite Heq in Hm. pose proof (moved_upto_all n t1 (proj1 Hw1) Hm) as He.
    split_ands; [|done|].
    + exists (n + 1). split; [done|]. left. split; [done|]. apply Hreset.
    + unfold all_elems. cbn [table1 table2 table]. by rewrite Hreset, He, app_nil_r.
  - split_ands; [|done|done]. exists n. split; [done|]. right. cbn [table1 table2 rehash_move_bucket_index_].
    split_ands; [lia|lia|done|done].
Qed.

Section incremental.
Context {N : Type} (push : B → N → option B) (val : N → T) (node_ok : N → Prop).
Context (take_all : B → option (B * list N)) (reset : Table B → Table B).
Hypothesis push_ok : ∀ b (x : N), bucket_ok b → node_ok x → keys_wf (val x :: bucket_elems b) →
  ∃ b', push b x = Some b' ∧ bucket_ok b' ∧ bucket_elems b' ≡ₚ val x :: bucket_elems b.
Hypothesis take_all_ok : ∀ b, bucket_ok b →
  ∃ b' nodes, take_all b = Some (b', nodes) ∧ bucket_elems b' = [] ∧ bucket_ok b'
    ∧ Forall node_ok nodes ∧ map val nodes ≡ₚ bucket_elems b.
Hypothesis reset_ok : ∀ t, table (reset t) = [].

Lemma incremental_rehash_wf ht :
  hash_wf ht →
  ∃ ht', incremental_rehash gk HF push val take_all reset ht = Some ht'
    ∧ hash_wf ht' ∧ all_elems ht' ≡ₚ all_elems ht.
Proof.
  intros Hwf. unfold incremental_rehash. destruct (InRehashing ht) eqn:Hr; [|by eauto].
  destruct Hwf as ((n & Hw1 & Hph) & Hk & Hu).
  destruct (phase_cases _ _ Hw1 Hph) as [(? & _)|(_ & Hi & Hw2 & Hm)]; [congruence|].
  set (i := rehash_move_bucket_index_ ht) in *.
  pose proof (bucket_index_self n _ i (proj1 Hw1) Hi) as Hii.
  destruct (bucket_get_fits n (table1 ht) i Hw1) as (b & Hg & Hfit).
  destruct (take_all_ok b (proj1 Hfit)) as (b' & nodes & Htake & Hb' & Hok' & Hnok & Hnodes).
  destruct (bucket_set_wf n (table1 ht) i b b' Hw1 Hg) as (t1 & Hset & Hw1' & Hu1 & Hm1 & Ht1 & rest & Hr1 & Hr1').
  { split; [done|]. rewrite Hb'. set_solver. }
  rewrite Hii in *. rewrite Hb' in Hr1'. simpl in Hr1'.
  assert (all_elems ht ≡ₚ rest ++ (map val nodes ++ elems (table (table2 ht)))) as Hall.
  { unfold all_elems. rewrite Hr1, Hnodes, !app_assoc. apply Permutation_app_tail, Permutation_app_comm. }
  destruct (push_all_wf push val node_ok (n + 1) (table2 ht) nodes push_ok Hw2 Hnok) as (t2 & Hpush & Hw2' & Hu2 & He2).
  { rewrite Hall in Hk. destruct Hk as [Hk1 Hk2]. rewrite map_app, NoDup_app in Hk1.
    rewrite Forall_app in Hk2. split; [apply Hk1|apply Hk2]. }
  destruct (rehash_advance_wf reset n t1 t2 i reset_ok Hw1' Hw2' Hi) as (Hs' & Hu' & Ha').
  { intros j c Hj. rewrite Ht1. intros [(<- & <- & _)|[? Hl]]%list_lookup_insert_Some; [done|].
    eapply Hm; [|done]. unfold i in *. lia. }
  rewrite Hg. simpl. rewrite Htake. simpl. rewrite Hset. simpl. rewrite Hpush. simpl.
  eexists; split; [done|].
  assert (all_elems (rehash_advance reset (MkHash t1 t2 i)) ≡ₚ all_elems ht) as Hperm
    by (by rewrite Ha', Hr1', He2, Hall).
  split; [|done]. unfold hash_wf. rewrite Hperm. split_ands; [done|done|congruence].
Qed.
End incremental.

(** ** Operations on the buckets of one key *)

Lemma hash_shape_used ht u : hash_shape ht → hash_shape (set_table1 ht (set_used (table1 ht) u)).
Proof. intros (n & Hw & Hp). exists n. done. Qed.

Lemma bucket1_fits ht h :
  hash_shape ht →
  ∃ b, bucket_get (table1 ht) (bucket_index (table1 ht) h) = Some b ∧ fits (table1 ht) h b
    ∧ (InRehashing ht = true → bucket_index (table1 ht) h < rehash_move_bucket_index_ ht → bucket_elems b = []).
Proof.
  intros (n & Hw & Hp). destruct (bucket_get_fits n _ h Hw) as (b & Hg & Hf). exists b. split_ands; [done..|].
  intros Hr Hlt. destruct (phase_cases _ _ Hw Hp) as [(? & _)|(_ & _ & _ & Hm)]; [congruence|].
  unfold bucket_get, aget in Hg. case_match eqn:Hz; [|done]. apply Z.leb_le in Hz.
  eapply Hm; [|done]. lia.
Qed.

Lemma bucket2_fits ht h :
  hash_shape ht → InRehashing ht = true →
  ∃ b, bucket_get (table2 ht) (bucket_index (table2 ht) h) = Some b ∧ fits (table2 ht) h b.
Proof.
  intros (n & Hw & Hp) Hr. destruct (phase_cases _ _ Hw Hp) as [(? & _)|(_ & _ & Hw2 & _)]; [congruence|].
  by apply (bucket_get_fits (n + 1)).
Qed.

Lemma update_bucket1 ht h b b' :
  hash_shape ht → bucket_get (table1 ht) (bucket_index (table1 ht) h) = Some b → fits (table1 ht) h b' →
  (InRehashing ht = true → bucket_index (table1 ht) h < rehash_move_bucket_index_ ht → bucket_elems b' = []) →
  ∃ t', bucket_set (table1 ht) (bucket_index (table1 ht) h) b' = Some t' ∧ hash_shape (set_table1 ht t')
    ∧ used t' = used (table1 ht)
    ∧ ∃ rest, all_elems ht ≡ₚ bucket_elems b ++ rest ∧ all_elems (set_table1 ht t') ≡ₚ bucket_elems b' ++ rest.
Proof.
  intros (n & Hw & Hp) Hg Hf Hmv.
  destruct (bucket_set_wf n _ h b b' Hw Hg Hf) as (t' & -> & Hw' & Hu & _ & Ht & rest & Hr & Hr').
  exists t'. split_ands; [done| |done|].
  - exists n. split; [done|]. destruct (phase_cases _ _ Hw Hp) as [(_ & Hi & H2)|(Hin & Hi & Hw2 & Hm)]; [by left|].
    right. split; [done|]. split; [done|]. cbn [set_table1 table1 rehash_move_bucket_index_].
    eapply moved_upto_insert; [done..| |by auto].
    pose proof (sized_index n (table1 ht) h (proj1 Hw)). lia.
  - exists (rest ++ elems (table (table2 ht))). unfold all_elems, set_table1. cbn [table1 table2].
    by rewrite Hr, Hr', <-!app_assoc.
Qed.

Lemma update_bucket2 ht h b b' :
  hash_shape ht → InRehashing ht = true →
  bucket_get (table2 ht) (bucket_index (table2 ht) h) = Some b → fits (table2 ht) h b' →
  ∃ t', bucket_set (table2 ht) (bucket_index (table2 ht) h) b' = Some t' ∧ hash_shape (set_table2 ht t')
    ∧ ∃ rest, all_elems ht ≡ₚ bucket_elems b ++ rest ∧ all_elems (set_table2 ht t') ≡ₚ bucket_elems b' ++ rest.
Proof.
  intros (n & Hw & Hp) Hin Hg Hf.
  destruct (phase_cases _ _ Hw Hp) as [(? & _)|(_ & Hi & Hw2 & Hm)]; [congruence|].
  destruct (bucket_set_wf (n + 1) _ h b b' Hw2 Hg Hf) as (t' & -> & Hw' & Hu & _ & Ht & rest & Hr & Hr').
  exists t'. split_ands; [done| |].
  - exists n. split; [done|]. by right.
  - exists (elems (table (table1 ht)) ++ rest). unfold all_elems, set_table2. cbn [table1 table2].
    by rewrite Hr, Hr', !app_assoc, !(Permutation_app_comm (elems _) (bucket_elems _)).
Qed.

(** An element is in the bucket of its hash in the first table or, during a
    rehash, in the second. *)
Lemma elem_in_buckets ht x b1 :
  hash_shape ht → x ∈ all_elems ht →
  bucket_get (table1 ht) (bucket_index (table1 ht) (HF (gk x))) = Some b1 →
  x ∈ bucket_elems b1
  ∨ InRehashing ht = true
    ∧ ∀ b2, bucket_get (table2 ht) (bucket_index (table2 ht) (HF (gk x))) = Some b2 → x ∈ bucket_elems b2.
Proof.
  intros (n & Hw & Hp) [Hx|Hx]%elem_of_app Hg.
  - left. destruct Hw as (? & _ & ? & _). by eapply placed_bucket.
  - destruct (phase_cases _ _ Hw Hp) as [(_ & _ & H2)|(? & _ & (? & _ & ? & _) & _)].
    + rewrite H2 in Hx. set_solver.
    + right. split; [done|]. intros b2 Hb2. by eapply placed_bucket.
Qed.

(** ** The searches *)

(** What a search for [k] does to the elements: [left x] is what it leaves
    in the place of the element [x] it finds. *)
Definition search_result (left : T → list T) k (l l' : list T) (found : option T) : Prop :=
  match found with
  | Some x => gk x = k ∧ ∃ rest, l ≡ₚ x :: rest ∧ l' ≡ₚ left x ++ rest
  | None => (k ∉ map gk l) ∧ l' ≡ₚ l
  end.

Lemma search_result_rest left k l l' x rest m m' :
  search_result left k l l' (Some x) → m ≡ₚ l ++ rest → m' ≡ₚ l' ++ rest → search_result left k m m' (Some x).
Proof.
  intros (? & r & Hl & Hl') Hm Hm'. split; [done|]. exists (r ++ rest).
  by rewrite Hm, Hm', Hl, Hl', <-app_assoc.
Qed.

Lemma search_result_sub left k l l' found x :
  (∀ x y, gk x = k → y ∈ left x → gk y = k) →
  search_result left k l l' found → x ∈ l' → x ∈ l ∨ gk x = k.
Proof.
  intros Hleft. destruct found as [y|]; simpl.
  - intros (Hy & rest & -> & ->) [?|?]%elem_of_app; [right; by eapply Hleft|left; set_solver].
  - intros [_ ->]. by left.
Qed.

Lemma search_result_nil left k l' found : search_result left k [] l' found → l' = [].
Proof.
  destruct found as [y|]; simpl.
  - intros (_ & rest & Hr & _). by apply Permutation_nil_cons in Hr.
  - intros [_ Hl]. symmetry in Hl. by apply Permutation_nil in Hl.
Qed.

Lemma keys_wf_app_l l l' : keys_wf (l ++ l') → keys_wf l.
Proof. unfold keys_wf. rewrite map_app, NoDup_app, Forall_app. tauto. Qed.

Lemma not_in_buckets k ht b1 :
  hash_shape ht → bucket_get (table1 ht) (bucket_index (table1 ht) (HF k)) = Some b1 →
  k ∉ map gk (bucket_elems b1) →
  (InRehashing ht = true → ∃ b2, bucket_get (table2 ht) (bucket_index (table2 ht) (HF k)) = Some b2
    ∧ k ∉ map gk (bucket_elems b2)) →
  k ∉ map gk (all_elems ht).
Proof.
  intros Hs Hg1 Hn1 H2 (x & -> & Hx)%list_elem_of_fmap.
  destruct (elem_in_buckets ht x b1 Hs Hx Hg1) as [?|[Hin Hb2]].
  - apply Hn1, list_elem_of_fmap. eauto.
  - destruct (H2 Hin) as (b2 & Hg2 & Hn2). apply Hn2, list_elem_of_fmap. eauto.
Qed.

Section searching.
Context {R : Type} (bop : B → option (B * option R)) (rval : R → T) (left : T → list T) (k : K).
Hypothesis left_ok : ∀ x y, gk x = k → y ∈ left x → gk y = k.
Hypothesis bop_ok : ∀ b, bucket_ok b → keys_wf (bucket_elems b) →
  ∃ b' r, bop b = Some (b', r) ∧ bucket_ok b'
    ∧ search_result left k (bucket_elems b) (bucket_elems b') (rval <$> r).

Lemma fits_search t b b' found :
  fits t (HF k) b → bucket_ok b' → search_result left k (bucket_elems b) (bucket_elems b') found →
  fits t (HF k) b'.
Proof.
  intros Hf Hok Hres. apply (fits_sub _ _ b); [done..|]. intros x Hx.
  destruct (search_result_sub _ _ _ _ _ _ left_ok Hres Hx) as [|<-]; auto.
Qed.

Lemma search_bucket1 ht :
  hash_shape ht → keys_wf (all_elems ht) →
  ∃ t' r b b' rest, search_bucket bop (HF k) (table1 ht) = Some (t', r)
    ∧ bucket_get (table1 ht) (bucket_index (table1 ht) (HF k)) = Some b
    ∧ hash_shape (set_table1 ht t') ∧ used t' = used (table1 ht)
    ∧ all_elems ht ≡ₚ bucket_elems b ++ rest ∧ all_elems (set_table1 ht t') ≡ₚ bucket_elems b' ++ rest
    ∧ search_result left k (bucket_elems b) (bucket_elems b') (rval <$> r).
Proof.
  intros Hs Hk. destruct (bucket1_fits ht (HF k) Hs) as (b & Hg & Hf & Hmv).
  destruct (update_bucket1 ht (HF k) b b Hs Hg Hf Hmv) as (_ & _ & _ & _ & rest0 & Hr0 & _).
  rewrite Hr0 in Hk. apply keys_wf_app_l in Hk.
  destruct (bop_ok b (proj1 Hf) Hk) as (b' & r & Hb & Hok & Hres).
  destruct (update_bucket1 ht (HF k) b b' Hs Hg) as (t' & Hset & Hs' & Hu & rest & Hr & Hr').
  { by eapply fits_search. }
  { intros Hin Hlt. rewrite (Hmv Hin Hlt) in Hres. by eapply search_result_nil. }
  exists t', r, b, b', rest. unfold search_bucket. rewrite Hg. simpl. rewrite Hb. simpl. by rewrite Hset.
Qed.

Lemma search_bucket2 ht :
  hash_shape ht → keys_wf (all_elems ht) → InRehashing ht = true →
  ∃ t' r b b' rest, search_bucket bop (HF k) (table2 ht) = Some (t', r)
    ∧ bucket_get (table2 ht) (bucket_index (table2 ht) (HF k)) = Some b
    ∧ hash_shape (set_table2 ht t')
    ∧ all_elems ht ≡ₚ bucket_elems b ++ rest ∧ all_elems (set_table2 ht t') ≡ₚ bucket_elems b' ++ rest
    ∧ search_result left k (bucket_elems b) (bucket_elems b') (rval <$> r).
Proof.
  intros Hs Hk Hin. destruct (bucket2_fits ht (HF k) Hs Hin) as (b & Hg & Hf).
  destruct (update_bucket2 ht (HF k) b b Hs Hin Hg Hf) as (_ & _ & _ & rest0 & Hr0 & _).
  rewrite Hr0 in Hk. apply keys_wf_app_l in Hk.
  destruct (bop_ok b (proj1 Hf) Hk) as (b' & r & Hb & Hok & Hres).
  destruct (update_bucket2 ht (HF k) b b' Hs Hin Hg) as (t' & Hset & Hs' & rest & Hr & Hr').
  { by eapply fits_search. }
  exists t', r, b, b', rest. unfold search_bucket. rewrite Hg. simpl. rewrite Hb. simpl. by rewrite Hset.
Qed.

Lemma search_tables_wf ht :
  hash_shape ht → keys_wf (all_elems ht) →
  ∃ ht' r, search_tables bop (HF k) ht = Some (ht', r) ∧ hash_shape ht'
    ∧ used (table1 ht') = used (table1 ht)
    ∧ search_result left k (all_elems ht) (all_elems ht') (rval ∘ snd <$> r).
Proof.
  intros Hs Hk. unfold search_tables, table_num.
  destruct (search_bucket1 ht Hs Hk) as (t1 & r1 & b1 & b1' & rest1 & Hb1 & Hg1 & Hs1 & Hu1 & Hr1 & Hr1' & Hres1).
  assert (∀ n, search_loop bop (HF k) (S n) 0 ht =
    match r1 with
    | Some x => Some (set_table1 ht t1, Some (0, x))
    | None => search_loop bop (HF k) n 1 (set_table1 ht t1)
    end) as Hloop by (intros n; cbn [search_loop table_at Z.eqb]; by rewrite Hb1).
  assert (hash_shape ht) as Hs0 by done.
  destruct r1 as [x|].
  { exists (set_table1 ht t1), (Some (0, x)). split_ands; [|done|done|by eapply search_result_rest].
    destruct (InRehashing ht); by rewrite Hloop. }
  destruct Hres1 as [Hn1 Hp1]. assert (all_elems (set_table1 ht t1) ≡ₚ all_elems ht) as Hp by (by rewrite Hr1', Hp1, Hr1).
  destruct (InRehashing ht) eqn:Hin; rewrite Hloop; cbn [search_loop].
  2: { eexists _, None. split_ands; [done..|]. split; [|done].
       eapply not_in_buckets; [done..|]. by rewrite Hin. }
  destruct (search_bucket2 (set_table1 ht t1)) as (t2 & r2 & b2 & b2' & rest2 & Hb2 & Hg2 & Hs2 & Hr2 & Hr2' & Hres2);
    [done|by rewrite Hp|done|].
  change (table_at (set_table1 ht t1) 1) with (table2 (set_table1 ht t1)). rewrite Hb2. simpl.
  rewrite Hp in Hr2. destruct r2 as [x|].
  - eexists _, (Some (1, x)). split_ands; [done..|]. by eapply search_result_rest.
  - destruct Hres2 as [Hn2 Hp2]. eexists _, None. split_ands; [done..|]. split; [|by rewrite Hr2', Hp2, Hr2].
    eapply not_in_buckets; [done..|]. eauto.
Qed.
End searching.
End invariant.

(** What a search returns comes from one of the buckets. *)
Section search_found.
Context {B R : Type} (bop : B → option (B * option R)) (bucket_ok : B → Prop) (P : R → Prop).
Hypothesis bop_found : ∀ b b' x, bucket_ok b → bop b = Some (b', Some x) → P x.

Lemma search_bucket_found h (t t' : Table B) x :
  Forall bucket_ok (table t) → search_bucket bop h t = Some (t', Some x) → P x.
Proof.
  intros Hok (b & Hg & ([b' r] & Hb & (t'' & _ & [= _ ->])%bind_Some)%bind_Some)%bind_Some.
  eapply bop_found; [|done]. unfold bucket_get, aget in Hg. case_match; [|done]. by eapply Forall_lookup_1.
Qed.

Lemma search_tables_found h (ht ht' : HashState B) i x :
  Forall bucket_ok (table (table1 ht)) → Forall bucket_ok (table (table2 ht)) →
  search_tables bop h ht = Some (ht', Some (i, x)) → P x.
Proof.
  intros H1 H2. unfold search_tables, table_num.
  assert (∀ n, n = 1%nat ∨ n = 2%nat → search_loop bop h n 0 ht = Some (ht', Some (i, x)) → P x) as Hn;
    [|case_match; apply Hn; auto].
  intros n Hn.
  destruct Hn as [->| ->]; cbn [search_loop]; intros ([t r] & Ht & Hr)%bind_Some;
    change (table_at ht 0) with (table1 ht) in Ht.
  - destruct r as [y|]; [|done]. injection Hr as _ _ ->. exact (search_bucket_found h _ _ _ H1 Ht).
  - destruct r as [y|]; [injection Hr as _ _ ->; exact (search_bucket_found h _ _ _ H1 Ht)|].
    apply bind_Some in Hr as ([t2 r2] & Ht2 & Hr2). destruct r2; [|done]. injection Hr2 as _ _ ->.
    change (table_at (set_table_at ht 0 t) (0 + 1)) with (table2 ht) in Ht2. exact (search_bucket_found h _ _ _ H2 Ht2).
Qed.
End search_found.

(** ** Room *)

(** The tables stay within 2^62 buckets as long as there are fewer than
    [max_elems] elements. *)
Definition hash_room {B} (ht : HashState B) : Prop :=
  table_size (table1 ht) ≤ 2 ^ 62 ∧ table_size (table2 ht) ≤ 2 ^ 62.

Section room.
Context {B : Type}.
Implicit Types (ht : HashState B) (t : Table B) (b : B).

Lemma bucket_set_size t i b t' : bucket_set t i b = Some t' → table_size t' = table_size t.
Proof.
  unfold bucket_set, aset, table_size, asize. case_match; [|done]. simpl. intros [= <-].
  cbn [table]. by rewrite length_insert.
Qed.

Lemma search_bucket_size {R} (bop : B → option (B * option R)) h t t' r :
  search_bucket bop h t = Some (t', r) → table_size t' = table_size t.
Proof.
  unfold search_bucket. intros (b & _ & ([b' r'] & _ & (t'' & Ht & [= <- _])%bind_Some)%bind_Some)%bind_Some.
  by eapply bucket_set_size.
Qed.

Lemma search_tables_room {R} (bop : B → option (B * option R)) h ht ht' r :
  search_tables bop h ht = Some (ht', r) → hash_room ht → hash_room ht'.
Proof.
  unfold search_tables. generalize (table_num ht), 0. intros n. revert ht.
  induction n as [|n IH]; intros ht i; cbn [search_loop]; [by intros [= <- _]|].
  intros ([t' r'] & Ht%search_bucket_size & Hr)%bind_Some [Hr1 Hr2].
  assert (hash_room (set_table_at ht i t')) as Hroom.
  { unfold set_table_at, table_at in *. destruct (i =? 0); split; simpl; by rewrite ?Ht. }
  destruct r'; [by simplify_eq|by eapply IH].
Qed.

Context {N T K : Type} (gk : T → K) (HF : K → Z) (push : B → N → option B) (val : N → T).

Lemma push_all_size t nodes t' : push_all gk HF push val t nodes = Some t' → table_size t' = table_size t.
Proof.
  revert t. induction nodes as [|x nodes IH]; intros t; cbn [push_all]; [by intros [= <-]|].
  intros (t1 & Ht1 & Ht')%bind_Some. rewrite (IH _ Ht'). unfold push_at in Ht1.
  apply bind_Some in Ht1 as (b & _ & (b' & _ & Ht1)%bind_Some). by eapply bucket_set_size.
Qed.

Lemma incremental_rehash_room take_all reset ht ht' :
  (∀ t, table (reset t) = []) →
  incremental_rehash gk HF push val take_all reset ht = Some ht' → hash_room ht → hash_room ht'.
Proof.
  intros Hreset. unfold incremental_rehash. destruct (InRehashing ht); [|by intros [= <-]].
  intros (b & _ & ([b' nodes] & _ & (t1 & H1%bucket_set_size & (t2 & H2%push_all_size & [= <-])%bind_Some)
    %bind_Some)%bind_Some)%bind_Some [Hr1 Hr2].
  unfold rehash_advance, table_swap, hash_room. cbn [table1 table2 rehash_move_bucket_index_].
  repeat case_match; cbn [table1 table2]; simplify_eq; unfold table_size in *; cbn [table];
    rewrite ?Hreset, ?H1, ?H2; split; try done; unfold asize; simpl; lia.
Qed.
End room.

(** ** Table sizes fit [size_t] *)

Definition sizes_ok {B} (ht : HashState B) : Prop :=
  table_size (table1 ht) ≤ npos ∧ table_size (table2 ht) ≤ npos.

Lemma table_at_size {B} (ht : HashState B) i : sizes_ok ht → table_size (table_at ht i) ≤ npos.
Proof. intros []. unfold table_at. by case_match. Qed.

Lemma hash_shape_sizes {B T K} `{BucketElems B T} (gk : T → K) HF bucket_ok (ht : HashState B) :
  hash_shape gk HF bucket_ok ht → sizes_ok ht.
Proof.
  intros (n & Hw & Hp). pose proof Hw as ((? & Hs1 & _) & ? & _). split.
  - rewrite Hs1. pose proof (pow2_lt_npos n). lia.
  - destruct (phase_cases _ _ _ _ _ Hw Hp) as [(_ & _ & Hnil)|(_ & _ & ((? & Hs2 & _) & ? & _) & _)].
    + unfold table_size. rewrite Hnil. done.
    + rewrite Hs2. pose proof (pow2_lt_npos (n + 1)). lia.
Qed.

(** A new table counts exactly. *)
Lemma hash_init_wf {B T K} `{BucketElems B T} (gk : T → K) HF bucket_ok key_ok (bnil : B) :
  bucket_elems bnil = [] → bucket_ok bnil →
  hash_wf gk HF bucket_ok key_ok (dr := no_drift) (hash_init bnil) ∧ all_elems (hash_init bnil) = [].
Proof.
  intros Hn Hok. destruct (hash_init_shape gk HF bucket_ok bnil Hn Hok) as (Hs & Ha & Hu). split; [|done].
  unfold hash_wf. rewrite Ha, Hu. split_ands; [done|split; constructor|done].
Qed.

(** ** The map of a table *)

Section map_view.
Context {B T K : Type} `{BucketElems B T} `{Countable K} (gk : T → K) (HF : K → Z).
Context (bucket_ok : B → Prop) (key_ok : K → Prop) {dr : Drift}.
Implicit Types (ht : HashState B).

Definition hash_view ht : gmap K T := kmap gk (all_elems ht).

Lemma hash_view_size ht :
  hash_wf gk HF bucket_ok key_ok ht → hash_size ht = u64 (Z.of_nat (size (hash_view ht)) + drift).
Proof. intros (_ & [Hnd _] & Hu). unfold hash_view, hash_size. by rewrite kmap_size, Hu. Qed.

Lemma hash_view_key ht k x :
  hash_wf gk HF bucket_ok key_ok ht → hash_view ht !! k = Some x → gk x = k ∧ key_ok k.
Proof.
  intros (_ & [_ Hk] & _) [<- Hx]%kmap_lookup_inv. split; [done|]. rewrite Forall_forall in Hk. by apply Hk.
Qed.

Lemma hash_view_perm ht ht' :
  hash_wf gk HF bucket_ok key_ok ht → all_elems ht' ≡ₚ all_elems ht → hash_view ht' = hash_view ht.
Proof. intros (_ & [Hnd _] & _) Hp. symmetry. by apply kmap_perm. Qed.

(** The effect of a search, on the map. *)
Lemma search_view left k l l' found :
  NoDup (map gk l) → search_result gk left k l l' found → kmap gk l !! k = found.
Proof.
  intros Hnd. destruct found as [x|]; simpl.
  - intros (<- & rest & Hl & _). apply kmap_lookup; [done|]. rewrite Hl. set_solver.
  - intros [? _]. by apply kmap_lookup_None.
Qed.

Lemma search_keep k l l' found : search_result gk (λ x, [x]) k l l' found → l' ≡ₚ l.
Proof. destruct found as [x|]; simpl; [intros (_ & rest & -> & ->)|intros [_ ->]]; done. Qed.

Lemma search_extract k l l' found :
  keys_wf gk key_ok l → search_result gk (λ _, []) k l l' found →
  keys_wf gk key_ok l' ∧ kmap gk l' = delete k (kmap gk l)
  ∧ length l = (length l' + (match found with Some _ => 1 | None => 0 end))%nat.
Proof.
  intros Hk. destruct found as [x|]; simpl.
  - intros (<- & rest & Hl & Hl'). rewrite Hl in Hk. destruct Hk as [Hnd Hok].
    pose proof Hnd as [_ Hnd']%NoDup_cons. apply Forall_cons in Hok as [_ Hok].
    split_ands; [by rewrite Hl'; split| |rewrite Hl, Hl'; simpl; lia].
    rewrite (kmap_perm gk l (x :: rest)), <-kmap_delete by (by rewrite ?Hl). apply kmap_perm; [by rewrite Hl'|done].
  - intros [Hn Hl]. split_ands; [by rewrite Hl| |rewrite Hl; lia].
    rewrite delete_id by (by apply kmap_lookup_None).
    destruct Hk as [Hnd _]. apply kmap_perm; [by rewrite Hl|done].
Qed.

Lemma search_update f k l l' found :
  (∀ x, gk x = k → gk (f x) = k) →
  keys_wf gk key_ok l → search_result gk (λ x, [f x]) k l l' found →
  keys_wf gk key_ok l' ∧ length l' = length l
  ∧ kmap gk l' = match found with Some x => <[k := f x]> (kmap gk l) | None => kmap gk l end.
Proof.
  intros Hf Hk. destruct found as [x|]; simpl.
  - intros (Hx & rest & Hl & Hl'). specialize (Hf x Hx). rewrite Hl in Hk.
    assert (keys_wf gk key_ok (f x :: rest)) as Hk'.
    { unfold keys_wf in *. rewrite Forall_cons in *. cbn [map] in *. by rewrite Hf, <-Hx. }
    split_ands; [by rewrite Hl'|by rewrite Hl, Hl'|].
    rewrite (kmap_perm gk l' (f x :: rest)), (kmap_perm gk l (x :: rest));
      [|rewrite Hl; apply Hk|done|rewrite Hl'; apply Hk'|done].
    by rewrite !kmap_cons, Hf, Hx, insert_insert_eq.
  - intros [Hn Hl]. split_ands; [by rewrite Hl|by rewrite Hl|].
    destruct Hk as [Hnd _]. apply kmap_perm; [by rewrite Hl|done].
Qed.

(** A new element. *)
Lemma hash_insert_wf ht ht' x :
  hash_wf gk HF bucket_ok key_ok ht → key_ok (gk x) → gk x ∉ map gk (all_elems ht) →
  hash_shape gk HF bucket_ok ht' → used (table1 ht') = used (table1 ht) → all_elems ht' ≡ₚ x :: all_elems ht →
  hash_wf gk HF bucket_ok key_ok (used_incr ht') ∧ hash_view (used_incr ht') = <[gk x := x]> (hash_view ht).
Proof.
  intros (Hs & [Hnd Hok] & Hu) Hx Hn Hs' Hu' Hp.
  change (all_elems (used_incr ht')) with (all_elems ht').
  assert (keys_wf gk key_ok (all_elems ht')) as Hk'.
  { rewrite Hp. split; [by apply NoDup_cons|by apply Forall_cons]. }
  split.
  - split; [by apply (hash_shape_used gk HF)|]. split; [done|].
    change (all_elems (used_incr ht')) with (all_elems ht'). rewrite Hp. simpl.
    rewrite Hu', Hu, u64_succ_mod. f_equal. lia.
  - unfold hash_view. change (all_elems (used_incr ht')) with (all_elems ht').
    rewrite <-kmap_cons. apply kmap_perm; [apply Hk'|done].
Qed.

Lemma Rehash_room bnil ht :
  hash_wf gk HF bucket_ok key_ok ht → Z.of_nat (size (hash_view ht)) + drift < max_elems → hash_room ht →
  hash_room (Rehash bnil ht).
Proof.
  intros (_ & [Hnd _] & Hu) Hsz [Hr1 Hr2]. unfold hash_view in Hsz. rewrite kmap_size in Hsz by done.
  unfold Rehash, max_elems in *. case_match eqn:Hc; [|done]. apply andb_prop in Hc as [_ Hc%Z.leb_le].
  pose proof drift_nonneg. rewrite Hu, u64_small in Hc by lia.
  split; [done|]. unfold table_size in *. cbn [table2 table_Grow table]. unfold Grow.
  rewrite Z.shiftl_mul_pow2, u64_small by (unfold asize in *; lia).
  case_match; [done|]. unfold Reallocate, asize in *. rewrite length_app, length_replicate. lia.
Qed.

(** What an insertion does to the map. *)
Definition insert_effect ht (elem : T) ht' (ok : bool) (dup : T) : Prop :=
  match hash_view ht !! gk elem with
  | Some y => ok = false ∧ dup = y ∧ hash_view ht' = hash_view ht
  | None => ok = true ∧ dup = elem ∧ hash_view ht' = <[gk elem := elem]> (hash_view ht)
  end.

Lemma insert_effect_dup ht ht' elem y :
  hash_wf gk HF bucket_ok key_ok ht → y ∈ all_elems ht → gk y = gk elem → all_elems ht' ≡ₚ all_elems ht →
  insert_effect ht elem ht' false y.
Proof.
  intros Hw Hy Hgk Hp. pose proof Hw as (_ & [Hnd _] & _). unfold insert_effect.
  rewrite (hash_view_perm ht ht' Hw Hp). unfold hash_view at 1. by rewrite <-Hgk, kmap_lookup.
Qed.

Lemma insert_effect_new ht ht' elem :
  hash_wf gk HF bucket_ok key_ok ht → key_ok (gk elem) → gk elem ∉ map gk (all_elems ht) →
  hash_shape gk HF bucket_ok ht' → used (table1 ht') = used (table1 ht) →
  all_elems ht' ≡ₚ elem :: all_elems ht →
  hash_wf gk HF bucket_ok key_ok (used_incr ht') ∧ insert_effect ht elem (used_incr ht') true elem.
Proof.
  intros Hw Hx Hn Hs Hu Hp. destruct (hash_insert_wf ht ht' elem) as [? Hv]; [done..|]. split; [done|].
  unfold insert_effect. rewrite Hv. unfold hash_view at 1. by rewrite kmap_lookup_None.
Qed.
End map_view.

(** ** Writes through pointers

    [Insert] and [Find] hand out pointers to entries; an entry keeps its address
    while buckets move.  A write through such a pointer changes the entry where
    it is; [None] is a write to an entry that is no longer in the table. *)
Section pointers.
Context {B T : Type} `{BucketElems B T} (bmap : (T → T) → B → B).
Implicit Types (ht : HashState B) (g f : T → T).

Definition table_map g (t : Table B) : Table B := MkTable (map (bmap g) (table t)) (used t) (size_mask t).

Definition WriteThrough (same : T → bool) f ht : option (HashState B) :=
  if existsb same (all_elems ht) then
    let g x := if same x then f x else x in
    Some (MkHash (table_map g (table1 ht)) (table_map g (table2 ht)) (rehash_move_bucket_index_ ht))
  else None.

Context {K : Type} (gk : T → K) (HF : K → Z) (bucket_ok : B → Prop) (key_ok : K → Prop) {dr : Drift} `{Countable K}.
Hypothesis bmap_elems : ∀ g b, bucket_elems (bmap g b) = map g (bucket_elems b).
Hypothesis bmap_ok : ∀ g b,
  bucket_ok b → (∀ x, x ∈ bucket_elems b → gk (g x) = gk x) → bucket_ok (bmap g b).

Lemma elems_map g (tbl : list B) : elems (map (bmap g) tbl) = map g (elems tbl).
Proof.
  induction tbl as [|b tbl IH]; [done|].
  change (elems (map (bmap g) (b :: tbl))) with (bucket_elems (bmap g b) ++ elems (map (bmap g) tbl)).
  change (elems (b :: tbl)) with (bucket_elems b ++ elems tbl). by rewrite bmap_elems, map_app, IH.
Qed.

Lemma map_lookup_inv g (tbl : list B) i b : map (bmap g) tbl !! i = Some b → ∃ b0, tbl !! i = Some b0 ∧ b = bmap g b0.
Proof. change (map (bmap g) tbl) with (bmap g <$> tbl). rewrite list_lookup_fmap. apply fmap_Some. Qed.

Lemma table_map_wf g n t :
  (∀ x, x ∈ elems (table t) → gk (g x) = gk x) → table_wf gk HF bucket_ok n t → table_wf gk HF bucket_ok n (table_map g t).
Proof.
  intros Hg ((Hn & Hsz & Hm) & Hn' & Hp & Hb). unfold table_wf. split_ands; [|done| |].
  - unfold sized, table_size, asize in *. cbn [table table_map size_mask]. by rewrite length_map.
  - intros i b x Hi Hx. cbn [table table_map size_mask] in *. apply map_lookup_inv in Hi as (b0 & Hi & ->). rewrite bmap_elems in Hx.
    apply list_elem_of_fmap in Hx as (y & -> & Hy). rewrite Hg; [by eapply Hp|]. apply elems_lookup. eauto.
  - cbn [table table_map]. apply Forall_map. rewrite Forall_forall in *. intros b Hin. apply bmap_ok; [by apply Hb|].
    intros x Hx. apply Hg. unfold elems. apply list_elem_of_bind. eauto.
Qed.

Lemma WriteThrough_spec same f ht k x :
  hash_wf gk HF bucket_ok key_ok ht → (∀ y, y ∈ all_elems ht → same y = bool_decide (gk y = k)) →
  (∀ y, gk y = k → gk (f y) = k) → hash_view gk ht !! k = Some x →
  ∃ ht', WriteThrough same f ht = Some ht' ∧ hash_wf gk HF bucket_ok key_ok ht' ∧ (hash_room ht → hash_room ht')
    ∧ hash_view gk ht' = <[k := f x]> (hash_view gk ht).
Proof.
  intros (Hs & Hk & Hu) Hsame Hf Hx. pose proof Hk as [Hnd _].
  apply (kmap_lookup_inv gk) in Hx as [Hgk Hin].
  unfold WriteThrough. assert (existsb same (all_elems ht) = true) as ->.
  { apply existsb_exists. exists x. rewrite <-list_elem_of_In. split; [done|]. rewrite Hsame by done. by case_bool_decide. }
  set (g y := if same y then f y else y).
  assert (∀ y, y ∈ all_elems ht → gk (g y) = gk y) as Hg.
  { intros y Hy. unfold g. rewrite Hsame by done. case_bool_decide as Hyk; [|done]. by rewrite Hyk, Hf. }
  eexists. split; [done|]. set (ht' := MkHash _ _ _).
  assert (all_elems ht' = map g (all_elems ht)) as Ha by (unfold all_elems, ht'; simpl; by rewrite map_app, !elems_map).
  assert (search_result gk (λ y, [f y]) k (all_elems ht) (all_elems ht') (Some x)) as Hres.
  { split; [done|]. rewrite Ha. apply elem_of_Permutation in Hin as [rest Hp]. exists rest. split; [done|].
    assert (NoDup (map gk (x :: rest))) as Hnd' by (by rewrite <-Hp). cbn [map] in Hnd'. apply NoDup_cons in Hnd' as [Hx _].
    rewrite Hp. cbn [map app]. unfold g at 1. rewrite Hsame, bool_decide_true by (done || rewrite Hp; set_solver).
    apply Permutation_cons; [done|]. apply reflexive_eq.
    transitivity (map id rest); [|by apply map_id]. apply map_ext_Forall, Forall_forall. intros y Hy. unfold g.
    rewrite Hsame by (rewrite Hp; set_solver). case_bool_decide; [|done]. destruct Hx. apply list_elem_of_fmap. exists y.
    split; [congruence|done]. }
  destruct (search_update gk key_ok f k _ _ _ Hf Hk Hres) as (Hk' & Hlen & Hv). split; [|split].
  - split; [|split; [done|]]; [|by rewrite Hlen].
    destruct Hs as (n & Hw & Hph). exists n. split; [apply table_map_wf; [|done]; intros y Hy; apply Hg; unfold all_elems; set_solver|].
    destruct Hph as [[Hi Ht2]|(Hi & Hw2 & Hm)]; [left; unfold ht'; simpl; by rewrite Ht2|right].
    split; [done|]. split; [apply table_map_wf; [|done]; intros y Hy; apply Hg; unfold all_elems; set_solver|].
    intros j b Hj Hb. unfold ht' in *. cbn [table1 table_map table] in Hb. apply map_lookup_inv in Hb as (b0 & Hb & ->). by rewrite bmap_elems, (Hm j b0 Hj Hb).
  - unfold hash_room, ht', table_size, asize. cbn [table1 table2 table_map table]. by rewrite !length_map.
  - done.
Qed.
End pointers.
