(* ===== verification/HashTable.v ===== *)
(** * The hash table with list buckets

    [mmkv/algo/hash_table.h], [internal/hash_table_impl.h],
    [internal/hash_table_iterator.h]: separate chaining in [Slist]s, a lookup
    moves the node it finds to the front, and the table is rehashed one bucket
    per operation.  [None] is a failed [assert] or an access out of bounds. *)

From S2P Require Import Prelude Comparator Slist ReservedArray Dict HashTableBase.

(** [EQUAL_KEY], the functor [EK]. *)
Class EqualKey (K : Type) := EQUAL_KEY : K → K → bool.

(** [EqualKey<K>] compares with [operator==]. *)
#[export] Instance EqualKey_eq {K} `{EqDecision K} : EqualKey K := λ x y, bool_decide (x = y).

#[export] Instance BucketElems_list {T} : BucketElems (list T) T := λ l, l.

Section hash_table.
Context {K T : Type} (HF : K → Z) `{GetKey K T} `{EqualKey K}.
Implicit Types (ht : HashState (list T)) (elem : T) (key : K).

(** The constructor. *)
Definition HashTable_init : HashState (list T) := hash_init [].

(** [Table::Reset()]. *)
Definition Reset (t : Table (list T)) : Table (list T) := table_Shrink t 0.

(** [IncrementalRehash()]: [while (!bucket1.empty())], the front node of the
    bucket goes to the front of its bucket in the second table. *)
Definition IncrementalRehash ht : option (HashState (list T)) :=
  incremental_rehash TO_GK HF (λ b x, Some (EmplaceFront x b)) id (λ b, Some ([], b)) Reset ht.

Definition GetDuplicate (bucket : list T) elem : option T :=
  SearchIf (λ val, EQUAL_KEY (TO_GK elem) (TO_GK val)) bucket.

Definition CheckDuplicate (bucket : list T) elem : bool :=
  match GetDuplicate bucket elem with Some _ => true | None => false end.

(** [InsertWithDuplicate_impl], after the two rehash calls: the new state,
    the result, and [*duplicate]. *)
Definition insert_checked ht elem : option (HashState (list T) * bool * T) :=
  let hash_val := HF (TO_GK elem) in
  let bucket_index1 := bucket_index (table1 ht) hash_val in
  let emplace1 bucket :=
    t ← bucket_set (table1 ht) bucket_index1 (EmplaceFront elem bucket);
    Some (used_incr (set_table1 ht t), true, elem) in
  let bucket_index2 := bucket_index (table2 ht) hash_val in
  let emplace2 bucket :=
    t ← bucket_set (table2 ht) bucket_index2 (EmplaceFront elem bucket);
    Some (used_incr (set_table2 ht t), true, elem) in
  if negb (InRehashing ht) then
    bucket ← bucket_get (table1 ht) bucket_index1;
    match GetDuplicate bucket elem with
    | Some y => Some (ht, false, y)
    | None => emplace1 bucket
    end
  else if bucket_index1 <? rehash_move_bucket_index_ ht then
    bucket ← bucket_get (table2 ht) bucket_index2;
    match GetDuplicate bucket elem with
    | Some y => Some (ht, false, y)
    | None => emplace2 bucket
    end
  else
    bucket ← bucket_get (table1 ht) bucket_index1;
    match GetDuplicate bucket elem with
    | Some y => Some (ht, false, y)
    | None =>
        bucket ← bucket_get (table2 ht) bucket_index2;
        match GetDuplicate bucket elem with
        | Some y => Some (ht, false, y)
        | None => emplace2 bucket
        end
    end.

Definition InsertWithDuplicate ht elem : option (HashState (list T) * bool * T) :=
  ht ← IncrementalRehash (Rehash [] ht);
  insert_checked ht elem.

(** [Insert]: the inserted entry, or null. *)
Definition Insert ht elem : option (HashState (list T) * option T) :=
  '(ht, ok, duplicate) ← InsertWithDuplicate ht elem;
  Some (ht, if ok : bool then Some duplicate else None).

(** The search of one bucket in [FindSlot]: the node is taken out and put at
    the front.  [f] is what is then written through the slot. *)
Definition find_in_bucket (f : T → T) key (bucket : list T) : option (list T * option T) :=
  let '(rest, slot) := ExtractNodeIf (λ value, EQUAL_KEY (TO_GK value) key) bucket in
  Some (match slot with
        | Some x => (EmplaceFront (f x) rest, Some x)
        | None => (rest, None)
        end).

(** [FindSlot(key)]: the slot is the header of a bucket: the number of its
    table and its index; the value there is returned too. *)
Definition FindSlot ht key : option (HashState (list T) * option (Z * Z * T)) :=
  ht ← IncrementalRehash ht;
  '(ht', r) ← search_tables (find_in_bucket id key) (HF key) ht;
  Some (ht', match r with
             | Some (i, x) => Some (i, bucket_index (table_at ht' i) (HF key), x)
             | None => None
             end).

Definition Find ht key : option (HashState (list T) * option T) :=
  '(ht', slot) ← FindSlot ht key;
  Some (ht', match slot with Some (_, _, x) => Some x | None => None end).

(** [Find(key)], and [f] of the value written through the pointer. *)
Definition FindAndWrite ht key (f : T → T) : option (HashState (list T) * option T) :=
  ht ← IncrementalRehash ht;
  '(ht', r) ← search_tables (find_in_bucket f key) (HF key) ht;
  Some (ht', match r with Some (_, x) => Some x | None => None end).

(** [EraseAfterFindSlot(pp_slot)]: [*pp_slot = old->next]. *)
Definition EraseAfterFindSlot ht (slot : Z * Z) : option (HashState (list T)) :=
  let '(i, j) := slot in
  bucket ← bucket_get (table_at ht i) j;
  '(rest, _) ← ExtractFront bucket;
  t ← bucket_set (table_at ht i) j rest;
  Some (set_table_at ht i t).

Definition Extract ht key : option (HashState (list T) * option T) :=
  ht ← IncrementalRehash ht;
  '(ht', r) ← search_tables (λ b, Some (ExtractNodeIf (λ val, EQUAL_KEY (TO_GK val) key) b)) (HF key) ht;
  Some match r with
       | Some (_, x) => (used_decr ht', Some x)
       | None => (ht', None)
       end.

Definition Erase ht key : option (HashState (list T) * Z) :=
  '(ht', node) ← Extract ht key;
  Some (ht', match node with Some _ => 1 | None => 0 end).

(** [for (i = 0; i < 4; ++i) table1()[i].Clear()]. *)
Fixpoint clear_buckets (n : nat) (i : Z) (t : Table (list T)) : option (Table (list T)) :=
  match n with
  | O => Some t
  | S n' =>
      b ← bucket_get t i;
      t' ← bucket_set t i (slist_Clear b);
      clear_buckets n' (i + 1) t'
  end.

Definition Clear ht : option (HashState (list T)) :=
  t1 ← clear_buckets 4 0 (table_Shrink (table1 ht) 4);
  Some (MkHash (set_used t1 0) (if InRehashing ht then table_Shrink (table2 ht) 0 else table2 ht) npos).

(** [Clone(ht)] into a table [self]; [hash_elem] is the hash function applied
    to the element itself ([HASH_FUNC(val)]). *)
Fixpoint clone_buckets (t : Table (list T)) (j : Z) (olsts : list (list T)) : option (Table (list T)) :=
  match olsts with
  | [] => Some t
  | olst :: rest =>
      lst ← bucket_get t j;
      t' ← bucket_set t j (foldl (λ lst val, EmplaceFront val lst) lst olst);
      clone_buckets t' (j + 1) rest
  end.

Definition Clone (hash_elem : T → Z) (self other : HashState (list T)) : option (HashState (list T)) :=
  t ← (if InRehashing other then
         t ← clone_buckets (table_Grow [] (table1 self) (table_size (table2 other))) 0 (table (table2 other));
         push_all hash_elem id (λ b x, Some (EmplaceFront x b)) id t
           (mjoin (drop (Z.to_nat (rehash_move_bucket_index_ other)) (table (table1 other))))
       else
         clone_buckets (table_Grow [] (table1 self) (table_size (table1 other))) 0 (table (table1 other)));
  Some (set_table1 self (set_used t (used (table1 other)))).

(** ** Iterators *)

(** [table_index_], [bucket_index_] and the nodes from [slot_] on. *)
Record HashTableIterator := MkIter { table_index_ : Z; bucket_index_ : Z; slot_ : list T }.

(** [for (j = bucket_index; j < size; ++j)], up to the first bucket that is
    not empty; [buckets] are those from [j] on. *)
Fixpoint first_bucket (buckets : list (list T)) (j : Z) : option (Z * list T) :=
  match buckets with
  | [] => None
  | b :: rest => if slist_empty b then first_bucket rest (j + 1) else Some (j, b)
  end.

(** [begin()]: the constructor's loop over the two tables. *)
Definition begin ht : HashTableIterator :=
  match first_bucket (table (table1 ht)) 0 with
  | Some (j, b) => MkIter 0 j b
  | None =>
      match first_bucket (table (table2 ht)) 0 with
      | Some (j, b) => MkIter 1 j b
      | None => MkIter 0 0 []
      end
  end.

(** The loop of [Increment()] over the tables from [table_index_] on. *)
Fixpoint increment_loop (n : nat) (i : Z) ht (it : HashTableIterator) : HashTableIterator :=
  match n with
  | O => it
  | S n' =>
      match first_bucket (drop (Z.to_nat (bucket_index_ it ⊞ 1)) (table (table_at ht (table_index_ it))))
              (bucket_index_ it ⊞ 1) with
      | Some (j, b) => MkIter i j b
      | None => increment_loop n' (i + 1) ht (MkIter 1 npos [])
      end
  end.

Definition Increment ht (it : HashTableIterator) : option HashTableIterator :=
  match slot_ it with
  | [] => None
  | _ :: ((_ :: _) as next) => Some (MkIter (table_index_ it) (bucket_index_ it) next)
  | [_] => Some (increment_loop (Z.to_nat (2 - table_index_ it)) (table_index_ it) ht it)
  end.

(** A range-based [for] over the table: the values visited, [fuel] bounding
    the number of steps. *)
Fixpoint iterate (fuel : nat) ht (it : HashTableIterator) : option (list T) :=
  match slot_ it with
  | [] => Some []
  | x :: _ =>
      match fuel with
      | O => None
      | S fuel' => it' ← Increment ht it; rest ← iterate fuel' ht it'; Some (x :: rest)
      end
  end.
End hash_table.

(** ** Facts *)

(** [EQUAL_KEY] decides equality. *)
Class EqualKeyOk (K : Type) `{EqualKey K} := equal_key_spec x y : EQUAL_KEY x y = true ↔ x = y.

#[export] Instance EqualKeyOk_eq {K} `{EqDecision K} : EqualKeyOk K.
Proof. intros x y. apply bool_decide_eq_true. Qed.

(** Any list is a good bucket, any key a good key. *)
Definition any {A} (_ : A) : Prop := True.
Arguments any {A} _ /.

Section facts.
Context {K T : Type} (HF : K → Z) `{GetKey K T} `{Countable K} `{!EqualKey K} `{!EqualKeyOk K} {dr : Drift}.
Implicit Types (ht : HashState (list T)) (x elem : T) (key : K).

Abbreviation gk := (TO_GK (K := K) (V := T)).
Abbreviation wf := (hash_wf gk HF any any).
Abbreviation shape := (hash_shape gk HF any).
Abbreviation view := (hash_view gk).

Lemma equal_key_true k k' : EQUAL_KEY k k' = true → k = k'.
Proof. apply equal_key_spec. Qed.

Lemma equal_key_false k k' : EQUAL_KEY k k' = false → k ≠ k'.
Proof. intros Hf Heq. apply equal_key_spec in Heq. congruence. Qed.

Lemma Reset_nil (t : Table (list T)) : table (Reset t) = [].
Proof.
  unfold Reset, table_Shrink, Shrink. cbn [table]. case_match eqn:Hz; [|done].
  apply Z.leb_le in Hz. destruct (table t); [done|]. unfold asize in Hz. simpl in Hz. lia.
Qed.

Lemma IncrementalRehash_wf ht :
  wf ht → ∃ ht', IncrementalRehash HF ht = Some ht' ∧ wf ht' ∧ all_elems ht' ≡ₚ all_elems ht
    ∧ (hash_room ht → hash_room ht').
Proof.
  intros Hw.
  destruct (incremental_rehash_wf gk HF any any (λ b x, Some (EmplaceFront x b)) id any
    (λ b, Some ([], b)) Reset) with (ht := ht) as (ht' & Hi & ? & ?); [eauto| |apply Reset_nil|done|].
  { intros b _. exists [], b. split_ands; [done..|by apply Forall_true|]. by rewrite map_id. }
  exists ht'. split_ands; [done..|]. eapply incremental_rehash_room; [apply Reset_nil|done].
Qed.

Lemma rehash_both_wf ht :
  wf ht → Z.of_nat (size (view ht)) + drift < max_elems → hash_room ht →
  ∃ ht', IncrementalRehash HF (Rehash [] ht) = Some ht' ∧ wf ht' ∧ all_elems ht' ≡ₚ all_elems ht ∧ hash_room ht'.
Proof.
  intros Hw Hsz Hroom.
  pose proof (Rehash_room gk HF any any [] ht Hw Hsz Hroom) as Hroom'.
  destruct (Rehash_wf gk HF any any [] eq_refl I ht Hw) as [Hw' He]; [destruct Hroom; lia|].
  destruct (IncrementalRehash_wf _ Hw') as (ht' & ? & ? & Hp & Hr). exists ht'. rewrite Hp, He. auto.
Qed.

Lemma GetDuplicate_spec b elem :
  match GetDuplicate b elem with
  | Some y => y ∈ b ∧ gk y = gk elem
  | None => gk elem ∉ map gk b
  end.
Proof.
  unfold GetDuplicate. pose proof (SearchIf_spec (λ val, EQUAL_KEY (gk elem) (gk val)) b) as Hs.
  case_match; [destruct Hs as [? <-%equal_key_true]; done|].
  intros (y & Hy & Hyb)%list_elem_of_fmap. rewrite Forall_forall in Hs.
  apply (Hs y) in Hyb. by apply equal_key_false in Hyb.
Qed.

(** The searches of one bucket. *)
Lemma find_in_bucket_spec f key b :
  ∃ b' r, find_in_bucket f key b = Some (b', r) ∧ search_result gk (λ x, [f x]) key b b' r.
Proof.
  unfold find_in_bucket. destruct (ExtractNodeIf _ b) as [rest slot] eqn:E.
  apply ExtractNodeIf_spec in E. destruct slot as [x|].
  - destruct E as (Hx%equal_key_true & l1 & l2 & -> & -> & _). eexists _, _. split; [done|].
    split; [done|]. exists (l1 ++ l2). by rewrite Permutation_middle.
  - destruct E as [-> Hf]. eexists _, None. split; [done|]. split; [|done].
    intros (y & -> & Hy)%list_elem_of_fmap. rewrite Forall_forall in Hf. apply Hf in Hy.
    by apply equal_key_false in Hy.
Qed.

Lemma extract_in_bucket_spec key b :
  ∃ b' r, ExtractNodeIf (λ val, EQUAL_KEY (gk val) key) b = (b', r) ∧ search_result gk (λ _, []) key b b' r.
Proof.
  destruct (ExtractNodeIf _ b) as [b' r] eqn:E. exists b', r. split; [done|].
  apply ExtractNodeIf_spec in E. destruct r as [x|].
  - destruct E as (Hx%equal_key_true & l1 & l2 & -> & -> & _). split; [done|]. exists (l1 ++ l2).
    by rewrite Permutation_middle.
  - destruct E as [-> Hf]. split; [|done].
    intros (y & -> & Hy)%list_elem_of_fmap. rewrite Forall_forall in Hf. apply Hf in Hy.
    by apply equal_key_false in Hy.
Qed.

(** ** The operations, on the map *)

(** The lookups: [FindSlot], and [Find] with a write through its result. *)
Lemma search_write_spec f ht key :
  wf ht → (∀ x, gk x = key → gk (f x) = key) →
  ∃ ht' r, search_tables (find_in_bucket f key) (HF key) ht = Some (ht', r)
    ∧ snd <$> r = view ht !! key ∧ wf ht' ∧ (hash_room ht → hash_room ht')
    ∧ view ht' = match view ht !! key with Some x => <[key := f x]> (view ht) | None => view ht end.
Proof.
  intros (Hs & Hk & Hu) Hf.
  destruct (search_tables_wf gk HF any any (find_in_bucket f key) id (λ x, [f x]) key) with (ht := ht)
    as (ht' & r & Hst & Hs' & Hu' & Hres); [| |done|done|].
  { intros x y Hx ->%list_elem_of_singleton. auto. }
  { intros b _ _. destruct (find_in_bucket_spec f key b) as (b' & r & -> & ?).
    exists b', r. split_ands; [done..|]. by destruct r. }
  rewrite (option_fmap_ext _ snd) in Hres by done.
  destruct (search_update gk any f key _ _ _ Hf Hk Hres) as (Hk' & Hlen & Hv).
  exists ht', r. pose proof (search_view gk _ _ _ _ _ (proj1 Hk) Hres) as Hfound.
  unfold hash_view. rewrite Hfound. split_ands; [done|done| |by eapply search_tables_room|done].
  split; [done|]. split; [done|]. by rewrite Hu', Hlen.
Qed.

Lemma FindAndWrite_spec ht key f :
  wf ht → (∀ x, gk x = key → gk (f x) = key) →
  ∃ ht', FindAndWrite HF ht key f = Some (ht', view ht !! key) ∧ wf ht' ∧ (hash_room ht → hash_room ht')
    ∧ view ht' = match view ht !! key with Some x => <[key := f x]> (view ht) | None => view ht end.
Proof.
  intros Hw Hf. unfold FindAndWrite.
  destruct (IncrementalRehash_wf ht Hw) as (ht1 & -> & Hw1 & Hp & Hr1). simpl.
  destruct (search_write_spec f ht1 key Hw1 Hf) as (ht2 & r & -> & Hr & Hw2 & Hr2 & Hv). simpl.
  rewrite (hash_view_perm gk HF any any ht ht1) in * by done.
  exists ht2. split_ands; [|done|by auto|done]. rewrite <-Hr. by destruct r as [[]|].
Qed.

Lemma FindSlot_spec ht key :
  wf ht →
  ∃ ht' slot, FindSlot HF ht key = Some (ht', slot) ∧ wf ht' ∧ (hash_room ht → hash_room ht')
    ∧ view ht' = view ht ∧ snd <$> slot = view ht !! key.
Proof.
  intros Hw. unfold FindSlot.
  destruct (IncrementalRehash_wf ht Hw) as (ht1 & -> & Hw1 & Hp & Hr1). simpl.
  destruct (search_write_spec id ht1 key Hw1) as (ht2 & r & -> & Hr & Hw2 & Hr2 & Hv); [done|]. simpl.
  rewrite (hash_view_perm gk HF any any ht ht1) in * by done.
  eexists ht2, _. split_ands; [done|done|by auto| |].
  - rewrite Hv. case_match eqn:Hl; [|done]. by rewrite insert_id.
  - rewrite <-Hr. by destruct r as [[]|].
Qed.

Lemma Find_spec ht key :
  wf ht →
  ∃ ht', Find HF ht key = Some (ht', view ht !! key) ∧ wf ht' ∧ (hash_room ht → hash_room ht')
    ∧ view ht' = view ht.
Proof.
  intros Hw. unfold Find. destruct (FindSlot_spec ht key Hw) as (ht' & slot & -> & ? & ? & ? & Hs). simpl.
  exists ht'. rewrite <-Hs. split_ands; [|done..]. by destruct slot as [[[]]|].
Qed.

Lemma Extract_spec ht key :
  wf ht →
  ∃ ht', Extract HF ht key = Some (ht', view ht !! key) ∧ wf ht' ∧ (hash_room ht → hash_room ht')
    ∧ view ht' = delete key (view ht).
Proof.
  intros Hw. unfold Extract.
  destruct (IncrementalRehash_wf ht Hw) as (ht1 & -> & Hw1 & Hp & Hr1). simpl.
  rewrite <-(hash_view_perm gk HF any any ht ht1) by done.
  destruct Hw1 as (Hs & Hk & Hu).
  destruct (search_tables_wf gk HF any any
    (λ b, Some (ExtractNodeIf (λ val, EQUAL_KEY (gk val) key) b)) id (λ _, []) key) with (ht := ht1)
    as (ht' & r & Hst & Hs' & Hu' & Hres); [set_solver| |done|done|].
  { intros b _ _. destruct (extract_in_bucket_spec key b) as (b' & r & -> & ?).
    exists b', r. split_ands; [done..|]. by destruct r. }
  rewrite (option_fmap_ext _ snd) in Hres by done.
  destruct (search_extract gk any key _ _ _ Hk Hres) as (Hk' & Hv & Hlen).
  pose proof (search_view gk _ _ _ _ _ (proj1 Hk) Hres) as Hfound.
  pose proof (search_tables_room _ _ _ _ _ Hst) as Hroom.
  rewrite Hst. simpl. unfold hash_view. rewrite Hfound. destruct r as [[i x]|]; simpl in *.
  - exists (used_decr ht'). change (all_elems (used_decr ht')) with (all_elems ht').
    split_ands; [done| |by auto|done]. split; [by apply (hash_shape_used gk HF)|]. split; [done|].
    simpl. rewrite Hu', Hu, u64_pred_mod. f_equal. change (all_elems (used_decr ht')) with (all_elems ht'). lia.
  - exists ht'. split_ands; [done| |by auto|done]. split; [done|]. split; [done|]. rewrite Hu', Hu. f_equal. lia.
Qed.

(** Emplacing at the front of the bucket of a key. *)
Lemma fits_emplace t elem b : fits gk HF any t (HF (gk elem)) b → fits gk HF any t (HF (gk elem)) (EmplaceFront elem b).
Proof.
  intros Hf. apply (fits_sub gk HF any t _ b); [done..|].
  intros x [->|?]%elem_of_cons; [by right|by left].
Qed.

Lemma insert_checked_spec ht elem :
  wf ht →
  ∃ ht' ok dup, insert_checked HF ht elem = Some (ht', ok, dup) ∧ wf ht' ∧ insert_effect gk ht elem ht' ok dup.
Proof.
  intros Hw. pose proof Hw as (Hs & Hk & Hu). unfold insert_checked.
  destruct (bucket1_fits gk HF any ht (HF (gk elem)) Hs) as (b1 & Hg1 & Hf1 & Hmv).
  destruct (update_bucket1 gk HF any ht _ b1 b1 Hs Hg1 Hf1 Hmv) as (_ & _ & _ & _ & rest1 & Hr1 & _).
  pose proof (GetDuplicate_spec b1 elem) as Hd1.
  destruct (InRehashing ht) eqn:Hin; cbn [negb].
  2: { rewrite Hg1. cbn [mbind option_bind]. destruct (GetDuplicate b1 elem) as [y|].
       { destruct Hd1. eexists _, _, _. split; [done|]. split; [done|]. eapply (insert_effect_dup gk HF any any); [done|rewrite Hr1; set_solver|done|done]. }
       destruct (update_bucket1 gk HF any ht _ b1 (EmplaceFront elem b1) Hs Hg1) as (t & -> & Hs' & Hu' & rest & Hr & Hr').
       { by apply fits_emplace. } { by rewrite Hin. }
       eexists _, _, _. split; [done|]. apply (insert_effect_new gk HF any any); [done|done| |done|done|by rewrite Hr', Hr].
       eapply (not_in_buckets gk HF any); [done..|]. by rewrite Hin. }
  destruct (bucket2_fits gk HF any ht (HF (gk elem)) Hs Hin) as (b2 & Hg2 & Hf2).
  destruct (update_bucket2 gk HF any ht _ b2 b2 Hs Hin Hg2 Hf2) as (_ & _ & _ & rest2 & Hr2 & _).
  pose proof (GetDuplicate_spec b2 elem) as Hd2.
  destruct (update_bucket2 gk HF any ht _ b2 (EmplaceFront elem b2) Hs Hin Hg2) as (t & Ht & Hs' & rest & Hr & Hr').
  { by apply fits_emplace. }
  assert (gk elem ∉ map gk b1 → gk elem ∉ map gk b2 →
    wf (used_incr (set_table2 ht t)) ∧ insert_effect gk ht elem (used_incr (set_table2 ht t)) true elem) as Hnew.
  { intros Hn1 Hn2. apply (insert_effect_new gk HF any any); [done|done| |done|done|by rewrite Hr', Hr].
    eapply (not_in_buckets gk HF any); [done..|]. eauto. }
  destruct (Z.ltb_spec (bucket_index (table1 ht) (HF (gk elem))) (rehash_move_bucket_index_ ht)).
  - rewrite Hg2. cbn [mbind option_bind]. destruct (GetDuplicate b2 elem) as [y|].
    { destruct Hd2. eexists _, _, _. split; [done|]. split; [done|]. eapply (insert_effect_dup gk HF any any); [done|rewrite Hr2; set_solver|done|done]. }
    rewrite Ht. eexists _, _, _. split; [done|]. apply Hnew; [|done].
    change b1 with (bucket_elems b1). rewrite (Hmv eq_refl) by done. set_solver.
  - rewrite Hg1. cbn [mbind option_bind]. destruct (GetDuplicate b1 elem) as [y|].
    { destruct Hd1. eexists _, _, _. split; [done|]. split; [done|]. eapply (insert_effect_dup gk HF any any); [done|rewrite Hr1; set_solver|done|done]. }
    rewrite Hg2. cbn [mbind option_bind]. destruct (GetDuplicate b2 elem) as [y|].
    { destruct Hd2. eexists _, _, _. split; [done|]. split; [done|]. eapply (insert_effect_dup gk HF any any); [done|rewrite Hr2; set_solver|done|done]. }
    rewrite Ht. eexists _, _, _. split; [done|]. by apply Hnew.
Qed.

Lemma insert_checked_room ht elem ht' ok dup :
  insert_checked HF ht elem = Some (ht', ok, dup) → hash_room ht → hash_room ht'.
Proof.
  intros Hi [Hr1 Hr2]. unfold insert_checked in Hi.
  repeat (case_match; simplify_option_eq); try done; repeat case_match; simplify_option_eq; try done;
    match goal with Hb : bucket_set _ _ _ = Some _ |- _ => apply bucket_set_size in Hb end;
    split; simpl; unfold table_size, set_used in *; simpl in *; congruence || done || by rewrite Hb.
Qed.

Lemma InsertWithDuplicate_spec ht elem :
  wf ht → Z.of_nat (size (view ht)) + drift < max_elems → hash_room ht →
  ∃ ht' ok dup, InsertWithDuplicate HF ht elem = Some (ht', ok, dup) ∧ wf ht' ∧ hash_room ht'
    ∧ insert_effect gk ht elem ht' ok dup.
Proof.
  intros Hw Hsz Hr. unfold InsertWithDuplicate.
  destruct (rehash_both_wf ht Hw Hsz Hr) as (ht1 & -> & Hw1 & Hp & Hr1). cbn [mbind option_bind].
  destruct (insert_checked_spec ht1 elem Hw1) as (ht' & ok & dup & Hi & ? & He). eexists _, _, _.
  split_ands; [done..|by eapply insert_checked_room|].
  unfold insert_effect in *. by rewrite (hash_view_perm gk HF any any ht ht1) in He.
Qed.

(** ** Clearing *)

Lemma table_Shrink_0 (t : Table (list T)) : table (table_Shrink t 0) = [].
Proof. apply Reset_nil. Qed.

Lemma Clear_spec ht : wf ht → ∃ ht', Clear ht = Some ht' ∧ hash_wf gk HF any any (dr := no_drift) ht' ∧ hash_room ht' ∧ view ht' = ∅.
Proof.
  intros ((n & Hw1 & Hph) & _ & _). unfold Clear.
  assert (4 ≤ table_size (table1 ht)) as H4.
  { destruct Hw1 as ((Hn & -> & _) & _). pose proof (Z.pow_le_mono_r 2 2 n). lia. }
  assert (∃ a b c d, table (table_Shrink (table1 ht) 4) = [a; b; c; d]) as (a & b & c & d & Ht).
  { unfold table_Shrink, Shrink. cbn [table]. unfold table_size, asize in *.
    destruct (table (table1 ht)) as [|a [|b [|c [|d rest]]]]; cbn [length] in H4; try lia.
    exists a, b, c, d. case_match eqn:Hz; [|done]. apply Z.leb_le in Hz. cbn [length] in Hz.
    destruct rest; [done|cbn [length] in Hz; lia]. }
  assert (size_mask (table_Shrink (table1 ht) 4) = 3) as Hm.
  { unfold table_Shrink in *. cbn [size_mask table] in *. rewrite Ht. done. }
  destruct (table_Shrink (table1 ht) 4) as [tbl u m]. cbn [table size_mask] in Ht, Hm. subst.
  assert (clear_buckets 4 0 (MkTable [a; b; c; d] u 3) = Some (MkTable [[]; []; []; []] u 3)) as ->.
  { transitivity (Some (MkTable [slist_Clear a; slist_Clear b; slist_Clear c; slist_Clear d] u 3)); [reflexivity|].
    by rewrite !slist_Clear_nil. }
  cbn [mbind option_bind].
  assert (table (if InRehashing ht then table_Shrink (table2 ht) 0 else table2 ht) = []) as H2.
  { destruct (phase_cases _ _ _ _ _ Hw1 Hph) as [(-> & _ & ?)|(-> & _)]; [done|apply table_Shrink_0]. }
  eexists. split; [done|].
  set (ht' := MkHash _ _ _). assert (all_elems ht' = []) as He by (unfold all_elems, ht'; simpl; by rewrite H2).
  split; [|split].
  - split; [|rewrite He; split; [split; constructor|done]]. exists 2. split; [|by left].
    split; [done|]. split; [done|]. split; [|by apply Forall_true].
    intros i bk x. do 4 (destruct i as [|i]; [simpl; intros [= <-]; set_solver|]). done.
  - split; [done|]. unfold table_size, ht'. cbn [table2]. by rewrite H2.
  - unfold hash_view. by rewrite He.
Qed.

(** ** Iteration *)

Abbreviation concat_of := (elems (B := list T) (T := T)).

Lemma elems_cons (b : list T) tbl : concat_of (b :: tbl) = b ++ concat_of tbl.
Proof. done. Qed.

Lemma first_bucket_spec buckets j :
  match first_bucket buckets j with
  | Some (j', b) => ∃ pre post, buckets = pre ++ b :: post ∧ concat_of pre = [] ∧ b ≠ []
      ∧ j' = j + Z.of_nat (length pre)
  | None => concat_of buckets = []
  end.
Proof.
  revert j. induction buckets as [|b buckets IH]; intros j; cbn [first_bucket]; [done|].
  destruct b as [|x b]; cbn [slist_empty].
  - specialize (IH (j + 1)). destruct (first_bucket buckets (j + 1)) as [[j' b]|]; [|done].
    destruct IH as (pre & post & -> & ? & ? & ->). exists ([] :: pre), post. split_ands; [done..|]. cbn [length]. lia.
  - exists [], buckets. split_ands; [done..|]. simpl. lia.
Qed.

(** What an iterator has still to visit. *)
Definition remaining ht (it : HashTableIterator (T := T)) : list T :=
  slot_ it ++
  match slot_ it with
  | [] => []
  | _ =>
      concat_of (drop (Z.to_nat (bucket_index_ it + 1)) (table (table_at ht (table_index_ it))))
      ++ (if table_index_ it =? 0 then concat_of (table (table2 ht)) else [])
  end.

Definition iter_ok ht (it : HashTableIterator (T := T)) : Prop :=
  (table_index_ it = 0 ∨ table_index_ it = 1)
  ∧ (slot_ it ≠ [] → 0 ≤ bucket_index_ it < table_size (table_at ht (table_index_ it))).

(** Resuming after the bucket [j]. *)
Lemma first_bucket_remaining ht i j :
  sizes_ok ht → i = 0 ∨ i = 1 → -1 ≤ j < npos →
  match first_bucket (drop (Z.to_nat (j + 1)) (table (table_at ht i))) (j + 1) with
  | Some (j', b) => b ≠ [] ∧ iter_ok ht (MkIter i j' b)
      ∧ remaining ht (MkIter i j' b) =
          concat_of (drop (Z.to_nat (j + 1)) (table (table_at ht i)))
          ++ (if i =? 0 then concat_of (table (table2 ht)) else [])
  | None => concat_of (drop (Z.to_nat (j + 1)) (table (table_at ht i))) = []
  end.
Proof.
  intros Hsz Hi Hj. pose proof (first_bucket_spec (drop (Z.to_nat (j + 1)) (table (table_at ht i))) (j + 1)) as Hf.
  destruct (first_bucket _ _) as [[j' b]|]; [|done].
  destruct Hf as (pre & post & Hd & Hpre & Hb & ->). split; [done|].
  assert (Z.to_nat (j + 1) + length pre < length (table (table_at ht i)))%nat as Hlen.
  { pose proof (f_equal length Hd) as Hl. rewrite length_drop, length_app in Hl. cbn [length] in Hl. lia. }
  pose proof (table_at_size ht i Hsz) as Hs. unfold table_size, asize in Hs.
  split.
  - unfold iter_ok. cbn [table_index_ bucket_index_ slot_]. unfold table_size, asize. split; [done|lia].
  - unfold remaining. cbn [table_index_ bucket_index_ slot_]. destruct b as [|x b]; [done|].
    replace (Z.to_nat (j + 1 + Z.of_nat (length pre) + 1)) with (Z.to_nat (j + 1) + (length pre + 1))%nat by lia.
    rewrite <-drop_drop, Hd, elems_app, Hpre, elems_cons, drop_app_add.
    cbn [drop app]. by rewrite <-app_assoc.
Qed.

Lemma table2_remaining ht :
  sizes_ok ht →
  match first_bucket (table (table2 ht)) 0 with
  | Some (j, b) => b ≠ [] ∧ iter_ok ht (MkIter 1 j b) ∧ remaining ht (MkIter 1 j b) = concat_of (table (table2 ht))
  | None => concat_of (table (table2 ht)) = []
  end.
Proof.
  intros Hs. pose proof (first_bucket_remaining ht 1 (-1) Hs ltac:(lia) ltac:(unfold npos; lia)) as Hf.
  change (Z.to_nat (-1 + 1)) with 0%nat in Hf. change (-1 + 1) with 0 in Hf.
  change (table_at ht 1) with (table2 ht) in Hf. rewrite drop_0, app_nil_r in Hf. done.
Qed.

Lemma Increment_spec ht it x next :
  sizes_ok ht → iter_ok ht it → slot_ it = x :: next →
  ∃ it', Increment ht it = Some it' ∧ remaining ht it = x :: remaining ht it' ∧ iter_ok ht it'.
Proof.
  intros Hs (Hti & Hlt) Hsl. rewrite Hsl in Hlt. specialize (Hlt ltac:(done)).
  pose proof (table_at_size ht (table_index_ it) Hs) as Hsz. unfold Increment. rewrite Hsl.
  destruct next as [|y next].
  2: { eexists; split; [done|]. split; [unfold remaining; by rewrite Hsl|by split]. }
  eexists; split; [done|].
  assert (bucket_index_ it ⊞ 1 = bucket_index_ it + 1) as Hb1 by (apply u64_small; unfold npos in *; lia).
  pose proof (first_bucket_remaining ht (table_index_ it) (bucket_index_ it) Hs Hti ltac:(lia)) as Hf.
  assert (remaining ht it = x ::
    concat_of (drop (Z.to_nat (bucket_index_ it + 1)) (table (table_at ht (table_index_ it))))
      ++ (if table_index_ it =? 0 then concat_of (table (table2 ht)) else [])) as Hrem
    by (unfold remaining; by rewrite Hsl).
  destruct Hti as [Hti|Hti]; rewrite Hti in *; cbn [Z.sub Z.to_nat Pos.to_nat increment_loop];
    change (Z.to_nat (2 - 0)) with 2%nat; change (Z.to_nat (2 - 1)) with 1%nat; cbn [increment_loop];
    rewrite Hti, Hb1, Hrem; cbn [Z.eqb] in *.
  - destruct (first_bucket _ _) as [[j b]|].
    { destruct Hf as (_ & ? & ->). done. }
    cbn [bucket_index_ table_index_]. change (npos ⊞ 1) with 0. change (Z.to_nat 0) with 0%nat.
    change (table_at ht 1) with (table2 ht). rewrite drop_0, Hf. change (0 + 1) with 1.
    pose proof (table2_remaining ht Hs) as H2. destruct (first_bucket (table (table2 ht)) 0) as [[j b]|].
    { destruct H2 as (_ & ? & ->). done. }
    rewrite H2. split; [done|]. split; [by right|done].
  - destruct (first_bucket _ _) as [[j b]|].
    { destruct Hf as (_ & ? & ->). done. }
    rewrite Hf. split; [done|]. split; [by right|done].
Qed.

Lemma iterate_spec ht it fuel :
  sizes_ok ht → iter_ok ht it → (length (remaining ht it) ≤ fuel)%nat →
  iterate fuel ht it = Some (remaining ht it).
Proof.
  intros Hs. revert it. induction fuel as [|fuel IH]; intros it Hok Hlen; cbn [iterate].
  - destruct (slot_ it) as [|x next] eqn:Hsl; unfold remaining in *; rewrite Hsl in *; [done|]. simpl in Hlen. lia.
  - destruct (slot_ it) as [|x next] eqn:Hsl; [unfold remaining; by rewrite Hsl|].
    destruct (Increment_spec ht it x next Hs Hok Hsl) as (it' & -> & Hr & Hok'). rewrite Hr in *. simpl in *.
    by rewrite IH by (done || lia).
Qed.

Lemma begin_spec ht : sizes_ok ht → iter_ok ht (begin ht) ∧ remaining ht (begin ht) = all_elems ht.
Proof.
  intros Hs. unfold begin, all_elems.
  pose proof (first_bucket_remaining ht 0 (-1) Hs ltac:(lia) ltac:(unfold npos; lia)) as Hf.
  change (Z.to_nat (-1 + 1)) with 0%nat in Hf. change (-1 + 1) with 0 in Hf.
  change (table_at ht 0) with (table1 ht) in Hf. rewrite drop_0 in Hf.
  destruct (first_bucket (table (table1 ht)) 0) as [[j b]|]; [by destruct Hf as (_ & ? & ?)|].
  pose proof (table2_remaining ht Hs) as H2. rewrite Hf.
  destruct (first_bucket (table (table2 ht)) 0) as [[j b]|]; [by destruct H2 as (_ & ? & ?)|].
  rewrite H2. split; [|done]. split; [by left|done].
Qed.

(** ** Cloning *)

Lemma emplace_all lst (olst : list T) : foldl (λ lst val, EmplaceFront val lst) lst olst = reverse olst ++ lst.
Proof.
  revert lst. induction olst as [|x olst IH]; intros lst; [done|]. simpl. rewrite IH, reverse_cons. by app_norm.
Qed.

Lemma clone_buckets_spec olsts pre (t : Table (list T)) :
  table t = pre ++ replicate (length olsts) [] →
  ∃ t', clone_buckets t (Z.of_nat (length pre)) olsts = Some t'
    ∧ table t' = pre ++ map reverse olsts ∧ used t' = used t ∧ size_mask t' = size_mask t.
Proof.
  revert pre t. induction olsts as [|o olsts IH]; intros pre t Ht; cbn [clone_buckets map]; [by eauto|].
  cbn [length replicate] in Ht. unfold bucket_get, bucket_set, aget, aset, asize. rewrite Ht.
  destruct (Z.leb_spec 0 (Z.of_nat (length pre))); [|lia].
  rewrite Nat2Z.id, lookup_app_r, Nat.sub_diag by lia. cbn [lookup list_lookup mbind option_bind andb].
  rewrite length_app. destruct (Z.ltb_spec (Z.of_nat (length pre))
    (Z.of_nat (length pre + length (@nil T :: replicate (length olsts) [])))); [|simpl in *; lia].
  cbn [mbind option_bind]. rewrite insert_app_r_alt, Nat.sub_diag by lia. cbn [insert list_insert].
  rewrite emplace_all, app_nil_r.
  destruct (IH (pre ++ [reverse o]) (MkTable (pre ++ reverse o :: replicate (length olsts) []) (used t) (size_mask t)))
    as (t' & Ht' & Htab & Hu & Hm); [cbn [table]; by app_norm|].
  rewrite length_app in Ht'. cbn [length] in Ht'. replace (Z.of_nat (length pre) + 1) with (Z.of_nat (length pre + 1)) by lia.
  rewrite Ht'. exists t'. rewrite Htab. split_ands; [done|by app_norm|done|done].
Qed.

Lemma elems_map_reverse tbl : concat_of (map reverse tbl) ≡ₚ concat_of tbl.
Proof. induction tbl as [|b tbl IH]; [done|]. cbn [map]. by rewrite !elems_cons, IH, reverse_Permutation. Qed.

Lemma map_reverse_wf n t t' :
  table_wf gk HF any n t → table t' = map reverse (table t) → size_mask t' = 2 ^ n - 1 → table_wf gk HF any n t'.
Proof.
  intros ((Hn & Hsz & Hm) & H63 & Hp & _) Ht Hm'. unfold table_wf, sized.
  split_ands; [done| |done|done| |by apply Forall_true].
  - unfold table_size, asize in *. by rewrite Ht, length_map.
  - rewrite Ht, Hm', <-Hm. intros i b x Hb Hx. rewrite list_lookup_fmap in Hb.
    destruct (table t !! i) as [b0|] eqn:Hb0; [|done]. simplify_eq/=. eapply Hp; [done|].
    change (x ∈ reverse b0) in Hx. by rewrite elem_of_reverse in Hx.
Qed.

(** Cloning a table into a new one. *)
Lemma clone_fresh n t :
  table_wf gk HF any n t →
  ∃ t', clone_buckets (table_Grow (@nil T) (table1 (HashTable_init (T := T))) (table_size t)) 0 (table t) = Some t'
    ∧ table_wf gk HF any n t' ∧ elems (table t') ≡ₚ elems (table t).
Proof.
  intros Hw. pose proof Hw as ((Hn & Hsz & Hm) & H63 & _ & _).
  pose proof (pow2_lt_npos n ltac:(lia)) as Hpow.
  assert (table (table_Grow (@nil T) (table1 (HashTable_init (T := T))) (table_size t)) = replicate (length (table t)) (@nil T)
    ∧ size_mask (table_Grow (@nil T) (table1 (HashTable_init (T := T))) (table_size t)) = 2 ^ n - 1) as [Ht Hmask].
  { assert (Grow (@nil T) (replicate 4 []) (table_size t) = replicate (length (table t)) (@nil T)) as Hg.
    { unfold Grow, Reallocate. change (asize (replicate 4 (@nil T))) with 4. unfold table_size, asize in *.
      case_match eqn:Hz; [apply Z.leb_le in Hz|apply Z.leb_gt in Hz].
      - replace (length (table t)) with 4%nat by lia. done.
      - rewrite length_replicate, <-replicate_add. f_equal. lia. }
    unfold table_Grow. change (table (table1 (HashTable_init (T := T)))) with (replicate 4 (@nil T)). rewrite Hg.
    split; [done|]. cbn [size_mask]. unfold asize. rewrite length_replicate.
    change (Z.of_nat (length (table t))) with (table_size t). rewrite Hsz. apply u64_small. unfold npos in *. lia. }
  destruct (clone_buckets_spec (table t) [] _ Ht) as (t' & Hc & Htab & Hu & Hm').
  exists t'. split_ands; [done|eapply map_reverse_wf; [done|done|congruence]|].
  rewrite Htab. apply elems_map_reverse.
Qed.

Lemma push_all_hash (hash_elem : T → Z) t nodes :
  (∀ x, hash_elem x = HF (gk x)) →
  push_all hash_elem id (λ b x, Some (EmplaceFront x b)) id t nodes
  = push_all gk HF (λ b x, Some (EmplaceFront x b)) id t nodes.
Proof.
  intros Hh. revert t. induction nodes as [|x nodes IH]; intros t; [done|]. cbn [push_all].
  replace (push_at hash_elem id (λ b x, Some (EmplaceFront x b)) id t x)
    with (push_at gk HF (λ b x, Some (EmplaceFront x b)) id t x) by (unfold push_at, id; by rewrite Hh).
  destruct (push_at _ _ _ _ t x) as [t'|]; [apply IH|done].
Qed.

(** The buckets from the index of the rehash on hold all that is left. *)
Lemma moved_drop i t : moved_upto i t → mjoin (drop (Z.to_nat i) (table t)) = concat_of (table t).
Proof.
  intros Hm. rewrite <-(take_drop (Z.to_nat i) (table t)) at 2. rewrite elems_app.
  assert (concat_of (take (Z.to_nat i) (table t)) = []) as ->.
  { destruct (concat_of (take _ _)) as [|x l] eqn:He; [done|].
    assert (x ∈ concat_of (take (Z.to_nat i) (table t))) as (j & b & Hj & Hx)%elems_lookup by (rewrite He; set_solver).
    apply lookup_take_Some in Hj as [Hj ?]. rewrite (Hm j b) in Hx; [set_solver|lia|done]. }
  simpl. induction (drop (Z.to_nat i) (table t)) as [|b l IH]; [done|]. simpl. by rewrite IH.
Qed.

Lemma Clone_spec hash_elem ht :
  wf ht → (∀ x, hash_elem x = HF (gk x)) →
  ∃ ht', Clone hash_elem HashTable_init ht = Some ht' ∧ wf ht' ∧ view ht' = view ht
    ∧ InRehashing ht' = false ∧ hash_size ht' = hash_size ht.
Proof.
  intros ((n & Hw1 & Hph) & Hk & Hu) Hh. unfold Clone.
  assert (∃ m t, (if InRehashing ht then
      t ← clone_buckets (table_Grow [] (table1 HashTable_init) (table_size (table2 ht))) 0 (table (table2 ht));
      push_all hash_elem id (λ b x, Some (EmplaceFront x b)) id t
        (mjoin (drop (Z.to_nat (rehash_move_bucket_index_ ht)) (table (table1 ht))))
    else clone_buckets (table_Grow [] (table1 HashTable_init) (table_size (table1 ht))) 0 (table (table1 ht))) = Some t
    ∧ table_wf gk HF any m t ∧ elems (table t) ≡ₚ all_elems ht) as (m & t & -> & Hw & Hp).
  { destruct (phase_cases _ _ _ _ _ Hw1 Hph) as [(-> & _ & Hnil)|(-> & _ & Hw2 & Hm)].
    - destruct (clone_fresh n _ Hw1) as (t & -> & ? & Hp). exists n, t. split_ands; [done..|].
      unfold all_elems. by rewrite Hp, Hnil, app_nil_r.
    - destruct (clone_fresh (n + 1) _ Hw2) as (t & -> & Hw & Hp). cbn [mbind option_bind].
      rewrite push_all_hash, (moved_drop _ _ Hm) by done.
      destruct (push_all_wf gk HF any any (λ b x, Some (EmplaceFront x b)) id any (n + 1) t
        (elems (table (table1 ht)))) as (t' & -> & ? & _ & He); [by eauto|done|by apply Forall_true| |].
      + rewrite Hp. rewrite map_id. done.
      + exists (n + 1), t'. split_ands; [done..|]. by rewrite He, map_id, Hp. }
  cbn [mbind option_bind]. set (ht' := set_table1 _ _).
  assert (all_elems ht' ≡ₚ all_elems ht) as Ha by (unfold all_elems at 1; cbn; by rewrite app_nil_r).
  assert (wf ht') as Hw'.
  { split; [exists m; split; [done|by left]|]. by rewrite Ha. }
  exists ht'. split_ands; [done|done| |done|done]. apply kmap_perm; [apply Hw'|done].
Qed.
End facts.

(** ** The hash table as a dictionary *)

Section dict.
Context {K T : Type} `{!HashFunc K} `{GetKey K T} `{Countable K} `{!EqualKey K}.

#[export] Instance HashTable_ops : DictOps (HashState (list T)) K T := {|
  d_init := HashTable_init;
  d_insert := InsertWithDuplicate HASH_FUNC;
  d_find := Find HASH_FUNC;
  d_update := FindAndWrite HASH_FUNC;
  d_write := λ ht k f, WriteThrough (@map T T) (λ x, EQUAL_KEY (TO_GK x) k) f ht;
  d_extract := Extract HASH_FUNC;
  d_clear := Clear;
  d_size := hash_size;
|}.

(** The invariant of the table. *)
Definition HashTable_wfx (dr : Drift) (ht : HashState (list T)) : Prop :=
  hash_wf TO_GK HASH_FUNC any any ht ∧ hash_room ht.

Context `{!EqualKeyOk K}.

#[export] Program Instance HashTable_laws : DictLaws (HashState (list T)) K T TO_GK := {|
  d_wfx := HashTable_wfx;
  d_key_ok := any;
  d_view := hash_view TO_GK;
|}.
Next Obligation.
  destruct (hash_init_wf (T := T) TO_GK HASH_FUNC any any [] eq_refl I) as [Hw He].
  split; [split; [done|done]|]. transitivity (kmap (TO_GK (K := K) (V := T)) []); [by rewrite <-He|done].
Qed.
Next Obligation. intros dr d k x [Hw _]. by apply (hash_view_key TO_GK HASH_FUNC any any). Qed.
Next Obligation.
  intros dr d v [Hw Hr] Hs _. destruct (InsertWithDuplicate_spec HASH_FUNC d v Hw Hs Hr) as (d' & ok & dup & ? & ? & ? & ?).
  by exists d', ok, dup.
Qed.
Next Obligation.
  intros dr d k [Hw Hr] _. destruct (Find_spec HASH_FUNC d k Hw) as (d' & ? & ? & Hr' & ?). 
  exists d'. split_ands; [done| |done]. split; auto.
Qed.
Next Obligation.
  intros dr d k f [Hw Hr] _ Hf. destruct (FindAndWrite_spec HASH_FUNC d k f Hw Hf) as (d' & ? & ? & Hr' & ?).
  exists d'. split_ands; [done| |done]. split; auto.
Qed.
Next Obligation.
  intros dr d k f x [Hw Hr] Hf Hx.
  destruct (WriteThrough_spec (@map T T) TO_GK HASH_FUNC any any (λ _ _, eq_refl) (λ _ _ _ _, I)
    (λ x, EQUAL_KEY (TO_GK x) k) f d k x Hw) as (d' & ? & ? & Hr' & ?); [|done|done|].
  - intros y _. apply eq_bool_prop_intro. rewrite bool_decide_spec, Is_true_true. apply equal_key_spec.
  - exists d'. split_ands; [done| |done]. split; auto.
Qed.
Next Obligation.
  intros dr d k [Hw Hr] _. destruct (Extract_spec HASH_FUNC d k Hw) as (d' & ? & ? & Hr' & ?).
  exists d'. split_ands; [done| |done]. split; auto.
Qed.
Next Obligation.
  intros dr d [Hw Hr]. destruct (Clear_spec HASH_FUNC d Hw) as (d' & ? & ? & Hr' & ?).
  exists d'. split_ands; [done| |done]. split; auto.
Qed.
Next Obligation. intros dr d [Hw _]. by apply (hash_view_size TO_GK HASH_FUNC any any). Qed.
End dict.

(** The tables whose size is exact. *)
Abbreviation HashTable_wf := (HashTable_wfx no_drift).

(** ** Properties *)

Section properties.
Context {K T : Type} `{!HashFunc K} `{GetKey K T} `{Countable K} `{!EqualKey K} `{!EqualKeyOk K}.
Implicit Types (ht : HashState (list T)) (os : list (dict_op K T)).

(** Writes through the result of [Find] leave the key of the entry alone. *)
Definition writes_ok (o : dict_op K T) : Prop :=
  match o with
  | OpUpdate k f => ∀ x, TO_GK x = k → TO_GK (f x) = k
  | _ => True
  end.

(** C8: the hash table refines a finite map.  Any sequence of at most 2^61
    insertions, lookups, writes, extractions and clears, on a table that was
    just constructed, runs without a failed assertion or an access out of
    bounds, answers every operation as a finite map does ([size()] included),
    and leaves a well-formed table that holds exactly the map: whatever the
    hash function, and through all the incremental rehashes on the way. *)
Theorem hash_table_history os :
  Z.of_nat (length os) ≤ max_elems → Forall writes_ok os →
  ∃ ht', dict_run HashTable_init os = Some (ht', snd (map_run TO_GK ∅ os))
    ∧ HashTable_wf ht' ∧ hash_view TO_GK ht' = fst (map_run TO_GK ∅ os).
Proof.
  intros Hl Hok.
  destruct (dict_history_refines (D := HashState (list T)) TO_GK os Hl) as (ht & Hr & Hw & Hv).
  { eapply Forall_impl; [done|]. by intros []. }
  exists ht. exact (conj Hr (conj Hw Hv)).
Qed.

(** The iterators.  From [begin()] on, [operator++] visits every entry of
    a well-formed table exactly once, during a rehash too, and then reaches
    [end()]. *)
Theorem hash_table_iteration ht fuel :
  HashTable_wf ht → (size (hash_view TO_GK ht) ≤ fuel)%nat →
  ∃ l, iterate fuel ht (begin ht) = Some l ∧ NoDup (map TO_GK l) ∧ kmap TO_GK l = hash_view TO_GK ht.
Proof.
  intros [(Hs & [Hnd _] & _) _] Hf. unfold hash_view in *. rewrite kmap_size in Hf by done.
  pose proof (hash_shape_sizes TO_GK HASH_FUNC any ht Hs) as Hsz. destruct (begin_spec ht Hsz) as [Hok Hr].
  exists (all_elems ht). split; [|done]. rewrite <-Hr. apply iterate_spec; [done..|]. by rewrite Hr.
Qed.

(** [Clone] into a new table copies the map and the size, and the copy is
    not rehashing, when hashing an entry is hashing its key (a set). *)
Theorem hash_table_clone (hash_elem : T → Z) ht :
  HashTable_wf ht → (∀ x, hash_elem x = HASH_FUNC (TO_GK x)) →
  ∃ ht', Clone hash_elem HashTable_init ht = Some ht' ∧ hash_wf TO_GK HASH_FUNC any any ht'
    ∧ hash_view TO_GK ht' = hash_view TO_GK ht ∧ InRehashing ht' = false ∧ hash_size ht' = hash_size ht.
Proof. intros [Hw _] Hh. exact (Clone_spec HASH_FUNC hash_elem ht Hw Hh). Qed.
End properties.

Module HashExamples.
#[local] Instance HashZ : HashFunc Z := λ x, x.

(** Five insertions into four buckets start a rehash. *)
Definition ops : list (dict_op Z (KeyValue Z string)) :=
  [OpInsert (MkKeyValue 1 "a"); OpInsert (MkKeyValue 5 "b"); OpInsert (MkKeyValue 9 "c"); OpInsert (MkKeyValue 2 "d");
   OpInsert (MkKeyValue 6 "e"); OpInsert (MkKeyValue 5 "f"); OpFind 9; OpUpdate 1 (λ kv, MkKeyValue (key kv) "z");
   OpExtract 2; OpFind 2].

Definition in_rehash : HashState (list (KeyValue Z string)) :=
  match dict_run HashTable_init (take 6 ops) with Some (ht, _) => ht | None => HashTable_init end.

Lemma hash_table_history_witness :
  ∃ ht', dict_run HashTable_init ops = Some (ht', snd (map_run TO_GK ∅ ops))
    ∧ HashTable_wf ht' ∧ hash_view TO_GK ht' = fst (map_run TO_GK ∅ ops).
Proof.
  apply (hash_table_history ops); [by vm_compute|].
  repeat constructor. intros x Hx. exact Hx.
Defined.

Lemma ops_ok : Forall (op_ok (D := HashState (list (KeyValue Z string))) TO_GK) ops.
Proof. repeat constructor. intros x Hx. exact Hx. Qed.

Lemma in_rehash_wf : HashTable_wf in_rehash.
Proof.
  destruct (dict_history_refines (D := HashState (list (KeyValue Z string))) TO_GK (take 6 ops)) as (ht & Hr & Hw & _);
    [by vm_compute|apply Forall_take, ops_ok|].
  unfold in_rehash. change HashTable_init with (d_init (D := HashState (list (KeyValue Z string)))). by rewrite Hr.
Qed.

Lemma hash_table_iteration_witness :
  InRehashing in_rehash = true ∧
  ∃ l, iterate 10 in_rehash (begin in_rehash) = Some l ∧ NoDup (map TO_GK l)
    ∧ kmap TO_GK l = hash_view TO_GK in_rehash.
Proof.
  split; [by vm_compute|]. apply (hash_table_iteration in_rehash 10); [apply in_rehash_wf|].
  vm_compute. lia.
Defined.

Lemma hash_table_clone_witness :
  ∃ ht', Clone key HashTable_init in_rehash = Some ht' ∧ hash_wf TO_GK HASH_FUNC any any ht'
    ∧ hash_view TO_GK ht' = hash_view TO_GK in_rehash ∧ InRehashing ht' = false
    ∧ hash_size ht' = hash_size in_rehash.
Proof. apply (hash_table_clone key in_rehash); [apply in_rehash_wf|by intros]. Defined.

(** [EraseAfterFindSlot] takes the entry out but does not count it out:
    after the only entry of a table is erased through its slot, the table is
    empty and [size()] still answers 1, where [Erase] leaves 0. *)
Theorem erase_after_find_slot_size :
  ∃ ht1 ht2 ht3 ht4 i j,
    InsertWithDuplicate HASH_FUNC HashTable_init (MkKeyValue 7 "x") = Some (ht1, true, MkKeyValue 7 "x")
    ∧ FindSlot HASH_FUNC ht1 7 = Some (ht2, Some (i, j, MkKeyValue 7 "x"))
    ∧ EraseAfterFindSlot ht2 (i, j) = Some ht3
    ∧ all_elems ht3 = [] ∧ hash_size ht3 = 1
    ∧ Erase HASH_FUNC ht1 7 = Some (ht4, 1) ∧ all_elems ht4 = [] ∧ hash_size ht4 = 0.
Proof. do 6 eexists. repeat split; vm_compute; reflexivity. Qed.
End HashExamples.
