(* ===== verification/TreeHashTable.v ===== *)
(** * The hash table with tree buckets

    [mmkv/algo/internal/tree_hashtable.h], [internal/tree_hashtable_impl.h],
    [avl_tree_hashtable.h], [internal/tree_hash_table_iterator.h]: the same
    two tables and incremental rehash, with AVL trees as buckets; the table
    behind [AvlDictionary], which holds the database.  [None] is a failed
    [assert], a null dereference or an access out of bounds. *)

From S2P Require Import Prelude Comparator AvlUtil AvlTree ReservedArray Dict HashTableBase.

#[export] Instance BucketElems_tree {D V} : BucketElems (AvlTreeBase D V) V := λ a, inorder (root_ a).

Section tree_hash_table.
Context {K V D : Type} `{Comparator K} `{GetKey K V} `{Count D} `{!HashFunc K}.
Implicit Types (ht : HashState (AvlTreeBase D V)) (b : AvlTreeBase D V) (n : DetachedNode V) (elem : V) (key : K).

(** The constructor. *)
Definition TreeHashTable_init : HashState (AvlTreeBase D V) := hash_init avl_empty.

(** [Table::Reset()]: the mask is left as it was. *)
Definition Reset (t : Table (AvlTreeBase D V)) : Table (AvlTreeBase D V) :=
  MkTable (Shrink (table t) 0) (used t) (size_mask t).

(** [bucket.Push(node)], the result discarded. *)
Definition push_node b n : option (AvlTreeBase D V) := '(b', _) ← AvlTree.Push b n; Some b'.

(** [IncrementalRehash()]: [bucket1.ReuseAllNodes] with the push into the
    second table as the callback. *)
Definition IncrementalRehash ht : option (HashState (AvlTreeBase D V)) :=
  incremental_rehash TO_GK HASH_FUNC push_node node_value ReuseAllNodes Reset ht.

(** [PUSH_AND_SET_DUPLICATE] on the bucket of table [i]; [want_dup] as in
    [AvlTree.PushWithDuplicate]. *)
Definition push_in (i : Z) ht n (want_dup : bool) : option (HashState (AvlTreeBase D V) * bool) :=
  let j := bucket_index (table_at ht i) (HASH_FUNC (TO_GK (node_value n))) in
  bucket ← bucket_get (table_at ht i) j;
  '(bucket, success, _) ← AvlTree.PushWithDuplicate bucket n want_dup;
  t ← bucket_set (table_at ht i) j bucket;
  Some (set_table_at ht i t, success).

(** [++table1().used; return true;] after a success. *)
Definition count_if (success : bool) ht : HashState (AvlTreeBase D V) := if success then used_incr ht else ht.

(** [PushWithDuplicate(node, duplicate)], after the two rehash calls.  In the
    last branch the node is pushed into the first table before the second one
    is searched. *)
Definition push_checked ht n (want_dup : bool) : option (HashState (AvlTreeBase D V) * bool) :=
  let hash_val := HASH_FUNC (TO_GK (node_value n)) in
  if negb (InRehashing ht) then
    '(ht, success) ← push_in 0 ht n want_dup;
    Some (count_if success ht, success)
  else if bucket_index (table1 ht) hash_val <? rehash_move_bucket_index_ ht then
    '(ht, success) ← push_in 1 ht n want_dup;
    Some (count_if success ht, success)
  else
    '(ht, success) ← push_in 0 ht n want_dup;
    if success : bool then
      bucket ← bucket_get (table2 ht) (bucket_index (table2 ht) hash_val);
      match AvlTree.Find bucket (TO_GK (node_value n)) with
      | Some _ => Some (ht, false)
      | None => Some (used_incr ht, true)
      end
    else Some (ht, false).

Definition PushWithDuplicate ht n (want_dup : bool) : option (HashState (AvlTreeBase D V) * bool) :=
  ht ← IncrementalRehash (Rehash avl_empty ht);
  push_checked ht n want_dup.

Definition Push ht n : option (HashState (AvlTreeBase D V) * bool) := PushWithDuplicate ht n false.

(** [INSERT_AND_SET_DUPLICATE] on the bucket of table [i]: the result and
    [*duplicate]. *)
Definition insert_in (i : Z) ht elem : option (HashState (AvlTreeBase D V) * bool * V) :=
  let j := bucket_index (table_at ht i) (HASH_FUNC (TO_GK elem)) in
  bucket ← bucket_get (table_at ht i) j;
  '(bucket, success, duplicate) ← AvlTree.InsertWithDuplicate bucket elem;
  t ← bucket_set (table_at ht i) j bucket;
  Some (count_if success (set_table_at ht i t), success, duplicate).

(** [InsertWithDuplicate_impl], after the two rehash calls. *)
Definition insert_checked ht elem : option (HashState (AvlTreeBase D V) * bool * V) :=
  let hash_val := HASH_FUNC (TO_GK elem) in
  if negb (InRehashing ht) then insert_in 0 ht elem
  else if bucket_index (table1 ht) hash_val <? rehash_move_bucket_index_ ht then insert_in 1 ht elem
  else
    bucket ← bucket_get (table2 ht) (bucket_index (table2 ht) hash_val);
    match AvlTree.Find bucket (TO_GK elem) with
    | Some y => Some (ht, false, y)
    | None => insert_in 0 ht elem
    end.

Definition InsertWithDuplicate ht elem : option (HashState (AvlTreeBase D V) * bool * V) :=
  ht ← IncrementalRehash (Rehash avl_empty ht);
  insert_checked ht elem.

Definition Insert ht elem : option (HashState (AvlTreeBase D V) * option V) :=
  '(ht, ok, duplicate) ← InsertWithDuplicate ht elem;
  Some (ht, if ok : bool then Some duplicate else None).

(** [bucket->FindNode(key)]: the node, as a position, with its value. *)
Definition find_node_in key b : option (AvlTreeBase D V * option (pos V * V)) :=
  Some (b, x ← AvlTree.FindNode b key; v ← pos_val x; Some (x, v)).

(** [FindNode(key, &bucket)]: the table and index of the bucket, and the node. *)
Definition FindNode ht key : option (HashState (AvlTreeBase D V) * option (Z * Z * (pos V * V))) :=
  ht ← IncrementalRehash ht;
  '(ht', r) ← search_tables (find_node_in key) (HASH_FUNC key) ht;
  Some (ht', match r with
             | Some (i, x) => Some (i, bucket_index (table_at ht' i) (HASH_FUNC key), x)
             | None => None
             end).

Definition Find ht key : option (HashState (AvlTreeBase D V) * option V) :=
  '(ht', r) ← FindNode ht key;
  Some (ht', match r with Some (_, _, (_, v)) => Some v | None => None end).

(** The node at a position with its value overwritten. *)
Definition pos_write (x : pos V) (f : V → V) : tree V :=
  match x.1 with
  | Null => zip x.2 Null
  | Node l v h r => zip x.2 (Node l (f v) h r)
  end.

(** [Find(key)], and [f] of the value written through the pointer. *)
Definition find_write (f : V → V) key b : option (AvlTreeBase D V * option V) :=
  Some match AvlTree.FindNode b key with
       | Some x => (set_root b (pos_write x f), pos_val x)
       | None => (b, None)
       end.

Definition FindAndWrite ht key (f : V → V) : option (HashState (AvlTreeBase D V) * option V) :=
  ht ← IncrementalRehash ht;
  '(ht', r) ← search_tables (find_write f key) (HASH_FUNC key) ht;
  Some (ht', match r with Some (_, x) => Some x | None => None end).

Definition Extract ht key : option (HashState (AvlTreeBase D V) * option (DetachedNode V)) :=
  ht ← IncrementalRehash ht;
  '(ht', r) ← search_tables (λ b, AvlTree.Extract b key) (HASH_FUNC key) ht;
  Some match r with
       | Some (_, n) => (used_decr ht', Some n)
       | None => (ht', None)
       end.

Definition Erase ht key : option (HashState (AvlTreeBase D V) * Z) :=
  '(ht', node) ← Extract ht key;
  Some (ht', match node with Some _ => 1 | None => 0 end).

(** [EraseNode(bucket, node)] with what [FindNode] returned. *)
Definition EraseNode ht (i j : Z) (x : option (pos V)) : option (HashState (AvlTreeBase D V) * Z) :=
  bucket ← bucket_get (table_at ht i) j;
  '(bucket, ok) ← AvlTree.EraseNode bucket x;
  t ← bucket_set (table_at ht i) j bucket;
  Some (set_table_at ht i t, if ok : bool then 1 else 0).

(** [for (; i < end; ++i) table[i].ClearApply(cb)]: the values the callback
    gets. *)
Fixpoint clear_apply (n : nat) (i : Z) (t : Table (AvlTreeBase D V)) : option (Table (AvlTreeBase D V) * list V) :=
  match n with
  | O => Some (t, [])
  | S n' =>
      b ← bucket_get t i;
      '(b', vs) ← AvlTree.ClearApply b;
      t' ← bucket_set t i b';
      '(t'', vs') ← clear_apply n' (i + 1) t';
      Some (t'', vs ++ vs')
  end.

Fixpoint clear_buckets (n : nat) (i : Z) (t : Table (AvlTreeBase D V)) : option (Table (AvlTreeBase D V)) :=
  match n with
  | O => Some t
  | S n' =>
      b ← bucket_get t i;
      b' ← AvlTree.Clear b;
      t' ← bucket_set t i b';
      clear_buckets n' (i + 1) t'
  end.

Definition Clear ht : option (HashState (AvlTreeBase D V)) :=
  t1 ← clear_buckets 4 0 (table_Shrink (table1 ht) 4);
  Some (MkHash (set_used t1 0) (if InRehashing ht then table_Shrink (table2 ht) 0 else table2 ht) npos).

Definition ClearApply ht : option (HashState (AvlTreeBase D V) * list V) :=
  '(t1, vs1) ← clear_apply (Z.to_nat (table_size (table1 ht) - 4)) 4 (table1 ht);
  '(t1, vs2) ← clear_apply 4 0 (table_Shrink t1 4);
  if InRehashing ht then
    '(t2, vs3) ← clear_apply (Z.to_nat (table_size (table2 ht))) 0 (table2 ht);
    Some (MkHash (set_used t1 0) (table_Shrink t2 0) npos, vs1 ++ vs2 ++ vs3)
  else Some (MkHash (set_used t1 0) (table2 ht) npos, vs1 ++ vs2).

(** ** Iterators *)

(** [table_index_], [bucket_index_] and [slot_], a node of that bucket. *)
Record TreeHashTableIterator := MkTreeIter { table_index_ : Z; bucket_index_ : Z; slot_ : option (pos V) }.

(** The first bucket from [j] on that is not empty, and its [FirstNode()]. *)
Fixpoint first_bucket (buckets : list (AvlTreeBase D V)) (j : Z) : option (Z * option (pos V)) :=
  match buckets with
  | [] => None
  | b :: rest =>
      match root_ b with
      | Null => first_bucket rest (j + 1)
      | t => Some (j, _GetFirstNode (t, []))
      end
  end.

Definition begin ht : TreeHashTableIterator :=
  match first_bucket (table (table1 ht)) 0 with
  | Some (j, x) => MkTreeIter 0 j x
  | None =>
      match first_bucket (table (table2 ht)) 0 with
      | Some (j, x) => MkTreeIter 1 j x
      | None => MkTreeIter 0 0 None
      end
  end.

Fixpoint increment_loop (n : nat) (i : Z) ht (it : TreeHashTableIterator) : TreeHashTableIterator :=
  match n with
  | O => it
  | S n' =>
      match first_bucket (drop (Z.to_nat (bucket_index_ it ⊞ 1)) (table (table_at ht (table_index_ it))))
              (bucket_index_ it ⊞ 1) with
      | Some (j, x) => MkTreeIter i j x
      | None => increment_loop n' (i + 1) ht (MkTreeIter 1 npos None)
      end
  end.

Definition Increment ht (it : TreeHashTableIterator) : option TreeHashTableIterator :=
  x ← slot_ it;
  Some match _GetNextNode x with
       | Some y => MkTreeIter (table_index_ it) (bucket_index_ it) (Some y)
       | None => increment_loop (Z.to_nat (2 - table_index_ it)) (table_index_ it) ht it
       end.

Fixpoint iterate (fuel : nat) ht (it : TreeHashTableIterator) : option (list V) :=
  match slot_ it with
  | None => Some []
  | Some x =>
      match fuel with
      | O => None
      | S fuel' => v ← pos_val x; it' ← Increment ht it; rest ← iterate fuel' ht it'; Some (v :: rest)
      end
  end.
End tree_hash_table.

(** ** Facts *)

Section facts.
Context {K V D : Type} `{ComparatorOk K} `{GetKey K V} `{Count D} `{!HashFunc K} `{!ExactKeys K} `{Countable K} {dr : Drift}.
Implicit Types (ht : HashState (AvlTreeBase D V)) (b : AvlTreeBase D V) (n : DetachedNode V) (elem v : V) (k : K).

Abbreviation gk := (TO_GK (K := K) (V := V)).

(** A bucket is a search tree; its heights need not be right. *)
Definition tree_ok b : Prop := bst (root_ b) ∧ heights_ok (root_ b).

Abbreviation wf := (hash_wf gk HASH_FUNC tree_ok exact_key).
Abbreviation shape := (hash_shape gk HASH_FUNC tree_ok).
Abbreviation view := (hash_view gk).
Abbreviation keys_ok := (keys_wf gk exact_key).

Lemma vcmp_exact v k : exact_key (gk v) → exact_key k → vcmp v k = 0 → gk v = k.
Proof. apply exact_eq. Qed.

Lemma vcmp_self v k : gk v = k → vcmp v k = 0.
Proof. intros <-. apply cmp_refl. Qed.

Lemma keys_ok_elem l v : keys_ok l → v ∈ l → exact_key (gk v).
Proof. intros [_ Hf] Hv. rewrite Forall_forall in Hf. by apply Hf. Qed.

Lemma insert_result_elems t v t' d : insert_result t v t' true d → inorder t' ≡ₚ v :: inorder t.
Proof. intros (_ & _ & l1 & l2 & -> & -> & _). by rewrite Permutation_middle. Qed.

Lemma not_vcmp_keys k l : keys_ok l → Forall (λ w, vcmp w k ≠ 0) l → k ∉ map gk l.
Proof.
  intros Hk Hf (w & -> & Hw)%list_elem_of_fmap. rewrite Forall_forall in Hf.
  apply (Hf w Hw). by apply vcmp_self.
Qed.

Lemma push_node_ok b n :
  tree_ok b → 0 ≤ node_height n → keys_ok (node_value n :: bucket_elems b) →
  ∃ b', push_node b n = Some b' ∧ tree_ok b' ∧ bucket_elems b' ≡ₚ node_value n :: bucket_elems b.
Proof.
  intros [Hb Hh] Hn Hk. destruct (PushWithDuplicate_spec b n Hb Hh Hn) as (b' & ok & d & Hp & Hh' & Hr).
  unfold push_node, AvlTree.Push. rewrite Hp. exists b'. split; [done|].
  split; [split; [by eapply insert_result_bst|done]|]. destruct ok; [by eapply insert_result_elems|].
  destruct Hr as (_ & Hd & Hv). exfalso. pose proof (keys_ok_elem _ d Hk ltac:(set_solver)).
  pose proof (keys_ok_elem _ (node_value n) Hk ltac:(set_solver)).
  apply vcmp_exact in Hv; [|done..]. destruct Hk as [[Hni _]%NoDup_cons _]. apply Hni. rewrite <-Hv.
  apply list_elem_of_fmap. eauto.
Qed.

Lemma ReuseAllNodes_ok b :
  tree_ok b →
  ∃ b' nodes, ReuseAllNodes b = Some (b', nodes) ∧ bucket_elems b' = [] ∧ tree_ok b'
    ∧ Forall (λ n, 0 ≤ node_height n) nodes ∧ map node_value nodes ≡ₚ bucket_elems b.
Proof.
  intros _. rewrite ReuseAllNodes_spec. eexists _, _. split; [done|]. split_ands; [done|split; [constructor|done]| |].
  - apply Forall_fmap, Forall_true. simpl. lia.
  - rewrite map_map. cbn [node_value]. rewrite map_id. apply postorder_perm.
Qed.

Lemma tree_Reset_nil (t : Table (AvlTreeBase D V)) : table (Reset t) = [].
Proof.
  unfold Reset, Shrink. cbn [table]. case_match eqn:Hz; [|done].
  apply Z.leb_le in Hz. destruct (table t); [done|]. unfold asize in Hz. simpl in Hz. lia.
Qed.

Lemma avl_empty_ok : tree_ok avl_empty.
Proof. split; [constructor|done]. Qed.

Lemma tree_IncrementalRehash_wf ht :
  wf ht → ∃ ht', IncrementalRehash ht = Some ht' ∧ wf ht' ∧ all_elems ht' ≡ₚ all_elems ht
    ∧ (hash_room ht → hash_room ht').
Proof.
  intros Hw.
  destruct (incremental_rehash_wf gk HASH_FUNC tree_ok exact_key push_node node_value (λ n, 0 ≤ node_height n)
    ReuseAllNodes Reset) with (ht := ht) as (ht' & Hi & ? & ?);
    [apply push_node_ok|apply ReuseAllNodes_ok|apply tree_Reset_nil|done|].
  exists ht'. split_ands; [done..|]. eapply incremental_rehash_room; [apply tree_Reset_nil|done].
Qed.

Lemma find_node_in_spec k b :
  tree_ok b → keys_ok (bucket_elems b) → exact_key k →
  ∃ b' r, find_node_in k b = Some (b', r) ∧ tree_ok b'
    ∧ search_result gk (λ x, [x]) k (bucket_elems b) (bucket_elems b') (snd <$> r).
Proof.
  intros [Hb Hh] Hk He. unfold find_node_in, AvlTree.FindNode.
  pose proof (find_node_spec k (root_ b) [] Hb) as Hf. eexists _, _. split; [done|]. split; [done|].
  destruct (find_node k (root_ b) []) as [x|].
  - destruct Hf as (v & Hv & Hc & Hin & Hr). simpl. rewrite Hv. simpl.
    apply vcmp_exact in Hc; [|by eapply keys_ok_elem|done]. split; [done|].
    apply elem_of_Permutation in Hin as (rest & Hrest). by exists rest.
  - split; [|done]. by apply not_vcmp_keys.
Qed.

Lemma pos_write_inorder (x : pos V) v f :
  pos_val x = Some v → inorder (pos_write x f) = pos_before x ++ f v :: pos_after x.
Proof.
  destruct x as [[|l w h r] p]; [done|]; intros [= ->].
  unfold pos_write, pos_before, pos_after; simpl. rewrite inorder_zip. simpl. by app_norm.
Qed.

Lemma pos_write_heights (x : pos V) f : heights_ok (pos_root x) → heights_ok (pos_write x f).
Proof. destruct x as [[|l w h r] p]; unfold pos_root, pos_write; simpl; [done|]. by rewrite !heights_ok_zip. Qed.

(** Overwriting a value by one with the same key keeps the order. *)
Lemma sorted_write (l1 l2 : list V) v w :
  gk v = gk w → StronglySorted key_lt (l1 ++ v :: l2) → StronglySorted key_lt (l1 ++ w :: l2).
Proof.
  intros Hg. rewrite !StronglySorted_app, !StronglySorted_cons. unfold key_lt in *. rewrite <-Hg.
  intros (Hx & ? & ? & ?). split_ands; [|done..].
  intros x y Hx1 [->|Hy]%elem_of_cons; [rewrite <-Hg|]; apply Hx; set_solver.
Qed.

Lemma find_write_spec f k b :
  tree_ok b → keys_ok (bucket_elems b) → exact_key k → (∀ x, gk x = k → gk (f x) = k) →
  ∃ b' r, find_write f k b = Some (b', r) ∧ tree_ok b'
    ∧ search_result gk (λ x, [f x]) k (bucket_elems b) (bucket_elems b') r.
Proof.
  intros [Hb Hh] Hk He Hfk. unfold find_write, AvlTree.FindNode.
  pose proof (find_node_spec k (root_ b) [] Hb) as Hf.
  destruct (find_node k (root_ b) []) as [x|]; eexists _, _; (split; [done|]).
  - destruct Hf as (v & Hv & Hc & Hin & Hr). simpl in Hr. rewrite Hv.
    apply vcmp_exact in Hc; [|by eapply keys_ok_elem|done].
    pose proof (pos_inorder x v Hv) as Hi. rewrite Hr in Hi.
    split; [split|split; [done|]].
    + unfold bst in *. cbn [set_root root_]. rewrite (pos_write_inorder x v f Hv). rewrite Hi in Hb.
      eapply sorted_write; [|done]. rewrite Hc. symmetry. auto.
    + cbn [set_root root_]. apply pos_write_heights. by rewrite Hr.
    + exists (pos_before x ++ pos_after x). unfold bucket_elems, BucketElems_tree. cbn [set_root root_].
      rewrite (pos_write_inorder x v f Hv), Hi. by rewrite <-!Permutation_middle.
  - split; [done|]. split; [|done]. by apply not_vcmp_keys.
Qed.

Lemma extract_in_spec k b :
  tree_ok b → keys_ok (bucket_elems b) → exact_key k →
  ∃ b' r, AvlTree.Extract b k = Some (b', r) ∧ tree_ok b'
    ∧ search_result gk (λ _, []) k (bucket_elems b) (bucket_elems b') (node_value <$> r).
Proof.
  intros [Hb Hh] Hk He. destruct (avl_Extract_spec b k Hb Hh) as (b' & n & -> & Hh' & Hr & _).
  exists b', n. split; [done|]. split; [split; [by eapply erase_result_bst|done]|].
  destruct n as [n|]; simpl in *.
  - destruct Hr as (Hc & l1 & l2 & Hi & Hi'). unfold bucket_elems, BucketElems_tree in *.
    apply vcmp_exact in Hc; [|eapply keys_ok_elem; [done|rewrite Hi; set_solver]|done].
    split; [done|]. exists (l1 ++ l2). rewrite Hi, Hi'. by rewrite Permutation_middle.
  - destruct Hr as [Ht Hf]. split; [by apply not_vcmp_keys|]. unfold bucket_elems, BucketElems_tree. by rewrite Ht.
Qed.

Lemma tree_rehash_both_wf ht :
  wf ht → Z.of_nat (size (view ht)) + drift < max_elems → hash_room ht →
  ∃ ht', IncrementalRehash (Rehash avl_empty ht) = Some ht' ∧ wf ht' ∧ all_elems ht' ≡ₚ all_elems ht
    ∧ hash_room ht'.
Proof.
  intros Hw Hsz Hroom.
  pose proof (Rehash_room gk HASH_FUNC tree_ok exact_key avl_empty ht Hw Hsz Hroom) as Hroom'.
  destruct (Rehash_wf gk HASH_FUNC tree_ok exact_key avl_empty eq_refl avl_empty_ok ht Hw) as [Hw' He];
    [destruct Hroom; lia|].
  destruct (tree_IncrementalRehash_wf _ Hw') as (ht' & ? & ? & Hp & Hr). exists ht'. rewrite Hp, He. auto.
Qed.

(** ** The operations, on the map *)

Lemma FindNode_spec ht k :
  wf ht → exact_key k →
  ∃ ht' r, FindNode ht k = Some (ht', r) ∧ wf ht' ∧ (hash_room ht → hash_room ht')
    ∧ view ht' = view ht ∧ snd ∘ snd <$> r = view ht !! k.
Proof.
  intros Hw He. unfold FindNode.
  destruct (tree_IncrementalRehash_wf ht Hw) as (ht1 & -> & Hw1 & Hp & Hr1). cbn [mbind option_bind].
  rewrite <-(hash_view_perm gk HASH_FUNC tree_ok exact_key ht ht1) by done.
  destruct Hw1 as (Hs & Hk & Hu).
  destruct (search_tables_wf gk HASH_FUNC tree_ok exact_key (find_node_in k) snd (λ x, [x]) k) with (ht := ht1)
    as (ht' & r & Hst & Hs' & Hu' & Hres); [set_solver|by intros; apply find_node_in_spec|done|done|].
  pose proof (search_keep gk k _ _ _ Hres) as Hp'.
  pose proof (search_view gk _ _ _ _ _ (proj1 Hk) Hres) as Hfound.
  rewrite Hst. cbn [mbind option_bind]. eexists ht', _. split; [done|].
  assert (wf ht') as Hw' by (split; [done|]; rewrite Hp'; split; [done|congruence]).
  split_ands; [done| |by apply (hash_view_perm gk HASH_FUNC tree_ok exact_key); [split|]|].
  - intros. eapply search_tables_room; [done|by auto].
  - unfold hash_view. rewrite Hfound. by destruct r as [[]|].
Qed.

Lemma tree_Find_spec ht k :
  wf ht → exact_key k →
  ∃ ht', Find ht k = Some (ht', view ht !! k) ∧ wf ht' ∧ (hash_room ht → hash_room ht') ∧ view ht' = view ht.
Proof.
  intros Hw He. unfold Find. destruct (FindNode_spec ht k Hw He) as (ht' & r & -> & ? & ? & ? & Hr).
  exists ht'. split_ands; [|done..]. rewrite <-Hr. by destruct r as [[[] []]|].
Qed.

Lemma tree_FindAndWrite_spec ht k f :
  wf ht → exact_key k → (∀ x, gk x = k → gk (f x) = k) →
  ∃ ht', FindAndWrite ht k f = Some (ht', view ht !! k) ∧ wf ht' ∧ (hash_room ht → hash_room ht')
    ∧ view ht' = match view ht !! k with Some x => <[k := f x]> (view ht) | None => view ht end.
Proof.
  intros Hw He Hf. unfold FindAndWrite.
  destruct (tree_IncrementalRehash_wf ht Hw) as (ht1 & -> & Hw1 & Hp & Hr1). cbn [mbind option_bind].
  rewrite <-(hash_view_perm gk HASH_FUNC tree_ok exact_key ht ht1) by done.
  destruct Hw1 as (Hs & Hk & Hu).
  destruct (search_tables_wf gk HASH_FUNC tree_ok exact_key (find_write f k) id (λ x, [f x]) k) with (ht := ht1)
    as (ht' & r & Hst & Hs' & Hu' & Hres); [| |done|done|].
  { intros x y Hx ->%list_elem_of_singleton. auto. }
  { intros b Hb Hkb. destruct (find_write_spec f k b Hb Hkb He Hf) as (b' & r & -> & ? & ?).
    exists b', r. split_ands; [done..|]. by destruct r. }
  rewrite (option_fmap_ext _ snd) in Hres by done.
  destruct (search_update gk exact_key f k _ _ _ Hf Hk Hres) as (Hk' & Hlen & Hv).
  pose proof (search_view gk _ _ _ _ _ (proj1 Hk) Hres) as Hfound.
  rewrite Hst. cbn [mbind option_bind]. exists ht'. unfold hash_view. rewrite Hfound. split_ands.
  - by destruct r as [[]|].
  - split; [done|]. split; [done|]. by rewrite Hu', Hlen.
  - intros. eapply search_tables_room; [done|by auto].
  - done.
Qed.

Lemma extract_height k b b' n : tree_ok b → AvlTree.Extract b k = Some (b', Some n) → 0 ≤ node_height n.
Proof.
  intros [Hb Hh] Hx. destruct (avl_Extract_spec b k Hb Hh) as (b1 & n1 & Hx1 & _ & _ & Hn). simplify_eq. by apply Hn.
Qed.

Lemma shape_buckets ht : shape ht → Forall tree_ok (table (table1 ht)) ∧ Forall tree_ok (table (table2 ht)).
Proof.
  intros (n & Hw & Hp). split; [apply Hw|].
  destruct (phase_cases _ _ _ _ _ Hw Hp) as [(_ & _ & ->)|(_ & _ & Hw2 & _)]; [constructor|apply Hw2].
Qed.

Lemma tree_Extract_spec ht k :
  wf ht → exact_key k →
  ∃ ht' r, Extract ht k = Some (ht', r) ∧ node_value <$> r = view ht !! k ∧ wf ht'
    ∧ (hash_room ht → hash_room ht') ∧ view ht' = delete k (view ht) ∧ ∀ n, r = Some n → 0 ≤ node_height n.
Proof.
  intros Hw He. unfold Extract.
  destruct (tree_IncrementalRehash_wf ht Hw) as (ht1 & -> & Hw1 & Hp & Hr1). cbn [mbind option_bind].
  rewrite <-(hash_view_perm gk HASH_FUNC tree_ok exact_key ht ht1) by done.
  destruct Hw1 as (Hs & Hk & Hu).
  destruct (search_tables_wf gk HASH_FUNC tree_ok exact_key (λ b, AvlTree.Extract b k) node_value (λ _, []) k)
    with (ht := ht1) as (ht' & r & Hst & Hs' & Hu' & Hres); [set_solver|by intros; apply extract_in_spec|done|done|].
  destruct (search_extract gk exact_key k _ _ _ Hk Hres) as (Hk' & Hv & Hlen).
  pose proof (search_view gk _ _ _ _ _ (proj1 Hk) Hres) as Hfound.
  pose proof (search_tables_room _ _ _ _ _ Hst) as Hroom.
  rewrite Hst. cbn [mbind option_bind]. unfold hash_view. rewrite Hfound. destruct r as [[i x]|]; simpl in *.
  - exists (used_decr ht'), (Some x). change (all_elems (used_decr ht')) with (all_elems ht').
    split_ands; [done|done| |by auto|done|].
    2: { intros y [= <-]. destruct (shape_buckets _ Hs).
         by eapply (search_tables_found _ tree_ok _ (extract_height k)). }
    split; [by apply (hash_shape_used gk HASH_FUNC)|]. split; [done|].
    simpl. rewrite Hu', Hu, u64_pred_mod. f_equal. change (all_elems (used_decr ht')) with (all_elems ht'). lia.
  - exists ht', None. split_ands; [done|done| |by auto|done|done].
    split; [done|]. split; [done|]. rewrite Hu', Hu. f_equal. lia.
Qed.

(** ** Insertions *)

(** One bucket. *)
Lemma insert_bucket_spec b elem :
  tree_ok b → keys_ok (bucket_elems b) → exact_key (gk elem) →
  ∃ b' ok d, AvlTree.InsertWithDuplicate b elem = Some (b', ok, d) ∧ tree_ok b'
    ∧ if ok : bool then d = elem ∧ bucket_elems b' ≡ₚ elem :: bucket_elems b ∧ gk elem ∉ map gk (bucket_elems b)
      else d ∈ bucket_elems b ∧ gk d = gk elem ∧ bucket_elems b' = bucket_elems b.
Proof.
  intros [Hb Hh] Hk He. destruct (avl_InsertWithDuplicate_spec b elem Hb Hh) as (b' & ok & d & -> & Hh' & Hr).
  eexists _, _, _. split; [done|]. split; [split; [by eapply insert_result_bst|done]|].
  destruct ok.
  - split_ands; [by destruct Hr as [-> _]|by eapply insert_result_elems|].
    destruct Hr as (_ & Hf & _). by apply not_vcmp_keys.
  - destruct Hr as (Ht & Hd & Hc). split_ands; [done| |unfold bucket_elems, BucketElems_tree; by rewrite Ht].
    apply vcmp_exact; [by eapply keys_ok_elem|done..].
Qed.

(** The bucket of an element in one of the tables, and what the write of a
    new bucket there gives. *)
Lemma table_at_bucket ht i k :
  wf ht → (i = 0 ∨ i = 1 ∧ InRehashing ht = true) →
  ∃ b rest, bucket_get (table_at ht i) (bucket_index (table_at ht i) (HASH_FUNC k)) = Some b
    ∧ tree_ok b ∧ keys_ok (bucket_elems b) ∧ all_elems ht ≡ₚ bucket_elems b ++ rest
    ∧ ∀ b', tree_ok b' → (∀ x, x ∈ bucket_elems b' → x ∈ bucket_elems b ∨ gk x = k) →
        (i = 0 → InRehashing ht = true → rehash_move_bucket_index_ ht ≤ bucket_index (table1 ht) (HASH_FUNC k)) →
        ∃ t rest', bucket_set (table_at ht i) (bucket_index (table_at ht i) (HASH_FUNC k)) b' = Some t
          ∧ shape (set_table_at ht i t) ∧ used (table1 (set_table_at ht i t)) = used (table1 ht)
          ∧ all_elems ht ≡ₚ bucket_elems b ++ rest' ∧ all_elems (set_table_at ht i t) ≡ₚ bucket_elems b' ++ rest'.
Proof.
  intros (Hs & Hk & _) Hi. destruct Hi as [->|[-> Hin]].
  - change (table_at ht 0) with (table1 ht). change (set_table_at ht 0) with (set_table1 ht).
    destruct (bucket1_fits gk HASH_FUNC tree_ok ht (HASH_FUNC k) Hs) as (b & Hg & Hf & Hmv).
    destruct (update_bucket1 gk HASH_FUNC tree_ok ht _ b b Hs Hg Hf Hmv) as (_ & _ & _ & _ & rest & Hr & _).
    exists b, rest. split_ands; [done|apply Hf|by rewrite Hr in Hk; apply keys_wf_app_l in Hk|done|].
    intros b' Hb' Hsub Hge.
    destruct (update_bucket1 gk HASH_FUNC tree_ok ht _ b b' Hs Hg) as (t & ? & ? & ? & rest' & ? & ?).
    + eapply fits_sub; [done..|]. intros x [?| ->]%Hsub; auto.
    + intros Hin Hlt. specialize (Hge eq_refl Hin). lia.
    + exists t, rest'. done.
  - change (table_at ht 1) with (table2 ht). change (set_table_at ht 1) with (set_table2 ht).
    destruct (bucket2_fits gk HASH_FUNC tree_ok ht (HASH_FUNC k) Hs Hin) as (b & Hg & Hf).
    destruct (update_bucket2 gk HASH_FUNC tree_ok ht _ b b Hs Hin Hg Hf) as (_ & _ & _ & rest & Hr & _).
    exists b, rest. split_ands; [done|apply Hf|by rewrite Hr in Hk; apply keys_wf_app_l in Hk|done|].
    intros b' Hb' Hsub _.
    destruct (update_bucket2 gk HASH_FUNC tree_ok ht _ b b' Hs Hin Hg) as (t & ? & ? & rest' & ? & ?).
    + eapply fits_sub; [done..|]. intros x [?| ->]%Hsub; auto.
    + exists t, rest'. done.
Qed.

(** The other bucket, where the key could also be, does not have it. *)
Definition elsewhere_not (i : Z) ht k : Prop :=
  ∀ b, bucket_get (table_at ht i) (bucket_index (table_at ht i) (HASH_FUNC k)) = Some b →
    k ∉ map gk (bucket_elems b) → k ∉ map gk (all_elems ht).

Lemma insert_in_spec i ht elem :
  wf ht → exact_key (gk elem) → (i = 0 ∨ i = 1 ∧ InRehashing ht = true) →
  (i = 0 → InRehashing ht = true → rehash_move_bucket_index_ ht ≤ bucket_index (table1 ht) (HASH_FUNC (gk elem))) →
  elsewhere_not i ht (gk elem) →
  ∃ ht' ok dup, insert_in i ht elem = Some (ht', ok, dup) ∧ wf ht' ∧ insert_effect gk ht elem ht' ok dup.
Proof.
  intros Hw He Hi Hge Hels. unfold insert_in.
  destruct (table_at_bucket ht i (gk elem) Hw Hi) as (b & rest & Hg & Hb & Hkb & Hr & Hset).
  specialize (Hels b Hg). rewrite Hg. cbn [mbind option_bind].
  destruct (insert_bucket_spec b elem Hb Hkb He) as (b' & ok & d & -> & Hb' & Hres). cbn [mbind option_bind].
  destruct (Hset b' Hb') as (t & rest' & -> & Hs' & Hu' & Hp & Hp'); [|done|].
  { intros x Hx. destruct ok; [destruct Hres as (_ & Hp & _)|destruct Hres as (_ & _ & Hp)]; rewrite Hp in Hx;
      set_solver. }
  cbn [mbind option_bind]. eexists _, _, _. split; [done|]. destruct ok; cbn [count_if].
  - destruct Hres as (-> & Hel & Hn).
    apply (insert_effect_new gk HASH_FUNC tree_ok exact_key); [done|done|by apply Hels|done|done|].
    by rewrite Hp', Hel, Hp.
  - destruct Hres as (Hd & Hgd & Hel).
    assert (all_elems (set_table_at ht i t) ≡ₚ all_elems ht) as Ha by (by rewrite Hp', Hel, Hp).
    split.
    + destruct Hw as (_ & Hk & Hu). split; [done|]. rewrite Ha. split; [done|congruence].
    + eapply (insert_effect_dup gk HASH_FUNC tree_ok exact_key); [done|rewrite Hr; set_solver|done|done].
Qed.

Lemma elsewhere_idle ht k : wf ht → InRehashing ht = false → elsewhere_not 0 ht k.
Proof.
  intros (Hs & _) Hin b Hg Hn. eapply (not_in_buckets gk HASH_FUNC tree_ok); [done|exact Hg|done|]. by rewrite Hin.
Qed.

(** The bucket of the first table has been moved. *)
Lemma elsewhere_moved ht k :
  wf ht → InRehashing ht = true → bucket_index (table1 ht) (HASH_FUNC k) < rehash_move_bucket_index_ ht →
  elsewhere_not 1 ht k.
Proof.
  intros (Hs & _) Hin Hlt b Hg Hn. destruct (bucket1_fits gk HASH_FUNC tree_ok ht (HASH_FUNC k) Hs) as (b1 & Hg1 & _ & Hmv).
  eapply (not_in_buckets gk HASH_FUNC tree_ok); [done|exact Hg1| |by eauto]. rewrite (Hmv Hin Hlt). set_solver.
Qed.

Lemma elsewhere_checked ht k b2 :
  wf ht → bucket_get (table2 ht) (bucket_index (table2 ht) (HASH_FUNC k)) = Some b2 →
  k ∉ map gk (bucket_elems b2) → elsewhere_not 0 ht k.
Proof.
  intros (Hs & _) Hg2 Hn2 b Hg Hn. eapply (not_in_buckets gk HASH_FUNC tree_ok); [done|exact Hg|done|]. eauto.
Qed.

(** [Find] in one bucket. *)
Lemma find_bucket_spec b k :
  tree_ok b → keys_ok (bucket_elems b) → exact_key k →
  match AvlTree.Find b k with
  | Some y => y ∈ bucket_elems b ∧ gk y = k
  | None => k ∉ map gk (bucket_elems b)
  end.
Proof.
  intros [Hb _] Hk He. unfold AvlTree.Find, AvlTree.FindNode.
  pose proof (find_node_spec k (root_ b) [] Hb) as Hf. destruct (find_node k (root_ b) []) as [x|].
  - destruct Hf as (v & Hv & Hc & Hin & _). simpl. rewrite Hv. split; [done|].
    apply vcmp_exact; [by eapply keys_ok_elem|done..].
  - by apply not_vcmp_keys.
Qed.

Lemma tree_insert_checked_spec ht elem :
  wf ht → exact_key (gk elem) →
  ∃ ht' ok dup, insert_checked ht elem = Some (ht', ok, dup) ∧ wf ht' ∧ insert_effect gk ht elem ht' ok dup.
Proof.
  intros Hw He. unfold insert_checked. destruct (InRehashing ht) eqn:Hin; cbn [negb].
  2: { apply insert_in_spec; [done|done|by left|by rewrite Hin|by apply elsewhere_idle]. }
  destruct (Z.ltb_spec (bucket_index (table1 ht) (HASH_FUNC (gk elem))) (rehash_move_bucket_index_ ht)).
  { apply insert_in_spec; [done|done|by right|done|by apply elsewhere_moved]. }
  destruct (table_at_bucket ht 1 (gk elem) Hw) as (b2 & rest & Hg2 & Hb2 & Hk2 & Hr2 & _); [by right|].
  change (table_at ht 1) with (table2 ht) in Hg2. rewrite Hg2. cbn [mbind option_bind].
  pose proof (find_bucket_spec b2 (gk elem) Hb2 Hk2 He) as Hf. destruct (AvlTree.Find b2 (gk elem)) as [y|].
  - eexists _, _, _. split; [done|]. split; [done|].
    eapply (insert_effect_dup gk HASH_FUNC tree_ok exact_key); [done|rewrite Hr2; set_solver|apply Hf|done].
  - apply insert_in_spec; [done|done|by left|done|by eapply elsewhere_checked].
Qed.

Lemma set_table_at_room ht i j b t :
  bucket_set (table_at ht i) j b = Some t → hash_room ht → hash_room (set_table_at ht i t).
Proof.
  intros Ht%bucket_set_size [? ?]. unfold set_table_at, table_at in *. case_match; split; simpl; by rewrite ?Ht.
Qed.

Lemma count_if_room ok ht : hash_room ht → hash_room (count_if ok ht).
Proof. by destruct ok. Qed.

Lemma tree_insert_checked_room ht elem ht' ok dup :
  insert_checked ht elem = Some (ht', ok, dup) → hash_room ht → hash_room ht'.
Proof.
  assert (∀ i, insert_in i ht elem = Some (ht', ok, dup) → hash_room ht → hash_room ht') as Hin.
  { intros i. unfold insert_in. intros (b & _ & ([[b' s] d] & _ & (t & Ht & [= <- _ _])%bind_Some)%bind_Some)%bind_Some Hr.
    apply count_if_room. by eapply set_table_at_room. }
  unfold insert_checked. repeat case_match; [by apply Hin|by apply Hin|].
  intros (b & _ & Hb)%bind_Some. case_match; [by simplify_eq|by eapply Hin].
Qed.

Lemma tree_InsertWithDuplicate_spec ht elem :
  wf ht → Z.of_nat (size (view ht)) + drift < max_elems → hash_room ht → exact_key (gk elem) →
  ∃ ht' ok dup, InsertWithDuplicate ht elem = Some (ht', ok, dup) ∧ wf ht' ∧ hash_room ht'
    ∧ insert_effect gk ht elem ht' ok dup.
Proof.
  intros Hw Hsz Hr He. unfold InsertWithDuplicate.
  destruct (tree_rehash_both_wf ht Hw Hsz Hr) as (ht1 & -> & Hw1 & Hp & Hr1). cbn [mbind option_bind].
  destruct (tree_insert_checked_spec ht1 elem Hw1 He) as (ht' & ok & dup & Hi & ? & Heff). eexists _, _, _.
  split_ands; [done..|by eapply tree_insert_checked_room|].
  unfold insert_effect in *. by rewrite (hash_view_perm gk HASH_FUNC tree_ok exact_key ht ht1) in Heff.
Qed.

(** ** Clearing *)

Lemma AvlTree_Clear_nil b : ∃ b', AvlTree.Clear b = Some b' ∧ root_ b' = Null.
Proof. unfold AvlTree.Clear. rewrite ReuseAllNodes_spec. eexists; split; [done|done]. Qed.

Lemma nulls_wf u (bs : list (AvlTreeBase D V)) :
  length bs = 4%nat → Forall (λ b, root_ b = Null) bs → table_wf gk HASH_FUNC tree_ok 2 (MkTable bs u 3).
Proof.
  intros Hl Hn. rewrite Forall_forall in Hn. unfold table_wf, sized, table_size, asize. cbn [table size_mask].
  rewrite Hl. split_ands; [done..| |].
  - intros i b x Hb Hx. apply list_elem_of_lookup_2 in Hb. unfold bucket_elems, BucketElems_tree in Hx.
    rewrite (Hn b Hb) in Hx. set_solver.
  - apply Forall_forall. intros b Hb. unfold tree_ok. rewrite (Hn b Hb). split; [constructor|done].
Qed.

Lemma nulls_elems (bs : list (AvlTreeBase D V)) : Forall (λ b, root_ b = Null) bs → elems (T := V) bs = [].
Proof.
  intros Hn. induction Hn as [|b bs Hb _ IH]; [done|].
  change (inorder (root_ b) ++ elems (T := V) bs = []). by rewrite Hb, IH.
Qed.

(** [Shrink(4)] of a table keeps its first four buckets. *)
Lemma table_Shrink_4 (n : Z) t :
  table_wf gk HASH_FUNC tree_ok n t →
  ∃ a b c d, table_Shrink t 4 = MkTable [a; b; c; d] (used t) 3.
Proof.
  intros ((Hn & Hsz & _) & _). pose proof (Z.pow_le_mono_r 2 2 n ltac:(lia) Hn) as H4.
  unfold table_size, asize in Hsz. unfold table_Shrink, Shrink, asize.
  destruct (table t) as [|a [|b [|c [|d rest]]]]; cbn [length] in Hsz; try lia.
  exists a, b, c, d. case_match eqn:Hz; [|done]. apply Z.leb_le in Hz. cbn [length] in Hz.
  destruct rest; [done|cbn [length] in Hz; lia].
Qed.

Lemma cleared_wf bs u t2 :
  length bs = 4%nat → Forall (λ b, root_ b = Null) bs → table t2 = [] →
  let ht' := MkHash (set_used (MkTable bs u 3) 0) t2 npos in
  hash_wf gk HASH_FUNC tree_ok exact_key (dr := no_drift) ht' ∧ hash_room ht' ∧ view ht' = ∅.
Proof.
  intros Hl Hn Hnil ht'.
  assert (all_elems ht' = []) as He by (unfold all_elems, ht'; cbn; by rewrite Hnil, nulls_elems).
  split_ands.
  - split; [|rewrite He; split; [split; constructor|done]]. exists 2. split; [by apply nulls_wf|by left].
  - unfold hash_room, ht', table_size, asize. cbn [table1 table2 set_used table]. rewrite Hl, Hnil. simpl. lia.
  - unfold hash_view. by rewrite He.
Qed.

Lemma tree_Clear_spec ht : wf ht → ∃ ht', Clear ht = Some ht' ∧ hash_wf gk HASH_FUNC tree_ok exact_key (dr := no_drift) ht' ∧ hash_room ht' ∧ view ht' = ∅.
Proof.
  intros ((n & Hw1 & Hph) & _ & _). unfold Clear.
  destruct (table_Shrink_4 n _ Hw1) as (a & b & c & d & ->).
  destruct (AvlTree_Clear_nil a) as (a' & Ha & Ha'), (AvlTree_Clear_nil b) as (b' & Hb & Hb'),
    (AvlTree_Clear_nil c) as (c' & Hc & Hc'), (AvlTree_Clear_nil d) as (d' & Hd & Hd').
  assert (clear_buckets 4 0 (MkTable [a; b; c; d] (used (table1 ht)) 3)
    = Some (MkTable [a'; b'; c'; d'] (used (table1 ht)) 3)) as ->.
  { transitivity (a' ← AvlTree.Clear a; b' ← AvlTree.Clear b; c' ← AvlTree.Clear c; d' ← AvlTree.Clear d;
      Some (MkTable [a'; b'; c'; d'] (used (table1 ht)) 3)); [reflexivity|]. by rewrite Ha, Hb, Hc, Hd. }
  cbn [mbind option_bind]. eexists. split; [done|]. apply cleared_wf; [done|by repeat constructor|].
  destruct (phase_cases _ _ _ _ _ Hw1 Hph) as [(-> & _ & ?)|(-> & _)]; [done|].
  apply (tree_Reset_nil (table2 ht)).
Qed.

Abbreviation concat_of := (elems (B := AvlTreeBase D V) (T := V)).

Lemma tree_elems_cons b bs : concat_of (b :: bs) = inorder (root_ b) ++ concat_of bs.
Proof. done. Qed.

Lemma clear_apply_spec mid pre post u m :
  ∃ mid' vs, clear_apply (length mid) (Z.of_nat (length pre)) (MkTable (pre ++ mid ++ post) u m)
      = Some (MkTable (pre ++ mid' ++ post) u m, vs)
    ∧ length mid' = length mid ∧ Forall (λ b : AvlTreeBase D V, root_ b = Null) mid' ∧ vs ≡ₚ concat_of mid.
Proof.
  revert pre. induction mid as [|b mid IH]; intros pre.
  { exists [], []. by split_ands. }
  cbn [clear_apply length app]. unfold bucket_get, bucket_set, aget, aset, asize. cbn [table].
  destruct (Z.leb_spec 0 (Z.of_nat (length pre))); [|lia].
  rewrite Nat2Z.id, lookup_app_r, Nat.sub_diag by lia. cbn [lookup list_lookup mbind option_bind andb].
  unfold AvlTree.ClearApply. rewrite ReuseAllNodes_spec. cbn [mbind option_bind].
  rewrite length_app. destruct (Z.ltb_spec (Z.of_nat (length pre)) (Z.of_nat (length pre + length (b :: mid ++ post))));
    [|simpl in *; lia].
  cbn [mbind option_bind]. rewrite insert_app_r_alt, Nat.sub_diag by lia. cbn [insert list_insert used size_mask].
  set (b' := MkAvlTreeBase Null (_SetCount 0 (count_ b))).
  destruct (IH (pre ++ [b'])) as (mid' & vs & Hc & Hl & Hn & Hv).
  rewrite length_app in Hc. cbn [length] in Hc.
  replace (pre ++ b' :: mid ++ post) with ((pre ++ [b']) ++ mid ++ post) by (by app_norm).
  replace (Z.of_nat (length pre) + 1) with (Z.of_nat (length pre + 1)) by lia.
  rewrite Hc. cbn [mbind option_bind]. exists (b' :: mid'), (map node_value (map (λ v, MkDetached v 0) (postorder (root_ b))) ++ vs).
  split_ands; [by app_norm|simpl; by rewrite Hl|by constructor|].
  rewrite tree_elems_cons, Hv, map_map. cbn [node_value]. by rewrite map_id, postorder_perm.
Qed.

Lemma ClearApply_spec ht :
  wf ht →
  ∃ ht' vs, ClearApply ht = Some (ht', vs) ∧ vs ≡ₚ all_elems ht ∧ hash_wf gk HASH_FUNC tree_ok exact_key (dr := no_drift) ht' ∧ hash_room ht' ∧ view ht' = ∅.
Proof.
  intros ((n & Hw1 & Hph) & _ & _). unfold ClearApply.
  pose proof Hw1 as ((Hn & Hsz & Hm) & _). pose proof (Z.pow_le_mono_r 2 2 n ltac:(lia) Hn) as H4.
  destruct (table1 ht) as [tbl u m] eqn:E1. unfold table_size, asize in Hsz. cbn [table size_mask] in *. subst m.
  destruct tbl as [|a [|b [|c [|d rest]]]]; cbn [length] in Hsz; try lia.
  destruct (clear_apply_spec rest [a; b; c; d] [] u (2 ^ n - 1)) as (rest' & vs1 & Hc1 & Hl1 & Hn1 & Hv1).
  rewrite !app_nil_r in Hc1.
  replace (Z.to_nat (table_size (MkTable (a :: b :: c :: d :: rest) u (2 ^ n - 1)) - 4)) with (length rest)
    by (unfold table_size, asize; simpl; lia).
  change (Z.of_nat (length [a; b; c; d])) with 4 in Hc1. cbn [app] in Hc1. rewrite Hc1. cbn [mbind option_bind].
  assert (table_Shrink (MkTable (a :: b :: c :: d :: rest') u (2 ^ n - 1)) 4 = MkTable [a; b; c; d] u 3) as ->.
  { unfold table_Shrink, Shrink, asize. cbn [table length used].
    destruct (Z.leb_spec (Z.of_nat (S (S (S (S (length rest')))))) 4); [|done]. destruct rest'; [done|simpl in *; lia]. }
  destruct (clear_apply_spec [a; b; c; d] [] [] u 3) as (four & vs2 & Hc2 & Hl2 & Hn2 & Hv2).
  cbn [app] in Hc2. rewrite app_nil_r in Hc2. change (Z.of_nat (length (@nil (AvlTreeBase D V)))) with 0 in Hc2.
  change (length [a; b; c; d]) with 4%nat in Hc2. rewrite Hc2. cbn [mbind option_bind].
  assert (concat_of (a :: b :: c :: d :: rest) ≡ₚ vs1 ++ vs2) as Hp1.
  { rewrite Hv1, Hv2, (Permutation_app_comm (concat_of rest)). rewrite <-elems_app. done. }
  destruct (phase_cases gk HASH_FUNC tree_ok n ht) as [(-> & _ & Hnil)|(-> & _ & _ & _)]; [by rewrite E1|done| |].
  - eexists _, _. split; [done|]. split; [|by apply cleared_wf].
    unfold all_elems. rewrite E1, Hnil. cbn [table]. by rewrite Hp1, app_nil_r.
  - destruct (table2 ht) as [tbl2 u2 m2] eqn:E2.
    destruct (clear_apply_spec tbl2 [] [] u2 m2) as (tbl2' & vs3 & Hc3 & _ & _ & Hv3).
    cbn [app] in Hc3. rewrite !app_nil_r in Hc3. unfold table_size, asize. cbn [table]. rewrite Nat2Z.id.
    change (Z.of_nat (length (@nil (AvlTreeBase D V)))) with 0 in Hc3. rewrite Hc3. cbn [mbind option_bind].
    eexists _, _. split; [done|]. split; [|apply cleared_wf; [done|done|apply (tree_Reset_nil (MkTable tbl2' u2 m2))]].
    unfold all_elems. rewrite E1, E2. cbn [table]. by rewrite Hp1, Hv3, app_assoc.
Qed.

(** ** Iteration *)

(** The values from a node of a bucket on. *)
Definition node_rest (x : pos V) : list V :=
  match pos_val x with Some v => v :: pos_after x | None => [] end.

Lemma tree_first_bucket_spec (buckets : list (AvlTreeBase D V)) j :
  match first_bucket buckets j with
  | Some (j', r) => ∃ x v pre post, r = Some x ∧ pos_val x = Some v
      ∧ concat_of buckets = v :: pos_after x ++ concat_of post ∧ length buckets = (length pre + S (length post))%nat
      ∧ drop (S (length pre)) buckets = post ∧ j' = j + Z.of_nat (length (pre : list unit))
  | None => concat_of buckets = []
  end.
Proof.
  revert j. induction buckets as [|b buckets IH]; intros j; cbn [first_bucket]; [done|].
  rewrite tree_elems_cons. destruct (root_ b) as [|l v h r] eqn:Hroot.
  - specialize (IH (j + 1)). destruct (first_bucket buckets (j + 1)) as [[j' r]|]; [|done].
    destruct IH as (x & v & pre & post & ? & ? & Hc & Hl & Hd & ->).
    exists x, v, (() :: pre), post. split_ands; try done; cbn [length]; [by rewrite Hl|lia].
  - pose proof (_GetFirstNode_spec (Node l v h r)) as Hf. destruct (_GetFirstNode (Node l v h r, [])) as [x|].
    2: { simpl in Hf. by destruct (inorder l). }
    destruct Hf as (w & Hw & Hr & Hb). exists x, w, [], buckets. split_ands; try done; [|simpl; lia].
    pose proof (pos_inorder x w Hw) as Hi. rewrite Hr, Hb in Hi. rewrite Hi. done.
Qed.

Abbreviation iter := (TreeHashTableIterator (V := V)).

(** What an iterator has still to visit. *)
Definition remaining ht (it : iter) : list V :=
  match slot_ it with
  | None => []
  | Some x =>
      node_rest x
      ++ concat_of (drop (Z.to_nat (bucket_index_ it + 1)) (table (table_at ht (table_index_ it))))
      ++ (if table_index_ it =? 0 then concat_of (table (table2 ht)) else [])
  end.

Definition iter_ok ht (it : iter) : Prop :=
  (table_index_ it = 0 ∨ table_index_ it = 1)
  ∧ ∀ x, slot_ it = Some x → is_Some (pos_val x) ∧ 0 ≤ bucket_index_ it < table_size (table_at ht (table_index_ it)).

(** Resuming after the bucket [j]. *)
Lemma tree_first_bucket_remaining ht i j :
  sizes_ok ht → i = 0 ∨ i = 1 → -1 ≤ j < npos →
  match first_bucket (drop (Z.to_nat (j + 1)) (table (table_at ht i))) (j + 1) with
  | Some (j', r) => iter_ok ht (MkTreeIter i j' r)
      ∧ remaining ht (MkTreeIter i j' r) =
          concat_of (drop (Z.to_nat (j + 1)) (table (table_at ht i)))
          ++ (if i =? 0 then concat_of (table (table2 ht)) else [])
  | None => concat_of (drop (Z.to_nat (j + 1)) (table (table_at ht i))) = []
  end.
Proof.
  intros Hsz Hi Hj. pose proof (tree_first_bucket_spec (drop (Z.to_nat (j + 1)) (table (table_at ht i))) (j + 1)) as Hf.
  destruct (first_bucket _ _) as [[j' r]|]; [|done].
  destruct Hf as (x & v & pre & post & -> & Hv & Hc & Hl & Hd & ->).
  rewrite length_drop in Hl. pose proof (table_at_size ht i Hsz) as Hs. unfold table_size, asize in Hs. split.
  - unfold iter_ok. cbn [table_index_ bucket_index_ slot_]. split; [done|].
    intros y [= <-]. rewrite Hv. split; [done|]. unfold table_size, asize. lia.
  - unfold remaining, node_rest. cbn [table_index_ bucket_index_ slot_]. rewrite Hv, Hc.
    replace (Z.to_nat (j + 1 + Z.of_nat (length pre) + 1)) with (Z.to_nat (j + 1) + S (length pre))%nat by lia.
    rewrite <-drop_drop, Hd. by app_norm.
Qed.

Lemma tree_table2_remaining ht :
  sizes_ok ht →
  match first_bucket (table (table2 ht)) 0 with
  | Some (j, r) => iter_ok ht (MkTreeIter 1 j r) ∧ remaining ht (MkTreeIter 1 j r) = concat_of (table (table2 ht))
  | None => concat_of (table (table2 ht)) = []
  end.
Proof.
  intros Hs. pose proof (tree_first_bucket_remaining ht 1 (-1) Hs ltac:(lia) ltac:(unfold npos; lia)) as Hf.
  change (Z.to_nat (-1 + 1)) with 0%nat in Hf. change (-1 + 1) with 0 in Hf.
  change (table_at ht 1) with (table2 ht) in Hf. rewrite drop_0, app_nil_r in Hf. done.
Qed.

Lemma iter_ok_end ht : iter_ok ht (MkTreeIter 1 npos None).
Proof. split; [by right|done]. Qed.

Lemma tree_Increment_spec ht (it : iter) x v :
  sizes_ok ht → iter_ok ht it → slot_ it = Some x → pos_val x = Some v →
  ∃ it', Increment ht it = Some it' ∧ remaining ht it = v :: remaining ht it' ∧ iter_ok ht it'.
Proof.
  intros Hs (Hti & Hok) Hsl Hv. destruct (Hok x Hsl) as [_ Hlt].
  pose proof (table_at_size ht (table_index_ it) Hs) as Hsz. unfold Increment. rewrite Hsl. cbn [mbind option_bind].
  eexists; split; [done|]. unfold remaining at 1. rewrite Hsl. unfold node_rest. rewrite Hv.
  pose proof (_GetNextNode_spec x v Hv) as Hn. destruct (_GetNextNode x) as [y|].
  { destruct Hn as (w & Hw & _ & _ & Ha). unfold remaining, node_rest. cbn [slot_ bucket_index_ table_index_].
    rewrite Hw, Ha. split; [done|]. split; [done|]. cbn [slot_ bucket_index_ table_index_].
    intros z [= <-]. by rewrite Hw. }
  rewrite Hn. cbn [app].
  assert (bucket_index_ it ⊞ 1 = bucket_index_ it + 1) as Hb1 by (apply u64_small; unfold npos in *; lia).
  pose proof (tree_first_bucket_remaining ht (table_index_ it) (bucket_index_ it) Hs Hti ltac:(lia)) as Hf.
  destruct Hti as [Hti|Hti]; rewrite Hti in *;
    change (Z.to_nat (2 - 0)) with 2%nat; change (Z.to_nat (2 - 1)) with 1%nat; cbn [increment_loop];
    rewrite Hti, Hb1; cbn [Z.eqb] in *.
  - destruct (first_bucket _ _) as [[j r]|].
    { destruct Hf as (? & ->). done. }
    cbn [bucket_index_ table_index_]. change (npos ⊞ 1) with 0. change (Z.to_nat 0) with 0%nat.
    change (table_at ht 1) with (table2 ht). rewrite drop_0, Hf. change (0 + 1) with 1.
    pose proof (tree_table2_remaining ht Hs) as Hf2. destruct (first_bucket (table (table2 ht)) 0) as [[j r]|].
    { destruct Hf2 as (? & ->). done. }
    rewrite Hf2. split; [done|]. apply iter_ok_end.
  - destruct (first_bucket _ _) as [[j r]|].
    { destruct Hf as (? & ->). done. }
    rewrite Hf. split; [done|]. apply iter_ok_end.
Qed.

Lemma tree_iterate_spec ht (it : iter) fuel :
  sizes_ok ht → iter_ok ht it → (length (remaining ht it) ≤ fuel)%nat →
  iterate fuel ht it = Some (remaining ht it).
Proof.
  intros Hs. revert it. induction fuel as [|fuel IH]; intros it Hok Hlen; cbn [iterate];
    (destruct (slot_ it) as [x|] eqn:Hsl; [|unfold remaining; by rewrite Hsl]);
    destruct (proj2 Hok x Hsl) as [[v Hv] _].
  - unfold remaining, node_rest in Hlen. rewrite Hsl, Hv in Hlen. simpl in Hlen. lia.
  - destruct (tree_Increment_spec ht it x v Hs Hok Hsl Hv) as (it' & -> & Hr & Hok'). rewrite Hv, Hr in *. simpl in *.
    by rewrite IH by (done || lia).
Qed.

Lemma tree_begin_spec ht : sizes_ok ht → iter_ok ht (begin ht) ∧ remaining ht (begin ht) = all_elems ht.
Proof.
  intros Hs. unfold begin, all_elems.
  pose proof (tree_first_bucket_remaining ht 0 (-1) Hs ltac:(lia) ltac:(unfold npos; lia)) as Hf.
  change (Z.to_nat (-1 + 1)) with 0%nat in Hf. change (-1 + 1) with 0 in Hf.
  change (table_at ht 0) with (table1 ht) in Hf. rewrite drop_0 in Hf.
  destruct (first_bucket (table (table1 ht)) 0) as [[j r]|]; [done|].
  pose proof (tree_table2_remaining ht Hs) as Hf2. rewrite Hf.
  destruct (first_bucket (table (table2 ht)) 0) as [[j r]|]; [done|].
  rewrite Hf2. split; [|done]. split; [by left|done].
Qed.

(** ** Pushing a node back *)

Lemma push_in_spec i ht n :
  wf ht → exact_key (gk (node_value n)) → 0 ≤ node_height n → (i = 0 ∨ i = 1 ∧ InRehashing ht = true) →
  (i = 0 → InRehashing ht = true →
     rehash_move_bucket_index_ ht ≤ bucket_index (table1 ht) (HASH_FUNC (gk (node_value n)))) →
  gk (node_value n) ∉ map gk (all_elems ht) →
  ∃ ht', push_in i ht n false = Some (ht', true) ∧ shape ht' ∧ used (table1 ht') = used (table1 ht)
    ∧ InRehashing ht' = InRehashing ht ∧ (i = 0 → table2 ht' = table2 ht)
    ∧ all_elems ht' ≡ₚ node_value n :: all_elems ht ∧ (hash_room ht → hash_room ht').
Proof.
  intros Hw He Hh Hi Hge Hn. unfold push_in.
  destruct (table_at_bucket ht i (gk (node_value n)) Hw Hi) as (b & rest & Hg & [Hb Hbh] & Hkb & Hr & Hset).
  rewrite Hg. cbn [mbind option_bind].
  destruct (PushWithDuplicate_spec b n Hb Hbh Hh) as (b' & ok & d & -> & Hh' & Hres). cbn [mbind option_bind].
  assert (ok = true) as ->.
  { destruct ok; [done|]. destruct Hres as (_ & Hd & Hc). exfalso. apply Hn.
    apply vcmp_exact in Hc; [|by eapply keys_ok_elem|done]. rewrite <-Hc. apply list_elem_of_fmap. exists d.
    split; [done|]. rewrite Hr. apply elem_of_app. by left. }
  pose proof (insert_result_elems _ _ _ _ Hres) as Hel.
  destruct (Hset b') as (t & rest' & Ht & Hs' & Hu' & Hp & Hp'); [|  |done|].
  { split; [by eapply insert_result_bst|done]. }
  { intros x. change (bucket_elems b') with (inorder (root_ b')). rewrite Hel. set_solver. }
  rewrite Ht. cbn [mbind option_bind]. eexists. split; [done|]. split_ands; [done|done| | |  |].
  - unfold set_table_at. by case_match.
  - by intros ->.
  - rewrite Hp', Hp. change (bucket_elems b') with (inorder (root_ b')). by rewrite Hel.
  - by eapply set_table_at_room.
Qed.

Lemma push_checked_new ht n :
  wf ht → exact_key (gk (node_value n)) → 0 ≤ node_height n → gk (node_value n) ∉ map gk (all_elems ht) →
  ∃ ht', push_checked ht n false = Some (used_incr ht', true) ∧ shape ht' ∧ used (table1 ht') = used (table1 ht)
    ∧ all_elems ht' ≡ₚ node_value n :: all_elems ht ∧ (hash_room ht → hash_room ht').
Proof.
  intros Hw He Hh Hn. unfold push_checked. destruct (InRehashing ht) eqn:Hin; cbn [negb].
  2: { destruct (push_in_spec 0 ht n) as (ht' & -> & ? & ? & _ & _ & ? & ?);
         [done|done|done|by left|by rewrite Hin|done|]. by exists ht'. }
  destruct (Z.ltb_spec (bucket_index (table1 ht) (HASH_FUNC (gk (node_value n)))) (rehash_move_bucket_index_ ht)).
  { destruct (push_in_spec 1 ht n) as (ht' & -> & ? & ? & _ & _ & ? & ?); [done|done|done|by right|done|done|].
    by exists ht'. }
  destruct (push_in_spec 0 ht n) as (ht' & -> & ? & ? & _ & Ht2 & ? & ?); [done|done|done|by left|done|done|].
  cbn [mbind option_bind]. rewrite Ht2 by done.
  destruct (table_at_bucket ht 1 (gk (node_value n)) Hw) as (b2 & rest & Hg2 & Hb2 & Hk2 & Hr2 & _); [by right|].
  change (table_at ht 1) with (table2 ht) in Hg2. rewrite Hg2. cbn [mbind option_bind].
  pose proof (find_bucket_spec b2 _ Hb2 Hk2 He) as Hf. destruct (AvlTree.Find b2 _) as [y|]; [|by exists ht'].
  destruct Hf as [Hy Hgy]. exfalso. apply Hn. rewrite <-Hgy. apply list_elem_of_fmap. exists y. split; [done|].
  rewrite Hr2. set_solver.
Qed.

Lemma Push_spec ht n :
  wf ht → Z.of_nat (size (view ht)) + drift < max_elems → hash_room ht → exact_key (gk (node_value n)) →
  0 ≤ node_height n → view ht !! gk (node_value n) = None →
  ∃ ht', Push ht n = Some (ht', true) ∧ wf ht' ∧ hash_room ht'
    ∧ view ht' = <[gk (node_value n) := node_value n]> (view ht).
Proof.
  intros Hw Hsz Hr He Hh Hnone. unfold Push, PushWithDuplicate.
  destruct (tree_rehash_both_wf ht Hw Hsz Hr) as (ht1 & -> & Hw1 & Hp & Hr1). cbn [mbind option_bind].
  rewrite <-(hash_view_perm gk HASH_FUNC tree_ok exact_key ht ht1) in * by done.
  assert (gk (node_value n) ∉ map gk (all_elems ht1)) as Hn.
  { intros (y & Hy & Hin)%list_elem_of_fmap. pose proof Hw1 as (_ & [Hnd _] & _).
    pose proof (kmap_lookup gk _ y Hnd Hin) as Hl. unfold hash_view in Hnone. congruence. }
  destruct (push_checked_new ht1 n Hw1 He Hh Hn) as (ht' & -> & Hs' & Hu' & Hp' & Hr').
  destruct (hash_insert_wf gk HASH_FUNC tree_ok exact_key ht1 ht' (node_value n)) as [? ?]; [done..|].
  eexists. split; [done|]. split; [done|]. split; [|done]. by apply Hr'.
Qed.

(** ** Erasing the node that was found *)

Lemma bucket_set_get {B} (t t' : Table B) j (b : B) :
  bucket_set t j b = Some t' → bucket_get t' j = Some b ∧ ∀ h, bucket_index t' h = bucket_index t h.
Proof.
  unfold bucket_set, bucket_get, aset, aget, asize. intros (l & Hl & [= <-])%bind_Some. cbn [table].
  destruct ((0 <=? j) && (j <? Z.of_nat (length (table t)))) eqn:Hj; [|done]. injection Hl as <-.
  apply andb_prop in Hj as [Hj0 Hj1]. apply Z.ltb_lt in Hj1. rewrite Hj0. apply Z.leb_le in Hj0. split; [|done].
  apply list_lookup_insert_eq. lia.
Qed.

Lemma find_in_bucket k (t t' : Table (AvlTreeBase D V)) x :
  search_bucket (find_node_in k) (HASH_FUNC k) t = Some (t', Some x) →
  ∃ b, bucket_get t' (bucket_index t' (HASH_FUNC k)) = Some b ∧ AvlTree.FindNode b k = Some x.1.
Proof.
  intros (b & Hg & ([b' r] & Hb & (t'' & Ht & [= -> ->])%bind_Some)%bind_Some)%bind_Some.
  unfold find_node_in in Hb. injection Hb as <- Hx. exists b. destruct (bucket_set_get _ _ _ _ Ht) as [Hg' ->].
  split; [done|]. apply bind_Some in Hx as (y & Hy & (v & _ & [= <-])%bind_Some). done.
Qed.

Lemma FindNode_bucket ht ht' k i j x :
  FindNode ht k = Some (ht', Some (i, j, x)) →
  j = bucket_index (table_at ht' i) (HASH_FUNC k) ∧ (i = 0 ∨ i = 1 ∧ InRehashing ht' = true)
  ∧ ∃ b, bucket_get (table_at ht' i) j = Some b ∧ AvlTree.FindNode b k = Some x.1.
Proof.
  unfold FindNode. intros (ht1 & _ & ([h r] & Hst & Hr)%bind_Some)%bind_Some. destruct r as [[i' y]|]; [|done].
  injection Hr as -> -> <- ->. split; [done|]. clear -Hst.
  unfold search_tables, table_num in Hst. destruct (InRehashing ht1) eqn:Hin; cbn [search_loop] in Hst;
    apply bind_Some in Hst as ([t1 r1] & Ht1 & Hst); change (table_at ht1 0) with (table1 ht1) in Ht1.
  - destruct r1 as [y|].
    { injection Hst as <- <- ->. split; [by left|]. by apply (find_in_bucket k _ _ _ Ht1). }
    apply bind_Some in Hst as ([t2 r2] & Ht2 & Hst). destruct r2 as [y|]; [|done]. injection Hst as <- <- ->.
    split; [by right|]. by apply (find_in_bucket k _ _ _ Ht2).
  - destruct r1 as [y|]; [|done]. injection Hst as <- <- ->. split; [by left|]. by apply (find_in_bucket k _ _ _ Ht1).
Qed.

(** [EraseNode] of the node [FindNode] found takes the entry out, but does not
    count it out. *)
Lemma FindNode_EraseNode ht k v :
  wf ht → exact_key k → view ht !! k = Some v →
  ∃ ht1 i j x ht2, FindNode ht k = Some (ht1, Some (i, j, (x, v))) ∧ wf ht1 ∧ (hash_room ht → hash_room ht1)
    ∧ view ht1 = view ht ∧ EraseNode ht1 i j (Some x) = Some (ht2, 1)
    ∧ hash_wf gk HASH_FUNC tree_ok exact_key (dr := more_drift dr) ht2 ∧ (hash_room ht → hash_room ht2)
    ∧ view ht2 = delete k (view ht).
Proof.
  intros Hw He Hv. destruct (FindNode_spec ht k Hw He) as (ht1 & r & Hf & Hw1 & Hr1 & Hv1 & Hr).
  rewrite Hv in Hr. destruct r as [[[i j] [x v']]|]; [|done]. injection Hr as ->.
  destruct (FindNode_bucket _ _ _ _ _ _ Hf) as (-> & Hi & b & Hg & Hb). cbn [fst] in Hb.
  destruct (table_at_bucket ht1 i k Hw1 Hi) as (b0 & rest & Hg0 & Htb & Hkb & _ & Hset).
  rewrite Hg in Hg0. injection Hg0 as <-.
  destruct (extract_in_spec k b Htb Hkb He) as (b' & n & Hx & Htb' & Hres).
  assert (AvlTree.EraseNode b (Some x) = Some (b', bool_decide (is_Some n))) as Hen.
  { rewrite <-Hb. change (AvlTree.EraseNode b (AvlTree.FindNode b k)) with (AvlTree.Erase b k).
    by rewrite Erase_Extract, Hx. }
  destruct n as [n|].
  2: { exfalso. destruct Hres as [Hn _]. pose proof (find_bucket_spec b k Htb Hkb He) as Hfb.
       unfold AvlTree.Find in Hfb. rewrite Hb in Hfb. cbn in Hfb.
       assert (is_Some (pos_val x)) as [y Hy].
       { unfold AvlTree.FindNode in Hb. pose proof (find_node_spec k (root_ b) [] (proj1 Htb)) as Hs.
         rewrite Hb in Hs. destruct Hs as (y & ? & _). eauto. }
       rewrite Hy in Hfb. destruct Hfb as [Hyb <-]. apply Hn, list_elem_of_fmap. eauto. }
  destruct (Hset b' Htb') as (t & rest' & Ht & Hs' & Hu' & Hp & Hp').
  { intros y Hy. left. destruct Hres as (_ & rest0 & -> & Hrest). rewrite Hrest in Hy. set_solver. }
  { intros -> Hin. destruct (Z.le_gt_cases (rehash_move_bucket_index_ ht1) (bucket_index (table1 ht1) (HASH_FUNC k)));
      [done|exfalso]. destruct Hw1 as (Hs1 & _).
    destruct (bucket1_fits gk HASH_FUNC tree_ok ht1 (HASH_FUNC k) Hs1) as (b1 & Hg1 & _ & Hmv).
    change (table_at ht1 0) with (table1 ht1) in Hg. rewrite Hg in Hg1. injection Hg1 as <-.
    destruct Hres as (_ & rest0 & Hb0 & _). rewrite (Hmv Hin ltac:(lia)) in Hb0. by apply Permutation_nil_cons in Hb0. }
  exists ht1, i, (bucket_index (table_at ht1 i) (HASH_FUNC k)), x, (set_table_at ht1 i t).
  split_ands; [done..| | | |].
  - unfold EraseNode. rewrite Hg. cbn [mbind option_bind]. rewrite Hen. cbn [mbind option_bind]. by rewrite Ht.
  - destruct Hw1 as (_ & Hk1 & Hu1). split; [done|].
    destruct Hres as (Hgn & rest0 & Hb0 & Hb0'). rewrite Hb0 in Hp. rewrite Hb0' in Hp'. cbn [app] in *.
    rewrite Hp in Hk1. rewrite Hp'. destruct Hk1 as [[_ Hnd]%NoDup_cons Hfa]. split; [split; [done|]|].
    + by apply Forall_cons in Hfa as [_ ?].
    + rewrite Hu', Hu1. f_equal. rewrite Hp. cbn. lia.
  - intros Hroom. eapply set_table_at_room; [done|by auto].
  - rewrite <-Hv1. destruct Hres as (Hgn & rest0 & Hb0 & Hb0'). rewrite Hb0 in Hp. rewrite Hb0' in Hp'. cbn [app] in *.
    destruct Hw1 as (_ & [Hnd Hfa] & _). unfold hash_view. rewrite (kmap_perm gk _ _ Hnd Hp).
    assert (NoDup (map gk (node_value n :: rest0 ++ rest'))) as Hnd' by (by rewrite <-Hp).
    rewrite <-(kmap_perm gk (rest0 ++ rest') (all_elems (set_table_at ht1 i t))); [|by apply NoDup_cons in Hnd' as []|done].
    rewrite (kmap_delete gk _ _ Hnd'), Hgn. done.
Qed.
End facts.

(** ** The table as a dictionary *)

Section dict.
Context {K V D : Type} `{Comparator K} `{GetKey K V} `{Count D} `{!HashFunc K}.

(** [Extract(key)] and [DropNode]: the value of the node. *)
Definition extract_value (ht : HashState (AvlTreeBase D V)) (k : K) : option (HashState (AvlTreeBase D V) * option V) :=
  '(ht', r) ← Extract ht k;
  Some (ht', match r with Some n => Some (node_value n) | None => None end).

(** A tree with its values changed in place. *)
Fixpoint tree_map (g : V → V) (t : tree V) : tree V :=
  match t with
  | Null => Null
  | Node l v h r => Node (tree_map g l) (g v) h (tree_map g r)
  end.

Definition bucket_map (g : V → V) (b : AvlTreeBase D V) : AvlTreeBase D V := set_root b (tree_map g (root_ b)).

#[export] Instance TreeHashTable_ops : DictOps (HashState (AvlTreeBase D V)) K V := {|
  d_init := TreeHashTable_init;
  d_insert := InsertWithDuplicate;
  d_find := Find;
  d_update := FindAndWrite;
  d_write := λ ht k f, WriteThrough bucket_map (λ x, TO_COMPARE (TO_GK x) k =? 0) f ht;
  d_extract := extract_value;
  d_clear := Clear;
  d_size := hash_size;
|}.

Context `{!ExactKeys K}.

(** The invariant of the table. *)
Definition TreeHashTable_wfx (dr : Drift) (ht : HashState (AvlTreeBase D V)) : Prop :=
  hash_wf (TO_GK (K := K)) HASH_FUNC (tree_ok (K := K)) exact_key ht ∧ hash_room ht.

Context `{!ComparatorOk K} `{Countable K}.

Lemma tree_map_inorder g t : inorder (tree_map g t) = map g (inorder t).
Proof. induction t as [|l IHl v h r IHr]; [done|]. simpl. by rewrite map_app, IHl, IHr. Qed.

Lemma tree_map_heights g t : heights_ok t → heights_ok (tree_map g t).
Proof. induction t as [|l IHl v h r IHr]; [done|]. simpl. naive_solver. Qed.

Lemma bucket_map_ok g (b : AvlTreeBase D V) :
  tree_ok (K := K) b → (∀ x, x ∈ bucket_elems b → TO_GK (g x) = TO_GK (K := K) x) → tree_ok (K := K) (bucket_map g b).
Proof.
  unfold tree_ok, bucket_elems, BucketElems_tree. intros [Hb Hh] Hg. split; [|by apply tree_map_heights].
  unfold bst in *. simpl. rewrite tree_map_inorder. revert Hg. induction Hb as [|x l Hl IH Hx]; intros Hg; simpl; constructor.
  - apply IH. set_solver.
  - apply Forall_map, Forall_forall. intros y Hy. rewrite Forall_forall in Hx. unfold key_lt in *.
    rewrite !Hg by set_solver. by apply Hx.
Qed.

#[export] Program Instance TreeHashTable_laws : DictLaws (HashState (AvlTreeBase D V)) K V TO_GK := {|
  d_wfx := TreeHashTable_wfx;
  d_key_ok := exact_key;
  d_view := hash_view TO_GK;
|}.
Next Obligation.
  destruct (hash_init_wf (T := V) TO_GK HASH_FUNC tree_ok exact_key avl_empty eq_refl avl_empty_ok) as [Hw He].
  split; [split; [done|done]|]. transitivity (kmap (TO_GK (K := K) (V := V)) []); [by rewrite <-He|done].
Qed.
Next Obligation. intros dr d k x [Hw _]. by apply (hash_view_key TO_GK HASH_FUNC tree_ok exact_key). Qed.
Next Obligation.
  intros dr d v [Hw Hr] Hs Hk. destruct (tree_InsertWithDuplicate_spec d v Hw Hs Hr Hk) as (d' & ok & dup & ? & ? & ? & ?).
  by exists d', ok, dup.
Qed.
Next Obligation.
  intros dr d k [Hw Hr] Hk. destruct (tree_Find_spec d k Hw Hk) as (d' & ? & ? & Hr' & ?).
  exists d'. split_ands; [done| |done]. split; auto.
Qed.
Next Obligation.
  intros dr d k f [Hw Hr] Hk Hf. destruct (tree_FindAndWrite_spec d k f Hw Hk Hf) as (d' & ? & ? & Hr' & ?).
  exists d'. split_ands; [done| |done]. split; auto.
Qed.
Next Obligation.
  intros dr d k f x [Hw Hr] Hf Hx. pose proof (hash_view_key TO_GK HASH_FUNC tree_ok exact_key d k x Hw Hx) as [_ Hk].
  destruct (WriteThrough_spec bucket_map TO_GK HASH_FUNC tree_ok exact_key (λ g b, tree_map_inorder g (root_ b)) bucket_map_ok
    (λ x, TO_COMPARE (TO_GK x) k =? 0) f d k x Hw) as (d' & ? & ? & Hr' & ?); [|done|done|].
  - intros y Hy. destruct Hw as (_ & [_ Hok] & _). rewrite Forall_forall in Hok. specialize (Hok y Hy).
    case_bool_decide as Hyk; [rewrite Hyk; by apply Z.eqb_eq, cmp_refl|]. apply Z.eqb_neq. intros Hc.
    by apply Hyk, exact_eq.
  - exists d'. split_ands; [done| |done]. split; auto.
Qed.
Next Obligation.
  intros dr d k [Hw Hr] Hk. destruct (tree_Extract_spec d k Hw Hk) as (d' & r & He & Hv & ? & Hr' & ? & _).
  exists d'. cbn. unfold extract_value. rewrite He, <-Hv. split_ands; [by destruct r| |done]. split; auto.
Qed.
Next Obligation.
  intros dr d [Hw Hr]. destruct (tree_Clear_spec d Hw) as (d' & ? & ? & Hr' & ?).
  exists d'. split_ands; [done| |done]. split; auto.
Qed.
Next Obligation. intros dr d [Hw _]. by apply (hash_view_size TO_GK HASH_FUNC tree_ok exact_key). Qed.
End dict.

(** The tables whose size is exact. *)
Abbreviation TreeHashTable_wf := (TreeHashTable_wfx no_drift).

(** ** Properties *)

Section properties.
Context {K V D : Type} `{ComparatorOk K} `{GetKey K V} `{Count D} `{!HashFunc K} `{!ExactKeys K} `{Countable K}.
Implicit Types (ht : HashState (AvlTreeBase D V)) (os : list (dict_op K V)).

(** The keys of a history can be told apart by the comparator, and writes
    leave the key of an entry alone. *)
Definition tree_op_ok (o : dict_op K V) : Prop :=
  match o with
  | OpInsert v => exact_key (TO_GK v)
  | OpFind k | OpExtract k => exact_key k
  | OpUpdate k f => exact_key k ∧ ∀ x, TO_GK x = k → TO_GK (f x) = k
  | OpClear => True
  end.

(** C9: the tree hash table refines a finite map.  Any sequence of at most
    2^61 insertions, lookups, writes, extractions and clears on a new table
    runs without a null dereference, answers as the finite map does, and
    leaves a well-formed table that holds exactly the map, although the trees
    the rehash builds need not be balanced.  The keys must be such that the
    comparator tells them apart (strings without NUL). *)
Theorem tree_hash_table_history os :
  Z.of_nat (length os) ≤ max_elems → Forall tree_op_ok os →
  ∃ ht', dict_run (TreeHashTable_init (D := D)) os = Some (ht', snd (map_run TO_GK ∅ os))
    ∧ TreeHashTable_wf ht' ∧ hash_view TO_GK ht' = fst (map_run TO_GK ∅ os).
Proof.
  intros Hl Hok.
  destruct (dict_history_refines (D := HashState (AvlTreeBase D V)) TO_GK os Hl) as (ht & Hr & Hw & Hv).
  { eapply Forall_impl; [done|]. by intros []. }
  exists ht. exact (conj Hr (conj Hw Hv)).
Qed.

(** Iterating, and clearing with a callback, both visit every entry of a
    well-formed table exactly once; [ClearApply] leaves the empty table. *)
Theorem tree_hash_table_visits ht fuel :
  TreeHashTable_wf ht → (size (hash_view TO_GK ht) ≤ fuel)%nat →
  (∃ l, iterate fuel ht (begin ht) = Some l ∧ NoDup (map TO_GK l) ∧ kmap TO_GK l = hash_view TO_GK ht)
  ∧ ∃ ht' vs, ClearApply ht = Some (ht', vs) ∧ NoDup (map TO_GK vs) ∧ kmap TO_GK vs = hash_view TO_GK ht
      ∧ TreeHashTable_wf ht' ∧ hash_view TO_GK ht' = ∅.
Proof.
  intros [Hw Hr] Hf. pose proof Hw as (Hs & [Hnd _] & _). split.
  - unfold hash_view in *. rewrite kmap_size in Hf by done.
    pose proof (hash_shape_sizes TO_GK HASH_FUNC tree_ok ht Hs) as Hsz. destruct (tree_begin_spec ht Hsz) as [Hok Hrem].
    exists (all_elems ht). split; [|done]. rewrite <-Hrem. apply tree_iterate_spec; [done..|]. by rewrite Hrem.
  - destruct (ClearApply_spec ht Hw) as (ht' & vs & ? & Hp & ? & ? & ?). exists ht', vs.
    assert (NoDup (map TO_GK vs)) by (by rewrite Hp). split_ands; [done|done|by apply kmap_perm|by split|done].
Qed.

(** Moving an entry.  A node that [Extract] took out can be pushed back
    under a new key that is not in the table: the push succeeds and the table
    then holds the map with the old key gone and the new one bound (the way
    [Rename] uses the two). *)
Theorem tree_hash_table_rename ht k k' (rekey : V → V) v :
  TreeHashTable_wf ht → Z.of_nat (size (hash_view TO_GK ht)) ≤ max_elems →
  exact_key k → exact_key k' → (∀ x, TO_GK (rekey x) = k') →
  hash_view TO_GK ht !! k = Some v → hash_view TO_GK ht !! k' = None →
  ∃ ht1 n ht2, Extract ht k = Some (ht1, Some n) ∧ node_value n = v
    ∧ Push ht1 (MkDetached (rekey v) (node_height n)) = Some (ht2, true)
    ∧ TreeHashTable_wf ht2
    ∧ hash_view TO_GK ht2 = <[k' := rekey v]> (delete k (hash_view TO_GK ht)).
Proof.
  intros [Hw Hr] Hsz Hk Hk' Hre Hv Hnone.
  destruct (tree_Extract_spec ht k Hw Hk) as (ht1 & r & Hx & Hrv & Hw1 & Hr1 & Hv1 & Hh). rewrite Hv in Hrv.
  destruct r as [n|]; [|done]. injection Hrv as Hn.
  assert (size (hash_view TO_GK ht) = S (size (hash_view TO_GK ht1))) as Hs.
  { rewrite Hv1, map_size_delete, Hv. assert (size (hash_view TO_GK ht) ≠ 0%nat); [|lia].
    intros Hz%map_size_empty_inv. rewrite Hz in Hv. set_solver. }
  destruct (Push_spec ht1 (MkDetached (rekey v) (node_height n)) Hw1) as (ht2 & Hp & Hw2 & Hr2 & Hv2);
    [simpl; lia|by auto|cbn [node_value]; by rewrite Hre|by apply (Hh n)| |].
  { cbn [node_value]. rewrite Hre, Hv1, lookup_delete_ne by congruence. done. }
  exists ht1, n, ht2. split_ands; [done|done|done|by split|]. rewrite Hv2, <-Hv1. cbn [node_value]. by rewrite Hre.
Qed.
End properties.

Module TreeHashExamples.
#[local] Instance HashZ : HashFunc Z := λ x, x.

Abbreviation kv := (KeyValue Z string).
Abbreviation dict := (HashState (AvlTreeBase unit kv)).

(** Five insertions into four buckets start a rehash. *)
Definition ops : list (dict_op Z kv) :=
  [OpInsert (MkKeyValue 1 "a"); OpInsert (MkKeyValue 5 "b"); OpInsert (MkKeyValue 9 "c");
   OpInsert (MkKeyValue 13 "d"); OpInsert (MkKeyValue 6 "e"); OpInsert (MkKeyValue 5 "f");
   OpFind 9; OpUpdate 1 (λ x, MkKeyValue (key x) "z"); OpExtract 13; OpFind 13].

Definition in_rehash : dict :=
  match dict_run TreeHashTable_init (take 6 ops) with Some (ht, _) => ht | None => TreeHashTable_init end.

Lemma tree_ops_ok : Forall tree_op_ok ops.
Proof. repeat constructor. intros x Hx. exact Hx. Qed.

Lemma in_rehash_tree_wf : TreeHashTable_wf in_rehash.
Proof.
  destruct (dict_history_refines (D := dict) TO_GK (take 6 ops)) as (ht & Hr & Hw & _);
    [by vm_compute|by repeat constructor|].
  unfold in_rehash. change TreeHashTable_init with (d_init (D := dict)). by rewrite Hr.
Qed.

Lemma tree_hash_table_history_witness :
  ∃ ht', dict_run (TreeHashTable_init (D := unit)) ops = Some (ht', snd (map_run TO_GK ∅ ops))
    ∧ TreeHashTable_wf ht' ∧ hash_view TO_GK ht' = fst (map_run TO_GK ∅ ops).
Proof. apply (tree_hash_table_history ops); [by vm_compute|apply tree_ops_ok]. Defined.

Lemma tree_hash_table_visits_witness :
  InRehashing in_rehash = true ∧
  ((∃ l, iterate 10 in_rehash (begin in_rehash) = Some l ∧ NoDup (map TO_GK l)
    ∧ kmap TO_GK l = hash_view TO_GK in_rehash)
  ∧ ∃ ht' vs, ClearApply in_rehash = Some (ht', vs) ∧ NoDup (map TO_GK vs)
      ∧ kmap TO_GK vs = hash_view TO_GK in_rehash
      ∧ TreeHashTable_wf ht' ∧ hash_view TO_GK ht' = ∅).
Proof.
  split; [by vm_compute|]. apply (tree_hash_table_visits in_rehash 10); [apply in_rehash_tree_wf|].
  vm_compute. lia.
Defined.

Lemma tree_hash_table_rename_witness :
  ∃ ht1 n ht2, Extract in_rehash 9 = Some (ht1, Some n) ∧ node_value n = MkKeyValue 9 "c"
    ∧ Push ht1 (MkDetached (MkKeyValue 100 (value (MkKeyValue 9 "c"))) (node_height n)) = Some (ht2, true)
    ∧ TreeHashTable_wf ht2
    ∧ hash_view TO_GK ht2 = <[100 := MkKeyValue 100 "c"%string]> (delete 9 (hash_view TO_GK in_rehash)).
Proof.
  apply (tree_hash_table_rename in_rehash 9 100 (λ x, MkKeyValue 100 (value x)) (MkKeyValue 9 "c"%string));
    [apply in_rehash_tree_wf|by vm_compute|done|done|done|by vm_compute|by vm_compute].
Defined.

(** Keys that differ only after a NUL byte are one key for the tree
    buckets.  When their hashes fall into one bucket, the second is refused
    as a duplicate of the first and a lookup of it finds the first. *)
Theorem tree_keys_stop_at_nul :
  let nul := String (Ascii.ascii_of_nat 0) "x" in
  let nul' := String (Ascii.ascii_of_nat 0) "y" in
  let H : HashFunc string := λ _, 0 in
  nul ≠ nul' ∧
  ∃ ht ht' ht'', InsertWithDuplicate (TreeHashTable_init (D := unit)) (MkKeyValue nul 1) = Some (ht, true, MkKeyValue nul 1)
    ∧ InsertWithDuplicate ht (MkKeyValue nul' 2) = Some (ht', false, MkKeyValue nul 1)
    ∧ Find ht' nul' = Some (ht'', Some (MkKeyValue nul 1)).
Proof.
  intros nul nul' H. split; [done|]. do 3 eexists.
  split; [vm_compute; reflexivity|]. split; [vm_compute; reflexivity|]. vm_compute. reflexivity.
Qed.
End TreeHashExamples.
