(* ===== verification/HashSet.v ===== *)
(** * Hash sets

    [mmkv/algo/hash_set.h], [internal/hash_set_impl.h]: the [Set] values of the
    database, and its index of shards.  A set is a hash table whose elements are
    their own keys.  The set operations iterate over one set and look its
    members up in the other, which changes the other (a lookup moves the node it
    finds to the front, and a bucket of an unfinished rehash). *)

From S2P Require Import Prelude Comparator Slist ReservedArray Dict HashTableBase HashTable.

Section hash_set.
Context {K : Type} `{!HashFunc K} `{!EqualKey K}.
Implicit Types (hs self : HashState (list K)) (k : K).

(** [HashSet(std::initializer_list)]. *)
Fixpoint HashSet_of (il : list K) hs : option (HashState (list K)) :=
  match il with
  | [] => Some hs
  | e :: il' => '(hs', _) ← Insert HASH_FUNC hs e; HashSet_of il' hs'
  end.

(** [for (auto const& m : *this)]: the members in the order of the iterators. *)
Definition members hs : option (list K) := iterate (length (all_elems hs)) hs (begin hs).

(** [for (m : ms) if (cond(hs.Find(m))) cb(m);]: the state of [hs] afterwards
    and the members [cb] gets. *)
Fixpoint find_loop (cond : bool → bool) hs (ms : list K) : option (HashState (list K) * list K) :=
  match ms with
  | [] => Some (hs, [])
  | m :: ms' =>
      '(hs', r) ← Find HASH_FUNC hs m;
      '(hs'', out) ← find_loop cond hs' ms';
      Some (hs'', if cond (match r with Some _ => true | None => false end) then m :: out else out)
  end.

(** [less_set] and [more_set]: whether [hs.size() > this->size()]. *)
Definition this_is_less self hs : bool := hash_size self <? hash_size hs.

(** [Union(hs, cb)] on two different sets: both sets afterwards, and what [cb]
    gets. *)
Definition Union self hs : option (HashState (list K) * HashState (list K) * list K) :=
  let b := this_is_less self hs in
  let less_set := if b then self else hs in
  let more_set := if b then hs else self in
  out1 ← members more_set;
  ms ← members less_set;
  '(more', out2) ← find_loop negb more_set ms;
  Some (if b then self else more', if b then more' else hs, out1 ++ out2).

Definition Intersection self hs : option (HashState (list K) * HashState (list K) * list K) :=
  let b := this_is_less self hs in
  let less_set := if b then self else hs in
  let more_set := if b then hs else self in
  ms ← members less_set;
  '(more', out) ← find_loop id more_set ms;
  Some (if b then self else more', if b then more' else hs, out).

Definition Difference self hs : option (HashState (list K) * HashState (list K) * list K) :=
  ms ← members self;
  '(hs', out) ← find_loop negb hs ms;
  Some (self, hs', out).

(** The loop of [EraseRandom()] over the buckets of table [i] from [j] on. *)
Definition pop_first_from (i : Z) (j : Z) hs : option (option (HashState (list K))) :=
  match first_bucket (drop (Z.to_nat j) (table (table_at hs i))) j with
  | Some (j', b) =>
      b' ← PopFront b;
      t ← bucket_set (table_at hs i) j' b';
      Some (Some (set_table_at hs i t))
  | None => Some None
  end.

Definition EraseRandom hs : option (HashState (list K) * Z) :=
  hs ← IncrementalRehash HASH_FUNC hs;
  if InRehashing hs then
    r ← pop_first_from 0 (rehash_move_bucket_index_ hs) hs;
    match r with
    | Some hs' => Some (hs', 1)
    | None =>
        r ← pop_first_from 1 0 hs;
        Some (match r with Some hs' => (hs', 1) | None => (hs, 0) end)
    end
  else
    r ← pop_first_from 0 0 hs;
    Some (match r with Some hs' => (hs', 1) | None => (hs, 0) end).

(** ** A set combined with itself

    [SetAnd(key, key)] of the database calls [Intersection] with [hs] the same
    object as [*this].  The iterator then walks a table that the lookups change:
    its [slot_] is a node, and [slot_->next] is read from the table as it is
    after the lookup. *)

(** The node after [k] in the bucket that holds it now. *)
Fixpoint next_in (k : K) (b : list K) : option (option K) :=
  match b with
  | [] => None
  | x :: b' => if EQUAL_KEY x k then Some (head b') else next_in k b'
  end.

Fixpoint next_node (k : K) (buckets : list (list K)) : option (option K) :=
  match buckets with
  | [] => None
  | b :: rest => match next_in k b with Some r => Some r | None => next_node k rest end
  end.

(** [table_index_], [bucket_index_], [slot_]. *)
Record LiveIterator := MkLive { live_table : Z; live_bucket : Z; live_slot : option K }.

Definition live_of (it : HashTableIterator (T := K)) : LiveIterator :=
  MkLive (table_index_ it) (bucket_index_ it) (head (slot_ it)).

Definition live_increment hs (it : LiveIterator) : option LiveIterator :=
  k ← live_slot it;
  next ← next_node k (table (table1 hs) ++ table (table2 hs));
  Some match next with
       | Some k' => MkLive (live_table it) (live_bucket it) (Some k')
       | None =>
           live_of (increment_loop (Z.to_nat (2 - live_table it)) (live_table it) hs
             (MkIter (live_table it) (live_bucket it) []))
       end.

(** The loop of [Intersection] of a set with itself, for at most [fuel]
    members. *)
Fixpoint self_loop (fuel : nat) hs (it : LiveIterator) : option (HashState (list K) * list K) :=
  match live_slot it with
  | None => Some (hs, [])
  | Some m =>
      match fuel with
      | O => None
      | S fuel' =>
          '(hs', r) ← Find HASH_FUNC hs m;
          it' ← live_increment hs' it;
          '(hs'', out) ← self_loop fuel' hs' it';
          Some (hs'', match r with Some _ => m :: out | None => out end)
      end
  end.

Definition IntersectionSelf (fuel : nat) hs : option (HashState (list K) * list K) :=
  self_loop fuel hs (live_of (begin hs)).
End hash_set.

(** ** Facts *)

Section facts.
Context {K : Type} `{!HashFunc K} `{Countable K} `{!EqualKey K} `{!EqualKeyOk K}.
Implicit Types (hs self : HashState (list K)) (k x : K).

(** The members of a set. *)
Definition set_of hs : gset K := dom (hash_view TO_GK hs).

Lemma set_of_elems hs x : x ∈ set_of hs ↔ x ∈ all_elems hs.
Proof.
  unfold set_of. rewrite elem_of_dom. split.
  - intros [y [Hy ?]%kmap_lookup_inv]. by cbv in Hy; subst.
  - intros Hx. destruct (hash_view TO_GK hs !! x) eqn:Hl; [done|]. exfalso.
    apply not_elem_of_list_to_map_2 in Hl. rewrite kmap_fst in Hl. apply Hl.
    apply list_elem_of_fmap. by exists x.
Qed.

Lemma set_of_nodup {dr} hs : HashTable_wfx dr hs → NoDup (all_elems hs).
Proof. intros [(_ & [Hnd _] & _) _]. by rewrite <-(map_id (all_elems hs)). Qed.

Lemma members_spec {dr} hs : HashTable_wfx dr hs → members hs = Some (all_elems hs).
Proof.
  intros [(Hs & _ & _) _]. unfold members.
  pose proof (hash_shape_sizes TO_GK HASH_FUNC any hs Hs) as Hsz. destruct (begin_spec hs Hsz) as [Hok Hr].
  rewrite <-Hr. by apply iterate_spec.
Qed.

(** Whether [m] is a member, as the lookups answer it. *)
Definition found hs m : bool := bool_decide (m ∈ set_of hs).

Lemma find_loop_spec cond hs ms :
  HashTable_wf hs →
  ∃ hs', find_loop cond hs ms = Some (hs', filter (λ m, cond (found hs m) = true) ms)
    ∧ HashTable_wf hs' ∧ hash_view TO_GK hs' = hash_view TO_GK hs.
Proof.
  revert hs. induction ms as [|m ms IH]; intros hs [Hw Hr]; cbn [find_loop]; [by eexists; split_ands|].
  destruct (Find_spec HASH_FUNC hs m Hw) as (hs1 & -> & Hw1 & Hr1 & Hv1). cbn [mbind option_bind].
  destruct (IH hs1) as (hs2 & -> & Hw2 & Hv2); [split; auto|]. cbn [mbind option_bind].
  exists hs2. split; [|split; [done|congruence]].
  assert (∀ x, found hs1 x = found hs x) as Hf by (intros x; unfold found, set_of; by rewrite Hv1).
  assert (match hash_view TO_GK hs !! m with Some _ => true | None => false end = found hs m) as ->.
  { unfold found, set_of. case_match eqn:Hl; symmetry.
    - apply bool_decide_eq_true_2, elem_of_dom. by rewrite Hl.
    - apply bool_decide_eq_false_2. rewrite not_elem_of_dom. done. }
  f_equal. f_equal. rewrite (list_filter_iff _ (λ x, cond (found hs x) = true)) by (intros x; by rewrite Hf).
  rewrite filter_cons. destruct (cond (found hs m)) eqn:Hc; by rewrite ?decide_True, ?decide_False by done.
Qed.

(** What an operation on two sets promises: it succeeds, leaves both sets as
    they were, and hands exactly the members that satisfy [P] to the callback,
    once each. *)
Definition set_op_ok (op : option (HashState (list K) * HashState (list K) * list K)) self hs (P : K → Prop) : Prop :=
  ∃ self' hs' out, op = Some (self', hs', out)
    ∧ HashTable_wf self' ∧ HashTable_wf hs' ∧ set_of self' = set_of self ∧ set_of hs' = set_of hs
    ∧ NoDup out ∧ ∀ x, x ∈ out ↔ P x.

Lemma elem_of_filter_found cond hs (ms : list K) x :
  x ∈ filter (λ m, cond (found hs m) = true) ms ↔ cond (bool_decide (x ∈ set_of hs)) = true ∧ x ∈ ms.
Proof. by rewrite list_elem_of_filter. Qed.

Lemma negb_decide (P : Prop) `{Decision P} : negb (bool_decide P) = true ↔ ¬ P.
Proof. case_bool_decide; simpl; naive_solver. Qed.

(** Looking the members of [less] up in [more]. *)
Lemma lookup_members cond (less more : HashState (list K)) :
  HashTable_wf less → HashTable_wf more →
  ∃ more' out, find_loop cond more (all_elems less) = Some (more', out) ∧ HashTable_wf more' ∧ set_of more' = set_of more
    ∧ NoDup out ∧ ∀ x, x ∈ out ↔ cond (bool_decide (x ∈ set_of more)) = true ∧ x ∈ set_of less.
Proof.
  intros Hl Hm. destruct (find_loop_spec cond more (all_elems less) Hm) as (more' & -> & ? & Hv).
  eexists _, _. split; [done|]. split_ands; [done|unfold set_of; by rewrite Hv| |].
  - by apply NoDup_filter, set_of_nodup.
  - intros x. rewrite elem_of_filter_found. by rewrite (set_of_elems less).
Qed.

Lemma Union_ok self hs :
  HashTable_wf self → HashTable_wf hs →
  set_op_ok (Union self hs) self hs (λ x, x ∈ set_of self ∨ x ∈ set_of hs).
Proof.
  intros Hs Hh. unfold Union, set_op_ok. destruct (this_is_less self hs).
  - destruct (lookup_members negb self hs Hs Hh) as (m & out & Hf & ? & ? & ? & Hx).
    rewrite !members_spec by done. cbn [mbind option_bind]. rewrite Hf. eexists _, _, _. split; [done|].
    split_ands; try done.
    + apply NoDup_app. split_ands; [by apply set_of_nodup| |done].
      intros x Hx1 [Hn _]%Hx. apply negb_decide in Hn. by apply Hn, set_of_elems.
    + intros x. rewrite elem_of_app, Hx, negb_decide, <-set_of_elems. destruct (decide (x ∈ set_of hs)); tauto.
  - destruct (lookup_members negb hs self Hh Hs) as (m & out & Hf & ? & ? & ? & Hx).
    rewrite !members_spec by done. cbn [mbind option_bind]. rewrite Hf. eexists _, _, _. split; [done|].
    split_ands; try done.
    + apply NoDup_app. split_ands; [by apply set_of_nodup| |done].
      intros x Hx1 [Hn _]%Hx. apply negb_decide in Hn. by apply Hn, set_of_elems.
    + intros x. rewrite elem_of_app, Hx, negb_decide, <-set_of_elems. destruct (decide (x ∈ set_of self)); tauto.
Qed.

Lemma Intersection_ok self hs :
  HashTable_wf self → HashTable_wf hs →
  set_op_ok (Intersection self hs) self hs (λ x, x ∈ set_of self ∧ x ∈ set_of hs).
Proof.
  intros Hs Hh. unfold Intersection, set_op_ok. destruct (this_is_less self hs).
  - destruct (lookup_members id self hs Hs Hh) as (m & out & Hf & ? & ? & ? & Hx).
    rewrite !members_spec by done. cbn [mbind option_bind]. rewrite Hf. eexists _, _, _. split; [done|].
    split_ands; try done. intros x. rewrite Hx. unfold id. rewrite bool_decide_eq_true. tauto.
  - destruct (lookup_members id hs self Hh Hs) as (m & out & Hf & ? & ? & ? & Hx).
    rewrite !members_spec by done. cbn [mbind option_bind]. rewrite Hf. eexists _, _, _. split; [done|].
    split_ands; try done. intros x. rewrite Hx. unfold id. by rewrite bool_decide_eq_true.
Qed.

Lemma Difference_ok self hs :
  HashTable_wf self → HashTable_wf hs →
  set_op_ok (Difference self hs) self hs (λ x, x ∈ set_of self ∧ x ∉ set_of hs).
Proof.
  intros Hs Hh. unfold Difference, set_op_ok.
  destruct (lookup_members negb self hs Hs Hh) as (m & out & Hf & ? & ? & ? & Hx).
  rewrite !members_spec by done. cbn [mbind option_bind]. rewrite Hf. eexists _, _, _. split; [done|].
  split_ands; try done. intros x. rewrite Hx, negb_decide. tauto.
Qed.

(** ** Properties *)

(** The set operations on two different sets compute the union, the
    intersection and the difference: they hand each member of the result to the
    callback exactly once, whichever set is larger, and leave both sets
    well-formed and with the members they had (the lookups move nodes around). *)
Theorem hash_set_operations self hs :
  HashTable_wf self → HashTable_wf hs →
  set_op_ok (Union self hs) self hs (λ x, x ∈ set_of self ∪ set_of hs)
  ∧ set_op_ok (Intersection self hs) self hs (λ x, x ∈ set_of self ∩ set_of hs)
  ∧ set_op_ok (Difference self hs) self hs (λ x, x ∈ set_of self ∖ set_of hs).
Proof.
  intros Hs Hh. split_ands.
  - destruct (Union_ok self hs Hs Hh) as (? & ? & ? & ? & ? & ? & ? & ? & ? & Hx).
    eexists _, _, _. split_ands; try done. intros y. by rewrite Hx, elem_of_union.
  - destruct (Intersection_ok self hs Hs Hh) as (? & ? & ? & ? & ? & ? & ? & ? & ? & Hx).
    eexists _, _, _. split_ands; try done. intros y. by rewrite Hx, elem_of_intersection.
  - destruct (Difference_ok self hs Hs Hh) as (? & ? & ? & ? & ? & ? & ? & ? & ? & Hx).
    eexists _, _, _. split_ands; try done. intros y. by rewrite Hx, elem_of_difference.
Qed.

(** ** Random removal *)

(** Taking the front member of the first bucket that has one. *)
Lemma pop_first_spec i j hs :
  hash_wf TO_GK HASH_FUNC any any hs → i = 0 ∨ i = 1 ∧ InRehashing hs = true → 0 ≤ j < npos →
  match pop_first_from i j hs with
  | Some (Some hs') => hash_shape TO_GK HASH_FUNC any hs' ∧ used (table1 hs') = used (table1 hs)
      ∧ ∃ x, all_elems hs ≡ₚ x :: all_elems hs'
  | Some None => elems (drop (Z.to_nat j) (table (table_at hs i))) = []
  | None => False
  end.
Proof.
  intros (Hs & Hk & Hu) Hi Hj. unfold pop_first_from.
  pose proof (first_bucket_spec (drop (Z.to_nat j) (table (table_at hs i))) j) as Hf.
  destruct (first_bucket _ j) as [[j' b]|]; [|done]. destruct Hf as (pre & post & Hd & _ & Hb & ->).
  destruct b as [|x b]; [done|]. cbn [PopFront ExtractFront mbind option_bind].
  assert (table (table_at hs i) !! (Z.to_nat j + length pre)%nat = Some (x :: b)) as Hl.
  { rewrite <-lookup_drop, Hd, lookup_app_r, Nat.sub_diag by lia. done. }
  pose proof (lookup_lt_Some _ _ _ Hl) as Hlt.
  set (jj := j + Z.of_nat (length pre)).
  assert (Z.to_nat jj = Z.to_nat j + length pre)%nat as Hjj by (unfold jj; lia).
  assert (bucket_get (table_at hs i) jj = Some (x :: b)) as Hg.
  { unfold bucket_get, aget. destruct (Z.leb_spec 0 jj); [|unfold jj in *; lia]. by rewrite Hjj. }
  destruct Hi as [->|[-> Hin]].
  - change (table_at hs 0) with (table1 hs) in *. change (set_table_at hs 0) with (set_table1 hs).
    pose proof Hs as (n & Hw & _).
    assert (bucket_index (table1 hs) jj = jj) as Hix.
    { apply (bucket_index_self n); [apply Hw|]. destruct Hw as ((_ & <- & _) & _). unfold table_size, asize, jj. lia. }
    destruct (bucket1_fits TO_GK HASH_FUNC any hs jj Hs) as (b0 & Hg0 & Hf0 & Hmv). rewrite Hix in *.
    rewrite Hg in Hg0. injection Hg0 as <-.
    destruct (update_bucket1 TO_GK HASH_FUNC any hs jj (x :: b) b Hs) as (t & Ht & Hs' & Hu' & rest & Hr & Hr').
    { by rewrite Hix. } { eapply fits_sub; [done|done|]. intros y Hy. left. by apply elem_of_cons; right. }
    { rewrite Hix. intros Hin Hlt'. specialize (Hmv Hin Hlt'). done. }
    rewrite Hix in Ht. rewrite Ht. cbn [mbind option_bind]. split_ands; [done|done|]. exists x. by rewrite Hr, Hr'.
  - change (table_at hs 1) with (table2 hs) in *. change (set_table_at hs 1) with (set_table2 hs).
    pose proof Hs as (n & Hw & Hp).
    destruct (phase_cases _ _ _ _ _ Hw Hp) as [(? & _)|(_ & _ & Hw2 & _)]; [congruence|].
    assert (bucket_index (table2 hs) jj = jj) as Hix.
    { apply (bucket_index_self (n + 1)); [apply Hw2|]. destruct Hw2 as ((_ & <- & _) & _). unfold table_size, asize, jj. lia. }
    destruct (bucket2_fits TO_GK HASH_FUNC any hs jj Hs Hin) as (b0 & Hg0 & Hf0). rewrite Hix in *.
    rewrite Hg in Hg0. injection Hg0 as <-.
    destruct (update_bucket2 TO_GK HASH_FUNC any hs jj (x :: b) b Hs Hin) as (t & Ht & Hs' & rest & Hr & Hr').
    { by rewrite Hix. } { eapply fits_sub; [done|done|]. intros y Hy. left. by apply elem_of_cons; right. }
    rewrite Hix in Ht. rewrite Ht. cbn [mbind option_bind]. split_ands; [done|done|]. exists x. by rewrite Hr, Hr'.
Qed.

Lemma mjoin_elems (l : list (list K)) : mjoin l = elems (B := list K) l.
Proof. induction l as [|b l IH]; [done|]. simpl. by rewrite IH. Qed.

Lemma rehash_index_small hs :
  hash_shape TO_GK HASH_FUNC any hs → InRehashing hs = true → 0 ≤ rehash_move_bucket_index_ hs < npos.
Proof.
  intros (n & Hw & Hp) Hin. destruct (phase_cases _ _ _ _ _ Hw Hp) as [(? & _)|(_ & Hi & _)]; [congruence|].
  pose proof (pow2_lt_npos n). destruct Hw as ((? & _) & ? & _). lia.
Qed.

(** With nothing left in the buckets the loop looks at, there is nothing left. *)
Lemma unmoved_nil hs :
  hash_shape TO_GK HASH_FUNC any hs → InRehashing hs = true →
  elems (drop (Z.to_nat (rehash_move_bucket_index_ hs)) (table (table1 hs))) = [] → elems (table (table1 hs)) = [].
Proof.
  intros (n & Hw & Hp) Hin He. destruct (phase_cases _ _ _ _ _ Hw Hp) as [(? & _)|(_ & _ & _ & Hm)]; [congruence|].
  rewrite <-(moved_drop _ _ Hm), mjoin_elems. done.
Qed.

Lemma popped_set hs hs' x :
  hash_wf TO_GK HASH_FUNC any any hs → all_elems hs ≡ₚ x :: all_elems hs' →
  x ∈ set_of hs ∧ set_of hs' = set_of hs ∖ {[x]}.
Proof.
  intros (_ & [Hnd _] & _) Hp. unfold set_of at 1 2 3.
  assert (NoDup (map TO_GK (x :: all_elems hs'))) as Hnd' by (by rewrite <-Hp).
  rewrite (kmap_perm TO_GK _ _ Hnd Hp : hash_view TO_GK hs = _).
  rewrite (kmap_delete TO_GK x _ Hnd' : hash_view TO_GK hs' = _), dom_delete_L. split; [|done].
  rewrite kmap_cons, dom_insert_L. set_solver.
Qed.

(** [EraseRandom] on a set that is not empty removes exactly one member and
    answers 1, during a rehash too, but does not count it out: [size()] stays
    what it was.  On an empty set it answers 0. *)
Theorem hash_set_erase_random hs :
  HashTable_wf hs →
  ∃ hs', (set_of hs = ∅ → EraseRandom hs = Some (hs', 0) ∧ set_of hs' = ∅)
    ∧ (set_of hs ≠ ∅ → ∃ x, EraseRandom hs = Some (hs', 1) ∧ x ∈ set_of hs ∧ set_of hs' = set_of hs ∖ {[x]}
         ∧ hash_size hs' = hash_size hs).
Proof.
  intros [Hw Hr]. unfold EraseRandom.
  destruct (IncrementalRehash_wf HASH_FUNC hs Hw) as (h & -> & Hw1 & Hp & _). cbn [mbind option_bind].
  assert (set_of h = set_of hs) as <- by (unfold set_of; by rewrite (hash_view_perm TO_GK HASH_FUNC any any hs h)).
  assert (hash_size h = hash_size hs) as <-.
  { destruct Hw as (_ & _ & Hu), Hw1 as (_ & _ & Hu1). unfold hash_size. by rewrite Hu, Hu1, Hp. }
  pose proof Hw1 as (Hs1 & _ & _).
  assert (∀ h', hash_shape TO_GK HASH_FUNC any h' ∧ used (table1 h') = used (table1 h)
      ∧ (∃ x, all_elems h ≡ₚ x :: all_elems h') →
    ∃ hs', (set_of h = ∅ → Some (h', 1) = Some (hs', 0) ∧ set_of hs' = ∅)
      ∧ (set_of h ≠ ∅ → ∃ x, Some (h', 1) = Some (hs', 1) ∧ x ∈ set_of h ∧ set_of hs' = set_of h ∖ {[x]}
           ∧ hash_size hs' = hash_size h)) as Hpop.
  { intros h' (_ & Hu & x & Hx). destruct (popped_set h h' x Hw1 Hx). exists h'. split; [set_solver|]. by exists x. }
  assert (all_elems h = [] →
    ∃ hs', (set_of h = ∅ → Some (h, 0) = Some (hs', 0) ∧ set_of hs' = ∅)
      ∧ (set_of h ≠ ∅ → ∃ x, Some (h, 0) = Some (hs', 1) ∧ x ∈ set_of h ∧ set_of hs' = set_of h ∖ {[x]}
           ∧ hash_size hs' = hash_size h)) as Hnone.
  { intros He. exists h. split; [done|]. intros Hne. exfalso. apply Hne. unfold set_of, hash_view. by rewrite He. }
  destruct (InRehashing h) eqn:Hin.
  - pose proof (pop_first_spec 0 (rehash_move_bucket_index_ h) h Hw1 ltac:(by left) (rehash_index_small h Hs1 Hin)) as H0.
    destruct (pop_first_from 0 _ h) as [[h'|]|]; [by apply Hpop| |done]. cbn [mbind option_bind].
    change (table_at h 0) with (table1 h) in H0. apply (unmoved_nil h Hs1 Hin) in H0.
    pose proof (pop_first_spec 1 0 h Hw1 ltac:(by right) ltac:(unfold npos; lia)) as H1.
    destruct (pop_first_from 1 0 h) as [[h'|]|]; [by apply Hpop| |done]. apply Hnone. unfold all_elems.
    change (table_at h 1) with (table2 h) in H1. change (Z.to_nat 0) with 0%nat in H1. rewrite drop_0 in H1. by rewrite H0, H1.
  - pose proof (pop_first_spec 0 0 h Hw1 ltac:(by left) ltac:(unfold npos; lia)) as H0.
    destruct (pop_first_from 0 0 h) as [[h'|]|]; [by apply Hpop| |done]. apply Hnone. unfold all_elems.
    change (table_at h 0) with (table1 h) in H0. change (Z.to_nat 0) with 0%nat in H0. rewrite drop_0 in H0. rewrite H0.
    destruct Hs1 as (n & Hw' & Hph). destruct (phase_cases _ _ _ _ _ Hw' Hph) as [(_ & _ & ->)|(? & _)]; [done|congruence].
Qed.
End facts.

Module HashSetExamples.
#[local] Instance HashZ : HashFunc Z := λ x, x.

Definition set_from (l : list Z) : HashState (list Z) := default HashTable_init (HashSet_of l HashTable_init).

(** 1, 5 and 9 share a bucket of the four. *)
Definition odd_set : HashState (list Z) := set_from [1; 5; 9; 2; 6].
Definition other_set : HashState (list Z) := set_from [5; 2; 77].

Lemma set_from_wf l : Z.of_nat (length l) ≤ max_elems → HashTable_wf (set_from l).
Proof.
  intros Hl. unfold set_from.
  assert (∀ hs, HashTable_wf hs → Z.of_nat (size (hash_view TO_GK hs)) + Z.of_nat (length l) ≤ max_elems →
    ∃ hs', HashSet_of l hs = Some hs' ∧ HashTable_wf hs') as Hof.
  { clear Hl. induction l as [|x l IH]; intros hs Hw Hs; cbn [HashSet_of]; [by eauto|]. cbn [length] in Hs.
    destruct (InsertWithDuplicate_spec HASH_FUNC hs x (proj1 Hw)) as (hs1 & ok & dup & Hi & Hw1 & Hr1 & He);
      [simpl; lia|apply Hw|].
    unfold Insert. rewrite Hi. cbn [mbind option_bind]. apply IH; [by split|].
    unfold insert_effect in He. destruct (hash_view TO_GK hs !! TO_GK x) eqn:Hx; destruct He as (_ & _ & ->); [lia|].
    rewrite map_size_insert_None by done. lia. }
  destruct (hash_init_wf (T := Z) TO_GK HASH_FUNC any any [] eq_refl I) as [Hw He].
  destruct (Hof HashTable_init) as (hs' & -> & ?); [by split| |done].
  change (hash_view TO_GK HashTable_init) with (kmap TO_GK (all_elems (hash_init (@nil Z)))).
  rewrite He. change (size (kmap TO_GK (@nil Z))) with 0%nat. lia.
Qed.

Lemma odd_set_wf : HashTable_wf odd_set.
Proof. apply set_from_wf. by vm_compute. Qed.

Lemma other_set_wf : HashTable_wf other_set.
Proof. apply set_from_wf. by vm_compute. Qed.

Lemma hash_set_operations_witness :
  set_op_ok (Union odd_set other_set) odd_set other_set (λ x, x ∈ set_of odd_set ∪ set_of other_set)
  ∧ set_op_ok (Intersection odd_set other_set) odd_set other_set (λ x, x ∈ set_of odd_set ∩ set_of other_set)
  ∧ set_op_ok (Difference odd_set other_set) odd_set other_set (λ x, x ∈ set_of odd_set ∖ set_of other_set).
Proof. apply (hash_set_operations odd_set other_set); [apply odd_set_wf|apply other_set_wf]. Defined.

Lemma hash_set_erase_random_witness :
  ∃ hs', (set_of odd_set = ∅ → EraseRandom odd_set = Some (hs', 0) ∧ set_of hs' = ∅)
    ∧ (set_of odd_set ≠ ∅ → ∃ x, EraseRandom odd_set = Some (hs', 1) ∧ x ∈ set_of odd_set
         ∧ set_of hs' = set_of odd_set ∖ {[x]} ∧ hash_size hs' = hash_size odd_set).
Proof. apply (hash_set_erase_random odd_set), odd_set_wf. Defined.

(** Two members in one bucket, the iterator at the one or at the other. *)
Definition two (x y : Z) : HashState (list Z) := MkHash (MkTable [[]; [x; y]; []; []] 2 3) (MkTable [] 0 npos) npos.

Lemma two_find x y : x = 1 ∧ y = 5 ∨ x = 5 ∧ y = 1 → Find HASH_FUNC (two x y) y = Some (two y x, Some y).
Proof. intros [[-> ->]|[-> ->]]; vm_compute; reflexivity. Qed.

Lemma two_next x y :
  x = 1 ∧ y = 5 ∨ x = 5 ∧ y = 1 → live_increment (two y x) (MkLive 0 1 (Some y)) = Some (MkLive 0 1 (Some x)).
Proof. intros [[-> ->]|[-> ->]]; vm_compute; reflexivity. Qed.

(** The lookup of the member at the back brings it to the front, and the other
    one is next again. *)
Lemma two_loops fuel x y :
  x = 1 ∧ y = 5 ∨ x = 5 ∧ y = 1 → self_loop fuel (two x y) (MkLive 0 1 (Some y)) = None.
Proof.
  revert x y. induction fuel as [|fuel IH]; intros x y Hxy; [done|]. cbn [self_loop live_slot].
  rewrite two_find by done. cbn [mbind option_bind]. rewrite two_next by done. cbn [mbind option_bind].
  rewrite IH by naive_solver. done.
Qed.

(** The intersection of a set with itself, when two of its members share a
    bucket, never ends: no number of iterations is enough, since each lookup
    moves the current node to the front of the list being walked. *)
Theorem hash_set_self_intersection_diverges fuel :
  HashTable_wf (set_from [1; 5]) ∧ IntersectionSelf fuel (set_from [1; 5]) = None.
Proof.
  split; [apply set_from_wf; by vm_compute|]. unfold IntersectionSelf.
  replace (set_from [1; 5]) with (two 5 1) by (vm_compute; reflexivity).
  replace (live_of (begin (two 5 1))) with (MkLive 0 1 (Some 5)) by (vm_compute; reflexivity).
  destruct fuel as [|fuel]; [done|]. cbn [self_loop live_slot].
  replace (Find HASH_FUNC (two 5 1) 5) with (Some (two 5 1, Some 5)) by (vm_compute; reflexivity).
  cbn [mbind option_bind].
  replace (live_increment (two 5 1) (MkLive 0 1 (Some 5))) with (Some (MkLive 0 1 (Some 1))) by (vm_compute; reflexivity).
  cbn [mbind option_bind]. rewrite two_loops by auto. done.
Qed.
End HashSetExamples.
