(* ===== verification/Dictionary.v ===== *)
(** * Dictionaries

    [mmkv/algo/dictionary.h], [mmkv/algo/avl_dictionary.h]: [Dictionary] is a
    hash table and [AvlDictionary] a tree hash table of [KeyValue]s, with the
    same three additional operations.  They are written here once, against the
    interface both tables implement. *)

From S2P Require Import Prelude Comparator AvlTree Dict HashTableBase HashTable TreeHashTable.

Section dictionary.
Context {D K V : Type} `{!DictOps D K (KeyValue K V)}.
Implicit Types (d : D) (k : K) (v : V).

(** [InsertKvWithDuplicate(key, value, duplicate)]. *)
Definition InsertKvWithDuplicate d k v : option (D * bool * KeyValue K V) := d_insert d (MkKeyValue k v).

(** [InsertKv(key, value)]: the new entry, or null. *)
Definition InsertKv d k v : option (D * option (KeyValue K V)) :=
  '(d', ok, kv) ← d_insert d (MkKeyValue k v);
  Some (d', if ok : bool then Some kv else None).

(** [operator[](key)], [dflt] being [mapped_type{}]: the entry whose value the
    reference denotes. *)
Definition dict_at d k (dflt : V) : option (D * KeyValue K V) :=
  '(d', kv) ← d_find d k;
  match kv with
  | Some kv => Some (d', kv)
  | None =>
      '(d'', kv) ← InsertKv d' k dflt;
      kv ← kv;
      Some (d'', kv)
  end.

(** [Erase(key)]: 1 or 0. *)
Definition dict_erase d k : option (D * Z) :=
  '(d', r) ← d_extract d k;
  Some (d', match r with Some _ => 1 | None => 0 end).

(** [Find(key)->value = v] when the key is there. *)
Definition dict_set d k v : option (D * bool) :=
  '(d', r) ← d_update d k (λ kv, MkKeyValue (key kv) v);
  Some (d', match r with Some _ => true | None => false end).

(** [entry->value = v], [entry] pointing to the entry of [k]. *)
Definition dict_write d k v : option D := d_write d k (λ kv, MkKeyValue (key kv) v).
End dictionary.

Section facts.
Context {D K V : Type} `{Countable K} `{!DictOps D K (KeyValue K V)} `{!DictLaws D K (KeyValue K V) TO_GK}.
Implicit Types (dr : Drift) (d : D) (k : K) (v : V).

(** The map from keys to values. *)
Definition kv_view d : gmap K V := value <$> d_view d.

Lemma kv_view_lookup d k : kv_view d !! k = value <$> (d_view d !! k).
Proof. apply lookup_fmap. Qed.

Lemma kv_view_size d : size (kv_view d) = size (d_view d).
Proof. apply map_size_fmap. Qed.

Lemma d_view_kv {dr} d k kv : d_wfx dr d → d_view d !! k = Some kv → kv = MkKeyValue k (value kv) ∧ kv_view d !! k = Some (value kv).
Proof.
  intros Hw Hk. destruct (d_view_keyx dr d k kv Hw Hk) as [<- _]. split; [by destruct kv|].
  by rewrite kv_view_lookup, Hk.
Qed.

Lemma kv_view_None d k : kv_view d !! k = None ↔ d_view d !! k = None.
Proof. rewrite kv_view_lookup. apply fmap_None. Qed.

Lemma InsertKv_spec {dr} d k v :
  d_wfx dr d → Z.of_nat (size (kv_view d)) + drift < max_elems → d_key_ok k →
  ∃ d', d_wfx dr d' ∧
    match kv_view d !! k with
    | Some _ => InsertKv d k v = Some (d', None) ∧ kv_view d' = kv_view d
    | None => InsertKv d k v = Some (d', Some (MkKeyValue k v)) ∧ kv_view d' = <[k := v]> (kv_view d)
    end.
Proof.
  intros Hw Hs Hk. rewrite kv_view_size in Hs. unfold InsertKv.
  destruct (d_insert_lawx dr d (MkKeyValue k v) Hw Hs Hk) as (d' & ok & dup & -> & Hw' & He).
  exists d'. split; [done|]. rewrite kv_view_lookup. change (TO_GK (MkKeyValue k v)) with k in He.
  destruct (d_view d !! k) as [y|]; destruct He as (-> & -> & Hv); simpl; unfold kv_view; rewrite Hv.
  - done.
  - by rewrite fmap_insert.
Qed.

Lemma find_spec {dr} d k :
  d_wfx dr d → d_key_ok k →
  ∃ d', d_find d k = Some (d', MkKeyValue k <$> (kv_view d !! k)) ∧ d_wfx dr d' ∧ kv_view d' = kv_view d.
Proof.
  intros Hw Hk. destruct (d_find_lawx dr d k Hw Hk) as (d' & Hf & Hw' & Hv). exists d'. split; [|split; [done|]].
  - rewrite Hf. rewrite kv_view_lookup. destruct (d_view d !! k) as [kv|] eqn:Hl; [|done].
    destruct (d_view_kv d k kv Hw Hl) as [Heq _]. simpl. by rewrite <-Heq.
  - unfold kv_view. by rewrite Hv.
Qed.

Lemma dict_erase_spec {dr} d k :
  d_wfx dr d → d_key_ok k →
  ∃ d', dict_erase d k = Some (d', if decide (is_Some (kv_view d !! k)) then 1 else 0) ∧ d_wfx dr d'
    ∧ kv_view d' = delete k (kv_view d).
Proof.
  intros Hw Hk. unfold dict_erase. destruct (d_extract_lawx dr d k Hw Hk) as (d' & -> & Hw' & Hv).
  exists d'. split; [|split; [done|]].
  - simpl. rewrite kv_view_lookup. by destruct (d_view d !! k).
  - unfold kv_view. by rewrite Hv, fmap_delete.
Qed.

Lemma dict_set_spec {dr} d k v :
  d_wfx dr d → d_key_ok k →
  ∃ d', dict_set d k v = Some (d', bool_decide (is_Some (kv_view d !! k))) ∧ d_wfx dr d'
    ∧ kv_view d' = if decide (is_Some (kv_view d !! k)) then <[k := v]> (kv_view d) else kv_view d.
Proof.
  intros Hw Hk. unfold dict_set.
  destruct (d_update_lawx dr d k (λ kv, MkKeyValue (key kv) v) Hw Hk) as (d' & -> & Hw' & Hv); [done|].
  exists d'. rewrite kv_view_lookup. unfold kv_view. rewrite Hv. destruct (d_view d !! k); split_ands; try done.
  by rewrite fmap_insert.
Qed.

Lemma InsertKvWithDuplicate_spec {dr} d k v :
  d_wfx dr d → Z.of_nat (size (kv_view d)) + drift < max_elems → d_key_ok k →
  ∃ d', d_wfx dr d' ∧
    match kv_view d !! k with
    | Some w => InsertKvWithDuplicate d k v = Some (d', false, MkKeyValue k w) ∧ kv_view d' = kv_view d
    | None => InsertKvWithDuplicate d k v = Some (d', true, MkKeyValue k v) ∧ kv_view d' = <[k := v]> (kv_view d)
    end.
Proof.
  intros Hw Hs Hk. rewrite kv_view_size in Hs. unfold InsertKvWithDuplicate.
  destruct (d_insert_lawx dr d (MkKeyValue k v) Hw Hs Hk) as (d' & ok & dup & -> & Hw' & He).
  exists d'. split; [done|]. rewrite kv_view_lookup. change (TO_GK (MkKeyValue k v)) with k in He.
  destruct (d_view d !! k) as [y|] eqn:Hl; destruct He as (-> & -> & Hv); unfold kv_view; rewrite Hv; simpl.
  - destruct (d_view_kv d k y Hw Hl) as [Heq _]. by rewrite <-Heq.
  - by rewrite fmap_insert.
Qed.

Lemma dict_write_spec {dr} d k v w :
  d_wfx dr d → kv_view d !! k = Some w →
  ∃ d', dict_write d k v = Some d' ∧ d_wfx dr d' ∧ kv_view d' = <[k := v]> (kv_view d).
Proof.
  intros Hw Hk. rewrite kv_view_lookup in Hk. apply fmap_Some in Hk as (x & Hx & ->). unfold dict_write.
  destruct (d_write_lawx dr d k (λ kv, MkKeyValue (key kv) v) x Hw) as (d' & Hd & Hw' & Hv); [done|done|].
  exists d'. split_ands; [done|done|]. unfold kv_view. by rewrite Hv, fmap_insert.
Qed.

Lemma extract_spec {dr} d k :
  d_wfx dr d → d_key_ok k →
  ∃ d', d_extract d k = Some (d', MkKeyValue k <$> (kv_view d !! k)) ∧ d_wfx dr d' ∧ kv_view d' = delete k (kv_view d).
Proof.
  intros Hw Hk. destruct (d_extract_lawx dr d k Hw Hk) as (d' & Hf & Hw' & Hv). exists d'. split; [|split; [done|]].
  - rewrite Hf. rewrite kv_view_lookup. destruct (d_view d !! k) as [kv|] eqn:Hl; [|done].
    destruct (d_view_kv d k kv Hw Hl) as [Heq _]. simpl. by rewrite <-Heq.
  - unfold kv_view. by rewrite Hv, fmap_delete.
Qed.

Lemma clear_spec {dr} d : d_wfx dr d → ∃ d', d_clear d = Some d' ∧ d_wf d' ∧ kv_view d' = ∅.
Proof.
  intros Hw. destruct (d_clear_lawx dr d Hw) as (d' & Hc & Hw' & Hv). exists d'. split_ands; [done..|].
  unfold kv_view. by rewrite Hv, fmap_empty.
Qed.

Lemma init_spec : d_wf (d_init (D := D)) ∧ kv_view d_init = ∅.
Proof. destruct d_init_law as [Hw Hv]. split; [done|]. unfold kv_view. by rewrite Hv, fmap_empty. Qed.

Lemma kv_view_key_ok {dr} d k v : d_wfx dr d → kv_view d !! k = Some v → d_key_ok k.
Proof. intros Hw Hk. rewrite kv_view_lookup in Hk. apply fmap_Some in Hk as (x & Hx & _). by apply (d_view_keyx dr d k x). Qed.

(** *** A budget

    A dictionary with [e] uncounted entries that can grow to at least
    [max_elems] from [n]: lookups and erasures keep the budget, an insertion
    takes one. *)
Definition dict_is (e n : Z) d : Prop :=
  ∃ dr, d_wfx dr d ∧ @drift dr = e ∧ Z.of_nat (size (kv_view d)) + e ≤ n.

Lemma dict_is_weaken e n n' d : dict_is e n d → n ≤ n' → dict_is e n' d.
Proof. intros (dr & Hw & Hd & Hn) ?. exists dr. split_ands; [done..|lia]. Qed.

Lemma dict_is_nonneg e n d : dict_is e n d → 0 ≤ e.
Proof. intros (dr & _ & <- & _). apply drift_nonneg. Qed.

Lemma dict_is_size e n d : dict_is e n d → n < 2 ^ 64 → d_size d = Z.of_nat (size (kv_view d)) + e.
Proof.
  intros (dr & Hw & <- & Hn) ?. rewrite (d_size_lawx dr d Hw), <-kv_view_size. apply u64_small.
  pose proof (@drift_nonneg dr). lia.
Qed.

Lemma dict_is_key e n d k v : dict_is e n d → kv_view d !! k = Some v → d_key_ok k.
Proof. intros (dr & Hw & _). by apply kv_view_key_ok. Qed.

Lemma init_is n : 0 ≤ n → dict_is 0 n (d_init (D := D)) ∧ kv_view d_init = ∅.
Proof.
  intros Hn. destruct init_spec as [Hw Hv]. split; [|done]. exists no_drift. split_ands; [done|done|].
  rewrite Hv, map_size_empty. simpl. lia.
Qed.

Lemma find_is e n d k :
  dict_is e n d → d_key_ok k →
  ∃ d', d_find d k = Some (d', MkKeyValue k <$> (kv_view d !! k)) ∧ dict_is e n d' ∧ kv_view d' = kv_view d.
Proof.
  intros (dr & Hw & <- & Hn) Hk. destruct (find_spec d k Hw Hk) as (d' & Hf & Hw' & Hv).
  exists d'. split; [done|]. split; [|done]. exists dr. by rewrite Hv.
Qed.

Lemma insert_is e n d k v :
  dict_is e n d → n < max_elems → d_key_ok k →
  ∃ d', dict_is e (n + 1) d' ∧
    match kv_view d !! k with
    | Some w => InsertKvWithDuplicate d k v = Some (d', false, MkKeyValue k w) ∧ kv_view d' = kv_view d
    | None => InsertKvWithDuplicate d k v = Some (d', true, MkKeyValue k v) ∧ kv_view d' = <[k := v]> (kv_view d)
    end.
Proof.
  intros (dr & Hw & <- & Hn) Hm Hk. destruct (InsertKvWithDuplicate_spec d k v Hw ltac:(lia) Hk) as (d' & Hw' & Hi).
  exists d'. split; [|done]. exists dr. split; [done|]. split; [done|]. destruct (kv_view d !! k) eqn:Hl.
  - destruct Hi as [_ ->]. lia.
  - destruct Hi as [_ ->]. rewrite map_size_insert_None by done. lia.
Qed.

Lemma insert_kv_is e n d k v :
  dict_is e n d → n < max_elems → d_key_ok k →
  ∃ d', dict_is e (n + 1) d' ∧
    match kv_view d !! k with
    | Some w => InsertKv d k v = Some (d', None) ∧ kv_view d' = kv_view d
    | None => InsertKv d k v = Some (d', Some (MkKeyValue k v)) ∧ kv_view d' = <[k := v]> (kv_view d)
    end.
Proof.
  intros Hd Hm Hk. destruct (insert_is e n d k v Hd Hm Hk) as (d' & Hd' & Hi). exists d'. split; [done|].
  unfold InsertKv. unfold InsertKvWithDuplicate in Hi. destruct (kv_view d !! k); destruct Hi as [-> ?]; by split.
Qed.

Lemma write_is e n d k v w :
  dict_is e n d → kv_view d !! k = Some w →
  ∃ d', dict_write d k v = Some d' ∧ dict_is e n d' ∧ kv_view d' = <[k := v]> (kv_view d).
Proof.
  intros (dr & Hw & <- & Hn) Hk. destruct (dict_write_spec d k v w Hw Hk) as (d' & Hd & Hw' & Hv).
  exists d'. split; [done|]. split; [|done]. exists dr. split_ands; [done..|]. rewrite Hv, map_size_insert_Some by eauto. done.
Qed.

Lemma extract_is e n d k :
  dict_is e n d → d_key_ok k →
  ∃ d', d_extract d k = Some (d', MkKeyValue k <$> (kv_view d !! k)) ∧ dict_is e n d' ∧ kv_view d' = delete k (kv_view d).
Proof.
  intros (dr & Hw & <- & Hn) Hk. destruct (extract_spec d k Hw Hk) as (d' & Hd & Hw' & Hv).
  exists d'. split; [done|]. split; [|done]. exists dr. split_ands; [done..|]. rewrite Hv, map_size_delete.
  destruct (kv_view d !! k); simpl; lia.
Qed.

Lemma erase_is e n d k :
  dict_is e n d → d_key_ok k →
  ∃ d', dict_erase d k = Some (d', if decide (is_Some (kv_view d !! k)) then 1 else 0) ∧ dict_is e n d'
    ∧ kv_view d' = delete k (kv_view d).
Proof.
  intros Hd Hk. destruct (extract_is e n d k Hd Hk) as (d' & Hx & Hd' & Hv). exists d'. split; [|done].
  unfold dict_erase. rewrite Hx. simpl. by destruct (kv_view d !! k).
Qed.

Lemma clear_is e n d : dict_is e n d → ∃ d', d_clear d = Some d' ∧ dict_is 0 n d' ∧ kv_view d' = ∅.
Proof.
  intros (dr & Hw & <- & Hn). destruct (clear_spec d Hw) as (d' & Hd & Hw' & Hv). exists d'. split; [done|].
  split; [|done]. exists no_drift. split_ands; [done|done|]. rewrite Hv, map_size_empty. simpl.
  pose proof (@drift_nonneg dr). lia.
Qed.

(** [operator[]] of a dictionary returns the entry of the key, making one
    with the default value when there is none: it never fails its assertion,
    and changes the map only by that entry. *)
Theorem dictionary_subscript d k dflt :
  d_wf d → Z.of_nat (size (kv_view d)) < max_elems → d_key_ok k →
  ∃ d', dict_at d k dflt = Some (d', MkKeyValue k (default dflt (kv_view d !! k))) ∧ d_wf d'
    ∧ kv_view d' = <[k := default dflt (kv_view d !! k)]> (kv_view d).
Proof.
  intros Hw Hs Hk. unfold dict_at. destruct (find_spec d k Hw Hk) as (d1 & -> & Hw1 & Hv1). simpl.
  destruct (kv_view d !! k) as [v|] eqn:Hl; simpl.
  - exists d1. split; [done|]. split; [done|]. by rewrite Hv1, insert_id.
  - destruct (InsertKv_spec d1 k dflt Hw1) as (d2 & Hw2 & Hi); [rewrite Hv1; simpl; lia|done|].
    rewrite Hv1, Hl in Hi. destruct Hi as [-> Hv2]. exists d2. split; [done|]. split; [done|]. by rewrite Hv2.
Qed.
End facts.

(** The two classes. *)
Definition Dictionary (K V : Type) : Type := HashState (list (KeyValue K V)).
Definition AvlDictionary (K V : Type) : Type := HashState (AvlTreeBase unit (KeyValue K V)).

(** ** Nodes of an [AvlDictionary] *)

Section avl_nodes.
Context {K V : Type} `{ComparatorOk K} `{!HashFunc K} `{!ExactKeys K} `{Countable K}.
Implicit Types (d : HashState (AvlTreeBase unit (KeyValue K V))) (k : K) (v : V).

(** [FindNode] without and with [EraseNode]. *)
Lemma find_node_is e n d k :
  dict_is e n d → exact_key k →
  match kv_view d !! k with
  | None => ∃ d', FindNode d k = Some (d', None) ∧ dict_is e n d' ∧ kv_view d' = kv_view d
  | Some v => ∃ d1 i j x d2, FindNode d k = Some (d1, Some (i, j, (x, MkKeyValue k v)))
      ∧ dict_is e n d1 ∧ kv_view d1 = kv_view d
      ∧ EraseNode d1 i j (Some x) = Some (d2, 1) ∧ dict_is (e + 1) n d2 ∧ kv_view d2 = delete k (kv_view d)
  end.
Proof.
  intros (dr & Hwf & <- & Hn) Hk. pose proof Hwf as [Hw Hr]. rewrite kv_view_lookup. destruct (d_view d !! k) as [kv|] eqn:Hl; simpl.
  - destruct (d_view_kv (dr := dr) d k kv Hwf Hl) as [Heq _].
    destruct (FindNode_EraseNode (dr := dr) d k kv Hw Hk Hl) as (d1 & i & j & x & d2 & Hf & Hw1 & Hr1 & Hv1 & He & Hw2 & Hr2 & Hv2).
    change (d_view d1 = d_view d) in Hv1. change (d_view d2 = delete k (d_view d)) in Hv2.
    exists d1, i, j, x, d2. rewrite <-Heq. split; [done|]. split_ands.
    + exists dr. split_ands; [split; [done|by auto]|done|]. unfold kv_view in *. by rewrite Hv1.
    + unfold kv_view. by rewrite Hv1.
    + done.
    + exists (more_drift dr). split_ands; [split; [done|by auto]|done|]. rewrite !kv_view_size in *.
      change (@drift (more_drift dr)) with (@drift dr + 1). rewrite Hv2, map_size_delete, Hl.
      assert (size (d_view d) ≠ 0%nat); [|lia]. intros Hz%map_size_empty_inv. by rewrite Hz in Hl.
    + unfold kv_view. by rewrite Hv2, fmap_delete.
  - destruct (FindNode_spec (dr := dr) d k Hw Hk) as (d' & r & Hf & Hw' & Hr' & Hv & Hres).
    change (hash_view TO_GK d) with (d_view d) in Hres. rewrite Hl in Hres. destruct r; [done|].
    change (d_view d' = d_view d) in Hv. exists d'. split; [done|]. split.
    + exists dr. split_ands; [split; [done|by auto]|done|]. unfold kv_view in *. by rewrite Hv.
    + unfold kv_view. by rewrite Hv.
Qed.

(** [Extract] of a node, with the height it was left with. *)
Lemma extract_node_is e n d k :
  dict_is e n d → exact_key k →
  ∃ d' r, Extract d k = Some (d', r) ∧ dict_is e n d' ∧ kv_view d' = delete k (kv_view d)
    ∧ node_value <$> r = MkKeyValue k <$> (kv_view d !! k) ∧ ∀ nd, r = Some nd → 0 ≤ node_height nd.
Proof.
  intros (dr & Hwf & <- & Hn) Hk. pose proof Hwf as [Hw Hr].
  destruct (tree_Extract_spec (dr := dr) d k Hw Hk) as (d' & r & Hx & Hv & Hw' & Hr' & Hd & Hh).
  exists d', r. split; [done|]. split_ands; [| | |done].
  - exists dr. split_ands; [split; [done|by auto]|done|]. rewrite !kv_view_size in *.
    change (d_view d') with (hash_view TO_GK d'). rewrite Hd, map_size_delete.
    change (hash_view TO_GK d) with (d_view d). destruct (d_view d !! k); unfold id; lia.
  - unfold kv_view. change (d_view d') with (hash_view TO_GK d'). by rewrite Hd, fmap_delete.
  - rewrite Hv, kv_view_lookup. change (hash_view TO_GK d) with (d_view d). destruct (d_view d !! k) as [kv|] eqn:Hl; [|done].
    destruct (d_view_kv (dr := dr) d k kv Hwf Hl) as [Heq _]. simpl. by rewrite <-Heq.
Qed.

Lemma push_is e n d k v h :
  dict_is e n d → n < max_elems → exact_key k → 0 ≤ h → kv_view d !! k = None →
  ∃ d', Push d (MkDetached (MkKeyValue k v) h) = Some (d', true) ∧ dict_is e (n + 1) d'
    ∧ kv_view d' = <[k := v]> (kv_view d).
Proof.
  intros (dr & Hwf & <- & Hn) Hm Hk Hh Hl. pose proof Hwf as [Hw Hr]. rewrite kv_view_size in Hn.
  apply kv_view_None in Hl.
  destruct (Push_spec (dr := dr) d (MkDetached (MkKeyValue k v) h) Hw) as (d' & Hp & Hw' & Hr' & Hv); [|done..| |].
  - change (hash_view TO_GK d) with (d_view d). lia.
  - exact Hl.
  - exists d'. split; [done|]. split.
    + exists dr. split_ands; [by split|done|]. rewrite kv_view_size. change (d_view d') with (hash_view TO_GK d').
      rewrite Hv. cbn [node_value TO_GK GetKey_kv key]. rewrite map_size_insert_None by exact Hl.
      change (hash_view TO_GK d) with (d_view d). lia.
    + unfold kv_view. change (d_view d') with (hash_view TO_GK d'). by rewrite Hv, fmap_insert.
Qed.
End avl_nodes.

Module DictionaryExamples.
#[local] Instance HashZ : HashFunc Z := λ x, x.

Definition some_dict : HashState (AvlTreeBase unit (KeyValue Z string)) := TreeHashExamples.in_rehash.

Lemma dictionary_subscript_witness :
  ∃ d', dict_at some_dict 77 "new"%string = Some (d', MkKeyValue 77 (default "new"%string (kv_view some_dict !! 77)))
    ∧ d_wf d' ∧ kv_view d' = <[77 := default "new"%string (kv_view some_dict !! 77)]> (kv_view some_dict).
Proof.
  apply (dictionary_subscript some_dict 77 "new"%string); [apply TreeHashExamples.in_rehash_tree_wf|by vm_compute|done].
Defined.
End DictionaryExamples.
