(* ===== verification/Blist.v ===== *)
(** * The doubly linked list

    [mmkv/algo/blist.h], [internal/bnode.h]: the [List] values of the database
    and the queues of the replacement policies.  Clients keep pointers to nodes
    and move nodes between lists, so the model has the heap of nodes: a map from
    addresses to nodes, shared by all lists.  [None] is a null dereference, an
    access to a freed node, or a failed [assert].

    The last node's [next] is null; the first node's [prev] is the last node;
    a node outside any list has two null links. *)

From S2P Require Import Prelude.

Definition loc : Type := positive.

Record BNode (T : Type) := MkBNode { node_val : T; prev : option loc; next : option loc }.
Arguments MkBNode {T}.
Arguments node_val {T}.
Arguments prev {T}.
Arguments next {T}.

(** A [Blist] object; the nodes are in the heap. *)
Record Blist := MkBlist { header_ : option loc; count_ : Z }.

Section blist.
Context {T : Type}.
Implicit Types (h : gmap loc (BNode T)) (b : Blist) (l : loc) (v : T).

Definition blist_init : Blist := MkBlist None 0.

Definition blist_empty b : bool := match header_ b with None => true | Some _ => false end.

(** [p->prev = q], [p->next = q]. *)
Definition set_prev h (p : option loc) (q : option loc) : option (gmap loc (BNode T)) :=
  l ← p; n ← h !! l; Some (<[l := MkBNode (node_val n) q (next n)]> h).
Definition set_next h (p : option loc) (q : option loc) : option (gmap loc (BNode T)) :=
  l ← p; n ← h !! l; Some (<[l := MkBNode (node_val n) (prev n) q]> h).

Definition get_prev h (p : option loc) : option (option loc) := l ← p; n ← h !! l; Some (prev n).
Definition get_next h (p : option loc) : option (option loc) := l ← p; n ← h !! l; Some (next n).
Definition get_val h (p : option loc) : option T := l ← p; n ← h !! l; Some (node_val n).

(** [CreateNode(args)]. *)
Definition CreateNode h v : gmap loc (BNode T) * loc :=
  let l := fresh (dom h) in (<[l := MkBNode v None None]> h, l).

(** [DropNode(node)]. *)
Definition DropNode h (p : option loc) : option (gmap loc (BNode T)) :=
  l ← p; _ ← h !! l; Some (delete l h).

(** [SetHeader(header)]. *)
Definition SetHeader h (p : option loc) : option (gmap loc (BNode T) * option loc) :=
  h ← set_prev h p p;
  nx ← get_next h p;
  match nx with None => Some (h, p) | Some _ => None end.

Definition Front h b : option T := get_val h (header_ b).
Definition Back h b : option T := p ← get_prev h (header_ b); get_val h p.
Definition BackNode h b : option (option loc) := get_prev h (header_ b).

(** [InsertAfter(node, new_node)]; a null [node] is what the code calls
    [SetHeader] with. *)
Definition InsertAfter h b (node : option loc) (new_node : loc) : option (gmap loc (BNode T) * Blist) :=
  match node with
  | None =>
      match header_ b with
      | Some _ => None
      | None => '(h, p) ← SetHeader h None; Some (h, MkBlist p (count_ b ⊞ 1))
      end
  | Some _ =>
      node_nn ← get_next h node;
      h ← set_prev h (Some new_node) node;
      h ← set_next h (Some new_node) node_nn;
      h ← (match node_nn with
           | Some _ => set_prev h node_nn (Some new_node)
           | None => set_prev h (header_ b) (Some new_node)
           end);
      h ← set_next h node (Some new_node);
      Some (h, MkBlist (header_ b) (count_ b ⊞ 1))
  end.

(** [PushFront(node)], [PushBack(node)]: the flag is always 1 here, since
    [size() > max_size()] cannot hold. *)
Definition PushFront h b (node : loc) : option (gmap loc (BNode T) * Blist) :=
  if blist_empty b then
    '(h, p) ← SetHeader h (Some node);
    Some (h, MkBlist p 1)
  else
    h ← set_next h (Some node) (header_ b);
    q ← get_prev h (header_ b);
    h ← set_prev h (Some node) q;
    h ← set_prev h (header_ b) (Some node);
    Some (h, MkBlist (Some node) (count_ b ⊞ 1)).

Definition PushBack h b (node : loc) : option (gmap loc (BNode T) * Blist) :=
  if blist_empty b then
    '(h, p) ← SetHeader h (Some node);
    Some (h, MkBlist p 1)
  else
    q ← get_prev h (header_ b);
    h ← set_prev h (Some node) q;
    q ← get_prev h (header_ b);
    h ← set_next h q (Some node);
    h ← set_prev h (header_ b) (Some node);
    nx ← get_next h (Some node);
    match nx with
    | None => Some (h, MkBlist (header_ b) (count_ b ⊞ 1))
    | Some _ => None
    end.

(** [PopFront()], [PopBack()]: 1, or 0 on an empty list. *)
Definition PopFront h b : option (gmap loc (BNode T) * Blist * Z) :=
  if blist_empty b then Some (h, b, 0)
  else if count_ b =? 1 then h ← DropNode h (header_ b); Some (h, MkBlist None 0, 1)
  else
    new_header ← get_next h (header_ b);
    q ← get_prev h (header_ b);
    h ← set_prev h new_header q;
    h ← DropNode h (header_ b);
    Some (h, MkBlist new_header (count_ b ⊟ 1), 1).

Definition PopBack h b : option (gmap loc (BNode T) * Blist * Z) :=
  if blist_empty b then Some (h, b, 0)
  else if count_ b =? 1 then h ← DropNode h (header_ b); Some (h, MkBlist None 0, 1)
  else
    old_end ← get_prev h (header_ b);
    q ← get_prev h old_end;
    h ← set_next h q None;
    q ← get_prev h old_end;
    h ← set_prev h (header_ b) q;
    h ← DropNode h old_end;
    Some (h, MkBlist (header_ b) (count_ b ⊟ 1), 1).

(** [Extract(node)]. *)
Definition Extract h b (node : option loc) : option (gmap loc (BNode T) * Blist) :=
  match node with
  | None => Some (h, b)
  | Some _ =>
      pv ← get_prev h node;
      match pv with
      | None => Some (h, b)
      | Some _ =>
          nx ← get_next h node;
          h ← (match nx with
               | Some _ => set_prev h nx pv
               | None =>
                   q ← get_prev h (header_ b);
                   r ← get_next h q;
                   match r with None => set_prev h (header_ b) pv | Some _ => None end
               end);
          pv ← get_prev h node;
          nx ← get_next h node;
          '(h, hd) ← (if decide (node = header_ b) then Some (h, nx)
                      else h ← set_next h pv nx; Some (h, header_ b));
          h ← set_prev h node None;
          h ← set_next h node None;
          Some (h, MkBlist hd (count_ b ⊟ 1))
      end
  end.

Definition Erase h b (node : option loc) : option (gmap loc (BNode T) * Blist) :=
  '(h, b) ← Extract h b node;
  h ← DropNode h node;
  Some (h, b).

(** [Clear()]: [fuel] bounds the number of nodes. *)
Fixpoint clear_loop (fuel : nat) h (hd : option loc) : option (gmap loc (BNode T)) :=
  match hd with
  | None => Some h
  | Some l =>
      match fuel with
      | O => None
      | S fuel' => nx ← get_next h hd; h ← DropNode h hd; clear_loop fuel' h nx
      end
  end.

Definition Clear (fuel : nat) h b : option (gmap loc (BNode T) * Blist) :=
  h ← clear_loop fuel h (header_ b);
  Some (h, MkBlist None 0).

(** The constructor from an initializer list; [count_] stays 0. *)
Fixpoint init_loop h (hd : loc) (pv : loc) (il : list T) : option (gmap loc (BNode T)) :=
  match il with
  | [] => set_prev h (Some hd) (Some pv)
  | v :: il' =>
      let '(h, node) := CreateNode h v in
      h ← set_next h (Some pv) (Some node);
      h ← set_prev h (Some node) (Some pv);
      init_loop h hd node il'
  end.

Definition Blist_of h (il : list T) : option (gmap loc (BNode T) * Blist) :=
  match il with
  | [] => Some (h, blist_init)
  | v :: il' =>
      let '(h, hd) := CreateNode h v in
      h ← init_loop h hd hd il';
      Some (h, MkBlist (Some hd) 0)
  end.

(** [PushFront(value)], [PushBack(value)]. *)
Definition EmplaceFront h b v : option (gmap loc (BNode T) * Blist) :=
  let '(h, node) := CreateNode h v in PushFront h b node.
Definition EmplaceBack h b v : option (gmap loc (BNode T) * Blist) :=
  let '(h, node) := CreateNode h v in PushBack h b node.

(** A forward walk, as the iterators do it. *)
Fixpoint walk (fuel : nat) h (p : option loc) : option (list T) :=
  match p with
  | None => Some []
  | Some l =>
      match fuel with
      | O => None
      | S fuel' => v ← get_val h p; nx ← get_next h p; rest ← walk fuel' h nx; Some (v :: rest)
      end
  end.
End blist.

(** ** The sequence a list stands for *)

Section rep.
Context {T : Type}.
Implicit Types (h : gmap loc (BNode T)) (b : Blist) (l : loc) (v : T) (ns : list (loc * T)).

Definition head_loc ns : option loc := fst <$> head ns.
Definition last_loc ns : option loc := fst <$> last ns.

(** The nodes [ns] are linked in this order; [p] is the [prev] of the first and
    [nx] the [next] of the last. *)
Fixpoint chain h (p : option loc) ns (nx : option loc) : Prop :=
  match ns with
  | [] => True
  | (l, v) :: ns' =>
      h !! l = Some (MkBNode v p (match ns' with [] => nx | (l', _) :: _ => Some l' end))
      ∧ chain h (Some l) ns' nx
  end.

(** [b] is the list of the nodes [ns] in the heap [h]. *)
Definition blist_rep h b ns : Prop :=
  NoDup ns.*1 ∧ header_ b = head_loc ns ∧ count_ b = Z.of_nat (length ns) ∧ Z.of_nat (length ns) < 2 ^ 64
  ∧ chain h (last_loc ns) ns None.

(** A node outside any list. *)
Definition detached h l v : Prop := h !! l = Some (MkBNode v None None).

Lemma chain_app h p ns1 ns2 nx :
  chain h p (ns1 ++ ns2) nx ↔
  chain h p ns1 (match head_loc ns2 with Some l => Some l | None => nx end)
  ∧ chain h (match last_loc ns1 with Some l => Some l | None => p end) ns2 nx.
Proof.
  revert p. induction ns1 as [|[l v] ns1 IH]; intros p; [by simpl; naive_solver|].
  cbn [chain app]. rewrite IH. destruct ns1 as [|[l1 v1] ns1].
  - cbn. destruct ns2 as [|[l2 v2] ns2]; cbn; naive_solver.
  - change (last_loc ((l, v) :: (l1, v1) :: ns1)) with (last_loc ((l1, v1) :: ns1)).
    assert (is_Some (last_loc ((l1, v1) :: ns1))) as [x ->]; [|cbn [app]; naive_solver].
    unfold last_loc. destruct (last ((l1, v1) :: ns1)) eqn:Hl; [eauto|]. apply last_None in Hl. done.
Qed.

(** Changing nodes outside the chain. *)
Lemma chain_frame h h' p ns nx :
  (∀ l, l ∈ ns.*1 → h' !! l = h !! l) → chain h p ns nx → chain h' p ns nx.
Proof.
  revert p. induction ns as [|[l v] ns IH]; intros p Hl; [done|]. cbn [chain fmap list_fmap fst].
  intros [Hn Hc]. split; [|apply IH; [|done]].
  - rewrite Hl by set_solver. done.
  - intros l' Hl'. apply Hl. set_solver.
Qed.

Lemma chain_insert h l n p ns nx : l ∉ ns.*1 → chain h p ns nx → chain (<[l := n]> h) p ns nx.
Proof. intros Hl. apply chain_frame. intros l' Hl'. rewrite lookup_insert_ne; [done|]. set_solver. Qed.

Lemma chain_delete h l p ns nx : l ∉ ns.*1 → chain h p ns nx → chain (delete l h) p ns nx.
Proof. intros Hl. apply chain_frame. intros l' Hl'. rewrite lookup_delete_ne; [done|]. set_solver. Qed.

Lemma chain_lookup h p ns nx l v : chain h p ns nx → (l, v) ∈ ns → ∃ n, h !! l = Some n ∧ node_val n = v.
Proof.
  revert p. induction ns as [|[l0 v0] ns IH]; intros p; [set_solver|]. cbn [chain].
  intros [Hn Hc] [[= -> ->]|Hin]%elem_of_cons; [by eauto|by eapply IH].
Qed.

Lemma last_loc_snoc ns l v : last_loc (ns ++ [(l, v)]) = Some l.
Proof. unfold last_loc. by rewrite last_snoc. Qed.

Lemma last_loc_app_ne ns1 ns2 : last_loc ns2 ≠ None → last_loc (ns1 ++ ns2) = last_loc ns2.
Proof. unfold last_loc. rewrite last_app. by destruct (last ns2). Qed.

Lemma last_loc_cons x y ns : last_loc (x :: y :: ns) = last_loc (y :: ns).
Proof. done. Qed.

(** The walk over a chain gives its values. *)
Lemma walk_spec fuel h p ns :
  chain h p ns None → (length ns ≤ fuel)%nat → walk fuel h (head_loc ns) = Some ns.*2.
Proof.
  revert fuel p. induction ns as [|[l v] ns IH]; intros fuel p Hc Hf; [by destruct fuel|].
  destruct fuel as [|fuel]; simpl in Hf; [lia|]. cbn [chain] in Hc. destruct Hc as [Hn Hc].
  cbn [walk head_loc fmap option_fmap option_map head fst]. unfold get_val, get_next. cbn [mbind option_bind].
  rewrite Hn. cbn [mbind option_bind node_val next].
  replace (match ns with [] => None | (l', _) :: _ => Some l' end) with (head_loc ns) by (by destruct ns as [|[]]).
  rewrite (IH fuel (Some l)) by (done || lia). done.
Qed.
End rep.

(** ** The operations on sequences *)

Section ops.
Context {T : Type}.
Implicit Types (h : gmap loc (BNode T)) (b : Blist) (l : loc) (v : T) (ns : list (loc * T)).

(** Only the nodes [ls] differ. *)
Definition same_outside (ls : list loc) h h' : Prop := ∀ l, l ∉ ls → h' !! l = h !! l.

Lemma same_outside_weaken ls ls' h h' : same_outside ls h h' → ls ⊆ ls' → same_outside ls' h h'.
Proof. intros Hs Hsub l Hl. apply Hs. set_solver. Qed.

Lemma same_outside_trans ls h1 h2 h3 : same_outside ls h1 h2 → same_outside ls h2 h3 → same_outside ls h1 h3.
Proof. intros H1 H2 l Hl. by rewrite H2, H1. Qed.

Lemma chain_same ls h h' p ns nx : same_outside ls h h' → ns.*1 ## ls → chain h p ns nx → chain h' p ns nx.
Proof. intros Hs Hd. apply chain_frame. intros l Hl. apply Hs. set_solver. Qed.

Lemma rep_header h b ns : blist_rep h b ns → blist_empty b = match ns with [] => true | _ => false end.
Proof. intros (_ & Hh & _). unfold blist_empty. rewrite Hh. by destruct ns as [|[]]. Qed.

Lemma rep_nil h b : blist_rep h b [] → b = blist_init.
Proof. intros (_ & Hh & Hc & _). destruct b; simpl in *. by subst. Qed.

(** Reading and writing the links at the two ends of a chain. *)
Lemma chain_get_prev h p ns nx l : chain h p ns nx → head_loc ns = Some l → get_prev h (Some l) = Some p.
Proof. destruct ns as [|[l0 v0] ns]; [done|]. intros [Hn _] [= ->]. unfold get_prev. simpl. by rewrite Hn. Qed.

Lemma chain_get_val h p l v ns nx : chain h p ((l, v) :: ns) nx → get_val h (Some l) = Some v.
Proof. intros [Hn _]. unfold get_val. simpl. by rewrite Hn. Qed.

Lemma chain_last h p ns nx l :
  chain h p ns nx → last_loc ns = Some l →
  ∃ ns' v, ns = ns' ++ [(l, v)] ∧ chain h p ns' (Some l)
         ∧ h !! l = Some (MkBNode v (match last_loc ns' with Some l' => Some l' | None => p end) nx).
Proof.
  destruct ns as [|[l0 v0] ns' _] using rev_ind; [done|]. rewrite last_loc_snoc, chain_app.
  intros [H1 H2] [= ->]. exists ns', v0. cbn in *. naive_solver.
Qed.

Lemma chain_get_next h p ns nx l : chain h p ns nx → last_loc ns = Some l → get_next h (Some l) = Some nx.
Proof. intros Hc Hl. destruct (chain_last _ _ _ _ _ Hc Hl) as (ns' & v & _ & _ & Hn). unfold get_next. simpl. by rewrite Hn. Qed.

Lemma chain_set_prev h p ns nx l q :
  chain h p ns nx → NoDup ns.*1 → head_loc ns = Some l →
  ∃ h', set_prev h (Some l) q = Some h' ∧ chain h' q ns nx ∧ same_outside [l] h h'.
Proof.
  destruct ns as [|[l0 v0] ns]; [done|]. cbn [chain fmap list_fmap fst]. intros [Hn Hc] [Hl0 Hnd]%NoDup_cons [= ->].
  unfold set_prev. simpl. rewrite Hn. simpl. eexists. split; [done|]. split.
  - cbn [chain]. rewrite lookup_insert_eq. split; [done|]. by apply chain_insert.
  - intros l' Hl'. rewrite lookup_insert_ne; [done|set_solver].
Qed.

Lemma chain_set_next h p ns nx l q :
  chain h p ns nx → NoDup ns.*1 → last_loc ns = Some l →
  ∃ h', set_next h (Some l) q = Some h' ∧ chain h' p ns q ∧ same_outside [l] h h'.
Proof.
  intros Hc Hnd Hl. destruct (chain_last _ _ _ _ _ Hc Hl) as (ns' & v & -> & Hc' & Hn).
  unfold set_next. simpl. rewrite Hn. simpl. eexists. split; [done|].
  rewrite fmap_app, NoDup_app in Hnd. split.
  - rewrite chain_app. cbn [head_loc chain fmap option_fmap option_map head fst]. rewrite lookup_insert_eq.
    split; [|done]. apply chain_insert; [|done]. set_solver.
  - intros l' Hl'. rewrite lookup_insert_ne; [done|set_solver].
Qed.

Lemma last_loc_head ns l : head_loc ns = Some l → ∃ k, last_loc ns = Some k ∧ k ∈ ns.*1.
Proof.
  destruct ns as [|[l0 v0] ns _] using rev_ind; [done|]. intros _. rewrite last_loc_snoc.
  exists l0. rewrite fmap_app. set_solver.
Qed.

Lemma head_loc_last ns l : last_loc ns = Some l → ∃ k, head_loc ns = Some k ∧ k ∈ ns.*1.
Proof. destruct ns as [|[l0 v0] ns]; [done|]. intros _. exists l0. cbn. set_solver. Qed.

Lemma head_loc_elem ns l : head_loc ns = Some l → l ∈ ns.*1.
Proof. destruct ns as [|[l0 v0] ns]; [done|]. intros [= ->]. cbn. set_solver. Qed.

Lemma last_loc_elem ns l : last_loc ns = Some l → l ∈ ns.*1.
Proof. destruct ns as [|[l0 v0] ns _] using rev_ind; [done|]. rewrite last_loc_snoc, fmap_app. intros [= ->]. set_solver. Qed.
End ops.

(** Sets of nodes of different parts of a list. *)
Ltac outside_tac :=
  repeat match goal with
  | H : chain _ _ _ _ |- _ => clear H
  | H : NoDup _ |- _ => clear H
  | H : _ = head_loc _ |- _ => clear H
  | H : (_ < _)%Z |- _ => clear H
  | H : head_loc _ = Some _ |- _ => apply head_loc_elem in H
  | H : last_loc _ = Some _ |- _ => apply last_loc_elem in H
  end; rewrite ?fmap_app, ?fmap_cons, ?fmap_nil in *; cbn [fst] in *;
  repeat match goal with |- context [@fmap list list_fmap _ _ fst ?ns] =>
    let X := fresh "X" in set (X := @fmap list list_fmap _ _ fst ns) in *; clearbody X end;
  set_solver.

(** Carries the chain [H] over the heap change [Hs]. *)
Ltac carry Hs H := eapply (chain_same _ _ _ _ _ _ Hs) in H; [|outside_tac].

(** The nodes of a part of a list are distinct. *)
Ltac nodup_tac := first [done | apply NoDup_singleton | by rewrite ?fmap_app, ?NoDup_app in *; naive_solver].

(** Performs the next write to the link of a chain's first or last node. *)
Tactic Notation "write_prev" hyp(Hc) "as" ident(Hs) :=
  match goal with |- context [set_prev ?h (Some ?l) ?q] =>
    let h' := fresh "h" in let Hw := fresh "Hw" in let Hc' := fresh "Hc" in
    destruct (chain_set_prev _ _ _ _ l q Hc) as (h' & Hw & Hc' & Hs); [nodup_tac|done|];
    rewrite Hw; cbn [mbind option_bind]; clear Hw; clear Hc; rename Hc' into Hc end.
Tactic Notation "write_next" hyp(Hc) "as" ident(Hs) :=
  match goal with |- context [set_next ?h (Some ?l) ?q] =>
    let h' := fresh "h" in let Hw := fresh "Hw" in let Hc' := fresh "Hc" in
    destruct (chain_set_next _ _ _ _ l q Hc) as (h' & Hw & Hc' & Hs); [nodup_tac|done|];
    rewrite Hw; cbn [mbind option_bind]; clear Hw; clear Hc; rename Hc' into Hc end.
Tactic Notation "read_prev" hyp(Hc) := erewrite (chain_get_prev _ _ _ _ _ Hc) by done; cbn [mbind option_bind].
Tactic Notation "read_next" hyp(Hc) := erewrite (chain_get_next _ _ _ _ _ Hc) by done; cbn [mbind option_bind].

(** The heap changes of an operation stay among the nodes of its list. *)
Ltac outside_done :=
  repeat match goal with H : same_outside _ _ _ |- _ => eapply same_outside_trans; [eapply same_outside_weaken; [exact H|outside_tac]|]; clear H end;
  intros ? ?; rewrite ?lookup_insert_ne, ?lookup_delete_ne by outside_tac; done.

Section list_ops.
Context {T : Type}.
Implicit Types (h : gmap loc (BNode T)) (b : Blist) (l : loc) (v : T) (ns : list (loc * T)).

Lemma chain_detached h l v : detached h l v ↔ chain h None [(l, v)] None.
Proof. unfold detached. cbn. naive_solver. Qed.

Lemma SetHeader_spec h l v :
  detached h l v → ∃ h', SetHeader h (Some l) = Some (h', Some l) ∧ chain h' (Some l) [(l, v)] None ∧ same_outside [l] h h'.
Proof.
  rewrite chain_detached. intros Hd. unfold SetHeader. write_prev Hd as Hs.
  read_next Hd. by eauto.
Qed.

Lemma PushFront_rep h b ns l v :
  blist_rep h b ns → detached h l v → l ∉ ns.*1 → Z.of_nat (length ns) + 1 < 2 ^ 64 →
  ∃ h' b', PushFront h b l = Some (h', b') ∧ blist_rep h' b' ((l, v) :: ns) ∧ same_outside (l :: ns.*1) h h'.
Proof.
  intros Hrep Hd Hl Hlen. unfold PushFront. rewrite (rep_header _ _ _ Hrep).
  destruct Hrep as (Hnd & Hh & Hc & _ & Hch). destruct ns as [|x ns].
  - destruct (SetHeader_spec _ _ _ Hd) as (h' & -> & Hc' & Hs). simpl. eexists _, _. split; [done|].
    split; [|done]. unfold blist_rep. split_ands; [by apply NoDup_singleton|done..].
  - rewrite chain_detached in Hd. rewrite Hh. destruct (head_loc (x :: ns)) as [l0|] eqn:Hl0; [|by destruct x].
    write_next Hd as Hs1. carry Hs1 Hch.
    read_prev Hch. write_prev Hd as Hs2. carry Hs2 Hch.
    write_prev Hch as Hs3. carry Hs3 Hd. eexists _, _. split; [done|]. split; [|outside_done].
    unfold blist_rep. split_ands.
    + cbn. by apply NoDup_cons.
    + done.
    + cbn [count_ length]. rewrite Hc. rewrite u64_small; simpl in *; lia.
    + simpl in *. lia.
    + change ((l, v) :: x :: ns) with ([(l, v)] ++ x :: ns) at 2. rewrite chain_app, Hl0. done.
Qed.

Lemma PushBack_rep h b ns l v :
  blist_rep h b ns → detached h l v → l ∉ ns.*1 → Z.of_nat (length ns) + 1 < 2 ^ 64 →
  ∃ h' b', PushBack h b l = Some (h', b') ∧ blist_rep h' b' (ns ++ [(l, v)]) ∧ same_outside (l :: ns.*1) h h'.
Proof.
  intros Hrep Hd Hl Hlen. unfold PushBack. rewrite (rep_header _ _ _ Hrep).
  destruct Hrep as (Hnd & Hh & Hc & _ & Hch). destruct ns as [|x ns].
  - destruct (SetHeader_spec _ _ _ Hd) as (h' & -> & Hc' & Hs). simpl. eexists _, _. split; [done|].
    split; [|done]. unfold blist_rep. split_ands; [by apply NoDup_singleton|done..].
  - rewrite chain_detached in Hd. rewrite Hh. destruct (head_loc (x :: ns)) as [l0|] eqn:Hl0; [|by destruct x].
    destruct (last_loc_head _ _ Hl0) as (lk & Hlk & Hin). rewrite Hlk in Hch. read_prev Hch.
    write_prev Hd as Hs1. carry Hs1 Hch. read_prev Hch.
    write_next Hch as Hs2. carry Hs2 Hd. write_prev Hch as Hs3. carry Hs3 Hd. read_next Hd.
    eexists _, _. split; [done|]. split; [|outside_done].
    unfold blist_rep. split_ands.
    + rewrite fmap_app. apply NoDup_app. split_ands; [done|set_solver|by apply NoDup_singleton].
    + cbn [header_]. by destruct x.
    + cbn [count_]. rewrite Hc, length_app. rewrite u64_small; simpl in *; lia.
    + rewrite length_app. simpl in *. lia.
    + rewrite last_loc_snoc, chain_app, Hlk. done.
Qed.

(** The three parts of a list around one of its nodes. *)
Lemma rep_split h b ns1 l v ns2 :
  blist_rep h b (ns1 ++ (l, v) :: ns2) →
  let L := match last_loc ns2 with Some k => k | None => l end in
  NoDup ns1.*1 ∧ NoDup ns2.*1 ∧ l ∉ ns1.*1 ∧ l ∉ ns2.*1 ∧ ns1.*1 ## ns2.*1
  ∧ chain h (Some L) ns1 (Some l)
  ∧ chain h (Some match last_loc ns1 with Some k => k | None => L end) [(l, v)] (head_loc ns2)
  ∧ chain h (Some l) ns2 None
  ∧ last_loc (ns1 ++ (l, v) :: ns2) = Some L.
Proof.
  intros (Hnd & Hh & Hc & Hlen & Hch) L.
  assert (last_loc (ns1 ++ (l, v) :: ns2) = Some L) as HL.
  { unfold L. destruct ns2 as [|[k w] ns2 _] using rev_ind; [by rewrite last_loc_snoc|].
    rewrite last_loc_snoc, app_comm_cons, app_assoc. apply last_loc_snoc. }
  rewrite HL, chain_app in Hch. destruct Hch as [H1 [H2 H3]]. cbn in H1.
  rewrite fmap_app, NoDup_app in Hnd. cbn [fmap list_fmap fst] in Hnd. rewrite NoDup_cons in Hnd.
  destruct Hnd as (Hnd1 & Hdis & Hl2 & Hnd2). split_ands; try done; try set_solver.
  cbn [chain]. split; [|done]. rewrite H2. f_equal. f_equal; [by destruct (last_loc ns1)|by destruct ns2 as [|[]]].
Qed.

Lemma rep_intro h p ns :
  NoDup ns.*1 → Z.of_nat (length ns) < 2 ^ 64 → chain h (last_loc ns) ns None → p = head_loc ns →
  blist_rep h (MkBlist p (Z.of_nat (length ns))) ns.
Proof. intros ???->. unfold blist_rep. by split_ands. Qed.

Lemma get_prev_same ls h h' l : same_outside ls h h' → l ∉ ls → get_prev h' (Some l) = get_prev h (Some l).
Proof. intros Hs Hl. unfold get_prev. simpl. by rewrite Hs. Qed.

(** [Extract] of a node of the list; the node is detached. *)
Lemma Extract_rep h b ns1 l v ns2 :
  blist_rep h b (ns1 ++ (l, v) :: ns2) →
  ∃ h' b', Extract h b (Some l) = Some (h', b') ∧ blist_rep h' b' (ns1 ++ ns2) ∧ detached h' l v
         ∧ same_outside (ns1 ++ (l, v) :: ns2).*1 h h'.
Proof.
  intros Hrep. destruct (rep_split _ _ _ _ _ _ Hrep) as (Hnd1 & Hnd2 & Hl1 & Hl2 & Hdis & H1 & Hm & H2 & HL).
  destruct Hrep as (Hnd & Hh & Hc & Hlen & _). rewrite length_app in Hc, Hlen. simpl length in Hc, Hlen.
  assert (count_ b ⊟ 1 = Z.of_nat (length (ns1 ++ ns2))) as Hc'.
  { rewrite Hc, length_app, u64_small; lia. }
  unfold Extract. read_prev Hm. read_next Hm. rewrite Hc'. clear Hc Hc'.
  destruct (head_loc ns2) as [l2|] eqn:Hl2'.
  - (* not the last node *)
    destruct (last_loc_head _ _ Hl2') as (k & Hk & Hkin). rewrite Hk in *.
    write_prev H2 as Hs1. carry Hs1 Hm. carry Hs1 H1. read_prev Hm. read_next Hm.
    destruct (last_loc ns1) as [k1|] eqn:Hk1.
    + destruct (head_loc_last _ _ Hk1) as (h1 & Hh1 & Hin1).
      assert (header_ b = Some h1) as Hhd by (rewrite Hh; by destruct ns1 as [|[]]).
      rewrite Hhd. rewrite decide_False by (intros [= ->]; done).
      write_next H1 as Hs2. carry Hs2 Hm. carry Hs2 H2.
      write_prev Hm as Hs3. carry Hs3 H1. carry Hs3 H2. write_next Hm as Hs4. carry Hs4 H1. carry Hs4 H2.
      eexists _, _. split; [done|]. split_ands; [|by apply chain_detached|outside_done].
      apply rep_intro; [| |rewrite chain_app|].
      * rewrite fmap_app. apply NoDup_app. split_ands; [done|set_solver|done].
      * rewrite length_app. lia.
      * rewrite last_loc_app_ne, Hk by congruence. by rewrite Hl2', Hk1.
      * by destruct ns1 as [|[]].
    + destruct ns1 as [|x ns1]; [|by destruct x, (last_loc_head ((l0, t) :: ns1) l0) as (?&?&?); [done|congruence]].
      rewrite Hh. cbn [app head_loc head fmap option_fmap option_map fst]. rewrite decide_True by done. cbn [mbind option_bind app].
      write_prev Hm as Hs3. carry Hs3 H2. write_next Hm as Hs4. carry Hs4 H2.
      eexists _, _. split; [done|]. split_ands; [|by apply chain_detached|outside_done].
      apply rep_intro; [done|simpl in *; lia|by rewrite Hk|done].
  - (* the last node *)
    destruct ns2 as [|[] ns2]; [|done]. rewrite app_nil_r in *. cbn [last_loc last fmap option_fmap option_map] in *.
    destruct (last_loc ns1) as [k1|] eqn:Hk1.
    + destruct (head_loc_last _ _ Hk1) as (h1 & Hh1 & Hin1).
      assert (header_ b = Some h1) as Hhd by (rewrite Hh; by destruct ns1 as [|[]]).
      rewrite Hhd. read_prev H1. read_next Hm. write_prev H1 as Hs1. carry Hs1 Hm. read_prev Hm. read_next Hm.
      rewrite decide_False by (intros [= ->]; done). write_next H1 as Hs2. carry Hs2 Hm.
      write_prev Hm as Hs3. carry Hs3 H1. write_next Hm as Hs4. carry Hs4 H1.
      eexists _, _. split; [done|]. split_ands; [|by apply chain_detached|outside_done].
      apply rep_intro; [done|lia|by rewrite Hk1|done].
    + destruct ns1 as [|x ns1]; [|by destruct x, (last_loc_head ((l0, t) :: ns1) l0) as (?&?&?); [done|congruence]].
      rewrite Hh. cbn [app head_loc head fmap option_fmap option_map fst] in *. read_prev Hm. read_next Hm.
      write_prev Hm as Hs1. read_prev Hm. read_next Hm. rewrite decide_True by done. cbn [mbind option_bind app].
      write_prev Hm as Hs3. write_next Hm as Hs4.
      eexists _, _. split; [done|]. split_ands; [|by apply chain_detached|outside_done].
      apply rep_intro; [by apply NoDup_nil|done|done|done].
Qed.

(** A node that is in no list stays where it is. *)
Lemma Extract_detached h b l v : detached h l v → Extract h b (Some l) = Some (h, b).
Proof. intros Hd. unfold Extract, get_prev. simpl. by rewrite Hd. Qed.

Lemma DropNode_chain h p l v nx : chain h p [(l, v)] nx → DropNode h (Some l) = Some (delete l h).
Proof. intros [Hn _]. unfold DropNode. simpl. by rewrite Hn. Qed.

Lemma delete_outside h l : same_outside [l] h (delete l h).
Proof. intros l' Hl'. rewrite lookup_delete_ne; [done|set_solver]. Qed.

Lemma Erase_rep h b ns1 l v ns2 :
  blist_rep h b (ns1 ++ (l, v) :: ns2) →
  ∃ h' b', Erase h b (Some l) = Some (h', b') ∧ blist_rep h' b' (ns1 ++ ns2) ∧ h' !! l = None
         ∧ same_outside (ns1 ++ (l, v) :: ns2).*1 h h'.
Proof.
  intros Hrep. assert (NoDup (ns1 ++ (l, v) :: ns2).*1) as Hnd by apply Hrep.
  destruct (Extract_rep _ _ _ _ _ _ Hrep) as (h' & b' & He & (Hnd' & Hh & Hc & Hlen & Hch) & Hd & Hs).
  unfold Erase. rewrite He. cbn [mbind option_bind]. apply chain_detached in Hd. rewrite (DropNode_chain _ _ _ _ _ Hd).
  pose proof (delete_outside h' l) as Hs2. eexists _, _. split; [done|]. split_ands.
  - unfold blist_rep. split_ands; [done..|]. apply chain_delete; [|done].
    rewrite fmap_app in *. cbn [fmap list_fmap fst] in *. apply NoDup_app in Hnd as (? & ? & ?%NoDup_cons). set_solver.
  - by rewrite lookup_delete_eq.
  - outside_done.
Qed.

Lemma InsertAfter_rep h b ns1 l v ns2 m w :
  blist_rep h b (ns1 ++ (l, v) :: ns2) → detached h m w → m ∉ (ns1 ++ (l, v) :: ns2).*1 →
  Z.of_nat (length (ns1 ++ (l, v) :: ns2)) + 1 < 2 ^ 64 →
  ∃ h' b', InsertAfter h b (Some l) m = Some (h', b') ∧ blist_rep h' b' (ns1 ++ (l, v) :: (m, w) :: ns2)
         ∧ same_outside (m :: (ns1 ++ (l, v) :: ns2).*1) h h'.
Proof.
  rewrite (cons_middle (l, v)), (cons_middle (l, v) _ ((m, w) :: ns2)), !app_assoc.
  intros (Hnd & Hh & Hc & Hlen & Hch) Hd%chain_detached Hm Hb.
  set (A := ns1 ++ [(l, v)]) in *. assert (last_loc A = Some l) as HlA by apply last_loc_snoc. clearbody A.
  destruct (head_loc_last _ _ HlA) as (hA & HhA & HinA).
  assert (header_ b = Some hA) as Hhd by (rewrite Hh; by destruct A as [|[]]).
  assert (count_ b ⊞ 1 = Z.of_nat (length (A ++ (m, w) :: ns2))) as Hc'.
  { rewrite Hc, length_app, u64_small; rewrite length_app in *; simpl in *; lia. }
  rewrite chain_app, HlA in Hch. destruct Hch as [H1 H2]. unfold InsertAfter.
  replace (match head_loc ns2 with Some k => Some k | None => None end) with (head_loc ns2) in H1 by (by destruct (head_loc ns2)). rewrite Hhd, Hc'. clear Hc Hc'.
  rewrite fmap_app, NoDup_app in Hnd. destruct Hnd as (Hnd1 & Hdis' & Hnd2). rewrite fmap_app in Hm.
  assert (A.*1 ## ns2.*1) as Hdis by set_solver. clear Hdis'.
  read_next H1. write_prev Hd as Hs1. carry Hs1 H1. carry Hs1 H2. write_next Hd as Hs2. carry Hs2 H1. carry Hs2 H2.
  assert (NoDup (A ++ (m, w) :: ns2).*1).
  { rewrite fmap_app. cbn [fmap list_fmap fst]. apply NoDup_app. split_ands; [done|set_solver|]. apply NoDup_cons. set_solver. }
  assert (Some hA = head_loc (A ++ (m, w) :: ns2)) by (by destruct A as [|[]]).
  assert (Z.of_nat (length (A ++ (m, w) :: ns2)) < 2 ^ 64) by (rewrite length_app in *; simpl in *; lia).
  destruct (head_loc ns2) as [l2|] eqn:Hl2.
  - destruct (last_loc_head _ _ Hl2) as (k & Hk & Hkin).
    write_prev H2 as Hs3. carry Hs3 H1. carry Hs3 Hd. write_next H1 as Hs4. carry Hs4 H2. carry Hs4 Hd.
    eexists _, _. split; [done|]. split; [|outside_done]. apply rep_intro; [done..| |done].
    rewrite (cons_middle (m, w)), app_assoc, !last_loc_app_ne, Hk in * by congruence.
    rewrite <-app_assoc, chain_app, HlA. split; [done|]. rewrite chain_app, Hl2. done.
  - destruct ns2 as [|[] ns2]; [|done]. rewrite app_nil_r in *.
    write_prev H1 as Hs3. carry Hs3 Hd. write_next H1 as Hs4. carry Hs4 Hd.
    eexists _, _. split; [done|]. split; [|outside_done]. apply rep_intro; [done..| |done].
    rewrite last_loc_snoc, chain_app, HlA. done.
Qed.

Lemma PopFront_rep h b l v ns :
  blist_rep h b ((l, v) :: ns) →
  ∃ h' b', PopFront h b = Some (h', b', 1) ∧ blist_rep h' b' ns ∧ h' !! l = None
         ∧ same_outside ((l, v) :: ns).*1 h h'.
Proof.
  intros Hrep. unfold PopFront. rewrite (rep_header _ _ _ Hrep). change ((l, v) :: ns) with ([] ++ (l, v) :: ns) in Hrep.
  destruct (rep_split _ _ _ _ _ _ Hrep) as (_ & Hnd2 & _ & Hl2 & _ & _ & Hm & H2 & HL).
  destruct Hrep as (Hnd & Hh & Hc & Hlen & _). cbn [app length] in *. rewrite Hc, Hh.
  cbn [head_loc head fmap option_fmap option_map fst]. destruct ns as [|y ns].
  - rewrite bool_decide_eq_true_2 || cbn [Z.eqb]. simpl Z.eqb. cbv iota. rewrite (DropNode_chain _ _ _ _ _ Hm).
    cbn [mbind option_bind]. eexists _, _. split; [done|]. pose proof (delete_outside h l) as Hs.
    split_ands; [by apply (rep_intro _ None [])|by rewrite lookup_delete_eq|outside_done].
  - destruct (Z.eqb_spec (Z.of_nat (S (length (y :: ns)))) 1); [simpl in *; lia|].
    destruct (head_loc (y :: ns)) as [l2|] eqn:Hl2'; [|by destruct y].
    destruct (last_loc_head _ _ Hl2') as (k & Hk & Hkin). rewrite Hk in *.
    read_next Hm. read_prev Hm. write_prev H2 as Hs1. carry Hs1 Hm. rewrite (DropNode_chain _ _ _ _ _ Hm).
    cbn [mbind option_bind]. eexists _, _. split; [done|]. pose proof (delete_outside h0 l) as Hs.
    replace (Z.of_nat (S (length (y :: ns))) ⊟ 1) with (Z.of_nat (length (y :: ns))) by (rewrite u64_small; lia).
    split_ands; [|by rewrite lookup_delete_eq|outside_done].
    apply rep_intro; [done|lia|rewrite Hk; by apply chain_delete|done].
Qed.

Lemma PopBack_rep h b l v ns :
  blist_rep h b (ns ++ [(l, v)]) →
  ∃ h' b', PopBack h b = Some (h', b', 1) ∧ blist_rep h' b' ns ∧ h' !! l = None
         ∧ same_outside (ns ++ [(l, v)]).*1 h h'.
Proof.
  intros Hrep. unfold PopBack. rewrite (rep_header _ _ _ Hrep).
  destruct (rep_split _ _ _ _ _ _ Hrep) as (Hnd1 & _ & Hl1 & _ & _ & H1 & Hm & _ & HL).
  destruct Hrep as (Hnd & Hh & Hc & Hlen & _). rewrite length_app in Hc, Hlen. simpl length in Hc, Hlen.
  cbn [last_loc last fmap option_fmap option_map] in *.
  destruct (head_loc ns) as [h1|] eqn:Hh1.
  - destruct (last_loc_head _ _ Hh1) as (k & Hk & Hkin). rewrite Hk in *. pose proof (head_loc_elem _ _ Hh1).
    replace (match ns ++ [(l, v)] with [] => true | _ => false end) with false by (by destruct ns).
    destruct (Z.eqb_spec (count_ b) 1); [destruct ns; simpl in *; [done|lia]|].
    assert (header_ b = Some h1) as -> by (rewrite Hh; by destruct ns as [|[]]).
    read_prev H1. read_prev Hm. write_next H1 as Hs1. carry Hs1 Hm. read_prev Hm. write_prev H1 as Hs2. carry Hs2 Hm.
    rewrite (DropNode_chain _ _ _ _ _ Hm). cbn [mbind option_bind]. eexists _, _. split; [done|].
    match goal with |- context [delete l ?h'] => pose proof (delete_outside h' l) as Hs end.
    replace (count_ b ⊟ 1) with (Z.of_nat (length ns)) by (rewrite Hc, u64_small; lia).
    split_ands; [|by rewrite lookup_delete_eq|outside_done].
    apply rep_intro; [done|lia|rewrite Hk; by apply chain_delete|done].
  - destruct ns as [|[] ns]; [|done]. cbn [app length] in *. rewrite Hc, Hh.
    cbn [head_loc head fmap option_fmap option_map fst]. simpl Z.eqb. cbv iota. rewrite (DropNode_chain _ _ _ _ _ Hm).
    cbn [mbind option_bind]. eexists _, _. split; [done|]. pose proof (delete_outside h l) as Hs.
    split_ands; [by apply (rep_intro _ None [])|by rewrite lookup_delete_eq|outside_done].
Qed.
End list_ops.

(** ** Histories of a list *)

Section history.
Context {T : Type}.
Implicit Types (h : gmap loc (BNode T)) (b : Blist) (l : loc) (v : T) (ns : list (loc * T)).

(** The calls on one list, by value; [Clear] is given the fuel its loop needs. *)
Inductive blist_op :=
  | OpPushFront (v : T)
  | OpPushBack (v : T)
  | OpPopFront
  | OpPopBack
  | OpClear.

(** One call: the new heap and list, and the returned flag. *)
Definition blist_step h b (o : blist_op) : option (gmap loc (BNode T) * Blist * Z) :=
  match o with
  | OpPushFront v => '(h, b) ← EmplaceFront h b v; Some (h, b, 1)
  | OpPushBack v => '(h, b) ← EmplaceBack h b v; Some (h, b, 1)
  | OpPopFront => PopFront h b
  | OpPopBack => PopBack h b
  | OpClear => '(h, b) ← Clear (size h) h b; Some (h, b, 0)
  end.

Fixpoint blist_run h b (os : list blist_op) : option (gmap loc (BNode T) * Blist * list Z) :=
  match os with
  | [] => Some (h, b, [])
  | o :: os' =>
      '(h, b, r) ← blist_step h b o;
      '(h, b, rs) ← blist_run h b os';
      Some (h, b, r :: rs)
  end.

(** The same calls on a sequence of values. *)
Definition seq_step (s : list T) (o : blist_op) : list T * Z :=
  match o with
  | OpPushFront v => (v :: s, 1)
  | OpPushBack v => (s ++ [v], 1)
  | OpPopFront => match s with [] => ([], 0) | _ :: s' => (s', 1) end
  | OpPopBack => match s with [] => ([], 0) | _ :: _ => (removelast s, 1) end
  | OpClear => ([], 0)
  end.

Fixpoint seq_run (s : list T) (os : list blist_op) : list T * list Z :=
  match os with
  | [] => (s, [])
  | o :: os' => let '(s, r) := seq_step s o in let '(s, rs) := seq_run s os' in (s, r :: rs)
  end.

(** The heap [h] holds the nodes of [ns] and otherwise what [h0] holds. *)
Definition owns (h0 h : gmap loc (BNode T)) ns : Prop :=
  (∀ l, l ∈ ns.*1 → h0 !! l = None) ∧ (∀ l, l ∉ ns.*1 → h !! l = h0 !! l).

Lemma rep_dom h b ns l : blist_rep h b ns → l ∈ ns.*1 → is_Some (h !! l).
Proof.
  intros (_ & _ & _ & _ & Hc) Hl. apply list_elem_of_fmap in Hl as ([l' v] & -> & Hin).
  destruct (chain_lookup _ _ _ _ _ _ Hc Hin) as (n & Hn & _). by exists n.
Qed.

Lemma rep_size h b ns : blist_rep h b ns → (length ns ≤ size h)%nat.
Proof.
  intros Hr. rewrite <-(length_fmap fst), <-size_dom, <-(size_list_to_set (C := gset loc)) by apply Hr.
  apply subseteq_size. intros l. rewrite elem_of_list_to_set, elem_of_dom. by apply (rep_dom h b).
Qed.

(** [CreateNode] allocates a node that no list has. *)
Lemma CreateNode_spec h v :
  ∃ l, CreateNode h v = (<[l := MkBNode v None None]> h, l) ∧ h !! l = None.
Proof. exists (fresh (dom h)). split; [done|]. apply not_elem_of_dom, is_fresh. Qed.

Lemma rep_alloc h b ns l n : blist_rep h b ns → h !! l = None → l ∉ ns.*1 ∧ blist_rep (<[l := n]> h) b ns.
Proof.
  intros Hr Hl. assert (l ∉ ns.*1) as Hni.
  { intros Hin. destruct (rep_dom _ _ _ _ Hr Hin) as [? ?]. congruence. }
  split; [done|]. destruct Hr as (? & ? & ? & ? & ?). unfold blist_rep. split_ands; [done..|]. by apply chain_insert.
Qed.

Lemma clear_loop_spec fuel h p ns :
  chain h p ns None → NoDup ns.*1 → (length ns ≤ fuel)%nat →
  ∃ h', clear_loop fuel h (head_loc ns) = Some h'
      ∧ (∀ l, l ∈ ns.*1 → h' !! l = None) ∧ same_outside ns.*1 h h'.
Proof.
  revert fuel h p. induction ns as [|[l v] ns IH]; intros fuel h p Hc Hnd Hf.
  { exists h. split; [by destruct fuel|]. split; [set_solver|]. by intros ??. }
  destruct fuel as [|fuel]; simpl in Hf; [lia|]. cbn [fmap list_fmap fst] in *. apply NoDup_cons in Hnd as [Hl Hnd].
  destruct Hc as [Hn Hc]. cbn [clear_loop head_loc head fmap option_fmap option_map fst].
  unfold get_next, DropNode. cbn [mbind option_bind]. rewrite Hn. cbn [mbind option_bind next].
  replace (match ns with [] => None | (l', _) :: _ => Some l' end) with (head_loc ns) by (by destruct ns as [|[]]).
  destruct (IH fuel (delete l h) (Some l)) as (h' & -> & Hd & Hs); [by apply chain_delete|done|lia|].
  exists h'. split; [done|]. split.
  - intros l' [->|Hl']%elem_of_cons; [|by apply Hd]. rewrite Hs by done. by rewrite lookup_delete_eq.
  - intros l' Hl'. rewrite Hs by set_solver. rewrite lookup_delete_ne; [done|set_solver].
Qed.

(** One call against the sequence. *)
Lemma blist_step_spec h0 h b ns o :
  blist_rep h b ns → owns h0 h ns → Z.of_nat (length ns) + 1 < 2 ^ 64 →
  ∃ h' b' ns' r, blist_step h b o = Some (h', b', r) ∧ seq_step ns.*2 o = (ns'.*2, r)
               ∧ blist_rep h' b' ns' ∧ owns h0 h' ns' ∧ (length ns' ≤ S (length ns))%nat.
Proof.
  intros Hr [Hfr Hkeep] Hlen. destruct o as [v|v| | |]; cbn [blist_step].
  - unfold EmplaceFront. destruct (CreateNode_spec h v) as (l & -> & Hl). set (h1 := <[l := _]> h).
    destruct (rep_alloc h b ns l (MkBNode v None None) Hr Hl) as [Hni Hr1].
    destruct (PushFront_rep h1 b ns l v Hr1) as (h' & b' & -> & Hr' & Hs); [by unfold detached, h1; rewrite lookup_insert_eq|done|done|].
    exists h', b', ((l, v) :: ns), 1. split_ands; [done|done|done| |simpl; lia].
    split; cbn [fmap list_fmap fst].
    + intros l' [->|Hl']%elem_of_cons; [|by apply Hfr]. by rewrite <-Hkeep.
    + intros l' Hl'. rewrite Hs by done. unfold h1. rewrite lookup_insert_ne by set_solver. apply Hkeep. set_solver.
  - unfold EmplaceBack. destruct (CreateNode_spec h v) as (l & -> & Hl). set (h1 := <[l := _]> h).
    destruct (rep_alloc h b ns l (MkBNode v None None) Hr Hl) as [Hni Hr1].
    destruct (PushBack_rep h1 b ns l v Hr1) as (h' & b' & -> & Hr' & Hs); [by unfold detached, h1; rewrite lookup_insert_eq|done|done|].
    exists h', b', (ns ++ [(l, v)]), 1. split_ands; [done|by simpl; rewrite fmap_app|done| |rewrite length_app; simpl; lia].
    split; rewrite fmap_app; cbn [fmap list_fmap fst].
    + intros l' [Hl'| ->%list_elem_of_singleton]%elem_of_app; [by apply Hfr|]. by rewrite <-Hkeep.
    + intros l' Hl'. rewrite Hs by set_solver. unfold h1. rewrite lookup_insert_ne by set_solver. apply Hkeep. set_solver.
  - destruct ns as [|[l v] ns].
    + exists h, b, [], 0. unfold PopFront. rewrite (rep_header _ _ _ Hr). by split_ands; [done|done|done|by split|simpl; lia].
    + destruct (PopFront_rep _ _ _ _ _ Hr) as (h' & b' & -> & Hr' & Hl & Hs).
      exists h', b', ns, 1. split_ands; [done..| |simpl; lia]. cbn [fmap list_fmap fst] in *. split.
      * intros l' Hl'. apply Hfr. set_solver.
      * intros l' Hl'. destruct (decide (l' = l)) as [->|Hne]; [rewrite Hl, Hfr by set_solver; done|].
        rewrite Hs by set_solver. apply Hkeep. set_solver.
  - destruct ns as [|[l v] ns _] using rev_ind.
    + exists h, b, [], 0. unfold PopBack. rewrite (rep_header _ _ _ Hr). by split_ands; [done|done|done|by split|simpl; lia].
    + destruct (PopBack_rep _ _ _ _ _ Hr) as (h' & b' & -> & Hr' & Hl & Hs).
      exists h', b', ns, 1. split_ands; [done| |done| |rewrite length_app; simpl; lia].
      * cbn [seq_step]. rewrite fmap_app. rewrite fmap_cons, fmap_nil, removelast_last. by destruct (ns.*2).
      * rewrite fmap_app in *. cbn [fmap list_fmap fst] in *. split.
        -- intros l' Hl'. apply Hfr. set_solver.
        -- intros l' Hl'. destruct (decide (l' = l)) as [->|Hne]; [rewrite Hl, Hfr by set_solver; done|].
           rewrite Hs by set_solver. apply Hkeep. set_solver.
  - assert (Hr2 := Hr). destruct Hr2 as (Hnd & Hh & _ & _ & Hc). unfold Clear. rewrite Hh.
    destruct (clear_loop_spec (size h) _ _ _ Hc Hnd (rep_size _ _ _ Hr)) as (h' & -> & Hd & Hs). simpl.
    exists h', blist_init, [], 0. split_ands; [done|done| | |simpl; lia].
    + apply (rep_intro _ None []); [by apply NoDup_nil|done|done|done].
    + split; [set_solver|]. intros l' _. destruct (decide (l' ∈ ns.*1)) as [Hl'|Hl'].
      * by rewrite Hd, Hfr.
      * by rewrite Hs, Hkeep.
Qed.

Lemma blist_run_spec h0 h b ns os :
  blist_rep h b ns → owns h0 h ns → Z.of_nat (length ns) + Z.of_nat (length os) < 2 ^ 64 →
  ∃ h' b' ns' rs, blist_run h b os = Some (h', b', rs) ∧ seq_run ns.*2 os = (ns'.*2, rs)
                ∧ blist_rep h' b' ns' ∧ owns h0 h' ns'.
Proof.
  revert h b ns. induction os as [|o os IH]; intros h b ns Hr Ho Hlen; [by exists h, b, ns, []|].
  cbn [length] in Hlen.
  destruct (blist_step_spec h0 h b ns o) as (h1 & b1 & ns1 & r & Hst & Hsq & Hr1 & Ho1 & Hl1); [done|done|lia|].
  destruct (IH h1 b1 ns1) as (h' & b' & ns' & rs & Hrun & Hsr & ? & ?); [done|done|lia|].
  exists h', b', ns', (r :: rs). split_ands; [|cbn [seq_run]; by rewrite Hsq, Hsr|done|done].
  cbn [blist_run]. rewrite Hst. cbn [mbind option_bind]. by rewrite Hrun.
Qed.
End history.

Section claims.
Context {T : Type}.
Implicit Types (h : gmap loc (BNode T)) (b : Blist) (l : loc) (v : T) (ns : list (loc * T)).

(** Every history of pushes, pops and clears on an empty list runs without
    a null dereference, a use of a freed node or a failed assertion, returns the
    flags the same history returns on a sequence of values, leaves a list that a
    walk reads as that sequence and whose [count_] is its length; it changes no
    other node of the heap and keeps no node that is not in the list. *)
Theorem blist_history h (os : list (blist_op (T := T))) :
  Z.of_nat (length os) < 2 ^ 64 →
  ∃ h' b ns rs, blist_run h blist_init os = Some (h', b, rs) ∧ seq_run [] os = (ns.*2, rs)
    ∧ walk (length ns) h' (header_ b) = Some ns.*2 ∧ count_ b = Z.of_nat (length ns)
    ∧ (∀ l, l ∈ ns.*1 → h !! l = None) ∧ (∀ l, l ∉ ns.*1 → h' !! l = h !! l).
Proof.
  intros Hlen. destruct (blist_run_spec h h blist_init [] os) as (h' & b & ns & rs & Hrun & Hseq & Hr & Ho).
  - by apply (rep_intro _ None []); [by apply NoDup_nil|..].
  - split; [set_solver|done].
  - done.
  - destruct Hr as (_ & Hh & Hc & _ & Hch). exists h', b, ns, rs. rewrite Hh.
    destruct Ho. split_ands; try done. by eapply walk_spec.
Qed.

(** Two lists share one heap.  [Extract] takes a node out of the first
    without copying its value, [PushBack] links it behind the second, and
    nothing else of the heap changes: the first list is the old one without the
    node, the second the old one followed by it. *)
Theorem blist_move h b1 b2 ns1 l v ns2 ms :
  blist_rep h b1 (ns1 ++ (l, v) :: ns2) → blist_rep h b2 ms →
  (ns1 ++ (l, v) :: ns2).*1 ## ms.*1 → Z.of_nat (length ms) + 1 < 2 ^ 64 →
  ∃ h1 h' b1' b2', Extract h b1 (Some l) = Some (h1, b1') ∧ PushBack h1 b2 l = Some (h', b2')
    ∧ blist_rep h' b1' (ns1 ++ ns2) ∧ blist_rep h' b2' (ms ++ [(l, v)])
    ∧ same_outside ((ns1 ++ (l, v) :: ns2).*1 ++ ms.*1) h h'.
Proof.
  intros Hr1 Hr2 Hdis Hlen. assert (Hsp := rep_split _ _ _ _ _ _ Hr1).
  destruct (Extract_rep _ _ _ _ _ _ Hr1) as (h1 & b1' & He & Hr1' & Hd & Hs).
  assert (blist_rep h1 b2 ms) as Hr2'.
  { destruct Hr2 as (? & ? & ? & ? & ?). unfold blist_rep. split_ands; [done..|]. eapply chain_same; [done| |done]. set_solver. }
  destruct (PushBack_rep h1 b2 ms l v Hr2' Hd) as (h' & b2' & Hp & Hr2'' & Hs2); [|done|].
  { rewrite fmap_app in Hdis. cbn [fmap list_fmap fst] in Hdis. set_solver. }
  exists h1, h', b1', b2'. split_ands; [done|done| |done|].
  - destruct Hr1' as (? & ? & ? & ? & ?). unfold blist_rep. split_ands; [done..|].
    eapply chain_same; [exact Hs2| |done]. cbv zeta in Hsp. rewrite !fmap_app in *. cbn [fmap list_fmap fst] in *.
    destruct Hsp as (_ & _ & Hl1 & Hl2 & _). outside_tac.
  - rewrite fmap_app in *. cbn [fmap list_fmap fst] in *. outside_done.
Qed.

(** The nodes the initializer-list constructor links. *)
Lemma init_loop_spec h hd v0 ns pv vp il :
  NoDup (((hd, v0) :: ns).*1) → chain h None ((hd, v0) :: ns) None → last ((hd, v0) :: ns) = Some (pv, vp) →
  ∃ h' ms, init_loop h hd pv il = Some h' ∧ ms.*2 = v0 :: ns.*2 ++ il ∧ head_loc ms = Some hd
         ∧ chain h' (last_loc ms) ms None ∧ NoDup ms.*1.
Proof.
  revert h ns pv vp. induction il as [|v il IH]; intros h ns pv vp Hnd Hc Hlast; cbn [init_loop].
  - assert (last_loc ((hd, v0) :: ns) = Some pv) as Hl by (unfold last_loc; by rewrite Hlast).
    destruct (chain_set_prev _ _ _ _ hd (Some pv) Hc Hnd) as (h' & Hw & Hc' & _); [done|].
    exists h', ((hd, v0) :: ns). rewrite Hl. split_ands; [done|by rewrite app_nil_r|done..].
  - destruct (CreateNode_spec h v) as (l & -> & Hl).
    assert (last_loc ((hd, v0) :: ns) = Some pv) as Hlp by (unfold last_loc; by rewrite Hlast).
    assert (l ∉ ((hd, v0) :: ns).*1) as Hni.
    { intros Hin. apply list_elem_of_fmap in Hin as ([l' w] & -> & Hin).
      destruct (chain_lookup _ _ _ _ _ _ Hc Hin) as (n & Hn & _). simpl in Hl. congruence. }
    apply (chain_insert h l (MkBNode v None None)) in Hc; [|done].
    assert (chain (<[l := MkBNode v None None]> h) None [(l, v)] None) as Hd by (cbn; by rewrite lookup_insert_eq).
    write_next Hc as Hs1. carry Hs1 Hd. write_prev Hd as Hs2. carry Hs2 Hc.
    destruct (IH h1 (ns ++ [(l, v)]) l v) as (h' & ms & Hrun & Hms & Hhd & Hcm & Hndm).
    + rewrite app_comm_cons, fmap_app. apply NoDup_app. split_ands; [done|set_solver|apply NoDup_singleton].
    + rewrite app_comm_cons, chain_app, Hlp. by cbn [head_loc head fmap option_fmap option_map fst].
    + rewrite app_comm_cons. apply last_snoc.
    + exists h', ms. split_ands; [done| |done..]. rewrite Hms, fmap_app. cbn [fmap list_fmap snd]. by rewrite <-app_assoc.
Qed.

(** The initializer-list constructor links a node per element, in order, but
    leaves [count_] at 0: the size of a list built this way is wrong whenever it
    has elements. *)
Theorem blist_initializer_count h v il :
  ∃ h' b, Blist_of h (v :: il) = Some (h', b) ∧ walk (S (length il)) h' (header_ b) = Some (v :: il)
        ∧ count_ b = 0.
Proof.
  unfold Blist_of. destruct (CreateNode_spec h v) as (l & -> & Hl).
  destruct (init_loop_spec (<[l := MkBNode v None None]> h) l v [] l v il) as (h' & ms & -> & Hms & Hhd & Hc & _).
  { apply NoDup_singleton. } { cbn. by rewrite lookup_insert_eq. } { done. }
  cbn [mbind option_bind]. eexists _, _. split; [done|]. cbn [header_ count_]. split; [|done].
  rewrite <-Hhd. rewrite (walk_spec _ _ _ _ Hc); [by rewrite Hms|].
  apply (f_equal length) in Hms. rewrite length_fmap in Hms. rewrite Hms. simpl. lia.
Qed.

(** [InsertAfter] with a null position calls [SetHeader] on the null position
    instead of on the new node. *)
Lemma insert_after_null h l : InsertAfter h blist_init None l = None.
Proof. done. Qed.
End claims.

Module BlistExamples.

(** Witness of [blist_history]. *)
Lemma blist_history_witness :
  ∃ h' b ns rs, blist_run ∅ blist_init [OpPushBack 1; OpPushFront 2; OpPopBack; OpPushBack 3; OpPopFront; OpPopBack; OpPopBack; OpPushBack 4] = Some (h', b, rs)
    ∧ seq_run [] [OpPushBack 1; OpPushFront 2; OpPopBack; OpPushBack 3; OpPopFront; OpPopBack; OpPopBack; OpPushBack 4] = (ns.*2, rs)
    ∧ walk (length ns) h' (header_ b) = Some ns.*2 ∧ count_ b = Z.of_nat (length ns)
    ∧ (∀ l, l ∈ ns.*1 → (∅ : gmap loc (BNode Z)) !! l = None) ∧ (∀ l, l ∉ ns.*1 → h' !! l = (∅ : gmap loc (BNode Z)) !! l).
Proof. apply blist_history. reflexivity. Defined.

(** Two lists of one heap. *)
Definition two_lists : gmap loc (BNode Z) :=
  {[ 1%positive := MkBNode 10 (Some 2%positive) (Some 2%positive);
     2%positive := MkBNode 20 (Some 1%positive) None;
     3%positive := MkBNode 30 (Some 3%positive) None ]}.

Lemma blist_move_witness :
  ∃ h1 h' b1' b2', Extract two_lists (MkBlist (Some 1%positive) 2) (Some 1%positive) = Some (h1, b1')
    ∧ PushBack h1 (MkBlist (Some 3%positive) 1) 1%positive = Some (h', b2')
    ∧ blist_rep h' b1' ([] ++ [(2%positive, 20)]) ∧ blist_rep h' b2' ([(3%positive, 30)] ++ [(1%positive, 10)])
    ∧ same_outside (([] ++ (1%positive, 10) :: [(2%positive, 20)]).*1 ++ [(3%positive, 30)].*1) two_lists h'.
Proof.
  apply (blist_move two_lists (MkBlist (Some 1%positive) 2) (MkBlist (Some 3%positive) 1) [] 1%positive 10 [(2%positive, 20)] [(3%positive, 30)]).
  - unfold blist_rep. split_ands; [apply NoDup_cons; split; [set_solver|apply NoDup_singleton]|done|done|done|].
    cbn. split_ands; [reflexivity|reflexivity|done].
  - unfold blist_rep. split_ands; [apply NoDup_singleton|done|done|done|]. cbn. split; [reflexivity|done].
  - cbn. set_solver.
  - done.
Defined.
End BlistExamples.
