(* ===== verification/Cache.v ===== *)
(** * The interface of the replacement policies

    [mmkv/replacement/cache_interface.h].  The abstract class [CacheInterface]
    is a type class of operations; the policies [LruCache], [MruCache] and
    [LfuCache] are instances, and so are the reference policies they are
    compared with.  [None] is a null dereference, a failed [assert] or a fault
    in the dictionary or the list underneath. *)

From S2P Require Import Prelude Dict.

(** The virtual functions; [cache_new] is the constructor.  Returned pointers
    are to keys held by the cache, and stand for those keys. *)
Class CacheInterface (C K : Type) := {
  cache_new : Z → C;
  UpdateEntry : C → K → option (C * option K);
  DelEntry : C → K → option (C * bool);
  Search : C → K → option (C * option K);
  Victim : C → option (option K);
  DelVictim : C → option C;
  cache_size : C → Z;
  cache_Clear : C → option C;
}.

(** [Exists(key)]. *)
Definition Exists {C K} `{CacheInterface C K} (c : C) (k : K) : option (C * bool) :=
  '(c, r) ← Search c k;
  Some (c, match r with Some _ => true | None => false end).

(** ** Histories *)

Inductive cache_op (K : Type) :=
  | CUpdate (k : K)
  | CDel (k : K)
  | CExists (k : K)
  | CVictim
  | CDelVictim
  | CClear.
Arguments CUpdate {K}.
Arguments CDel {K}.
Arguments CExists {K}.
Arguments CVictim {K}.
Arguments CDelVictim {K}.
Arguments CClear {K}.

(** What a call answers: a flag, a key, and the size afterwards. *)
Definition cache_answer (K : Type) : Type := bool * option K * Z.

Section run.
Context {C K : Type} `{CacheInterface C K}.
Implicit Types (c : C) (k : K).

Definition cache_step c (o : cache_op K) : option (C * cache_answer K) :=
  match o with
  | CUpdate k => '(c, r) ← UpdateEntry c k; Some (c, (true, r, cache_size c))
  | CDel k => '(c, b) ← DelEntry c k; Some (c, (b, None, cache_size c))
  | CExists k => '(c, b) ← Exists c k; Some (c, (b, None, cache_size c))
  | CVictim => r ← Victim c; Some (c, (true, r, cache_size c))
  | CDelVictim => c ← DelVictim c; Some (c, (true, None, cache_size c))
  | CClear => c ← cache_Clear c; Some (c, (true, None, cache_size c))
  end.

Fixpoint cache_run c (os : list (cache_op K)) : option (C * list (cache_answer K)) :=
  match os with
  | [] => Some (c, [])
  | o :: os' =>
      '(c, a) ← cache_step c o;
      '(c, rest) ← cache_run c os';
      Some (c, a :: rest)
  end.
End run.

(** ** Simulation

    A policy [C] implements a reference policy [S]: related states give the
    same answers and related states again, as long as the reference does not
    itself fail and its [weight] (a bound on what the cache counts, which a call
    raises by at most one) is below 2^61. *)
Class CacheSim (C S K : Type) `{CacheInterface C K} `{CacheInterface S K}
    (key_ok : K → Prop) (weight : S → Z) (R : C → S → Prop) := {
  sim_new n : 0 ≤ n < 2 ^ 64 → R (cache_new n) (cache_new n) ∧ weight (cache_new n) = 0;
  sim_size c s : R c s → cache_size c = cache_size s;
  sim_update c s k s' r : R c s → key_ok k → weight s < max_elems → UpdateEntry s k = Some (s', r) →
    (∃ c', UpdateEntry c k = Some (c', r) ∧ R c' s') ∧ weight s' ≤ weight s + 1;
  sim_del c s k s' b : R c s → key_ok k → DelEntry s k = Some (s', b) →
    (∃ c', DelEntry c k = Some (c', b) ∧ R c' s') ∧ weight s' ≤ weight s;
  sim_search c s k s' r : R c s → key_ok k → Search s k = Some (s', r) →
    (∃ c', Search c k = Some (c', r) ∧ R c' s') ∧ weight s' ≤ weight s;
  sim_victim c s r : R c s → Victim s = Some r → Victim c = Some r;
  sim_del_victim c s s' : R c s → DelVictim s = Some s' →
    (∃ c', DelVictim c = Some c' ∧ R c' s') ∧ weight s' ≤ weight s;
  sim_clear c s s' : R c s → cache_Clear s = Some s' →
    (∃ c', cache_Clear c = Some c' ∧ R c' s') ∧ weight s' ≤ weight s;
}.

Section simulation.
Context {C S K : Type} {ci : CacheInterface C K} {si : CacheInterface S K} (key_ok : K → Prop) (weight : S → Z)
  (R : C → S → Prop) `{!CacheSim C S K key_ok weight R}.

Definition cache_op_ok (o : cache_op K) : Prop :=
  match o with CUpdate k | CDel k | CExists k => key_ok k | _ => True end.

Lemma cache_step_sim (c : C) (s s' : S) o a :
  R c s → cache_op_ok o → weight s < max_elems → cache_step s o = Some (s', a) →
  ∃ c', cache_step c o = Some (c', a) ∧ R c' s' ∧ weight s' ≤ weight s + 1.
Proof.
  intros HR Hok Hsz Hst. destruct o as [k|k|k| | |]; cbn [cache_step cache_op_ok] in *; unfold Exists in *.
  - destruct (UpdateEntry s k) as [[s1 r]|] eqn:E; simplify_eq/=.
    destruct (sim_update c s k s' r) as [(c1 & -> & HR1) ?]; [done..|]. simpl. rewrite (sim_size c1 s' HR1). eauto.
  - destruct (DelEntry s k) as [[s1 r]|] eqn:E; simplify_eq/=.
    destruct (sim_del c s k s' r) as [(c1 & -> & HR1) ?]; [done..|]. simpl. rewrite (sim_size c1 s' HR1).
    eexists. split_ands; [done..|lia].
  - destruct (Search s k) as [[s1 r]|] eqn:E; simplify_eq/=.
    destruct (sim_search c s k s' r) as [(c1 & -> & HR1) ?]; [done..|]. simpl. rewrite (sim_size c1 s' HR1).
    eexists. split_ands; [done..|lia].
  - destruct (Victim s) as [r|] eqn:E; simplify_eq/=.
    rewrite (sim_victim c s' r) by done. simpl. rewrite (sim_size c s') by done. eexists. split_ands; [done..|lia].
  - destruct (DelVictim s) as [s1|] eqn:E; simplify_eq/=.
    destruct (sim_del_victim c s s') as [(c1 & -> & HR1) ?]; [done..|]. simpl. rewrite (sim_size c1 s' HR1).
    eexists. split_ands; [done..|lia].
  - destruct (cache_Clear s) as [s1|] eqn:E; simplify_eq/=.
    destruct (sim_clear c s s') as [(c1 & -> & HR1) ?]; [done..|]. simpl. rewrite (sim_size c1 s' HR1).
    eexists. split_ands; [done..|lia].
Qed.

Lemma cache_run_sim (c : C) (s s' : S) os l :
  R c s → Forall cache_op_ok os → weight s + Z.of_nat (length os) ≤ max_elems → cache_run s os = Some (s', l) →
  ∃ c', cache_run c os = Some (c', l) ∧ R c' s'.
Proof.
  revert c s l. induction os as [|o os IH]; intros c s l HR Hok Hsz Hrun; cbn [cache_run] in *; [simplify_eq; eauto|].
  apply Forall_cons in Hok as [Ho Hok]. cbn [length] in Hsz.
  destruct (cache_step s o) as [[s1 a]|] eqn:E; simplify_eq/=.
  destruct (cache_run s1 os) as [[s2 l2]|] eqn:E2; simplify_eq/=.
  destruct (cache_step_sim c s s1 o a) as (c1 & -> & HR1 & ?); [done|done|lia|done|]. simpl.
  destruct (IH c1 s1 l2) as (c2 & -> & ?); [done|done|lia|done|]. simpl. eauto.
Qed.
End simulation.
