(* ===== verification/ListCache.v ===== *)
(** * The LRU and MRU policies

    [mmkv/replacement/lru_cache.h], [mru_cache.h] and their implementations.
    Both keep a doubly linked list of pointers to the keys, most recently used
    first, and a dictionary from keys to list nodes.  The keys live in the
    dictionary: a pointer to a key is modelled by the key, and the invariant says
    that every key of the list is in the dictionary, so that no such pointer
    dangles. *)

From S2P Require Import Prelude Comparator Dict HashTableBase HashTable Dictionary Blist Cache.

(** The fields of both classes; [nodes_] is the heap of list nodes. *)
Record ListCache (D K : Type) := MkListCache {
  max_size_ : Z;
  nodes_ : gmap loc (BNode K);
  lst_ : Blist;
  dict_ : D
}.
Arguments MkListCache {D K}.
Arguments max_size_ {D K}.
Arguments nodes_ {D K}.
Arguments lst_ {D K}.
Arguments dict_ {D K}.

Section list_cache.
Context {D K : Type} `{!DictOps D K (KeyValue K (option loc))}.
Abbreviation T := (ListCache D K).
Abbreviation Entry := (KeyValue K (option loc)).
Implicit Types (c : T) (k : K).

Definition list_cache_new (max_size : Z) : T := MkListCache max_size ∅ blist_init (d_init (T := Entry)).

Definition list_cache_size c : Z := count_ (lst_ c).

(** An entry that is there: [Extract(node); PushFront(node)]. *)
Definition move_to_front c (node : option loc) : option T :=
  '(h, b) ← Extract (nodes_ c) (lst_ c) node;
  l ← node;
  '(h, b) ← PushFront h b l;
  Some (MkListCache (max_size_ c) h b (dict_ c)).

(** A new entry: [PushFront(&duplicate->key); duplicate->value = FrontNode()]. *)
Definition push_new c k : option T :=
  '(h, b) ← EmplaceFront (nodes_ c) (lst_ c) k;
  d ← dict_write (dict_ c) k (header_ b);
  Some (MkListCache (max_size_ c) h b d).

(** The two [Search] functions. *)
Definition list_cache_Search c k : option (T * option K) :=
  '(d, kv) ← d_find (T := Entry) (dict_ c) k;
  Some (MkListCache (max_size_ c) (nodes_ c) (lst_ c) d, match kv with Some e => Some (key e) | None => None end).

(** The two [DelEntry] functions. *)
Definition list_cache_DelEntry c k : option (T * bool) :=
  '(d, entry) ← d_extract (T := Entry) (dict_ c) k;
  match entry with
  | Some kv =>
      '(h, b) ← Blist.Erase (nodes_ c) (lst_ c) (value kv);
      Some (MkListCache (max_size_ c) h b d, true)
  | None => Some (MkListCache (max_size_ c) (nodes_ c) (lst_ c) d, false)
  end.

(** The two [Clear] functions. *)
Definition list_cache_Clear c : option T :=
  d ← d_clear (T := Entry) (dict_ c);
  '(h, b) ← Blist.Clear (size (nodes_ c)) (nodes_ c) (lst_ c);
  Some (MkListCache (max_size_ c) h b d).

(** *** LruCache *)

Definition lru_Victim c : option (option K) :=
  if blist_empty (lst_ c) then Some None else r ← Back (nodes_ c) (lst_ c); Some (Some r).

(** [dict_.Erase(\*cache_.Back()); cache_.PopBack();] *)
Definition lru_drop_back c : option T :=
  victim ← Back (nodes_ c) (lst_ c);
  '(d, _) ← dict_erase (V := option loc) (dict_ c) victim;
  '(h, b, _) ← PopBack (nodes_ c) (lst_ c);
  Some (MkListCache (max_size_ c) h b d).

Definition lru_DelVictim c : option T := if blist_empty (lst_ c) then Some c else lru_drop_back c.

Definition lru_UpdateEntry c k : option (T * option K) :=
  if max_size_ c =? 0 then Some (c, None) else
  '(d, success, duplicate) ← InsertKvWithDuplicate (dict_ c) k None;
  let c := MkListCache (max_size_ c) (nodes_ c) (lst_ c) d in
  c ← (if negb success then move_to_front c (value duplicate)
       else
         c ← (if max_size_ c <=? count_ (lst_ c) then lru_drop_back c else Some c);
         if count_ (lst_ c) <? max_size_ c then push_new c (key duplicate) else None);
  r ← Front (nodes_ c) (lst_ c);
  Some (c, Some r).

(** *** MruCache *)

Definition mru_Victim c : option (option K) := r ← Front (nodes_ c) (lst_ c); Some (Some r).

Definition mru_DelVictim c : option T :=
  victim ← Front (nodes_ c) (lst_ c);
  '(d, _) ← dict_erase (V := option loc) (dict_ c) victim;
  '(h, b, _) ← PopFront (nodes_ c) (lst_ c);
  Some (MkListCache (max_size_ c) h b d).

Definition mru_UpdateEntry c k : option (T * option K) :=
  if max_size_ c =? 0 then Some (c, None) else
  '(d, success, duplicate) ← InsertKvWithDuplicate (dict_ c) k None;
  let c := MkListCache (max_size_ c) (nodes_ c) (lst_ c) d in
  c ← (if success : bool then
         c ← (if max_size_ c <=? list_cache_size c then mru_DelVictim c else Some c);
         push_new c (key duplicate)
       else move_to_front c (value duplicate));
  r ← Front (nodes_ c) (lst_ c);
  Some (c, Some r).
End list_cache.

(** The two classes behind the interface. *)
Record LruCache (D K : Type) := MkLru { lru_state : ListCache D K }.
Arguments MkLru {D K}.
Arguments lru_state {D K}.
Record MruCache (D K : Type) := MkMru { mru_state : ListCache D K }.
Arguments MkMru {D K}.
Arguments mru_state {D K}.

Section instances.
Context {D K : Type} `{!DictOps D K (KeyValue K (option loc))}.

Definition on_state {C A} (mk : ListCache D K → C) (r : option (ListCache D K * A)) : option (C * A) :=
  '(c, a) ← r; Some (mk c, a).

#[export] Instance LruCache_ops : CacheInterface (LruCache D K) K := {|
  cache_new n := MkLru (list_cache_new n);
  UpdateEntry c k := on_state MkLru (lru_UpdateEntry (lru_state c) k);
  DelEntry c k := on_state MkLru (list_cache_DelEntry (lru_state c) k);
  Search c k := on_state MkLru (list_cache_Search (lru_state c) k);
  Victim c := lru_Victim (lru_state c);
  DelVictim c := MkLru <$> lru_DelVictim (lru_state c);
  cache_size c := list_cache_size (lru_state c);
  cache_Clear c := MkLru <$> list_cache_Clear (lru_state c);
|}.

#[export] Instance MruCache_ops : CacheInterface (MruCache D K) K := {|
  cache_new n := MkMru (list_cache_new n);
  UpdateEntry c k := on_state MkMru (mru_UpdateEntry (mru_state c) k);
  DelEntry c k := on_state MkMru (list_cache_DelEntry (mru_state c) k);
  Search c k := on_state MkMru (list_cache_Search (mru_state c) k);
  Victim c := mru_Victim (mru_state c);
  DelVictim c := MkMru <$> mru_DelVictim (mru_state c);
  cache_size c := list_cache_size (mru_state c);
  cache_Clear c := MkMru <$> list_cache_Clear (mru_state c);
|}.
End instances.

(** ** The reference policies

    A capacity and the keys, most recently used first. *)
Record Recency (K : Type) := MkRecency { capacity : Z; recent : list K }.
Arguments MkRecency {K}.
Arguments capacity {K}.
Arguments recent {K}.

Section reference.
Context {K : Type} `{EqDecision K}.
Implicit Types (s : Recency K) (k : K).

Definition without k (l : list K) : list K := filter (λ x, x ≠ k) l.

Definition with_recent s (l : list K) : Recency K := MkRecency (capacity s) l.

(** A use of [k]: it comes to the front; a new key first makes room by [evict]
    when the cache is full. *)
Definition ref_update (evict : list K → list K) s k : Recency K * option K :=
  if capacity s =? 0 then (s, None)
  else if decide (k ∈ recent s) then (with_recent s (k :: without k (recent s)), Some k)
  else if capacity s <=? Z.of_nat (length (recent s)) then (with_recent s (k :: evict (recent s)), Some k)
  else (with_recent s (k :: recent s), Some k).

Definition ref_size s : Z := Z.of_nat (length (recent s)).

Definition ref_del s k : Recency K * bool := (with_recent s (without k (recent s)), bool_decide (k ∈ recent s)).

Definition ref_search s k : Recency K * option K := (s, if decide (k ∈ recent s) then Some k else None).
End reference.

(** Least recently used: the victim is the last key; nothing to do on an empty
    cache. *)
Record Lru (K : Type) := MkLruRef { lru_ref : Recency K }.
Arguments MkLruRef {K}.
Arguments lru_ref {K}.

(** Most recently used: the victim is the first key; there must be one. *)
Record Mru (K : Type) := MkMruRef { mru_ref : Recency K }.
Arguments MkMruRef {K}.
Arguments mru_ref {K}.

Section reference_policies.
Context {K : Type} `{EqDecision K}.

#[export] Instance Lru_ref_ops : CacheInterface (Lru K) K := {|
  cache_new n := MkLruRef (MkRecency n []);
  UpdateEntry s k := let '(s, r) := ref_update (@removelast K) (lru_ref s) k in Some (MkLruRef s, r);
  DelEntry s k := let '(s, b) := ref_del (lru_ref s) k in Some (MkLruRef s, b);
  Search s k := let '(s, r) := ref_search (lru_ref s) k in Some (MkLruRef s, r);
  Victim s := Some (last (recent (lru_ref s)));
  DelVictim s := Some (MkLruRef (with_recent (lru_ref s) (removelast (recent (lru_ref s)))));
  cache_size s := ref_size (lru_ref s);
  cache_Clear s := Some (MkLruRef (with_recent (lru_ref s) []));
|}.

#[export] Instance Mru_ref_ops : CacheInterface (Mru K) K := {|
  cache_new n := MkMruRef (MkRecency n []);
  UpdateEntry s k := let '(s, r) := ref_update (@tail K) (mru_ref s) k in Some (MkMruRef s, r);
  DelEntry s k := let '(s, b) := ref_del (mru_ref s) k in Some (MkMruRef s, b);
  Search s k := let '(s, r) := ref_search (mru_ref s) k in Some (MkMruRef s, r);
  Victim s := match recent (mru_ref s) with [] => None | k :: _ => Some (Some k) end;
  DelVictim s := match recent (mru_ref s) with [] => None | _ :: l => Some (MkMruRef (with_recent (mru_ref s) l)) end;
  cache_size s := ref_size (mru_ref s);
  cache_Clear s := Some (MkMruRef (with_recent (mru_ref s) []));
|}.
End reference_policies.

(** ** The caches implement the reference policies *)

Section node_map.
Context {K : Type} `{Countable K}.
Implicit Types (ns : list (loc * K)) (k : K) (l : loc).

(** The dictionary that goes with the list of nodes [ns]. *)
Definition node_map ns : gmap K (option loc) := list_to_map ((λ n, (n.2, Some n.1)) <$> ns).

Lemma node_map_keys ns : ((λ n : loc * K, (n.2, Some n.1)) <$> ns).*1 = ns.*2.
Proof. rewrite <-list_fmap_compose. done. Qed.

Lemma node_map_perm ns ns' : NoDup ns.*2 → ns ≡ₚ ns' → node_map ns = node_map ns'.
Proof. intros Hnd Hp. apply list_to_map_proper; [by rewrite node_map_keys|by rewrite Hp]. Qed.

Lemma node_map_None ns k : k ∉ ns.*2 → node_map ns !! k = None.
Proof. intros Hk. apply not_elem_of_list_to_map_1. by rewrite node_map_keys. Qed.

Lemma node_map_inv ns k o : node_map ns !! k = Some o → ∃ l, o = Some l ∧ (l, k) ∈ ns.
Proof. intros Hl%elem_of_list_to_map_2. apply list_elem_of_fmap in Hl as ([l k'] & [= -> ->] & Hin). eauto. Qed.

Lemma node_map_is_Some ns k : k ∈ ns.*2 → is_Some (node_map ns !! k).
Proof.
  intros Hk. destruct (node_map ns !! k) eqn:E; [by eauto|].
  apply not_elem_of_list_to_map_2 in E. by rewrite node_map_keys in E.
Qed.

Lemma node_map_size ns : NoDup ns.*2 → size (node_map ns) = length ns.
Proof.
  induction ns as [|[l k] ns IH]; [done|]. cbn [fmap list_fmap snd]. intros [Hk Hnd]%NoDup_cons.
  change (node_map ((l, k) :: ns)) with (<[k := Some l]> (node_map ns)).
  rewrite map_size_insert_None by (by apply node_map_None). by rewrite IH.
Qed.

Lemma node_map_delete ns1 l k ns2 :
  NoDup (ns1 ++ (l, k) :: ns2).*2 → delete k (node_map (ns1 ++ (l, k) :: ns2)) = node_map (ns1 ++ ns2).
Proof.
  intros Hnd. rewrite (node_map_perm _ ((l, k) :: ns1 ++ ns2)) by (done || by rewrite Permutation_middle).
  assert (NoDup ((l, k) :: ns1 ++ ns2).*2) as [Hk _]%NoDup_cons by (by rewrite Permutation_middle).
  change (node_map ((l, k) :: ns1 ++ ns2)) with (<[k := Some l]> (node_map (ns1 ++ ns2))).
  by rewrite delete_insert_id by (by apply node_map_None).
Qed.

Lemma without_middle (l1 : list K) k (l2 : list K) : NoDup (l1 ++ k :: l2) → without k (l1 ++ k :: l2) = l1 ++ l2.
Proof.
  intros (Hnd & Hdis & [Hk Hnd2]%NoDup_cons)%NoDup_app. unfold without.
  rewrite filter_app, filter_cons_False by naive_solver.
  rewrite !filter_all; [done|..]; intros x Hx ->; set_solver.
Qed.

Lemma without_absent (l : list K) k : k ∉ l → without k l = l.
Proof. intros Hk. apply filter_all. intros x Hx ->. done. Qed.

(** A key of the list has a node. *)
Lemma split_node ns k : k ∈ ns.*2 → ∃ ns1 l ns2, ns = ns1 ++ (l, k) :: ns2.
Proof. intros ([l k'] & -> & (ns1 & ns2 & ->)%list_elem_of_split)%list_elem_of_fmap. eauto. Qed.
End node_map.

Section implements.
Context {D K : Type} `{Countable K} `{!DictOps D K (KeyValue K (option loc))}
  `{!DictLaws D K (KeyValue K (option loc)) TO_GK}.
Implicit Types (c : ListCache D K) (k : K) (ns : list (loc * K)) (m : gmap K (option loc)).

(** The list and the dictionary of a cache. *)
Definition holds c ns m : Prop :=
  blist_rep (nodes_ c) (lst_ c) ns ∧ d_wf (dict_ c) ∧ kv_view (dict_ c) = m.

Definition recency_rel c (s : Recency K) : Prop :=
  max_size_ c = capacity s ∧ 0 ≤ capacity s < 2 ^ 64 ∧ Z.of_nat (length (recent s)) ≤ capacity s ∧ NoDup (recent s)
  ∧ ∃ ns, ns.*2 = recent s ∧ holds c ns (node_map ns).

Lemma Front_head h b l k ns : blist_rep (T := K) h b ((l, k) :: ns) → Front h b = Some k.
Proof. intros (_ & Hh & _ & _ & Hc). unfold Front. rewrite Hh. by eapply chain_get_val. Qed.

Lemma Back_last h b ns l k : blist_rep (T := K) h b (ns ++ [(l, k)]) → Back h b = Some k.
Proof.
  intros Hr. destruct (rep_split _ _ _ _ _ _ Hr) as (_ & _ & _ & _ & _ & H1 & Hm & _). destruct Hr as (_ & Hh & _).
  unfold Back. rewrite Hh. destruct (head_loc ns) as [x|] eqn:Hx.
  - assert (head_loc (ns ++ [(l, k)]) = Some x) as -> by (by destruct ns as [|[]]).
    erewrite (chain_get_prev _ _ _ _ _ H1) by done. simpl. by eapply chain_get_val.
  - destruct ns as [|[] ns]; [|done]. cbn [app head_loc head fmap option_fmap option_map fst].
    erewrite (chain_get_prev _ _ _ _ _ Hm) by done. simpl. by eapply chain_get_val.
Qed.

Lemma holds_size c ns m : holds c ns m → list_cache_size c = Z.of_nat (length ns).
Proof. intros ((_ & _ & Hc & _) & _). done. Qed.

Lemma move_to_front_spec c ns1 l k ns2 m :
  holds c (ns1 ++ (l, k) :: ns2) m →
  ∃ c', move_to_front c (Some l) = Some c' ∧ holds c' ((l, k) :: ns1 ++ ns2) m ∧ max_size_ c' = max_size_ c.
Proof.
  intros (Hr & Hw & Hm). unfold move_to_front.
  assert (Z.of_nat (length (ns1 ++ ns2)) + 1 < 2 ^ 64).
  { destruct Hr as (_ & _ & _ & Hlen & _). rewrite length_app in *. simpl in Hlen. lia. }
  destruct (rep_split _ _ _ _ _ _ Hr) as (_ & _ & Hl1 & Hl2 & _).
  destruct (Extract_rep _ _ _ _ _ _ Hr) as (h1 & b1 & -> & Hr1 & Hd & _). cbn [mbind option_bind].
  destruct (PushFront_rep h1 b1 (ns1 ++ ns2) l k) as (h2 & b2 & -> & Hr2 & _); [done|done| |done|].
  { rewrite fmap_app. set_solver. }
  eexists. split; [done|]. done.
Qed.

Lemma push_new_spec c ns m k o :
  holds c ns m → m !! k = Some o → Z.of_nat (length ns) + 1 < 2 ^ 64 →
  ∃ c' l, push_new c k = Some c' ∧ holds c' ((l, k) :: ns) (<[k := Some l]> m) ∧ max_size_ c' = max_size_ c.
Proof.
  intros (Hr & Hw & Hm) Hk Hlen. unfold push_new, EmplaceFront.
  destruct (CreateNode_spec (nodes_ c) k) as (l & -> & Hl).
  destruct (rep_alloc _ _ _ l (MkBNode k None None) Hr Hl) as [Hni Hr1].
  destruct (PushFront_rep _ _ ns l k Hr1) as (h2 & b2 & -> & Hr2 & _);
    [by unfold detached; rewrite lookup_insert_eq|done|done|].
  cbn [mbind option_bind]. pose proof Hr2 as (_ & Hh2 & _). rewrite Hh2.
  destruct (dict_write_spec (dict_ c) k (Some l) o Hw) as (d & Hd & Hw' & Hv); [by rewrite Hm|].
  cbn [head_loc head fmap option_fmap option_map fst]. rewrite Hd. cbn [mbind option_bind].
  eexists _, l. split; [done|]. split; [|done]. unfold holds. split_ands; [done..|]. cbn [dict_]. by rewrite Hv, Hm.
Qed.

Lemma lru_drop_back_spec c ns l v m :
  holds c (ns ++ [(l, v)]) m → d_key_ok v →
  ∃ c', lru_drop_back c = Some c' ∧ holds c' ns (delete v m) ∧ max_size_ c' = max_size_ c.
Proof.
  intros (Hr & Hw & Hm) Hv. unfold lru_drop_back. rewrite (Back_last _ _ _ _ _ Hr). cbn [mbind option_bind].
  destruct (dict_erase_spec (dict_ c) v Hw Hv) as (d & -> & Hw' & Hd). cbn [mbind option_bind].
  destruct (PopBack_rep _ _ _ _ _ Hr) as (h & b & -> & Hr' & _). cbn [mbind option_bind].
  eexists. split; [done|]. split; [|done]. unfold holds. split_ands; [done..|]. cbn [dict_]. by rewrite Hd, Hm.
Qed.

Lemma mru_DelVictim_spec c ns l v m :
  holds c ((l, v) :: ns) m → d_key_ok v →
  ∃ c', mru_DelVictim c = Some c' ∧ holds c' ns (delete v m) ∧ max_size_ c' = max_size_ c.
Proof.
  intros (Hr & Hw & Hm) Hv. unfold mru_DelVictim. rewrite (Front_head _ _ _ _ _ Hr). cbn [mbind option_bind].
  destruct (dict_erase_spec (dict_ c) v Hw Hv) as (d & -> & Hw' & Hd). cbn [mbind option_bind].
  destruct (PopFront_rep _ _ _ _ _ Hr) as (h & b & -> & Hr' & _). cbn [mbind option_bind].
  eexists. split; [done|]. split; [|done]. unfold holds. split_ands; [done..|]. cbn [dict_]. by rewrite Hd, Hm.
Qed.

(** The keys of a cache are keys its dictionary accepts. *)
Lemma holds_key_ok c ns k : holds c ns (node_map ns) → k ∈ ns.*2 → d_key_ok k.
Proof.
  intros (_ & Hw & Hm) Hk. destruct (node_map_is_Some ns k Hk) as [o Ho]. rewrite <-Hm in Ho. by eapply kv_view_key_ok.
Qed.

Lemma recency_intro c s ns :
  max_size_ c = capacity s → 0 ≤ capacity s < 2 ^ 64 → Z.of_nat (length ns) ≤ capacity s → NoDup ns.*2 →
  holds c ns (node_map ns) → recency_rel c (with_recent s ns.*2).
Proof. intros. unfold recency_rel. cbn [capacity recent with_recent]. rewrite length_fmap. split_ands; try done; try lia. by exists ns. Qed.

(** The new key is in the dictionary, not yet in the list. *)
Lemma push_new_rel c s ns k :
  max_size_ c = capacity s → 0 ≤ capacity s < 2 ^ 64 → Z.of_nat (length ns) < capacity s → NoDup ns.*2 → k ∉ ns.*2 →
  holds c ns (<[k := None]> (node_map ns)) →
  ∃ c', push_new c k = Some c' ∧ recency_rel c' (with_recent s (k :: ns.*2)) ∧ Front (nodes_ c') (lst_ c') = Some k.
Proof.
  intros Hmax Hcap Hlen Hnd Hk Hh.
  destruct (push_new_spec c ns _ k None Hh) as (c' & l & -> & Hh' & Hm'); [by rewrite lookup_insert_eq|lia|].
  rewrite insert_insert_eq in Hh'. exists c'. split; [done|]. split; [|by eapply Front_head, Hh'].
  apply (recency_intro c' s ((l, k) :: ns)); [congruence|done|simpl; lia|by apply NoDup_cons|done].
Qed.

Lemma move_to_front_rel c s ns k :
  recency_rel c s → ns.*2 = recent s → holds c ns (node_map ns) → k ∈ ns.*2 →
  ∃ l c', node_map ns !! k = Some (Some l) ∧ move_to_front c (Some l) = Some c'
        ∧ recency_rel c' (with_recent s (k :: without k (recent s))) ∧ Front (nodes_ c') (lst_ c') = Some k.
Proof.
  intros (Hmax & Hcap & Hlen & Hnd & _) Hns Hh Hk. rewrite <-Hns in *. rewrite length_fmap in Hlen.
  destruct (node_map_is_Some ns k Hk) as [o Ho]. destruct (node_map_inv _ _ _ Ho) as (l & -> & Hin).
  apply list_elem_of_split in Hin as (ns1 & ns2 & ->).
  destruct (move_to_front_spec c ns1 l k ns2 _ Hh) as (c' & Hc & Hh' & Hm'). exists l, c'. split_ands; [done|done| |by eapply Front_head, Hh'].
  assert (k :: without k (ns1 ++ (l, k) :: ns2).*2 = ((l, k) :: ns1 ++ ns2).*2) as ->.
  { rewrite fmap_app in *. cbn [fmap list_fmap snd] in *. rewrite without_middle by done. by rewrite <-fmap_app. }
  assert ((l, k) :: ns1 ++ ns2 ≡ₚ ns1 ++ (l, k) :: ns2) as Hp by (by rewrite Permutation_middle).
  apply recency_intro; [congruence|done|by rewrite Hp|by rewrite Hp|].
  by rewrite (node_map_perm _ (ns1 ++ (l, k) :: ns2)) by (by rewrite Hp).
Qed.

(** The dictionary insertion both [UpdateEntry_] functions start with. *)
Lemma insert_rel c s ns k :
  ns.*2 = recent s → holds c ns (node_map ns) → NoDup ns.*2 → Z.of_nat (length ns) < max_elems → d_key_ok k →
  ∃ d, let c' := MkListCache (max_size_ c) (nodes_ c) (lst_ c) d in
    if decide (k ∈ recent s)
    then ∃ o, node_map ns !! k = Some o ∧ InsertKvWithDuplicate (dict_ c) k None = Some (d, false, MkKeyValue k o)
            ∧ holds c' ns (node_map ns)
    else InsertKvWithDuplicate (dict_ c) k None = Some (d, true, MkKeyValue k None)
         ∧ holds c' ns (<[k := None]> (node_map ns)).
Proof.
  intros Hns (Hr & Hw & Hm) Hnd Hlen Hk.
  destruct (InsertKvWithDuplicate_spec (dict_ c) k None Hw) as (d & Hw' & Hi); [rewrite Hm, node_map_size by done; simpl; lia|done|].
  exists d. rewrite Hm in Hi. rewrite <-Hns. case_decide as Hin.
  - destruct (node_map_is_Some ns k Hin) as [o Ho]. rewrite Ho in Hi. destruct Hi as [Hi Hv]. by exists o.
  - rewrite node_map_None in Hi by done. by destruct Hi.
Qed.

Lemma lru_update_rel c s k :
  recency_rel c s → d_key_ok k → Z.of_nat (length (recent s)) < max_elems →
  ∃ c', lru_UpdateEntry c k = Some (c', snd (ref_update (@removelast K) s k))
      ∧ recency_rel c' (fst (ref_update (@removelast K) s k)).
Proof.
  intros Hrel Hk Hsz. pose proof Hrel as (Hmax & Hcap & Hlen & Hnd & ns & Hns & Hh). unfold lru_UpdateEntry, ref_update.
  rewrite Hmax. destruct (Z.eqb_spec (capacity s) 0); [by exists c|]. rewrite <-Hns in Hnd, Hsz. rewrite length_fmap in Hsz.
  destruct (insert_rel c s ns k Hns Hh Hnd Hsz Hk) as [d Hd]. cbv zeta in Hd. case_decide as Hin.
  - destruct Hd as (o & Ho & -> & Hh'). cbn [mbind option_bind negb value key].
    destruct (move_to_front_rel (MkListCache (capacity s) (nodes_ c) (lst_ c) d) s ns k) as (l & c' & Hl & Hc' & Hrel' & Hf);
      [|done|by rewrite Hmax in Hh'|by rewrite Hns|].
    { split; [done|]. split; [done|]. split; [done|]. split; [by rewrite <-Hns|]. exists ns. by rewrite Hmax in Hh'. }
    simplify_eq. rewrite Hc'. cbn [mbind option_bind]. rewrite Hf. by exists c'.
  - destruct Hd as [-> Hh']. cbn [mbind option_bind negb value key max_size_]. rewrite Hmax in Hh'.
    set (c0 := MkListCache (capacity s) (nodes_ c) (lst_ c) d) in *.
    rewrite <-Hns, length_fmap in *. change (count_ (lst_ c0)) with (list_cache_size c0). rewrite (holds_size _ _ _ Hh').
    destruct (Z.leb_spec (capacity s) (Z.of_nat (length ns))).
    + destruct ns as [|[l v] ns' _] using rev_ind; [simpl in *; lia|].
      rewrite fmap_app in *. cbn [fmap list_fmap snd] in *. rewrite length_app in *. simpl length in *.
      destruct (lru_drop_back_spec c0 ns' l v _ Hh') as (c1 & -> & Hh1 & Hm1).
      { apply (holds_key_ok c (ns' ++ [(l, v)])); [done|]. rewrite fmap_app. set_solver. }
      cbn [mbind option_bind]. rewrite delete_insert_ne in Hh1 by (set_solver).
      rewrite node_map_delete, app_nil_r in Hh1 by (by rewrite fmap_app).
      change (count_ (lst_ c1)) with (list_cache_size c1). rewrite (holds_size _ _ _ Hh1), Hm1. change (max_size_ c0) with (capacity s).
      destruct (Z.ltb_spec (Z.of_nat (length ns')) (capacity s)); [|lia]. apply NoDup_app in Hnd as (Hnd & _).
      destruct (push_new_rel c1 s ns' k) as (c' & -> & Hrel' & Hf); [done|done|lia|done|set_solver|done|].
      cbn [mbind option_bind]. rewrite Hf, removelast_last. by exists c'.
    + cbn [mbind option_bind]. change (count_ (lst_ c0)) with (list_cache_size c0). rewrite (holds_size _ _ _ Hh').
      change (max_size_ c0) with (capacity s). destruct (Z.ltb_spec (Z.of_nat (length ns)) (capacity s)); [|lia].
      destruct (push_new_rel c0 s ns k) as (c' & -> & Hrel' & Hf); [done|done|lia|done|done|done|].
      cbn [mbind option_bind]. rewrite Hf. by exists c'.
Qed.

Lemma mru_update_rel c s k :
  recency_rel c s → d_key_ok k → Z.of_nat (length (recent s)) < max_elems →
  ∃ c', mru_UpdateEntry c k = Some (c', snd (ref_update (@tail K) s k)) ∧ recency_rel c' (fst (ref_update (@tail K) s k)).
Proof.
  intros Hrel Hk Hsz. pose proof Hrel as (Hmax & Hcap & Hlen & Hnd & ns & Hns & Hh). unfold mru_UpdateEntry, ref_update.
  rewrite Hmax. destruct (Z.eqb_spec (capacity s) 0); [by exists c|]. rewrite <-Hns in Hnd, Hsz. rewrite length_fmap in Hsz.
  destruct (insert_rel c s ns k Hns Hh Hnd Hsz Hk) as [d Hd]. cbv zeta in Hd. case_decide as Hin.
  - destruct Hd as (o & Ho & -> & Hh'). cbn [mbind option_bind negb value key].
    destruct (move_to_front_rel (MkListCache (capacity s) (nodes_ c) (lst_ c) d) s ns k) as (l & c' & Hl & Hc' & Hrel' & Hf);
      [|done|by rewrite Hmax in Hh'|by rewrite Hns|].
    { split; [done|]. split; [done|]. split; [done|]. split; [by rewrite <-Hns|]. exists ns. by rewrite Hmax in Hh'. }
    simplify_eq. rewrite Hc'. cbn [mbind option_bind]. rewrite Hf. by exists c'.
  - destruct Hd as [-> Hh']. cbn [mbind option_bind negb value key max_size_]. rewrite Hmax in Hh'.
    set (c0 := MkListCache (capacity s) (nodes_ c) (lst_ c) d) in *.
    rewrite <-Hns, length_fmap in *. rewrite (holds_size _ _ _ Hh').
    destruct (Z.leb_spec (capacity s) (Z.of_nat (length ns))).
    + destruct ns as [|[l v] ns']; [simpl in *; lia|]. cbn [fmap list_fmap snd length] in *.
      destruct (mru_DelVictim_spec c0 ns' l v _ Hh') as (c1 & -> & Hh1 & Hm1).
      { apply (holds_key_ok c ((l, v) :: ns')); [done|]. set_solver. }
      cbn [mbind option_bind]. rewrite delete_insert_ne in Hh1 by set_solver.
      rewrite (node_map_delete [] l v ns') in Hh1 by done. apply NoDup_cons in Hnd as [Hv Hnd].
      destruct (push_new_rel c1 s ns' k) as (c' & -> & Hrel' & Hf); [done|done|lia|done|set_solver|done|].
      cbn [mbind option_bind]. rewrite Hf. by exists c'.
    + cbn [mbind option_bind].
      destruct (push_new_rel c0 s ns k) as (c' & -> & Hrel' & Hf); [done|done|lia|done|done|done|].
      cbn [mbind option_bind]. rewrite Hf. by exists c'.
Qed.

Lemma del_rel c s k :
  recency_rel c s → d_key_ok k →
  ∃ c', list_cache_DelEntry c k = Some (c', snd (ref_del s k)) ∧ recency_rel c' (fst (ref_del s k)).
Proof.
  intros (Hmax & Hcap & Hlen & Hnd & ns & Hns & Hr & Hw & Hm) Hk. unfold list_cache_DelEntry, ref_del. rewrite <-Hns in *.
  rewrite length_fmap in Hlen. destruct (extract_spec (dict_ c) k Hw Hk) as (d & -> & Hw' & Hv). rewrite Hm in *.
  cbn [mbind option_bind fst snd]. destruct (node_map ns !! k) as [o|] eqn:Ho; cbn [fmap option_fmap option_map value].
  - destruct (node_map_inv _ _ _ Ho) as (l & -> & (ns1 & ns2 & ->)%list_elem_of_split).
    destruct (Erase_rep _ _ _ _ _ _ Hr) as (h & b & -> & Hr' & _). cbn [mbind option_bind].
    rewrite node_map_delete in Hv by done. rewrite bool_decide_true by (rewrite fmap_app; set_solver).
    eexists. split; [done|]. rewrite fmap_app in *. cbn [fmap list_fmap snd] in *. rewrite without_middle by done.
    rewrite length_app in Hlen. simpl in Hlen. rewrite <-(fmap_app snd ns1 ns2).
    apply recency_intro; [done|done|rewrite length_app; lia| |done].
    rewrite fmap_app. rewrite <-Permutation_middle in Hnd. by apply NoDup_cons in Hnd as [_ ?].
  - assert (k ∉ ns.*2) as Hni by (intros [? ?]%node_map_is_Some; congruence). rewrite bool_decide_false by done.
    eexists. split; [done|]. rewrite without_absent by done. apply recency_intro; [done..|].
    rewrite delete_id in Hv by done. done.
Qed.

Lemma search_rel c s k :
  recency_rel c s → d_key_ok k →
  ∃ c', list_cache_Search c k = Some (c', snd (ref_search s k)) ∧ recency_rel c' (fst (ref_search s k)).
Proof.
  intros (Hmax & Hcap & Hlen & Hnd & ns & Hns & Hr & Hw & Hm) Hk. unfold list_cache_Search, ref_search.
  destruct (find_spec (dict_ c) k Hw Hk) as (d & -> & Hw' & Hv). rewrite Hm in *. cbn [mbind option_bind fst snd].
  exists (MkListCache (max_size_ c) (nodes_ c) (lst_ c) d).
  split; [|split; [done|]; split; [done|]; split; [done|]; split; [done|]; by exists ns].
  rewrite <-Hns. case_decide as Hin.
  - by destruct (node_map_is_Some ns k Hin) as [o ->].
  - by rewrite node_map_None.
Qed.

Lemma clear_rel c s : recency_rel c s → ∃ c', list_cache_Clear c = Some c' ∧ recency_rel c' (with_recent s []).
Proof.
  intros (Hmax & Hcap & Hlen & Hnd & ns & Hns & Hr & Hw & Hm). unfold list_cache_Clear.
  destruct (clear_spec (dict_ c) Hw) as (d & -> & Hw' & Hv). cbn [mbind option_bind]. unfold Blist.Clear.
  pose proof Hr as (Hnd' & Hh & _ & _ & Hc). rewrite Hh.
  destruct (clear_loop_spec (size (nodes_ c)) _ _ _ Hc Hnd' (rep_size _ _ _ Hr)) as (h & -> & _). cbn [mbind option_bind].
  eexists. split; [done|]. apply (recency_intro _ s []); [done|done|simpl; lia|by apply NoDup_nil|].
  unfold holds. split_ands; [|done|done]. apply (rep_intro _ None []); [by apply NoDup_nil|done|done|done].
Qed.

Lemma recency_new n : 0 ≤ n < 2 ^ 64 → recency_rel (list_cache_new n) (MkRecency n []).
Proof.
  intros Hn. destruct (init_spec (D := D) (K := K) (V := option loc)) as [Hw Hv].
  apply (recency_intro _ (MkRecency n []) []); [done|done|simpl; lia|by apply NoDup_nil|].
  unfold holds. split_ands; [|done|done]. apply (rep_intro _ None []); [by apply NoDup_nil|done|done|done].
Qed.

Lemma recency_size c s : recency_rel c s → list_cache_size c = ref_size s.
Proof.
  intros (_ & _ & _ & _ & ns & Hns & Hh). rewrite (holds_size _ _ _ Hh). unfold ref_size. by rewrite <-Hns, length_fmap.
Qed.

Lemma lru_victim_rel c s : recency_rel c s → lru_Victim c = Some (last (recent s)).
Proof.
  intros (_ & _ & _ & _ & ns & <- & Hr & _). unfold lru_Victim. rewrite (rep_header _ _ _ Hr).
  destruct ns as [|[l k] ns _] using rev_ind; [done|]. rewrite (Back_last _ _ _ _ _ Hr), fmap_app, fmap_cons, fmap_nil, last_snoc. by destruct ns.
Qed.

Lemma lru_del_victim_rel c s :
  recency_rel c s → ∃ c', lru_DelVictim c = Some c' ∧ recency_rel c' (with_recent s (removelast (recent s))).
Proof.
  intros Hrel. pose proof Hrel as (Hmax & Hcap & Hlen & Hnd & ns & Hns & Hh). unfold lru_DelVictim.
  rewrite (rep_header _ _ _ (proj1 Hh)). rewrite <-Hns in *. rewrite length_fmap in Hlen.
  destruct ns as [|[l k] ns _] using rev_ind; [exists c; split; [done|]; by apply (recency_intro c s [])|].
  rewrite fmap_app in *. cbn [fmap list_fmap snd] in *. rewrite length_app in Hlen. simpl in Hlen.
  destruct (lru_drop_back_spec c ns l k _ Hh) as (c' & Hc' & Hh' & Hm').
  { apply (holds_key_ok c (ns ++ [(l, k)])); [done|]. rewrite fmap_app. set_solver. }
  exists c'. split; [by destruct ns|]. rewrite removelast_last. rewrite node_map_delete, app_nil_r in Hh' by (by rewrite fmap_app).
  apply NoDup_app in Hnd as (Hnd & _). apply recency_intro; [congruence|done|lia|done|done].
Qed.

Lemma mru_victim_rel c s k l : recency_rel c s → recent s = k :: l → mru_Victim c = Some (Some k).
Proof.
  intros (_ & _ & _ & _ & ns & <- & Hr & _) Hl. destruct ns as [|[l0 k0] ns]; [done|]. simplify_eq/=.
  unfold mru_Victim. by rewrite (Front_head _ _ _ _ _ Hr).
Qed.

Lemma mru_del_victim_rel c s k l :
  recency_rel c s → recent s = k :: l → ∃ c', mru_DelVictim c = Some c' ∧ recency_rel c' (with_recent s l).
Proof.
  intros (Hmax & Hcap & Hlen & Hnd & ns & Hns & Hh) Hl. rewrite Hl in *. destruct ns as [|[l0 k0] ns]; [done|].
  cbn [fmap list_fmap snd] in Hns. injection Hns as -> <-. apply NoDup_cons in Hnd as [Hk Hnd].
  destruct (mru_DelVictim_spec c ns l0 k _ Hh) as (c' & Hc' & Hh' & Hm').
  { apply (holds_key_ok c ((l0, k) :: ns)); [done|]. set_solver. }
  exists c'. split; [done|]. cbn [length] in Hlen. change (list_fmap _ _ snd ns) with (ns.*2) in *. rewrite length_fmap in Hlen.
  rewrite (node_map_delete [] l0 k ns) in Hh' by (by apply NoDup_cons).
  apply recency_intro; [congruence|done|lia|done|done].
Qed.
End implements.

(** ** The simulations *)

Section simulations.
Context {D K : Type} `{Countable K} `{!DictOps D K (KeyValue K (option loc))}
  `{!DictLaws D K (KeyValue K (option loc)) TO_GK}.

Definition lru_rel (c : LruCache D K) (s : Lru K) : Prop := recency_rel (lru_state c) (lru_ref s).
Definition mru_rel (c : MruCache D K) (s : Mru K) : Prop := recency_rel (mru_state c) (mru_ref s).

Lemma ref_update_size (evict : list K → list K) s k :
  (∀ l, (length (evict l) ≤ length l)%nat) → ref_size (fst (ref_update evict s k)) ≤ ref_size s + 1.
Proof.
  intros He. unfold ref_update, ref_size. repeat case_match; cbn [fst recent with_recent length]; [lia| | |lia].
  - pose proof (length_filter (λ x, x ≠ k) (recent s)). unfold without. lia.
  - specialize (He (recent s)). lia.
Qed.

Lemma ref_del_size (s : Recency K) k : ref_size (fst (ref_del s k)) ≤ ref_size s.
Proof. unfold ref_size, ref_del. cbn [fst recent with_recent]. pose proof (length_filter (λ x, x ≠ k) (recent s)). unfold without. lia. Qed.

Lemma removelast_length (l : list K) : (length (removelast l) ≤ length l)%nat.
Proof. destruct l as [|x l _] using rev_ind; [done|]. rewrite removelast_last, length_app. lia. Qed.

Lemma tail_length (l : list K) : (length (tail l) ≤ length l)%nat.
Proof. destruct l; simpl; lia. Qed.

(** Unfolds one operation of the two policies and their references. *)
Ltac policy_op :=
  unfold lru_rel, mru_rel in *; simpl in *;
  repeat match goal with
  | H : context [let '(_, _) := ?p in _] |- _ => rewrite (surjective_pairing p) in H
  end; simplify_eq; simpl.

#[export] Instance lru_sim : CacheSim (LruCache D K) (Lru K) K d_key_ok (λ s, ref_size (lru_ref s)) lru_rel.
Proof.
  split.
  - intros n Hn. split; [by apply recency_new|done].
  - intros c s. apply recency_size.
  - intros c s k s' r HR Hk Hsz He. policy_op. split; [|by apply ref_update_size, removelast_length].
    destruct (lru_update_rel _ _ k HR Hk Hsz) as (c' & -> & HR'). by exists (MkLru c').
  - intros c s k s' b HR Hk He. policy_op. split; [|apply ref_del_size].
    destruct (del_rel _ _ k HR Hk) as (c' & -> & HR'). by exists (MkLru c').
  - intros c s k s' r HR Hk He. policy_op. split; [|done].
    destruct (search_rel _ _ k HR Hk) as (c' & -> & HR'). by exists (MkLru c').
  - intros c s r HR He. policy_op. by apply lru_victim_rel.
  - intros c s s' HR He. policy_op.
    split; [|unfold ref_size; simpl; pose proof (removelast_length (recent (lru_ref s))); lia].
    destruct (lru_del_victim_rel _ _ HR) as (c' & -> & HR'). by exists (MkLru c').
  - intros c s s' HR He. policy_op. split; [|unfold ref_size; simpl; lia].
    destruct (clear_rel _ _ HR) as (c' & -> & HR'). by exists (MkLru c').
Qed.

#[export] Instance mru_sim : CacheSim (MruCache D K) (Mru K) K d_key_ok (λ s, ref_size (mru_ref s)) mru_rel.
Proof.
  split.
  - intros n Hn. split; [by apply recency_new|done].
  - intros c s. apply recency_size.
  - intros c s k s' r HR Hk Hsz He. policy_op. split; [|by apply ref_update_size, tail_length].
    destruct (mru_update_rel _ _ k HR Hk Hsz) as (c' & -> & HR'). by exists (MkMru c').
  - intros c s k s' b HR Hk He. policy_op. split; [|apply ref_del_size].
    destruct (del_rel _ _ k HR Hk) as (c' & -> & HR'). by exists (MkMru c').
  - intros c s k s' r HR Hk He. policy_op. split; [|done].
    destruct (search_rel _ _ k HR Hk) as (c' & -> & HR'). by exists (MkMru c').
  - intros c s r HR He. policy_op. destruct (recent (mru_ref s)) as [|k l] eqn:Hl; simplify_eq. by eapply mru_victim_rel.
  - intros c s s' HR He. policy_op. destruct (recent (mru_ref s)) as [|k l] eqn:Hl; simplify_eq.
    split; [|unfold ref_size; simpl; rewrite Hl; simpl; lia].
    destruct (mru_del_victim_rel _ _ k l HR Hl) as (c' & -> & HR'). by exists (MkMru c').
  - intros c s s' HR He. policy_op. split; [|unfold ref_size; simpl; lia].
    destruct (clear_rel _ _ HR) as (c' & -> & HR'). by exists (MkMru c').
Qed.
End simulations.

(** ** Properties *)

Section properties.
Context {D K : Type} `{Countable K} `{!DictOps D K (KeyValue K (option loc))}
  `{!DictLaws D K (KeyValue K (option loc)) TO_GK}.

(** The reference never fails. *)
Lemma lru_run_total (s : Lru K) os : is_Some (cache_run s os).
Proof.
  revert s. induction os as [|o os IH]; intros s; [by eexists|]. cbn [cache_run].
  assert (is_Some (cache_step s o)) as [[s' a] ->].
  { destruct o; cbn [cache_step]; unfold Exists; simpl; repeat case_match; simplify_eq/=; by eexists. }
  cbn [mbind option_bind]. destruct (IH s') as [[s'' l] ->]. by eexists.
Qed.

(** C10: every history of at most 2^61 calls on a new LRU cache runs without a
    fault, without touching a freed list node and without failing an assertion;
    the returned keys, flags and sizes are those of the reference that keeps the
    keys in order of their last use and evicts the last one. *)
Theorem lru_cache_history n os :
  0 ≤ n < 2 ^ 64 → Forall (cache_op_ok (d_key_ok (D := D))) os → Z.of_nat (length os) ≤ max_elems →
  ∃ (c : LruCache D K) (s : Lru K) l,
    cache_run (cache_new n) os = Some (c, l) ∧ cache_run (cache_new n) os = Some (s, l)
    ∧ lru_rel c s ∧ cache_size c ≤ n.
Proof.
  intros Hn Hok Hlen. destruct (lru_run_total (cache_new n) os) as [[s l] Hs].
  destruct (cache_run_sim d_key_ok (λ s, ref_size (lru_ref s)) lru_rel (cache_new n) (cache_new n) s os l) as (c & Hc & HR);
    [by apply (sim_new (CacheSim := lru_sim))|done|done|done|].
  exists c, s, l. split_ands; [done..|]. rewrite (sim_size c s HR). 
  assert (capacity (lru_ref s) = n) as <-; [|by destruct HR as (_ & _ & ? & _)].
  clear -Hs. change n with (capacity (lru_ref (cache_new (C := Lru K) n))). revert Hs. generalize (cache_new (C := Lru K) n).
  revert l. induction os as [|o os IH]; intros l s0 Hs; [by simplify_eq/=|]. cbn [cache_run] in Hs.
  destruct (cache_step s0 o) as [[s1 a]|] eqn:E; [|done]. cbn [mbind option_bind] in Hs.
  destruct (cache_run s1 os) as [[s2 l2]|] eqn:E2; [|done]. simplify_eq/=. rewrite (IH _ _ E2).
  destruct o; cbn [cache_step] in E; unfold Exists in E; simpl in E; unfold ref_update, ref_del, ref_search in E;
    repeat case_match; by simplify_eq/=.
Qed.

(** The same for the MRU cache, as long as the history does not ask an empty
    cache for its victim. *)
Theorem mru_cache_history n os (s : Mru K) l :
  0 ≤ n < 2 ^ 64 → Forall (cache_op_ok (d_key_ok (D := D))) os → Z.of_nat (length os) ≤ max_elems →
  cache_run (cache_new n) os = Some (s, l) →
  ∃ c : MruCache D K, cache_run (cache_new n) os = Some (c, l) ∧ mru_rel c s.
Proof.
  intros Hn Hok Hlen Hs.
  by apply (cache_run_sim d_key_ok (λ s, ref_size (mru_ref s)) mru_rel (cache_new n) (cache_new n) s os l);
    [apply (sim_new (CacheSim := mru_sim))|..].
Qed.

(** [MruCache::Victim] and [DelVictim] read the header of the list without
    looking whether there is one: on an empty cache they dereference null, where
    the interface documents a null result. *)
Theorem mru_victim_of_empty n :
  Victim (cache_new (C := MruCache D K) n) = None ∧ DelVictim (cache_new (C := MruCache D K) n) = None.
Proof. done. Qed.

(** The distinct keys of a sequence of uses, the last used first. *)
Definition last_uses (ks : list K) : list K := fold_left (λ l k, k :: without k l) ks [].

Lemma take_without (n : nat) (l : list K) k :
  NoDup l → (0 < n)%nat →
  take n (k :: without k l) =
    if decide (k ∈ take n l) then k :: without k (take n l)
    else if decide (n ≤ length (take n l))%nat then k :: removelast (take n l) else k :: take n l.
Proof.
  intros Hnd Hn. destruct n as [|n]; [lia|]. change (take (S n) (k :: without k l)) with (k :: take n (without k l)).
  case_decide as Hin; [|case_decide as Hfull]; f_equal.
  - apply list_elem_of_lookup in Hin as [i Hi]. apply lookup_take_Some in Hi as [Hi Hlt].
    pose proof (lookup_lt_Some _ _ _ Hi). rewrite <-(take_drop_middle l i k Hi) in Hnd |- *.
    assert (length (take i l) = i) as Hl1 by (rewrite length_take; lia).
    rewrite without_middle by done. revert Hnd Hl1. generalize (take i l), (drop (S i) l). intros l1 l2 Hnd Hl1.
    rewrite !take_app, Hl1, (take_ge l1 n), (take_ge l1 (S n)) by lia. replace (S n - i)%nat with (S (n - i)) by lia. cbn [take].
    rewrite without_middle; [done|]. rewrite <-(take_drop (n - i) l2), app_comm_cons, app_assoc in Hnd.
    by apply NoDup_app in Hnd as [? _].
  - rewrite length_take in Hfull. rewrite removelast_firstn by lia.
    rewrite <-(take_drop (S n) l) at 1. unfold without. rewrite filter_app. fold (without k (take (S n) l)).
    rewrite without_absent by done. rewrite take_app_le by (rewrite length_take; lia). by rewrite take_take, Nat.min_l by lia.
  - rewrite length_take in Hfull. rewrite take_ge in Hin by lia. rewrite without_absent by done. by rewrite !take_ge by lia.
Qed.

Lemma last_uses_snoc ks k : last_uses (ks ++ [k]) = k :: without k (last_uses ks).
Proof. unfold last_uses. by rewrite fold_left_app. Qed.

Lemma last_uses_NoDup ks : NoDup (last_uses ks).
Proof.
  induction ks as [|k ks IH] using rev_ind; [by apply NoDup_nil|]. rewrite last_uses_snoc. apply NoDup_cons. split.
  - unfold without. rewrite list_elem_of_filter. naive_solver.
  - by apply NoDup_filter.
Qed.

Lemma cache_run_app {C} `{!CacheInterface C K} (c c1 : C) os1 os2 l1 :
  cache_run c os1 = Some (c1, l1) → cache_run c (os1 ++ os2) = '(c2, l2) ← cache_run c1 os2; Some (c2, l1 ++ l2).
Proof.
  revert c l1. induction os1 as [|o os1 IH]; intros c l1 Hr; cbn [cache_run app] in *.
  - simplify_eq. by destruct (cache_run c1 os2) as [[]|].
  - destruct (cache_step c o) as [[c' a]|]; [|done]. cbn [mbind option_bind] in *.
    destruct (cache_run c' os1) as [[c'' l'']|] eqn:E; [|done]. cbn [mbind option_bind] in *. simplify_eq.
    rewrite (IH c' l'' E). by destruct (cache_run c1 os2) as [[]|].
Qed.

(** The reference after a sequence of uses. *)
Lemma lru_ref_uses n ks :
  0 < n → ∃ l, cache_run (cache_new n) (CUpdate <$> ks) = Some (MkLruRef (MkRecency n (take (Z.to_nat n) (last_uses ks))), l).
Proof.
  intros Hn. induction ks as [|k ks [l IH]] using rev_ind; [exists []; cbn; by destruct (Z.to_nat n)|].
  rewrite fmap_app, (cache_run_app _ _ _ _ _ IH), last_uses_snoc. cbn [fmap list_fmap cache_run cache_step mbind option_bind UpdateEntry Lru_ref_ops lru_ref].
  rewrite take_without by (apply last_uses_NoDup || lia). unfold ref_update. cbn [capacity recent].
  destruct (Z.eqb_spec n 0); [lia|]. case_decide; [by eexists|].
  case_decide as Hfull; destruct (Z.leb_spec n (Z.of_nat (length (take (Z.to_nat n) (last_uses ks))))); try lia; by eexists.
Qed.

(** After any sequence of uses, an LRU cache of capacity [n] holds exactly
    the [n] most recently used distinct keys, and its victim is the one of them
    that was used least recently. *)
Theorem lru_cache_window n ks :
  0 < n < 2 ^ 64 → Forall (d_key_ok (D := D)) ks → Z.of_nat (length ks) < max_elems →
  ∃ (c : LruCache D K) l, cache_run (cache_new n) (CUpdate <$> ks) = Some (c, l)
    ∧ cache_size c = Z.min n (Z.of_nat (length (last_uses ks)))
    ∧ Victim c = Some (last (take (Z.to_nat n) (last_uses ks)))
    ∧ ∀ k, d_key_ok (D := D) k →
        ∃ c', Exists c k = Some (c', bool_decide (k ∈ take (Z.to_nat n) (last_uses ks))).
Proof.
  intros Hn Hok Hlen. destruct (lru_ref_uses n ks ltac:(lia)) as [l Hs]. set (s := MkLruRef _) in Hs.
  destruct (cache_run_sim d_key_ok (λ s, ref_size (lru_ref s)) lru_rel (cache_new n) (cache_new n) s (CUpdate <$> ks) l) as (c & Hc & HR).
  - apply (sim_new (CacheSim := lru_sim)). lia.
  - by apply Forall_fmap.
  - rewrite length_fmap. change (ref_size (lru_ref (cache_new n))) with 0. lia.
  - done.
  - exists c, l. split_ands; [done| | |].
    + rewrite (sim_size c s HR). cbn. unfold ref_size. cbn. rewrite length_take. lia.
    + by apply (sim_victim (CacheSim := lru_sim) c s).
    + intros k Hk. destruct (sim_search (CacheSim := lru_sim) c s k s (snd (ref_search (lru_ref s) k)) HR Hk) as [(c' & Hc' & _) _]; [done|].
      unfold Exists. rewrite Hc'. cbn. exists c'. case_decide as Hd; [by rewrite bool_decide_true|by rewrite bool_decide_false].
Qed.
End properties.

Module ListCacheExamples.
#[local] Instance HashZ : HashFunc Z := λ x, x.
Abbreviation ZDict := (HashState (list (KeyValue Z (option loc)))).

Definition uses : list (cache_op Z) :=
  [CUpdate 1; CUpdate 2; CUpdate 1; CUpdate 3; CVictim; CUpdate 4; CExists 2; CDel 3; CDelVictim; CUpdate 9; CClear; CUpdate 5].

Lemma lru_cache_history_witness :
  ∃ (c : LruCache ZDict Z) (s : Lru Z) l,
    cache_run (cache_new 2) uses = Some (c, l) ∧ cache_run (cache_new 2) uses = Some (s, l) ∧ lru_rel c s ∧ cache_size c ≤ 2.
Proof. apply (lru_cache_history (D := ZDict) 2 uses); [lia|by repeat constructor|by vm_compute]. Defined.

(** What the reference answers. *)
Definition mru_end : Mru Z * list (cache_answer Z) :=
  default (MkMruRef (MkRecency 2 []), []) (cache_run (cache_new 2) uses).

Lemma mru_cache_history_witness :
  ∃ c : MruCache ZDict Z, cache_run (cache_new 2) uses = Some (c, snd mru_end) ∧ mru_rel c (fst mru_end).
Proof.
  apply (mru_cache_history (D := ZDict) 2 uses (fst mru_end) (snd mru_end));
    [lia|by repeat constructor|by vm_compute|by vm_compute].
Defined.

Lemma lru_cache_window_witness :
  ∃ (c : LruCache ZDict Z) l, cache_run (cache_new 2) (CUpdate <$> [1; 2; 1; 3; 3]) = Some (c, l)
    ∧ cache_size c = Z.min 2 (Z.of_nat (length (last_uses [1; 2; 1; 3; 3])))
    ∧ Victim c = Some (last (take (Z.to_nat 2) (last_uses [1; 2; 1; 3; 3])))
    ∧ ∀ k, d_key_ok (D := ZDict) k →
        ∃ c', Exists c k = Some (c', bool_decide (k ∈ take (Z.to_nat 2) (last_uses [1; 2; 1; 3; 3]))).
Proof. apply (lru_cache_window (D := ZDict) 2 [1; 2; 1; 3; 3]); [lia|by repeat constructor|by vm_compute]. Defined.
End ListCacheExamples.
