(* ===== verification/LfuCache.v ===== *)
(** * The LFU policy

    [mmkv/replacement/lfu_cache.h], [internal/lfu_cache_impl.h]: a list of
    frequencies, each with the list of the keys used that often, and a dictionary
    from keys to the nodes of both lists.  As in [ListCache] a pointer to a key is
    modelled by the key.  The nodes of the frequency list and those of the lists of
    keys have their own heaps.  [None] is a null dereference, an access to a freed
    node, or a fault of the dictionary. *)

From S2P Require Import Prelude Comparator Dict HashTableBase HashTable Dictionary Blist Cache.

(** [FreqValue] and [NodeCtx]. *)
Record FreqValue := MkFreq { freq : Z; items : Blist }.
Record NodeCtx := MkCtx { fnode : option loc; inode : option loc }.

Record LfuCache (D K : Type) := MkLfu {
  freq_nodes : gmap loc (BNode FreqValue);
  item_nodes : gmap loc (BNode K);
  freq_list_ : Blist;
  key_node_ctx_dict_ : D;
  lfu_max_size_ : Z;
}.
Arguments MkLfu {D K}.
Arguments freq_nodes {D K}.
Arguments item_nodes {D K}.
Arguments freq_list_ {D K}.
Arguments key_node_ctx_dict_ {D K}.
Arguments lfu_max_size_ {D K}.

(** [p->value = v]. *)
Definition set_val {T} (h : gmap loc (BNode T)) (p : option loc) (v : T) : option (gmap loc (BNode T)) :=
  l ← p; n ← h !! l; Some (<[l := MkBNode v (prev n) (next n)]> h).

Section lfu_cache.
Context {D K : Type} `{!DictOps D K (KeyValue K NodeCtx)}.
Abbreviation T := (LfuCache D K).
Abbreviation Entry := (KeyValue K NodeCtx).
Implicit Types (c : T) (k : K).

Definition lfu_new (max_size : Z) : T := MkLfu ∅ ∅ blist_init (d_init (T := Entry)) max_size.

Definition lfu_size c : Z := d_size (T := Entry) (key_node_ctx_dict_ c).

Definition with_freqs c fh fl : T := MkLfu fh (item_nodes c) fl (key_node_ctx_dict_ c) (lfu_max_size_ c).
Definition with_dict c d : T := MkLfu (freq_nodes c) (item_nodes c) (freq_list_ c) d (lfu_max_size_ c).

(** What is done to the list of keys of a frequency. *)
Definition on_items {A} c (p : option loc) (f : gmap loc (BNode K) → Blist → option (gmap loc (BNode K) * Blist * A)) : option (T * A) :=
  fv ← get_val (freq_nodes c) p;
  '(ih, its, x) ← f (item_nodes c) (items fv);
  fh ← set_val (freq_nodes c) p (MkFreq (freq fv) its);
  Some (MkLfu fh ih (freq_list_ c) (key_node_ctx_dict_ c) (lfu_max_size_ c), x).

(** [NodeCtx::SetFreqNode(node)], of the entry of [k]. *)
Definition SetFreqNode c k (node : option loc) : option T :=
  fv ← get_val (freq_nodes c) node;
  back ← BackNode (item_nodes c) (items fv);
  d ← dict_write (key_node_ctx_dict_ c) k (MkCtx node back);
  Some (with_dict c d).

Definition erase_freq c (node : option loc) : option T :=
  '(fh, fl) ← Erase (freq_nodes c) (freq_list_ c) node; Some (with_freqs c fh fl).

(** [if (fnode->value.items.empty()) freq_list_.Erase(fnode)]. *)
Definition erase_if_empty c (node : option loc) : option T :=
  fv ← get_val (freq_nodes c) node;
  if blist_empty (items fv) then erase_freq c node else Some c.

(** The two branches of [UpdateEntry_]. *)
Definition add_entry c k : option T :=
  need ← (if blist_empty (freq_list_ c) then Some true
          else fv ← Front (freq_nodes c) (freq_list_ c); Some (1 <? freq fv));
  c ← (if need : bool then
         '(fh, fl) ← EmplaceFront (freq_nodes c) (freq_list_ c) (MkFreq 1 blist_init);
         Some (with_freqs c fh fl)
       else Some c);
  '(c, _) ← on_items c (header_ (freq_list_ c)) (λ h b, '(h, b) ← EmplaceBack h b k; Some (h, b, ()));
  SetFreqNode c k (header_ (freq_list_ c)).

(** The node after [p_fnode] becomes the one of the next frequency. *)
Definition ensure_next c (p_fnode : option loc) (old_freq : Z) : option T :=
  p_fnode_next ← get_next (freq_nodes c) p_fnode;
  need ← (match p_fnode_next with
          | None => Some true
          | Some _ => fv' ← get_val (freq_nodes c) p_fnode_next; Some (old_freq <? freq fv' ⊟ 1)
          end);
  if need : bool then
    let '(fh, node) := CreateNode (freq_nodes c) (MkFreq (old_freq ⊞ 1) blist_init) in
    '(fh, b) ← InsertAfter fh (freq_list_ c) p_fnode node;
    Some (with_freqs c fh b)
  else Some c.

Definition use_entry c k (ctx : NodeCtx) : option T :=
  let p_fnode := fnode ctx in
  fv ← get_val (freq_nodes c) p_fnode;
  c ← ensure_next c p_fnode (freq fv);
  p_fnode_next ← get_next (freq_nodes c) p_fnode;
  p_inode ← inode ctx;
  '(c, _) ← on_items c p_fnode (λ h b, '(h, b) ← Extract h b (Some p_inode); Some (h, b, ()));
  '(c, _) ← on_items c p_fnode_next (λ h b, '(h, b) ← PushBack h b p_inode; Some (h, b, ()));
  p_fnode_next ← get_next (freq_nodes c) p_fnode;
  c ← SetFreqNode c k p_fnode_next;
  erase_if_empty c p_fnode.

Definition lfu_UpdateEntry c k : option (T * option K) :=
  '(d, success, duplicate) ← InsertKvWithDuplicate (key_node_ctx_dict_ c) k (MkCtx None None);
  let c := with_dict c d in
  c ← (if success : bool then add_entry c (key duplicate) else use_entry c (key duplicate) (value duplicate));
  Some (c, Some (key duplicate)).

Definition lfu_DelEntry c k : option (T * bool) :=
  '(d, entry) ← d_extract (T := Entry) (key_node_ctx_dict_ c) k;
  let c := with_dict c d in
  match entry with
  | None => Some (c, false)
  | Some kv =>
      '(c, _) ← on_items c (fnode (value kv)) (λ h b, '(h, b) ← Erase h b (inode (value kv)); Some (h, b, ()));
      c ← erase_if_empty c (fnode (value kv));
      Some (c, true)
  end.

Definition lfu_Search c k : option (T * option K) :=
  '(d, kv) ← d_find (T := Entry) (key_node_ctx_dict_ c) k;
  Some (with_dict c d, match kv with Some e => Some (key e) | None => None end).

Definition lfu_Victim c : option (option K) :=
  if lfu_size c =? 0 then Some None
  else fv ← Front (freq_nodes c) (freq_list_ c); k ← Front (item_nodes c) (items fv); Some (Some k).

Definition lfu_DelVictim c : option T :=
  if lfu_size c =? 0 then Some c
  else
    let front := header_ (freq_list_ c) in
    fv ← get_val (freq_nodes c) front;
    p_key ← Front (item_nodes c) (items fv);
    '(c, _) ← on_items c front PopFront;
    fv ← get_val (freq_nodes c) front;
    c ← (if blist_empty (items fv) then
           '(fh, fl, _) ← PopFront (freq_nodes c) (freq_list_ c); Some (with_freqs c fh fl)
         else Some c);
    '(d, _) ← dict_erase (V := NodeCtx) (key_node_ctx_dict_ c) p_key;
    Some (with_dict c d).

(** [freq_list_.Clear()]: the destructor of each [FreqValue] clears its list. *)
Fixpoint clear_freqs (fuel : nat) (fh : gmap loc (BNode FreqValue)) (ih : gmap loc (BNode K)) (hd : option loc) :
    option (gmap loc (BNode FreqValue) * gmap loc (BNode K)) :=
  match hd with
  | None => Some (fh, ih)
  | Some _ =>
      match fuel with
      | O => None
      | S fuel =>
          nx ← get_next fh hd;
          fv ← get_val fh hd;
          '(ih, _) ← Clear (size ih) ih (items fv);
          fh ← DropNode fh hd;
          clear_freqs fuel fh ih nx
      end
  end.

Definition lfu_Clear c : option T :=
  d ← d_clear (T := Entry) (key_node_ctx_dict_ c);
  '(fh, ih) ← clear_freqs (size (freq_nodes c)) (freq_nodes c) (item_nodes c) (header_ (freq_list_ c));
  Some (MkLfu fh ih blist_init d (lfu_max_size_ c)).

#[export] Instance LfuCache_ops : CacheInterface T K := {|
  cache_new n := lfu_new n;
  UpdateEntry c k := lfu_UpdateEntry c k;
  DelEntry c k := lfu_DelEntry c k;
  Search c k := lfu_Search c k;
  Victim c := lfu_Victim c;
  DelVictim c := lfu_DelVictim c;
  cache_size c := lfu_size c;
  cache_Clear c := lfu_Clear c;
|}.
End lfu_cache.

(** ** The reference policy

    The keys with how often each was used, least often first, and among those used
    equally often the one first that has been so for longest. *)
Record Lfu (K : Type) := MkLfuRef { lfu_uses : list (K * Z) }.
Arguments MkLfuRef {K}.
Arguments lfu_uses {K}.

Section reference.
Context {K : Type} `{EqDecision K}.
Implicit Types (s : list (K * Z)) (k : K).

(** The entry comes after those used as often or less. *)
Fixpoint place (e : K * Z) s : list (K * Z) :=
  match s with
  | [] => [e]
  | x :: s => if x.2 <=? e.2 then x :: place e s else e :: x :: s
  end.

Definition forget k s : list (K * Z) := filter (λ e, e.1 ≠ k) s.

Definition uses_of k s : option Z := snd <$> (snd <$> list_find (λ e, e.1 = k) s).

Definition lfu_ref_update s k : list (K * Z) :=
  match uses_of k s with Some n => place (k, n + 1) (forget k s) | None => place (k, 1) s end.

#[export] Instance Lfu_ref_ops : CacheInterface (Lfu K) K := {|
  cache_new n := MkLfuRef [];
  UpdateEntry u k := Some (MkLfuRef (lfu_ref_update (lfu_uses u) k), Some k);
  DelEntry u k := Some (MkLfuRef (forget k (lfu_uses u)), bool_decide (k ∈ (lfu_uses u).*1));
  Search u k := Some (u, if decide (k ∈ (lfu_uses u).*1) then Some k else None);
  Victim u := Some (fst <$> head (lfu_uses u));
  DelVictim u := Some (MkLfuRef (tail (lfu_uses u)));
  cache_size u := Z.of_nat (length (lfu_uses u));
  cache_Clear u := Some (MkLfuRef []);
|}.
End reference.

(** ** Lists of frequencies in the heap *)

Section values.
Context {T : Type}.
Implicit Types (h : gmap loc (BNode T)) (b : Blist) (l : loc) (v w : T) (ns : list (loc * T)).

Lemma last_loc_fmap ns : last_loc ns = last ns.*1.
Proof. unfold last_loc. by rewrite fmap_last. Qed.

Lemma head_loc_fmap ns : head_loc ns = head ns.*1.
Proof. by destruct ns. Qed.

Lemma chain_set_val h p ns1 l v ns2 nx w :
  NoDup (ns1 ++ (l, v) :: ns2).*1 → chain h p (ns1 ++ (l, v) :: ns2) nx →
  ∃ h', set_val h (Some l) w = Some h' ∧ chain h' p (ns1 ++ (l, w) :: ns2) nx ∧ same_outside [l] h h'.
Proof.
  intros Hnd Hc. apply chain_app in Hc as [H1 [Hl H2]]. unfold set_val. simpl. rewrite Hl. simpl. eexists. split; [done|].
  rewrite fmap_app, fmap_cons in Hnd. cbn [fst] in Hnd. apply NoDup_app in Hnd as (_ & Hd & [Hl2 _]%NoDup_cons).
  split; [|intros l' Hl'; rewrite lookup_insert_ne; [done|set_solver]].
  apply chain_app. cbn [head_loc head fmap option_fmap option_map fst chain]. rewrite lookup_insert_eq. split; [|split; [done|]].
  - apply chain_insert; [|done]. intros Hin. apply (Hd l Hin). by left.
  - by apply chain_insert.
Qed.

Lemma rep_set_val h b ns1 l v ns2 w :
  blist_rep h b (ns1 ++ (l, v) :: ns2) → ∃ h', set_val h (Some l) w = Some h' ∧ blist_rep h' b (ns1 ++ (l, w) :: ns2).
Proof.
  intros (Hnd & Hh & Hc & Hl & Hch). destruct (chain_set_val _ _ _ _ _ _ _ w Hnd Hch) as (h' & Hs & Hch' & _). exists h'. split; [done|].
  assert ((ns1 ++ (l, v) :: ns2).*1 = (ns1 ++ (l, w) :: ns2).*1) as E by (by rewrite !fmap_app).
  rewrite last_loc_fmap, E, <-last_loc_fmap in Hch'. rewrite head_loc_fmap, E, <-head_loc_fmap in Hh. rewrite E in Hnd.
  unfold blist_rep. rewrite length_app in *. by split_and!.
Qed.

Lemma rep_get_val h b ns1 l v ns2 : blist_rep h b (ns1 ++ (l, v) :: ns2) → get_val h (Some l) = Some v.
Proof. intros (_ & _ & _ & _ & Hc). apply chain_app in Hc as [_ Hc]. by eapply chain_get_val. Qed.

Lemma rep_get_next h b ns1 l v ns2 : blist_rep h b (ns1 ++ (l, v) :: ns2) → get_next h (Some l) = Some (head_loc ns2).
Proof. intros Hr. destruct (rep_split _ _ _ _ _ _ Hr) as (_ & _ & _ & _ & _ & _ & Hm & _). by eapply chain_get_next. Qed.

Lemma rep_Front h b l v ns : blist_rep h b ((l, v) :: ns) → header_ b = Some l ∧ Front h b = Some v.
Proof. intros (_ & Hh & _ & _ & Hc). unfold Front. rewrite Hh. split; [done|]. by eapply chain_get_val. Qed.

Lemma BackNode_last h b ns l v : blist_rep h b (ns ++ [(l, v)]) → BackNode h b = Some (Some l).
Proof.
  intros (_ & Hh & _ & _ & Hc). unfold BackNode. rewrite Hh, last_loc_snoc in *.
  destruct (head_loc (ns ++ [(l, v)])) as [x|] eqn:Hx; [|by destruct ns as [|[]]]. by eapply chain_get_prev.
Qed.

Lemma rep_init h : blist_rep h blist_init [].
Proof. unfold blist_rep. split_and!; [constructor|done..]. Qed.

Lemma rep_same ls h h' b ns : same_outside ls h h' → ns.*1 ## ls → blist_rep h b ns → blist_rep h' b ns.
Proof. intros Hs Hd (? & ? & ? & ? & ?). unfold blist_rep. split_and!; try done. by eapply chain_same. Qed.
End values.

(** *** Groups: the nodes of the frequency list, each with the nodes of its keys *)

Section groups.
Context {K : Type}.
Abbreviation Group := (loc * FreqValue * list (loc * K))%type.
Implicit Types (gs : list Group) (g : Group) (ns ms : list (loc * K)) (fl il : loc) (fv : FreqValue) (k : K).

Definition item_locs gs : list loc := concat (map (λ g, g.2.*1) gs).

(** The two heaps hold the groups. *)
Definition groups_rep (fh : gmap loc (BNode FreqValue)) (ih : gmap loc (BNode K)) (b : Blist) gs : Prop :=
  blist_rep fh b gs.*1 ∧ Forall (λ g, blist_rep ih (items g.1.2) g.2) gs ∧ NoDup (item_locs gs).

Lemma item_locs_app gs gs' : item_locs (gs ++ gs') = item_locs gs ++ item_locs gs'.
Proof. unfold item_locs. by rewrite map_app, concat_app. Qed.

Lemma elem_item_locs il gs : il ∈ item_locs gs ↔ ∃ g, g ∈ gs ∧ il ∈ g.2.*1.
Proof.
  unfold item_locs. rewrite list_elem_of_In, in_concat. split.
  - intros (ls & Hls & Hil). apply in_map_iff in Hls as (g & <- & Hg). exists g. by rewrite !list_elem_of_In.
  - intros (g & Hg & Hil). exists g.2.*1. rewrite <-!list_elem_of_In. split; [|done]. apply list_elem_of_In, in_map_iff. exists g. by rewrite <-list_elem_of_In.
Qed.

(** The items of one group change; the other groups keep theirs. *)
Lemma groups_rep_items fh ih b gs1 fl fv ns gs2 ih' its ms ls :
  groups_rep fh ih b (gs1 ++ (fl, fv, ns) :: gs2) → blist_rep ih' its ms → same_outside ls ih ih' →
  (∀ il, il ∈ ls → il ∉ item_locs gs1 ∧ il ∉ item_locs gs2) → (∀ il, il ∈ ms.*1 → il ∉ item_locs gs1 ∧ il ∉ item_locs gs2) →
  ∃ fh', set_val fh (Some fl) (MkFreq (freq fv) its) = Some fh'
    ∧ groups_rep fh' ih' b (gs1 ++ (fl, MkFreq (freq fv) its, ms) :: gs2).
Proof.
  intros (Hb & Hi & Hnd) Hms Hs Hls Hmsl. rewrite fmap_app, fmap_cons in Hb. cbn [fst] in Hb.
  destruct (rep_set_val _ _ _ _ _ _ (MkFreq (freq fv) its) Hb) as (fh' & Hset & Hb'). exists fh'. split; [done|].
  apply Forall_app in Hi as [Hi1 [_ Hi2]%Forall_cons]. rewrite item_locs_app in Hnd. apply NoDup_app in Hnd as (Hn1 & Hd & Hn2).
  change (item_locs ((fl, fv, ns) :: gs2)) with (ns.*1 ++ item_locs gs2) in *. apply NoDup_app in Hn2 as (_ & _ & Hn2).
  assert (∀ gs, (∀ il, il ∈ ls → il ∉ item_locs gs) → Forall (λ g, blist_rep ih (items g.1.2) g.2) gs → Forall (λ g, blist_rep ih' (items g.1.2) g.2) gs) as Hkeep.
  { intros gs Hgs. rewrite !Forall_forall. intros Hf g Hg. eapply rep_same; [exact Hs| |by apply Hf].
    intros il Hil Hin. apply (Hgs il Hin), elem_item_locs. eauto. }
  split; [by rewrite fmap_app, fmap_cons|]. split.
  - apply Forall_app. split; [|constructor; [done|]]; apply Hkeep; try done; intros il Hil; by apply Hls.
  - rewrite item_locs_app. change (item_locs ((fl, MkFreq (freq fv) its, ms) :: gs2)) with (ms.*1 ++ item_locs gs2).
    apply NoDup_app. split; [done|]. split.
    + intros il Hil [Hin|Hin]%elem_of_app; [by apply Hmsl in Hin as [? _]|]. apply (Hd il Hil), elem_of_app. by right.
    + apply NoDup_app. split; [apply Hms|]. split; [|done]. intros il Hil. by apply Hmsl.
Qed.
End groups.

Section heap_ops.
Context {D K : Type} `{!DictOps D K (KeyValue K NodeCtx)}.
Abbreviation Group := (loc * FreqValue * list (loc * K))%type.
Implicit Types (c : LfuCache D K) (gs : list Group) (ns ms : list (loc * K)) (fl il : loc) (fv : FreqValue) (k : K).

Definition lfu_heap c gs : Prop := groups_rep (freq_nodes c) (item_nodes c) (freq_list_ c) gs.

(** The parts of a cache that the operations on the lists leave alone. *)
Definition same_dict c c' : Prop := key_node_ctx_dict_ c' = key_node_ctx_dict_ c.

Lemma group_disjoint gs1 fl fv ns gs2 il :
  NoDup (item_locs (gs1 ++ (fl, fv, ns) :: gs2)) → il ∈ ns.*1 → il ∉ item_locs gs1 ∧ il ∉ item_locs gs2.
Proof.
  rewrite item_locs_app. change (item_locs ((fl, fv, ns) :: gs2)) with (ns.*1 ++ item_locs gs2).
  intros (_ & Hd & (_ & Hd2 & _)%NoDup_app)%NoDup_app Hil. split; [|by apply Hd2]. intros Hin. apply (Hd il Hin), elem_of_app. by left.
Qed.

Lemma heap_get_val c gs1 fl fv ns gs2 : lfu_heap c (gs1 ++ (fl, fv, ns) :: gs2) → get_val (freq_nodes c) (Some fl) = Some fv.
Proof. intros (Hb & _). rewrite fmap_app, fmap_cons in Hb. by eapply rep_get_val. Qed.

Lemma heap_get_next c gs1 fl fv ns gs2 :
  lfu_heap c (gs1 ++ (fl, fv, ns) :: gs2) → get_next (freq_nodes c) (Some fl) = Some (head_loc gs2.*1).
Proof. intros (Hb & _). rewrite fmap_app, fmap_cons in Hb. by eapply rep_get_next. Qed.

Lemma heap_items c gs1 fl fv ns gs2 : lfu_heap c (gs1 ++ (fl, fv, ns) :: gs2) → blist_rep (item_nodes c) (items fv) ns.
Proof. intros (_ & Hi & _). by apply Forall_app in Hi as [_ [? _]%Forall_cons]. Qed.

Lemma on_items_spec {A} c gs1 fl fv ns gs2 f ih its (x : A) ms ls :
  lfu_heap c (gs1 ++ (fl, fv, ns) :: gs2) → f (item_nodes c) (items fv) = Some (ih, its, x) →
  blist_rep ih its ms → same_outside ls (item_nodes c) ih →
  (∀ il, il ∈ ls → il ∉ item_locs gs1 ∧ il ∉ item_locs gs2) → (∀ il, il ∈ ms.*1 → il ∉ item_locs gs1 ∧ il ∉ item_locs gs2) →
  ∃ c', on_items c (Some fl) f = Some (c', x) ∧ lfu_heap c' (gs1 ++ (fl, MkFreq (freq fv) its, ms) :: gs2)
    ∧ same_dict c c' ∧ item_nodes c' = ih.
Proof.
  intros Hh Hf Hms Hs Hls Hmsl. unfold on_items. rewrite (heap_get_val _ _ _ _ _ _ Hh). cbn [mbind option_bind]. rewrite Hf. cbn [mbind option_bind].
  destruct (groups_rep_items _ _ _ _ _ _ _ _ _ _ _ _ Hh Hms Hs Hls Hmsl) as (fh & -> & Hh'). eexists. split; [done|]. by split_and!.
Qed.

(** [Extract] of a key from its group; its node is in no group afterwards. *)
Lemma extract_item c gs1 fl fv ns1 il k ns2 gs2 :
  lfu_heap c (gs1 ++ (fl, fv, ns1 ++ (il, k) :: ns2) :: gs2) →
  ∃ c' its, on_items c (Some fl) (λ h b, '(h, b) ← Extract h b (Some il); Some (h, b, ())) = Some (c', ())
    ∧ lfu_heap c' (gs1 ++ (fl, MkFreq (freq fv) its, ns1 ++ ns2) :: gs2) ∧ same_dict c c'
    ∧ detached (item_nodes c') il k ∧ il ∉ item_locs (gs1 ++ (fl, MkFreq (freq fv) its, ns1 ++ ns2) :: gs2).
Proof.
  intros Hh. pose proof (heap_items _ _ _ _ _ _ Hh) as Hi. assert (NoDup (item_locs (gs1 ++ (fl, fv, ns1 ++ (il, k) :: ns2) :: gs2))) as Hnd by apply Hh.
  destruct (Extract_rep _ _ _ _ _ _ Hi) as (ih & its & He & Hr & Hd & Hs).
  destruct (on_items_spec c gs1 fl fv _ gs2 (λ h b, '(h, b) ← Extract h b (Some il); Some (h, b, ())) ih its () _ _ Hh ltac:(cbv beta; by rewrite He) Hr Hs)
    as (c' & Hc' & Hh' & Hsd & Hih).
  { intros l Hl. by eapply group_disjoint. }
  { intros l Hl. eapply group_disjoint; [exact Hnd|]. rewrite fmap_app, fmap_cons in *. set_solver. }
  exists c', its. subst ih. split_and!; [done..|]. rewrite item_locs_app. change (item_locs ((?a, ?b, ?n) :: gs2)) with (n.*1 ++ item_locs gs2).
  destruct (group_disjoint gs1 fl fv _ gs2 il Hnd) as [H1 H2]; [rewrite fmap_app, fmap_cons; set_solver|].
  destruct (rep_split _ _ _ _ _ _ Hi) as (_ & _ & H3 & H4 & _). unfold item_locs in *. simpl. rewrite !elem_of_app, fmap_app, elem_of_app. naive_solver.
Qed.

(** [PushBack] of a detached node to a group. *)
Lemma push_item c gs1 fl fv ns gs2 il k :
  lfu_heap c (gs1 ++ (fl, fv, ns) :: gs2) → detached (item_nodes c) il k → il ∉ item_locs (gs1 ++ (fl, fv, ns) :: gs2) →
  Z.of_nat (length ns) + 1 < 2 ^ 64 →
  ∃ c' its, on_items c (Some fl) (λ h b, '(h, b) ← PushBack h b il; Some (h, b, ())) = Some (c', ())
    ∧ lfu_heap c' (gs1 ++ (fl, MkFreq (freq fv) its, ns ++ [(il, k)]) :: gs2) ∧ same_dict c c'.
Proof.
  intros Hh Hd Hil Hlen. pose proof (heap_items _ _ _ _ _ _ Hh) as Hi. assert (NoDup (item_locs (gs1 ++ (fl, fv, ns) :: gs2))) as Hnd by apply Hh.
  rewrite item_locs_app in Hil. change (item_locs ((fl, fv, ns) :: gs2)) with (ns.*1 ++ item_locs gs2) in Hil. rewrite !elem_of_app in Hil.
  destruct (PushBack_rep _ _ _ il k Hi Hd) as (ih & its & He & Hr & Hs); [naive_solver|done|].
  assert (∀ l, l = il ∨ l ∈ ns.*1 → l ∉ item_locs gs1 ∧ l ∉ item_locs gs2) as Hdis.
  { intros l [->|Hl]; [naive_solver|by eapply group_disjoint]. }
  destruct (on_items_spec c gs1 fl fv _ gs2 (λ h b, '(h, b) ← PushBack h b il; Some (h, b, ())) ih its () _ _ Hh ltac:(cbv beta; by rewrite He) Hr Hs)
    as (c' & Hc' & Hh' & Hsd & _).
  { intros l Hl%elem_of_cons. by apply Hdis. }
  { intros l Hl. apply Hdis. rewrite fmap_app in Hl. set_solver. }
  eauto.
Qed.

(** [SetFreqNode] reads the node that was pushed. *)
Lemma heap_back c gs1 fl fv ns il k gs2 :
  lfu_heap c (gs1 ++ (fl, fv, ns ++ [(il, k)]) :: gs2) → BackNode (item_nodes c) (items fv) = Some (Some il).
Proof. intros Hh. eapply BackNode_last, heap_items, Hh. Qed.

(** Empty groups come and go. *)
Lemma erase_group c gs1 fl fv gs2 :
  lfu_heap c (gs1 ++ (fl, fv, []) :: gs2) → ∃ c', erase_freq c (Some fl) = Some c' ∧ lfu_heap c' (gs1 ++ gs2) ∧ same_dict c c'.
Proof.
  intros (Hb & Hi & Hnd). rewrite fmap_app, fmap_cons in Hb. cbn [fst] in Hb.
  destruct (Erase_rep _ _ _ _ _ _ Hb) as (fh & b & He & Hr & _). unfold erase_freq. rewrite He. eexists. split; [done|]. split; [|done].
  split; [by rewrite fmap_app|]. apply Forall_app in Hi as [Hi1 [_ Hi2]%Forall_cons]. split; [by apply Forall_app|].
  by rewrite item_locs_app in *.
Qed.

Lemma insert_group c gs1 fl fv ns gs2 (n : Z) :
  lfu_heap c (gs1 ++ (fl, fv, ns) :: gs2) → Z.of_nat (length (gs1 ++ (fl, fv, ns) :: gs2)) + 1 < 2 ^ 64 →
  ∃ c' node, (let '(fh, node) := CreateNode (freq_nodes c) (MkFreq n blist_init) in
              '(fh, b) ← InsertAfter fh (freq_list_ c) (Some fl) node; Some (with_freqs c fh b)) = Some c'
    ∧ lfu_heap c' (gs1 ++ (fl, fv, ns) :: (node, MkFreq n blist_init, []) :: gs2) ∧ same_dict c c'.
Proof.
  intros (Hb & Hi & Hnd) Hlen. rewrite fmap_app, fmap_cons in Hb. cbn [fst] in Hb.
  destruct (CreateNode_spec (freq_nodes c) (MkFreq n blist_init)) as (node & -> & Hnode).
  destruct (rep_alloc _ _ _ node (MkBNode (MkFreq n blist_init) None None) Hb Hnode) as [Hni Hb1].
  destruct (InsertAfter_rep _ _ _ _ _ _ node (MkFreq n blist_init) Hb1) as (fh & b & -> & Hr & _).
  { unfold detached. by rewrite lookup_insert_eq. } { done. } { rewrite length_app in *. cbn [length] in *. rewrite !length_fmap. lia. }
  eexists _, node. split; [done|]. split; [|done]. split; [by rewrite fmap_app, !fmap_cons|].
  apply Forall_app in Hi as [Hi1 [Hi0 Hi2]%Forall_cons]. split; [|by rewrite item_locs_app in *].
  apply Forall_app. split; [done|]. constructor; [done|]. constructor; [apply rep_init|done].
Qed.

Lemma push_group c gs (n : Z) :
  lfu_heap c gs → Z.of_nat (length gs) + 1 < 2 ^ 64 →
  ∃ c' node, ('(fh, b) ← EmplaceFront (freq_nodes c) (freq_list_ c) (MkFreq n blist_init); Some (with_freqs c fh b)) = Some c'
    ∧ lfu_heap c' ((node, MkFreq n blist_init, []) :: gs) ∧ same_dict c c'.
Proof.
  intros (Hb & Hi & Hnd) Hlen. unfold EmplaceFront. destruct (CreateNode_spec (freq_nodes c) (MkFreq n blist_init)) as (node & -> & Hnode).
  destruct (rep_alloc _ _ _ node (MkBNode (MkFreq n blist_init) None None) Hb Hnode) as [Hni Hb1].
  destruct (PushFront_rep _ _ _ node (MkFreq n blist_init) Hb1) as (fh & b & -> & Hr & _).
  { unfold detached. by rewrite lookup_insert_eq. } { done. } { by rewrite length_fmap. }
  eexists _, node. split; [done|]. split; [|done]. split; [done|]. split; [|done]. constructor; [apply rep_init|done].
Qed.
End heap_ops.

(** ** Groups and the reference *)

Section reference_facts.
Context {K : Type} `{EqDecision K}.
Implicit Types (s a b : list (K * Z)) (k : K) (e : K * Z).

Lemma place_app e a b :
  Forall (λ x, x.2 ≤ e.2) a → (∀ x, head b = Some x → e.2 < x.2) → place e (a ++ b) = a ++ e :: b.
Proof.
  induction a as [|x a IH]; intros Ha Hb; simpl.
  - destruct b as [|x b]; [done|]. simpl. specialize (Hb x eq_refl). by destruct (Z.leb_spec x.2 e.2); [lia|].
  - apply Forall_cons in Ha as [Hx Ha]. destruct (Z.leb_spec x.2 e.2); [|lia]. by rewrite IH.
Qed.

Lemma forget_absent k s : k ∉ s.*1 → forget k s = s.
Proof. intros Hk. apply filter_all. intros e He <-. apply Hk, list_elem_of_fmap. eauto. Qed.

Lemma forget_middle k (n : Z) a b : NoDup (a ++ (k, n) :: b).*1 → forget k (a ++ (k, n) :: b) = a ++ b.
Proof.
  rewrite fmap_app, fmap_cons. cbn [fst]. intros (_ & Hd & [Hk _]%NoDup_cons)%NoDup_app. unfold forget. rewrite filter_app.
  rewrite filter_cons_False by naive_solver. fold (forget k a) (forget k b). rewrite !forget_absent; [done|done|].
  intros Hin. apply (Hd k Hin). by left.
Qed.

Lemma uses_of_absent k s : k ∉ s.*1 → uses_of k s = None.
Proof.
  intros Hk. unfold uses_of. destruct (list_find _ s) as [[i e]|] eqn:E; [|done]. apply list_find_Some in E as (Hi & <- & _).
  exfalso. apply Hk, list_elem_of_fmap. exists e. split; [done|]. by eapply list_elem_of_lookup_2.
Qed.

Lemma uses_of_middle k (n : Z) a b : NoDup (a ++ (k, n) :: b).*1 → uses_of k (a ++ (k, n) :: b) = Some n.
Proof.
  intros Hnd. unfold uses_of. erewrite (list_find_app_r _ a); [simpl; by rewrite decide_True|].
  apply list_find_None, Forall_forall. intros e He <-. rewrite fmap_app, fmap_cons in Hnd. apply NoDup_app in Hnd as (_ & Hd & _).
  apply (Hd e.1); [apply list_elem_of_fmap; eauto|by left].
Qed.

Definition total_uses s : Z := foldr (λ e n, e.2 + n) 0 s.

Lemma total_uses_app a b : total_uses (a ++ b) = total_uses a + total_uses b.
Proof. unfold total_uses. induction a as [|e a IH]; simpl; [done|]. rewrite IH. lia. Qed.

Definition used s : Prop := Forall (λ e, 1 ≤ e.2) s.

Lemma total_uses_bound s : used s → Z.of_nat (length s) ≤ total_uses s.
Proof. unfold used. induction 1 as [|e s He Hs IH]; simpl; [done|]. lia. Qed.

Lemma total_uses_elem s e : used s → e ∈ s → e.2 ≤ total_uses s.
Proof.
  intros Hu (a & b & ->)%list_elem_of_split. unfold used in Hu. rewrite Forall_app, Forall_cons in Hu. destruct Hu as (Ha & _ & Hb).
  rewrite total_uses_app. simpl. pose proof (total_uses_bound a Ha). pose proof (total_uses_bound b Hb). lia.
Qed.

Lemma total_uses_place e s : total_uses (place e s) = e.2 + total_uses s.
Proof. induction s as [|x s IH]; simpl; [done|]. destruct (x.2 <=? e.2); simpl; [rewrite IH|]; lia. Qed.

Lemma total_uses_forget k s : used s → total_uses (forget k s) ≤ total_uses s.
Proof.
  unfold forget, used. induction 1 as [|e s He Hs IH]; [done|]. rewrite filter_cons. case_decide; simpl; lia.
Qed.
End reference_facts.

Section flat.
Context {K : Type} `{EqDecision K}.
Abbreviation Group := (loc * FreqValue * list (loc * K))%type.
Implicit Types (gs : list Group) (ns ms : list (loc * K)) (fl il : loc) (fv : FreqValue) (k : K).

Definition with_freq (n : Z) ns : list (K * Z) := map (λ x, (x.2, n)) ns.
Definition flat gs : list (K * Z) := concat (map (λ g, with_freq (freq g.1.2) g.2) gs).

Lemma flat_app gs gs' : flat (gs ++ gs') = flat gs ++ flat gs'.
Proof. unfold flat. by rewrite map_app, concat_app. Qed.

Lemma flat_cons fl fv ns gs : flat ((fl, fv, ns) :: gs) = with_freq (freq fv) ns ++ flat gs.
Proof. done. Qed.

Lemma with_freq_app (n : Z) ns ms : with_freq n (ns ++ ms) = with_freq n ns ++ with_freq n ms.
Proof. apply map_app. Qed.

Lemma flat_split gs1 fl fv ns1 il k ns2 gs2 :
  flat (gs1 ++ (fl, fv, ns1 ++ (il, k) :: ns2) :: gs2)
  = (flat gs1 ++ with_freq (freq fv) ns1) ++ (k, freq fv) :: with_freq (freq fv) ns2 ++ flat gs2.
Proof. rewrite flat_app, flat_cons, with_freq_app, <-!app_assoc. done. Qed.

(** Frequencies grow along the list, and every one has a key. *)
Definition groups_ok gs : Prop :=
  Forall (λ g, g.2 ≠ [] ∧ 1 ≤ freq g.1.2) gs ∧ StronglySorted (λ g g', freq g.1.2 < freq g'.1.2) gs.

(** The frequencies of groups in a range. *)
Definition above (n : Z) gs : Prop := Forall (λ g, n < freq g.1.2) gs.
Definition below (n : Z) gs : Prop := Forall (λ g, freq g.1.2 < n) gs.

Lemma groups_ok_split gs1 fl fv ns gs2 :
  groups_ok (gs1 ++ (fl, fv, ns) :: gs2) ↔
  groups_ok gs1 ∧ groups_ok gs2 ∧ below (freq fv) gs1 ∧ above (freq fv) gs2 ∧ ns ≠ [] ∧ 1 ≤ freq fv.
Proof.
  unfold groups_ok, below, above. rewrite Forall_app, Forall_cons. split.
  - intros [(H1 & [? ?] & H2) Hs]. apply StronglySorted_app in Hs as (Hlt & Hs1 & Hs2). apply StronglySorted_inv in Hs2 as [Hs2 Hf].
    split_and!; try done. apply Forall_forall. intros g Hg. apply (Hlt g (fl, fv, ns) Hg). by left.
  - intros ((H1 & Hs1) & (H2 & Hs2) & Hb & Ha & ? & ?). split; [done|]. apply StronglySorted_app. split_and!; [|done|by constructor].
    intros g g' Hg [->|Hg']%elem_of_cons; rewrite ?Forall_forall in *; [by apply Hb|].
    specialize (Hb g Hg). specialize (Ha g' Hg'). simpl in *. lia.
Qed.

Lemma groups_ok_app gs1 gs2 (n : Z) : groups_ok gs1 → groups_ok gs2 → below n gs1 → above n gs2 → groups_ok (gs1 ++ gs2).
Proof.
  intros [H1 S1] [H2 S2] Hb Ha. split; [by apply Forall_app|]. apply StronglySorted_app. split_and!; [|done..].
  intros g g' Hg Hg'. unfold below, above in *. rewrite Forall_forall in Hb, Ha. specialize (Hb g Hg). specialize (Ha g' Hg'). lia.
Qed.

Lemma flat_Forall (P : Z → Prop) gs : Forall (λ g, P (freq g.1.2)) gs → Forall (λ e, P e.2) (flat gs).
Proof.
  induction 1 as [|[[fl fv] ns] gs Hg Hgs IH]; [done|]. rewrite flat_cons. apply Forall_app. split; [|done].
  unfold with_freq. apply Forall_forall. intros e He. apply list_elem_of_fmap in He as (x & -> & _). done.
Qed.

Lemma flat_used gs : groups_ok gs → used (flat gs).
Proof. intros [Hg _]. apply (flat_Forall (λ n, 1 ≤ n)). eapply Forall_impl; [exact Hg|]. by intros g []. Qed.

Lemma with_freq_le (n m : Z) ns : n ≤ m → Forall (λ e : K * Z, e.2 ≤ m) (with_freq n ns).
Proof. intros. apply Forall_forall. intros e He. apply list_elem_of_fmap in He as (x & -> & _). done. Qed.

Lemma flat_head_above (n : Z) gs x : above n gs → head (flat gs) = Some x → n < x.2.
Proof.
  intros Ha Hx. apply (flat_Forall (λ m, n < m)) in Ha. rewrite Forall_forall in Ha. apply Ha.
  destruct (flat gs); [done|]. injection Hx as ->. by left.
Qed.

Lemma flat_below_le (n m : Z) gs : below n gs → n ≤ m → Forall (λ e, e.2 ≤ m) (flat gs).
Proof. intros Hb Hn. apply (flat_Forall (λ x, x ≤ m)). eapply Forall_impl; [exact Hb|]. simpl. intros. lia. Qed.

Lemma flat_length gs : groups_ok gs → (length gs ≤ length (flat gs))%nat.
Proof.
  intros [Hg _]. induction Hg as [|[[fl fv] ns] gs [Hne _] Hgs IH]; [done|]. rewrite flat_cons, length_app. unfold with_freq. rewrite length_map.
  destruct ns; [done|]. simpl. lia.
Qed.

(** The entry of a key in the dictionary. *)
Definition ctx_of gs k (ctx : NodeCtx) : Prop :=
  ∃ g il, g ∈ gs ∧ (il, k) ∈ g.2 ∧ ctx = MkCtx (Some g.1.1) (Some il).

Lemma ctx_of_split gs1 fl fv ns gs2 k ctx :
  ctx_of (gs1 ++ (fl, fv, ns) :: gs2) k ctx ↔
  ctx_of gs1 k ctx ∨ (∃ il, (il, k) ∈ ns ∧ ctx = MkCtx (Some fl) (Some il)) ∨ ctx_of gs2 k ctx.
Proof. unfold ctx_of. setoid_rewrite elem_of_app. setoid_rewrite elem_of_cons. naive_solver. Qed.

Lemma ctx_of_cons fl fv ns gs k ctx :
  ctx_of ((fl, fv, ns) :: gs) k ctx ↔ (∃ il, (il, k) ∈ ns ∧ ctx = MkCtx (Some fl) (Some il)) ∨ ctx_of gs k ctx.
Proof. unfold ctx_of. setoid_rewrite elem_of_cons. naive_solver. Qed.

Lemma ctx_of_app gs1 gs2 k ctx : ctx_of (gs1 ++ gs2) k ctx ↔ ctx_of gs1 k ctx ∨ ctx_of gs2 k ctx.
Proof. unfold ctx_of. setoid_rewrite elem_of_app. naive_solver. Qed.

Lemma ctx_of_key gs k ctx : ctx_of gs k ctx → k ∈ (flat gs).*1.
Proof.
  intros ([[fl fv] ns] & il & Hg & Hn & _). apply list_elem_of_split in Hg as (gs1 & gs2 & ->). rewrite flat_app, flat_cons, !fmap_app.
  apply elem_of_app. right. apply elem_of_app. left. unfold with_freq. rewrite <-list_fmap_compose. apply list_elem_of_fmap. by exists (il, k).
Qed.

Lemma key_ctx_of gs k : k ∈ (flat gs).*1 → ∃ ctx, ctx_of gs k ctx.
Proof.
  induction gs as [|[[fl fv] ns] gs IH]; [by intros ?%elem_of_nil|]. rewrite flat_cons, fmap_app, elem_of_app. intros [Hk|Hk].
  - unfold with_freq in Hk. rewrite <-list_fmap_compose in Hk. apply list_elem_of_fmap in Hk as ([il k'] & -> & Hin).
    exists (MkCtx (Some fl) (Some il)), (fl, fv, ns), il. split_and!; [by left|done|done].
  - destruct (IH Hk) as (ctx & g & il & Hg & ?). exists ctx, g, il. split; [by right|done].
Qed.

(** A key that is there, with its place. *)
Lemma ctx_of_place gs k ctx :
  ctx_of gs k ctx →
  ∃ gs1 fl fv ns1 il ns2 gs2, gs = gs1 ++ (fl, fv, ns1 ++ (il, k) :: ns2) :: gs2 ∧ ctx = MkCtx (Some fl) (Some il).
Proof.
  intros ([[fl fv] ns] & il & (gs1 & gs2 & ->)%list_elem_of_split & (ns1 & ns2 & E)%list_elem_of_split & ->). simpl in E. subst ns.
  by eexists gs1, fl, fv, ns1, il, ns2, gs2.
Qed.
End flat.

(** ** The operations on groups *)

Section implements.
Context {D K : Type} `{Countable K} `{!DictOps D K (KeyValue K NodeCtx)} `{!DictLaws D K (KeyValue K NodeCtx) TO_GK}.
Abbreviation Group := (loc * FreqValue * list (loc * K))%type.
Implicit Types (c : LfuCache D K) (gs : list Group) (ns ms : list (loc * K)) (fl il : loc) (fv : FreqValue) (k : K).

Lemma freqs_positive gs : groups_ok gs → Forall (λ g, 1 ≤ freq g.1.2) gs.
Proof. intros [Hg _]. eapply Forall_impl; [exact Hg|]. by intros g []. Qed.

(** The group after that of [fl] is the one of the next frequency. *)
Lemma ensure_next_spec c gs1 fl fv ns gs2 :
  lfu_heap c (gs1 ++ (fl, fv, ns) :: gs2) → groups_ok (gs1 ++ (fl, fv, ns) :: gs2) →
  total_uses (flat (gs1 ++ (fl, fv, ns) :: gs2)) < max_elems →
  ∃ c' fl2 fv2 ms gs3, ensure_next c (Some fl) (freq fv) = Some c' ∧ lfu_heap c' (gs1 ++ (fl, fv, ns) :: (fl2, fv2, ms) :: gs3)
    ∧ same_dict c c' ∧ freq fv2 = freq fv + 1 ∧ above (freq fv + 1) gs3 ∧ groups_ok gs3
    ∧ flat gs2 = with_freq (freq fv2) ms ++ flat gs3
    ∧ (∀ k ctx, ctx_of gs2 k ctx ↔ (∃ il, (il, k) ∈ ms ∧ ctx = MkCtx (Some fl2) (Some il)) ∨ ctx_of gs3 k ctx).
Proof.
  intros Hh Hok Hw. pose proof (flat_used _ Hok) as Hu. pose proof (total_uses_bound _ Hu) as Hl. pose proof (flat_length _ Hok) as Hlg.
  unfold max_elems in *. assert (Z.of_nat (length (gs1 ++ (fl, fv, ns) :: gs2)) + 1 < 2 ^ 64) as Hlen by lia.
  apply groups_ok_split in Hok as (Hok1 & Hok2 & Hb & Ha & Hne & Hf).
  assert (freq fv ≤ total_uses (flat (gs1 ++ (fl, fv, ns) :: gs2))) as Hfw.
  { destruct ns as [|[il k] ns]; [done|]. apply (total_uses_elem _ (k, freq fv) Hu). rewrite flat_app, flat_cons. simpl. set_solver. }
  unfold ensure_next. rewrite (heap_get_next _ _ _ _ _ _ Hh). cbn [mbind option_bind].
  assert (∃ need, match head_loc gs2.*1 with None => Some true | Some _ => fv' ← get_val (freq_nodes c) (head_loc gs2.*1); Some (freq fv <? freq fv' ⊟ 1) end
      = Some need ∧ if need : bool then above (freq fv + 1) gs2
                    else ∃ fl2 fv2 ms gs3, gs2 = (fl2, fv2, ms) :: gs3 ∧ freq fv2 = freq fv + 1) as (need & -> & Hneed).
  { destruct gs2 as [|[[fl2 fv2] ms] gs3]; [by exists true; split; [done|constructor]|]. cbn [fmap list_fmap fst head_loc head option_fmap option_map].
    rewrite cons_middle, app_assoc in Hh. rewrite (heap_get_val _ _ _ _ _ _ Hh). cbn [mbind option_bind].
    apply Forall_cons in Ha as [Ha Ha3]. simpl in Ha. pose proof (freqs_positive _ Hok2) as [Hf2 _]%Forall_cons. simpl in Hf2.
    assert (freq fv2 ≤ total_uses (flat (gs1 ++ (fl, fv, ns) :: (fl2, fv2, ms) :: gs3))).
    { pose proof Hok2 as [[[Hms _] _]%Forall_cons _]. destruct ms as [|[il k] ms]; [done|].
      apply (total_uses_elem _ (k, freq fv2) Hu). rewrite flat_app, !flat_cons. simpl. set_solver. }
    rewrite u64_small by lia. destruct (Z.ltb_spec (freq fv) (freq fv2 - 1)); eexists; (split; [done|]); simpl.
    - constructor; [simpl; lia|]. pose proof (groups_ok_split [] fl2 fv2 ms gs3) as [Hsp _]. apply Hsp in Hok2 as (_ & _ & _ & Ha2 & _).
      eapply Forall_impl; [exact Ha2|]. simpl. intros. lia.
    - exists fl2, fv2, ms, gs3. split; [done|]. lia. }
  cbn [mbind option_bind]. destruct need.
  - rewrite u64_small by lia. destruct (insert_group c gs1 fl fv ns gs2 (freq fv + 1) Hh Hlen) as (c' & node & -> & Hh' & Hsd).
    exists c', node, (MkFreq (freq fv + 1) blist_init), [], gs2. split_and!; try done. intros k ctx. set_solver.
  - destruct Hneed as (fl2 & fv2 & ms & gs3 & -> & Hf2). exists c, fl2, fv2, ms, gs3.
    pose proof (groups_ok_split [] fl2 fv2 ms gs3) as [Hsp _]. apply Hsp in Hok2 as (_ & Hok3 & _ & Ha3 & _). rewrite Hf2 in Ha3.
    split_and!; try done. intros k ctx. apply ctx_of_cons.
Qed.

Lemma SetFreqNode_spec c gs1 fl fv ns il k gs2 ctx :
  lfu_heap c (gs1 ++ (fl, fv, ns ++ [(il, k)]) :: gs2) → d_wf (key_node_ctx_dict_ c) → kv_view (key_node_ctx_dict_ c) !! k = Some ctx →
  ∃ c', SetFreqNode c k (Some fl) = Some c' ∧ lfu_heap c' (gs1 ++ (fl, fv, ns ++ [(il, k)]) :: gs2) ∧ d_wf (key_node_ctx_dict_ c')
    ∧ kv_view (key_node_ctx_dict_ c') = <[k := MkCtx (Some fl) (Some il)]> (kv_view (key_node_ctx_dict_ c)).
Proof.
  intros Hh Hwf Hk. unfold SetFreqNode. rewrite (heap_get_val _ _ _ _ _ _ Hh). cbn [mbind option_bind].
  rewrite (heap_back _ _ _ _ _ _ _ _ Hh). cbn [mbind option_bind].
  destruct (dict_write_spec (key_node_ctx_dict_ c) k (MkCtx (Some fl) (Some il)) ctx Hwf Hk) as (d & -> & Hwf' & Hv). cbn [mbind option_bind].
  eexists. split; [done|]. by split_and!.
Qed.

Lemma erase_if_empty_spec c gs1 fl fv ns gs2 :
  lfu_heap c (gs1 ++ (fl, fv, ns) :: gs2) →
  ∃ c', erase_if_empty c (Some fl) = Some c' ∧ same_dict c c'
    ∧ lfu_heap c' (match ns with [] => gs1 ++ gs2 | _ => gs1 ++ (fl, fv, ns) :: gs2 end).
Proof.
  intros Hh. unfold erase_if_empty. rewrite (heap_get_val _ _ _ _ _ _ Hh). cbn [mbind option_bind].
  rewrite (rep_header _ _ _ (heap_items _ _ _ _ _ _ Hh)). destruct ns as [|n ns].
  - destruct (erase_group c gs1 fl fv gs2 Hh) as (c' & -> & Hh' & Hsd). by exists c'.
  - by exists c.
Qed.

(** What is left of a group that lost a key. *)
Definition shrunk fl fv ns : list Group := match ns with [] => [] | _ => [(fl, fv, ns)] end.

Lemma shrunk_flat fl fv ns : flat (shrunk fl fv ns) = with_freq (freq fv) ns.
Proof. destruct ns; [done|]. unfold shrunk. rewrite flat_cons. apply app_nil_r. Qed.

Lemma shrunk_ctx fl fv ns k ctx : ctx_of (shrunk fl fv ns) k ctx ↔ ∃ il, (il, k) ∈ ns ∧ ctx = MkCtx (Some fl) (Some il).
Proof. destruct ns as [|n ns]; unfold ctx_of; simpl; [set_solver|]. setoid_rewrite list_elem_of_singleton. naive_solver. Qed.

Lemma shrunk_app gs1 fl fv ns gs2 :
  match ns with [] => gs1 ++ gs2 | _ => gs1 ++ (fl, fv, ns) :: gs2 end = gs1 ++ shrunk fl fv ns ++ gs2.
Proof. by destruct ns. Qed.

Lemma shrunk_ok gs1 fl fv ns gs2 :
  groups_ok gs1 → groups_ok gs2 → below (freq fv) gs1 → above (freq fv) gs2 → 1 ≤ freq fv → groups_ok (gs1 ++ shrunk fl fv ns ++ gs2).
Proof.
  intros. rewrite <-shrunk_app. destruct ns as [|n ns]; [by apply (groups_ok_app _ _ (freq fv))|]. by apply groups_ok_split.
Qed.

(** The dictionary entry of one key changes. *)
Definition retargeted gs gs' k (ctx' : option NodeCtx) : Prop :=
  ∀ k' ctx, ctx_of gs' k' ctx ↔ (k' = k ∧ ctx' = Some ctx) ∨ (k' ≠ k ∧ ctx_of gs k' ctx).

(** A key is in one place only. *)
Lemma key_once gs1 fl fv ns1 il k ns2 gs2 :
  NoDup (flat (gs1 ++ (fl, fv, ns1 ++ (il, k) :: ns2) :: gs2)).*1 →
  k ∉ (flat gs1).*1 ∧ k ∉ (flat gs2).*1 ∧ k ∉ ns1.*2 ∧ k ∉ ns2.*2.
Proof.
  rewrite flat_app, flat_cons, with_freq_app, !fmap_app. cbn [with_freq map fmap list_fmap fst].
  assert (∀ ns, (with_freq (freq fv) ns).*1 = ns.*2) as Hwf by (intros ns; unfold with_freq; by rewrite <-list_fmap_compose).
  fold (with_freq (freq fv) ns2). rewrite !Hwf.
  intros (_ & Hd & (Hn1 & Hd1 & Hn2)%NoDup_app)%NoDup_app. apply NoDup_app in Hn1 as (_ & Hd2 & [Hk _]%NoDup_cons).
  split_and!; [intros Hin; apply (Hd k Hin)|intros Hin; apply (Hd1 k); [|done]|intros Hin; apply (Hd2 k Hin); by left|done]; set_solver.
Qed.

Lemma not_ctx_of gs k ctx : k ∉ (flat gs).*1 → ¬ ctx_of gs k ctx.
Proof. intros Hk Hc. by apply Hk, (ctx_of_key _ _ ctx). Qed.

Lemma elem_snd ns il k : (il, k) ∈ ns → k ∈ ns.*2.
Proof. intros Hin. apply list_elem_of_fmap. by exists (il, k). Qed.

(** A use of a key that is there. *)
Lemma use_entry_spec c gs1 fl fv ns1 il k ns2 gs2 ctx :
  let gs := gs1 ++ (fl, fv, ns1 ++ (il, k) :: ns2) :: gs2 in
  lfu_heap c gs → groups_ok gs → NoDup (flat gs).*1 → total_uses (flat gs) < max_elems →
  d_wf (key_node_ctx_dict_ c) → kv_view (key_node_ctx_dict_ c) !! k = Some ctx →
  ∃ c' gs' ctx', use_entry c k (MkCtx (Some fl) (Some il)) = Some c' ∧ lfu_heap c' gs' ∧ groups_ok gs'
    ∧ flat gs' = place (k, freq fv + 1) (forget k (flat gs)) ∧ retargeted gs gs' k (Some ctx')
    ∧ d_wf (key_node_ctx_dict_ c') ∧ kv_view (key_node_ctx_dict_ c') = <[k := ctx']> (kv_view (key_node_ctx_dict_ c)).
Proof.
  intros gs Hh Hok Hnd Hw Hwf Hk. unfold use_entry. cbn [fnode inode]. rewrite (heap_get_val _ _ _ _ _ _ Hh). cbn [mbind option_bind].
  destruct (ensure_next_spec c gs1 fl fv _ gs2 Hh Hok Hw) as (c1 & fl2 & fv2 & ms & gs3 & -> & Hh1 & Hs1 & Hf2 & Ha3 & Hok3 & Hfl2 & Hctx2).
  pose proof (total_uses_bound _ (flat_used _ Hok)) as Hlen. unfold max_elems in Hw.
  assert (Z.of_nat (length ms) + 1 < 2 ^ 64) as Hms.
  { assert (length ms ≤ length (flat gs))%nat; [|lia]. subst gs. rewrite flat_app, flat_cons, Hfl2, !length_app.
    unfold with_freq at 2. rewrite length_map. lia. }
  cbn [mbind option_bind]. rewrite (heap_get_next _ _ _ _ _ _ Hh1). cbn [mbind option_bind fmap list_fmap fst head_loc head option_fmap option_map].
  destruct (extract_item c1 gs1 fl fv ns1 il k ns2 _ Hh1) as (c2 & its & -> & Hh2 & Hs2 & Hdet & Hil). cbn [mbind option_bind].
  rewrite cons_middle, app_assoc in Hh2, Hil.
  destruct (push_item c2 _ fl2 fv2 ms gs3 il k Hh2 Hdet Hil Hms) as (c3 & its2 & -> & Hh3 & Hs3). cbn [mbind option_bind].
  assert (key_node_ctx_dict_ c3 = key_node_ctx_dict_ c) as Ed by (unfold same_dict in *; congruence).
  pose proof Hh3 as Hh3'. rewrite <-app_assoc in Hh3'. cbn [app] in Hh3'. rewrite (heap_get_next _ _ _ _ _ _ Hh3').
  cbn [mbind option_bind fmap list_fmap fst head_loc head option_fmap option_map].
  rewrite <-Ed in Hwf, Hk. destruct (SetFreqNode_spec c3 _ fl2 _ ms il k gs3 ctx Hh3 Hwf Hk) as (c4 & -> & Hh4 & Hwf4 & Hv4). cbn [mbind option_bind].
  rewrite <-app_assoc in Hh4. cbn [app] in Hh4. destruct (erase_if_empty_spec c4 gs1 fl _ _ _ Hh4) as (c5 & -> & Hs5 & Hh5). rewrite shrunk_app in Hh5.
  eexists c5, _, (MkCtx (Some fl2) (Some il)). split; [done|]. split; [exact Hh5|]. unfold same_dict in Hs5. rewrite Hs5, <-Ed.
  apply groups_ok_split in Hok as (Hok1 & Hok2 & Hb & Ha & _ & Hf1). apply key_once in Hnd as Hk1. destruct Hk1 as (K1 & K2 & K3 & K4).
  split_and!; [| | |done|done].
  - apply shrunk_ok; simpl; try done.
    + apply (groups_ok_split [] fl2 _ _ gs3). simpl. rewrite Hf2. split_and!; try done; [split; constructor|constructor|by destruct ms|lia].
    + constructor; simpl; [lia|]. eapply Forall_impl; [exact Ha3|]. simpl. intros. lia.
  - subst gs. rewrite flat_split in Hnd |- *. rewrite forget_middle by done. rewrite !flat_app, shrunk_flat, flat_cons, !with_freq_app. cbn [freq].
    rewrite Hfl2, Hf2. change (with_freq (freq fv + 1) [(il, k)]) with [(k, freq fv + 1)].
    rewrite (app_assoc (with_freq _ ns2)), (app_assoc (flat gs1 ++ _)).
    rewrite place_app; [by rewrite <-!app_assoc| |].
    + rewrite !Forall_app. split_and!; [by apply (flat_below_le (freq fv)); [|simpl; lia]|apply with_freq_le; simpl; lia..].
    + intros x. by apply flat_head_above.
  - intros k' ctx'. rewrite !ctx_of_app, shrunk_ctx, ctx_of_cons. subst gs. rewrite ctx_of_split, Hctx2.
    pose proof (λ x, not_ctx_of gs1 k x K1) as N1. pose proof (λ x, not_ctx_of gs2 k x K2) as N2. setoid_rewrite Hctx2 in N2.
    repeat first [setoid_rewrite elem_of_app | setoid_rewrite elem_of_cons | setoid_rewrite elem_of_nil].
    assert (∀ l, (l, k) ∉ ns1) as N3 by (intros l ?%elem_snd; done). assert (∀ l, (l, k) ∉ ns2) as N4 by (intros l ?%elem_snd; done).
    destruct (decide (k' = k)) as [->|Hne]; [clear -N1 N2 N3 N4|clear -N1 N2 N3 N4 Hne]; naive_solver.
Qed.

(** A new key goes to the back of a group. *)
Lemma emplace_item c gs1 fl fv ns gs2 k :
  lfu_heap c (gs1 ++ (fl, fv, ns) :: gs2) → Z.of_nat (length ns) + 1 < 2 ^ 64 →
  ∃ c' its il, on_items c (Some fl) (λ h b, '(h, b) ← EmplaceBack h b k; Some (h, b, ())) = Some (c', ())
    ∧ lfu_heap c' (gs1 ++ (fl, MkFreq (freq fv) its, ns ++ [(il, k)]) :: gs2) ∧ same_dict c c'.
Proof.
  intros Hh Hlen. destruct (CreateNode_spec (item_nodes c) k) as (il & Hcr & Hil).
  assert (il ∉ item_locs (gs1 ++ (fl, fv, ns) :: gs2)) as Hni.
  { intros (g & Hg & Hin)%elem_item_locs. destruct Hh as (_ & Hi & _). rewrite Forall_forall in Hi.
    destruct (rep_dom _ _ _ _ (Hi g Hg) Hin) as [? ?]. congruence. }
  rewrite item_locs_app in Hni. change (item_locs ((fl, fv, ns) :: gs2)) with (ns.*1 ++ item_locs gs2) in Hni. rewrite !elem_of_app in Hni.
  destruct (rep_alloc _ _ _ il (MkBNode k None None) (heap_items _ _ _ _ _ _ Hh) Hil) as [_ Hr].
  destruct (PushBack_rep _ _ _ il k Hr) as (ih & its & He & Hr' & Hs); [by unfold detached; rewrite lookup_insert_eq|naive_solver|done|].
  assert (∀ l, l = il ∨ l ∈ ns.*1 → l ∉ item_locs gs1 ∧ l ∉ item_locs gs2) as Hdis.
  { intros l [->|Hl]; [naive_solver|]. eapply group_disjoint; [apply Hh|done]. }
  destruct (on_items_spec c gs1 fl fv _ gs2 (λ h b, '(h, b) ← EmplaceBack h b k; Some (h, b, ())) ih its () (ns ++ [(il, k)]) (il :: ns.*1) Hh)
    as (c' & Hc' & Hh' & Hsd & _).
  { unfold EmplaceBack. rewrite Hcr. by rewrite He. } { done. }
  { intros l Hl. rewrite Hs by done. rewrite lookup_insert_ne; [done|set_solver]. }
  { intros l Hl%elem_of_cons. by apply Hdis. }
  { intros l Hl. apply Hdis. rewrite fmap_app in Hl. set_solver. }
  eauto 10.
Qed.

(** The first group is the one of frequency 1. *)
Lemma ensure_first c gs :
  lfu_heap c gs → groups_ok gs → Z.of_nat (length gs) + 1 < 2 ^ 64 →
  ∃ c' fl fv ns gs2,
    (need ← (if blist_empty (freq_list_ c) then Some true else fv ← Front (freq_nodes c) (freq_list_ c); Some (1 <? freq fv));
     if need : bool then
       '(fh, b) ← EmplaceFront (freq_nodes c) (freq_list_ c) (MkFreq 1 blist_init); Some (with_freqs c fh b)
     else Some c) = Some c'
    ∧ lfu_heap c' ((fl, fv, ns) :: gs2) ∧ same_dict c c' ∧ freq fv = 1 ∧ above 1 gs2 ∧ groups_ok gs2
    ∧ flat gs = with_freq 1 ns ++ flat gs2
    ∧ (∀ k ctx, ctx_of gs k ctx ↔ (∃ il, (il, k) ∈ ns ∧ ctx = MkCtx (Some fl) (Some il)) ∨ ctx_of gs2 k ctx).
Proof.
  intros Hh Hok Hlen. pose proof Hh as (Hb & _). rewrite (rep_header _ _ _ Hb).
  assert (∃ need, (if match gs.*1 with [] => true | _ => false end then Some true else fv ← Front (freq_nodes c) (freq_list_ c); Some (1 <? freq fv))
      = Some need ∧ if need : bool then above 1 gs else ∃ fl fv ns gs2, gs = (fl, fv, ns) :: gs2 ∧ freq fv = 1) as (need & -> & Hneed).
  { destruct gs as [|[[fl fv] ns] gs2]; [by exists true; split; [|constructor]|]. cbn [fmap list_fmap fst] in *.
    destruct (rep_Front _ _ _ _ _ Hb) as [_ ->]. cbn [mbind option_bind]. eexists. split; [done|].
    pose proof (groups_ok_split [] fl fv ns gs2) as [Hsp _]. apply Hsp in Hok as (_ & _ & _ & Ha & _ & Hf).
    destruct (Z.ltb_spec 1 (freq fv)).
    - constructor; [done|]. eapply Forall_impl; [exact Ha|]. simpl. intros. lia.
    - exists fl, fv, ns, gs2. split; [done|]. lia. }
  cbn [mbind option_bind]. destruct need.
  - destruct (push_group c gs 1 Hh Hlen) as (c' & node & -> & Hh' & Hsd). exists c', node, (MkFreq 1 blist_init), [], gs.
    split_and!; try done. intros k ctx. set_solver.
  - destruct Hneed as (fl & fv & ns & gs2 & -> & Hf). exists c, fl, fv, ns, gs2.
    pose proof (groups_ok_split [] fl fv ns gs2) as [Hsp _]. apply Hsp in Hok as (_ & Hok2 & _ & Ha & _). rewrite Hf in Ha.
    split_and!; try done; [by rewrite flat_cons, Hf|]. intros k ctx. apply ctx_of_cons.
Qed.

Lemma add_entry_spec c gs k ctx :
  lfu_heap c gs → groups_ok gs → k ∉ (flat gs).*1 → total_uses (flat gs) < max_elems →
  d_wf (key_node_ctx_dict_ c) → kv_view (key_node_ctx_dict_ c) !! k = Some ctx →
  ∃ c' gs' ctx', add_entry c k = Some c' ∧ lfu_heap c' gs' ∧ groups_ok gs'
    ∧ flat gs' = place (k, 1) (flat gs) ∧ retargeted gs gs' k (Some ctx')
    ∧ d_wf (key_node_ctx_dict_ c') ∧ kv_view (key_node_ctx_dict_ c') = <[k := ctx']> (kv_view (key_node_ctx_dict_ c)).
Proof.
  intros Hh Hok Hnk Hw Hwf Hk. unfold add_entry. pose proof (total_uses_bound _ (flat_used _ Hok)) as Hl. pose proof (flat_length _ Hok).
  unfold max_elems in Hw. destruct (ensure_first c gs Hh Hok ltac:(lia)) as (c1 & fl & fv & ns & gs2 & Hef & Hh1 & Hs1 & Hf & Ha & Hok2 & Hfl & Hctx).
  match type of Hef with mbind _ ?e = _ => destruct e as [need|] eqn:En; [|done] end. cbn [mbind option_bind] in Hef |- *. rewrite Hef. cbn [mbind option_bind].
  assert (header_ (freq_list_ c1) = Some fl) as -> by (destruct Hh1 as (Hb & _); by destruct (rep_Front _ _ _ _ _ Hb)).
  assert (Z.of_nat (length ns) + 1 < 2 ^ 64).
  { assert (length ns ≤ length (flat gs))%nat; [|lia]. rewrite Hfl, length_app. unfold with_freq. rewrite length_map. lia. }
  destruct (emplace_item c1 [] fl fv ns gs2 k Hh1) as (c2 & its & il & -> & Hh2 & Hs2); [done|]. cbn [mbind option_bind app] in *.
  assert (header_ (freq_list_ c2) = Some fl) as -> by (destruct Hh2 as (Hb & _); by destruct (rep_Front _ _ _ _ _ Hb)).
  assert (key_node_ctx_dict_ c2 = key_node_ctx_dict_ c) as Ed by (unfold same_dict in *; congruence). rewrite <-Ed in Hwf, Hk.
  destruct (SetFreqNode_spec c2 [] fl _ ns il k gs2 ctx Hh2 Hwf Hk) as (c3 & -> & Hh3 & Hwf3 & Hv3). rewrite <-Ed.
  eexists c3, _, (MkCtx (Some fl) (Some il)). split; [done|]. split; [exact Hh3|]. split_and!; [| | |done|done].
  - apply groups_ok_split. simpl. rewrite Hf. split_and!; try done; [split; constructor|constructor|by destruct ns].
  - cbn [app]. rewrite flat_cons, with_freq_app, Hfl. cbn [freq]. rewrite Hf, <-app_assoc. rewrite place_app; [done|by apply with_freq_le|].
    intros x. by apply flat_head_above.
  - intros k' ctx'. cbn [app]. rewrite ctx_of_cons, Hctx. pose proof (λ x, not_ctx_of gs k x Hnk) as N. setoid_rewrite Hctx in N.
    repeat first [setoid_rewrite elem_of_app | setoid_rewrite elem_of_cons | setoid_rewrite elem_of_nil].
    destruct (decide (k' = k)) as [->|Hne]; naive_solver.
Qed.

(** ** The relation to the reference *)

Definition dict_ok (d : D) gs : Prop := d_wf d ∧ ∀ k ctx, kv_view d !! k = Some ctx ↔ ctx_of gs k ctx.

Definition lfu_rel c (s : Lfu K) : Prop :=
  ∃ gs, lfu_heap c gs ∧ groups_ok gs ∧ NoDup (flat gs).*1 ∧ flat gs = lfu_uses s ∧ dict_ok (key_node_ctx_dict_ c) gs
    ∧ total_uses (lfu_uses s) ≤ max_elems.

Lemma place_perm e (s : list (K * Z)) : place e s ≡ₚ e :: s.
Proof. induction s as [|x s IH]; simpl; [done|]. destruct (x.2 <=? e.2); [|done]. rewrite IH. constructor. Qed.

Lemma forget_keys k (s : list (K * Z)) : k ∉ (forget k s).*1 ∧ (NoDup s.*1 → NoDup (forget k s).*1).
Proof.
  split.
  - intros ([k' n] & -> & Hin)%list_elem_of_fmap. unfold forget in Hin. apply list_elem_of_filter in Hin as [? _]. done.
  - intros Hnd. unfold forget. eapply sublist_NoDup; [exact Hnd|]. apply fmap_sublist, sublist_filter.
Qed.

Lemma dict_ok_size d gs : dict_ok d gs → NoDup (flat gs).*1 → size (kv_view d) = length (flat gs).
Proof.
  intros [_ Hv] Hnd. rewrite <-size_dom, <-(length_fmap fst), <-(size_list_to_set (C := gset K)) by done. f_equal. apply set_eq. intros k.
  rewrite elem_of_dom, elem_of_list_to_set. split.
  - intros [ctx Hctx]. by eapply ctx_of_key, Hv.
  - intros (ctx & Hctx)%key_ctx_of. exists ctx. by apply Hv.
Qed.

Lemma dict_ok_None d gs k : dict_ok d gs → kv_view d !! k = None ↔ k ∉ (flat gs).*1.
Proof.
  intros [_ Hv]. split.
  - intros Hn (ctx & Hctx)%key_ctx_of. apply Hv in Hctx. congruence.
  - intros Hk. destruct (kv_view d !! k) as [ctx|] eqn:E; [|done]. by apply Hv, ctx_of_key in E.
Qed.

Lemma dict_ok_retarget d d' gs gs' k ctx' :
  d_wf d' → kv_view d' = <[k := ctx']> (kv_view d) → (∀ k' ctx, k' ≠ k → kv_view d !! k' = Some ctx ↔ ctx_of gs k' ctx) →
  retargeted gs gs' k (Some ctx') → dict_ok d' gs'.
Proof.
  intros Hwf Hv Hd Hr. split; [done|]. intros k' ctx. unfold retargeted in Hr. rewrite Hr, Hv. destruct (decide (k' = k)) as [->|Hne].
  - rewrite lookup_insert_eq. naive_solver.
  - rewrite lookup_insert_ne by done. rewrite Hd by done. naive_solver.
Qed.

Lemma dict_ok_remove d d' gs gs' k :
  d_wf d' → kv_view d' = delete k (kv_view d) → dict_ok d gs → retargeted gs gs' k None → dict_ok d' gs'.
Proof.
  intros Hwf Hv [_ Hd] Hr. split; [done|]. intros k' ctx. unfold retargeted in Hr. rewrite Hr, Hv. destruct (decide (k' = k)) as [->|Hne].
  - rewrite lookup_delete_eq. naive_solver.
  - rewrite lookup_delete_ne by done. rewrite Hd. naive_solver.
Qed.

Lemma update_rel c s k :
  lfu_rel c s → d_key_ok k → total_uses (lfu_uses s) < max_elems →
  ∃ c', lfu_UpdateEntry c k = Some (c', Some k) ∧ lfu_rel c' (MkLfuRef (lfu_ref_update (lfu_uses s) k))
    ∧ total_uses (lfu_ref_update (lfu_uses s) k) = total_uses (lfu_uses s) + 1.
Proof.
  intros (gs & Hh & Hok & Hnd & Hfl & Hd & _) Hk Hw. rewrite <-Hfl in *. pose proof (total_uses_bound _ (flat_used _ Hok)) as Hlen.
  unfold lfu_UpdateEntry. pose proof Hd as [Hwf Hv].
  destruct (InsertKvWithDuplicate_spec (key_node_ctx_dict_ c) k (MkCtx None None) Hwf) as (d & Hwf' & Hi); [rewrite (dict_ok_size _ gs) by done; simpl; lia|done|].
  destruct (decide (k ∈ (flat gs).*1)) as [Hin|Hin].
  - destruct (key_ctx_of _ _ Hin) as (ctx & Hctx). apply ctx_of_place in Hctx as HP. destruct HP as (gs1 & fl & fv & ns1 & il & ns2 & gs2 & -> & ->).
    apply Hv in Hctx. rewrite Hctx in Hi. destruct Hi as [-> Hvd]. cbn [mbind option_bind key value].
    destruct (use_entry_spec (with_dict c d) gs1 fl fv ns1 il k ns2 gs2 (MkCtx (Some fl) (Some il))) as (c' & gs' & ctx' & -> & Hh' & Hok' & Hfl' & Hr & Hwfc & Hvc); [done..|by simpl; rewrite Hvd|].
    cbn [mbind option_bind]. simpl in Hvc. rewrite Hvd in Hvc. exists c'. split; [done|].
    unfold lfu_ref_update. rewrite flat_split in *. rewrite uses_of_middle by done.
    assert (total_uses (place (k, freq fv + 1) (forget k ((flat gs1 ++ with_freq (freq fv) ns1) ++ (k, freq fv) :: with_freq (freq fv) ns2 ++ flat gs2)))
      = total_uses ((flat gs1 ++ with_freq (freq fv) ns1) ++ (k, freq fv) :: with_freq (freq fv) ns2 ++ flat gs2) + 1) as Ht.
    { rewrite total_uses_place, forget_middle by done. rewrite (total_uses_app _ (_ :: _)), total_uses_app. simpl. lia. }
    split; [|done]. exists gs'. simpl. rewrite Ht. split_and!; try done; [|by eapply dict_ok_retarget; [| |intros; apply Hv|]|lia].
    rewrite Hfl', place_perm. cbn [fmap list_fmap fst]. destruct (forget_keys k ((flat gs1 ++ with_freq (freq fv) ns1) ++ (k, freq fv) :: with_freq (freq fv) ns2 ++ flat gs2)).
    constructor; [done|]. by auto.
  - pose proof Hin as Hn. apply (dict_ok_None _ _ _ Hd) in Hn. rewrite Hn in Hi. destruct Hi as [-> Hvd]. cbn [mbind option_bind key value].
    destruct (add_entry_spec (with_dict c d) gs k (MkCtx None None)) as (c' & gs' & ctx' & -> & Hh' & Hok' & Hfl' & Hr & Hwfc & Hvc);
      [done..|by simpl; rewrite Hvd, lookup_insert_eq|]. cbn [mbind option_bind]. simpl in Hvc. rewrite Hvd, insert_insert_eq in Hvc.
    exists c'. split; [done|]. unfold lfu_ref_update. rewrite uses_of_absent by done.
    assert (total_uses (place (k, 1) (flat gs)) = total_uses (flat gs) + 1) as Ht by (rewrite total_uses_place; simpl; lia).
    split; [|done]. exists gs'. simpl. rewrite Ht. split_and!; try done; [|by eapply dict_ok_retarget; [| |intros; apply Hv|]|lia].
    rewrite Hfl', place_perm. by constructor.
Qed.

Lemma lfu_search_rel c s k :
  lfu_rel c s → d_key_ok k → ∃ c', lfu_Search c k = Some (c', if decide (k ∈ (lfu_uses s).*1) then Some k else None) ∧ lfu_rel c' s.
Proof.
  intros (gs & Hh & Hok & Hnd & Hfl & Hd & Hw) Hk. unfold lfu_Search. destruct Hd as [Hwf Hv].
  destruct (find_spec (key_node_ctx_dict_ c) k Hwf Hk) as (d & -> & Hwf' & Hvd). cbn [mbind option_bind].
  assert (dict_ok d gs) as Hd' by (split; [done|]; by rewrite Hvd).
  exists (with_dict c d). split; [|by exists gs]. rewrite <-Hfl. do 2 f_equal. case_decide as Hin.
  - destruct (key_ctx_of _ _ Hin) as (ctx & Hctx). apply Hv in Hctx. by rewrite Hctx.
  - apply (dict_ok_None _ _ _ Hd') in Hin. rewrite Hvd in Hin. by rewrite Hin.
Qed.

Lemma size_rel c s : lfu_rel c s → lfu_size c = Z.of_nat (length (lfu_uses s)).
Proof.
  intros (gs & Hh & Hok & Hnd & Hfl & Hd & Hw). unfold lfu_size. rewrite <-Hfl in *. pose proof (total_uses_bound _ (flat_used _ Hok)).
  rewrite d_size_law by apply Hd. rewrite <-kv_view_size, (dict_ok_size _ gs) by done. apply u64_small. unfold max_elems in Hw. lia.
Qed.

(** [Erase] of a key from its group. *)
Lemma erase_item c gs1 fl fv ns1 il k ns2 gs2 :
  lfu_heap c (gs1 ++ (fl, fv, ns1 ++ (il, k) :: ns2) :: gs2) →
  ∃ c' its, on_items c (Some fl) (λ h b, '(h, b) ← Erase h b (Some il); Some (h, b, ())) = Some (c', ())
    ∧ lfu_heap c' (gs1 ++ (fl, MkFreq (freq fv) its, ns1 ++ ns2) :: gs2) ∧ same_dict c c'.
Proof.
  intros Hh. pose proof (heap_items _ _ _ _ _ _ Hh) as Hi. destruct (Erase_rep _ _ _ _ _ _ Hi) as (ih & its & He & Hr & _ & Hs).
  destruct (on_items_spec c gs1 fl fv _ gs2 (λ h b, '(h, b) ← Erase h b (Some il); Some (h, b, ())) ih its () _ _ Hh ltac:(cbv beta; by rewrite He) Hr Hs)
    as (c' & Hc' & Hh' & Hsd & _); [..|by eauto].
  { intros l Hl. eapply group_disjoint; [apply Hh|done]. }
  { intros l Hl. eapply group_disjoint; [apply Hh|]. rewrite fmap_app, fmap_cons in *. set_solver. }
Qed.

(** The groups without a key. *)
Lemma removed gs1 fl fv its ns1 il k ns2 gs2 :
  let gs := gs1 ++ (fl, fv, ns1 ++ (il, k) :: ns2) :: gs2 in
  let gs' := gs1 ++ shrunk fl (MkFreq (freq fv) its) (ns1 ++ ns2) ++ gs2 in
  groups_ok gs → NoDup (flat gs).*1 →
  groups_ok gs' ∧ flat gs' = forget k (flat gs) ∧ NoDup (flat gs').*1 ∧ retargeted gs gs' k None.
Proof.
  intros gs gs' Hok Hnd. pose proof (key_once _ _ _ _ _ _ _ _ Hnd) as (K1 & K2 & K3 & K4).
  assert (flat gs' = forget k (flat gs)) as Hfl.
  { subst gs gs'. rewrite flat_split in *. rewrite forget_middle by done. rewrite !flat_app, shrunk_flat, with_freq_app, <-!app_assoc. done. }
  split_and!; [|done|rewrite Hfl; by apply forget_keys|].
  - apply groups_ok_split in Hok as (? & ? & ? & ? & _ & ?). by apply shrunk_ok.
  - intros k' ctx. subst gs gs'. rewrite !ctx_of_app, shrunk_ctx, ctx_of_cons.
    pose proof (λ x, not_ctx_of gs1 k x K1) as N1. pose proof (λ x, not_ctx_of gs2 k x K2) as N2.
    assert (∀ l, (l, k) ∉ ns1) as N3 by (intros l ?%elem_snd; done). assert (∀ l, (l, k) ∉ ns2) as N4 by (intros l ?%elem_snd; done).
    repeat first [setoid_rewrite elem_of_app | setoid_rewrite elem_of_cons]. destruct (decide (k' = k)) as [->|Hne]; naive_solver.
Qed.

Lemma lfu_del_rel c s k :
  lfu_rel c s → d_key_ok k →
  ∃ c', lfu_DelEntry c k = Some (c', bool_decide (k ∈ (lfu_uses s).*1)) ∧ lfu_rel c' (MkLfuRef (forget k (lfu_uses s))).
Proof.
  intros (gs & Hh & Hok & Hnd & Hfl & Hd & Hw) Hk. rewrite <-Hfl in *. unfold lfu_DelEntry. pose proof Hd as [Hwf Hv].
  destruct (d_extract_lawx _ (key_node_ctx_dict_ c) k Hwf Hk) as (d & -> & Hwf' & Hvd). cbn [mbind option_bind].
  assert (kv_view d = delete k (kv_view (key_node_ctx_dict_ c))) as Hkv by (unfold kv_view; by rewrite Hvd, fmap_delete).
  pose proof (total_uses_forget k _ (flat_used _ Hok)) as Hle. destruct (decide (k ∈ (flat gs).*1)) as [Hin|Hin].
  - rewrite bool_decide_eq_true_2 by done. destruct (key_ctx_of _ _ Hin) as (ctx & Hctx). apply ctx_of_place in Hctx as HP.
    destruct HP as (gs1 & fl & fv & ns1 & il & ns2 & gs2 & -> & ->). apply Hv in Hctx. rewrite kv_view_lookup in Hctx.
    destruct (d_view (key_node_ctx_dict_ c) !! k) as [kv|]; [|done]. injection Hctx as ->. cbn [fnode inode].
    destruct (erase_item (with_dict c d) _ _ _ _ _ _ _ _ Hh) as (c1 & its & -> & Hh1 & Hs1). cbn [mbind option_bind].
    destruct (erase_if_empty_spec c1 _ _ _ _ _ Hh1) as (c2 & -> & Hs2 & Hh2). rewrite shrunk_app in Hh2. cbn [mbind option_bind].
    destruct (removed gs1 fl fv its ns1 il k ns2 gs2 Hok Hnd) as (Hok' & Hfl' & Hnd' & Hr). exists c2. split; [done|].
    unfold same_dict in *. simpl in Hs1. eexists. split_and!; try done; [|simpl; lia]. rewrite Hs2, Hs1. by eapply dict_ok_remove.
  - rewrite bool_decide_eq_false_2 by done. pose proof Hin as Hn. apply (dict_ok_None _ _ _ Hd) in Hn. rewrite kv_view_lookup in Hn.
    destruct (d_view (key_node_ctx_dict_ c) !! k) as [kv|] eqn:Ekv; [done|]. eexists. split; [done|].
    rewrite forget_absent by done. exists gs. split_and!; try done. split; [done|]. simpl. intros k' ctx. rewrite Hkv, <-Hv.
    rewrite delete_id; [done|]. by rewrite kv_view_lookup, Ekv.
Qed.

(** The first key of the first group. *)
Lemma first_key c s :
  lfu_rel c s → lfu_uses s ≠ [] →
  ∃ fl fv il k ns gs, lfu_heap c ((fl, fv, (il, k) :: ns) :: gs) ∧ groups_ok ((fl, fv, (il, k) :: ns) :: gs)
    ∧ NoDup (flat ((fl, fv, (il, k) :: ns) :: gs)).*1 ∧ flat ((fl, fv, (il, k) :: ns) :: gs) = lfu_uses s
    ∧ dict_ok (key_node_ctx_dict_ c) ((fl, fv, (il, k) :: ns) :: gs).
Proof.
  intros (gs & Hh & Hok & Hnd & Hfl & Hd & _) Hne. destruct gs as [|[[fl fv] [|[il k] ns]] gs]; [by rewrite <-Hfl in Hne| |by eexists _, _, _, _, _, _].
  destruct Hok as [[[? _] _]%Forall_cons _]. done.
Qed.

Lemma victim_rel c s : lfu_rel c s → lfu_Victim c = Some (fst <$> head (lfu_uses s)).
Proof.
  intros HR. unfold lfu_Victim. rewrite (size_rel _ _ HR). destruct (lfu_uses s) as [|e u] eqn:E; [done|]. simpl length.
  destruct (Z.eqb_spec (Z.of_nat (S (length u))) 0); [lia|].
  destruct (first_key c s HR) as (fl & fv & il & k & ns & gs & Hh & _ & _ & Hfl & _); [by rewrite E|].
  pose proof Hh as (Hb & _). destruct (rep_Front _ _ _ _ _ Hb) as [_ ->]. cbn [mbind option_bind].
  destruct (rep_Front _ _ _ _ _ (heap_items c [] _ _ _ _ Hh)) as [_ ->]. rewrite E, flat_cons in Hfl. by injection Hfl as <- _.
Qed.

Lemma del_victim_rel c s : lfu_rel c s → ∃ c', lfu_DelVictim c = Some c' ∧ lfu_rel c' (MkLfuRef (tail (lfu_uses s))).
Proof.
  intros HR. unfold lfu_DelVictim. rewrite (size_rel _ _ HR). destruct (lfu_uses s) as [|e u] eqn:E.
  { exists c. split; [done|]. destruct HR as (gs & ? & ? & ? & Hfl & ? & ?). exists gs. rewrite E in *. by split_and!. }
  simpl length. destruct (Z.eqb_spec (Z.of_nat (S (length u))) 0); [lia|].
  destruct (first_key c s HR) as (fl & fv & il & k & ns & gs & Hh & Hok & Hnd & Hfl & Hd); [by rewrite E|].
  assert (total_uses u ≤ max_elems) as Hw.
  { destruct HR as (gs0 & _ & Hok0 & _ & Hfl0 & _ & Hw). rewrite E in Hw. pose proof (flat_used _ Hok0) as Hu. rewrite Hfl0, E in Hu.
    apply Forall_cons in Hu as [? _]. simpl in Hw. lia. }
  pose proof Hh as (Hb & _). destruct (rep_Front _ _ _ _ _ Hb) as [-> _]. rewrite (heap_get_val c [] _ _ _ _ Hh). cbn [mbind option_bind].
  pose proof (heap_items c [] _ _ _ _ Hh) as Hi. destruct (rep_Front _ _ _ _ _ Hi) as [_ ->]. cbn [mbind option_bind].
  destruct (PopFront_rep _ _ _ _ _ Hi) as (ih & its & He & Hr & _ & Hs).
  destruct (on_items_spec c [] fl fv _ gs PopFront ih its 1 ns _ Hh He Hr Hs) as (c1 & -> & Hh1 & Hs1 & _).
  { intros l Hl. eapply (group_disjoint [] fl fv); [apply Hh|done]. }
  { intros l Hl. eapply (group_disjoint [] fl fv); [apply Hh|]. by right. }
  cbn [mbind option_bind app] in *. rewrite (heap_get_val c1 [] _ _ _ _ Hh1). cbn [mbind option_bind].
  assert (∃ c2, (if blist_empty (items (MkFreq (freq fv) its)) then
                   '(fh, b, _) ← PopFront (freq_nodes c1) (freq_list_ c1); Some (with_freqs c1 fh b)
                 else Some c1) = Some c2 ∧ lfu_heap c2 (shrunk fl (MkFreq (freq fv) its) ns ++ gs) ∧ same_dict c1 c2) as (c2 & -> & Hh2 & Hs2).
  { cbn [items]. rewrite (rep_header _ _ _ Hr). destruct ns as [|x ns]; [|by exists c1]. destruct Hh1 as (Hb1 & Hi1 & Hn1).
    destruct (PopFront_rep _ _ _ _ _ Hb1) as (fh & b & -> & Hrb & _). eexists. split; [done|]. split; [|done].
    apply Forall_cons in Hi1 as [_ Hi1]. by split_and!. }
  cbn [mbind option_bind]. assert (key_node_ctx_dict_ c2 = key_node_ctx_dict_ c) as -> by (unfold same_dict in *; congruence).
  pose proof Hd as [Hwf Hv]. assert (ctx_of ((fl, fv, (il, k) :: ns) :: gs) k (MkCtx (Some fl) (Some il))) as Hctx by (apply ctx_of_cons; left; exists il; set_solver).
  apply Hv in Hctx. rewrite kv_view_lookup in Hctx. destruct (d_view (key_node_ctx_dict_ c) !! k) as [kv|] eqn:Ekv; [|done].
  destruct (d_view_key _ _ _ Hwf Ekv) as [_ Hkok]. destruct (dict_erase_spec (key_node_ctx_dict_ c) k Hwf Hkok) as (d & -> & Hwf' & Hvd). cbn [mbind option_bind].
  destruct (removed [] fl fv its [] il k ns gs Hok Hnd) as (Hok' & Hfl' & Hnd' & Hret). cbn [app] in *.
  eexists. split; [done|]. eexists. split_and!; [exact Hh2|done|done| |by eapply dict_ok_remove|done].
  rewrite Hfl'. simpl lfu_uses. rewrite Hfl, E in *. rewrite flat_cons in Hfl. cbn [with_freq map app] in Hfl. injection Hfl as <- _. by apply (forget_middle k (freq fv) [] u).
Qed.

(** The nodes of all groups are freed. *)
Lemma clear_freqs_spec gs : ∀ fuel (fh : gmap loc (BNode FreqValue)) ih p,
  chain fh p gs.*1 None → NoDup gs.*1.*1 → Forall (λ g, blist_rep ih (items g.1.2) g.2) gs → NoDup (item_locs gs) → (length gs ≤ fuel)%nat →
  is_Some (clear_freqs fuel fh ih (head_loc gs.*1)).
Proof.
  induction gs as [|[[fl fv] ns] gs IH]; intros fuel fh ih p Hc Hnd Hi Hni Hf; [by destruct fuel|].
  destruct fuel as [|fuel]; simpl in Hf; [lia|]. cbn [fmap list_fmap fst chain] in *. destruct Hc as [Hn Hc]. apply NoDup_cons in Hnd as [Hl Hnd].
  apply Forall_cons in Hi as [Hi0 Hi]. cbn [clear_freqs head_loc head fmap option_fmap option_map fst]. unfold get_next, get_val, DropNode.
  cbn [mbind option_bind]. rewrite Hn. cbn [mbind option_bind next node_val]. simpl in Hi0.
  pose proof Hi0 as (Hnd0 & Hh0 & _ & _ & Hc0). unfold Clear. rewrite Hh0.
  destruct (clear_loop_spec (size ih) ih _ ns Hc0 Hnd0 (rep_size _ _ _ Hi0)) as (ih' & -> & _ & Hs). cbn [mbind option_bind].
  replace (match gs.*1 with [] => None | (l', _) :: _ => Some l' end) with (head_loc gs.*1) by (by destruct gs as [|[[]]]).
  change (item_locs ((fl, fv, ns) :: gs)) with (ns.*1 ++ item_locs gs) in Hni. apply NoDup_app in Hni as (_ & Hd & Hni).
  apply (IH fuel _ ih' (Some fl)); [by apply chain_delete|done| |done|lia].
  rewrite Forall_forall in *. intros g Hg. eapply rep_same; [exact Hs| |by apply Hi]. intros l Hl1 Hl2. apply (Hd l Hl2), elem_item_locs. eauto.
Qed.

Lemma lfu_clear_rel c s : lfu_rel c s → ∃ c', lfu_Clear c = Some c' ∧ lfu_rel c' (MkLfuRef []).
Proof.
  intros (gs & (Hb & Hi & Hni) & Hok & Hnd & Hfl & Hd & Hw). unfold lfu_Clear.
  destruct (d_clear_law (key_node_ctx_dict_ c)) as (d & -> & Hwf & Hv); [apply Hd|]. cbn [mbind option_bind].
  pose proof Hb as (Hndb & Hhb & _ & _ & Hcb). rewrite Hhb.
  destruct (clear_freqs_spec gs (size (freq_nodes c)) _ _ _ Hcb Hndb Hi Hni) as [[fh ih] ->]; [rewrite <-(length_fmap fst); by eapply rep_size|].
  eexists. split; [done|]. exists []. split_and!; [by split_and!; [apply rep_init|constructor..]|by split; constructor|constructor|done| |by vm_compute].
  split; [done|]. simpl. unfold kv_view. rewrite Hv, fmap_empty. intros k ctx. rewrite lookup_empty. unfold ctx_of. set_solver.
Qed.

Lemma lfu_new_rel (n : Z) : lfu_rel (lfu_new n) (MkLfuRef []).
Proof.
  destruct (d_init_law (D := D) (gk := TO_GK)) as [Hwf Hv]. exists [].
  split_and!; [by split_and!; [apply rep_init|constructor..]|by split; constructor|constructor|done| |by vm_compute].
  split; [done|]. simpl. unfold kv_view. rewrite Hv, fmap_empty. intros k ctx. rewrite lookup_empty. unfold ctx_of. set_solver.
Qed.

#[export] Instance lfu_sim : CacheSim (LfuCache D K) (Lfu K) K d_key_ok (λ s, total_uses (lfu_uses s)) lfu_rel.
Proof.
  split.
  - intros n _. split; [apply lfu_new_rel|done].
  - intros c s. apply size_rel.
  - intros c s k s' r HR Hk Hsz [= <- <-]. destruct (update_rel c s k HR Hk Hsz) as (c' & Hc' & HR' & Ht). simpl. rewrite Ht. split; [by exists c'|done].
  - intros c s k s' b HR Hk [= <- <-]. split; [by apply lfu_del_rel|]. simpl. destruct HR as (gs & _ & Hok & _ & <- & _). by apply total_uses_forget, flat_used.
  - intros c s k s' r HR Hk [= <- <-]. split; [by apply lfu_search_rel|done].
  - intros c s r HR [= <-]. by apply victim_rel.
  - intros c s s' HR [= <-]. split; [by apply del_victim_rel|]. simpl. destruct HR as (gs & _ & Hok & _ & <- & _).
    pose proof (flat_used _ Hok) as Hu. destruct (flat gs) as [|e u]; [done|]. apply Forall_cons in Hu as [? _]. simpl. lia.
  - intros c s s' HR [= <-]. split; [by eapply lfu_clear_rel|]. simpl. destruct HR as (gs & _ & Hok & _ & <- & _).
    pose proof (total_uses_bound _ (flat_used _ Hok)). lia.
Qed.

Lemma lfu_run_total (s : Lfu K) os : is_Some (cache_run s os).
Proof.
  revert s. induction os as [|o os IH]; intros s; [by eexists|]. cbn [cache_run].
  assert (is_Some (cache_step s o)) as [[s' a] ->] by (destruct o; by eexists).
  cbn [mbind option_bind]. destruct (IH s') as [[s'' l] ->]. by eexists.
Qed.

(** C13: every history of at most 2^61 calls on a new LFU cache runs without a fault and
    without touching a freed node; the keys, flags and sizes it returns are those of the
    reference that keeps the keys in the order of how often they were used, and among
    those used equally often in the order in which they came to be so, and evicts the
    first. *)
Theorem lfu_cache_history n os :
  0 ≤ n < 2 ^ 64 → Forall (cache_op_ok (d_key_ok (D := D))) os → Z.of_nat (length os) ≤ max_elems →
  ∃ (c : LfuCache D K) (s : Lfu K) l,
    cache_run (cache_new n) os = Some (c, l) ∧ cache_run (cache_new n) os = Some (s, l) ∧ lfu_rel c s.
Proof.
  intros Hn Hok Hlen. destruct (lfu_run_total (cache_new n) os) as [[s l] Hs].
  destruct (cache_run_sim d_key_ok (λ s, total_uses (lfu_uses s)) lfu_rel (cache_new n) (cache_new n) s os l) as (c & Hc & HR);
    [by apply (sim_new (CacheSim := lfu_sim))|done|done|done|]. by exists c, s, l.
Qed.
End implements.

Module LfuExamples.
#[local] Instance HashZ : HashFunc Z := λ x, x.
Abbreviation ZDict := (HashState (list (KeyValue Z NodeCtx))).

Definition uses : list (cache_op Z) :=
  [CVictim; CUpdate 1; CUpdate 2; CUpdate 1; CUpdate 3; CVictim; CUpdate 2; CUpdate 2; CDel 3; CVictim; CDelVictim; CExists 2; CClear; CUpdate 5].

Lemma lfu_cache_history_witness :
  ∃ (c : LfuCache ZDict Z) (s : Lfu Z) l,
    cache_run (cache_new 2) uses = Some (c, l) ∧ cache_run (cache_new 2) uses = Some (s, l) ∧ lfu_rel c s.
Proof. apply (lfu_cache_history (D := ZDict) 2 uses); [lia|by repeat constructor|by vm_compute]. Defined.
End LfuExamples.
