(* ===== verification/Vset.v ===== *)
(** * Sorted sets

    [mmkv/db/vset.h], [vset.cc]: an AVL tree of (weight, pointer to member),
    ordered by weight with repeated weights, and a dictionary from members to
    weights.  The members live in the dictionary; a pointer to a member is
    modelled by the member.  Weights are any type with a comparator, standing for
    the doubles other than NaN under [DoubleComparator].

    Iterators are positions in the tree; two of them are equal when as many
    values come before them.  [None] is a null dereference or a failed
    [assert]. *)

From S2P Require Import Prelude Comparator AvlUtil AvlTree Dict HashTableBase HashTable Dictionary.

Section iterators.
Context {V : Type}.
Implicit Types (it : option (pos V)).

(** [operator++], [operator--]: null stays null. *)
Definition iter_next it : option (pos V) := x ← it; _GetNextNode x.
Definition iter_prev it : option (pos V) := x ← it; _GetPrevNode x.

(** [operator==]: the addresses of the nodes. *)
Definition iter_index it : option nat := match it with Some x => Some (length (pos_before x)) | None => None end.
Definition iter_eq it1 it2 : bool := bool_decide (iter_index it1 = iter_index it2).

Definition iter_val it : option V := x ← it; pos_val x.

(** [while (n--) ++iter] and [while (n--) --iter], for [n >= 0]. *)
Definition iter_advance (n : nat) it : option (pos V) := Nat.iter n iter_next it.
Definition iter_retreat (n : nat) it : option (pos V) := Nat.iter n iter_prev it.
End iterators.

(** [Tree], [Dictionary<String, double>]. *)
Record Vset (W : Type) := MkVset {
  tree_ : AvlTreeBase Z (KeyValue W string);
  dict_ : Dictionary string W
}.
Arguments MkVset {W}.
Arguments tree_ {W}.
Arguments dict_ {W}.

Section vset.
Context {W : Type} `{Comparator W} `{!HashFunc string}.
Implicit Types (vs : Vset W) (w : W) (member : string).
Abbreviation WM := (KeyValue W string).

Definition vset_init : Vset W := MkVset avl_empty (d_init (T := KeyValue string W)).

Definition tree_size vs : Z := count_ (tree_ vs).
Definition tree_begin vs : option (pos WM) := _GetFirstNode (root_ (tree_ vs), []).
Definition tree_before_end vs : option (pos WM) := _GetLastNode (root_ (tree_ vs), []).

(** A bound on the steps of a walk over the tree. *)
Definition walk_fuel vs : nat := S (length (inorder (root_ (tree_ vs)))).

Definition Insert vs w member : option (Vset W * bool) :=
  '(d, kv) ← InsertKv (dict_ vs) member w;
  match kv with
  | None => Some (MkVset (tree_ vs) d, false)
  | Some kv => t ← InsertEq (tree_ vs) (MkKeyValue w (key kv)); Some (MkVset t d, true)
  end.

(** The constructor from a list of weighted members. *)
Fixpoint Vset_of vs (wms : list WM) : option (Vset W) :=
  match wms with
  | [] => Some vs
  | wm :: wms' => '(vs, _) ← Insert vs (key wm) (value wm); Vset_of vs wms'
  end.

Definition Erase vs member : option (Vset W * bool) :=
  '(d, node) ← d_extract (T := KeyValue string W) (dict_ vs) member;
  match node with
  | None => Some (MkVset (tree_ vs) d, false)
  | Some kv =>
      '(t, _) ← ErasePred (tree_ vs) (value kv) (λ wm : WM, bool_decide (value wm = key kv));
      Some (MkVset t d, true)
  end.

Definition GetWeight vs member : option (Vset W * option W) :=
  '(d, kv) ← d_find (T := KeyValue string W) (dict_ vs) member;
  Some (MkVset (tree_ vs) d, match kv with Some e => Some (value e) | None => None end).

(** The loops of [GetOrder] and [GetROrder]: [step] is [++first] or [--first]. *)
Fixpoint order_loop (step : option (pos WM) → option (pos WM)) (fuel : nat) w member
    (first : option (pos WM)) (order : Z) : option Z :=
  match fuel with
  | O => None
  | S fuel' =>
      wm ← iter_val first;
      if (TO_COMPARE (key wm) w =? 0) && bool_decide (value wm = member) then Some order
      else order_loop step fuel' w member (step first) (order ⊞ 1)
  end.

Definition GetOrder vs member : option (Vset W * option Z) :=
  '(vs, w) ← GetWeight vs member;
  match w with
  | None => Some (vs, None)
  | Some w => order ← order_loop iter_next (walk_fuel vs) w member (tree_begin vs) 0; Some (vs, Some order)
  end.

Definition GetROrder vs member : option (Vset W * option Z) :=
  '(vs, w) ← GetWeight vs member;
  match w with
  | None => Some (vs, None)
  | Some w => order ← order_loop iter_prev (walk_fuel vs) w member (tree_before_end vs) 0; Some (vs, Some order)
  end.

Definition GetSize vs : option Z :=
  if tree_size vs =? d_size (T := KeyValue string W) (dict_ vs) then Some (tree_size vs) else None.

(** [std::distance(first, last)]: increments until [last] is reached. *)
Fixpoint distance (fuel : nat) (first last : option (pos WM)) : option Z :=
  if iter_eq first last then Some 0 else
  match fuel with
  | O => None
  | S fuel' => n ← distance fuel' (iter_next first) last; Some (n + 1)
  end.

Definition GetSizeByWeight vs left right : option Z :=
  let first := LowerBound (tree_ vs) left in
  match first with
  | None => Some 0
  | Some _ => distance (walk_fuel vs) first (UpperBound (tree_ vs) right)
  end.

(** The loop of [GetRangeByWeight]: the test is at its end. *)
Fixpoint range_loop (fuel : nat) (left_bound right_bound : option (pos WM)) : option (list WM) :=
  match fuel with
  | O => None
  | S fuel' =>
      wm ← iter_val left_bound;
      let left_bound := iter_next left_bound in
      if iter_eq left_bound right_bound then Some [wm]
      else rest ← range_loop fuel' left_bound right_bound; Some (wm :: rest)
  end.

Definition GetRangeByWeight vs left right : option (list WM) :=
  let left_bound := LowerBound (tree_ vs) left in
  match left_bound with
  | None => Some []
  | Some _ => range_loop (walk_fuel vs) left_bound (UpperBound (tree_ vs) right)
  end.

(** The loop of [GetRRangeByWeight]. *)
Fixpoint rrange_loop (fuel : nat) (left_bound right_bound : option (pos WM)) : option (list WM) :=
  match fuel with
  | O => None
  | S fuel' =>
      let right_bound := iter_prev right_bound in
      wm ← iter_val right_bound;
      if iter_eq left_bound right_bound then Some [wm]
      else rest ← rrange_loop fuel' left_bound right_bound; Some (wm :: rest)
  end.

Definition GetRRangeByWeight vs left right : option (list WM) :=
  rrange_loop (walk_fuel vs) (LowerBound (tree_ vs) left) (UpperBound (tree_ vs) right).

Definition GetAll vs : option (list WM) := DoInAll (tree_ vs).

(** [N2P(x)], assigned to an [int64_t]. *)
Definition N2P vs (x : Z) : Z := if x <? 0 then i64 (tree_size vs ⊟ x) else x.

(** [VSET_MIN((size_t)right, tree_.size())], assigned to an [int64_t]. *)
Definition clip vs (right : Z) : Z := i64 (if u64 right <? tree_size vs then u64 right else tree_size vs).

(** [for (; iter != tree_.end() && count--; ++iter)]. *)
Fixpoint take_loop (fuel : nat) (iter : option (pos WM)) (count : Z) : option (list WM) :=
  match iter with
  | None => Some []
  | Some x =>
      if count =? 0 then Some [] else
      match fuel with
      | O => None
      | S fuel' => wm ← pos_val x; rest ← take_loop fuel' (iter_next iter) (count - 1); Some (wm :: rest)
      end
  end.

(** A negative [left] after [N2P] would make the first loop run 2^64 times: it is
    left out ([None]). *)
Definition GetRange vs (left right : Z) : option (list WM) :=
  let left := N2P vs left in
  let right := N2P vs right in
  let right := clip vs right in
  let count := right - left + 1 in
  if left <? 0 then None
  else take_loop (walk_fuel vs) (iter_advance (Z.to_nat left) (tree_begin vs)) count.

(** The loop of [GetRRange]: [for (; count--;)], left at the first node. *)
Fixpoint rtake_loop (fuel : nat) (first iter : option (pos WM)) (count : Z) : option (list WM) :=
  if count =? 0 then Some [] else
  match fuel with
  | O => None
  | S fuel' =>
      wm ← iter_val iter;
      if iter_eq iter first then Some [wm]
      else rest ← rtake_loop fuel' first (iter_prev iter) (count - 1); Some (wm :: rest)
  end.

Definition GetRRange vs (left right : Z) : option (list WM) :=
  let left := N2P vs left in
  let right := N2P vs right in
  let right := clip vs right in
  let count := right - left + 1 in
  if left <? 0 then None
  else rtake_loop (walk_fuel vs) (tree_begin vs) (iter_retreat (Z.to_nat left) (tree_before_end vs)) count.

(** The node with [i] values before it, in the current tree. *)
Definition node_at (t : AvlTreeBase Z WM) (i : nat) : option (pos WM) :=
  iter_advance i (_GetFirstNode (root_ t, [])).

(** [while (count--) ret += tree_.Erase(iter++)]: the node after the erased one
    takes its index; and with [iter--].  [iter] is the index of a node, or
    [None] for null. *)
Fixpoint erase_forward (count : nat) (t : AvlTreeBase Z WM) (i : nat) (ret : Z) : option (AvlTreeBase Z WM * Z) :=
  match count with
  | O => Some (t, ret)
  | S count' => '(t, ok) ← EraseNode t (node_at t i); erase_forward count' t i (if ok : bool then ret ⊞ 1 else ret)
  end.

Fixpoint erase_backward (count : nat) (t : AvlTreeBase Z WM) (i : option nat) (ret : Z) : option (AvlTreeBase Z WM * Z) :=
  match count with
  | O => Some (t, ret)
  | S count' =>
      '(t, ok) ← EraseNode t (i ← i; node_at t i);
      erase_backward count' t (match i with Some (S i') => Some i' | _ => None end) (if ok : bool then ret ⊞ 1 else ret)
  end.

(** A negative [left] or reused [right] makes a loop run 2^64 times: left out
    ([None]). *)
Definition EraseRange vs (left right : Z) : option (Vset W * Z) :=
  let left := N2P vs left in
  let right := N2P vs right in
  let right := clip vs right in
  if right <=? left then Some (vs, 0) else
  let count := right - left + 1 in
  let right := i64 (tree_size vs ⊟ 1 ⊟ right) in
  if left <? 0 then None
  else if left <? right then
    '(t, ret) ← erase_forward (Z.to_nat count) (tree_ vs) (Z.to_nat left) 0;
    Some (MkVset t (dict_ vs), ret)
  else if right <? 0 then None
  else
    '(t, ret) ← erase_backward (Z.to_nat count) (tree_ vs)
                  (iter_index (iter_retreat (Z.to_nat right) (tree_before_end vs))) 0;
    Some (MkVset t (dict_ vs), ret).

(** [EraseRangeByWeight]: [left_bound] as the index of its node.  The right bound
    is the index of a node ([Some None]: null), moves down when a node before it
    is erased, and dangles ([None]) once its own node has been erased. *)
Definition bound_after_erase (i : nat) (right_bound : option (option nat)) : option (option nat) :=
  match right_bound with
  | Some (Some r) => if decide (r = i) then None else Some (Some (if decide (i < r)%nat then pred r else r))
  | _ => right_bound
  end.

Fixpoint erase_weight_loop (fuel : nat) (t : AvlTreeBase Z WM) (i : nat) (right_bound : option (option nat)) (ret : Z)
    : option (AvlTreeBase Z WM * Z) :=
  match fuel with
  | O => None
  | S fuel' =>
      let right_bound := match node_at t i with Some _ => bound_after_erase i right_bound | None => right_bound end in
      '(t, _) ← EraseNode t (node_at t i);
      if bool_decide (Some (iter_index (node_at t i)) = right_bound) then Some (t, ret ⊞ 1)
      else erase_weight_loop fuel' t i right_bound (ret ⊞ 1)
  end.

Definition EraseRangeByWeight vs left right : option (Vset W * Z) :=
  match LowerBound (tree_ vs) left with
  | None => Some (vs, 0)
  | Some x =>
      '(t, ret) ← erase_weight_loop (walk_fuel vs) (tree_ vs) (length (pos_before x))
                    (Some (iter_index (UpperBound (tree_ vs) right))) 0;
      Some (MkVset t (dict_ vs), ret)
  end.
End vset.

(** ** Iterators as indices *)

Section indices.
Context {V : Type}.
Implicit Types (it : option (pos V)) (t : tree V) (i : nat).

(** [it] points to the [i]-th value of [t] in order; null is one past the last. *)
Definition iter_at t it i : Prop :=
  match it with
  | Some x => pos_root x = t ∧ length (pos_before x) = i ∧ (∃ v, pos_val x = Some v)
  | None => i = length (inorder t)
  end.

Lemma iter_at_some t x v : pos_val x = Some v → pos_root x = t →
  inorder t = pos_before x ++ v :: pos_after x ∧ inorder t !! length (pos_before x) = Some v
  ∧ (length (pos_before x) < length (inorder t))%nat.
Proof.
  intros Hv <-. rewrite (pos_inorder x v Hv). split; [done|]. split; [by rewrite list_lookup_middle|].
  rewrite length_app. simpl. lia.
Qed.

Lemma iter_at_val t it i : iter_at t it i → iter_val it = inorder t !! i.
Proof.
  destruct it as [x|]; simpl.
  - intros (Hr & <- & v & Hv). destruct (iter_at_some t x v Hv Hr) as (_ & -> & _). done.
  - intros ->. symmetry. by apply lookup_ge_None_2.
Qed.

Lemma iter_at_le t it i : iter_at t it i → (i ≤ length (inorder t))%nat.
Proof.
  destruct it as [x|]; simpl; [|lia]. intros (Hr & <- & v & Hv).
  destruct (iter_at_some t x v Hv Hr) as (_ & _ & ?). lia.
Qed.

Lemma iter_at_index t it i : iter_at t it i → iter_index it = if decide (i < length (inorder t))%nat then Some i else None.
Proof.
  destruct it as [x|]; simpl; [|intros ->; by rewrite decide_False by lia].
  intros (Hr & <- & v & Hv). destruct (iter_at_some t x v Hv Hr) as (_ & _ & ?). by rewrite decide_True by lia.
Qed.

Lemma iter_at_eq t it1 i1 it2 i2 : iter_at t it1 i1 → iter_at t it2 i2 → iter_eq it1 it2 = bool_decide (i1 = i2).
Proof.
  intros H1 H2. unfold iter_eq. rewrite (iter_at_index _ _ _ H1), (iter_at_index _ _ _ H2).
  apply iter_at_le in H1, H2. apply bool_decide_ext. repeat case_decide; naive_solver lia.
Qed.

Lemma iter_at_next t it i : iter_at t it i → (i < length (inorder t))%nat → iter_at t (iter_next it) (S i).
Proof.
  destruct it as [x|]; simpl; [|lia]. intros (Hr & <- & v & Hv) Hi.
  destruct (iter_at_some t x v Hv Hr) as (Hin & _). pose proof (_GetNextNode_spec x v Hv) as Hn.
  destruct (_GetNextNode x) as [y|]; simpl.
  - destruct Hn as (w & Hw & Hry & Hb & _). rewrite Hry, Hb, length_app. simpl. split_ands; [done|lia|by exists w].
  - rewrite Hin, length_app, Hn. simpl. lia.
Qed.

Lemma iter_at_prev t it i : iter_at t it (S i) → (S i < length (inorder t))%nat → iter_at t (iter_prev it) i.
Proof.
  destruct it as [x|]; simpl; [|lia]. intros (Hr & Hb & v & Hv) Hi.
  pose proof (_GetPrevNode_spec x v Hv) as Hn. destruct (_GetPrevNode x) as [y|]; simpl.
  - destruct Hn as (w & Hw & Hry & _ & Hbx). rewrite Hbx, length_app in Hb. simpl in Hb.
    split_ands; [congruence|lia|by exists w].
  - by rewrite Hn in Hb.
Qed.

Lemma begin_at t : iter_at t (_GetFirstNode (t, [])) 0.
Proof.
  pose proof (_GetFirstNode_spec t) as Hf. destruct (_GetFirstNode (t, [])) as [y|]; simpl.
  - destruct Hf as (w & Hw & Hr & Hb). rewrite Hb. eauto.
  - by rewrite Hf.
Qed.
End indices.

(** ** The invariant *)

Section facts.
Context {W : Type} `{ComparatorOk W} `{!HashFunc string}.
Implicit Types (vs : Vset W) (w : W) (member : string) (l : list (KeyValue W string)).
Abbreviation WM := (KeyValue W string).

(** The values of the tree, and the dictionary that goes with them. *)
Definition members vs : list WM := inorder (root_ (tree_ vs)).
Definition weight_map l : gmap string W := list_to_map ((λ wm, (value wm, key wm)) <$> l).

Definition vset_wf vs : Prop :=
  bst_eq (K := W) (root_ (tree_ vs)) ∧ avl_root (root_ (tree_ vs))
  ∧ tree_size vs = u64 (Z.of_nat (length (members vs)))
  ∧ d_wf (dict_ vs) ∧ NoDup (value <$> members vs) ∧ kv_view (dict_ vs) = weight_map (members vs).

Lemma weight_map_keys l : ((λ wm : WM, (value wm, key wm)) <$> l).*1 = value <$> l.
Proof. by rewrite <-list_fmap_compose. Qed.

Lemma weight_map_None l m : m ∉ value <$> l → weight_map l !! m = None.
Proof. intros Hm. apply not_elem_of_list_to_map_1. by rewrite weight_map_keys. Qed.

Lemma weight_map_Some l wm : NoDup (value <$> l) → wm ∈ l → weight_map l !! value wm = Some (key wm).
Proof. intros Hnd Hm. apply elem_of_list_to_map_1; [by rewrite weight_map_keys|]. apply list_elem_of_fmap. eauto. Qed.

Lemma weight_map_inv l m w : weight_map l !! m = Some w → MkKeyValue w m ∈ l.
Proof. intros Hl%elem_of_list_to_map_2. apply list_elem_of_fmap in Hl as ([w' m'] & [= -> ->] & Hin). done. Qed.

Lemma weight_map_perm l l' : NoDup (value <$> l) → l ≡ₚ l' → weight_map l = weight_map l'.
Proof. intros Hnd Hp. apply list_to_map_proper; [by rewrite weight_map_keys|by rewrite Hp]. Qed.

Lemma weight_map_size l : NoDup (value <$> l) → size (weight_map l) = length l.
Proof.
  induction l as [|[w m] l IH]; [done|]. cbn [fmap list_fmap value]. intros [Hm Hnd]%NoDup_cons.
  change (weight_map (MkKeyValue w m :: l)) with (<[m := w]> (weight_map l)).
  rewrite map_size_insert_None by (by apply weight_map_None). by rewrite IH.
Qed.

Lemma vset_init_wf : vset_wf vset_init ∧ members vset_init = [].
Proof.
  destruct (init_spec (D := Dictionary string W) (K := string) (V := W)) as [Hw Hv].
  split; [|done]. unfold vset_wf. split_ands; [constructor|by left|done|done|by apply NoDup_nil|done].
Qed.

(** [Insert] refuses a member that is there, whatever its weight. *)
Lemma Insert_spec vs w m :
  vset_wf vs → Z.of_nat (length (members vs)) < max_elems →
  ∃ vs', vset_wf vs' ∧
    if decide (m ∈ value <$> members vs)
    then Insert vs w m = Some (vs', false) ∧ members vs' = members vs
    else Insert vs w m = Some (vs', true) ∧ members vs' ≡ₚ MkKeyValue w m :: members vs.
Proof.
  intros (Hb & Ha & Hc & Hw & Hnd & Hv) Hsz. unfold Insert.
  destruct (InsertKv_spec (dict_ vs) m w Hw) as (d & Hw' & Hi); [rewrite Hv, weight_map_size by done; simpl; lia|done|].
  rewrite Hv in Hi. case_decide as Hin.
  - apply list_elem_of_fmap in Hin as (wm & -> & Hin). rewrite (weight_map_Some _ wm) in Hi by done.
    destruct Hi as [-> Hv']. eexists. split; [|done]. unfold vset_wf. by split_ands.
  - rewrite weight_map_None in Hi by done. destruct Hi as [-> Hv']. cbn [mbind option_bind key].
    destruct (InsertEq_avl (tree_ vs) (MkKeyValue w m) Ha) as (t & E & Ha').
    destruct (PushEq_spec (tree_ vs) (MkDetached (MkKeyValue w m) 1) Hb (avl_root_heights_ok _ Ha)) as (t2 & E2 & _ & Hc2 & Hres); [done|].
    unfold InsertEq in E |- *. rewrite E in E2. injection E2 as <-. rewrite E. cbn [mbind option_bind].
    eexists. split; [|split; [done|]].
    2: { destruct Hres as (l1 & l2 & He & He' & _). unfold members. cbn [tree_]. rewrite He, He'. by rewrite Permutation_middle. }
    assert (inorder (root_ t) ≡ₚ MkKeyValue w m :: members vs) as Hp.
    { destruct Hres as (l1 & l2 & He & He' & _). unfold members. rewrite He, He'. by rewrite Permutation_middle. }
    assert (NoDup (value <$> inorder (root_ t))) as Hnd'.
    { rewrite Hp. cbn [fmap list_fmap value]. by apply NoDup_cons. }
    unfold vset_wf, members, tree_size in *. cbn [tree_ dict_]. split_ands; [by eapply insert_eq_result_bst|done| |done|done|].
    + rewrite Hc2, Hc, Hp. cbn [_IncreaseCount Count_AvlTree length]. rewrite u64_succ_mod. f_equal. lia.
    + rewrite Hv'. by rewrite (weight_map_perm _ _ Hnd' Hp).
Qed.

Lemma GetWeight_spec vs m :
  vset_wf vs →
  ∃ vs', GetWeight vs m = Some (vs', weight_map (members vs) !! m) ∧ vset_wf vs' ∧ tree_ vs' = tree_ vs.
Proof.
  intros (Hb & Ha & Hc & Hw & Hnd & Hv). unfold GetWeight.
  destruct (find_spec (dict_ vs) m Hw I) as (d & -> & Hw' & Hv'). cbn [mbind option_bind].
  exists (MkVset (tree_ vs) d). split; [|split; [|done]].
  - rewrite Hv. by destruct (weight_map (members vs) !! m).
  - unfold vset_wf, members in *. cbn [tree_ dict_]. split_ands; try done. by rewrite Hv'.
Qed.

Lemma GetSize_spec vs : vset_wf vs → GetSize vs = Some (u64 (Z.of_nat (length (members vs)))).
Proof.
  intros (Hb & Ha & Hc & Hw & Hnd & Hv). unfold GetSize. rewrite Hc, d_size_law by done.
  rewrite <-kv_view_size, Hv, weight_map_size by done. by rewrite Z.eqb_refl.
Qed.

(** *** Walks *)

Lemma order_loop_spec vs w m i j it fuel order wm :
  iter_at (root_ (tree_ vs)) it i → members vs !! j = Some wm → TO_COMPARE (key wm) w = 0 → value wm = m →
  (∀ n wm', (i ≤ n < j)%nat → members vs !! n = Some wm' → value wm' ≠ m) →
  (i ≤ j)%nat → (j - i < fuel)%nat → 0 ≤ order → order + Z.of_nat (j - i) < 2 ^ 64 →
  order_loop iter_next fuel w m it order = Some (order + Z.of_nat (j - i)).
Proof.
  intros Hat Hj Hw Hm. revert i it order Hat. induction fuel as [|fuel IH]; intros i it order Hat Hlt Hij Hf Ho Hb; [lia|].
  cbn [order_loop]. rewrite (iter_at_val _ _ _ Hat). fold (members vs).
  pose proof (lookup_lt_Some _ _ _ Hj) as Hjl.
  destruct (decide (i = j)) as [->|Hne].
  - rewrite Hj. cbn [mbind option_bind]. rewrite Hw, bool_decide_true by done. simpl. f_equal. lia.
  - destruct (lookup_lt_is_Some_2 (members vs) i) as [wm' Hi]; [lia|]. rewrite Hi. cbn [mbind option_bind].
    rewrite (bool_decide_false (value wm' = m)) by (apply (Hlt i); [lia|done]). rewrite andb_false_r.
    rewrite (IH (S i)); [|by apply iter_at_next; [done|unfold members in *; lia]| |lia|lia| |].
    + rewrite u64_small by lia. f_equal. lia.
    + intros n wm'' Hn. apply Hlt. lia.
    + rewrite u64_small by lia. lia.
    + rewrite u64_small by lia. lia.
Qed.

Lemma distance_spec vs i j it1 it2 fuel :
  iter_at (root_ (tree_ vs)) it1 i → iter_at (root_ (tree_ vs)) it2 j → (i ≤ j)%nat → (j - i < fuel)%nat →
  distance fuel it1 it2 = Some (Z.of_nat (j - i)).
Proof.
  intros H1 H2. revert i it1 H1. induction fuel as [|fuel IH]; intros i it1 H1 Hij Hf; [lia|].
  cbn [distance]. rewrite (iter_at_eq _ _ _ _ _ H1 H2). case_bool_decide as Hd; [subst; do 2 f_equal; lia|].
  pose proof (iter_at_le _ _ _ H2). rewrite (IH (S i)); [|apply iter_at_next; [done|lia]|lia|lia].
  cbn [mbind option_bind]. f_equal. lia.
Qed.

Lemma range_loop_spec vs i j it1 it2 fuel :
  iter_at (root_ (tree_ vs)) it1 i → iter_at (root_ (tree_ vs)) it2 j → (i < j)%nat → (j - i ≤ fuel)%nat →
  range_loop fuel it1 it2 = Some (take (j - i) (drop i (members vs))).
Proof.
  intros H1 H2. revert i it1 H1. induction fuel as [|fuel IH]; intros i it1 H1 Hij Hf; [lia|].
  pose proof (iter_at_le _ _ _ H2) as Hj. fold (members vs) in Hj.
  cbn [range_loop]. rewrite (iter_at_val _ _ _ H1). fold (members vs).
  destruct (lookup_lt_is_Some_2 (members vs) i) as [wm Hi]; [lia|]. rewrite Hi. cbn [mbind option_bind].
  assert (iter_at (root_ (tree_ vs)) (iter_next it1) (S i)) as H1' by (apply iter_at_next; [done|unfold members in *; lia]).
  rewrite (iter_at_eq _ _ _ _ _ H1' H2), (drop_S _ _ _ Hi). replace (j - i)%nat with (S (j - S i)) by lia. cbn [take].
  case_bool_decide as Hd; [subst; by rewrite Nat.sub_diag|]. rewrite (IH (S i)) by (done || lia). done.
Qed.

(** Past its right bound the loop runs off the end of the tree. *)
Lemma range_loop_past vs i j it1 it2 fuel :
  iter_at (root_ (tree_ vs)) it1 i → iter_at (root_ (tree_ vs)) it2 j → (j ≤ i)%nat → (j < length (members vs))%nat →
  range_loop fuel it1 it2 = None.
Proof.
  intros H1 H2. revert i it1 H1. induction fuel as [|fuel IH]; intros i it1 H1 Hij Hj; [done|].
  cbn [range_loop]. rewrite (iter_at_val _ _ _ H1). fold (members vs).
  destruct (members vs !! i) as [wm|] eqn:Hi; [|done]. cbn [mbind option_bind].
  assert (iter_at (root_ (tree_ vs)) (iter_next it1) (S i)) as H1'.
  { apply iter_at_next; [done|]. by apply lookup_lt_Some in Hi. }
  rewrite (iter_at_eq _ _ _ _ _ H1' H2), bool_decide_false by lia. by rewrite (IH (S i)) by (done || lia).
Qed.

(** *** Weight bounds *)

Lemma members_sorted vs : vset_wf vs → StronglySorted (key_le (K := W)) (members vs).
Proof. intros (Hb & _). exact Hb. Qed.

Lemma sorted_after l1 l2 (P : WM → bool) :
  StronglySorted (key_le (K := W)) (l1 ++ l2) → (∀ v w : WM, key_le (K := W) v w → P v = true → P w = true) →
  (∀ v, head l2 = Some v → P v = true) → Forall (λ v, P v = true) l2.
Proof.
  intros Hs Hmono Hi. destruct l2 as [|v l2]; [constructor|].
  apply StronglySorted_app in Hs as (_ & _ & Hs). apply StronglySorted_cons in Hs as [Hs _].
  constructor; [by apply Hi|]. eapply Forall_impl; [done|]. intros w Hw. eapply Hmono; [done|by apply Hi].
Qed.

(** Weights from [left] on, and above [right]. *)
Definition from_weight (left : W) (wm : WM) : bool := 0 <=? TO_COMPARE (key wm) left.
Definition above_weight (right : W) (wm : WM) : bool := 0 <? TO_COMPARE (key wm) right.

Lemma from_weight_mono left (v w : WM) : key_le (K := W) v w → from_weight left v = true → from_weight left w = true.
Proof.
  unfold from_weight, key_le. rewrite !Z.leb_le. intros Hvw Hv. apply cmp_flip_le. apply cmp_flip_le in Hv. by eapply cmp_trans.
Qed.

Lemma above_weight_mono right (v w : WM) : key_le (K := W) v w → above_weight right v = true → above_weight right w = true.
Proof.
  unfold above_weight, key_le. rewrite !Z.ltb_lt. intros Hvw Hv. apply cmp_flip_lt. apply cmp_flip_lt in Hv.
  by eapply cmp_lt_le_trans.
Qed.

(** A bound of the tree splits its values. *)
Lemma bound_at vs (go_left : Z → bool) k res :
  vset_wf vs → bound_result go_left k (root_ (tree_ vs)) res →
  (∀ v w : WM, key_le (K := W) v w → go_left (vcmp v k) = true → go_left (vcmp w k) = true) →
  ∃ l1 l2, members vs = l1 ++ l2 ∧ iter_at (root_ (tree_ vs)) res (length l1)
    ∧ Forall (λ v, go_left (vcmp v k) = false) l1 ∧ Forall (λ v, go_left (vcmp v k) = true) l2.
Proof.
  intros Hwf Hres Hmono. pose proof (members_sorted vs Hwf) as Hs. destruct res as [x|]; simpl in Hres.
  - destruct Hres as (Hr & v & Hv & Hgo & Hbef). destruct (iter_at_some _ x v Hv Hr) as (Hin & _).
    exists (pos_before x), (v :: pos_after x). split_ands; [done|by simpl; eauto|done|].
    unfold members in Hs. rewrite Hin in Hs. apply (sorted_after (pos_before x)); [done|done|]. by intros ? [= <-].
  - exists (members vs), []. split_ands; [by rewrite app_nil_r|done|done|constructor].
Qed.

(** The members with a weight in a range. *)
Definition in_range left right (wm : WM) : Prop := from_weight left wm = true ∧ above_weight right wm = false.
#[export] Instance in_range_dec left right wm : Decision (in_range left right wm) := _.

Definition range_of left right l : list WM := filter (in_range left right) l.

(** The two bounds of a weight range. *)
Lemma range_bounds vs left right :
  vset_wf vs →
  ∃ i j, iter_at (root_ (tree_ vs)) (LowerBound (tree_ vs) left) i
    ∧ iter_at (root_ (tree_ vs)) (UpperBound (tree_ vs) right) j
    ∧ range_of left right (members vs) = take (j - i) (drop i (members vs))
    ∧ drop i (members vs) = filter (λ wm, from_weight left wm = true) (members vs).
Proof.
  intros Hwf. pose proof Hwf as (Hb & _).
  destruct (bound_at vs _ _ _ Hwf (LowerBound_bound (tree_ vs) left Hb)) as (a1 & a2 & Ha & Hi & Ha1 & Ha2).
  { intros v w. apply from_weight_mono. }
  destruct (bound_at vs _ _ _ Hwf (UpperBound_bound (tree_ vs) right Hb)) as (b1 & b2 & Hb' & Hj & Hb1 & Hb2).
  { intros v w. apply above_weight_mono. }
  exists (length a1), (length b1). split_ands; [done|done| |].
  - rewrite Forall_forall in Ha1, Ha2, Hb1, Hb2. unfold range_of. rewrite Ha in Hb' |- *. rewrite drop_app_length, filter_app.
    rewrite (filter_none _ a1); [|intros x Hx [Hx1 _]; by rewrite (Ha1 x Hx : from_weight left x = false) in Hx1].
    cbn [app]. destruct (decide (length a1 ≤ length b1)%nat) as [Hle|Hle].
    + assert (∃ m, b1 = a1 ++ m ∧ a2 = m ++ b2) as (m & -> & ->).
      { apply app_eq_inv in Hb' as [(m & -> & ->)|(m & -> & ->)]; [|by eauto]. rewrite length_app in Hle.
        destruct m; [|simpl in *; lia]. exists []. by rewrite !app_nil_r. }
      rewrite length_app. replace (length a1 + length m - length a1)%nat with (length m) by lia.
      rewrite take_app_length, filter_app, (filter_all _ m), (filter_none _ b2); [by rewrite app_nil_r|..].
      * intros x Hx [_ Hx2]. by rewrite (Hb2 x Hx : above_weight right x = true) in Hx2.
      * intros x Hx. split; [apply Ha2|apply Hb1]; set_solver.
    + replace (length b1 - length a1)%nat with O by lia. cbn [take]. apply filter_none. intros x Hx [_ Hx2].
      assert (x ∈ b2) as Hx'; [|by rewrite (Hb2 x Hx' : above_weight right x = true) in Hx2].
      apply app_eq_inv in Hb' as [(m & -> & ->)|(m & -> & ->)]; [set_solver|rewrite length_app in Hle; lia].
  - rewrite Forall_forall in Ha1, Ha2. rewrite Ha, drop_app_length, filter_app, (filter_none _ a1), (filter_all _ a2); [done|..].
    + done.
    + intros x Hx. by rewrite (Ha1 x Hx : from_weight left x = false).
Qed.
End facts.

(** ** Properties *)

Section properties.
Context {W : Type} `{ComparatorOk W} `{!HashFunc string}.
Implicit Types (vs : Vset W) (w : W) (m : string).
Abbreviation WM := (KeyValue W string).

(** The first entry for every member. *)
Fixpoint first_entries (seen : list string) (wms : list WM) : list WM :=
  match wms with
  | [] => []
  | wm :: wms' =>
      if decide (value wm ∈ seen) then first_entries seen wms'
      else wm :: first_entries (value wm :: seen) wms'
  end.

Lemma Vset_of_spec vs wms seen :
  vset_wf vs → (∀ m, m ∈ seen ↔ m ∈ value <$> members vs) →
  Z.of_nat (length (members vs)) + Z.of_nat (length wms) ≤ max_elems →
  ∃ vs', Vset_of vs wms = Some vs' ∧ vset_wf vs' ∧ members vs' ≡ₚ members vs ++ first_entries seen wms
       ∧ (length (members vs') ≤ length (members vs) + length wms)%nat.
Proof.
  revert vs seen. induction wms as [|wm wms IH]; intros vs seen Hwf Hseen Hlen.
  { exists vs. cbn. rewrite app_nil_r. split_ands; [done..|lia]. }
  cbn [length] in Hlen. cbn [Vset_of first_entries].
  destruct (Insert_spec vs (key wm) (value wm) Hwf) as (vs1 & Hwf1 & Hi); [lia|].
  case_decide as Hin; case_decide as Hin'; try (exfalso; set_solver); destruct Hi as [-> Hp]; cbn [mbind option_bind].
  - destruct (IH vs1 seen Hwf1) as (vs' & -> & Hwf' & Hp' & Hl); [by rewrite Hp|by rewrite Hp; lia|].
    exists vs'. rewrite Hp in *. split_ands; [done..|simpl; lia].
  - destruct (IH vs1 (value wm :: seen) Hwf1) as (vs' & -> & Hwf' & Hp' & Hl).
    { intros m. rewrite Hp. cbn [fmap list_fmap value]. rewrite !elem_of_cons, Hseen. done. }
    { rewrite Hp. simpl. lia. }
    exists vs'. rewrite Hp in Hp', Hl. split_ands; [done|done| |simpl in *; lia]. rewrite Hp'.
    destruct wm. simpl. by rewrite <-Permutation_middle.
Qed.

(** C40: a sorted set built from weighted members holds the first entry given for
    every member, lists its members in order of weight, and finds for each the
    weight and the position in that order; its size check does not fail. *)
Theorem vset_contents wms :
  Z.of_nat (length wms) ≤ max_elems →
  ∃ vs l, Vset_of vset_init wms = Some vs ∧ GetAll vs = Some l
    ∧ l ≡ₚ first_entries [] wms ∧ StronglySorted (key_le (K := W)) l ∧ GetSize vs = Some (Z.of_nat (length l))
    ∧ ∀ m, match list_find (λ wm, value wm = m) l with
           | Some (i, wm) => (∃ vs', GetWeight vs m = Some (vs', Some (key wm))) ∧ (∃ vs', GetOrder vs m = Some (vs', Some (Z.of_nat i)))
           | None => (∃ vs', GetWeight vs m = Some (vs', None)) ∧ (∃ vs', GetOrder vs m = Some (vs', None))
           end.
Proof.
  intros Hlen. destruct (vset_init_wf (W := W)) as [Hw0 Hm0].
  destruct (Vset_of_spec vset_init wms [] Hw0) as (vs & Hvs & Hwf & Hp & Hl); [by rewrite Hm0|by rewrite Hm0; simpl; lia|].
  rewrite Hm0 in Hp, Hl. simpl in Hp, Hl. unfold max_elems in Hlen.
  exists vs, (members vs). split_ands; [done|apply DoInAll_inorder|done|by apply members_sorted| |].
  - rewrite GetSize_spec by done. rewrite u64_small by lia. done.
  - intros m. pose proof Hwf as (_ & _ & _ & _ & Hnd & _).
    destruct (GetWeight_spec vs m Hwf) as (vs' & Hgw & Hwf' & Ht). unfold GetOrder. rewrite Hgw. cbn [mbind option_bind].
    destruct (list_find _ (members vs)) as [[i wm]|] eqn:Hfind.
    + apply list_find_Some in Hfind as (Hi & Hm & Hfst).
      assert (wm ∈ members vs) as Hin by (apply list_elem_of_lookup; eauto).
      rewrite <-Hm, (weight_map_Some _ wm) by done. split; [by eexists|].
      assert (members vs' = members vs) as Hms by (unfold members; by rewrite Ht).
      exists vs'. unfold tree_begin. rewrite (order_loop_spec vs' (key wm) (value wm) 0 i _ (walk_fuel vs') 0 wm).
      * cbn [mbind option_bind]. do 3 f_equal. lia.
      * apply begin_at.
      * by rewrite Hms.
      * apply cmp_refl.
      * done.
      * rewrite Hms. intros n wm' Hn Hl'. rewrite Hm. eapply (Hfst n); [done|lia].
      * lia.
      * unfold walk_fuel. fold (members vs'). rewrite Hms. apply lookup_lt_Some in Hi. lia.
      * lia.
      * apply lookup_lt_Some in Hi. lia.
    + apply list_find_None in Hfind. rewrite weight_map_None; [split; by eexists|].
      intros (wm & -> & Hin)%list_elem_of_fmap. rewrite Forall_forall in Hfind. by apply (Hfind wm).
Qed.

(** The weight-range queries.  [GetSizeByWeight] and [GetRangeByWeight] give
    exactly the members whose weight is in the range, in order, when there are
    some; when no member has a weight from [left] on both are empty; but when the
    range is empty and some member lies above it, [GetRangeByWeight] walks off the
    end of the tree and dereferences null. *)
Theorem vset_weight_range vs left right :
  vset_wf vs →
  let l := range_of left right (members vs) in
  (l ≠ [] → GetRangeByWeight vs left right = Some l ∧ GetSizeByWeight vs left right = Some (Z.of_nat (length l)))
  ∧ (filter (λ wm, from_weight left wm = true) (members vs) = [] →
       GetRangeByWeight vs left right = Some [] ∧ GetSizeByWeight vs left right = Some 0)
  ∧ (l = [] → filter (λ wm, from_weight left wm = true) (members vs) ≠ [] → GetRangeByWeight vs left right = None).
Proof.
  intros Hwf l. destruct (range_bounds vs left right Hwf) as (i & j & Hi & Hj & Hr & Hd). unfold l. rewrite Hr, <-Hd. clear l.
  pose proof (iter_at_le _ _ _ Hi) as Hil. pose proof (iter_at_le _ _ _ Hj) as Hjl. fold (members vs) in Hil, Hjl.
  unfold GetRangeByWeight, GetSizeByWeight. split_ands.
  - intros Hne. assert (i < j)%nat by (destruct (decide (i < j)%nat); [done|replace (j - i)%nat with O in Hne by lia; done]).
    rewrite (range_loop_spec vs i j _ _ (walk_fuel vs) Hi Hj), (distance_spec vs i j _ _ (walk_fuel vs) Hi Hj)
      by (unfold walk_fuel; fold (members vs); lia).
    destruct (LowerBound (tree_ vs) left) as [x|]; [|simpl in Hi; fold (members vs) in Hi; lia].
    split; [done|]. rewrite length_take, length_drop. do 2 f_equal. lia.
  - intros Hnil. assert (i = length (members vs)) as ->.
    { apply (f_equal length) in Hnil. rewrite length_drop in Hnil. simpl in Hnil. lia. }
    destruct (LowerBound (tree_ vs) left) as [x|]; [|done]. simpl in Hi. destruct Hi as (Hr' & Hlen & v & Hv).
    destruct (iter_at_some _ x v Hv Hr') as (_ & _ & ?). unfold members in Hlen. lia.
  - intros Hnil Hne. assert (i < length (members vs))%nat.
    { destruct (decide (i < length (members vs))%nat); [done|]. by rewrite drop_ge in Hne by lia. }
    assert (j ≤ i)%nat.
    { apply (f_equal length) in Hnil. rewrite length_take, length_drop in Hnil. simpl in Hnil. lia. }
    rewrite (range_loop_past vs i j) by (done || lia).
    destruct (LowerBound (tree_ vs) left) as [x|]; [done|]. simpl in Hi. fold (members vs) in Hi. lia.
Qed.
End properties.

Module VsetExamples.
#[local] Instance HashLength : HashFunc string := λ s, Z.of_nat (String.length s).

Definition wm (w : Z) (m : string) : KeyValue Z string := MkKeyValue w m.

Definition some_members : list (KeyValue Z string) :=
  [wm 5 "e"; wm 3 "c"; wm 5 "ee"; wm 9 "i"; wm 3 "e"; wm 1 "a"].

Lemma vset_contents_witness :
  ∃ vs l, Vset_of vset_init some_members = Some vs ∧ GetAll vs = Some l
    ∧ l ≡ₚ first_entries [] some_members ∧ StronglySorted (key_le (K := Z)) l ∧ GetSize vs = Some (Z.of_nat (length l))
    ∧ ∀ m, match list_find (λ wm, value wm = m) l with
           | Some (i, wm) => (∃ vs', GetWeight vs m = Some (vs', Some (key wm))) ∧ (∃ vs', GetOrder vs m = Some (vs', Some (Z.of_nat i)))
           | None => (∃ vs', GetWeight vs m = Some (vs', None)) ∧ (∃ vs', GetOrder vs m = Some (vs', None))
           end.
Proof. apply (vset_contents some_members). by vm_compute. Defined.

Definition some_vset : Vset Z := default vset_init (Vset_of vset_init some_members).

Lemma some_vset_wf : vset_wf some_vset.
Proof.
  destruct (vset_init_wf (W := Z)) as [Hw Hm].
  destruct (Vset_of_spec (W := Z) vset_init some_members [] Hw) as (vs & Hvs & Hwf & _); [by rewrite Hm|by vm_compute|].
  unfold some_vset. by rewrite Hvs.
Qed.

(** The range from 6 to 8 is empty and 9 lies above it. *)
Lemma vset_weight_range_witness :
  vset_wf some_vset ∧ range_of 6 8 (members some_vset) = []
  ∧ GetRangeByWeight some_vset 6 8 = None ∧ GetRangeByWeight some_vset 2 5 = Some (range_of 2 5 (members some_vset)).
Proof.
  pose proof some_vset_wf as Hwf. split; [done|]. split; [by vm_compute|]. split.
  - by apply (vset_weight_range some_vset 6 8 Hwf); vm_compute.
  - by apply (vset_weight_range some_vset 2 5 Hwf); vm_compute.
Defined.

(** Three members of one weight, the node of "c" left of the topmost one; and
    the same with a heavier member. *)
Definition three : Vset Z := default vset_init (Vset_of vset_init [wm 1 "a"; wm 1 "b"; wm 1 "c"]).
Definition four : Vset Z := default vset_init (Vset_of vset_init [wm 1 "a"; wm 1 "b"; wm 1 "c"; wm 2 "d"]).

(** Erasing can leave the tree and the dictionary out of step, after which
    the size check fails.  [Erase] of a member whose weight others share
    dereferences null, or reports success without removing it from the tree;
    [EraseRange] removes the range from the tree only, and takes an interval of
    one member for an empty one. *)
Theorem vset_erase_out_of_step :
  Erase three "c" = None
  ∧ (∃ vs, Erase four "c" = Some (vs, true) ∧ wm 1 "c" ∈ members vs ∧ GetSize vs = None)
  ∧ (∃ vs, EraseRange three 0 1 = Some (vs, 2) ∧ GetSize vs = None)
  ∧ EraseRange three 1 1 = Some (three, 0).
Proof.
  split_ands; [by vm_compute|..|by vm_compute].
  - eexists. split; [vm_compute; reflexivity|]. split; [|by vm_compute].
    apply list_elem_of_lookup. exists 0%nat. by vm_compute.
  - eexists. split; [vm_compute; reflexivity|by vm_compute].
Qed.
End VsetExamples.
