(* ===== verification/Kvdb.v ===== *)
(** * The database

    [mmkv/db/kvdb.h], [kvdb.cc], [mmkv_data.h], [type.h]: one database, a
    dictionary from keys to typed values, with a dictionary of expiration times,
    a replacement policy and an index of shards.

    An operation runs in the monad [M]: a state transformer over the database
    that can fault ([None]: a null or dangling pointer, a cast of [any_data] to a
    type it does not have, a failed [assert], an exception, or a loop of 2^64
    iterations) and can leave early with a status code ([inr]).  A run that ends
    with [inl] returned [S_OK], with its output parameters.

    The replacement policy and the shard index hold pointers to the keys stored
    in [dict_], so every entry carries the address of its key; following a
    pointer looks for the entry with that address. *)

From stdpp Require Import pretty.
From S2P Require Import Prelude Comparator AvlUtil AvlTree Dict HashTableBase HashTable TreeHashTable HashSet.
From S2P Require Import Dictionary Blist Cache Vset.

(** ** Data *)

Inductive DataType := D_STRING | D_STRLIST | D_SORTED_SET | D_MAP | D_SET.

#[export] Instance DataType_eq_dec : EqDecision DataType.
Proof. solve_decision. Defined.

Inductive StatusCode :=
  | S_OK | S_EXISTS | S_NONEXISTS | S_INVALID_MESSAGE | S_INVALID_RANGE | S_VMEMBER_NONEXISTS | S_EXISTS_DIFF_TYPE
  | S_FIELD_NONEXISTS | S_SET_MEMBER_NONEXISTS | S_INVALID_REQUEST | S_SET_NO_MEMBER | S_DEST_EXISTS
  | S_EXPIRE_DISABLE | S_SHARD_LOCKED | S_SHARD_PROCESSING | S_SHARD_NONEXISTS.

Inductive ShardCode := SC_OK | SC_NO_SHARD | SC_NOT_SHARD_SERVER | SC_PUT_SHARD_OK.

(** [StrList]: a list with its own nodes. *)
Record StrList := MkStrList { str_nodes : gmap loc (BNode string); str_lst : Blist }.

(** [Map], [Set]. *)
Abbreviation StrMap := (HashState (list (KeyValue string string))).
Abbreviation StrSet := (HashState (list string)).

(** What [any_data] can point to. *)
Inductive Payload (W : Type) :=
  | PString (s : string)
  | PStrList (l : StrList)
  | PVset (v : Vset W)
  | PMap (m : StrMap)
  | PSet (s : StrSet).
Arguments PString {W}.
Arguments PStrList {W}.
Arguments PVset {W}.
Arguments PMap {W}.
Arguments PSet {W}.

Record MmkvData (W : Type) := MkData { type : DataType; any_data : option (Payload W) }.
Arguments MkData {W}.
Arguments type {W}.
Arguments any_data {W}.

(** The address of a key in [dict_]. *)
Definition addr : Type := positive.

(** The value of an entry of [dict_], with the address of the entry's key. *)
Record Slot (W : Type) := MkSlot { slot_addr : addr; slot_data : MmkvData W }.
Arguments MkSlot {W}.
Arguments slot_addr {W}.
Arguments slot_data {W}.

Section data.
Context {W : Type}.
Implicit Types (d : MmkvData W) (p : Payload W).

Definition payload_type p : DataType :=
  match p with
  | PString _ => D_STRING | PStrList _ => D_STRLIST | PVset _ => D_SORTED_SET | PMap _ => D_MAP | PSet _ => D_SET
  end.

(** The casts of [any_data]: an object of another type, or null, is
    a fault. *)
Definition as_string d : option string := match any_data d with Some (PString s) => Some s | _ => None end.
Definition as_list d : option StrList := match any_data d with Some (PStrList l) => Some l | _ => None end.
Definition as_vset d : option (Vset W) := match any_data d with Some (PVset v) => Some v | _ => None end.
Definition as_map d : option StrMap := match any_data d with Some (PMap m) => Some m | _ => None end.
Definition as_set d : option StrSet := match any_data d with Some (PSet s) => Some s | _ => None end.

(** [DeleteMmkvData(data)]: [delete] at the type the tag says. *)
Definition DeleteMmkvData d : option unit :=
  match any_data d with
  | None => Some ()
  | Some p => if bool_decide (payload_type p = type d) then Some () else None
  end.

(** [DeleteSpecificMmkvData<T>(data)]. *)
Definition DeleteSpecificMmkvData (T : DataType) d : option (MmkvData W) :=
  match any_data d with
  | None => Some (MkData (type d) None)
  | Some p => if bool_decide (payload_type p = T) then Some (MkData (type d) None) else None
  end.
End data.

(** *** Lists of strings *)

Section str_list.
Implicit Types (sl : StrList) (v : string).

Definition StrList_init : StrList := MkStrList ∅ blist_init.
Definition sl_size sl : Z := Blist.count_ (str_lst sl).

Definition sl_PushBack sl v : option StrList :=
  '(h, b) ← EmplaceBack (str_nodes sl) (str_lst sl) v; Some (MkStrList h b).
Definition sl_PushFront sl v : option StrList :=
  '(h, b) ← EmplaceFront (str_nodes sl) (str_lst sl) v; Some (MkStrList h b).
Definition sl_PopFront sl : option StrList :=
  '(h, b, _) ← Blist.PopFront (str_nodes sl) (str_lst sl); Some (MkStrList h b).
Definition sl_PopBack sl : option StrList :=
  '(h, b, _) ← Blist.PopBack (str_nodes sl) (str_lst sl); Some (MkStrList h b).

(** [while (n--) ++it], [while (n--) --it]. *)
Fixpoint sl_forward (n : nat) sl (it : option loc) : option (option loc) :=
  match n with O => Some it | S n' => it ← get_next (str_nodes sl) it; sl_forward n' sl it end.
Fixpoint sl_backward (n : nat) sl (it : option loc) : option (option loc) :=
  match n with O => Some it | S n' => it ← get_prev (str_nodes sl) it; sl_backward n' sl it end.

(** [for (i = 0; i < n; ++i) { values[i] = *it; ++it; }], and with [--it]. *)
Fixpoint sl_read_forward (n : nat) sl (it : option loc) : option (list string) :=
  match n with
  | O => Some []
  | S n' => v ← get_val (str_nodes sl) it; it ← get_next (str_nodes sl) it; vs ← sl_read_forward n' sl it; Some (v :: vs)
  end.
Fixpoint sl_read_backward (n : nat) sl (it : option loc) : option (list string) :=
  match n with
  | O => Some []
  | S n' => v ← get_val (str_nodes sl) it; it ← get_prev (str_nodes sl) it; vs ← sl_read_backward n' sl it; Some (v :: vs)
  end.

Fixpoint repeat_pop (pop : StrList → option StrList) (n : nat) sl : option StrList :=
  match n with O => Some sl | S n' => sl ← pop sl; repeat_pop pop n' sl end.

Fixpoint push_each (push : StrList → string → option StrList) sl (elems : list string) : option StrList :=
  match elems with [] => Some sl | e :: es => sl ← push sl e; push_each push sl es end.

(** [ListGetRange] on the list: [inr] is [S_INVALID_RANGE].  With
    [right_diff] 0 the loop [while (--right_diff)] makes 2^64 - 1 steps. *)
Definition sl_range sl (l r : Z) : option (list string + StatusCode) :=
  let l := if l <? 0 then i64 (sl_size sl ⊞ l) else l in
  let r := if r <? 0 then i64 (sl_size sl ⊞ r ⊞ 1) else r in
  if (sl_size sl <=? u64 l) || (r <? l) then Some (inr S_INVALID_RANGE) else
  let size := (if u64 r <? sl_size sl then u64 r else sl_size sl) ⊟ l in
  let right_diff := sl_size sl ⊟ r in
  if u64 l <=? right_diff then
    beg ← sl_forward (Z.to_nat l) sl (header_ (str_lst sl));
    vs ← sl_read_forward (Z.to_nat size) sl beg;
    Some (inl vs)
  else if right_diff =? 0 then None
  else
    last ← get_prev (str_nodes sl) (header_ (str_lst sl));
    last ← sl_backward (Z.to_nat (right_diff - 1)) sl last;
    vs ← sl_read_backward (Z.to_nat size) sl last;
    Some (inl vs).
End str_list.

(** ** The database *)

(** The configuration, and what an operation sees of the world: the clock, the
    allocated memory, and the contents of a string that was moved from.
    [loop_fuel] bounds the iterations of the loops over sets, which need not end
    when the operands are the same set. *)
Record Env := MkEnv {
  lazy_expiration : bool;
  expiration_check_cycle : Z;
  is_sharder : bool;
  shard_num : Z;
  max_memory_usage : Z;
  log_request : bool;
  now_ms : Z;
  memory_usage : Z;
  moved_from : string → string;
  loop_fuel : nat;
}.

Definition IsExpirationDisable (E : Env) : bool := negb (lazy_expiration E) && (expiration_check_cycle E <=? 0).

(** [ShardIdSet], and the [AvlDictionary]s [ShardDict], [Dict], [ExDict]. *)
Abbreviation AvlDict K V := (HashState (AvlTreeBase unit (KeyValue K V))).
Abbreviation ShardIdSet := (HashState (list addr)).
Abbreviation ShardDict := (AvlDict Z ShardIdSet).
Abbreviation KeyDict W := (AvlDict string (Slot W)).
Abbreviation ExDict := (AvlDict string Z).

(** The members that only the cache functions, the shard functions and the log
    touch. *)
Record Aux (C : Type) := MkAux {
  cache_ : option C;
  sdict_ : ShardDict;
  locked_shard_id_set_ : HashState (list Z);
  is_ignore_locked_shard : bool;
  rlog : list string;
}.
Arguments MkAux {C}.
Arguments cache_ {C}.
Arguments sdict_ {C}.
Arguments locked_shard_id_set_ {C}.
Arguments is_ignore_locked_shard {C}.
Arguments rlog {C}.

(** [next_addr] is the next address the allocator hands out. *)
Record MmkvDb (W C : Type) := MkDb { dict_ : KeyDict W; exp_dict_ : ExDict; aux : Aux C; next_addr : addr }.
Arguments MkDb {W C}.
Arguments dict_ {W C}.
Arguments exp_dict_ {W C}.
Arguments aux {W C}.
Arguments next_addr {W C}.

(** ** The monad *)

(** State [S], early exits with a code. *)
Definition M (S A : Type) : Type := S → option (S * (A + StatusCode)).

#[export] Instance M_ret {S} : MRet (M S) := λ A x s, Some (s, inl x).
#[export] Instance M_bind {S} : MBind (M S) := λ A B f m s,
  match m s with
  | Some (s', inl x) => f x s'
  | Some (s', inr c) => Some (s', inr c)
  | None => None
  end.

Section monad.
Context {S : Type}.

Definition fault {A} : M S A := λ _, None.
(** [return code;] *)
Definition stop {A} (c : StatusCode) : M S A := λ s, Some (s, inr c).
Definition lift {A} (r : option A) : M S A := λ s, x ← r; Some (s, inl x).
Definition get_state : M S S := λ s, Some (s, inl s).
Definition put_state (s : S) : M S () := λ _, Some (s, inl ()).
(** [assert(b);] *)
Definition check (b : bool) : M S () := if b then mret () else fault.
End monad.

(** An operation on a part of the state. *)
Definition zoom {S T A} (get : S → T) (set : S → T → S) (m : M T A) : M S A := λ s,
  '(t, r) ← m (get s); Some (set s t, r).

(** A call on a part of the state that returns that part afterwards. *)
Definition call {S T A} (get : S → T) (set : S → T → S) (f : T → option (T * A)) : M S A := λ s,
  '(t, x) ← f (get s); Some (set s t, inl x).

(** ** The cache, the shards and the log *)

Section aux.
Context {C : Type} `{!CacheInterface C addr} `{HS : !HashFunc string} `{HA : !HashFunc addr} `{HZ : !HashFunc Z}.
Context (E : Env).
Implicit Types (a : addr) (k : string) (x : Aux C).
Abbreviation MA := (M (Aux C)).

Definition with_cache x (c : option C) : Aux C :=
  MkAux c (sdict_ x) (locked_shard_id_set_ x) (is_ignore_locked_shard x) (rlog x).
Definition with_sdict x (d : ShardDict) : Aux C :=
  MkAux (cache_ x) d (locked_shard_id_set_ x) (is_ignore_locked_shard x) (rlog x).
Definition with_locked x (s : HashState (list Z)) : Aux C :=
  MkAux (cache_ x) (sdict_ x) s (is_ignore_locked_shard x) (rlog x).
Definition with_rlog x (l : list string) : Aux C :=
  MkAux (cache_ x) (sdict_ x) (locked_shard_id_set_ x) (is_ignore_locked_shard x) l.

Definition CacheAdd a : MA () :=
  x ← get_state;
  match cache_ x with
  | None => mret ()
  | Some c => '(c, _) ← lift (UpdateEntry c a); put_state (with_cache x (Some c))
  end.

Definition CacheRemove a : MA () :=
  x ← get_state;
  match cache_ x with
  | None => mret ()
  | Some c => '(c, _) ← lift (DelEntry c a); put_state (with_cache x (Some c))
  end.

Definition CacheUpdate a : MA () :=
  x ← get_state;
  match cache_ x with
  | None => mret ()
  | Some c => '(c, _) ← lift (UpdateEntry c a); put_state (with_cache x (Some c))
  end.

(** [if (cache_) cache_->Clear();] *)
Definition CacheClear : MA () :=
  x ← get_state;
  match cache_ x with
  | None => mret ()
  | Some c => c ← lift (cache_Clear c); put_state (with_cache x (Some c))
  end.

(** [rlog().AppendDel(key)]. *)
Definition AppendDel k : MA () := x ← get_state; put_state (with_rlog x (rlog x ++ [k])).

Definition MakeShardId k : Z := HASH_FUNC k.

Definition sdict_Find (shard_id : Z) : MA (option ShardIdSet) :=
  r ← call sdict_ with_sdict (λ d, d_find (T := KeyValue Z ShardIdSet) d shard_id);
  mret (value <$> r).

Definition HasShard (shard_id : Z) : MA bool := r ← sdict_Find shard_id; mret (bool_decide (is_Some r)).

Definition IsShardLocked (shard_id : Z) : MA bool :=
  r ← call locked_shard_id_set_ with_locked (λ s, HashTable.Find HASH_FUNC s shard_id);
  mret (bool_decide (is_Some r)).

Definition HasShardLocked : MA bool := x ← get_state; mret (negb (hash_size (locked_shard_id_set_ x) =? 0)).

(** A shard number of 0 divides by zero. *)
Definition CHECK_SHARD_IS_LOCKED_KEY k : MA () :=
  if is_sharder E then
    check (negb (shard_num E =? 0));;
    let shard_id := MakeShardId k mod shard_num E in
    has ← HasShard shard_id;
    if negb has then stop S_SHARD_NONEXISTS else
    locked ← IsShardLocked shard_id;
    x ← get_state;
    if locked && negb (is_ignore_locked_shard x) then stop S_SHARD_LOCKED else mret ()
  else mret ().

Definition CHECK_HAS_SHARD_LOCKED_KEY : MA () :=
  if is_sharder E then
    locked ← HasShardLocked;
    x ← get_state;
    if locked && negb (is_ignore_locked_shard x) then stop S_SHARD_LOCKED else mret ()
  else mret ().

(** [sdict_[shard_id].f()]. *)
Definition on_shard {A} (shard_id : Z) (f : ShardIdSet → option (ShardIdSet * A)) : MA A :=
  kv ← call sdict_ with_sdict (λ d, dict_at d shard_id HashTable_init);
  '(s, r) ← lift (f (value kv));
  call sdict_ with_sdict (λ d, d ← dict_write d shard_id s; Some (d, ()));;
  mret r.

Definition AddKeyToShard a k : MA () :=
  if is_sharder E then on_shard (MakeShardId k) (λ s, HashTable.Insert HASH_FUNC s a);; mret () else mret ().

Definition RemoveKeyFromShard a k : MA () :=
  if is_sharder E then on_shard (MakeShardId k) (λ s, HashTable.Erase HASH_FUNC s a);; mret () else mret ().

Definition AddShard (shard_id : Z) : MA () :=
  if is_sharder E then call sdict_ with_sdict (λ d, InsertKv d shard_id HashTable_init);; mret () else mret ().

Definition DeleteAllShard : MA () :=
  call sdict_ with_sdict (λ d, d ← d_clear (T := KeyValue Z ShardIdSet) d; Some (d, ())).

Definition UnlockAllShard : MA () :=
  call locked_shard_id_set_ with_locked (λ s, s ← HashTable.Clear s; Some (s, ())).

Definition LockShard (shard_id : Z) : MA () :=
  locked ← IsShardLocked shard_id;
  check (negb locked);;
  call locked_shard_id_set_ with_locked (λ s, HashTable.Insert HASH_FUNC s shard_id);;
  mret ().

Definition UnlockShard (shard_id : Z) : MA () :=
  locked ← IsShardLocked shard_id;
  check locked;;
  call locked_shard_id_set_ with_locked (λ s, HashTable.Erase HASH_FUNC s shard_id);;
  mret ().

(** [GetShardKeys(shard_id, keys)]: the code and the addresses. *)
Definition GetShardKeys (shard_id : Z) : MA (ShardCode * list addr) :=
  if negb (is_sharder E) then mret (SC_NOT_SHARD_SERVER, []) else
  shard_keys ← sdict_Find shard_id;
  match shard_keys with
  | None => mret (SC_NO_SHARD, [])
  | Some s => keys ← lift (HashSet.members s); mret (SC_OK, keys)
  end.
End aux.

(** ** Operations *)

Section db.
Context {W C : Type} `{Comparator W} `{!CacheInterface C addr}
  `{HS : !HashFunc string} `{HA : !HashFunc addr} `{HZ : !HashFunc Z}.
Context (E : Env).
Implicit Types (a : addr) (k key : string) (db : MmkvDb W C) (s : Slot W).
Abbreviation MD := (M (MmkvDb W C)).

Definition with_dict db (d : KeyDict W) : MmkvDb W C := MkDb d (exp_dict_ db) (aux db) (next_addr db).
Definition with_exp db (d : ExDict) : MmkvDb W C := MkDb (dict_ db) d (aux db) (next_addr db).
Definition with_aux db (x : Aux C) : MmkvDb W C := MkDb (dict_ db) (exp_dict_ db) x (next_addr db).

Definition on_dict {A} : (KeyDict W → option (KeyDict W * A)) → MD A := call dict_ with_dict.
Definition on_exp {A} : (ExDict → option (ExDict * A)) → MD A := call exp_dict_ with_exp.
Definition on_aux {A} : M (Aux C) A → MD A := zoom aux with_aux.

(** The constructor, with the policy the configuration names. *)
Definition MmkvDb_new (cache : option C) : MmkvDb W C :=
  MkDb TreeHashTable_init TreeHashTable_init (MkAux cache TreeHashTable_init HashTable_init false []) 1%positive.

(** *** Entries *)

(** The address of a new entry is used up. *)
Definition new_addr : MD () :=
  db ← get_state; put_state (MkDb (dict_ db) (exp_dict_ db) (aux db) (Pos.succ (next_addr db))).

(** [dict_.Find(k)]. *)
Definition dict_Find k : MD (option (Slot W)) :=
  r ← on_dict (λ d, d_find (T := KeyValue string (Slot W)) d k);
  mret (value <$> r).

(** [dict_.InsertKv(k, MmkvData(t))]. *)
Definition dict_InsertKv k (t : DataType) : MD (option (Slot W)) :=
  x ← get_state;
  r ← on_dict (λ d, InsertKv d k (MkSlot (next_addr x) (MkData t None)));
  match r with
  | None => mret None
  | Some kv => new_addr;; mret (Some (value kv))
  end.

(** [dict_.InsertKvWithDuplicate(k, MmkvData(t), duplicate)]. *)
Definition dict_InsertKvWithDuplicate k (t : DataType) : MD (bool * Slot W) :=
  x ← get_state;
  '(success, kv) ← on_dict (λ d, '(d, ok, kv) ← InsertKvWithDuplicate d k (MkSlot (next_addr x) (MkData t None));
                                 Some (d, (ok, kv)));
  if success : bool then new_addr;; mret (true, value kv) else mret (false, value kv).

(** [kv->value.any_data = p], or a change of the object it points to, [kv]
    pointing to the entry of [k]. *)
Definition set_payload k s (p : Payload W) : MD () :=
  on_dict (λ d, d ← dict_write d k (MkSlot (slot_addr s) (MkData (type (slot_data s)) (Some p))); Some (d, ())).

(** The entry of [k], read through a pointer to it. *)
Definition entry_at (d : KeyDict W) k : option (Slot W) :=
  value <$> head (filter (λ kv, Comparator.key kv = k) (all_elems d)).

(** The key at an address. *)
Definition deref_in (d : KeyDict W) a : option string :=
  Comparator.key <$> head (filter (λ kv, slot_addr (value kv) = a) (all_elems d)).

(** [dict_.DropNode(node)], with the destructor of [MmkvData]. *)
Definition DropNode (node : option (Slot W)) : MD () :=
  s ← lift node; lift (DeleteMmkvData (slot_data s)).

Definition dict_Extract k : MD (option (Slot W)) :=
  r ← on_dict (λ d, d_extract (T := KeyValue string (Slot W)) d k);
  mret (value <$> r).

Definition exp_Erase k : MD () := on_exp (λ d, dict_erase d k);; mret ().

(** *** Expiration *)

(** [CheckExpire(key)]: the result, and what is then left in [key], which is
    moved to the log. *)
Definition CheckExpire k : MD (bool * string) :=
  if negb (lazy_expiration E) then mret (false, k) else
  node ← on_exp (λ d, TreeHashTable.FindNode d k);
  match node with
  | None => mret (false, k)
  | Some (i, j, (x, k_exp)) =>
      if value k_exp <=? now_ms E then
        on_exp (λ d, TreeHashTable.EraseNode d i j (Some x));;
        node2 ← dict_Extract k;
        DropNode node2;;
        if log_request E then on_aux (AppendDel k);; mret (true, moved_from E k) else mret (true, k)
      else mret (false, k)
  end.

Definition CHECK_EXPIRE_ROUTINE k : MD () :=
  '(expired, _) ← CheckExpire k;
  if expired : bool then stop S_NONEXISTS else mret ().

(** [ERROR_ROUTINE_KV(type)], [LIST_ERROR_ROUTINE], [ERROR_ROUTINE]. *)
Definition ERROR_ROUTINE_KV k (t : DataType) : MD (Slot W) :=
  kv ← dict_Find k;
  match kv with
  | None => stop S_NONEXISTS
  | Some s => if bool_decide (type (slot_data s) = t) then mret s else stop S_EXISTS_DIFF_TYPE
  end.

Definition CHECK_SHARD k : MD () := on_aux (CHECK_SHARD_IS_LOCKED_KEY E k).

(** *** Replacement *)

(** [TryReplacekey(key)]: [key] is null, or the address of a key with the key
    itself. *)
Definition TryReplacekey (pkey : option (addr * string)) : MD () :=
  db ← get_state;
  match cache_ (aux db) with
  | None => mret ()
  | Some c =>
      if memory_usage E <? max_memory_usage E then mret () else
      '(a, k) ← lift pkey;
      locked ← on_aux (IsShardLocked (MakeShardId k));
      if locked : bool then mret () else
      victim ← lift (Victim c);
      match victim with
      | None => mret ()
      | Some v =>
          if bool_decide (v = a) then mret () else
          db ← get_state;
          vk ← lift (deref_in (dict_ db) v);
          node ← dict_Extract vk;
          check (bool_decide (is_Some node));;
          c ← lift (DelVictim c);
          on_aux (x ← get_state; put_state (with_cache x (Some c)));;
          (if log_request E then on_aux (AppendDel vk) else mret ());;
          DropNode node
      end
  end.

(** *** Common operations *)

Definition IsEmpty : MD bool := db ← get_state; mret (hash_size (dict_ db) =? 0).

(** The entries in the order of the iterators of [dict_]. *)
Definition entries {V} (d : AvlDict string V) : option (list (KeyValue string V)) :=
  TreeHashTable.iterate (length (all_elems d)) d (TreeHashTable.begin d).

Definition GetAllKeys : MD (list string) :=
  db ← get_state;
  l ← lift (entries (dict_ db));
  mret (map Comparator.key l).

Definition Type_ k : MD (option DataType) :=
  '(expired, _) ← CheckExpire k;
  if expired : bool then mret None else
  kv ← dict_Find k;
  match kv with
  | None => mret None
  | Some s => on_aux (CacheUpdate (slot_addr s));; mret (Some (type (slot_data s)))
  end.

Definition Delete k : MD () :=
  CHECK_SHARD k;;
  node ← dict_Extract k;
  match node with
  | None => stop S_NONEXISTS
  | Some s =>
      on_aux (RemoveKeyFromShard E (slot_addr s) k);;
      on_aux (CacheRemove (slot_addr s));;
      DropNode node;;
      exp_Erase k
  end.

(** [dict_.Clear()], destroying the entries. *)
Definition dict_Clear : MD () :=
  db ← get_state;
  lift (if forallb (λ kv, bool_decide (is_Some (DeleteMmkvData (slot_data (value kv))))) (all_elems (dict_ db))
        then Some () else None);;
  on_dict (λ d, d ← d_clear (T := KeyValue string (Slot W)) d; Some (d, ())).

Definition DeleteAll : MD Z :=
  on_aux (CHECK_HAS_SHARD_LOCKED_KEY E);;
  db ← get_state;
  let ret := hash_size (dict_ db) in
  dict_Clear;;
  on_exp (λ d, d ← d_clear (T := KeyValue string Z) d; Some (d, ()));;
  on_aux CacheClear;;
  on_aux DeleteAllShard;;
  mret ret.

Definition Rename (old_name new_name : string) : MD () :=
  CHECK_SHARD old_name;;
  CHECK_EXPIRE_ROUTINE old_name;;
  exists_ ← dict_Find new_name;
  match exists_ with
  | Some _ => stop S_EXISTS
  | None =>
      node ← on_dict (λ d, TreeHashTable.Extract (K := string) d old_name);
      match node with
      | None => stop S_NONEXISTS
      | Some n =>
          let s := value (node_value n) in
          TryReplacekey (Some (slot_addr s, old_name));;
          success ← on_dict (λ d, TreeHashTable.Push (K := string) d (MkDetached (MkKeyValue new_name s) (node_height n)));
          on_aux (CacheUpdate (slot_addr s));;
          check success
      end
  end.

(** *** Strings *)

Definition InsertStr k (v : string) : MD () :=
  CHECK_SHARD k;;
  TryReplacekey None;;
  kv ← dict_InsertKv k D_STRING;
  match kv with
  | None => stop S_EXISTS
  | Some s =>
      set_payload k s (PString v);;
      on_aux (CacheAdd (slot_addr s));;
      on_aux (AddKeyToShard E (slot_addr s) k)
  end.

(** The reference [(slot)->value.value] is formed before [slot] is tested: a
    null [slot] is a fault. *)
Definition erase_of_type (t : DataType) (erase_exp : bool) k : MD () :=
  CHECK_SHARD k;;
  slot ← on_dict (λ d, TreeHashTable.FindNode d k);
  '(i, j, (x, kv)) ← lift slot;
  let s := value kv in
  if bool_decide (type (slot_data s) = t) then
    on_aux (CacheRemove (slot_addr s));;
    on_aux (RemoveKeyFromShard E (slot_addr s) k);;
    lift (DeleteSpecificMmkvData t (slot_data s));;
    on_dict (λ d, TreeHashTable.EraseNode d i j (Some x));;
    (if erase_exp then exp_Erase k else mret ())
  else stop S_EXISTS_DIFF_TYPE.

Definition EraseStr k : MD () := erase_of_type D_STRING false k.

(** [GetStr(k, str)]: the entry, and the string that [str] points to. *)
Definition GetStr k : MD (Slot W * string) :=
  CHECK_EXPIRE_ROUTINE k;;
  data ← dict_Find k;
  match data with
  | Some s =>
      if bool_decide (type (slot_data s) = D_STRING) then
        str ← lift (as_string (slot_data s));
        on_aux (CacheUpdate (slot_addr s));;
        mret (s, str)
      else stop S_EXISTS_DIFF_TYPE
  | None => stop S_NONEXISTS
  end.

Definition StrAppend k (str : string) : MD () :=
  CHECK_SHARD k;;
  '(s, pstr) ← GetStr k;
  set_payload k s (PString (pstr +:+ str));;
  TryReplacekey None.

(** [erase(size() - count, count)] throws when the position is past the end. *)
Definition StrPopBack k (count : Z) : MD () :=
  CHECK_SHARD k;;
  '(s, pstr) ← GetStr k;
  let size := Z.of_nat (String.length pstr) in
  let pos := size ⊟ count in
  check (pos <=? size);;
  set_payload k s (PString (String.substring 0 (Z.to_nat pos) pstr)).

Definition SetStr k (v : string) : MD () :=
  CHECK_SHARD k;;
  CHECK_EXPIRE_ROUTINE k;;
  '(success, s) ← dict_InsertKvWithDuplicate k D_STRING;
  (if success : bool then
     set_payload k s (PString v);;
     on_aux (CacheAdd (slot_addr s));;
     on_aux (AddKeyToShard E (slot_addr s) k)
   else if bool_decide (type (slot_data s) = D_STRING) then
     lift (as_string (slot_data s));;
     set_payload k s (PString v);;
     on_aux (CacheUpdate (slot_addr s))
   else stop S_EXISTS_DIFF_TYPE);;
  TryReplacekey None.

(** *** Lists *)

Definition ListAdd k (elems : list string) : MD () :=
  CHECK_SHARD k;;
  kv ← dict_InsertKv k D_STRLIST;
  match kv with
  | None => stop S_EXISTS
  | Some s =>
      lst ← lift (push_each sl_PushBack StrList_init elems);
      on_aux (CacheAdd (slot_addr s));;
      on_aux (AddKeyToShard E (slot_addr s) k);;
      set_payload k s (PStrList lst)
  end.

(** The object of the entry of [k], a new one of type [t] when there was no
    entry; [None] when there is one of another type. *)
Definition open_or_create k (t : DataType) (fresh : Payload W) : MD (option (Slot W * Payload W)) :=
  '(success, s) ← dict_InsertKvWithDuplicate k t;
  if success : bool then
    set_payload k s fresh;;
    on_aux (CacheAdd (slot_addr s));;
    on_aux (AddKeyToShard E (slot_addr s) k);;
    mret (Some (s, fresh))
  else if bool_decide (type (slot_data s) = t) then
    p ← lift (any_data (slot_data s));
    mret (Some (s, p))
  else mret None.

(** The list is found or made under what [CheckExpire] left in [k]. *)
Definition ListAppend k (elems : list string) : MD () :=
  CHECK_SHARD k;;
  '(_, k) ← CheckExpire k;
  r ← open_or_create k D_STRLIST (PStrList StrList_init);
  match r with
  | Some (s, p) =>
      lst ← lift (as_list (MkData D_STRLIST (Some p)));
      lst ← lift (push_each sl_PushBack lst elems);
      set_payload k s (PStrList lst)
  | None => stop S_EXISTS_DIFF_TYPE
  end.

(** The list of [k], after the checks every list operation starts with. *)
Definition find_list k : MD (Slot W * StrList) :=
  CHECK_EXPIRE_ROUTINE k;;
  s ← ERROR_ROUTINE_KV k D_STRLIST;
  lst ← lift (as_list (slot_data s));
  mret (s, lst).

Definition ListPrepend k (elems : list string) : MD () :=
  CHECK_SHARD k;;
  '(s, lst) ← find_list k;
  lst ← lift (push_each sl_PushFront lst elems);
  set_payload k s (PStrList lst).

Definition ListGetSize k : MD Z := '(_, lst) ← find_list k; mret (sl_size lst).

Definition ListGetAll k : MD (list string) :=
  '(_, lst) ← find_list k;
  lift (sl_read_forward (Z.to_nat (sl_size lst)) lst (header_ (str_lst lst))).

Definition ListGetRange k (l r : Z) : MD (list string) :=
  '(_, lst) ← find_list k;
  res ← lift (sl_range lst l r);
  match res with inl values => mret values | inr code => stop code end.

(** [DB_MIN(count, lst->size())] converted to [uint32_t]. *)
Definition pop_count (count : Z) (lst : StrList) : nat :=
  Z.to_nat ((if count <? sl_size lst then count else sl_size lst) mod 2 ^ 32).

Definition ListPopFront k (count : Z) : MD () :=
  CHECK_SHARD k;;
  '(s, lst) ← find_list k;
  lst ← lift (repeat_pop sl_PopFront (pop_count count lst) lst);
  set_payload k s (PStrList lst).

Definition ListPopBack k (count : Z) : MD () :=
  CHECK_SHARD k;;
  '(s, lst) ← find_list k;
  lst ← lift (repeat_pop sl_PopBack (pop_count count lst) lst);
  set_payload k s (PStrList lst).

Definition ListDel k : MD () := erase_of_type D_STRLIST true k.

(** *** Sorted sets *)

(** [for (auto& x : xs) count += (bool)insert(x)]. *)
Fixpoint insert_each {P X} (insert : P → X → option (P * bool)) (p : P) (xs : list X) (count : Z) : option (P * Z) :=
  match xs with
  | [] => Some (p, count)
  | x :: xs => '(p, ok) ← insert p x; insert_each insert p xs (if ok : bool then count ⊞ 1 else count)
  end.

Definition VsetAdd k (wms : list (KeyValue W string)) : MD Z :=
  CHECK_SHARD k;;
  r ← open_or_create k D_SORTED_SET (PVset vset_init);
  match r with
  | Some (s, p) =>
      vset ← lift (as_vset (MkData D_SORTED_SET (Some p)));
      '(vset, count) ← lift (insert_each (λ vs wm, Vset.Insert vs (Comparator.key wm) (value wm)) vset wms 0);
      set_payload k s (PVset vset);;
      mret count
  | None => stop S_EXISTS_DIFF_TYPE
  end.

(** A call on the sorted set of [k]. *)
Definition on_vset {A} k (f : Vset W → option (Vset W * A)) : MD A :=
  CHECK_EXPIRE_ROUTINE k;;
  s ← ERROR_ROUTINE_KV k D_SORTED_SET;
  vset ← lift (as_vset (slot_data s));
  '(vset, r) ← lift (f vset);
  set_payload k s (PVset vset);;
  mret r.

(** A call that does not change it. *)
Definition read_vset {A} k (f : Vset W → option A) : MD A := on_vset k (λ vs, r ← f vs; Some (vs, r)).

(** [if (found) return S_OK; else return code;] *)
Definition found_or {A} (code : StatusCode) (r : option A) : MD A :=
  match r with Some x => mret x | None => stop code end.

Definition VsetDel k (member : string) : MD () :=
  CHECK_SHARD k;;
  ok ← on_vset k (λ vs, Vset.Erase vs member);
  if ok : bool then mret () else stop S_VMEMBER_NONEXISTS.

Definition VsetDelRange k (left right : Z) : MD Z :=
  CHECK_SHARD k;;
  on_vset k (λ vs, EraseRange vs left right).

Definition VsetDelRangeByWeight k (left right : W) : MD Z :=
  CHECK_SHARD k;;
  on_vset k (λ vs, EraseRangeByWeight vs left right).

Definition VsetSize k : MD Z := read_vset k GetSize.
Definition VsetSizeByWeight k (left right : W) : MD Z := read_vset k (λ vs, GetSizeByWeight vs left right).
Definition VsetWeight k (member : string) : MD W :=
  r ← on_vset k (λ vs, GetWeight vs member); found_or S_VMEMBER_NONEXISTS r.
Definition VsetOrder k (member : string) : MD Z :=
  r ← on_vset k (λ vs, GetOrder vs member); found_or S_VMEMBER_NONEXISTS r.
Definition VsetROrder k (member : string) : MD Z :=
  r ← on_vset k (λ vs, GetROrder vs member); found_or S_VMEMBER_NONEXISTS r.
Definition VsetAll k : MD (list (KeyValue W string)) := read_vset k GetAll.
Definition VsetRange k (left right : Z) : MD (list (KeyValue W string)) := read_vset k (λ vs, GetRange vs left right).
Definition VsetRangeByWeight k (left right : W) : MD (list (KeyValue W string)) :=
  read_vset k (λ vs, GetRangeByWeight vs left right).
Definition VsetRRange k (left right : Z) : MD (list (KeyValue W string)) := read_vset k (λ vs, GetRRange vs left right).
Definition VsetRRangeByWeight k (left right : W) : MD (list (KeyValue W string)) :=
  read_vset k (λ vs, GetRRangeByWeight vs left right).

(** *** Maps *)

Definition map_Insert (m : StrMap) (kv : KeyValue string string) : option (StrMap * bool) :=
  '(m, r) ← InsertKv m (Comparator.key kv) (value kv); Some (m, bool_decide (is_Some r)).

Definition MapAdd k (kvs : list (KeyValue string string)) : MD Z :=
  CHECK_SHARD k;;
  r ← open_or_create k D_MAP (PMap HashTable_init);
  match r with
  | Some (s, p) =>
      m ← lift (as_map (MkData D_MAP (Some p)));
      '(m, count) ← lift (insert_each map_Insert m kvs 0);
      set_payload k s (PMap m);;
      mret count
  | None => stop S_EXISTS_DIFF_TYPE
  end.

(** A call on the map of [k]. *)
Definition on_map {A} k (f : StrMap → option (StrMap * A)) : MD A :=
  CHECK_EXPIRE_ROUTINE k;;
  s ← ERROR_ROUTINE_KV k D_MAP;
  m ← lift (as_map (slot_data s));
  '(m, r) ← lift (f m);
  set_payload k s (PMap m);;
  mret r.

Definition map_Find (m : StrMap) (field : string) : option (StrMap * option string) :=
  '(m, fv) ← d_find (T := KeyValue string string) m field;
  Some (m, match fv with Some e => Some (value e) | None => None end).

Definition MapGet k (field : string) : MD string :=
  r ← on_map k (λ m, map_Find m field); found_or S_FIELD_NONEXISTS r.

(** The loop of [MapGets], up to a field that is not there. *)
Fixpoint map_gets (m : StrMap) (fields : list string) : option (StrMap * option (list string)) :=
  match fields with
  | [] => Some (m, Some [])
  | field :: fields =>
      '(m, fv) ← map_Find m field;
      match fv with
      | None => Some (m, None)
      | Some v => '(m, r) ← map_gets m fields; Some (m, match r with Some vs => Some (v :: vs) | None => None end)
      end
  end.

Definition MapGets k (fields : list string) : MD (list string) :=
  r ← on_map k (λ m, map_gets m fields); found_or S_FIELD_NONEXISTS r.

Definition map_Set (m : StrMap) (field v : string) : option (StrMap * ()) :=
  '(m, success, _) ← InsertKvWithDuplicate m field v;
  if success : bool then Some (m, ()) else m ← dict_write m field v; Some (m, ()).

Definition MapSet k (field v : string) : MD () :=
  CHECK_SHARD k;;
  on_map k (λ m, map_Set m field v).

Definition MapDel k (field : string) : MD () :=
  CHECK_SHARD k;;
  n ← on_map k (λ m, dict_erase m field);
  if n =? 0 then stop S_FIELD_NONEXISTS else mret ().

Definition MapSize k : MD Z := on_map k (λ m, Some (m, hash_size m)).

Definition MapExists k (field : string) : MD () :=
  r ← on_map k (λ m, map_Find m field);
  match r with Some _ => mret () | None => stop S_FIELD_NONEXISTS end.

(** The entries in the order of the iterators of the map. *)
Definition map_entries (m : StrMap) : option (list (KeyValue string string)) :=
  HashTable.iterate (length (all_elems m)) m (HashTable.begin m).

Definition MapFields k : MD (list string) := on_map k (λ m, l ← map_entries m; Some (m, map Comparator.key l)).
Definition MapValues k : MD (list string) := on_map k (λ m, l ← map_entries m; Some (m, map value l)).
Definition MapAll k : MD (list (KeyValue string string)) := on_map k (λ m, l ← map_entries m; Some (m, l)).

(** *** Sets *)

Definition set_Insert (s : StrSet) (m : string) : option (StrSet * bool) :=
  '(s, r) ← HashTable.Insert HASH_FUNC s m; Some (s, bool_decide (is_Some r)).

Definition SetAdd k (ms : list string) : MD Z :=
  CHECK_SHARD k;;
  r ← open_or_create k D_SET (PSet HashTable_init);
  match r with
  | Some (s, p) =>
      set ← lift (as_set (MkData D_SET (Some p)));
      '(set, count) ← lift (insert_each set_Insert set ms 0);
      set_payload k s (PSet set);;
      mret count
  | None => stop S_EXISTS_DIFF_TYPE
  end.

(** A call on the set of [k]. *)
Definition on_set {A} k (f : StrSet → option (StrSet * A)) : MD A :=
  CHECK_EXPIRE_ROUTINE k;;
  s ← ERROR_ROUTINE_KV k D_SET;
  set ← lift (as_set (slot_data s));
  '(set, r) ← lift (f set);
  set_payload k s (PSet set);;
  mret r.

Definition SetDelm k (member : string) : MD () :=
  CHECK_SHARD k;;
  n ← on_set k (λ st, HashTable.Erase HASH_FUNC st member);
  if n =? 0 then stop S_SET_MEMBER_NONEXISTS else mret ().

Definition SetRandDelm k : MD () :=
  CHECK_SHARD k;;
  n ← on_set k EraseRandom;
  if n =? 0 then stop S_SET_NO_MEMBER else mret ().

Definition SetSize k : MD Z := on_set k (λ st, Some (st, hash_size st)).

Definition SetExists k (member : string) : MD () :=
  r ← on_set k (λ st, HashTable.Find HASH_FUNC st member);
  match r with Some _ => mret () | None => stop S_SET_MEMBER_NONEXISTS end.

Definition SetAll k : MD (list string) := on_set k (λ st, l ← HashSet.members st; Some (st, l)).

(** *** Operations on two sets

    [set1], [set2] and [dest_set] are pointers to the sets of their keys; when
    keys are equal they are the same set, and a lookup or an insertion during the
    loop changes the set that is iterated over. *)

(** The set of [k], through the pointer. *)
Definition set_at k : MD StrSet :=
  db ← get_state;
  s ← lift (entry_at (dict_ db) k);
  lift (as_set (slot_data s)).

(** A call on it. *)
Definition call_set {A} k (f : StrSet → option (StrSet * A)) : MD A :=
  db ← get_state;
  s ← lift (entry_at (dict_ db) k);
  set ← lift (as_set (slot_data s));
  '(set, r) ← lift (f set);
  set_payload k s (PSet set);;
  mret r.

(** [for (auto const& m : set_of_k) body(m)], with the iterator on the set as it
    is after each iteration; [acc] is what the body accumulates. *)
Fixpoint for_each {A} (fuel : nat) k (body : A → string → MD A) (it : LiveIterator (K := string)) (acc : A) : MD A :=
  match live_slot it with
  | None => mret acc
  | Some m =>
      match fuel with
      | O => fault
      | S fuel' =>
          acc ← body acc m;
          set ← set_at k;
          it ← lift (live_increment set it);
          for_each fuel' k body it acc
      end
  end.

Definition for_set {A} k (body : A → string → MD A) (acc : A) : MD A :=
  set ← set_at k;
  for_each (loop_fuel E) k body (live_of (HashTable.begin set)) acc.

(** [if (cond(set_of_k.Find(m))) cb(m)]. *)
Definition if_found {A} (cond : bool → bool) k (cb : A → string → MD A) (acc : A) (m : string) : MD A :=
  r ← call_set k (λ st, HashTable.Find HASH_FUNC st m);
  if cond (bool_decide (is_Some r)) then cb acc m else mret acc.

(** The keys of [less_set] and [more_set]. *)
Definition less_more key1 key2 : MD (string * string) :=
  set1 ← set_at key1;
  set2 ← set_at key2;
  mret (if this_is_less set1 set2 then (key1, key2) else (key2, key1)).

Definition Intersection {A} key1 key2 (cb : A → string → MD A) (acc : A) : MD A :=
  '(less, more) ← less_more key1 key2;
  for_set less (if_found id more cb) acc.

Definition Union {A} key1 key2 (cb : A → string → MD A) (acc : A) : MD A :=
  '(less, more) ← less_more key1 key2;
  acc ← for_set more cb acc;
  for_set less (if_found negb more cb) acc.

Definition Difference {A} key1 key2 (cb : A → string → MD A) (acc : A) : MD A :=
  for_set key1 (if_found negb key2 cb) acc.

(** [SET_OP_ROUTINE]. *)
Definition SET_OP_ROUTINE key1 key2 : MD () :=
  ERROR_ROUTINE_KV key1 D_SET;;
  ERROR_ROUTINE_KV key2 D_SET;;
  mret ().

(** [SET_OP_TO_ROUTINE]. *)
Definition SET_OP_TO_ROUTINE dest : MD () :=
  r ← open_or_create dest D_SET (PSet HashTable_init);
  match r with
  | Some _ => mret ()
  | None => stop S_DEST_EXISTS
  end.

Definition set_op_checks key1 key2 : MD () :=
  CHECK_EXPIRE_ROUTINE key1;;
  CHECK_EXPIRE_ROUTINE key2;;
  SET_OP_ROUTINE key1 key2.

(** The callbacks: [members.push_back(m)], [dest_set->Insert(m)], [count++]. *)
Definition push_back (ms : list string) (m : string) : MD (list string) := mret (ms ++ [m]).
Definition insert_into dest (_ : ()) (m : string) : MD () := call_set dest (λ st, set_Insert st m);; mret ().
Definition count_one (count : Z) (_ : string) : MD Z := mret (count ⊞ 1).

Definition SetAnd key1 key2 : MD (list string) := set_op_checks key1 key2;; Intersection key1 key2 push_back [].
Definition SetSub key1 key2 : MD (list string) := set_op_checks key1 key2;; Difference key1 key2 push_back [].
Definition SetOr key1 key2 : MD (list string) := set_op_checks key1 key2;; Union key1 key2 push_back [].

Definition SetAndTo key1 key2 dest : MD () :=
  CHECK_SHARD dest;; set_op_checks key1 key2;; SET_OP_TO_ROUTINE dest;; Intersection key1 key2 (insert_into dest) ().
Definition SetSubTo key1 key2 dest : MD () :=
  CHECK_SHARD dest;; set_op_checks key1 key2;; SET_OP_TO_ROUTINE dest;; Difference key1 key2 (insert_into dest) ().
Definition SetOrTo key1 key2 dest : MD () :=
  CHECK_SHARD dest;; set_op_checks key1 key2;; SET_OP_TO_ROUTINE dest;; Union key1 key2 (insert_into dest) ().

Definition SetAndSize key1 key2 : MD Z := set_op_checks key1 key2;; Intersection key1 key2 count_one 0.
Definition SetOrSize key1 key2 : MD Z := set_op_checks key1 key2;; Union key1 key2 count_one 0.
Definition SetSubSize key1 key2 : MD Z := set_op_checks key1 key2;; Difference key1 key2 count_one 0.

(** *** Expiration times *)

Definition ExpireAtMs k (expire : Z) : MD () :=
  CHECK_SHARD k;;
  if IsExpirationDisable E then stop S_EXPIRE_DISABLE else
  kv ← dict_Find k;
  match kv with
  | None => stop S_NONEXISTS
  | Some _ =>
      if now_ms E <? expire then
        '(success, duplicate) ← on_exp (λ d, '(d, ok, kv) ← InsertKvWithDuplicate d k expire; Some (d, (ok, kv)));
        if success : bool then mret () else on_exp (λ d, d ← dict_write d k expire; Some (d, ()))
      else mret ()
  end.

Definition ExpireAt k (expire : Z) : MD () := ExpireAtMs k (u64 (expire * 1000)).
Definition ExpireAfterMs k (ms interval : Z) : MD () := ExpireAtMs k (ms ⊞ interval).
Definition ExpireAfter k (ms interval : Z) : MD () := ExpireAtMs k (ms ⊞ u64 (interval * 1000)).

Definition Persist k : MD () :=
  CHECK_SHARD k;;
  kv ← dict_Find k;
  match kv with
  | None => stop S_NONEXISTS
  | Some _ => exp_Erase k
  end.

Definition exp_Find k : MD (option Z) :=
  r ← on_exp (λ d, d_find (T := KeyValue string Z) d k);
  mret (value <$> r).

Definition GetExpiration k : MD Z := exp_key ← exp_Find k; found_or S_NONEXISTS exp_key.

Definition GetTimeToLive k : MD Z :=
  exp_key ← exp_Find k;
  match exp_key with
  | None => stop S_NONEXISTS
  | Some e => mret (if e <=? now_ms E then 0 else e ⊟ now_ms E)
  end.

(** The first loop of [CheckExpireCycle]: the expired keys, whose entries are
    dropped. *)
Fixpoint expire_loop (l : list (KeyValue string Z)) : MD (list string) :=
  match l with
  | [] => mret []
  | k_exp :: l' =>
      if value k_exp <=? now_ms E then
        node ← dict_Extract (Comparator.key k_exp);
        DropNode node;;
        ks ← expire_loop l';
        mret (Comparator.key k_exp :: ks)
      else expire_loop l'
  end.

(** [for (auto& x : l) f(x)]. *)
Fixpoint each {S X} (f : X → M S ()) (l : list X) : M S () :=
  match l with [] => mret () | x :: l' => f x;; each f l' end.

Definition CheckExpireCycle : MD () :=
  db ← get_state;
  l ← lift (entries (exp_dict_ db));
  expire_keys ← expire_loop l;
  each exp_Erase expire_keys;;
  if log_request E then each (λ k, on_aux (AppendDel k)) expire_keys else mret ().

(** *** Shards *)

(** The loop of [RemoveShard]: [Delete] gets a reference to the key inside the entry;
    when it deletes the entry, it uses the key once more after that
    ([exp_dict_.Erase(k)]), which is a fault.  A key that it refuses stays. *)
Fixpoint remove_shard_loop (keys : list addr) : MD () :=
  match keys with
  | [] => mret ()
  | a :: keys' =>
      db ← get_state;
      k ← lift (deref_in (dict_ db) a);
      (λ db, '(db, r) ← Delete k db; match r with inl _ => None | inr _ => Some (db, inl ()) end);;
      remove_shard_loop keys'
  end.

Definition RemoveShard (shard_id : Z) : MD () :=
  if is_sharder E then
    shard_keys ← on_aux (sdict_Find shard_id);
    key_set ← lift shard_keys;
    keys ← lift (HashSet.members key_set);
    remove_shard_loop keys;;
    on_aux (call sdict_ with_sdict (λ d, dict_erase d shard_id));;
    mret ()
  else mret ().

Fixpoint shard_line (d : KeyDict W) (keys : list addr) : option string :=
  match keys with
  | [] => Some ""%string
  | a :: keys' => k ← deref_in d a; rest ← shard_line d keys'; Some (k +:+ " " +:+ rest)%string
  end.

Definition shard_newline : string := String.String (Ascii.ascii_of_nat 10) "".

Fixpoint shard_lines (d : KeyDict W) (shards : list (KeyValue Z ShardIdSet)) : option string :=
  match shards with
  | [] => Some ""%string
  | sk :: shards' =>
      keys ← HashSet.members (value sk);
      line ← shard_line d keys;
      rest ← shard_lines d shards';
      Some ("shard " +:+ pretty (Comparator.key sk) +:+ " :" +:+ line +:+ shard_newline +:+ rest)%string
  end.

Definition GetShardInfo : MD string :=
  db ← get_state;
  let sd := sdict_ (aux db) in
  shards ← lift (TreeHashTable.iterate (length (all_elems sd)) sd (TreeHashTable.begin sd));
  ret ← lift (shard_lines (dict_ db) shards);
  mret (ret +:+ "shard_num = " +:+ pretty (hash_size sd))%string.

Definition DistributeKeysToShard : MD () :=
  check (is_sharder E);;
  db ← get_state;
  l ← lift (entries (dict_ db));
  each (λ kv, on_aux (on_shard (MakeShardId (Comparator.key kv))
                        (λ st, HashTable.Insert HASH_FUNC st (slot_addr (value kv))));; mret ()) l.
End db.
