(* ===== verification/KvdbSpec.v ===== *)
(** * What the database promises

    A reference database: finite maps from keys to values and to expiration
    times, values being strings, sequences, finite maps and finite sets, and each
    API call a few lines on those maps.  [KvdbRefine] shows that the database
    with its hash tables, trees and linked lists answers as this one does.

    The replacement policy, the shard index and the log are those of the
    database itself: they only hold addresses of keys.  Sorted sets are the
    [Vset]s of the database, whose contract is in [Vset].  So the reference is
    independent of the database for strings, lists, maps, sets and deadlines, and
    says nothing new of the others. *)

From S2P Require Import Prelude Comparator AvlTree Dict HashTableBase HashTable TreeHashTable HashSet Dictionary.
From S2P Require Import Blist Cache Vset Kvdb.

(** A value; a set comes with the number of members that were removed without
    being counted out of its size. *)
Inductive AVal (W : Type) :=
  | AStr (s : string)
  | AList (l : list string)
  | AVset (v : Vset W)
  | AMap (m : gmap string string)
  | ASet (s : gset string) (uncounted : Z).
Arguments AStr {W}.
Arguments AList {W}.
Arguments AVset {W}.
Arguments AMap {W}.
Arguments ASet {W}.

Definition val_type {W} (v : AVal W) : DataType :=
  match v with
  | AStr _ => D_STRING | AList _ => D_STRLIST | AVset _ => D_SORTED_SET | AMap _ => D_MAP | ASet _ _ => D_SET
  end.

(** Keys to values, with the address of each key; keys to expiration times; the
    number of entries erased without being counted out of the size; the next
    address. *)
Record ADb (W C : Type) := MkADb {
  a_dict : gmap string (addr * AVal W);
  a_exp : gmap string Z;
  a_aux : Aux C;
  a_uncounted : Z;
  a_next : addr;
}.
Arguments MkADb {W C}.
Arguments a_dict {W C}.
Arguments a_exp {W C}.
Arguments a_aux {W C}.
Arguments a_uncounted {W C}.
Arguments a_next {W C}.

Section spec.
Context {W C : Type} `{Comparator W} `{!CacheInterface C addr}
  `{HS : !HashFunc string} `{HA : !HashFunc addr} `{HZ : !HashFunc Z}.
Context (E : Env).
Implicit Types (k : string) (a : ADb W C) (v : AVal W) (e : addr * AVal W).
Abbreviation MR := (M (ADb W C)).

Definition set_a_dict a (m : gmap string (addr * AVal W)) : ADb W C := MkADb m (a_exp a) (a_aux a) (a_uncounted a) (a_next a).
Definition set_a_exp a (m : gmap string Z) : ADb W C := MkADb (a_dict a) m (a_aux a) (a_uncounted a) (a_next a).
Definition set_a_aux a (x : Aux C) : ADb W C := MkADb (a_dict a) (a_exp a) x (a_uncounted a) (a_next a).

Definition r_aux {A} : M (Aux C) A → MR A := zoom a_aux set_a_aux.
Definition r_lookup k : MR (option (addr * AVal W)) := a ← get_state; mret (a_dict a !! k).
Definition r_put k e : MR () := a ← get_state; put_state (set_a_dict a (<[k := e]> (a_dict a))).
Definition r_remove k : MR () := a ← get_state; put_state (set_a_dict a (delete k (a_dict a))).
Definition r_exp_lookup k : MR (option Z) := a ← get_state; mret (a_exp a !! k).
Definition r_exp_put k (t : Z) : MR () := a ← get_state; put_state (set_a_exp a (<[k := t]> (a_exp a))).
Definition r_uncounted : MR () :=
  a ← get_state; put_state (MkADb (a_dict a) (a_exp a) (a_aux a) (a_uncounted a + 1) (a_next a)).
Definition r_exp_remove k : MR () := a ← get_state; put_state (set_a_exp a (delete k (a_exp a))).

(** An entry that is past its time goes, together with the time; it is a fault
    when there is a time but no entry. *)
Definition r_expire k : MR (bool * string) :=
  a ← get_state;
  match a_exp a !! k with
  | Some t =>
      if lazy_expiration E && (t <=? now_ms E) then
        check (bool_decide (is_Some (a_dict a !! k)));;
        r_exp_remove k;;
        r_remove k;;
        if log_request E then r_aux (AppendDel k);; mret (true, moved_from E k) else mret (true, k)
      else mret (false, k)
  | None => mret (false, k)
  end.

Definition r_not_expired k : MR () := '(b, _) ← r_expire k; if b : bool then stop S_NONEXISTS else mret ().

(** The entry of [k], which must have type [t]. *)
Definition r_typed k (t : DataType) : MR (addr * AVal W) :=
  r ← r_lookup k;
  match r with
  | None => stop S_NONEXISTS
  | Some e => if bool_decide (val_type e.2 = t) then mret e else stop S_EXISTS_DIFF_TYPE
  end.

Definition r_shard k : MR () := r_aux (CHECK_SHARD_IS_LOCKED_KEY E k).

(** A new address. *)
Definition r_new : MR addr :=
  a ← get_state;
  put_state (MkADb (a_dict a) (a_exp a) (a_aux a) (a_uncounted a) (Pos.succ (a_next a)));;
  mret (a_next a).

(** A new entry. *)
Definition r_create k v : MR addr :=
  x ← r_new;
  r_put k (x, v);;
  r_aux (CacheAdd x);;
  r_aux (AddKeyToShard E x k);;
  mret x.

(** The key at an address. *)
Definition a_deref (m : gmap string (addr * AVal W)) (x : addr) : option string :=
  fst <$> head (filter (λ ke, ke.2.1 = x) (map_to_list m)).

(** Eviction, when memory is short. *)
Definition r_replace (pkey : option (addr * string)) : MR () :=
  a ← get_state;
  match cache_ (a_aux a) with
  | None => mret ()
  | Some c =>
      if memory_usage E <? max_memory_usage E then mret () else
      '(x, k) ← lift pkey;
      locked ← r_aux (IsShardLocked (MakeShardId k));
      if locked : bool then mret () else
      victim ← lift (Victim c);
      match victim with
      | None => mret ()
      | Some y =>
          if bool_decide (y = x) then mret () else
          vk ← lift (a_deref (a_dict a) y);
          r_remove vk;;
          c ← lift (DelVictim c);
          r_aux (x ← get_state; put_state (with_cache x (Some c)));;
          (if log_request E then r_aux (AppendDel vk) else mret ())
      end
  end.

(** ** The calls *)

Inductive cmd :=
  | CIsEmpty | CGetAllKeys | CType (k : string) | CDelete (k : string) | CDeleteAll | CRename (k k' : string)
  | CInsertStr (k v : string) | CEraseStr (k : string) | CGetStr (k : string) | CStrAppend (k v : string)
  | CStrPopBack (k : string) (count : Z) | CSetStr (k v : string)
  | CListAdd (k : string) (es : list string) | CListAppend (k : string) (es : list string)
  | CListPrepend (k : string) (es : list string) | CListGetSize (k : string) | CListGetAll (k : string)
  | CListGetRange (k : string) (l r : Z) | CListPopFront (k : string) (count : Z) | CListPopBack (k : string) (count : Z)
  | CListDel (k : string)
  | CVsetAdd (k : string) (wms : list (KeyValue W string)) | CVsetDel (k m : string)
  | CVsetDelRange (k : string) (l r : Z) | CVsetDelRangeByWeight (k : string) (l r : W) | CVsetSize (k : string)
  | CVsetSizeByWeight (k : string) (l r : W) | CVsetWeight (k m : string) | CVsetOrder (k m : string)
  | CVsetROrder (k m : string) | CVsetAll (k : string) | CVsetRange (k : string) (l r : Z)
  | CVsetRangeByWeight (k : string) (l r : W) | CVsetRRange (k : string) (l r : Z)
  | CVsetRRangeByWeight (k : string) (l r : W)
  | CMapAdd (k : string) (kvs : list (KeyValue string string)) | CMapGet (k f : string)
  | CMapGets (k : string) (fs : list string) | CMapSet (k f v : string) | CMapDel (k f : string) | CMapSize (k : string)
  | CMapExists (k f : string) | CMapFields (k : string) | CMapValues (k : string) | CMapAll (k : string)
  | CSetAdd (k : string) (ms : list string) | CSetDelm (k m : string) | CSetSize (k : string) | CSetExists (k m : string)
  | CSetAll (k : string)
  | CExpireAtMs (k : string) (t : Z) | CExpireAt (k : string) (t : Z) | CExpireAfterMs (k : string) (ms i : Z)
  | CExpireAfter (k : string) (ms i : Z) | CPersist (k : string) | CGetExpiration (k : string)
  | CGetTimeToLive (k : string)
  | CLockShard (i : Z) | CUnlockShard (i : Z) | CUnlockAllShard | CAddShard (i : Z) | CHasShard (i : Z)
  | CGetShardKeys (i : Z).

(** The output parameters of a call that returned [S_OK].  [OBag] and [OPairBag]
    are lists in the order of a hash table. *)
Inductive out :=
  | ODone
  | OBool (b : bool)
  | OType (t : option DataType)
  | ONum (n : Z)
  | OString (s : string)
  | OList (l : list string)
  | OBag (l : list string)
  | OPairBag (l : list (KeyValue string string))
  | OWeight (w : W)
  | OWeights (l : list (KeyValue W string))
  | OShardKeys (c : ShardCode) (l : list addr).

(** Equal up to the order of a hash table. *)
Inductive out_rel : out → out → Prop :=
  | out_rel_eq o : out_rel o o
  | out_rel_bag l l' : l ≡ₚ l' → out_rel (OBag l) (OBag l')
  | out_rel_pairs l l' : l ≡ₚ l' → out_rel (OPairBag l) (OPairBag l').

#[export] Instance out_rel_equivalence : Equivalence out_rel.
Proof.
  split.
  - intros o. constructor.
  - intros o o' []; constructor; by symmetry.
  - intros o1 o2 o3 H12 H23. inversion H12; inversion H23; simplify_eq; constructor; by etrans.
Qed.

(** *** The database *)

(** The call of a function that returns [S_OK] or an error. *)
Definition ok_ {S A} (f : A → out) (m : M S A) : M S out := x ← m; mret (f x).
Definition done {S A} (m : M S A) : M S out := m;; mret ODone.

Definition run_cmd (c : cmd) : M (MmkvDb W C) out :=
  match c with
  | CIsEmpty => ok_ OBool IsEmpty
  | CGetAllKeys => ok_ OBag GetAllKeys
  | CType k => ok_ OType (Type_ E k)
  | CDelete k => done (Delete E k)
  | CDeleteAll => ok_ ONum (DeleteAll E)
  | CRename k k' => done (Rename E k k')
  | CInsertStr k v => done (InsertStr E k v)
  | CEraseStr k => done (EraseStr E k)
  | CGetStr k => ok_ (λ x, OString x.2) (GetStr E k)
  | CStrAppend k v => done (StrAppend E k v)
  | CStrPopBack k n => done (StrPopBack E k n)
  | CSetStr k v => done (SetStr E k v)
  | CListAdd k es => done (ListAdd E k es)
  | CListAppend k es => done (ListAppend E k es)
  | CListPrepend k es => done (ListPrepend E k es)
  | CListGetSize k => ok_ ONum (ListGetSize E k)
  | CListGetAll k => ok_ OList (ListGetAll E k)
  | CListGetRange k l r => ok_ OList (ListGetRange E k l r)
  | CListPopFront k n => done (ListPopFront E k n)
  | CListPopBack k n => done (ListPopBack E k n)
  | CListDel k => done (ListDel E k)
  | CVsetAdd k wms => ok_ ONum (VsetAdd E k wms)
  | CVsetDel k m => done (VsetDel E k m)
  | CVsetDelRange k l r => ok_ ONum (VsetDelRange E k l r)
  | CVsetDelRangeByWeight k l r => ok_ ONum (VsetDelRangeByWeight E k l r)
  | CVsetSize k => ok_ ONum (VsetSize E k)
  | CVsetSizeByWeight k l r => ok_ ONum (VsetSizeByWeight E k l r)
  | CVsetWeight k m => ok_ OWeight (VsetWeight E k m)
  | CVsetOrder k m => ok_ ONum (VsetOrder E k m)
  | CVsetROrder k m => ok_ ONum (VsetROrder E k m)
  | CVsetAll k => ok_ OWeights (VsetAll E k)
  | CVsetRange k l r => ok_ OWeights (VsetRange E k l r)
  | CVsetRangeByWeight k l r => ok_ OWeights (VsetRangeByWeight E k l r)
  | CVsetRRange k l r => ok_ OWeights (VsetRRange E k l r)
  | CVsetRRangeByWeight k l r => ok_ OWeights (VsetRRangeByWeight E k l r)
  | CMapAdd k kvs => ok_ ONum (MapAdd E k kvs)
  | CMapGet k f => ok_ OString (MapGet E k f)
  | CMapGets k fs => ok_ OList (MapGets E k fs)
  | CMapSet k f v => done (MapSet E k f v)
  | CMapDel k f => done (MapDel E k f)
  | CMapSize k => ok_ ONum (MapSize E k)
  | CMapExists k f => done (MapExists E k f)
  | CMapFields k => ok_ OBag (MapFields E k)
  | CMapValues k => ok_ OBag (MapValues E k)
  | CMapAll k => ok_ OPairBag (MapAll E k)
  | CSetAdd k ms => ok_ ONum (SetAdd E k ms)
  | CSetDelm k m => done (SetDelm E k m)
  | CSetSize k => ok_ ONum (SetSize E k)
  | CSetExists k m => done (SetExists E k m)
  | CSetAll k => ok_ OBag (SetAll E k)
  | CExpireAtMs k t => done (ExpireAtMs E k t)
  | CExpireAt k t => done (ExpireAt E k t)
  | CExpireAfterMs k ms i => done (ExpireAfterMs E k ms i)
  | CExpireAfter k ms i => done (ExpireAfter E k ms i)
  | CPersist k => done (Persist E k)
  | CGetExpiration k => ok_ ONum (GetExpiration k)
  | CGetTimeToLive k => ok_ ONum (GetTimeToLive E k)
  | CLockShard i => done (on_aux (LockShard i))
  | CUnlockShard i => done (on_aux (UnlockShard i))
  | CUnlockAllShard => done (on_aux UnlockAllShard)
  | CAddShard i => done (on_aux (AddShard E i))
  | CHasShard i => ok_ OBool (on_aux (HasShard i))
  | CGetShardKeys i => ok_ (λ x, OShardKeys x.1 x.2) (on_aux (GetShardKeys E i))
  end.

(** *** The reference *)

(** The elements [l, r) of a sequence; [S_INVALID_RANGE] when there is no element
    [l] or the range is turned around.  A range nearer to the end than to the
    beginning comes out backwards and one element too far to the right, and one
    that reaches the end never does. *)
Definition ref_range (s : list string) (l r : Z) : option (list string + StatusCode) :=
  let n := Z.of_nat (length s) in
  let l := if l <? 0 then n + l else l in
  let r := if r <? 0 then n + r + 1 else r in
  if (l <? 0) || (n <=? l) || (r <? l) then Some (inr S_INVALID_RANGE) else
  let slice i j := take (Z.to_nat (j - i)) (drop (Z.to_nat i) s) in
  if (n <? r) || (l <=? n - r) then Some (inl (slice l (Z.min r n)))
  else if r =? n then None
  else Some (inl (rev (slice (l + 1) (r + 1)))).

(** The value of [k], replaced by what [f] makes of it. *)
Definition r_on {A} k (t : DataType) (f : AVal W → option (AVal W * A)) : MR A :=
  r_not_expired k;;
  e ← r_typed k t;
  '(v, x) ← lift (f e.2);
  r_put k (e.1, v);;
  mret x.

Definition on_str {A} (f : string → option (string * A)) v : option (AVal W * A) :=
  match v with AStr s => '(s, x) ← f s; Some (AStr s, x) | _ => None end.
Definition on_list {A} (f : list string → option (list string * A)) v : option (AVal W * A) :=
  match v with AList l => '(l, x) ← f l; Some (AList l, x) | _ => None end.
Definition on_vs {A} (f : Vset W → option (Vset W * A)) v : option (AVal W * A) :=
  match v with AVset s => '(s, x) ← f s; Some (AVset s, x) | _ => None end.
Definition on_kvs {A} (f : gmap string string → gmap string string * A) v : option (AVal W * A) :=
  match v with AMap m => let '(m, x) := f m in Some (AMap m, x) | _ => None end.
Definition on_mset {A} (f : gset string → gset string * A) v : option (AVal W * A) :=
  match v with ASet s n => let '(s, x) := f s in Some (ASet s n, x) | _ => None end.

(** The value of [k] changed by [f], made from [fresh] when there is none. *)
Definition r_open {A} k (fresh : AVal W) (f : AVal W → option (AVal W * A)) : MR A :=
  r ← r_lookup k;
  match r with
  | None => x ← r_create k fresh; '(v, y) ← lift (f fresh); r_put k (x, v);; mret y
  | Some e =>
      if bool_decide (val_type e.2 = val_type fresh) then '(v, y) ← lift (f e.2); r_put k (e.1, v);; mret y
      else stop S_EXISTS_DIFF_TYPE
  end.

(** [S_OK], or an error when there is nothing. *)
Definition r_or {A} (c : StatusCode) (r : option A) : MR A := match r with Some x => mret x | None => stop c end.

(** An entry of type [t] goes; it is a fault when there is no entry. *)
Definition r_erase (t : DataType) (with_exp : bool) k : MR () :=
  r_shard k;;
  r ← r_lookup k;
  e ← lift r;
  if bool_decide (val_type e.2 = t) then
    r_aux (CacheRemove e.1);;
    r_aux (RemoveKeyFromShard E e.1 k);;
    r_remove k;;
    r_uncounted;;
    if with_exp then r_exp_remove k else mret ()
  else stop S_EXISTS_DIFF_TYPE.

Definition r_expire_at k (t : Z) : MR () :=
  r_shard k;;
  if IsExpirationDisable E then stop S_EXPIRE_DISABLE else
  r ← r_lookup k;
  match r with
  | None => stop S_NONEXISTS
  | Some _ => if now_ms E <? t then r_exp_put k t else mret ()
  end.

(** The members that are new, one after the other. *)
Definition add_pairs (m : gmap string string) (kvs : list (KeyValue string string)) : gmap string string :=
  foldl (λ m kv, match m !! Comparator.key kv with Some _ => m | None => <[Comparator.key kv := value kv]> m end) m kvs.

Definition pairs_of (m : gmap string string) : list (KeyValue string string) :=
  map (λ kv, MkKeyValue kv.1 kv.2) (map_to_list m).

Definition drop_back (n : nat) (l : list string) : list string := take (length l - n) l.

Definition ref_cmd (c : cmd) : MR out :=
  match c with
  | CIsEmpty => a ← get_state; mret (OBool (bool_decide (Z.of_nat (size (a_dict a)) + a_uncounted a = 0)))
  | CGetAllKeys => a ← get_state; mret (OBag (map_to_list (a_dict a)).*1)
  | CType k =>
      '(b, _) ← r_expire k;
      if b : bool then mret (OType None) else
      r ← r_lookup k;
      match r with
      | None => mret (OType None)
      | Some e => r_aux (CacheUpdate e.1);; mret (OType (Some (val_type e.2)))
      end
  | CDelete k =>
      r_shard k;;
      r ← r_lookup k;
      e ← r_or S_NONEXISTS r;
      r_remove k;;
      r_aux (RemoveKeyFromShard E e.1 k);;
      r_aux (CacheRemove e.1);;
      r_exp_remove k;;
      mret ODone
  | CDeleteAll =>
      r_aux (CHECK_HAS_SHARD_LOCKED_KEY E);;
      a ← get_state;
      put_state (MkADb ∅ ∅ (a_aux a) 0 (a_next a));;
      r_aux CacheClear;;
      r_aux DeleteAllShard;;
      mret (ONum (Z.of_nat (size (a_dict a)) + a_uncounted a))
  | CRename k k' =>
      r_shard k;;
      r_not_expired k;;
      r' ← r_lookup k';
      match r' with
      | Some _ => stop S_EXISTS
      | None =>
          r ← r_lookup k;
          e ← r_or S_NONEXISTS r;
          r_remove k;;
          r_replace (Some (e.1, k));;
          r_put k' e;;
          r_aux (CacheUpdate e.1);;
          mret ODone
      end
  | CInsertStr k v =>
      r_shard k;;
      r_replace None;;
      r ← r_lookup k;
      match r with
      | Some _ => stop S_EXISTS
      | None => r_create k (AStr v);; mret ODone
      end
  | CEraseStr k => done (r_erase D_STRING false k)
  | CGetStr k =>
      r_not_expired k;;
      e ← r_typed k D_STRING;
      r_aux (CacheUpdate e.1);;
      '(_, s) ← lift (on_str (λ s, Some (s, s)) e.2);
      mret (OString s)
  | CStrAppend k v =>
      r_shard k;;
      r_not_expired k;;
      e ← r_typed k D_STRING;
      r_aux (CacheUpdate e.1);;
      '(w, _) ← lift (on_str (λ s, Some (s +:+ v, ())) e.2);
      r_put k (e.1, w);;
      r_replace None;;
      mret ODone
  | CStrPopBack k n =>
      r_shard k;;
      r_not_expired k;;
      e ← r_typed k D_STRING;
      r_aux (CacheUpdate e.1);;
      '(w, _) ← lift (on_str (λ s, let len := Z.of_nat (String.length s) in
                                   if n <=? len then Some (String.substring 0 (Z.to_nat (len - n)) s, ()) else None) e.2);
      r_put k (e.1, w);;
      mret ODone
  | CSetStr k v =>
      r_shard k;;
      r_not_expired k;;
      r ← r_lookup k;
      match r with
      | None => r_create k (AStr v);; r_replace None;; mret ODone
      | Some e =>
          if bool_decide (val_type e.2 = D_STRING) then
            r_put k (e.1, AStr v);; r_aux (CacheUpdate e.1);; r_replace None;; mret ODone
          else stop S_EXISTS_DIFF_TYPE
      end
  | CListAdd k es =>
      r_shard k;;
      r ← r_lookup k;
      match r with
      | Some _ => stop S_EXISTS
      | None => r_create k (AList es);; mret ODone
      end
  | CListAppend k es =>
      r_shard k;;
      '(_, k) ← r_expire k;
      done (r_open k (AList []) (on_list (λ l, Some (l ++ es, ()))))
  | CListPrepend k es => r_shard k;; done (r_on k D_STRLIST (on_list (λ l, Some (rev es ++ l, ()))))
  | CListGetSize k => ok_ ONum (r_on k D_STRLIST (on_list (λ l, Some (l, Z.of_nat (length l)))))
  | CListGetAll k => ok_ OList (r_on k D_STRLIST (on_list (λ l, Some (l, l))))
  | CListGetRange k i j =>
      x ← r_on k D_STRLIST (on_list (λ l, x ← ref_range l i j; Some (l, x)));
      match x with inl l => mret (OList l) | inr c => stop c end
  | CListPopFront k n => r_shard k;; done (r_on k D_STRLIST (on_list (λ l, Some (drop (Z.to_nat n) l, ()))))
  | CListPopBack k n => r_shard k;; done (r_on k D_STRLIST (on_list (λ l, Some (drop_back (Z.to_nat n) l, ()))))
  | CListDel k => done (r_erase D_STRLIST true k)
  | CVsetAdd k wms =>
      r_shard k;;
      ok_ ONum (r_open k (AVset vset_init)
        (on_vs (λ vs, insert_each (λ vs wm, Vset.Insert vs (Comparator.key wm) (value wm)) vs wms 0)))
  | CVsetDel k m =>
      r_shard k;;
      ok ← r_on k D_SORTED_SET (on_vs (λ vs, Vset.Erase vs m));
      if ok : bool then mret ODone else stop S_VMEMBER_NONEXISTS
  | CVsetDelRange k l r => r_shard k;; ok_ ONum (r_on k D_SORTED_SET (on_vs (λ vs, EraseRange vs l r)))
  | CVsetDelRangeByWeight k l r => r_shard k;; ok_ ONum (r_on k D_SORTED_SET (on_vs (λ vs, EraseRangeByWeight vs l r)))
  | CVsetSize k => ok_ ONum (r_on k D_SORTED_SET (on_vs (λ vs, x ← GetSize vs; Some (vs, x))))
  | CVsetSizeByWeight k l r => ok_ ONum (r_on k D_SORTED_SET (on_vs (λ vs, x ← GetSizeByWeight vs l r; Some (vs, x))))
  | CVsetWeight k m => x ← r_on k D_SORTED_SET (on_vs (λ vs, GetWeight vs m)); ok_ OWeight (r_or S_VMEMBER_NONEXISTS x)
  | CVsetOrder k m => x ← r_on k D_SORTED_SET (on_vs (λ vs, GetOrder vs m)); ok_ ONum (r_or S_VMEMBER_NONEXISTS x)
  | CVsetROrder k m => x ← r_on k D_SORTED_SET (on_vs (λ vs, GetROrder vs m)); ok_ ONum (r_or S_VMEMBER_NONEXISTS x)
  | CVsetAll k => ok_ OWeights (r_on k D_SORTED_SET (on_vs (λ vs, x ← GetAll vs; Some (vs, x))))
  | CVsetRange k l r => ok_ OWeights (r_on k D_SORTED_SET (on_vs (λ vs, x ← GetRange vs l r; Some (vs, x))))
  | CVsetRangeByWeight k l r => ok_ OWeights (r_on k D_SORTED_SET (on_vs (λ vs, x ← GetRangeByWeight vs l r; Some (vs, x))))
  | CVsetRRange k l r => ok_ OWeights (r_on k D_SORTED_SET (on_vs (λ vs, x ← GetRRange vs l r; Some (vs, x))))
  | CVsetRRangeByWeight k l r => ok_ OWeights (r_on k D_SORTED_SET (on_vs (λ vs, x ← GetRRangeByWeight vs l r; Some (vs, x))))
  | CMapAdd k kvs =>
      r_shard k;;
      ok_ ONum (r_open k (AMap ∅)
        (on_kvs (λ m, let m' := add_pairs m kvs in (m', Z.of_nat (size m') - Z.of_nat (size m)))))
  | CMapGet k f => x ← r_on k D_MAP (on_kvs (λ m, (m, m !! f))); ok_ OString (r_or S_FIELD_NONEXISTS x)
  | CMapGets k fs => x ← r_on k D_MAP (on_kvs (λ m, (m, mapM (m !!.) fs))); ok_ OList (r_or S_FIELD_NONEXISTS x)
  | CMapSet k f v => r_shard k;; done (r_on k D_MAP (on_kvs (λ m, (<[f := v]> m, ()))))
  | CMapDel k f =>
      r_shard k;;
      x ← r_on k D_MAP (on_kvs (λ m, (delete f m, m !! f)));
      done (r_or S_FIELD_NONEXISTS x)
  | CMapSize k => ok_ ONum (r_on k D_MAP (on_kvs (λ m, (m, Z.of_nat (size m)))))
  | CMapExists k f => x ← r_on k D_MAP (on_kvs (λ m, (m, m !! f))); done (r_or S_FIELD_NONEXISTS x)
  | CMapFields k => ok_ OBag (r_on k D_MAP (on_kvs (λ m, (m, (map_to_list m).*1))))
  | CMapValues k => ok_ OBag (r_on k D_MAP (on_kvs (λ m, (m, (map_to_list m).*2))))
  | CMapAll k => ok_ OPairBag (r_on k D_MAP (on_kvs (λ m, (m, pairs_of m))))
  | CSetAdd k ms =>
      r_shard k;;
      ok_ ONum (r_open k (ASet ∅ 0)
        (on_mset (λ s, let s' := s ∪ list_to_set ms in (s', Z.of_nat (size s') - Z.of_nat (size s)))))
  | CSetDelm k m =>
      r_shard k;;
      x ← r_on k D_SET (on_mset (λ s, (s ∖ {[m]}, bool_decide (m ∈ s))));
      if x : bool then mret ODone else stop S_SET_MEMBER_NONEXISTS
  | CSetSize k => ok_ ONum (r_on k D_SET (λ v, match v with ASet s n => Some (v, Z.of_nat (size s) + n) | _ => None end))
  | CSetExists k m =>
      x ← r_on k D_SET (on_mset (λ s, (s, bool_decide (m ∈ s))));
      if x : bool then mret ODone else stop S_SET_MEMBER_NONEXISTS
  | CSetAll k => ok_ OBag (r_on k D_SET (on_mset (λ s, (s, elements s))))
  | CExpireAtMs k t => done (r_expire_at k t)
  | CExpireAt k t => done (r_expire_at k (u64 (t * 1000)))
  | CExpireAfterMs k ms i => done (r_expire_at k (ms ⊞ i))
  | CExpireAfter k ms i => done (r_expire_at k (ms ⊞ u64 (i * 1000)))
  | CPersist k => r_shard k;; r ← r_lookup k; r_or S_NONEXISTS r;; r_exp_remove k;; mret ODone
  | CGetExpiration k => t ← r_exp_lookup k; ok_ ONum (r_or S_NONEXISTS t)
  | CGetTimeToLive k => t ← r_exp_lookup k; ok_ (λ t, ONum (if t <=? now_ms E then 0 else t ⊟ now_ms E)) (r_or S_NONEXISTS t)
  | CLockShard i => done (r_aux (LockShard i))
  | CUnlockShard i => done (r_aux (UnlockShard i))
  | CUnlockAllShard => done (r_aux UnlockAllShard)
  | CAddShard i => done (r_aux (AddShard E i))
  | CHasShard i => ok_ OBool (r_aux (HasShard i))
  | CGetShardKeys i => ok_ (λ x, OShardKeys x.1 x.2) (r_aux (GetShardKeys E i))
  end.

(** The keys are strings the trees can tell apart (without NUL), the numbers fit
    their types, and the sizes of the arguments. *)
Definition key_ok (k : string) : Prop := exact_key k.

Definition cmd_ok (c : cmd) : Prop :=
  match c with
  | CIsEmpty | CGetAllKeys | CDeleteAll | CLockShard _ | CUnlockShard _ | CUnlockAllShard | CAddShard _ | CHasShard _
  | CGetShardKeys _ => True
  | CRename k k' => key_ok k ∧ key_ok k'
  | CListGetRange k l r => key_ok k ∧ - 2 ^ 63 ≤ l < 2 ^ 63 ∧ - 2 ^ 63 ≤ r < 2 ^ 63
  | CStrPopBack k n => key_ok k ∧ 0 ≤ n < 2 ^ 64
  | CListPopFront k n | CListPopBack k n => key_ok k ∧ 0 ≤ n < 2 ^ 32
  | CType k | CDelete k | CInsertStr k _ | CEraseStr k | CGetStr k | CStrAppend k _ | CSetStr k _ | CListAdd k _
  | CListAppend k _ | CListPrepend k _ | CListGetSize k | CListGetAll k | CListDel k | CVsetAdd k _ | CVsetDel k _
  | CVsetDelRange k _ _ | CVsetDelRangeByWeight k _ _ | CVsetSize k | CVsetSizeByWeight k _ _ | CVsetWeight k _
  | CVsetOrder k _ | CVsetROrder k _ | CVsetAll k | CVsetRange k _ _ | CVsetRangeByWeight k _ _ | CVsetRRange k _ _
  | CVsetRRangeByWeight k _ _ | CMapAdd k _ | CMapGet k _ | CMapGets k _ | CMapSet k _ _ | CMapDel k _ | CMapSize k
  | CMapExists k _ | CMapFields k | CMapValues k | CMapAll k | CSetAdd k _ | CSetDelm k _ | CSetSize k
  | CSetExists k _ | CSetAll k | CExpireAtMs k _ | CExpireAt k _ | CExpireAfterMs k _ _ | CExpireAfter k _ _ | CPersist k
  | CGetExpiration k | CGetTimeToLive k => key_ok k
  end.

(** How much a call can add to the number of entries, or of elements of a value. *)
Definition cmd_cost (c : cmd) : Z :=
  1 + match c with
      | CInsertStr _ v | CSetStr _ v | CStrAppend _ v => Z.of_nat (String.length v)
      | CListAdd _ es | CListAppend _ es | CListPrepend _ es | CSetAdd _ es => Z.of_nat (length es)
      | CMapAdd _ kvs => Z.of_nat (length kvs)
      | _ => 0
      end.

End spec.
Arguments cmd : clear implicits.
Arguments out : clear implicits.

(** ** Histories *)

Section histories.
Context {W C : Type} `{Comparator W} `{!CacheInterface C addr}
  `{HS : !HashFunc string} `{HA : !HashFunc addr} `{HZ : !HashFunc Z}.

(** Calls one after the other, each with the configuration, the clock and the
    memory it sees: what each returned. *)
Fixpoint db_run (db : MmkvDb W C) (cs : list (Env * cmd W)) : option (MmkvDb W C * list (out W + StatusCode)) :=
  match cs with
  | [] => Some (db, [])
  | (E, c) :: cs' => '(db, r) ← run_cmd E c db; '(db, rs) ← db_run db cs'; Some (db, r :: rs)
  end.

Fixpoint ref_run (a : ADb W C) (cs : list (Env * cmd W)) : option (ADb W C * list (out W + StatusCode)) :=
  match cs with
  | [] => Some (a, [])
  | (E, c) :: cs' => '(a, r) ← ref_cmd E c a; '(a, rs) ← ref_run a cs'; Some (a, r :: rs)
  end.

Definition ref_new (cache : option C) : ADb W C :=
  MkADb ∅ ∅ (MkAux cache TreeHashTable_init HashTable_init false []) 0 1%positive.

(** What a moved-from key holds is a key again. *)
Definition env_ok (E : Env) : Prop := ∀ k, key_ok (moved_from E k).

Definition history_cost (cs : list (Env * cmd W)) : Z := foldr (λ ec n, cmd_cost ec.2 + n) 0 cs.
End histories.
