(* ===== verification/KvdbValues.v ===== *)
(** * The values of the database and their reference

    When an object of the database (a linked list, a hash table) stands for a
    value of the reference (a sequence, a finite map, a finite set), and what the
    operations of the database on objects do to the value. *)

From S2P Require Import Prelude Comparator AvlTree Dict HashTableBase HashTable HashSet Dictionary Blist Vset Kvdb KvdbSpec.

Section relation.
Context {W : Type} `{HS : !HashFunc string}.
Implicit Types (n : Z) (p : Payload W) (v : AVal W).

Definition list_rel n (sl : StrList) (l : list string) : Prop :=
  ∃ ns, blist_rep (str_nodes sl) (str_lst sl) ns ∧ owns ∅ (str_nodes sl) ns ∧ ns.*2 = l ∧ Z.of_nat (length l) ≤ n.

Definition set_rel n (s : StrSet) (g : gset string) (uncounted : Z) : Prop :=
  ∃ dr, d_wfx (T := string) dr s ∧ @drift dr = uncounted ∧ set_of s = g ∧ Z.of_nat (size g) + uncounted ≤ n.

Definition payload_rel n p v : Prop :=
  match p, v with
  | PString s, AStr s' => s = s' ∧ Z.of_nat (String.length s) ≤ n
  | PStrList sl, AList l => list_rel n sl l
  | PVset x, AVset y => x = y
  | PMap m, AMap g => dict_is 0 n m ∧ kv_view m = g
  | PSet s, ASet g u => set_rel n s g u
  | _, _ => False
  end.

Lemma list_rel_mono n n' sl l : list_rel n sl l → n ≤ n' → list_rel n' sl l.
Proof. intros (ns & ? & ? & ? & ?) ?. exists ns. split_ands; [done..|lia]. Qed.

Lemma payload_rel_mono n n' p v : payload_rel n p v → n ≤ n' → payload_rel n' p v.
Proof.
  destruct p, v; simpl; try done.
  - intros [? ?] ?. split; [done|lia].
  - by apply list_rel_mono.
  - intros [? ?] ?. split; [|done]. by eapply dict_is_weaken.
  - intros (dr & ? & ? & ? & ?) ?. exists dr. split_ands; [done..|lia].
Qed.

End relation.

(** ** Lists *)

Section nodes.
Context {T : Type}.
Implicit Types (h : gmap loc (BNode T)) (b : Blist) (ns : list (loc * T)).

(** The node at an index. *)
Definition loc_at ns (i : nat) : option loc := fst <$> ns !! i.

Lemma chain_at h p ns nx i l v :
  chain h p ns nx → ns !! i = Some (l, v) →
  h !! l = Some (MkBNode v (match i with O => p | S j => loc_at ns j end)
                   (match ns !! S i with Some (l', _) => Some l' | None => nx end)).
Proof.
  revert p i. induction ns as [|[l0 v0] ns IH]; intros p i; [done|]. cbn [chain]. intros [H1 H2] Hi.
  destruct i as [|i]; cbn in Hi |- *.
  - injection Hi as -> ->. rewrite H1. by destruct ns as [|[]].
  - specialize (IH (Some l0) i H2 Hi). rewrite IH. by destruct i.
Qed.

Lemma rep_at h b ns i l v :
  blist_rep h b ns → ns !! i = Some (l, v) →
  get_val h (Some l) = Some v ∧ get_next h (Some l) = Some (loc_at ns (S i))
  ∧ get_prev h (Some l) = Some (match i with O => last_loc ns | S j => loc_at ns j end).
Proof.
  intros (_ & _ & _ & _ & Hc) Hi. pose proof (chain_at _ _ _ _ _ _ _ Hc Hi) as Hl.
  unfold get_val, get_next, get_prev, loc_at. cbn [mbind option_bind]. rewrite Hl. cbn [mbind option_bind node_val next prev].
  split_ands; [done| |done]. by destruct (ns !! S i) as [[]|].
Qed.

Lemma last_loc_at ns : last_loc ns = loc_at ns (pred (length ns)).
Proof. unfold last_loc, loc_at. by rewrite last_lookup. Qed.
End nodes.

Section lists.
Implicit Types (n : Z) (sl : StrList) (l : list string).

Lemma list_rel_size n sl l : list_rel n sl l → sl_size sl = Z.of_nat (length l).
Proof. intros (ns & (_ & _ & Hc & _) & _ & <- & _). unfold sl_size. by rewrite Hc, length_fmap. Qed.

Lemma list_rel_init n : 0 ≤ n → list_rel n StrList_init [].
Proof.
  intros Hn. exists []. split_ands; [|split; set_solver|done|done]. unfold blist_rep. split_ands; by try constructor.
Qed.

(** One call of the list. *)
Lemma list_rel_step n sl l o :
  list_rel n sl l → n < max_elems →
  ∃ h b r, blist_step (str_nodes sl) (str_lst sl) o = Some (h, b, r) ∧ r = snd (seq_step l o)
    ∧ list_rel (n + 1) (MkStrList h b) (fst (seq_step l o)).
Proof.
  intros (ns & Hr & Ho & <- & Hn) Hm. rewrite length_fmap in Hn. unfold max_elems in Hm.
  destruct (blist_step_spec ∅ _ _ ns o Hr Ho ltac:(lia)) as (h & b & ns' & r & Hs & Hq & Hr' & Ho' & Hl).
  exists h, b, r. rewrite Hq. split_ands; [done..|]. exists ns'. split_ands; [done..|]. cbn [fst]. rewrite length_fmap. lia.
Qed.

Lemma PushBack_rel n sl l v :
  list_rel n sl l → n < max_elems → ∃ sl', sl_PushBack sl v = Some sl' ∧ list_rel (n + 1) sl' (l ++ [v]).
Proof.
  intros Hl Hn. destruct (list_rel_step n sl l (OpPushBack v) Hl Hn) as (h & b & r & Hs & _ & Hr).
  exists (MkStrList h b). split; [|done]. unfold sl_PushBack. cbn [blist_step] in Hs.
  destruct (EmplaceBack _ _ v) as [[h' b']|]; [|done]. by injection Hs as -> -> _.
Qed.

Lemma PushFront_rel n sl l v :
  list_rel n sl l → n < max_elems → ∃ sl', sl_PushFront sl v = Some sl' ∧ list_rel (n + 1) sl' (v :: l).
Proof.
  intros Hl Hn. destruct (list_rel_step n sl l (OpPushFront v) Hl Hn) as (h & b & r & Hs & _ & Hr).
  exists (MkStrList h b). split; [|done]. unfold sl_PushFront. cbn [blist_step] in Hs.
  destruct (EmplaceFront _ _ v) as [[h' b']|]; [|done]. by injection Hs as -> -> _.
Qed.

Lemma PopFront_rel n sl x l :
  list_rel n sl (x :: l) → n < max_elems → ∃ sl', sl_PopFront sl = Some sl' ∧ list_rel n sl' l.
Proof.
  intros Hl Hn. destruct (list_rel_step n sl (x :: l) OpPopFront Hl Hn) as (h & b & r & Hs & _ & Hr).
  exists (MkStrList h b). split; [unfold sl_PopFront; cbn [blist_step] in Hs; by rewrite Hs|].
  destruct Hr as (ns & ? & ? & Hns & _), Hl as (_ & _ & _ & _ & Hb). exists ns. cbn in Hns, Hb.
  split_ands; [done..|]. lia.
Qed.

Lemma PopBack_rel n sl x l :
  list_rel n sl (l ++ [x]) → n < max_elems → ∃ sl', sl_PopBack sl = Some sl' ∧ list_rel n sl' l.
Proof.
  intros Hl Hn. destruct (list_rel_step n sl (l ++ [x]) OpPopBack Hl Hn) as (h & b & r & Hs & _ & Hr).
  exists (MkStrList h b). split; [unfold sl_PopBack; cbn [blist_step] in Hs; by rewrite Hs|].
  assert (fst (seq_step (l ++ [x]) OpPopBack) = l) as Hsq.
  { cbn. destruct (l ++ [x]) eqn:Hlx; [by destruct l|]. cbn [fst]. rewrite <-Hlx. apply removelast_last. }
  rewrite Hsq in Hr. destruct Hr as (ns & ? & ? & Hns & _), Hl as (_ & _ & _ & _ & Hb). exists ns.
  rewrite length_app in Hb. split_ands; [done..|]. lia.
Qed.

Lemma push_back_each n sl l es :
  list_rel n sl l → n + Z.of_nat (length es) ≤ max_elems →
  ∃ sl', push_each sl_PushBack sl es = Some sl' ∧ list_rel (n + Z.of_nat (length es)) sl' (l ++ es).
Proof.
  revert n sl l. induction es as [|e es IH]; intros n sl l Hl Hm; cbn [push_each length] in *.
  - exists sl. rewrite app_nil_r. split; [done|]. eapply list_rel_mono; [done|lia].
  - destruct (PushBack_rel n sl l e Hl ltac:(lia)) as (sl1 & -> & Hl1). cbn [mbind option_bind].
    destruct (IH (n + 1) sl1 _ Hl1 ltac:(lia)) as (sl2 & -> & Hl2). exists sl2. split; [done|].
    rewrite <-app_assoc in Hl2. eapply list_rel_mono; [exact Hl2|lia].
Qed.

Lemma push_front_each n sl l es :
  list_rel n sl l → n + Z.of_nat (length es) ≤ max_elems →
  ∃ sl', push_each sl_PushFront sl es = Some sl' ∧ list_rel (n + Z.of_nat (length es)) sl' (rev es ++ l).
Proof.
  revert n sl l. induction es as [|e es IH]; intros n sl l Hl Hm; cbn [push_each length rev] in *.
  - exists sl. split; [done|]. eapply list_rel_mono; [done|lia].
  - destruct (PushFront_rel n sl l e Hl ltac:(lia)) as (sl1 & -> & Hl1). cbn [mbind option_bind].
    destruct (IH (n + 1) sl1 _ Hl1 ltac:(lia)) as (sl2 & -> & Hl2). exists sl2. split; [done|].
    rewrite <-app_assoc. eapply list_rel_mono; [exact Hl2|lia].
Qed.

Lemma pop_front_each n sl l i :
  list_rel n sl l → n < max_elems → (i ≤ length l)%nat →
  ∃ sl', repeat_pop sl_PopFront i sl = Some sl' ∧ list_rel n sl' (drop i l).
Proof.
  revert sl l. induction i as [|i IH]; intros sl l Hl Hm Hi; cbn [repeat_pop]; [by exists sl|].
  destruct l as [|x l]; [simpl in Hi; lia|]. destruct (PopFront_rel n sl x l Hl Hm) as (sl1 & -> & Hl1).
  cbn [mbind option_bind]. apply IH; [done|done|]. simpl in Hi. lia.
Qed.

Lemma pop_back_each n sl l i :
  list_rel n sl l → n < max_elems → (i ≤ length l)%nat →
  ∃ sl', repeat_pop sl_PopBack i sl = Some sl' ∧ list_rel n sl' (take (length l - i) l).
Proof.
  revert sl l. induction i as [|i IH]; intros sl l Hl Hm Hi; cbn [repeat_pop].
  - exists sl. split; [done|]. rewrite Nat.sub_0_r. by rewrite firstn_all.
  - destruct l as [|x l _] using rev_ind; [simpl in Hi; lia|]. rewrite length_app in *. cbn [length] in *.
    destruct (PopBack_rel n sl x l Hl Hm) as (sl1 & -> & Hl1). cbn [mbind option_bind].
    destruct (IH sl1 l Hl1 Hm ltac:(lia)) as (sl2 & -> & Hl2). exists sl2. split; [done|].
    replace (length l + 1 - S i)%nat with (length l - i)%nat by lia. rewrite take_app_le by lia. done.
Qed.

(** *** Reading *)

Section reading.
Context (sl : StrList) (ns : list (loc * string)) (Hr : blist_rep (str_nodes sl) (str_lst sl) ns).

Lemma loc_at_Some i : (i < length ns)%nat → ∃ x v, ns !! i = Some (x, v) ∧ loc_at ns i = Some x ∧ ns.*2 !! i = Some v.
Proof.
  intros Hi. destruct (lookup_lt_is_Some_2 ns i Hi) as [[l v] Hl]. exists l, v. unfold loc_at.
  by rewrite list_lookup_fmap, Hl.
Qed.

Lemma sl_forward_at i j : (i + j ≤ length ns)%nat → sl_forward j sl (loc_at ns i) = Some (loc_at ns (i + j)).
Proof.
  revert i. induction j as [|j IH]; intros i Hi; cbn [sl_forward]; [by rewrite Nat.add_0_r|].
  destruct (loc_at_Some i ltac:(lia)) as (l & v & Hl & -> & _). destruct (rep_at _ _ _ _ _ _ Hr Hl) as (_ & -> & _).
  cbn [mbind option_bind]. rewrite IH by lia. do 2 f_equal. lia.
Qed.

Lemma sl_read_forward_at i j :
  (i + j ≤ length ns)%nat → sl_read_forward j sl (loc_at ns i) = Some (take j (drop i ns.*2)).
Proof.
  revert i. induction j as [|j IH]; intros i Hi; cbn [sl_read_forward]; [by rewrite take_0|].
  destruct (loc_at_Some i ltac:(lia)) as (l & v & Hl & -> & Hv). destruct (rep_at _ _ _ _ _ _ Hr Hl) as (-> & -> & _).
  cbn [mbind option_bind]. rewrite IH by lia. cbn [mbind option_bind]. by rewrite (drop_S _ _ _ Hv).
Qed.

Lemma sl_backward_at i j : (j ≤ i < length ns)%nat → sl_backward j sl (loc_at ns i) = Some (loc_at ns (i - j)).
Proof.
  revert i. induction j as [|j IH]; intros i Hi; cbn [sl_backward]; [by rewrite Nat.sub_0_r|].
  destruct (loc_at_Some i ltac:(lia)) as (l & v & Hl & -> & _). destruct (rep_at _ _ _ _ _ _ Hr Hl) as (_ & _ & ->).
  destruct i as [|i]; [lia|]. cbn [mbind option_bind]. rewrite IH by lia. done.
Qed.

Lemma sl_read_backward_at i j :
  (j ≤ S i)%nat → (i < length ns)%nat →
  sl_read_backward j sl (loc_at ns i) = Some (rev (take j (drop (S i - j) ns.*2))).
Proof.
  revert i. induction j as [|j IH]; intros i Hj Hi; cbn [sl_read_backward]; [by rewrite take_0|].
  destruct (loc_at_Some i Hi) as (l & v & Hl & -> & Hv). destruct (rep_at _ _ _ _ _ _ Hr Hl) as (-> & _ & ->).
  cbn [mbind option_bind].
  assert (take (S j) (drop (S i - S j) ns.*2) = take j (drop (i - j) ns.*2) ++ [v]) as ->.
  { change (S i - S j)%nat with (i - j)%nat. apply take_S_r. rewrite lookup_drop. by replace (i - j + j)%nat with i by lia. }
  rewrite rev_app_distr. cbn [rev app]. destruct i as [|i].
  - assert (j = 0)%nat as -> by lia. done.
  - rewrite IH by lia. cbn [mbind option_bind]. done.
Qed.
End reading.

Lemma list_rel_all n sl l :
  list_rel n sl l → sl_read_forward (Z.to_nat (sl_size sl)) sl (header_ (str_lst sl)) = Some l.
Proof.
  intros Hl. rewrite (list_rel_size n sl l Hl), Nat2Z.id. destruct Hl as (ns & Hr & _ & <- & _).
  pose proof Hr as (_ & -> & _). rewrite length_fmap.
  replace (head_loc ns) with (loc_at ns 0) by (by destruct ns).
  rewrite (sl_read_forward_at sl ns Hr 0) by lia. f_equal. rewrite drop_0, <-(length_fmap snd). apply firstn_all.
Qed.

(** [ListGetRange] reads what the reference says, on every branch. *)
Lemma range_rel n sl l i j :
  list_rel n sl l → n ≤ max_elems → - 2 ^ 63 ≤ i < 2 ^ 63 → - 2 ^ 63 ≤ j < 2 ^ 63 → sl_range sl i j = ref_range l i j.
Proof.
  intros Hl Hn Hi Hj. unfold sl_range, ref_range. rewrite (list_rel_size n sl l Hl).
  destruct Hl as (ns & Hr & _ & <- & Hlen). set (m := Z.of_nat (length ns.*2)) in *.
  assert (0 ≤ m ≤ 2 ^ 61) as Hm by (unfold m, max_elems in *; lia).
  assert (length ns = Z.to_nat m) as Hnl by (unfold m; rewrite length_fmap; lia).
  assert ((if i <? 0 then i64 (m ⊞ i) else i) = (if i <? 0 then m + i else i)) as ->.
  { destruct (Z.ltb_spec i 0); [|done]. unfold u64, i64. destruct (Z.le_gt_cases 0 (m + i)).
    - rewrite (Z.mod_small (m + i)) by lia. rewrite Z.mod_small by lia. lia.
    - replace ((m + i) mod 2 ^ 64) with (m + i + 2 ^ 64) by (apply Z.mod_unique with (-1); lia).
      replace ((m + i + 2 ^ 64 + 2 ^ 63) mod 2 ^ 64) with (m + i + 2 ^ 63) by (apply Z.mod_unique with 1; lia). lia. }
  assert ((if j <? 0 then i64 (m ⊞ j ⊞ 1) else j) = (if j <? 0 then m + j + 1 else j)) as ->.
  { destruct (Z.ltb_spec j 0); [|done]. rewrite u64_succ_mod. unfold u64, i64. destruct (Z.le_gt_cases 0 (m + j + 1)).
    - rewrite (Z.mod_small (m + j + 1)) by lia. rewrite Z.mod_small by lia. lia.
    - replace ((m + j + 1) mod 2 ^ 64) with (m + j + 1 + 2 ^ 64) by (apply Z.mod_unique with (-1); lia).
      replace ((m + j + 1 + 2 ^ 64 + 2 ^ 63) mod 2 ^ 64) with (m + j + 1 + 2 ^ 63) by (apply Z.mod_unique with 1; lia). lia. }
  set (a := if i <? 0 then m + i else i). set (b := if j <? 0 then m + j + 1 else j).
  assert (- 2 ^ 63 ≤ a < 2 ^ 63) as Ha by (unfold a; destruct (Z.ltb_spec i 0); lia).
  assert (- 2 ^ 63 ≤ b < 2 ^ 63) as Hb by (unfold b; destruct (Z.ltb_spec j 0); lia). clearbody a b.
  assert ((m <=? u64 a) = (a <? 0) || (m <=? a)) as ->.
  { destruct (Z.ltb_spec a 0); cbn [orb]; [|by rewrite u64_small by lia].
    apply Z.leb_le. unfold u64. replace (a mod 2 ^ 64) with (a + 2 ^ 64) by (apply Z.mod_unique with (-1); lia). lia. }
  destruct (Z.ltb_spec a 0); [done|]. destruct (Z.leb_spec m a); [done|]. destruct (Z.ltb_spec b a); [done|]. cbn [orb].
  rewrite (u64_small a), (u64_small b) by lia.
  assert ((if b <? m then b else m) = Z.min b m) as -> by (destruct (Z.ltb_spec b m); lia).
  rewrite (u64_small (Z.min b m - a)) by lia.
  destruct (Z.ltb_spec m b) as [Hmb|Hmb]; cbn [orb].
  - assert (m ⊟ b = m - b + 2 ^ 64) as -> by (symmetry; apply Z.mod_unique with (-1); lia).
    destruct (Z.leb_spec a (m - b + 2 ^ 64)); [|lia]. pose proof Hr as (_ & -> & _).
    replace (head_loc ns) with (loc_at ns 0) by (by destruct ns).
    rewrite (sl_forward_at sl ns Hr) by lia. cbn [mbind option_bind].
    rewrite (sl_read_forward_at sl ns Hr) by lia. done.
  - rewrite (u64_small (m - b)) by lia. destruct (Z.leb_spec a (m - b)).
    + pose proof Hr as (_ & -> & _). replace (head_loc ns) with (loc_at ns 0) by (by destruct ns).
      rewrite (sl_forward_at sl ns Hr) by lia. cbn [mbind option_bind].
      rewrite (sl_read_forward_at sl ns Hr) by lia. done.
    + destruct (Z.eqb_spec (m - b) 0), (Z.eqb_spec b m); try lia; [done|].
      pose proof Hr as (_ & -> & _). destruct (loc_at_Some ns 0) as (x & v & Hx & _ & _); [lia|].
      replace (head_loc ns) with (Some x) by (destruct ns as [|[]]; [done|by injection Hx as -> ->]).
      destruct (rep_at _ _ _ _ _ _ Hr Hx) as (_ & _ & ->). cbn [mbind option_bind]. rewrite last_loc_at.
      rewrite (sl_backward_at sl ns Hr) by lia. cbn [mbind option_bind].
      rewrite (sl_read_backward_at sl ns Hr) by lia. cbn [mbind option_bind]. do 4 f_equal; [lia|]. f_equal. lia.
Qed.
End lists.

(** ** Maps *)

Section maps.
Context `{HS : !HashFunc string}.
Implicit Types (n : Z) (m : StrMap) (g : gmap string string).

Definition map_rel n m g : Prop := dict_is 0 n m ∧ kv_view m = g.

Lemma map_key_ok (k : string) : d_key_ok (DictLaws := HashTable_laws (T := KeyValue string string)) k.
Proof. done. Qed.

Lemma map_find_rel n m g f : map_rel n m g → ∃ m', map_Find m f = Some (m', g !! f) ∧ map_rel n m' g.
Proof.
  intros [Hd Hg]. destruct (find_is _ _ _ f Hd (map_key_ok f)) as (m' & Hf & Hd' & Hv). exists m'.
  unfold map_Find. rewrite Hf. cbn [mbind option_bind]. rewrite Hg. split; [by destruct (g !! f)|]. split; [done|congruence].
Qed.

Lemma map_gets_rel n m g fs : map_rel n m g → ∃ m', map_gets m fs = Some (m', mapM (g !!.) fs) ∧ map_rel n m' g.
Proof.
  revert m. induction fs as [|f fs IH]; intros m Hm; cbn [map_gets mapM]; [by exists m|].
  destruct (map_find_rel n m g f Hm) as (m1 & -> & Hm1). cbn [mbind option_bind].
  destruct (g !! f) as [v|]; cbn [mbind option_bind]; [|by exists m1].
  destruct (IH m1 Hm1) as (m2 & -> & Hm2). cbn [mbind option_bind]. exists m2. split; [|done]. by destruct (mapM (g !!.) fs).
Qed.

Lemma map_set_rel n m g f v :
  map_rel n m g → n < max_elems → ∃ m', map_Set m f v = Some (m', ()) ∧ map_rel (n + 1) m' (<[f := v]> g).
Proof.
  intros [Hd Hg] Hn. destruct (insert_is _ _ _ f v Hd Hn (map_key_ok f)) as (m1 & Hd1 & Hi). rewrite Hg in Hi.
  unfold map_Set. destruct (g !! f) as [w|] eqn:Hl; destruct Hi as [-> Hv]; cbn [mbind option_bind].
  - destruct (write_is _ _ m1 f v w Hd1) as (m2 & -> & Hd2 & Hv2); [by rewrite Hv|]. cbn [mbind option_bind].
    exists m2. split; [done|]. split; [done|]. by rewrite Hv2, Hv.
  - exists m1. by repeat split.
Qed.

Lemma map_erase_rel n m g f :
  map_rel n m g →
  ∃ m', dict_erase m f = Some (m', if decide (is_Some (g !! f)) then 1 else 0) ∧ map_rel n m' (delete f g).
Proof.
  intros [Hd Hg]. destruct (erase_is _ _ _ f Hd (map_key_ok f)) as (m' & He & Hd' & Hv). exists m'. rewrite Hg in *.
  by repeat split.
Qed.

Lemma map_insert_rel n m g f v :
  map_rel n m g → n < max_elems →
  ∃ m', match g !! f with
        | Some _ => map_Insert m (MkKeyValue f v) = Some (m', false) ∧ map_rel (n + 1) m' g
        | None => map_Insert m (MkKeyValue f v) = Some (m', true) ∧ map_rel (n + 1) m' (<[f := v]> g)
        end.
Proof.
  intros [Hd Hg] Hn. destruct (insert_kv_is _ _ _ f v Hd Hn (map_key_ok f)) as (m1 & Hd1 & Hi). rewrite Hg in Hi.
  exists m1. unfold map_Insert. cbn [Comparator.key value]. by destruct (g !! f); destruct Hi as [-> Hv].
Qed.

Lemma map_add_rel n m g kvs count :
  map_rel n m g → n + Z.of_nat (length kvs) ≤ max_elems → 0 ≤ count → count + Z.of_nat (length kvs) < 2 ^ 64 →
  ∃ m', insert_each map_Insert m kvs count = Some (m', count + (Z.of_nat (size (add_pairs g kvs)) - Z.of_nat (size g)))
    ∧ map_rel (n + Z.of_nat (length kvs)) m' (add_pairs g kvs).
Proof.
  revert n m g count. induction kvs as [|[f v] kvs IH]; intros n m g count Hm Hn Hc Hlen;
    cbn [insert_each length add_pairs foldl] in *.
  - exists m. split; [do 2 f_equal; lia|]. destruct Hm. split; [|done]. eapply dict_is_weaken; [done|lia].
  - destruct (map_insert_rel n m g f v Hm ltac:(lia)) as (m1 & Hi). cbn [Comparator.key value].
    replace (n + Z.of_nat (S (length kvs))) with (n + 1 + Z.of_nat (length kvs)) by lia.
    destruct (g !! f) as [w|] eqn:Hl; destruct Hi as [-> Hm1]; cbn [mbind option_bind].
    + destruct (IH (n + 1) m1 g count) as (m2 & He & Hm2); [done|lia|lia|lia|]. by exists m2.
    + rewrite u64_small by lia.
      destruct (IH (n + 1) m1 (<[f := v]> g) (count + 1)) as (m2 & He & Hm2); [done|lia|lia|lia|].
      exists m2. split; [|done]. rewrite He. do 2 f_equal. rewrite map_size_insert_None by done. unfold add_pairs. lia.
Qed.

(** The iterators visit the entries in some order. *)
Lemma map_entries_rel n m g :
  map_rel n m g → ∃ l, map_entries m = Some l ∧ l ≡ₚ pairs_of g.
Proof.
  intros [(dr & Hwf & _ & _) Hg]. pose proof Hwf as [Hw _]. pose proof Hw as (Hs & [Hnd _] & _).
  exists (all_elems m). unfold map_entries.
  pose proof (hash_shape_sizes TO_GK HASH_FUNC any m Hs) as Hsz. destruct (begin_spec m Hsz) as [Hok Hr].
  split; [rewrite <-Hr; by apply iterate_spec|].
  assert (map (λ kv : KeyValue string string, (Comparator.key kv, value kv)) (all_elems m) ≡ₚ map_to_list g) as Hp.
  { rewrite <-Hg. unfold kv_view. change (d_view m) with (kmap TO_GK (all_elems m)). unfold kmap.
    rewrite <-list_to_map_fmap. rewrite map_to_list_to_map.
    - rewrite map_map. done.
    - rewrite <-list_fmap_compose. rewrite map_map in *. done. }
  unfold pairs_of. rewrite <-Hp, map_map. cbn [fst snd].
  rewrite (map_ext _ id) by (by intros []). by rewrite map_id.
Qed.
End maps.

(** ** Sets *)

Section sets.
Context `{HS : !HashFunc string}.
Implicit Types (n u : Z) (s : StrSet) (g : gset string) (m : string).

Abbreviation sview s := (d_view (K := string) (T := string) s).

Lemma set_lookup dr s m : d_wfx (T := string) dr s → sview s !! m = if decide (m ∈ set_of s) then Some m else None.
Proof.
  intros Hw. unfold set_of. change (hash_view TO_GK s) with (sview s). case_decide as Hm.
  - apply elem_of_dom in Hm as [x Hx]. rewrite Hx. by destruct (d_view_keyx dr s m x Hw Hx) as [<- _].
  - by apply not_elem_of_dom in Hm.
Qed.

Lemma set_size s : size (sview s) = size (set_of s).
Proof. unfold set_of. by rewrite size_dom. Qed.

Lemma set_init_rel n : 0 ≤ n → set_rel n HashTable_init ∅ 0.
Proof.
  intros Hn. destruct (d_init_law (D := StrSet) (T := string)) as [Hw Hv]. exists no_drift. split_ands; [exact Hw|done| |].
  - unfold set_of. change (hash_view TO_GK HashTable_init) with (sview (d_init (D := StrSet) (T := string))).
    by rewrite Hv, dom_empty_L.
  - rewrite size_empty. lia.
Qed.

Lemma set_find_rel n s g u m :
  set_rel n s g u →
  ∃ s', HashTable.Find HASH_FUNC s m = Some (s', if decide (m ∈ g) then Some m else None) ∧ set_rel n s' g u.
Proof.
  intros (dr & Hw & <- & <- & Hn). destruct (d_find_lawx dr s m Hw I) as (s' & Hf & Hw' & Hv). exists s'.
  rewrite (set_lookup dr s m Hw) in Hf. split; [done|]. exists dr. split_ands; try done.
  unfold set_of. change (hash_view TO_GK s') with (sview s'). by rewrite Hv.
Qed.

Lemma set_insert_rel n s g u m :
  set_rel n s g u → n < max_elems →
  ∃ s', set_Insert s m = Some (s', bool_decide (m ∉ g)) ∧ set_rel (n + 1) s' (g ∪ {[m]}) u.
Proof.
  intros (dr & Hw & <- & <- & Hn) Hm. destruct (d_insert_lawx dr s m Hw) as (s' & ok & dup & Hi & Hw' & He);
    [rewrite set_size; lia|done|]. exists s'. unfold set_Insert, HashTable.Insert.
  change (HashTable.InsertWithDuplicate HASH_FUNC s m = Some (s', ok, dup)) in Hi. rewrite Hi. cbn [mbind option_bind].
  change (TO_GK m) with m in He. rewrite (set_lookup dr s m Hw) in He.
  assert (set_of s' = dom (sview s')) as Hs' by done. destruct (decide (m ∈ set_of s)) as [Hin|Hin].
  - destruct He as (-> & _ & Hv). rewrite !bool_decide_eq_false_2 by naive_solver. split; [done|].
    replace (set_of s ∪ {[m]}) with (set_of s) by set_solver.
    exists dr. split_ands; [done|done| |lia]. by rewrite Hs', Hv.
  - destruct He as (-> & _ & Hv). rewrite !bool_decide_eq_true_2 by naive_solver. split; [done|].
    exists dr. split_ands; [done|done| |].
    + rewrite Hs', Hv, dom_insert_L. change (dom (sview s)) with (set_of s). set_solver.
    + rewrite size_union, size_singleton by set_solver. lia.
Qed.

Lemma set_erase_rel n s g u m :
  set_rel n s g u →
  ∃ s', HashTable.Erase HASH_FUNC s m = Some (s', if decide (m ∈ g) then 1 else 0) ∧ set_rel n s' (g ∖ {[m]}) u.
Proof.
  intros (dr & Hw & <- & <- & Hn). destruct (d_extract_lawx dr s m Hw I) as (s' & Hx & Hw' & Hv). exists s'.
  unfold HashTable.Erase. change (HashTable.Extract HASH_FUNC s m = Some (s', sview s !! m)) in Hx. rewrite Hx.
  cbn [mbind option_bind]. rewrite (set_lookup dr s m Hw). split; [by case_decide|]. exists dr. split_ands; [done|done| |].
  - unfold set_of at 1. change (hash_view TO_GK s') with (sview s'). by rewrite Hv, dom_delete_L.
  - pose proof (subseteq_size (set_of s ∖ {[m]}) (set_of s) ltac:(set_solver)). lia.
Qed.

Lemma set_add_rel n s g u ms count :
  set_rel n s g u → n + Z.of_nat (length ms) ≤ max_elems → 0 ≤ count → count + Z.of_nat (length ms) < 2 ^ 64 →
  ∃ s', insert_each set_Insert s ms count
      = Some (s', count + (Z.of_nat (size (g ∪ list_to_set ms)) - Z.of_nat (size g)))
    ∧ set_rel (n + Z.of_nat (length ms)) s' (g ∪ list_to_set ms) u.
Proof.
  revert n s g count. induction ms as [|m ms IH]; intros n s g count Hs Hn Hc Hlen; cbn [insert_each length list_to_set] in *.
  - rewrite union_empty_r_L. exists s. split; [do 2 f_equal; lia|]. destruct Hs as (dr & ? & ? & ? & ?). exists dr.
    split_ands; [done..|lia].
  - destruct (set_insert_rel n s g u m Hs ltac:(lia)) as (s1 & -> & Hs1). cbn [mbind option_bind].
    replace (n + Z.of_nat (S (length ms))) with (n + 1 + Z.of_nat (length ms)) by lia.
    replace (g ∪ ({[m]} ∪ list_to_set ms)) with (g ∪ {[m]} ∪ list_to_set ms) by set_solver.
    rewrite (u64_small (count + 1)) by lia.
    destruct (IH (n + 1) s1 _ (if bool_decide (m ∉ g) then count + 1 else count) Hs1) as (s2 & -> & Hs2);
      [lia|case_bool_decide; lia|case_bool_decide; lia|].
    exists s2. split; [|done]. do 2 f_equal. case_bool_decide as Hm.
    + rewrite (size_union g {[m]}), size_singleton by set_solver. lia.
    + replace (g ∪ {[m]}) with g by set_solver. lia.
Qed.

Lemma set_members_rel n s g u : set_rel n s g u → ∃ l, HashSet.members s = Some l ∧ l ≡ₚ elements g.
Proof.
  intros (dr & Hw & _ & <- & _). exists (all_elems s). split; [by apply (members_spec (dr := dr))|].
  apply NoDup_Permutation; [by apply (set_of_nodup (dr := dr))|apply NoDup_elements|].
  intros x. by rewrite elem_of_elements, set_of_elems.
Qed.

Lemma set_size_rel n s g u : set_rel n s g u → n ≤ max_elems → hash_size s = Z.of_nat (size g) + u.
Proof.
  intros (dr & Hw & <- & <- & Hn) Hm. pose proof (d_size_lawx dr s Hw) as Hs. change (d_size s) with (hash_size s) in Hs.
  rewrite Hs, set_size. apply u64_small. pose proof (@drift_nonneg dr). unfold max_elems in Hm. lia.
Qed.
End sets.
