(* ===== verification/KvdbRefine.v ===== *)
(** * The database refines its reference

    [db_rel n db a]: the database [db] stands for the reference database [a],
    with room for growth from [n] to [max_elems].  [sim] is the simulation of one
    computation by another; the calls are simulated one by one, from simulations
    of the pieces they are made of. *)

From S2P Require Import Prelude Comparator AvlUtil AvlTree Dict HashTableBase HashTable TreeHashTable HashSet.
From S2P Require Import Dictionary Blist Cache Vset Kvdb KvdbSpec KvdbValues.

Section relation.
Context {W C : Type} `{HS : !HashFunc string}.
Implicit Types (n : Z) (p : Payload W) (v : AVal W) (e : addr * AVal W) (db : MmkvDb W C) (a : ADb W C).

(** An entry: it has an object, and that of the type its tag says. *)
Definition slot_rel n (s : Slot W) e : Prop :=
  slot_addr s = e.1 ∧ ∃ p, slot_data s = MkData (val_type e.2) (Some p) ∧ payload_rel n p e.2.

Definition dict_rel n (m : gmap string (Slot W)) (g : gmap string (addr * AVal W)) : Prop :=
  ∀ k, option_Forall2 (slot_rel n) (m !! k) (g !! k).

(** No two entries have one address, and the next address is new. *)
Definition addrs_ok (g : gmap string (addr * AVal W)) (next : addr) : Prop :=
  (∀ k k' e e', g !! k = Some e → g !! k' = Some e' → e.1 = e'.1 → k = k') ∧
  (∀ k e, g !! k = Some e → (e.1 < next)%positive).

Definition db_rel n db a : Prop :=
  dict_is (a_uncounted a) n (dict_ db) ∧ dict_rel n (kv_view (dict_ db)) (a_dict a)
  ∧ (∃ u, dict_is u n (exp_dict_ db)) ∧ kv_view (exp_dict_ db) = a_exp a
  ∧ aux db = a_aux a ∧ next_addr db = a_next a ∧ addrs_ok (a_dict a) (a_next a).

(** *** Growth *)

Lemma slot_rel_mono n n' s e : slot_rel n s e → n ≤ n' → slot_rel n' s e.
Proof. intros (? & p & ? & ?) ?. split; [done|]. exists p. split; [done|]. by eapply payload_rel_mono. Qed.

Lemma dict_rel_mono n n' m g : dict_rel n m g → n ≤ n' → dict_rel n' m g.
Proof. intros Hd Hn k. destruct (Hd k); constructor. by eapply slot_rel_mono. Qed.

Lemma db_rel_mono n n' db a : db_rel n db a → n ≤ n' → db_rel n' db a.
Proof.
  intros (? & ? & [u ?] & ? & ? & ? & ?) ?. unfold db_rel. split_ands; try done.
  - by eapply dict_is_weaken.
  - by eapply dict_rel_mono.
  - exists u. by eapply dict_is_weaken.
Qed.

(** *** Entries *)

Lemma dict_rel_insert n m g k s e : dict_rel n m g → slot_rel n s e → dict_rel n (<[k := s]> m) (<[k := e]> g).
Proof.
  intros Hd Hs k'. destruct (decide (k = k')) as [->|].
  - rewrite !lookup_insert_eq. by constructor.
  - rewrite !lookup_insert_ne by done. apply Hd.
Qed.

Lemma dict_rel_delete n m g k : dict_rel n m g → dict_rel n (delete k m) (delete k g).
Proof.
  intros Hd k'. destruct (decide (k = k')) as [->|].
  - rewrite !lookup_delete_eq. constructor.
  - rewrite !lookup_delete_ne by done. apply Hd.
Qed.

Lemma dict_rel_None n m g k : dict_rel n m g → m !! k = None ↔ g !! k = None.
Proof. intros Hd. specialize (Hd k). inversion Hd; naive_solver. Qed.

Lemma dict_rel_Some n m g k e : dict_rel n m g → g !! k = Some e → ∃ s, m !! k = Some s ∧ slot_rel n s e.
Proof. intros Hd Hk. specialize (Hd k). rewrite Hk in Hd. inversion Hd; simplify_eq. eauto. Qed.

Lemma dict_rel_Some_l n m g k s : dict_rel n m g → m !! k = Some s → ∃ e, g !! k = Some e ∧ slot_rel n s e.
Proof. intros Hd Hk. specialize (Hd k). rewrite Hk in Hd. inversion Hd; simplify_eq. eauto. Qed.

Lemma dict_rel_dom n m g : dict_rel n m g → dom m = dom g.
Proof.
  intros Hd. apply set_eq. intros k. rewrite !elem_of_dom. destruct (Hd k); [by split; eauto|]. by split; intros [].
Qed.

Lemma dict_rel_size n m g : dict_rel n m g → size m = size g.
Proof. intros Hd%dict_rel_dom. by rewrite <-!size_dom, Hd. Qed.

Lemma addrs_ok_delete g next k : addrs_ok g next → addrs_ok (delete k g) next.
Proof. intros [Hi Hn]. split; intros *; rewrite !lookup_delete_Some; naive_solver. Qed.

Lemma addrs_ok_set g next k e e' : addrs_ok g next → g !! k = Some e → e'.1 = e.1 → addrs_ok (<[k := e']> g) next.
Proof.
  intros [Hi Hn] Hk He. split.
  - intros k1 k2 e1 e2 H1 H2 Heq. apply lookup_insert_Some in H1, H2.
    destruct H1 as [[<- <-]|[? H1]], H2 as [[<- <-]|[? H2]]; [done| | |by eapply Hi].
    + eapply Hi; [exact Hk|exact H2|congruence].
    + eapply Hi; [exact H1|exact Hk|congruence].
  - intros k1 e1 H1. apply lookup_insert_Some in H1 as [[<- <-]|[? H1]]; [|by eapply Hn]. rewrite He. by eapply Hn.
Qed.

Lemma addrs_ok_new g next k v : addrs_ok g next → addrs_ok (<[k := (next, v)]> g) (Pos.succ next).
Proof.
  intros [Hi Hn]. split.
  - intros k1 k2 e1 e2 H1 H2 Heq. apply lookup_insert_Some in H1, H2.
    destruct H1 as [[<- <-]|[? H1]], H2 as [[<- <-]|[? H2]]; [done| | |by eapply Hi].
    + apply Hn in H2. simpl in Heq. lia.
    + apply Hn in H1. simpl in Heq. lia.
  - intros k1 e1 H1. apply lookup_insert_Some in H1 as [[<- <-]|[? H1]]; [simpl; lia|]. apply Hn in H1. lia.
Qed.

(** An entry moved to a new key. *)
Lemma addrs_ok_move g next k k' e : addrs_ok g next → g !! k = Some e → addrs_ok (<[k' := e]> (delete k g)) next.
Proof.
  intros [Hi Hn] Hk. split.
  - intros k1 k2 e1 e2 H1 H2 Heq. apply lookup_insert_Some in H1, H2.
    destruct H1 as [[<- <-]|[? H1]], H2 as [[<- <-]|[? H2]]; rewrite ?lookup_delete_Some in *; [done| | |].
    + destruct H2 as [Hne H2]. destruct Hne. by eapply Hi.
    + destruct H1 as [Hne H1]. destruct Hne. by eapply Hi.
    + destruct H1, H2. by eapply Hi.
  - intros k1 e1 H1. apply lookup_insert_Some in H1 as [[<- <-]|[? H1]]; [by eapply Hn|].
    apply lookup_delete_Some in H1 as [_ H1]. by eapply Hn.
Qed.
End relation.

(** ** Simulation *)

Section sim.
Context {W C : Type} `{HS : !HashFunc string}.
Implicit Types (db : MmkvDb W C) (a : ADb W C).

(** Results: related values, or the same code. *)
Definition res_rel {A B} (R : A → B → Prop) (r : A + StatusCode) (r' : B + StatusCode) : Prop :=
  match r, r' with
  | inl x, inl y => R x y
  | inr c, inr c' => c = c'
  | _, _ => False
  end.

(** What [m] did on [db] is what the reference said. *)
Definition answers {A B} n (R : A → B → Prop) (m : option (MmkvDb W C * (A + StatusCode)))
    (s : option (ADb W C * (B + StatusCode))) : Prop :=
  match s with
  | None => m = None
  | Some (a', r') => ∃ db' r, m = Some (db', r) ∧ db_rel n db' a' ∧ res_rel R r r'
  end.

(** [m] is simulated by [s], growing by at most [N]. *)
Definition sim {A B} (N : Z) (R : A → B → Prop) (m : M (MmkvDb W C) A) (s : M (ADb W C) B) : Prop :=
  ∀ n db a, 0 ≤ n → n + N ≤ max_elems → db_rel n db a → answers (n + N) R (m db) (s a).

Lemma answers_mono {A B} n n' (R R' : A → B → Prop) m s :
  answers n R m s → n ≤ n' → (∀ x y, R x y → R' x y) → answers n' R' m s.
Proof.
  intros Ha Hn HR. destruct s as [[a' r']|]; [|done]. destruct Ha as (db' & r & -> & Hd & Hr). exists db', r.
  split; [done|]. split; [by eapply db_rel_mono|]. destruct r, r'; naive_solver.
Qed.

Lemma answers_ext_l {A B} n (R : A → B → Prop) m m' s : m = m' → answers n R m' s → answers n R m s.
Proof. by intros ->. Qed.

Lemma sim_mono {A B} N N' (R R' : A → B → Prop) m s : sim N R m s → N ≤ N' → (∀ x y, R x y → R' x y) → sim N' R' m s.
Proof. intros Hs HN HR n db a Hn Hm Hd. eapply answers_mono; [apply Hs; [done|lia|done]|lia|done]. Qed.

Lemma answers_bind {A B A' B'} n n' (R : A → B → Prop) (R' : A' → B' → Prop) m s (f : A → M _ A') (g : B → M _ B') db a :
  answers n R (m db) (s a) → n ≤ n' →
  (∀ x y db' a', m db = Some (db', inl x) → s a = Some (a', inl y) → db_rel n db' a' → R x y →
     answers n' R' (f x db') (g y a')) →
  answers n' R' ((m ≫= f) db) ((s ≫= g) a).
Proof.
  intros Ha Hn Hf. unfold mbind, M_bind. unfold answers in Ha.
  destruct (s a) as [[a' r']|] eqn:Hs; [|by rewrite Ha]. destruct Ha as (db' & r & Hm & Hd & Hr). rewrite Hm.
  destruct r as [x|c], r' as [y|c']; simpl in Hr; try done; [by apply Hf|]. subst. exists db', (inr c').
  split; [done|]. split; [|done]. by eapply db_rel_mono.
Qed.

Lemma sim_bind {A B A' B'} N1 N2 N (R : A → B → Prop) (R' : A' → B' → Prop) m s (f : A → M _ A') (g : B → M _ B') :
  sim N1 R m s → (∀ x y, R x y → sim N2 R' (f x) (g y)) → 0 ≤ N1 → 0 ≤ N2 → N1 + N2 ≤ N →
  sim N R' (m ≫= f) (s ≫= g).
Proof.
  intros Hm Hf H1 H2 HN n db a Hn Hmax Hd.
  eapply (answers_bind (n + N1)); [apply Hm; [done|lia|done]|lia|]. intros x y db' a' _ _ Hd' HR.
  eapply answers_mono; [apply (Hf x y HR (n + N1)); [lia|lia|done]|lia|done].
Qed.

Lemma sim_ret {A B} (R : A → B → Prop) x y : R x y → sim 0 R (mret x) (mret y).
Proof.
  intros HR n db a _ _ Hd. exists db, (inl x). split; [done|]. split; [|done]. eapply db_rel_mono; [done|lia].
Qed.

Lemma sim_stop {A B} (R : A → B → Prop) c : sim 0 R (stop c) (stop c).
Proof.
  intros n db a _ _ Hd. exists db, (inr c). split; [done|]. split; [|done]. eapply db_rel_mono; [done|lia].
Qed.

Lemma sim_fault {A B} (R : A → B → Prop) : sim 0 R fault fault.
Proof. done. Qed.

Lemma sim_lift {A B} (R : A → B → Prop) (x : option A) (y : option B) :
  option_Forall2 R x y → sim 0 R (lift x) (lift y).
Proof.
  intros Hxy n db a _ _ Hd. unfold lift. destruct Hxy as [x y HR|]; simpl; [|done].
  exists db, (inl x). split; [done|]. split; [|done]. eapply db_rel_mono; [done|lia].
Qed.

(** The cache, the shards and the log are the same on both sides. *)
Lemma sim_aux {A} (m : M (Aux C) A) : sim 0 eq (on_aux m) (r_aux m).
Proof.
  intros n db a _ _ (? & ? & ? & ? & Hx & ? & ?). unfold on_aux, r_aux, zoom. rewrite Hx.
  destruct (m (a_aux a)) as [[x r]|]; simpl; [|done]. exists (with_aux db x), r. split; [done|]. split.
  - rewrite Z.add_0_r. unfold db_rel. by split_ands.
  - by destruct r.
Qed.
End sim.

Ltac db_simpl := cbn [with_dict with_exp with_aux dict_ exp_dict_ aux next_addr set_a_dict set_a_exp set_a_aux
  a_dict a_exp a_aux a_uncounted a_next].
Ltac rel_simpl := unfold db_rel; db_simpl.

Section bind.
Context {S A B : Type}.
Implicit Types (m : M S A) (f : A → M S B) (s : S).

Lemma bind_ok m f s s' x : m s = Some (s', inl x) → (m ≫= f) s = f x s'.
Proof. intros Hm. unfold mbind, M_bind. by rewrite Hm. Qed.

Lemma bind_fault m f s : m s = None → (m ≫= f) s = None.
Proof. intros Hm. unfold mbind, M_bind. by rewrite Hm. Qed.

Lemma bind_lift (o : option A) f s : (lift o ≫= f) s = match o with Some x => f x s | None => None end.
Proof. by destruct o. Qed.

Lemma bind_assoc {D} m f (g : B → M S D) s : ((m ≫= f) ≫= g) s = (m ≫= λ x, f x ≫= g) s.
Proof. unfold mbind, M_bind. by destruct (m s) as [[s' [x|c]]|]. Qed.

Lemma bind_get (f : S → M S B) s : (get_state ≫= f) s = f s s.
Proof. done. Qed.
End bind.

(** ** The steps of the calls *)

Section steps.
Context {W C : Type} `{Comparator W} `{!CacheInterface C addr}
  `{HS : !HashFunc string} `{HA : !HashFunc addr} `{HZ : !HashFunc Z}.
Implicit Types (n : Z) (k : string) (db : MmkvDb W C) (a : ADb W C) (s : Slot W) (e : addr * AVal W).

Abbreviation vw db := (kv_view (dict_ db)).

Lemma find_step n db a k :
  db_rel n db a → key_ok k →
  ∃ db', dict_Find k db = Some (db', inl (vw db !! k)) ∧ db_rel n db' a ∧ vw db' = vw db.
Proof.
  intros (Hd & Hm & Hx & Hxv & Ha & Hn & Hu) Hk. destruct (find_is _ _ _ k Hd Hk) as (d' & Hf & Hd' & Hv).
  exists (with_dict db d'). split.
  - unfold dict_Find. erewrite bind_ok; [|unfold on_dict, call; by rewrite Hf]. by destruct (kv_view (dict_ db) !! k).
  - split; [|done]. rel_simpl. rewrite Hv. by split_ands.
Qed.

(** [set_payload] on an entry that is there. *)
Lemma set_step n db a k s e p :
  db_rel n db a → a_dict a !! k = Some e → slot_addr s = e.1 →
  ∀ v, type (slot_data s) = val_type v → payload_rel n p v →
  ∃ db', set_payload k s p db = Some (db', inl ()) ∧ db_rel n db' (set_a_dict a (<[k := (e.1, v)]> (a_dict a))).
Proof.
  intros (Hd & Hm & Hx & Hxv & Ha & Hn & Hu) Hk Hs v Ht Hp.
  destruct (dict_rel_Some _ _ _ _ _ Hm Hk) as (s0 & Hs0 & _).
  destruct (write_is _ _ _ k (MkSlot (slot_addr s) (MkData (type (slot_data s)) (Some p))) s0 Hd Hs0) as (d' & Hw & Hd' & Hv).
  exists (with_dict db d'). split; [unfold set_payload, on_dict, call; by rewrite Hw|].
  rel_simpl. rewrite Hv. split_ands; try done.
  - apply dict_rel_insert; [done|]. split; [done|]. exists p. by rewrite Ht.
  - by eapply addrs_ok_set.
Qed.

Lemma extract_step n db a k :
  db_rel n db a → key_ok k →
  ∃ db', dict_Extract k db = Some (db', inl (vw db !! k)) ∧ db_rel n db' (set_a_dict a (delete k (a_dict a))).
Proof.
  intros (Hd & Hm & Hx & Hxv & Ha & Hn & Hu) Hk. destruct (extract_is _ _ _ k Hd Hk) as (d' & Hf & Hd' & Hv).
  exists (with_dict db d'). split.
  - unfold dict_Extract. erewrite bind_ok; [|unfold on_dict, call; by rewrite Hf]. by destruct (kv_view (dict_ db) !! k).
  - rel_simpl. rewrite Hv. split_ands; try done; [by apply dict_rel_delete|by apply addrs_ok_delete].
Qed.

(** The destructor finds an object of the type the tag says. *)
Lemma drop_step n s e db : slot_rel n s e → DropNode (Some s) db = Some (db, inl ()).
Proof.
  intros (_ & p & Hp & Hr). unfold DropNode. rewrite bind_lift. unfold DeleteMmkvData. rewrite Hp. cbn [any_data type].
  rewrite bool_decide_eq_true_2; [done|]. by destruct p, (e.2).
Qed.

Lemma exp_erase_step n db a k :
  db_rel n db a → key_ok k →
  ∃ db', exp_Erase k db = Some (db', inl ()) ∧ db_rel n db' (set_a_exp a (delete k (a_exp a))).
Proof.
  intros (Hd & Hm & [u Hx] & Hxv & Ha & Hn & Hu) Hk. destruct (erase_is _ _ _ k Hx Hk) as (d' & Hf & Hd' & Hv).
  exists (with_exp db d'). split; [unfold exp_Erase; erewrite bind_ok; [|unfold on_exp, call; by rewrite Hf]; done|].
  rel_simpl. rewrite Hv, Hxv. split_ands; try done. by exists u.
Qed.

Lemma exp_find_step n db a k :
  db_rel n db a → key_ok k → ∃ db', exp_Find k db = Some (db', inl (a_exp a !! k)) ∧ db_rel n db' a.
Proof.
  intros (Hd & Hm & [u Hx] & Hxv & Ha & Hn & Hu) Hk. destruct (find_is _ _ _ k Hx Hk) as (d' & Hf & Hd' & Hv).
  exists (with_exp db d'). split.
  - unfold exp_Find. erewrite bind_ok; [|unfold on_exp, call; by rewrite Hf]. rewrite Hxv. by destruct (a_exp a !! k).
  - rel_simpl. rewrite Hv, Hxv. split_ands; try done. by exists u.
Qed.


(** *** Expiration *)

Context (E : Env).

(** A successful end. *)
Lemma answers_ok {A B} n (R : A → B → Prop) db a x y :
  db_rel n db a → R x y → answers n R (Some (db, inl x)) (Some (a, inl y)).
Proof. intros Hd HR. by exists db, (inl x). Qed.

Lemma db_rel_aux n db a x : db_rel n db a → db_rel n (with_aux db x) (set_a_aux a x).
Proof. intros (? & ? & ? & ? & ? & ? & ?). rel_simpl. by split_ands. Qed.

(** A call on the cache, the shards or the log comes first. *)
Lemma aux_bind {A B B'} n n' (R : B → B' → Prop) (m : M (Aux C) A) (f : A → M _ B) (g : A → M _ B') db a :
  db_rel n db a → n ≤ n' → (∀ x y, answers n' R (f x (with_aux db y)) (g x (set_a_aux a y))) →
  answers n' R ((on_aux m ≫= f) db) ((r_aux m ≫= g) a).
Proof.
  intros Hd Hn Hf. pose proof Hd as (_ & _ & _ & _ & Hx & _). unfold mbind, M_bind, on_aux, r_aux, zoom.
  rewrite Hx. destruct (m (a_aux a)) as [[y [x|c]]|]; simpl; [apply Hf| |done].
  exists (with_aux db y), (inr c). split; [done|]. split; [|done]. apply db_rel_aux. by eapply db_rel_mono.
Qed.

(** The entry of an expired key is dropped. *)
Lemma expire_drop n db a k :
  db_rel n db a → key_ok k →
  answers n eq ((node2 ← dict_Extract k; DropNode node2;;
      if log_request E then on_aux (AppendDel k);; mret (true, moved_from E k) else mret (true, k)) db)
    ((check (bool_decide (is_Some (a_dict a !! k)));; r_remove k;;
      if log_request E then r_aux (AppendDel k);; mret (true, moved_from E k) else mret (true, k)) a).
Proof.
  intros Hd Hk. destruct (extract_step n db a k Hd Hk) as (db' & Hx & Hd'). rewrite (bind_ok _ _ _ _ _ Hx).
  pose proof Hd as (_ & Hm & _). destruct (a_dict a !! k) as [e|] eqn:Hl.
  - destruct (dict_rel_Some _ _ _ _ _ Hm Hl) as (s & Hs & Hse). rewrite Hs, (bind_ok _ _ _ _ _ (drop_step n s e db' Hse)).
    rewrite bool_decide_eq_true_2 by done. rewrite (bind_ok (check true) _ a a ()) by done.
    rewrite (bind_ok (r_remove k) _ a (set_a_dict a (delete k (a_dict a))) ()) by done.
    destruct (log_request E); [|by apply answers_ok].
    eapply aux_bind; [done|done|]. intros [] y. apply answers_ok; [|done]. by apply db_rel_aux.
  - apply (dict_rel_None _ _ _ k Hm) in Hl. rewrite Hl. done.
Qed.

Lemma expire_sim k : key_ok k → sim 0 eq (CheckExpire (C := C) (W := W) E k) (r_expire E k).
Proof.
  intros Hk n db a _ _ Hd. rewrite Z.add_0_r. unfold CheckExpire, r_expire. rewrite bind_get.
  destruct (lazy_expiration E); cbn [negb andb].
  2: { case_match; by apply answers_ok. }
  pose proof Hd as (? & ? & [u Hx] & Hxv & ? & ? & ?). pose proof (find_node_is u n _ k Hx Hk) as Hf. rewrite Hxv in Hf.
  destruct (a_exp a !! k) as [t|].
  - destruct Hf as (d1 & i & j & x & d2 & Hf & Hd1 & Hv1 & He & Hd2 & Hv2).
    rewrite (bind_ok _ _ db (with_exp db d1) (Some (i, j, (x, MkKeyValue k t))))
      by (unfold on_exp, call; by rewrite Hf). cbn [value].
    destruct (t <=? now_ms E).
    + rewrite (bind_ok _ _ _ (with_exp db d2) 1) by (unfold on_exp, call; db_simpl; by rewrite He).
      assert (db_rel n (with_exp db d2) (set_a_exp a (delete k (a_exp a)))) as Hd'.
      { rel_simpl. rewrite Hv2. split_ands; try done. by exists (u + 1). }
      pose proof (expire_drop n _ _ k Hd' Hk) as Hdrop.
      change (a_dict (set_a_exp a (delete k (a_exp a)))) with (a_dict a) in Hdrop.
      by destruct (bool_decide (is_Some (a_dict a !! k))).
    + apply answers_ok; [|done]. rel_simpl. rewrite Hv1. split_ands; try done. by exists u.
  - destruct Hf as (d' & Hf & Hd1 & Hv1). rewrite (bind_ok _ _ db (with_exp db d') None) by (unfold on_exp, call; by rewrite Hf).
    apply answers_ok; [|done]. rel_simpl. rewrite Hv1. split_ands; try done. by exists u.
Qed.

Lemma not_expired_sim k : key_ok k → sim 0 eq (CHECK_EXPIRE_ROUTINE (C := C) (W := W) E k) (r_not_expired E k).
Proof.
  intros Hk. unfold CHECK_EXPIRE_ROUTINE, r_not_expired. eapply (sim_bind 0 0); [by apply expire_sim| |done..].
  intros [b ?] ? <-. destruct b; [apply sim_stop|by apply sim_ret].
Qed.

Lemma shard_sim k : sim 0 eq (CHECK_SHARD (W := W) (C := C) E k) (r_shard E k).
Proof. apply sim_aux. Qed.

(** *** Values *)

Lemma typed_step n db a k t :
  db_rel n db a → key_ok k →
  answers n (λ s e, a_dict a !! k = Some e ∧ val_type e.2 = t ∧ slot_rel n s e)
    (ERROR_ROUTINE_KV k t db) (r_typed k t a) ∧ ∀ r a', r_typed k t a = Some (a', r) → a' = a.
Proof.
  intros Hd Hk. unfold ERROR_ROUTINE_KV, r_typed, r_lookup. destruct (find_step n db a k Hd Hk) as (db' & Hf & Hd' & _).
  rewrite (bind_ok _ _ _ _ _ Hf). rewrite (bind_ok _ _ a a (a_dict a !! k)) by done.
  pose proof Hd as (_ & Hm & _). destruct (a_dict a !! k) as [e|] eqn:Hl.
  - destruct (dict_rel_Some _ _ _ _ _ Hm Hl) as (s & -> & Hse). pose proof Hse as (_ & p & -> & _). cbn [type].
    case_bool_decide as Ht; (split; [|by intros r a' [= <- <-]]).
    + by apply answers_ok.
    + by exists db', (inr S_EXISTS_DIFF_TYPE).
  - apply (dict_rel_None _ _ _ k Hm) in Hl. rewrite Hl. split; [|by intros r a' [= <- <-]].
    by exists db', (inr S_NONEXISTS).
Qed.

(** The common form of the calls that change one value. *)
Definition on_payload {A} k (t : DataType) (F : Payload W → option (Payload W * A)) : M (MmkvDb W C) A :=
  CHECK_EXPIRE_ROUTINE E k;;
  s ← ERROR_ROUTINE_KV k t;
  p ← lift (any_data (slot_data s));
  '(p, r) ← lift (F p);
  set_payload k s p;;
  mret r.

(** A change of a value and the reference change, growing by at most [N]. *)
Definition val_sim {A B} (N : Z) (t : DataType) (R : A → B → Prop) (F : Payload W → option (Payload W * A))
    (g : AVal W → option (AVal W * B)) : Prop :=
  ∀ n p v, 0 ≤ n → n + N ≤ max_elems → val_type v = t → payload_rel n p v →
    option_Forall2 (λ x y, payload_rel (n + N) x.1 y.1 ∧ val_type y.1 = t ∧ R x.2 y.2) (F p) (g v).

Lemma payload_sim {A B} N (R : A → B → Prop) k t F g :
  key_ok k → 0 ≤ N → val_sim N t R F g → sim N R (on_payload k t F) (r_on E k t g).
Proof.
  intros Hk HN Hval. unfold on_payload, r_on. eapply (sim_bind 0 N); [by apply not_expired_sim| |lia..].
  intros _ _ _ n db a Hn Hmax Hd. destruct (typed_step n db a k t Hd Hk) as [Ht Hsame].
  eapply answers_bind; [exact Ht|lia|]. intros s e db' a' _ Ha Hd' (Hl & Hty & Haddr & p & Hp & Hpv).
  apply Hsame in Ha as ->. rewrite Hp. cbn [any_data]. rewrite !bind_lift.
  specialize (Hval n p e.2 Hn Hmax Hty Hpv). destruct Hval as [[p' x] [v' y] (Hr & Hty' & HR)|]; [|done]. cbn in *.
  destruct (set_step (n + N) db' a k s e p' ltac:(eapply db_rel_mono; [done|lia]) Hl Haddr v') as (db2 & Hset & Hd2).
  { rewrite Hp. cbn [type]. congruence. } { done. }
  rewrite (bind_ok _ _ _ _ _ Hset). apply answers_ok; [exact Hd2|done].
Qed.

(** Calls that only read a value. *)
Definition read_payload {A} k (t : DataType) (F : Payload W → option A) : M (MmkvDb W C) A :=
  CHECK_EXPIRE_ROUTINE E k;;
  s ← ERROR_ROUTINE_KV k t;
  p ← lift (any_data (slot_data s));
  lift (F p).

Lemma read_sim {A B} (R : A → B → Prop) k t F (g : AVal W → option (AVal W * B)) :
  key_ok k →
  (∀ n p v, 0 ≤ n → n ≤ max_elems → val_type v = t → payload_rel n p v → option_Forall2 R (F p) (snd <$> g v)
     ∧ ∀ v' y, g v = Some (v', y) → v' = v) →
  sim 0 R (read_payload k t F) (r_on E k t g).
Proof.
  intros Hk Hval. unfold read_payload, r_on. eapply (sim_bind 0 0); [by apply not_expired_sim| |lia..].
  intros _ _ _ n db a Hn Hmax Hd. destruct (typed_step n db a k t Hd Hk) as [Ht Hsame].
  eapply answers_bind; [exact Ht|lia|]. intros s e db' a' _ Ha Hd' (Hl & Hty & Haddr & p & Hp & Hpv).
  apply Hsame in Ha as ->. rewrite Hp. cbn [any_data]. rewrite !bind_lift.
  destruct (Hval n p e.2 Hn ltac:(lia) Hty Hpv) as [Hr Hg]. destruct (g e.2) as [[v' y]|] eqn:Hge.
  - specialize (Hg v' y eq_refl) as ->. unfold lift. destruct (F p) as [x|]; inversion_clear Hr as [? ? HR|].
    cbn [mbind option_bind]. change (answers (n + 0) R (Some (db', inl x)) (Some (set_a_dict a (<[k := (e.1, e.2)]> (a_dict a)), inl y))).
    apply answers_ok; [|done]. rewrite insert_id by (by rewrite Hl; destruct e). rewrite Z.add_0_r. by destruct a.
  - unfold lift. destruct (F p); [by inversion Hr|done].
Qed.

(** *** New entries *)

(** The reference after [r_new] and [r_put]. *)
Definition added a k (v : AVal W) : ADb W C :=
  MkADb (<[k := (a_next a, v)]> (a_dict a)) (a_exp a) (a_aux a) (a_uncounted a) (Pos.succ (a_next a)).

Lemma r_create_bind {B} k v (f : addr → M (ADb W C) B) a :
  (r_create E k v ≫= f) a =
  (r_aux (CacheAdd (a_next a)) ≫= λ _, r_aux (AddKeyToShard E (a_next a) k) ≫= λ _, f (a_next a)) (added a k v).
Proof.
  unfold r_create, r_new, r_put, get_state, put_state, mbind, M_bind, mret, M_ret. cbn.
  change (set_a_dict _ _) with (added a k v). unfold r_aux, zoom.
  destruct (CacheAdd (a_next a) (a_aux (added a k v))) as [[y [[]|c]]|]; [|done|done]. cbn.
  by destruct (AddKeyToShard E (a_next a) k y) as [[y' [[]|c]]|].
Qed.

Lemma add_step n db a k (v : AVal W) p :
  db_rel n db a → n < max_elems → key_ok k → a_dict a !! k = None → payload_rel (n + 1) p v →
  let s := MkSlot (a_next a) (MkData (val_type v) None) in
  ∃ db1 db2, dict_InsertKvWithDuplicate k (val_type v) db = Some (db1, inl (true, s))
    ∧ dict_InsertKv k (val_type v) db = Some (db1, inl (Some s))
    ∧ aux db1 = a_aux a
    ∧ (∀ y, set_payload k s p (with_aux db1 y) = Some (with_aux db2 y, inl ()))
    ∧ db_rel (n + 1) db2 (added a k v).
Proof.
  intros (Hd & Hm & [u Hx] & Hxv & Ha & Hn & Hu) Hmax Hk Hl Hp s.
  destruct (insert_is _ _ _ k s Hd Hmax Hk) as (d1 & Hd1 & Hi). destruct (insert_kv_is _ _ _ k s Hd Hmax Hk) as (d1' & _ & Hi').
  pose proof Hl as Hl'. apply (dict_rel_None _ _ _ k Hm) in Hl'. rewrite Hl' in Hi, Hi'. destruct Hi as [Hi Hv1], Hi' as [Hi' _].
  assert (d1' = d1) as ->.
  { unfold InsertKv in Hi'. unfold InsertKvWithDuplicate in Hi. rewrite Hi in Hi'. by injection Hi'. }
  destruct (write_is _ _ d1 k (MkSlot (a_next a) (MkData (val_type v) (Some p))) s Hd1) as (d2 & Hw & Hd2 & Hv2).
  { by rewrite Hv1, lookup_insert_eq. }
  set (db1 := MkDb d1 (exp_dict_ db) (aux db) (Pos.succ (next_addr db))).
  exists db1, (MkDb d2 (exp_dict_ db) (aux db) (Pos.succ (next_addr db))). split_ands.
  - unfold dict_InsertKvWithDuplicate. rewrite bind_get, Hn. fold s.
    rewrite (bind_ok _ _ db (with_dict db d1) (true, MkKeyValue k s)) by (unfold on_dict, call; by rewrite Hi). done.
  - unfold dict_InsertKv. rewrite bind_get, Hn. fold s.
    rewrite (bind_ok _ _ db (with_dict db d1) (Some (MkKeyValue k s))) by (unfold on_dict, call; by rewrite Hi'). done.
  - done.
  - intros y. unfold set_payload, on_dict, call, s. cbn [slot_addr slot_data type]. unfold db1. db_simpl. by rewrite Hw.
  - unfold db_rel, added. db_simpl. rewrite Hv2, Hv1, insert_insert_eq. split_ands; try done.
    + apply dict_rel_insert; [eapply dict_rel_mono; [done|lia]|]. split; [done|]. by exists p.
    + exists u. eapply dict_is_weaken; [done|lia].
    + by rewrite Hn.
    + by apply addrs_ok_new.
Qed.

(** The key is there. *)
Lemma dup_step n db a k e t :
  db_rel n db a → n < max_elems → key_ok k → a_dict a !! k = Some e →
  ∃ db' s, dict_InsertKvWithDuplicate k t db = Some (db', inl (false, s))
    ∧ dict_InsertKv k t db = Some (db', inl None)
    ∧ db_rel (n + 1) db' a ∧ slot_rel n s e.
Proof.
  intros (Hd & Hm & [u Hx] & Hxv & Ha & Hn & Hu) Hmax Hk Hl.
  destruct (dict_rel_Some _ _ _ _ _ Hm Hl) as (s & Hs & Hse).
  set (s0 := MkSlot (next_addr db) (MkData t None) : Slot W).
  destruct (insert_is _ _ _ k s0 Hd Hmax Hk) as (d1 & Hd1 & Hi). destruct (insert_kv_is _ _ _ k s0 Hd Hmax Hk) as (d1' & _ & Hi').
  rewrite Hs in Hi, Hi'. destruct Hi as [Hi Hv1], Hi' as [Hi' _].
  assert (d1' = d1) as ->.
  { unfold InsertKv in Hi'. unfold InsertKvWithDuplicate in Hi. rewrite Hi in Hi'. by injection Hi'. }
  exists (with_dict db d1), s. split_ands.
  - unfold dict_InsertKvWithDuplicate. rewrite bind_get. fold s0.
    rewrite (bind_ok _ _ db (with_dict db d1) (false, MkKeyValue k s)) by (unfold on_dict, call; by rewrite Hi). done.
  - unfold dict_InsertKv. rewrite bind_get. fold s0.
    rewrite (bind_ok _ _ db (with_dict db d1) None) by (unfold on_dict, call; by rewrite Hi'). done.
  - rel_simpl. rewrite Hv1. split_ands; try done; [eapply dict_rel_mono; [done|lia]|].
    exists u. eapply dict_is_weaken; [done|lia].
  - done.
Qed.

(** The common form of the calls that make the value they change. *)
Definition open_payload {A} k (t : DataType) (fresh : Payload W) (F : Payload W → option (Payload W * A)) : M (MmkvDb W C) A :=
  r ← open_or_create E k t fresh;
  match r with
  | Some (s, p) => '(p, x) ← lift (F p); set_payload k s p;; mret x
  | None => stop S_EXISTS_DIFF_TYPE
  end.

Lemma open_sim {A B} N (R : A → B → Prop) k (fresh : Payload W) v0 F g :
  key_ok k → 0 ≤ N → (∀ n, 0 ≤ n → payload_rel n fresh v0) → val_sim N (val_type v0) R F g →
  sim (N + 1) R (open_payload k (val_type v0) fresh F) (r_open E k v0 g).
Proof.
  intros Hk HN Hfresh Hval n db a Hn Hmax Hd. unfold open_payload, open_or_create, r_open, r_lookup.
  rewrite (bind_ok _ _ a a (a_dict a !! k)) by done. rewrite bind_assoc. destruct (a_dict a !! k) as [e|] eqn:Hl.
  - destruct (dup_step n db a k e (val_type v0) Hd ltac:(lia) Hk Hl) as (db1 & s & Hi & _ & Hd1 & Haddr & p & Hp & Hpv).
    rewrite (bind_ok _ _ _ _ _ Hi), Hp. cbn [type any_data].
    case_bool_decide as Ht; [|by exists db1, (inr S_EXISTS_DIFF_TYPE); split_ands; [done|eapply db_rel_mono; [done|lia]|done]].
    rewrite bind_assoc, !bind_lift. rewrite (bind_ok _ _ db1 db1 (Some (s, p))) by done. rewrite bind_lift.
    assert (payload_rel (n + 1) p e.2) as Hpv' by (eapply payload_rel_mono; [done|lia]).
    specialize (Hval (n + 1) p e.2 ltac:(lia) ltac:(lia) Ht Hpv').
    destruct Hval as [[p' x] [v' y] (Hr & Hty' & HR)|]; [|done]. cbn in Hr, Hty', HR.
    destruct (set_step (n + 1 + N) db1 a k s e p' ltac:(eapply db_rel_mono; [done|lia]) Hl Haddr v') as (db2 & Hset & Hd2).
    { rewrite Hp. cbn [type]. congruence. } { done. }
    rewrite (bind_ok _ _ _ _ _ Hset). apply answers_ok; [|done]. by replace (n + (N + 1)) with (n + 1 + N) by lia.
  - destruct (add_step n db a k v0 fresh Hd ltac:(lia) Hk Hl (Hfresh (n + 1) ltac:(lia))) as (db1 & db2 & Hi & _ & Hax & Hset & Hd2).
    specialize (Hset (aux db1)). replace (with_aux db1 (aux db1)) with db1 in Hset by (by destruct db1).
    assert (aux db2 = aux db1) as Hax2 by (rewrite Hax; apply Hd2).
    replace (with_aux db2 (aux db1)) with db2 in Hset by (rewrite <-Hax2; by destruct db2).
    rewrite (bind_ok _ _ _ _ _ Hi), bind_assoc, (bind_ok _ _ _ _ _ Hset), bind_assoc. cbn [slot_addr].
    rewrite r_create_bind. eapply aux_bind; [done|lia|]. intros [] y1.
    rewrite bind_assoc. eapply aux_bind; [by apply db_rel_aux|lia|]. intros [] y2.
    rewrite (bind_ok (mret _) _ _ _ _ eq_refl), !bind_lift.
    specialize (Hval (n + 1) fresh v0 ltac:(lia) ltac:(lia) eq_refl (Hfresh (n + 1) ltac:(lia))).
    destruct Hval as [[p' x] [v' y] (Hr & Hty' & HR)|]; [|done]. cbn in Hr, Hty', HR.
    edestruct (set_step (n + 1 + N)) as (db3 & Hset3 & Hd3);
      [eapply db_rel_mono; [apply db_rel_aux, db_rel_aux, Hd2|lia]|apply lookup_insert_eq|..]; [| |exact Hr|].
    3: { rewrite (bind_ok _ _ _ _ _ Hset3). apply answers_ok; [|done]. replace (n + (N + 1)) with (n + 1 + N) by lia. exact Hd3. }
    all: done.
Qed.
End steps.
