(* ===== verification/KvdbCalls.v ===== *)
(** * The calls of the database, one by one

    Each call of the API is simulated by the call of the reference; together:
    any history of calls. *)

From S2P Require Import Prelude Comparator AvlUtil AvlTree Dict HashTableBase HashTable TreeHashTable HashSet.
From S2P Require Import Dictionary Blist Cache Vset Kvdb KvdbSpec KvdbValues KvdbRefine.

Section bind.
Context {S A B : Type}.
Implicit Types (m : M S A) (f g : A → M S B) (s : S).

Lemma bind_ext m f g s : (∀ x s', f x s' = g x s') → (m ≫= f) s = (m ≫= g) s.
Proof. intros Hfg. unfold mbind, M_bind. by destruct (m s) as [[s' [x|c]]|]. Qed.

Lemma bind_ext_l m m' f s : m s = m' s → (m ≫= f) s = (m' ≫= f) s.
Proof. intros Hm. unfold mbind, M_bind. by rewrite Hm. Qed.

Lemma bind_unit (m : M S ()) s : (m ≫= λ _, mret ()) s = m s.
Proof. unfold mbind, M_bind. by destruct (m s) as [[s' [[]|c]]|]. Qed.
End bind.

(** ** What a computation keeps

    [keeps R m]: the state after [m] is [R]-related to the one before, whether
    [m] returned or stopped with a code. *)

Definition keeps {S A} (R : relation S) (m : M S A) : Prop := ∀ s s' r, m s = Some (s', r) → R s s'.

Section keeps.
Context {S : Type} (R : relation S) `{!PreOrder R}.

Lemma keeps_bind {A B} (m : M S A) (f : A → M S B) : keeps R m → (∀ x, keeps R (f x)) → keeps R (m ≫= f).
Proof.
  intros Hm Hf s s' r. unfold mbind, M_bind. destruct (m s) as [[s1 [x|c]]|] eqn:Hs; [|by intros [= <- <-]; eapply Hm|done].
  intros Hr. etrans; [by eapply Hm|by eapply Hf].
Qed.

Lemma keeps_ret {A} (x : A) : keeps R (mret x).
Proof. by intros s s' r [= <- <-]. Qed.

Lemma keeps_get : keeps R (get_state (S := S)).
Proof. by intros s s' r [= <- <-]. Qed.

Lemma keeps_stop {A} c : keeps R (stop (A := A) c).
Proof. by intros s s' r [= <- <-]. Qed.

Lemma keeps_lift {A} (o : option A) : keeps R (lift o).
Proof. intros s s' r. destruct o; [by intros [= <- <-]|done]. Qed.

Lemma keeps_check b : keeps R (check b).
Proof. intros s s' r. destruct b; [by intros [= <- <-]|done]. Qed.
End keeps.

Create HintDb keeps.
#[export] Hint Resolve keeps_ret keeps_get keeps_stop keeps_lift keeps_check : keeps.
(** Follow the binds and the branches of a computation. *)
Ltac keeps_tac :=
  repeat first
    [ solve [auto with keeps typeclass_instances]
    | apply keeps_bind; [exact _| |intros ?]
    | case_match ].

Section forms.
Context {W C : Type} `{Comparator W} `{!CacheInterface C addr}
  `{HS : !HashFunc string} `{HA : !HashFunc addr} `{HZ : !HashFunc Z}.
Context (E : Env).
Implicit Types (n : Z) (k : string) (db : MmkvDb W C) (a : ADb W C) (s : Slot W) (e : addr * AVal W) (p : Payload W).
Abbreviation MD := (M (MmkvDb W C)).
Abbreviation MR := (M (ADb W C)).

Lemma sim_ext {A B} N (R : A → B → Prop) (m m' : MD A) (r r' : MR B) :
  (∀ db, m db = m' db) → (∀ a, r a = r' a) → sim N R m' r' → sim N R m r.
Proof. intros Hm Hr Hs n db a Hn Hmax Hd. rewrite Hm, Hr. by apply Hs. Qed.

(** First a step that costs nothing. *)
Lemma sim_then {A B A' B'} N (R : A → B → Prop) (R' : A' → B' → Prop) m r (f : A → MD A') (g : B → MR B') :
  sim 0 R m r → 0 ≤ N → (∀ x y, R x y → sim N R' (f x) (g y)) → sim N R' (m ≫= f) (r ≫= g).
Proof. intros Hm HN Hf. eapply (sim_bind 0 N); [done|done|lia..]. Qed.

(** Last one that costs nothing. *)
Lemma sim_last {A B A' B'} N (R : A → B → Prop) (R' : A' → B' → Prop) m r (f : A → MD A') (g : B → MR B') :
  sim N R m r → 0 ≤ N → (∀ x y, R x y → sim 0 R' (f x) (g y)) → sim N R' (m ≫= f) (r ≫= g).
Proof. intros Hm HN Hf. eapply (sim_bind N 0); [done|done|lia..]. Qed.

Lemma sim_ok {A B} N (R : A → B → Prop) (f : A → out W) (g : B → out W) (m : MD A) (r : MR B) :
  sim N R m r → 0 ≤ N → (∀ x y, R x y → out_rel (f x) (g y)) → sim N out_rel (ok_ f m) (ok_ g r).
Proof. intros Hm HN HR. apply (sim_last N R); [done|done|]. intros x y Hxy. apply sim_ret. auto. Qed.

Lemma sim_done {A B} N (R : A → B → Prop) (m : MD A) (r : MR B) :
  sim N R m r → 0 ≤ N → sim N out_rel (done m) (done (W := W) r).
Proof. intros Hm HN. apply (sim_last N R); [done|done|]. intros x y Hxy. apply sim_ret. constructor. Qed.

(** *** Objects of one type *)

Definition pl_str {A} (f : string → option (string * A)) p : option (Payload W * A) :=
  match p with PString x => '(x, r) ← f x; Some (PString x, r) | _ => None end.
Definition pl_list {A} (f : StrList → option (StrList * A)) p : option (Payload W * A) :=
  match p with PStrList x => '(x, r) ← f x; Some (PStrList x, r) | _ => None end.
Definition pl_vset {A} (f : Vset W → option (Vset W * A)) p : option (Payload W * A) :=
  match p with PVset x => '(x, r) ← f x; Some (PVset x, r) | _ => None end.
Definition pl_map {A} (f : StrMap → option (StrMap * A)) p : option (Payload W * A) :=
  match p with PMap x => '(x, r) ← f x; Some (PMap x, r) | _ => None end.
Definition pl_set {A} (f : StrSet → option (StrSet * A)) p : option (Payload W * A) :=
  match p with PSet x => '(x, r) ← f x; Some (PSet x, r) | _ => None end.

Ltac form_tac f :=
  apply bind_ext; intros _ ?; apply bind_ext; intros [? [? [[]|]]] ?; rewrite ?bind_lift; try done;
  cbn [as_string as_list as_vset as_map as_set any_data slot_data pl_str pl_list pl_vset pl_map pl_set];
  rewrite ?bind_lift; destruct (f _) as [[]|]; done.

Lemma on_vset_form {A} k (f : Vset W → option (Vset W * A)) db : on_vset E k f db = on_payload E k D_SORTED_SET (pl_vset f) db.
Proof. unfold on_vset, on_payload. form_tac f. Qed.

Lemma on_map_form {A} k (f : StrMap → option (StrMap * A)) db : on_map E k f db = on_payload E k D_MAP (pl_map f) db.
Proof. unfold on_map, on_payload. form_tac f. Qed.

Lemma on_set_form {A} k (f : StrSet → option (StrSet * A)) db : on_set E k f db = on_payload E k D_SET (pl_set f) db.
Proof. unfold on_set, on_payload. form_tac f. Qed.

Lemma list_change_form k (f : StrList → option StrList) db :
  ('(s, lst) ← find_list E k; lst ← lift (f lst); set_payload k s (PStrList lst)) db
  = on_payload E k D_STRLIST (pl_list (λ l, l ← f l; Some (l, ()))) db.
Proof.
  unfold find_list, on_payload. rewrite bind_assoc. apply bind_ext. intros _ db1. rewrite bind_assoc. apply bind_ext.
  intros [? [? [[]|]]] db2; rewrite bind_assoc, ?bind_lift; try done.
  cbn [as_list any_data slot_data pl_list]. rewrite !bind_lift. rewrite (bind_ok (mret _) _ _ _ _ eq_refl), bind_lift.
  destruct (f l); [|done]. cbn. by rewrite bind_unit.
Qed.

Lemma list_read_form {A} k (f : StrList → option A) db :
  ('(_, lst) ← find_list E k; lift (f lst)) db
  = read_payload E k D_STRLIST (λ p, match p with PStrList l => f l | _ => None end) db.
Proof.
  unfold find_list, read_payload. rewrite bind_assoc. apply bind_ext. intros _ db1. rewrite bind_assoc. apply bind_ext.
  intros [? [? [[]|]]] db2; rewrite bind_assoc, ?bind_lift; try done.
Qed.

Lemma open_form {A X} k t fresh (cast : MmkvData W → option X) (inj : X → Payload W) (f : X → option (X * A)) F db :
  (∀ p, F p = x ← cast (MkData t (Some p)); '(x, r) ← f x; Some (inj x, r)) →
  (r ← open_or_create E k t fresh;
   match r with
   | Some (s, p) => x ← lift (cast (MkData t (Some p))); '(x, y) ← lift (f x); set_payload k s (inj x);; mret y
   | None => stop S_EXISTS_DIFF_TYPE
   end) db = open_payload E k t fresh F db.
Proof.
  intros HF. unfold open_payload. apply bind_ext. intros [[s p]|] db1; [|done]. rewrite !bind_lift, HF.
  destruct (cast _) as [x|]; [|done]. cbn [mbind option_bind]. rewrite bind_lift. by destruct (f x) as [[]|].
Qed.

(** *** What the changes do to the values *)

Lemma vset_val {A} (f : Vset W → option (Vset W * A)) : val_sim 0 D_SORTED_SET eq (pl_vset f) (on_vs f).
Proof.
  intros n p v _ _ Ht Hp. destruct v; simplify_eq/=. destruct p; simplify_eq/=; try done. destruct (f _) as [[]|]; constructor.
  by rewrite Z.add_0_r.
Qed.

Lemma list_val {A B} N (R : A → B → Prop) f (g : list string → option (list string * B)) :
  (∀ n sl l, 0 ≤ n → n + N ≤ max_elems → list_rel n sl l →
     option_Forall2 (λ x y, list_rel (n + N) x.1 y.1 ∧ R x.2 y.2) (f sl) (g l)) →
  val_sim N D_STRLIST R (pl_list f) (on_list g).
Proof.
  intros Hf n p v Hn Hm Ht Hp. destruct v; simplify_eq/=. destruct p; simplify_eq/=; try done.
  destruct (Hf n _ _ Hn Hm Hp) as [[] [] []|]; by constructor.
Qed.

Lemma map_val {A B} N (R : A → B → Prop) f (g : gmap string string → gmap string string * B) :
  (∀ n m l, 0 ≤ n → n + N ≤ max_elems → map_rel n m l →
     ∃ m' x, f m = Some (m', x) ∧ map_rel (n + N) m' (g l).1 ∧ R x (g l).2) →
  val_sim N D_MAP R (pl_map f) (on_kvs g).
Proof.
  intros Hf n p v Hn Hm Ht Hp. destruct v as [| | |l|]; simplify_eq/=. destruct p as [| | |m|]; simplify_eq/=; try done.
  destruct (Hf n m l Hn Hm Hp) as (m' & x & -> & Hm' & HR). destruct (g l). by constructor.
Qed.

Lemma set_val {A B} N (R : A → B → Prop) f (g : gset string → gset string * B) :
  (∀ n m l u, 0 ≤ n → n + N ≤ max_elems → set_rel n m l u →
     ∃ m' x, f m = Some (m', x) ∧ set_rel (n + N) m' (g l).1 u ∧ R x (g l).2) →
  val_sim N D_SET R (pl_set f) (on_mset g).
Proof.
  intros Hf n p v Hn Hm Ht Hp. destruct v as [| | | |l u]; simplify_eq/=. destruct p as [| | | |m]; simplify_eq/=; try done.
  destruct (Hf n m l u Hn Hm Hp) as (m' & x & -> & Hm' & HR). destruct (g l). by constructor.
Qed.
End forms.

(** ** Calls on lists, sorted sets, maps and sets *)

Section values.
Context {W C : Type} `{Comparator W} `{!CacheInterface C addr}
  `{HS : !HashFunc string} `{HA : !HashFunc addr} `{HZ : !HashFunc Z}.
Context (E : Env).
Implicit Types (n : Z) (k : string).

(** The simulation of one call. *)
Definition cmd_sim (c : cmd W) : Prop := sim (cmd_cost c) out_rel (run_cmd (C := C) E c) (ref_cmd E c).

Lemma cmd_cost_pos (c : cmd W) : 1 ≤ cmd_cost c.
Proof. unfold cmd_cost. destruct c; lia. Qed.

(** A cheaper simulation will do. *)
Lemma cheap_sim {A B} N N' (R : A → B → Prop) (m : M (MmkvDb W C) A) (r : M (ADb W C) B) :
  sim N R m r → N ≤ N' → sim N' R m r.
Proof. intros Hs HN. by eapply sim_mono. Qed.

(** *** Lists *)

Lemma list_size_sim k : key_ok k → cmd_sim (CListGetSize k).
Proof.
  intros Hk. eapply cheap_sim; [|apply Z.le_0_1]. apply (sim_ok 0 eq); [|done|by intros x _ <-].
  eapply sim_ext; [intros db; apply (list_read_form E k (λ l, Some (sl_size l)))|done|].
  apply read_sim; [done|]. intros n p v _ _ Ht Hp. destruct v; simplify_eq/=. destruct p; simplify_eq/=; try done.
  split; [|by intros ? ? [= <- <-]]. constructor. by eapply list_rel_size.
Qed.

Lemma list_all_sim k : key_ok k → cmd_sim (CListGetAll k).
Proof.
  intros Hk. eapply cheap_sim; [|apply Z.le_0_1]. apply (sim_ok 0 eq); [|done|by intros x _ <-].
  eapply sim_ext; [intros db; apply list_read_form|done|].
  apply read_sim; [done|]. intros n p v _ _ Ht Hp. destruct v; simplify_eq/=. destruct p; simplify_eq/=; try done.
  split; [|by intros ? ? [= <- <-]]. rewrite (list_rel_all n _ _ Hp). by constructor.
Qed.

Lemma list_range_sim k l r : cmd_ok (W := W) (CListGetRange k l r) → cmd_sim (CListGetRange k l r).
Proof.
  intros (Hk & Hl & Hr). eapply cheap_sim; [|apply Z.le_0_1]. cbn [run_cmd ref_cmd]. unfold ok_, ListGetRange.
  eapply (sim_ext _ _ _ (x ← read_payload E k D_STRLIST (λ p, match p with PStrList sl => sl_range sl l r | _ => None end);
    match x with inl v => mret (OList v) | inr c => stop c end)); [|done|].
  { intros db. rewrite bind_assoc. rewrite <-(bind_ext_l _ _ _ _ (list_read_form E k (λ sl, sl_range sl l r) db)), bind_assoc.
    apply bind_ext. intros [s lst] db1. rewrite bind_assoc, !bind_lift. by destruct (sl_range lst l r) as [[]|]. }
  apply (sim_last 0 eq); [|done|].
  - apply read_sim; [done|]. intros n p v _ Hm Ht Hp. destruct v; simplify_eq/=. destruct p; simplify_eq/=; try done.
    rewrite (range_rel n _ _ l r Hp Hm Hl Hr). split.
    + destruct (ref_range _ l r); by constructor.
    + intros v' y. by destruct (ref_range _ l r); intros [= <- <-].
  - intros x _ <-. destruct x; [apply sim_ret; constructor|apply sim_stop].
Qed.

(** A call that checks the shard and changes the list. *)
Lemma list_change_sim N k f g :
  key_ok k → 0 ≤ N →
  (∀ n sl l, 0 ≤ n → n + N ≤ max_elems → list_rel n sl l → ∃ sl', f sl = Some sl' ∧ list_rel (n + N) sl' (g l)) →
  sim N (out_rel (W := W))
    (done (CHECK_SHARD (C := C) (W := W) E k;; '(s, lst) ← find_list E k; lst ← lift (f lst); set_payload k s (PStrList lst)))
    (r_shard E k;; done (r_on E k D_STRLIST (on_list (λ l, Some (g l, ()))))).
Proof.
  intros Hk HN Hf. unfold done at 1. eapply sim_ext; [intros db; apply bind_assoc|done|].
  apply (sim_then N eq); [apply shard_sim|done|]. intros _ _ _. apply (sim_done N eq); [|done].
  eapply sim_ext; [intros db; apply list_change_form|done|]. apply payload_sim; [done|done|]. apply list_val.
  intros n sl l Hn Hm Hl. destruct (Hf n sl l Hn Hm Hl) as (sl' & -> & Hl'). by constructor.
Qed.

Lemma list_prepend_sim k es : key_ok k → cmd_sim (CListPrepend k es).
Proof.
  intros Hk. eapply cheap_sim; [apply (list_change_sim (Z.of_nat (length es)) k _ (λ l, rev es ++ l))|unfold cmd_cost; lia]; [done|lia|].
  intros n sl l Hn Hm Hl. by apply push_front_each.
Qed.

Lemma pop_count_min n sl l count :
  list_rel n sl l → 0 ≤ count < 2 ^ 32 → pop_count count sl = Nat.min (Z.to_nat count) (length l).
Proof.
  intros Hl Hc. unfold pop_count. rewrite (list_rel_size n sl l Hl). rewrite Z.mod_small.
  - destruct (Z.ltb_spec count (Z.of_nat (length l))); lia.
  - destruct (Z.ltb_spec count (Z.of_nat (length l))); lia.
Qed.

Lemma list_pop_front_sim k count : cmd_ok (W := W) (CListPopFront k count) → cmd_sim (CListPopFront k count).
Proof.
  intros [Hk Hc]. apply (list_change_sim 1 k _ (drop (Z.to_nat count))); [done|lia|].
  intros n sl l Hn Hm Hl. rewrite (pop_count_min n sl l count Hl Hc).
  destruct (pop_front_each n sl l (Nat.min (Z.to_nat count) (length l)) Hl ltac:(lia) ltac:(lia)) as (sl' & -> & Hl').
  exists sl'. split; [done|]. apply (list_rel_mono n); [|lia]. destruct (Nat.le_ge_cases (Z.to_nat count) (length l)) as [Hle|Hle].
  - by rewrite Nat.min_l in Hl' by done.
  - rewrite Nat.min_r, drop_all in Hl' by done. by rewrite drop_ge.
Qed.

Lemma list_pop_back_sim k count : cmd_ok (W := W) (CListPopBack k count) → cmd_sim (CListPopBack k count).
Proof.
  intros [Hk Hc]. apply (list_change_sim 1 k _ (drop_back (Z.to_nat count))); [done|lia|].
  intros n sl l Hn Hm Hl. rewrite (pop_count_min n sl l count Hl Hc).
  destruct (pop_back_each n sl l (Nat.min (Z.to_nat count) (length l)) Hl ltac:(lia) ltac:(lia)) as (sl' & -> & Hl').
  exists sl'. split; [done|]. apply (list_rel_mono n); [|lia]. unfold drop_back.
  by replace (length l - Z.to_nat count)%nat with (length l - Nat.min (Z.to_nat count) (length l))%nat by lia.
Qed.

(** *** Calls that may make the value *)

Lemma list_append_sim k es : key_ok k → env_ok E → cmd_sim (CListAppend k es).
Proof.
  intros Hk Hmv. unfold cmd_sim; cbn [run_cmd ref_cmd]. unfold done at 1, ListAppend. eapply sim_ext; [intros db; apply bind_assoc|done|].
  apply (sim_then _ eq); [apply shard_sim|unfold cmd_cost; lia|]. intros _ _ _.
  eapply sim_ext; [intros db; apply bind_assoc|done|].
  apply (sim_then _ (λ x y, x = y ∧ key_ok x.2)); [|unfold cmd_cost; lia|].
  { intros n db a Hn Hm Hd. pose proof (expire_sim E k Hk n db a Hn Hm Hd) as Hx. unfold answers in *.
    destruct (r_expire E k a) as [[a' r]|] eqn:Hr; [|done]. destruct Hx as (db' & r' & Hc & Hd' & Hrr). exists db', r'.
    split; [done|]. split; [done|]. destruct r' as [x|], r as [y|]; try done. cbn in *. subst y. split; [done|].
    unfold r_expire in Hr. rewrite bind_get in Hr. destruct (a_exp a !! k) as [t|]; [|by injection Hr as <- <-].
    destruct (_ && _); [|by injection Hr as <- <-].
    destruct (bool_decide (is_Some (a_dict a !! k))); [|done]. destruct (log_request E); injection Hr as <- <-; [apply Hmv|done]. }
  intros [b k'] [b' k''] [[= <- <-] Hk']. cbn in Hk'. apply (sim_done _ eq); [|unfold cmd_cost; lia].
  eapply (sim_ext _ _ _ (open_payload E k' D_STRLIST (PStrList StrList_init)
    (pl_list (λ l, l ← push_each sl_PushBack l es; Some (l, ()))))); [|done|].
  { intros db. unfold open_payload. apply bind_ext. intros [[s p]|] db1; [|done]. rewrite !bind_lift.
    destruct p; cbn [as_list any_data pl_list]; try done. rewrite bind_lift. destruct (push_each _ _ _); [|done].
    cbn [mbind option_bind]. by rewrite bind_unit. }
  replace (cmd_cost (W := W) (CListAppend k es)) with (Z.of_nat (length es) + 1) by (unfold cmd_cost; lia).
  apply (open_sim E (Z.of_nat (length es)) eq k' (PStrList StrList_init) (AList [])); [done|lia|by apply list_rel_init|].
  apply list_val. intros n sl l Hn Hm Hl. destruct (push_back_each n sl l es Hl Hm) as (sl' & -> & Hl'). by constructor.
Qed.

(** A call that checks the shard and adds to a value. *)
Lemma add_sim {A B} N (R : A → B → Prop) k (m : M (MmkvDb W C) A) (r : M (ADb W C) B) (f : A → out W) (g : B → out W) :
  sim N R m r → 0 ≤ N → (∀ x y, R x y → out_rel (f x) (g y)) →
  sim N out_rel (ok_ f (CHECK_SHARD E k;; m)) (r_shard E k;; ok_ g r).
Proof.
  intros Hm HN HR. unfold ok_ at 1. eapply sim_ext; [intros db; apply bind_assoc|done|].
  apply (sim_then N eq); [apply shard_sim|done|]. intros _ _ _. by apply (sim_ok N R).
Qed.

Lemma vset_add_sim k wms : key_ok k → cmd_sim (CVsetAdd k wms).
Proof.
  intros Hk. apply (add_sim 1 eq); [|lia|by intros x _ <-].
  eapply sim_ext; [intros db; apply (open_form E k D_SORTED_SET _ as_vset PVset _ (pl_vset (λ vs, insert_each (λ vs wm, Vset.Insert vs (Comparator.key wm) (value wm)) vs wms 0))); by intros []|done|].
  apply (open_sim E 0 eq k (PVset vset_init) (AVset vset_init)); [done|done|done|].
  apply (vset_val (λ vs, insert_each (λ vs wm, Vset.Insert vs (Comparator.key wm) (value wm)) vs wms 0)).
Qed.

Lemma map_add_sim k kvs : key_ok k → cmd_sim (CMapAdd k kvs).
Proof.
  intros Hk. unfold cmd_sim. replace (cmd_cost (W := W) (CMapAdd k kvs)) with (Z.of_nat (length kvs) + 1) by (unfold cmd_cost; lia).
  apply (add_sim (Z.of_nat (length kvs) + 1) eq); [|lia|by intros x _ <-].
  eapply sim_ext; [intros db; apply (open_form E k D_MAP _ as_map PMap _ (pl_map (λ m, insert_each map_Insert m kvs 0))); by intros []|done|].
  apply (open_sim E (Z.of_nat (length kvs)) eq k (PMap HashTable_init) (AMap ∅)); [done|lia| |].
  { intros n Hn. exact (init_is (D := StrMap) (K := string) (V := string) n Hn). }
  apply (map_val (W := W) _ eq (λ m, insert_each map_Insert m kvs 0)).
  intros n m l Hn Hm Hl. destruct (map_add_rel n m l kvs 0 Hl Hm ltac:(lia)) as (m' & He & Hm').
  { unfold max_elems in Hm. lia. }
  exists m', (0 + (Z.of_nat (size (add_pairs l kvs)) - Z.of_nat (size l))). split; [done|]. split; [done|]. cbn. lia.
Qed.

Lemma set_add_sim k ms : key_ok k → cmd_sim (CSetAdd k ms).
Proof.
  intros Hk. unfold cmd_sim. replace (cmd_cost (W := W) (CSetAdd k ms)) with (Z.of_nat (length ms) + 1) by (unfold cmd_cost; lia).
  apply (add_sim (Z.of_nat (length ms) + 1) eq); [|lia|by intros x _ <-].
  eapply sim_ext; [intros db; apply (open_form E k D_SET _ as_set PSet _ (pl_set (λ s, insert_each set_Insert s ms 0))); by intros []|done|].
  apply (open_sim E (Z.of_nat (length ms)) eq k (PSet HashTable_init) (ASet ∅ 0)); [done|lia|apply set_init_rel|].
  apply (set_val (W := W) _ eq (λ s, insert_each set_Insert s ms 0)).
  intros n s l u Hn Hm Hl. destruct (set_add_rel n s l u ms 0 Hl Hm ltac:(lia)) as (s' & He & Hs').
  { unfold max_elems in Hm. lia. }
  exists s', (0 + (Z.of_nat (size (l ∪ list_to_set ms)) - Z.of_nat (size l))). split; [done|]. split; [done|]. cbn. lia.
Qed.

(** *** Calls on a value that is there *)

Lemma on_vset_sim {A} k (f : Vset W → option (Vset W * A)) :
  key_ok k → sim 0 eq (on_vset (C := C) E k f) (r_on E k D_SORTED_SET (on_vs f)).
Proof.
  intros Hk. eapply sim_ext; [intros db; apply on_vset_form|done|]. apply payload_sim; [done|done|apply vset_val].
Qed.

Lemma on_map_sim {A B} N (R : A → B → Prop) k f (g : gmap string string → gmap string string * B) :
  key_ok k → 0 ≤ N →
  (∀ n m l, 0 ≤ n → n + N ≤ max_elems → map_rel n m l →
     ∃ m' x, f m = Some (m', x) ∧ map_rel (n + N) m' (g l).1 ∧ R x (g l).2) →
  sim N R (on_map (C := C) (W := W) E k f) (r_on E k D_MAP (on_kvs g)).
Proof.
  intros Hk HN Hf. eapply sim_ext; [intros db; apply on_map_form|done|]. apply payload_sim; [done|done|by apply map_val].
Qed.

Lemma on_set_sim {A B} N (R : A → B → Prop) k f (g : gset string → gset string * B) :
  key_ok k → 0 ≤ N →
  (∀ n m l u, 0 ≤ n → n + N ≤ max_elems → set_rel n m l u →
     ∃ m' x, f m = Some (m', x) ∧ set_rel (n + N) m' (g l).1 u ∧ R x (g l).2) →
  sim N R (on_set (C := C) (W := W) E k f) (r_on E k D_SET (on_mset g)).
Proof.
  intros Hk HN Hf. eapply sim_ext; [intros db; apply on_set_form|done|]. apply payload_sim; [done|done|by apply set_val].
Qed.

(** A value or an error code. *)
Lemma found_sim {A B} N (f : A → out W) c (m : M (MmkvDb W C) (option A)) (r : M (ADb W C) (option B)) (R : A → B → Prop) g :
  sim N (option_Forall2 R) m r → 0 ≤ N → (∀ x y, R x y → out_rel (f x) (g y)) →
  sim N out_rel (ok_ f (x ← m; found_or c x)) (x ← r; ok_ g (r_or c x)).
Proof.
  intros Hm HN HR. eapply sim_ext; [intros db; apply bind_assoc|done|]. apply (sim_last N (option_Forall2 R)); [done|done|].
  intros _ _ [x y Hxy|]; [apply sim_ret; by apply HR|apply sim_stop].
Qed.

Lemma eq_option_Forall2 {A} (x : option A) : option_Forall2 eq x x.
Proof. destruct x; by constructor. Qed.

(** A flag or an error code. *)
Lemma flag_sim {A B} N c (b : A → bool) (b' : B → bool) (m : M (MmkvDb W C) A) (r : M (ADb W C) B) (R : A → B → Prop) :
  sim N R m r → 0 ≤ N → (∀ x y, R x y → b x = b' y) →
  sim N (out_rel (W := W)) (done (x ← m; if b x then mret () else stop c)) (x ← r; if b' x then mret ODone else stop c).
Proof.
  intros Hm HN HR. eapply sim_ext; [intros db; apply bind_assoc|done|]. apply (sim_last N R); [done|done|].
  intros x y Hxy. rewrite (HR x y Hxy). destruct (b' y); [apply sim_ret; constructor|apply sim_stop].
Qed.

(** The shard is checked first. *)
Lemma shard_then {A} N k (m : M (MmkvDb W C) A) (f : M (MmkvDb W C) A → M (MmkvDb W C) (out W)) (r : M (ADb W C) (out W)) :
  (∀ db, f (CHECK_SHARD E k;; m) db = (CHECK_SHARD E k;; f m) db) → 0 ≤ N →
  sim N out_rel (f m) r → sim N out_rel (f (CHECK_SHARD E k;; m)) (r_shard E k;; r).
Proof.
  intros Hf HN Hm. eapply sim_ext; [exact Hf|done|]. apply (sim_then N eq); [apply shard_sim|done|by intros].
Qed.

Lemma vset_num_sim {A} k (g : A → out W) (f : Vset W → option (Vset W * A)) :
  key_ok k → sim 1 out_rel (ok_ g (on_vset (C := C) E k f)) (ok_ g (r_on E k D_SORTED_SET (on_vs f))).
Proof. intros Hk. eapply cheap_sim; [|apply Z.le_0_1]. apply (sim_ok 0 eq); [by apply on_vset_sim|done|by intros x _ <-]. Qed.

Lemma vset_found_sim {A} k (g : A → out W) (f : Vset W → option (Vset W * option A)) :
  key_ok k →
  sim 1 out_rel (ok_ g (x ← on_vset (C := C) E k f; found_or S_VMEMBER_NONEXISTS x))
    (x ← r_on E k D_SORTED_SET (on_vs f); ok_ g (r_or S_VMEMBER_NONEXISTS x)).
Proof.
  intros Hk. eapply cheap_sim; [|apply Z.le_0_1]. apply (found_sim 0 g S_VMEMBER_NONEXISTS _ _ eq); [|done|by intros x _ <-].
  eapply sim_mono; [by apply on_vset_sim|done|]. intros x _ <-. apply eq_option_Forall2.
Qed.

Lemma vset_cmds_sim (c : cmd W) :
  match c with
  | CVsetDel k _ | CVsetDelRange k _ _ | CVsetDelRangeByWeight k _ _ | CVsetSize k | CVsetSizeByWeight k _ _
  | CVsetWeight k _ | CVsetOrder k _ | CVsetROrder k _ | CVsetAll k | CVsetRange k _ _ | CVsetRangeByWeight k _ _
  | CVsetRRange k _ _ | CVsetRRangeByWeight k _ _ => key_ok k → cmd_sim c
  | _ => True
  end.
Proof.
  destruct c; try done; intros Hk; unfold cmd_sim; cbn [run_cmd ref_cmd].
  - unfold VsetDel. apply (shard_then 1); [intros db; apply bind_assoc|lia|]. eapply cheap_sim; [|apply Z.le_0_1].
    apply (flag_sim 0 S_VMEMBER_NONEXISTS id id _ _ eq); [by apply on_vset_sim|done|by intros x _ <-].
  - unfold VsetDelRange. apply (shard_then 1); [intros db; apply bind_assoc|lia|by apply vset_num_sim].
  - unfold VsetDelRangeByWeight. apply (shard_then 1); [intros db; apply bind_assoc|lia|by apply vset_num_sim].
  - by apply vset_num_sim.
  - by apply vset_num_sim.
  - by apply vset_found_sim.
  - by apply vset_found_sim.
  - by apply vset_found_sim.
  - by apply vset_num_sim.
  - by apply vset_num_sim.
  - by apply vset_num_sim.
  - by apply vset_num_sim.
  - by apply vset_num_sim.
Qed.

(** Done, or an error code. *)
Lemma done_sim {A B} N (f : A → M (MmkvDb W C) ()) (g : B → M (ADb W C) (out W)) (m : M (MmkvDb W C) A) r (R : A → B → Prop) :
  sim N R m r → 0 ≤ N → (∀ x y, R x y → sim 0 (out_rel (W := W)) (done (f x)) (g y)) →
  sim N (out_rel (W := W)) (done (x ← m; f x)) (x ← r; g x).
Proof. intros Hm HN HR. eapply sim_ext; [intros db; apply bind_assoc|done|]. by apply (sim_last N R). Qed.

Lemma map_find_on k f : key_ok k → sim 0 (option_Forall2 eq) (on_map (C := C) (W := W) E k (λ m, map_Find m f))
  (r_on E k D_MAP (on_kvs (λ m, (m, m !! f)))).
Proof.
  intros Hk. apply on_map_sim; [done|done|]. intros n m l Hn Hm Hl. destruct (map_find_rel n m l f Hl) as (m' & -> & Hm').
  exists m', (l !! f). rewrite Z.add_0_r. split_ands; [done|done|]. apply eq_option_Forall2.
Qed.

Lemma map_iter_on {A} (g : KeyValue string string → A) h k :
  key_ok k → (∀ m, map g (pairs_of m) = h m) →
  sim 0 (≡ₚ) (on_map (C := C) (W := W) E k (λ m, l ← map_entries m; Some (m, map g l))) (r_on E k D_MAP (on_kvs (λ m, (m, h m)))).
Proof.
  intros Hk Hh. apply on_map_sim; [done|done|]. intros n m l Hn Hm Hl. destruct (map_entries_rel n m l Hl) as (es & -> & Hp).
  exists m, (map g es). rewrite Z.add_0_r. split_ands; [done|done|]. cbn. rewrite <-Hh. by apply Permutation_map.
Qed.

Lemma pairs_fst (m : gmap string string) : map Comparator.key (pairs_of m) = (map_to_list m).*1.
Proof. unfold pairs_of. rewrite map_map. done. Qed.

Lemma pairs_snd (m : gmap string string) : map value (pairs_of m) = (map_to_list m).*2.
Proof. unfold pairs_of. rewrite map_map. done. Qed.

Lemma map_cmds_sim (c : cmd W) :
  match c with
  | CMapGet k _ | CMapGets k _ | CMapSet k _ _ | CMapDel k _ | CMapSize k | CMapExists k _ | CMapFields k | CMapValues k
  | CMapAll k => key_ok k → cmd_sim c
  | _ => True
  end.
Proof.
  destruct c; try done; intros Hk; unfold cmd_sim; cbn [run_cmd ref_cmd].
  - eapply cheap_sim; [|apply Z.le_0_1]. apply (found_sim 0 OString S_FIELD_NONEXISTS _ _ eq); [by apply map_find_on|done|].
    by intros x _ <-.
  - eapply cheap_sim; [|apply Z.le_0_1]. apply (found_sim 0 OList S_FIELD_NONEXISTS _ _ eq); [|done|by intros x _ <-].
    apply on_map_sim; [done|done|]. intros n m l Hn Hm Hl. destruct (map_gets_rel n m l fs Hl) as (m' & -> & Hm').
    exists m', (mapM (l !!.) fs). rewrite Z.add_0_r. split_ands; [done|done|]. apply eq_option_Forall2.
  - unfold MapSet. apply (shard_then 1); [intros db; apply bind_assoc|lia|]. apply (sim_done 1 eq); [|lia].
    apply on_map_sim; [done|lia|]. intros n m l Hn Hm Hl. destruct (map_set_rel n m l f v Hl ltac:(lia)) as (m' & -> & Hm').
    by exists m', ().
  - unfold MapDel. apply (shard_then 1); [intros db; apply bind_assoc|lia|]. eapply cheap_sim; [|apply Z.le_0_1].
    apply (done_sim 0 _ _ _ _ (λ x y, x = if decide (is_Some y) then 1 else 0)); [|done|].
    + apply on_map_sim; [done|done|]. intros n m l Hn Hm Hl. destruct (map_erase_rel n m l f Hl) as (m' & -> & Hm').
      eexists m', _. rewrite Z.add_0_r. by split_ands.
    + intros x [y|] ->; [apply sim_ret; constructor|apply sim_stop].
  - eapply cheap_sim; [|apply Z.le_0_1]. apply (sim_ok 0 eq); [|done|by intros x _ <-].
    apply on_map_sim; [done|done|]. intros n m l Hn Hm [Hd Hl]. eexists m, _. rewrite Z.add_0_r. split_ands; [done|done|].
    pose proof (dict_is_size 0 n m Hd ltac:(unfold max_elems in *; lia)) as Hs. change (d_size m) with (hash_size m) in Hs. rewrite Hs, Hl. cbn. lia.
  - eapply cheap_sim; [|apply Z.le_0_1]. apply (done_sim 0 _ _ _ _ (option_Forall2 eq)); [by apply map_find_on|done|].
    intros _ _ [x y _|]; [apply sim_ret; constructor|apply sim_stop].
  - eapply cheap_sim; [|apply Z.le_0_1]. apply (sim_ok 0 (≡ₚ)); [|done|by constructor].
    apply (map_iter_on Comparator.key); [done|apply pairs_fst].
  - eapply cheap_sim; [|apply Z.le_0_1]. apply (sim_ok 0 (≡ₚ)); [|done|by constructor].
    apply (map_iter_on value); [done|apply pairs_snd].
  - eapply cheap_sim; [|apply Z.le_0_1]. apply (sim_ok 0 (≡ₚ)); [|done|by constructor].
    eapply sim_ext; [|done|apply (map_iter_on id); [done|intros m; apply map_id]].
    intros db. apply bind_ext. intros _ db1. apply bind_ext. intros s db2. rewrite !bind_lift. destruct (as_map _) as [m|]; [|done].
    rewrite !bind_lift. destruct (map_entries m); [|done]. cbn. by rewrite map_id.
Qed.

Lemma set_cmds_sim (c : cmd W) :
  match c with
  | CSetDelm k _ | CSetSize k | CSetExists k _ | CSetAll k => key_ok k → cmd_sim c
  | _ => True
  end.
Proof.
  destruct c; try done; intros Hk; unfold cmd_sim; cbn [run_cmd ref_cmd].
  - unfold SetDelm. apply (shard_then 1); [intros db; apply bind_assoc|lia|]. eapply cheap_sim; [|apply Z.le_0_1].
    apply (done_sim 0 _ _ _ _ (λ x y, x = if y : bool then 1 else 0)); [|done|].
    + apply on_set_sim; [done|done|]. intros n s l u Hn Hm Hl. destruct (set_erase_rel n s l u m Hl) as (s' & -> & Hs').
      eexists s', _. rewrite Z.add_0_r. split_ands; [done|done|]. cbn. by case_decide; case_bool_decide.
    + intros x [] ->; [apply sim_ret; constructor|apply sim_stop].
  - eapply cheap_sim; [|apply Z.le_0_1]. apply (sim_ok 0 eq); [|done|by intros x _ <-].
    eapply sim_ext; [intros db; apply on_set_form|done|]. apply payload_sim; [done|done|].
    intros n p v Hn Hm Ht Hp. destruct v as [| | | |l u]; simplify_eq/=. destruct p as [| | | |s]; simplify_eq/=; try done.
    constructor. cbn. rewrite Z.add_0_r. split_ands; [done|done|]. apply (set_size_rel n); [done|lia].
  - eapply cheap_sim; [|apply Z.le_0_1].
    apply (done_sim 0 _ _ _ _ (λ x y, bool_decide (is_Some x) = y)); [|done|].
    + apply on_set_sim; [done|done|]. intros n s l u Hn Hm Hl. destruct (set_find_rel n s l u m Hl) as (s' & -> & Hs').
      eexists s', _. rewrite Z.add_0_r. split_ands; [done|done|]. cbn. case_decide.
      * by rewrite !bool_decide_eq_true_2.
      * by rewrite !bool_decide_eq_false_2 by (done || by intros []).
    + intros [x|] _ <-; [apply sim_ret; constructor|apply sim_stop].
  - eapply cheap_sim; [|apply Z.le_0_1]. apply (sim_ok 0 (≡ₚ)); [|done|by constructor].
    apply on_set_sim; [done|done|]. intros n s l u Hn Hm Hl. destruct (set_members_rel n s l u Hl) as (es & -> & Hp).
    eexists s, _. rewrite Z.add_0_r. by split_ands.
Qed.
End values.

(** ** Replacement *)

Section replacement.
Context {W C : Type} `{Comparator W} `{!CacheInterface C addr}
  `{HS : !HashFunc string} `{HA : !HashFunc addr} `{HZ : !HashFunc Z}.
Context (E : Env).
Implicit Types (n : Z) (k : string) (x : addr) (db : MmkvDb W C) (a : ADb W C).

(** The entries a walk over the tables finds are those of the map. *)
Lemma elem_kv_view {V} e n (d : AvlDict string V) kv :
  dict_is e n d → kv ∈ all_elems d ↔ kv_view d !! Comparator.key kv = Some (value kv).
Proof.
  intros (dr & [Hw _] & _ & _). pose proof Hw as (_ & [Hnd _] & _). unfold kv_view. rewrite lookup_fmap.
  change (d_view d) with (kmap TO_GK (all_elems d)). split.
  - intros Hin. by rewrite (kmap_lookup TO_GK _ kv Hnd Hin).
  - intros (kv' & Hl & Hv)%fmap_Some. apply kmap_lookup_inv in Hl as [Hk Hin].
    replace kv with kv'; [done|]. destruct kv, kv'; cbn in *; congruence.
Qed.

Lemma head_filter_Some {A} (P : A → Prop) `{∀ y, Decision (P y)} (l : list A) y : head (filter P l) = Some y → P y ∧ y ∈ l.
Proof.
  intros Hh. apply (list_elem_of_filter P). destruct (filter P l); [done|]. injection Hh as ->. by left.
Qed.

Lemma head_filter_None {A} (P : A → Prop) `{∀ y, Decision (P y)} (l : list A) y : head (filter P l) = None → P y → y ∉ l.
Proof.
  intros Hh HP Hin. assert (y ∈ filter P l) as Hy by (by apply (list_elem_of_filter P)). destruct (filter P l); [set_solver|done].
Qed.

Lemma deref_rel n db a x : db_rel n db a → deref_in (dict_ db) x = a_deref (a_dict a) x.
Proof.
  intros (Hd & Hm & _ & _ & _ & _ & [Hinj _]). unfold deref_in, a_deref.
  destruct (head (filter _ (all_elems (dict_ db)))) as [kv|] eqn:Hh;
    destruct (head (filter _ (map_to_list (a_dict a)))) as [ke|] eqn:Hg; cbn; [|exfalso|exfalso|done].
  - apply head_filter_Some in Hh as [Hx Hin], Hg as [Hx' Hin']. apply (elem_kv_view _ _ _ _ Hd) in Hin.
    destruct ke as [k e]. apply elem_of_map_to_list in Hin'. f_equal. cbn in *.
    destruct (dict_rel_Some_l _ _ _ _ _ Hm Hin) as (e' & He' & Ha & _). eapply Hinj; [done|done|congruence].
  - apply head_filter_Some in Hh as [Hx Hin]. apply (elem_kv_view _ _ _ _ Hd) in Hin.
    destruct (dict_rel_Some_l _ _ _ _ _ Hm Hin) as (e & He & Ha & _).
    apply (head_filter_None _ _ (Comparator.key kv, e)) in Hg; [|cbn; congruence]. by apply Hg, elem_of_map_to_list.
  - apply head_filter_Some in Hg as [Hx Hin]. destruct ke as [k e]. apply elem_of_map_to_list in Hin. cbn in *.
    destruct (dict_rel_Some _ _ _ _ _ Hm Hin) as (s & Hs & Ha & _).
    apply (head_filter_None _ _ (MkKeyValue k s)) in Hh; [|cbn; congruence]. by apply Hh, (elem_kv_view _ _ _ _ Hd).
Qed.

Lemma deref_key n db a x k :
  db_rel n db a → a_deref (a_dict a) x = Some k → key_ok k ∧ is_Some (a_dict a !! k).
Proof.
  intros (Hd & Hm & _) Hx. unfold a_deref in Hx. apply fmap_Some in Hx as ([k' e] & Hh & ->).
  apply head_filter_Some in Hh as [_ Hin]. apply elem_of_map_to_list in Hin. cbn.
  destruct (dict_rel_Some _ _ _ _ _ Hm Hin) as (s & Hs & _). split; [|by eauto]. exact (dict_is_key _ _ _ _ _ Hd Hs).
Qed.

Lemma replace_sim pkey : sim 0 eq (TryReplacekey (W := W) (C := C) E pkey) (r_replace E pkey).
Proof.
  intros n db a Hn Hmax Hd. rewrite Z.add_0_r. unfold TryReplacekey, r_replace. rewrite !bind_get.
  pose proof Hd as (_ & _ & _ & _ & -> & _). destruct (cache_ (a_aux a)) as [c|]; [|by apply answers_ok].
  destruct (memory_usage E <? max_memory_usage E); [by apply answers_ok|]. rewrite !bind_lift.
  destruct pkey as [[x k]|]; [|done]. eapply aux_bind; [done|done|]. intros locked y.
  destruct locked; [by apply answers_ok; [apply db_rel_aux|]|]. rewrite !bind_lift. destruct (Victim c) as [[v|]|];
    [|by apply answers_ok; [apply db_rel_aux|]|done].
  case_bool_decide; [by apply answers_ok; [apply db_rel_aux|]|]. rewrite bind_get, !bind_lift.
  rewrite (deref_rel n _ (set_a_aux a y) v) by (by apply db_rel_aux). db_simpl.
  destruct (a_deref (a_dict a) v) as [vk|] eqn:Hv; [|done].
  destruct (deref_key n db a v vk Hd Hv) as [Hk [e He]].
  assert (db_rel n (with_aux db y) (set_a_aux a y)) as Hd' by (by apply db_rel_aux).
  destruct (extract_step n _ _ vk Hd' Hk) as (db2 & Hx & Hd2). rewrite (bind_ok _ _ _ _ _ Hx).
  pose proof Hd as (_ & Hm & _). destruct (dict_rel_Some _ _ _ _ _ Hm He) as (s & Hs & Hse). db_simpl. rewrite Hs.
  rewrite bool_decide_eq_true_2 by done. rewrite (bind_ok (check true) _ db2 db2 ()) by done.
  rewrite (bind_ok (r_remove vk) _ _ _ _ eq_refl). rewrite !bind_lift. destruct (DelVictim c) as [c'|]; [|done].
  eapply aux_bind; [done|done|]. intros [] y2. destruct (log_request E).
  - rewrite <-(bind_unit (r_aux _)). eapply aux_bind; [by apply db_rel_aux|done|]. intros [] y3.
    rewrite (drop_step n s e _ Hse). apply answers_ok; [|done]. by do 2 apply db_rel_aux.
  - rewrite (bind_ok (mret _) _ _ _ _ eq_refl), (drop_step n s e _ Hse). apply answers_ok; [|done]. by apply db_rel_aux.
Qed.
End replacement.

(** ** The other calls *)

Section common.
Context {W C : Type} `{Comparator W} `{!CacheInterface C addr}
  `{HS : !HashFunc string} `{HA : !HashFunc addr} `{HZ : !HashFunc Z}.
Context (E : Env).
Implicit Types (n : Z) (k v : string) (x : addr) (db : MmkvDb W C) (a : ADb W C) (s : Slot W) (e : addr * AVal W).
Abbreviation MD := (M (MmkvDb W C)).
Abbreviation MR := (M (ADb W C)).

(** *** New entries *)

(** The cache and the shard index return to the caller. *)
Lemma CacheAdd_returns x (y : Aux C) : match CacheAdd x y with Some (_, inr _) => False | _ => True end.
Proof.
  unfold CacheAdd. rewrite bind_get. destruct (cache_ y) as [c|]; [|done]. rewrite bind_lift. by destruct (UpdateEntry c x) as [[]|].
Qed.

Lemma AddKeyToShard_returns x k (y : Aux C) : match AddKeyToShard E x k y with Some (_, inr _) => False | _ => True end.
Proof.
  unfold AddKeyToShard. destruct (is_sharder E); [|done]. unfold on_shard, call, lift, mbind, M_bind, mret, M_ret, option_bind.
  repeat case_match; simplify_eq/=; try done; repeat case_match; simplify_eq/=; done.
Qed.

Lemma insert_str_sim k v : key_ok k → cmd_sim (C := C) (W := W) E (CInsertStr k v).
Proof.
  intros Hk. unfold cmd_sim. cbn [run_cmd ref_cmd]. assert (0 ≤ cmd_cost (W := W) (CInsertStr k v)) as Hc by (unfold cmd_cost; lia).
  unfold InsertStr. apply (shard_then E); [intros db; apply bind_assoc|done|].
  eapply sim_ext; [intros db; apply bind_assoc|done|]. apply (sim_then _ eq); [apply replace_sim|done|]. intros _ _ _.
  eapply sim_ext; [intros db; apply bind_assoc|done|]. intros n db a Hn Hm Hd. unfold cmd_cost in Hm |- *.
  set (len := Z.of_nat (String.length v)) in *. assert (db_rel (n + len) db a) as Hd' by (eapply db_rel_mono; [done|lia]).
  replace (n + (1 + len)) with (n + len + 1) by lia. unfold r_lookup.
  rewrite (bind_ok _ _ a a (a_dict a !! k)) by done. destruct (a_dict a !! k) as [e|] eqn:Hl.
  - destruct (dup_step (n + len) db a k e D_STRING Hd' ltac:(lia) Hk Hl) as (db1 & s & _ & Hi & Hd1 & _).
    rewrite (bind_ok _ _ _ _ _ Hi). by exists db1, (inr S_EXISTS).
  - destruct (add_step (n + len) db a k (AStr v) (PString v) Hd' ltac:(lia) Hk Hl) as (db1 & db2 & _ & Hi & Hax & Hset & Hd2);
      [split; [done|lia]|].
    specialize (Hset (aux db1)). replace (with_aux db1 (aux db1)) with db1 in Hset by (by destruct db1).
    assert (aux db2 = aux db1) as Hax2 by (rewrite Hax; apply Hd2).
    replace (with_aux db2 (aux db1)) with db2 in Hset by (rewrite <-Hax2; by destruct db2).
    cbn [val_type] in *. rewrite (bind_ok _ _ _ _ _ Hi), bind_assoc, (bind_ok _ _ _ _ _ Hset), bind_assoc, r_create_bind.
    eapply aux_bind; [done|done|]. intros [] y1. cbn [slot_addr]. eapply aux_bind; [by apply db_rel_aux|done|]. intros [] y2.
    apply answers_ok; [by do 2 apply db_rel_aux|constructor].
Qed.

Lemma list_add_sim k es : key_ok k → cmd_sim (C := C) (W := W) E (CListAdd k es).
Proof.
  intros Hk. unfold cmd_sim. cbn [run_cmd ref_cmd]. assert (0 ≤ cmd_cost (W := W) (CListAdd k es)) as Hc by (unfold cmd_cost; lia).
  unfold ListAdd. apply (shard_then E); [intros db; apply bind_assoc|done|].
  eapply sim_ext; [intros db; apply bind_assoc|done|]. intros n db a Hn Hm Hd. unfold cmd_cost in Hm |- *.
  set (len := Z.of_nat (length es)) in *. assert (db_rel (n + len) db a) as Hd' by (eapply db_rel_mono; [done|lia]).
  replace (n + (1 + len)) with (n + len + 1) by lia. unfold r_lookup.
  rewrite (bind_ok _ _ a a (a_dict a !! k)) by done. destruct (a_dict a !! k) as [e|] eqn:Hl.
  - destruct (dup_step (n + len) db a k e D_STRLIST Hd' ltac:(lia) Hk Hl) as (db1 & s & _ & Hi & Hd1 & _).
    rewrite (bind_ok _ _ _ _ _ Hi). by exists db1, (inr S_EXISTS).
  - destruct (push_back_each n StrList_init [] es) as (sl & Hsl & Hslr); [by apply list_rel_init|unfold len in *; lia|].
    destruct (add_step (n + len) db a k (AList es) (PStrList sl) Hd' ltac:(lia) Hk Hl) as (db1 & db2 & _ & Hi & Hax & Hset & Hd2);
      [eapply list_rel_mono; [exact Hslr|lia]|].
    cbn [val_type] in *. rewrite (bind_ok _ _ _ _ _ Hi), bind_assoc, bind_lift, Hsl, bind_assoc, r_create_bind. cbn [slot_addr].
    unfold mbind, M_bind, on_aux, r_aux, zoom. rewrite Hax. change (a_aux (added a k (AList es))) with (a_aux a).
    pose proof (CacheAdd_returns (a_next a) (a_aux a)) as H1.
    destruct (CacheAdd (a_next a) (a_aux a)) as [[y1 [[]|c1]]|]; cbn [mbind option_bind]; [|done|done].
    db_simpl. pose proof (AddKeyToShard_returns (a_next a) k y1) as H2.
    destruct (AddKeyToShard E (a_next a) k y1) as [[y2 [[]|c2]]|]; cbn [mbind option_bind]; [|done|done].
    change (with_aux (with_aux db1 y1) y2) with (with_aux db1 y2). rewrite Hset. apply answers_ok; [|constructor].
    change (set_a_aux (set_a_aux ?b ?y) ?z) with (set_a_aux b z). by apply db_rel_aux.
Qed.

Lemma set_str_sim k v : key_ok k → cmd_sim (C := C) (W := W) E (CSetStr k v).
Proof.
  intros Hk. unfold cmd_sim. cbn [run_cmd ref_cmd]. assert (0 ≤ cmd_cost (W := W) (CSetStr k v)) as Hc by (unfold cmd_cost; lia).
  unfold SetStr. apply (shard_then E); [intros db; apply bind_assoc|done|].
  eapply sim_ext; [intros db; apply bind_assoc|done|]. apply (sim_then _ eq); [by apply not_expired_sim|done|]. intros _ _ _.
  eapply sim_ext; [intros db; apply bind_assoc|done|]. intros n db a Hn Hm Hd. unfold cmd_cost in Hm |- *.
  set (len := Z.of_nat (String.length v)) in *. assert (db_rel (n + len) db a) as Hd' by (eapply db_rel_mono; [done|lia]).
  replace (n + (1 + len)) with (n + len + 1) by lia. unfold r_lookup.
  assert (∀ db' a', db_rel (n + len + 1) db' a' →
    answers (n + len + 1) (out_rel (W := W)) ((TryReplacekey E None;; mret ODone) db') ((r_replace E None;; mret ODone) a')) as Hrep.
  { intros db' a' Hd1. replace (n + len + 1) with (n + len + 1 + 0) by lia.
    apply (sim_last 0 eq); [apply replace_sim|done| |unfold len; lia|lia|done]. intros [] [] _. apply sim_ret. constructor. }
  rewrite (bind_ok _ _ a a (a_dict a !! k)) by done. destruct (a_dict a !! k) as [e|] eqn:Hl.
  - destruct (dup_step (n + len) db a k e D_STRING Hd' ltac:(lia) Hk Hl) as (db1 & s & Hi & _ & Hd1 & Haddr & p & Hp & Hpv).
    rewrite (bind_ok _ _ _ _ _ Hi), bind_assoc, Hp. cbn [type]. case_bool_decide as Ht; [|by exists db1, (inr S_EXISTS_DIFF_TYPE)].
    rewrite bind_assoc, bind_lift. destruct e as [x w]. cbn [fst snd] in *. destruct w as [str| | | |]; try discriminate Ht.
    destruct p; try done. cbn [as_string any_data]. rewrite bind_assoc.
    destruct (set_step (n + len + 1) db1 a k s (x, AStr str) (PString v) Hd1 Hl Haddr (AStr v)) as (db2 & Hset & Hd2);
      [by rewrite Hp|split; [done|unfold len; lia]|].
    rewrite (bind_ok _ _ _ _ _ Hset), (bind_ok (r_put k _) _ _ _ _ eq_refl), Haddr.
    eapply aux_bind; [done|done|]. intros [] y. apply Hrep. by apply db_rel_aux.
  - destruct (add_step (n + len) db a k (AStr v) (PString v) Hd' ltac:(lia) Hk Hl) as (db1 & db2 & Hi & _ & Hax & Hset & Hd2);
      [split; [done|lia]|].
    specialize (Hset (aux db1)). replace (with_aux db1 (aux db1)) with db1 in Hset by (by destruct db1).
    assert (aux db2 = aux db1) as Hax2 by (rewrite Hax; apply Hd2).
    replace (with_aux db2 (aux db1)) with db2 in Hset by (rewrite <-Hax2; by destruct db2).
    cbn [val_type] in *. rewrite (bind_ok _ _ _ _ _ Hi), !bind_assoc, (bind_ok _ _ _ _ _ Hset), bind_assoc, r_create_bind.
    eapply aux_bind; [done|done|]. intros [] y1. cbn [slot_addr]. eapply aux_bind; [by apply db_rel_aux|done|]. intros [] y2.
    apply Hrep. by do 2 apply db_rel_aux.
Qed.

(** *** Strings *)

Lemma string_length_app (w w' : string) : String.length (w +:+ w') = (String.length w + String.length w')%nat.
Proof. induction w as [|c w IH]; [done|]. simpl. by rewrite IH. Qed.

Lemma substring_length_le i j (w : string) n : Z.of_nat (String.length w) ≤ n → Z.of_nat (String.length (String.substring i j w)) ≤ n.
Proof.
  intros Hw. etrans; [|exact Hw]. apply inj_le. clear. revert i j.
  induction w as [|c w IH]; intros i j; [destruct i, j; simpl; lia|]. destruct i as [|i], j as [|j]; simpl; try lia.
  - specialize (IH 0%nat j). lia.
  - specialize (IH i 0%nat). lia.
  - specialize (IH i (S j)). lia.
Qed.

(** [GetStr], and then something with the string. *)
Lemma get_str_then {A B} N (R : A → B → Prop) k (f : Slot W * string → MD A) (g : addr * AVal W → MR B) :
  key_ok k → 0 ≤ N →
  (∀ n s e str db a, 0 ≤ n → n + N ≤ max_elems → db_rel n db a → a_dict a !! k = Some e → slot_rel n s e → e.2 = AStr str →
     answers (n + N) R (f (s, str) db) (g e a)) →
  sim N R (GetStr E k ≫= f) (r_not_expired E k;; e ← r_typed k D_STRING; r_aux (CacheUpdate e.1);; g e).
Proof.
  intros Hk HN Hf. unfold GetStr. eapply sim_ext; [intros db; apply bind_assoc|done|].
  apply (sim_then N eq); [by apply not_expired_sim|done|]. intros _ _ _ n db a Hn Hm Hd.
  destruct (find_step n db a k Hd Hk) as (db1 & Hfi & Hd1 & _). rewrite bind_assoc, (bind_ok _ _ _ _ _ Hfi).
  unfold r_typed, r_lookup. rewrite bind_assoc, (bind_ok _ _ a a (a_dict a !! k)) by done.
  pose proof Hd as (_ & Hmr & _). destruct (a_dict a !! k) as [e|] eqn:Hl.
  - destruct (dict_rel_Some _ _ _ _ _ Hmr Hl) as (s & -> & Hse). pose proof Hse as (Haddr & p & Hp & Hpv). rewrite Hp. cbn [type].
    case_bool_decide as Ht; [|exists db1, (inr S_EXISTS_DIFF_TYPE); split_ands; [done|eapply db_rel_mono; [done|lia]|done]].
    destruct e as [x w]. cbn [fst snd] in *. destruct w as [str| | | |]; try discriminate Ht.
    destruct p as [str'| | | |]; try done. rewrite bind_assoc, bind_lift. cbn [as_string any_data].
    destruct Hpv as [-> Hlen].
    rewrite bind_assoc, (bind_ok (mret _) _ _ _ _ eq_refl), Haddr. eapply aux_bind; [done|lia|]. intros [] y.
    rewrite (bind_ok (mret _) _ _ _ _ eq_refl). apply Hf; try done. by apply db_rel_aux.
  - apply (dict_rel_None _ _ _ k Hmr) in Hl. rewrite Hl. exists db1, (inr S_NONEXISTS).
    split_ands; [done|eapply db_rel_mono; [done|lia]|done].
Qed.

Lemma get_str_sim k : key_ok k → cmd_sim (C := C) (W := W) E (CGetStr k).
Proof.
  intros Hk. unfold cmd_sim. eapply cheap_sim; [|apply Z.le_0_1]. cbn [run_cmd ref_cmd]. unfold ok_.
  apply (get_str_then 0); [done|done|]. intros n s [x w] str db a Hn Hm Hd Hl Hse He. cbn in He. subst w.
  apply answers_ok; [|constructor]. by rewrite Z.add_0_r.
Qed.

Lemma str_append_sim k v : key_ok k → cmd_sim (C := C) (W := W) E (CStrAppend k v).
Proof.
  intros Hk. unfold cmd_sim. cbn [run_cmd ref_cmd]. assert (0 ≤ cmd_cost (W := W) (CStrAppend k v)) as Hc by (unfold cmd_cost; lia).
  unfold StrAppend. apply (shard_then E); [intros db; apply bind_assoc|done|]. unfold done.
  eapply sim_ext; [intros db; apply bind_assoc|done|]. apply get_str_then; [done|done|].
  intros n s [x w] str db a Hn Hm Hd Hl Hse He. cbn in He. subst w. unfold cmd_cost in *.
  set (N := 1 + Z.of_nat (String.length v)) in *. destruct Hse as (Haddr & p & Hp & Hpv). destruct p; try done. destruct Hpv as [-> Hlen].
  destruct (set_step (n + N) db a k s (x, AStr str) (PString (str +:+ v)) ltac:(eapply db_rel_mono; [done|lia]) Hl Haddr (AStr (str +:+ v)))
    as (db2 & Hset & Hd2); [by rewrite Hp|split; [done|]|].
  { rewrite string_length_app. unfold N. cbn in Hlen. lia. }
  rewrite bind_assoc, (bind_ok _ _ _ _ _ Hset). cbn [on_str snd]. rewrite bind_lift. cbn [mbind option_bind]. rewrite (bind_ok (r_put k _) _ _ _ _ eq_refl).
  replace (n + N) with (n + N + 0) by lia. apply (sim_last 0 eq); [apply replace_sim|done| |unfold N; lia|lia|done].
  intros [] [] _. apply sim_ret. constructor.
Qed.

Lemma str_pop_sim k count : cmd_ok (W := W) (CStrPopBack k count) → cmd_sim (C := C) (W := W) E (CStrPopBack k count).
Proof.
  intros [Hk Hcnt]. unfold cmd_sim. cbn [run_cmd ref_cmd]. unfold StrPopBack.
  apply (shard_then E 1); [intros db; apply bind_assoc|lia|]. unfold done. eapply cheap_sim; [|apply Z.le_0_1].
  eapply sim_ext; [intros db; apply bind_assoc|done|]. apply get_str_then; [done|done|].
  intros n s [x w] str db a Hn Hm Hd Hl (Haddr & p & Hp & Hpv) He. cbn in He. subst w. destruct p; try done. destruct Hpv as [-> Hlen].
  rewrite Z.add_0_r in *. unfold max_elems in Hm. rewrite bind_assoc. cbn [on_str snd]. rewrite bind_lift.
  destruct (Z.leb_spec count (Z.of_nat (String.length str))) as [Hle|Hgt].
  - rewrite u64_small by lia. destruct (Z.leb_spec (Z.of_nat (String.length str) - count) (Z.of_nat (String.length str))); [|lia].
    rewrite (bind_ok (check true) _ db db ()) by done. cbn [mbind option_bind].
    destruct (set_step n db a k s (x, AStr str) (PString (String.substring 0 (Z.to_nat (Z.of_nat (String.length str) - count)) str)) Hd Hl
      Haddr (AStr (String.substring 0 (Z.to_nat (Z.of_nat (String.length str) - count)) str))) as (db2 & Hset & Hd2); [by rewrite Hp| |].
    { split; [done|]. apply substring_length_le. lia. }
    rewrite (bind_ok _ _ _ _ _ Hset). apply answers_ok; [exact Hd2|constructor].
  - assert (Z.of_nat (String.length str) ⊟ count = Z.of_nat (String.length str) - count + 2 ^ 64) as ->
      by (symmetry; apply Z.mod_unique with (-1); lia).
    destruct (Z.leb_spec (Z.of_nat (String.length str) - count + 2 ^ 64) (Z.of_nat (String.length str))); [lia|done].
Qed.

(** *** Removing entries *)

Lemma erase_sim t with_exp k :
  key_ok k → sim 0 (out_rel (W := W)) (done (erase_of_type (C := C) (W := W) E t with_exp k)) (done (r_erase E t with_exp k)).
Proof.
  intros Hk. apply (sim_done 0 eq); [|done]. unfold erase_of_type, r_erase.
  apply (sim_then 0 eq); [apply shard_sim|done|]. intros _ _ _ n db a Hn Hm Hd. rewrite Z.add_0_r in *.
  pose proof Hd as (Hdi & Hmr & Hx & Hxv & Ha & Hnx & Hu). unfold r_lookup.
  rewrite (bind_ok _ _ a a (a_dict a !! k)) by done. rewrite bind_lift.
  pose proof (find_node_is _ _ _ k Hdi Hk) as Hf. destruct (a_dict a !! k) as [e|] eqn:Hl.
  - destruct (dict_rel_Some _ _ _ _ _ Hmr Hl) as (s & Hs & Hse). rewrite Hs in Hf.
    destruct Hf as (d1 & i & j & x & d2 & Hf & Hd1 & Hv1 & Hen & Hd2 & Hv2).
    rewrite (bind_ok _ _ db (with_dict db d1) (Some (i, j, (x, MkKeyValue k s)))) by (unfold on_dict, call; by rewrite Hf).
    rewrite bind_lift. cbn [value]. destruct Hse as (Haddr & p & Hp & Hpv). rewrite Hp. cbn [type].
    assert (db_rel n (with_dict db d1) a) as Hd'. { rel_simpl. rewrite Hv1. by split_ands. }
    case_bool_decide as Ht; [|by exists (with_dict db d1), (inr S_EXISTS_DIFF_TYPE)]. rewrite Haddr.
    eapply aux_bind; [done|done|]. intros [] y1. eapply aux_bind; [by apply db_rel_aux|done|]. intros [] y2.
    rewrite bind_lift. unfold DeleteSpecificMmkvData. cbn [any_data type].
    assert (payload_type p = val_type e.2) as Hty by (by destruct p, (e.2)). rewrite bool_decide_eq_true_2 by congruence.
    rewrite (bind_ok _ _ _ (with_dict (with_aux (with_aux db y1) y2) d2) 1) by (unfold on_dict, call; db_simpl; by rewrite Hen).
    rewrite (bind_ok (r_remove k) _ _ _ _ eq_refl), (bind_ok r_uncounted _ _ _ _ eq_refl). db_simpl.
    assert (db_rel n (with_dict (with_aux (with_aux db y1) y2) d2)
      (MkADb (delete k (a_dict a)) (a_exp a) y2 (a_uncounted a + 1) (a_next a))) as Hd3.
    { rel_simpl. rewrite Hv2. split_ands; try done; [by apply dict_rel_delete|by apply addrs_ok_delete]. }
    destruct with_exp; [|by apply answers_ok].
    destruct (exp_erase_step n _ _ k Hd3 Hk) as (db4 & -> & Hd4). by apply answers_ok.
  - apply (dict_rel_None _ _ _ k Hmr) in Hl. rewrite Hl in Hf. destruct Hf as (d' & Hf & _).
    rewrite (bind_ok _ _ db (with_dict db d') None) by (unfold on_dict, call; by rewrite Hf). done.
Qed.

Lemma delete_sim k : key_ok k → cmd_sim (C := C) (W := W) E (CDelete k).
Proof.
  intros Hk. unfold cmd_sim. cbn [run_cmd ref_cmd]. unfold Delete. apply (shard_then E 1); [intros db; apply bind_assoc|lia|].
  eapply cheap_sim; [|apply Z.le_0_1]. unfold done. eapply sim_ext; [intros db; apply bind_assoc|done|].
  intros n db a Hn Hm Hd. rewrite Z.add_0_r in *. unfold r_lookup. rewrite (bind_ok _ _ a a (a_dict a !! k)) by done.
  destruct (extract_step n db a k Hd Hk) as (db1 & Hx & Hd1). rewrite (bind_ok _ _ _ _ _ Hx).
  pose proof Hd as (_ & Hmr & _). destruct (a_dict a !! k) as [e|] eqn:Hl.
  - destruct (dict_rel_Some _ _ _ _ _ Hmr Hl) as (s & -> & Hse). pose proof Hse as [Haddr _]. rewrite Haddr.
    rewrite (bind_ok (r_or _ _) _ a a e) by done. rewrite (bind_ok (r_remove k) _ _ _ _ eq_refl), bind_assoc.
    eapply aux_bind; [done|done|]. intros [] y1. rewrite bind_assoc. eapply aux_bind; [by apply db_rel_aux|done|]. intros [] y2.
    rewrite bind_assoc, (bind_ok _ _ _ _ _ (drop_step n s e _ Hse)), (bind_ok (r_exp_remove k) _ _ _ _ eq_refl).
    assert (db_rel n (with_aux (with_aux db1 y1) y2) (set_a_aux (set_a_aux (set_a_dict a (delete k (a_dict a))) y1) y2)) as Hd2
      by (by do 2 apply db_rel_aux).
    destruct (exp_erase_step n _ _ k Hd2 Hk) as (db3 & He & Hd3).
    rewrite (bind_ok _ _ _ _ _ He). apply answers_ok; [exact Hd3|constructor].
  - assert (Hn' := Hl). apply (dict_rel_None _ _ _ k Hmr) in Hn'. rewrite Hn'. exists db1, (inr S_NONEXISTS).
    split_ands; [done| |done]. unfold set_a_dict in Hd1. rewrite delete_id in Hd1 by done. by destruct a.
Qed.

Lemma type_sim k : key_ok k → cmd_sim (C := C) (W := W) E (CType k).
Proof.
  intros Hk. unfold cmd_sim. cbn [run_cmd ref_cmd]. eapply cheap_sim; [|apply Z.le_0_1]. unfold ok_, Type_.
  eapply sim_ext; [intros db; apply bind_assoc|done|]. apply (sim_then 0 eq); [by apply expire_sim|done|].
  intros [b k'] _ <-. destruct b; [apply sim_ret; constructor|]. intros n db a Hn Hm Hd. rewrite Z.add_0_r in *.
  destruct (find_step n db a k Hd Hk) as (db1 & Hf & Hd1 & _). rewrite bind_assoc, (bind_ok _ _ _ _ _ Hf).
  unfold r_lookup. rewrite (bind_ok _ _ a a (a_dict a !! k)) by done.
  pose proof Hd as (_ & Hmr & _). destruct (a_dict a !! k) as [e|] eqn:Hl.
  - destruct (dict_rel_Some _ _ _ _ _ Hmr Hl) as (s & -> & Haddr & p & Hp & _). rewrite Haddr, bind_assoc.
    eapply aux_bind; [done|done|]. intros [] y. apply answers_ok; [by apply db_rel_aux|]. rewrite Hp. constructor.
  - apply (dict_rel_None _ _ _ k Hmr) in Hl. rewrite Hl. apply answers_ok; [done|constructor].
Qed.

(** *** Expiration times *)

Lemma expire_at_sim k t : key_ok k → sim 1 eq (ExpireAtMs (C := C) (W := W) E k t) (r_expire_at E k t).
Proof.
  intros Hk. unfold ExpireAtMs, r_expire_at. apply (sim_then 1 eq); [apply shard_sim|lia|]. intros _ _ _.
  destruct (IsExpirationDisable E); [eapply cheap_sim; [apply sim_stop|lia]|]. intros n db a Hn Hm Hd.
  destruct (find_step n db a k Hd Hk) as (db1 & Hf & Hd1 & _). rewrite (bind_ok _ _ _ _ _ Hf).
  unfold r_lookup. rewrite (bind_ok _ _ a a (a_dict a !! k)) by done.
  pose proof Hd as (_ & Hmr & _). destruct (a_dict a !! k) as [e|] eqn:Hl.
  2: { apply (dict_rel_None _ _ _ k Hmr) in Hl. rewrite Hl. exists db1, (inr S_NONEXISTS).
       split_ands; [done|eapply db_rel_mono; [done|lia]|done]. }
  destruct (dict_rel_Some _ _ _ _ _ Hmr Hl) as (s & -> & _).
  destruct (now_ms E <? t); [|apply answers_ok; [eapply db_rel_mono; [done|lia]|done]].
  assert (db_rel (n + 1) db1 a) as Hd1' by (eapply db_rel_mono; [done|lia]).
  pose proof Hd1 as (_ & _ & [u Hx] & _). pose proof Hd1' as (Hdi & Hmr1 & _ & Hxv & Ha & Hnx & Hu).
  destruct (insert_is u n (exp_dict_ db1) k t Hx ltac:(lia) Hk) as (d' & Hd' & Hi). rewrite Hxv in Hi.
  destruct (a_exp a !! k) as [t'|] eqn:Hlt; destruct Hi as [Hi Hv].
  - rewrite (bind_ok _ _ db1 (with_exp db1 d') (false, MkKeyValue k t')) by (unfold on_exp, call; by rewrite Hi).
    destruct (write_is u (n + 1) d' k t t' Hd') as (d2 & Hw & Hd2 & Hv2); [by rewrite Hv|].
    unfold on_exp, call. db_simpl. rewrite Hw. cbn [mbind option_bind]. apply answers_ok; [|done]. rel_simpl.
    rewrite Hv2, Hv. split_ands; try done. by exists u.
  - rewrite (bind_ok _ _ db1 (with_exp db1 d') (true, MkKeyValue k t)) by (unfold on_exp, call; by rewrite Hi).
    apply answers_ok; [|done]. rel_simpl. rewrite Hv. split_ands; try done. by exists u.
Qed.

Lemma expire_cmds_sim (c : cmd W) :
  match c with
  | CExpireAtMs k _ | CExpireAt k _ | CExpireAfterMs k _ _ | CExpireAfter k _ _ | CPersist k | CGetExpiration k
  | CGetTimeToLive k => key_ok k → cmd_sim (C := C) E c
  | _ => True
  end.
Proof.
  destruct c; try done; intros Hk; unfold cmd_sim; cbn [run_cmd ref_cmd].
  - apply (sim_done 1 eq); [by apply expire_at_sim|lia].
  - apply (sim_done 1 eq); [by apply expire_at_sim|lia].
  - apply (sim_done 1 eq); [by apply expire_at_sim|lia].
  - apply (sim_done 1 eq); [by apply expire_at_sim|lia].
  - unfold Persist. apply (shard_then E 1); [intros db; apply bind_assoc|lia|]. eapply cheap_sim; [|apply Z.le_0_1].
    unfold done. eapply sim_ext; [intros db; apply bind_assoc|done|]. intros n db a Hn Hm Hd. rewrite Z.add_0_r.
    destruct (find_step n db a k Hd Hk) as (db1 & Hf & Hd1 & _). rewrite (bind_ok _ _ _ _ _ Hf).
    unfold r_lookup. rewrite (bind_ok _ _ a a (a_dict a !! k)) by done.
    pose proof Hd as (_ & Hmr & _). destruct (a_dict a !! k) as [e|] eqn:Hl.
    + destruct (dict_rel_Some _ _ _ _ _ Hmr Hl) as (s & -> & _). destruct (exp_erase_step n _ _ k Hd1 Hk) as (db2 & He & Hd2).
      rewrite (bind_ok _ _ _ _ _ He). apply answers_ok; [exact Hd2|constructor].
    + apply (dict_rel_None _ _ _ k Hmr) in Hl. rewrite Hl. by exists db1, (inr S_NONEXISTS).
  - eapply cheap_sim; [|apply Z.le_0_1]. unfold GetExpiration. apply (found_sim 0 ONum S_NONEXISTS _ _ eq); [|done|by intros x _ <-].
    intros n db a Hn Hm Hd. rewrite Z.add_0_r. destruct (exp_find_step n db a k Hd Hk) as (db1 & -> & Hd1).
    apply answers_ok; [done|]. apply eq_option_Forall2.
  - eapply cheap_sim; [|apply Z.le_0_1]. unfold GetTimeToLive, ok_ at 1. eapply sim_ext; [intros db; apply bind_assoc|done|].
    intros n db a Hn Hm Hd. rewrite Z.add_0_r. destruct (exp_find_step n db a k Hd Hk) as (db1 & Hf & Hd1).
    rewrite (bind_ok _ _ _ _ _ Hf). unfold r_exp_lookup. rewrite (bind_ok _ _ a a (a_exp a !! k)) by done.
    destruct (a_exp a !! k) as [t|]; [|by exists db1, (inr S_NONEXISTS)]. apply answers_ok; [done|].
    constructor.
Qed.

(** *** The whole database *)

Lemma all_typed n db a :
  db_rel n db a →
  forallb (λ kv, bool_decide (is_Some (DeleteMmkvData (slot_data (value kv))))) (all_elems (dict_ db)) = true.
Proof.
  intros (Hd & Hm & _). apply forallb_forall. intros kv Hin%list_elem_of_In. apply (elem_kv_view _ _ _ _ Hd) in Hin.
  destruct (dict_rel_Some_l _ _ _ _ _ Hm Hin) as (e & _ & _ & p & Hp & Hpv). apply bool_decide_eq_true_2.
  unfold DeleteMmkvData. rewrite Hp. cbn [any_data type]. rewrite bool_decide_eq_true_2; [done|]. by destruct p, (e.2).
Qed.

Lemma db_size n db a :
  db_rel n db a → n ≤ max_elems → hash_size (dict_ db) = Z.of_nat (size (a_dict a)) + a_uncounted a.
Proof.
  intros (Hd & Hm & _) Hn. pose proof (dict_is_size _ _ _ Hd ltac:(unfold max_elems in *; lia)) as Hs.
  change (d_size (dict_ db)) with (hash_size (dict_ db)) in Hs. by rewrite Hs, (dict_rel_size _ _ _ Hm).
Qed.

Lemma is_empty_sim : cmd_sim (C := C) (W := W) E CIsEmpty.
Proof.
  unfold cmd_sim. eapply cheap_sim; [|apply Z.le_0_1]. intros n db a Hn Hm Hd. rewrite Z.add_0_r in *.
  cbn [run_cmd ref_cmd]. unfold ok_, IsEmpty. rewrite bind_assoc, !bind_get, (bind_ok (mret _) _ _ _ _ eq_refl).
  apply answers_ok; [done|]. rewrite (db_size n db a Hd Hm).
  replace (bool_decide (Z.of_nat (size (a_dict a)) + a_uncounted a = 0)) with (Z.of_nat (size (a_dict a)) + a_uncounted a =? 0);
    [constructor|]. by case_bool_decide; [apply Z.eqb_eq|apply Z.eqb_neq].
Qed.

(** The iterators visit the entries in some order. *)
Lemma entries_rel {V} u n (d : AvlDict string V) :
  dict_is u n d → ∃ l, entries d = Some l ∧ map (λ kv, (Comparator.key kv, value kv)) l ≡ₚ map_to_list (kv_view d).
Proof.
  intros (dr & Hwf & _ & _). pose proof Hwf as [Hw _]. pose proof Hw as (Hs & [Hnd _] & _).
  exists (all_elems d). unfold entries.
  pose proof (hash_shape_sizes TO_GK HASH_FUNC tree_ok d Hs) as Hsz. destruct (tree_begin_spec d Hsz) as [Hok Hr].
  split; [rewrite <-Hr; by apply tree_iterate_spec|].
  unfold kv_view. change (d_view d) with (kmap TO_GK (all_elems d)). unfold kmap.
  rewrite <-list_to_map_fmap. rewrite map_to_list_to_map; [by rewrite map_map|].
  rewrite <-list_fmap_compose. rewrite map_map in *. done.
Qed.

Lemma elem_of_keys {V} (m : gmap string V) k : k ∈ (map_to_list m).*1 ↔ k ∈ dom m.
Proof.
  rewrite elem_of_dom, list_elem_of_fmap. split.
  - intros ([k' v] & -> & Hin%elem_of_map_to_list). by exists v.
  - intros [v Hv]. exists (k, v). split; [done|]. by apply elem_of_map_to_list.
Qed.

Lemma all_keys_sim : cmd_sim (C := C) (W := W) E CGetAllKeys.
Proof.
  unfold cmd_sim. eapply cheap_sim; [|apply Z.le_0_1]. intros n db a Hn Hm Hd. rewrite Z.add_0_r in *.
  cbn [run_cmd ref_cmd]. unfold ok_, GetAllKeys. rewrite bind_assoc, !bind_get, bind_assoc, bind_lift.
  pose proof Hd as (Hdi & Hmr & _). destruct (entries_rel _ _ _ Hdi) as (l & -> & Hp).
  rewrite (bind_ok (mret _) _ _ _ _ eq_refl). apply answers_ok; [done|]. constructor.
  transitivity ((map_to_list (kv_view (dict_ db))).*1).
  - rewrite <-Hp. unfold fmap. rewrite <-list_fmap_compose. done.
  - apply NoDup_Permutation; [apply NoDup_fst_map_to_list..|]. intros k.
    by rewrite !elem_of_keys, (dict_rel_dom _ _ _ Hmr).
Qed.

Lemma delete_all_sim : cmd_sim (C := C) (W := W) E CDeleteAll.
Proof.
  unfold cmd_sim. eapply cheap_sim; [|apply Z.le_0_1]. cbn [run_cmd ref_cmd]. unfold ok_, DeleteAll.
  eapply sim_ext; [intros db; apply bind_assoc|done|]. apply (sim_then 0 eq); [apply sim_aux|done|]. intros _ _ _.
  intros n db a Hn Hm Hd. rewrite Z.add_0_r in *. rewrite bind_assoc, !bind_get, (db_size n db a Hd Hm).
  unfold dict_Clear. rewrite bind_assoc, bind_assoc, bind_get, bind_assoc, bind_lift, (all_typed n db a Hd).
  pose proof Hd as (Hdi & Hmr & [u Hx] & Hxv & Ha & Hnx & Hu).
  destruct (clear_is _ _ _ Hdi) as (d' & Hc & Hd' & Hv'). destruct (clear_is _ _ _ Hx) as (x' & Hcx & Hx' & Hxv').
  rewrite (bind_ok _ _ db (with_dict db d') ()) by (unfold on_dict, call; by rewrite Hc).
  rewrite bind_assoc, (bind_ok _ _ _ (with_exp (with_dict db d') x') ()) by (unfold on_exp, call; db_simpl; by rewrite Hcx).
  rewrite (bind_ok (put_state _) _ _ _ _ eq_refl), bind_assoc.
  assert (db_rel n (with_exp (with_dict db d') x') (MkADb ∅ ∅ (a_aux a) 0 (a_next a))) as Hd1.
  { rel_simpl. rewrite Hv', Hxv'. split_ands; try done; [|by exists 0].
    intros k. rewrite !lookup_empty. constructor. }
  eapply aux_bind; [done|done|]. intros [] y1. rewrite bind_assoc. eapply aux_bind; [by apply db_rel_aux|done|]. intros [] y2.
  apply answers_ok; [by do 2 apply db_rel_aux|constructor].
Qed.

(** Eviction only removes entries. *)
Definition smaller a a' : Prop := a_dict a' ⊆ a_dict a ∧ a_next a' = a_next a.

#[local] Instance smaller_preorder : PreOrder smaller.
Proof.
  split; [by intros a|]. intros a1 a2 a3 [? ?] [? ?]. split; [by etrans|congruence].
Qed.

Lemma smaller_aux {A} (m : M (Aux C) A) : keeps smaller (r_aux m).
Proof. intros a a' r. unfold r_aux, zoom. by destruct (m (a_aux a)) as [[]|]; intros [= <- <-]. Qed.

Lemma smaller_remove k : keeps smaller (r_remove k).
Proof. intros a a' r [= <- <-]. split; [apply delete_subseteq|done]. Qed.

#[local] Hint Resolve smaller_aux smaller_remove : keeps.

Lemma replace_smaller pkey : keeps smaller (r_replace E pkey).
Proof. unfold r_replace. keeps_tac. Qed.

Lemma addrs_ok_subset (g g' : gmap string (addr * AVal W)) next : addrs_ok g next → g' ⊆ g → addrs_ok g' next.
Proof.
  intros [Hi Hn] Hs. split.
  - intros k k' e e' Hk Hk'. eapply Hi; by eapply lookup_weaken.
  - intros k e Hk. eapply Hn. by eapply lookup_weaken.
Qed.

(** The entry taken out comes back under its new key. *)
Lemma rename_put n db a k s e h :
  db_rel n db a → n < max_elems → key_ok k → 0 ≤ h → slot_rel n s e → a_dict a !! k = None →
  addrs_ok (<[k := e]> (a_dict a)) (a_next a) →
  answers (n + 1) out_rel
    ((success ← on_dict (λ d, Push (K := string) d (MkDetached (MkKeyValue k s) h));
      on_aux (CacheUpdate (slot_addr s));; check success;; mret (ODone (W := W))) db)
    ((r_put k e;; r_aux (CacheUpdate e.1);; mret ODone) a).
Proof.
  intros (Hdi & Hmr & [u Hx] & Hxv & Ha & Hn & Hu) Hm Hk Hh Hse Hl Hau.
  destruct (push_is _ _ _ k s h Hdi Hm Hk Hh) as (d3 & Hp & Hd3 & Hv3); [by apply (dict_rel_None _ _ _ k Hmr)|].
  rewrite (bind_ok _ _ db (with_dict db d3) true) by (unfold on_dict, call; by rewrite Hp).
  rewrite (bind_ok (r_put k e) _ _ _ _ eq_refl). pose proof Hse as [-> _].
  assert (db_rel (n + 1) (with_dict db d3) (set_a_dict a (<[k := e]> (a_dict a)))) as Hd.
  { rel_simpl. rewrite Hv3. split_ands; try done.
    - apply dict_rel_insert; [eapply dict_rel_mono; [done|lia]|]. eapply slot_rel_mono; [done|lia].
    - exists u. eapply dict_is_weaken; [done|lia]. }
  eapply aux_bind; [done|done|]. intros [] y. rewrite (bind_ok (check true) _ _ _ _ eq_refl).
  apply answers_ok; [by apply db_rel_aux|constructor].
Qed.

Lemma rename_sim k k' : cmd_ok (W := W) (CRename k k') → cmd_sim (C := C) (W := W) E (CRename k k').
Proof.
  intros [Hk Hk']. unfold cmd_sim. cbn [run_cmd ref_cmd]. unfold Rename. apply (shard_then E 1); [intros db; apply bind_assoc|lia|].
  unfold done. eapply sim_ext; [intros db; apply bind_assoc|done|]. apply (sim_then 1 eq); [by apply not_expired_sim|lia|].
  intros _ _ _ n db a Hn Hm Hd. destruct (find_step n db a k' Hd Hk') as (db1 & Hf & Hd1 & Hv1).
  rewrite bind_assoc, (bind_ok _ _ _ _ _ Hf). unfold r_lookup. rewrite (bind_ok _ _ a a (a_dict a !! k')) by done.
  pose proof Hd as (_ & Hmr & _). destruct (a_dict a !! k') as [e'|] eqn:Hl'.
  { destruct (dict_rel_Some _ _ _ _ _ Hmr Hl') as (s & -> & _). exists db1, (inr S_EXISTS).
    split_ands; [done|eapply db_rel_mono; [done|lia]|done]. }
  assert (Hl2 := Hl'). apply (dict_rel_None _ _ _ k' Hmr) in Hl2. rewrite Hl2.
  rewrite (bind_ok _ _ a a (a_dict a !! k)) by done. pose proof Hd1 as (Hdi & Hmr1 & Hx & Hxv & Ha & Hnx & Hu).
  destruct (extract_node_is _ _ _ k Hdi Hk) as (d2 & r & Hex & Hd2 & Hv2 & Hr & Hh).
  rewrite bind_assoc, (bind_ok _ _ db1 (with_dict db1 d2) r) by (unfold on_dict, call; by rewrite Hex).
  destruct (a_dict a !! k) as [e|] eqn:Hl.
  2: { assert (Hl3 := Hl). apply (dict_rel_None _ _ _ k Hmr1) in Hl3. rewrite Hl3 in Hr. destruct r; [done|].
       exists (with_dict db1 d2), (inr S_NONEXISTS). split_ands; [done| |done]. apply (db_rel_mono n); [|lia]. rel_simpl.
       rewrite Hv2, delete_id by done. by split_ands. }
  destruct (dict_rel_Some _ _ _ _ _ Hmr1 Hl) as (s & Hs & Hse). rewrite Hs in Hr. destruct r as [nd|]; [|done].
  injection Hr as Hnd. rewrite Hnd. cbn [value]. rewrite (bind_ok (r_or _ _) _ a a e) by done.
  rewrite (bind_ok (r_remove k) _ _ _ _ eq_refl). set (a1 := set_a_dict a (delete k (a_dict a))).
  assert (db_rel n (with_dict db1 d2) a1) as Hda.
  { unfold a1. rel_simpl. rewrite Hv2. split_ands; try done; [by apply dict_rel_delete|by apply addrs_ok_delete]. }
  pose proof Hse as [-> _]. rewrite bind_assoc.
  eapply (answers_bind n (n + 1) eq); [|lia|].
  { pose proof (replace_sim E (Some (e.1, k)) n _ _ Hn ltac:(lia) Hda) as Hrs. by rewrite Z.add_0_r in Hrs. }
  intros [] [] db2 a2 _ Hr2 Hdb2 _. apply replace_smaller in Hr2 as [Hsub Hnx2].
  eapply answers_ext_l; [|apply (rename_put n db2 a2 k' s e (node_height nd)); [done|lia|done|by apply Hh|done| |]].
  - rewrite bind_assoc. apply bind_ext. intros ? ?. rewrite bind_assoc. by destruct Hse as [<- _].
  - eapply lookup_weaken_None; [|exact Hsub]. unfold a1. db_simpl. by apply lookup_delete_None; right.
  - rewrite Hnx2. apply (addrs_ok_subset (<[k' := e]> (delete k (a_dict a)))); [by apply addrs_ok_move|]. by apply insert_mono.
Qed.

(** *** Every call *)

Lemma call_sim c : cmd_ok c → env_ok E → cmd_sim (C := C) (W := W) E c.
Proof.
  intros Hc HE.
  destruct c; first
    [ exact is_empty_sim | exact all_keys_sim | exact delete_all_sim | by apply rename_sim | by apply type_sim
    | by apply delete_sim | by apply insert_str_sim | by apply get_str_sim | by apply str_append_sim
    | by apply str_pop_sim | by apply set_str_sim | by apply list_add_sim | by apply list_append_sim
    | by apply list_prepend_sim | by apply list_size_sim | by apply list_all_sim | by apply list_range_sim
    | by apply list_pop_front_sim | by apply list_pop_back_sim | by apply vset_add_sim | by apply map_add_sim
    | by apply set_add_sim
    | match goal with
      | |- cmd_sim _ ?c => first
          [ exact (vset_cmds_sim E c Hc) | exact (map_cmds_sim E c Hc) | exact (set_cmds_sim E c Hc)
          | exact (expire_cmds_sim c Hc) ]
      end
    | eapply cheap_sim; [by apply erase_sim|apply Z.le_0_1]
    | eapply cheap_sim; [eapply (sim_done 0 eq); [apply sim_aux|done]|apply Z.le_0_1]
    | eapply cheap_sim; [eapply (sim_ok 0 eq); [apply sim_aux|done|by intros ? ? ->]|apply Z.le_0_1] ].
Qed.
End common.

(** ** Histories *)

Section histories.
Context {W C : Type} `{Comparator W} `{!CacheInterface C addr}
  `{HS : !HashFunc string} `{HA : !HashFunc addr} `{HZ : !HashFunc Z}.
Implicit Types (db : MmkvDb W C) (a : ADb W C) (cs : list (Env * cmd W)).

Lemma new_rel n (cache : option C) : 0 ≤ n → db_rel (W := W) n (MmkvDb_new cache) (ref_new cache).
Proof.
  intros Hn. unfold db_rel, MmkvDb_new, ref_new. db_simpl.
  destruct (init_is (D := KeyDict W) n Hn) as [Hd Hv]. destruct (init_is (D := ExDict) n Hn) as [Hx Hxv]. split_ands; try done.
  - intros k. change (kv_view TreeHashTable_init) with (kv_view (d_init (D := KeyDict W))). rewrite Hv, !lookup_empty. constructor.
  - by exists 0.
Qed.

Lemma history_cost_nonneg cs : 0 ≤ history_cost cs.
Proof.
  induction cs as [|[E c] cs IH]; [done|]. change (history_cost ((E, c) :: cs)) with (cmd_cost c + history_cost cs).
  pose proof (cmd_cost_pos c). lia.
Qed.

(** Where the two runs end. *)
Definition runs_agree n (x : option (MmkvDb W C * list (out W + StatusCode))) (y : option (ADb W C * list (out W + StatusCode))) : Prop :=
  option_Forall2 (λ x y, db_rel n x.1 y.1 ∧ Forall2 (res_rel out_rel) x.2 y.2) x y.

Lemma history_sim cs : ∀ n db a,
  Forall (λ ec, env_ok ec.1 ∧ cmd_ok ec.2) cs → 0 ≤ n → n + history_cost cs ≤ max_elems → db_rel n db a →
  runs_agree (n + history_cost cs) (db_run db cs) (ref_run a cs).
Proof.
  induction cs as [|[E c] cs IH]; intros n db a Hok Hn Hm Hd.
  { constructor. split; [by rewrite Z.add_0_r|constructor]. }
  inversion_clear Hok as [|? ? [HE Hc] Hok']. pose proof (cmd_cost_pos c) as Hp. pose proof (history_cost_nonneg cs) as Hnn.
  change (history_cost ((E, c) :: cs)) with (cmd_cost c + history_cost cs) in *. cbn [db_run ref_run].
  pose proof (call_sim E c Hc HE n db a Hn ltac:(lia) Hd) as Hs. destruct (ref_cmd E c a) as [[a' r']|]; simpl in Hs.
  - destruct Hs as (db' & r & -> & Hd' & Hr). cbn [mbind option_bind].
    specialize (IH (n + cmd_cost c) db' a' Hok' ltac:(lia) ltac:(lia) Hd'). rewrite <-Z.add_assoc in IH.
    destruct IH as [[db2 rs] [a2 rs'] [Hd2 Hrs]|]; constructor. split; [done|]. by constructor.
  - rewrite Hs. constructor.
Qed.
End histories.
