(* ===== verification/KvdbFacts.v ===== *)
(** * What the database promises, and where it does not

    Theorems on histories of calls on a new database, from the refinement of
    [KvdbCalls]: they are proved on the reference database and hold of the
    database with its hash tables, trees and lists. *)

From S2P Require Import Prelude Comparator AvlUtil AvlTree Dict HashTableBase HashTable TreeHashTable HashSet.
From S2P Require Import Dictionary Blist Cache ListCache Vset Kvdb KvdbSpec KvdbValues KvdbRefine KvdbCalls.

(** ** What calls keep on the reference *)

Section keeps.
Context {W C : Type} `{Comparator W} `{!CacheInterface C addr}
  `{HS : !HashFunc string} `{HA : !HashFunc addr} `{HZ : !HashFunc Z}.
Context (E : Env).
Implicit Types (k : string) (a : ADb W C) (e : addr * AVal W).

(** No replacement policy, and an expiration time only for a key that is
    there. *)
Definition times_ok a : Prop := cache_ (a_aux a) = None ∧ dom (a_exp a) ⊆ dom (a_dict a).
Definition keeps_times a a' : Prop := times_ok a → times_ok a'.

#[export] Instance keeps_times_preorder : PreOrder keeps_times.
Proof. split; [by intros a Ha|]. intros a1 a2 a3 H1 H2 Ha. by apply H2, H1. Qed.

(** What the cache, shard and log functions do with no cache. *)
Definition no_cache (x x' : Aux C) : Prop := cache_ x = None → cache_ x' = None.

#[export] Instance no_cache_preorder : PreOrder no_cache.
Proof. split; [by intros x Hx|]. intros x1 x2 x3 H1 H2 Hx. by apply H2, H1. Qed.

Lemma times_aux {A} (m : M (Aux C) A) : keeps no_cache m → keeps keeps_times (r_aux m).
Proof.
  intros Hm a a' r. unfold r_aux, zoom. destruct (m (a_aux a)) as [[x r']|] eqn:Hr; [|done]. intros [= <- <-] [Hc Hd].
  split; [|done]. by eapply Hm.
Qed.

Lemma no_cache_call {T A} (get : Aux C → T) set (f : T → option (T * A)) :
  (∀ x t, cache_ (set x t) = cache_ x) → keeps no_cache (call get set f).
Proof. intros Hs x x' r. unfold call. destruct (f (get x)) as [[t y]|]; [|done]. intros [= <- <-]. by unfold no_cache; rewrite Hs. Qed.


Lemma no_cache_update (f : Aux C → Aux C) :
  (∀ x, cache_ (f x) = cache_ x) → keeps no_cache (x ← get_state; put_state (f x)).
Proof. intros Hf x x' r [= <- <-]. unfold no_cache. by rewrite Hf. Qed.

Lemma no_cache_add x : keeps no_cache (CacheAdd x).
Proof. intros y y' r. unfold CacheAdd. rewrite bind_get. intros Hr Hc. rewrite Hc in Hr. by injection Hr as <- <-. Qed.

Lemma no_cache_remove x : keeps no_cache (CacheRemove x).
Proof. intros y y' r. unfold CacheRemove. rewrite bind_get. intros Hr Hc. rewrite Hc in Hr. by injection Hr as <- <-. Qed.

Lemma no_cache_touch x : keeps no_cache (CacheUpdate x).
Proof. intros y y' r. unfold CacheUpdate. rewrite bind_get. intros Hr Hc. rewrite Hc in Hr. by injection Hr as <- <-. Qed.

Lemma no_cache_clear : keeps no_cache CacheClear.
Proof.
  intros x x' r; unfold CacheClear; rewrite bind_get; intros Hr Hc; rewrite Hc in Hr; by injection Hr as <- <-.
Qed.

Lemma no_cache_append k : keeps no_cache (AppendDel k).
Proof. by apply no_cache_update. Qed.

Lemma no_cache_call_sdict {A} f : keeps no_cache (call (A := A) sdict_ with_sdict f).
Proof. by apply no_cache_call. Qed.

Lemma no_cache_call_locked {A} f : keeps no_cache (call (A := A) locked_shard_id_set_ with_locked f).
Proof. by apply no_cache_call. Qed.
End keeps.
#[export] Hint Resolve no_cache_add no_cache_remove no_cache_touch no_cache_clear no_cache_append no_cache_call_sdict no_cache_call_locked : keeps.

(** Prove that a computation keeps [R], with the hints of [keeps]. *)
Section keeps_times.
Context {W C : Type} `{Comparator W} `{!CacheInterface C addr}
  `{HS : !HashFunc string} `{HA : !HashFunc addr} `{HZ : !HashFunc Z}.
Context (E : Env).
Implicit Types (k : string) (a : ADb W C) (e : addr * AVal W).

Lemma no_cache_has i : keeps (no_cache (C := C)) (HasShard i).
Proof. unfold HasShard, sdict_Find. keeps_tac. Qed.
Lemma no_cache_locked i : keeps (no_cache (C := C)) (IsShardLocked i).
Proof. unfold IsShardLocked. keeps_tac. Qed.
Lemma no_cache_on_shard {A} i (f : ShardIdSet → option (ShardIdSet * A)) : keeps (no_cache (C := C)) (on_shard i f).
Proof. unfold on_shard. keeps_tac. Qed.
#[local] Hint Resolve no_cache_has no_cache_locked no_cache_on_shard : keeps.

Lemma no_cache_check k : keeps (no_cache (C := C)) (CHECK_SHARD_IS_LOCKED_KEY E k).
Proof. unfold CHECK_SHARD_IS_LOCKED_KEY. keeps_tac. Qed.
Lemma no_cache_check_all : keeps (no_cache (C := C)) (CHECK_HAS_SHARD_LOCKED_KEY E).
Proof. unfold CHECK_HAS_SHARD_LOCKED_KEY, HasShardLocked. keeps_tac. Qed.
Lemma no_cache_add_key x k : keeps (no_cache (C := C)) (AddKeyToShard E x k).
Proof. unfold AddKeyToShard. keeps_tac. Qed.
Lemma no_cache_remove_key x k : keeps (no_cache (C := C)) (RemoveKeyFromShard E x k).
Proof. unfold RemoveKeyFromShard. keeps_tac. Qed.
Lemma no_cache_shards i :
  keeps (no_cache (C := C)) (AddShard E i) ∧ keeps (no_cache (C := C)) DeleteAllShard
  ∧ keeps (no_cache (C := C)) UnlockAllShard ∧ keeps (no_cache (C := C)) (LockShard i)
  ∧ keeps (no_cache (C := C)) (UnlockShard i) ∧ keeps (no_cache (C := C)) (GetShardKeys E i).
Proof.
  unfold AddShard, DeleteAllShard, UnlockAllShard, LockShard, UnlockShard, GetShardKeys, sdict_Find.
  split_ands; keeps_tac.
Qed.
#[local] Hint Resolve no_cache_check no_cache_check_all no_cache_add_key no_cache_remove_key times_aux : keeps.

Abbreviation times m := (keeps (keeps_times (W := W) (C := C)) m).

(** The entries do not become fewer and the times not more. *)
Lemma times_growing {A} (m : M (ADb W C) A) :
  (∀ a a' r, m a = Some (a', r) → a_aux a' = a_aux a ∧ dom (a_exp a') ⊆ dom (a_exp a) ∧ dom (a_dict a) ⊆ dom (a_dict a')) →
  times m.
Proof. intros Hm a a' r Hr [Hc Hd]. apply Hm in Hr as (Hx & ? & ?). split; [by rewrite Hx|set_solver]. Qed.

Lemma times_lookup k : times (r_lookup k).
Proof. apply times_growing. by intros a a' r [= <- <-]. Qed.
Lemma times_put k e : times (r_put k e).
Proof. apply times_growing. intros a a' r [= <- <-]. simpl. rewrite dom_insert. set_solver. Qed.
Lemma times_exp_lookup k : times (r_exp_lookup k).
Proof. apply times_growing. by intros a a' r [= <- <-]. Qed.
Lemma times_exp_remove k : times (r_exp_remove k).
Proof. apply times_growing. intros a a' r [= <- <-]. simpl. rewrite dom_delete. set_solver. Qed.
Lemma times_new : times r_new.
Proof. apply times_growing. by intros a a' r [= <- <-]. Qed.
Lemma times_or {A} c (o : option A) : times (r_or c o).
Proof. apply times_growing. destruct o; by intros a1 a2 r [= <- <-]. Qed.
#[local] Hint Resolve times_lookup times_put times_exp_lookup times_exp_remove times_new times_or : keeps.

Lemma times_typed k t : times (r_typed k t).
Proof. unfold r_typed. keeps_tac. Qed.
Lemma times_shard k : times (r_shard E k).
Proof. unfold r_shard. keeps_tac. Qed.
Lemma times_create k v : times (r_create E k v).
Proof. unfold r_create. keeps_tac. Qed.

Lemma times_replace pkey : times (r_replace E pkey).
Proof. intros a a' r Hr [Hc Hd]. unfold r_replace in Hr. rewrite bind_get, Hc in Hr. by injection Hr as <- <-. Qed.

(** An entry goes together with its time. *)
Lemma times_drop k : times (r_exp_remove k;; r_remove k).
Proof. intros a a' r [= <- <-] [Hc Hd]. split; [done|]. simpl. rewrite !dom_delete. set_solver. Qed.

Lemma times_erase k : times (r_remove k;; r_uncounted;; r_exp_remove k).
Proof. intros a a' r [= <- <-] [Hc Hd]. split; [done|]. simpl. rewrite !dom_delete. set_solver. Qed.

Lemma keeps_ext {S A} (R : relation S) (m m' : M S A) : (∀ s, m s = m' s) → keeps R m' → keeps R m.
Proof. intros He Hm s s' r. rewrite He. apply Hm. Qed.

Lemma times_expire k : times (r_expire E k).
Proof.
  unfold r_expire. apply keeps_bind; [exact _|auto with keeps typeclass_instances|]. intros a.
  destruct (a_exp a !! k); [|keeps_tac]. case_match; [|keeps_tac].
  apply keeps_bind; [exact _|auto with keeps typeclass_instances|]. intros _.
  eapply keeps_ext; [intros a'; symmetry; apply (bind_assoc (r_exp_remove k) (λ _, r_remove k))|].
  apply keeps_bind; [exact _|apply times_drop|]. intros _. keeps_tac.
Qed.
#[local] Hint Resolve times_typed times_shard times_create times_replace times_expire : keeps.

Lemma times_not_expired k : times (r_not_expired E k).
Proof. unfold r_not_expired. keeps_tac. Qed.
#[local] Hint Resolve times_not_expired : keeps.

Lemma times_on {A} k t (f : AVal W → option (AVal W * A)) : times (r_on E k t f).
Proof. unfold r_on. keeps_tac. Qed.
Lemma times_open {A} k v (f : AVal W → option (AVal W * A)) : times (r_open E k v f).
Proof. unfold r_open. keeps_tac. Qed.

Lemma times_expire_at k t : times (r_expire_at E k t).
Proof.
  unfold r_expire_at. apply keeps_bind; [exact _|auto with keeps|]. intros _. case_match; [keeps_tac|].
  intros a a' r. unfold r_lookup. rewrite (bind_ok _ _ a a (a_dict a !! k)) by done.
  destruct (a_dict a !! k) as [e|] eqn:Hl; [|by intros [= <- <-]]. case_match; intros [= <- <-]; [|done].
  intros [Hc Hd]. split; [done|]. simpl. rewrite dom_insert. apply elem_of_dom_2 in Hl. set_solver.
Qed.
#[local] Hint Resolve times_on times_open times_expire_at : keeps.

(** Leaving a shard never stops with a code. *)
Definition never_stops {S A} (m : M S A) : Prop := ∀ s s' r, m s = Some (s', r) → ∃ x, r = inl x.

Lemma never_stops_bind {S A B} (m : M S A) (f : A → M S B) :
  never_stops m → (∀ x, never_stops (f x)) → never_stops (m ≫= f).
Proof.
  intros Hm Hf s s' r. unfold mbind, M_bind. destruct (m s) as [[s1 [x|c]]|] eqn:Hs; [apply Hf| |done].
  by apply Hm in Hs as [? ?].
Qed.
Lemma never_stops_call {S T A} (get : S → T) set (f : T → option (T * A)) : never_stops (call get set f).
Proof. intros x x' r. unfold call. destruct (f _) as [[]|]; [|done]. intros [= <- <-]. eauto. Qed.
Lemma never_stops_lift {S A} (o : option A) : never_stops (S := S) (lift o).
Proof. intros x x' r. destruct o; [|done]. intros [= <- <-]. eauto. Qed.
Lemma never_stops_ret {S A} (x : A) : never_stops (S := S) (mret x).
Proof. intros y y' r [= <- <-]. eauto. Qed.

Lemma remove_key_ok x k (y y' : Aux C) r :
  RemoveKeyFromShard E x k y = Some (y', r) → r = inl () ∧ no_cache y y'.
Proof.
  intros Hr. split; [|by eapply no_cache_remove_key].
  cut (never_stops (RemoveKeyFromShard (C := C) E x k)); [intros Hn; by destruct (Hn _ _ _ Hr) as [[] ?]|].
  unfold RemoveKeyFromShard, on_shard. destruct (is_sharder E); [|apply never_stops_ret].
  repeat first [apply never_stops_call|apply never_stops_lift|apply never_stops_ret|apply never_stops_bind; [|intros ?]|case_match].
Qed.

Lemma remove_key_r x k a a' r :
  r_aux (RemoveKeyFromShard E x k) a = Some (a', r) → r = inl () ∧ ∃ y, a' = set_a_aux a y ∧ no_cache (a_aux a) y.
Proof.
  unfold r_aux, zoom. destruct (RemoveKeyFromShard E x k (a_aux a)) as [[y r']|] eqn:Hy; [|done].
  apply remove_key_ok in Hy as [-> Hy]. intros [= <- <-]. eauto.
Qed.

Lemma times_delete k x :
  times (r_remove k;; r_aux (RemoveKeyFromShard E x k);; r_aux (CacheRemove x);; r_exp_remove k;; mret (ODone (W := W))).
Proof.
  intros a a' r. rewrite (bind_ok (r_remove k) _ _ _ _ eq_refl). unfold mbind at 1, M_bind at 1.
  destruct (r_aux _ _) as [[a1 r1]|] eqn:H1; [|done]. apply remove_key_r in H1 as (-> & y & -> & Hy).
  intros Hr [Hc Hd]. specialize (Hy Hc).
  assert (r_aux (CacheRemove x) (set_a_aux (set_a_dict a (delete k (a_dict a))) y)
    = Some (set_a_aux (set_a_dict a (delete k (a_dict a))) y, inl ())) as Hcr.
  { unfold r_aux, zoom, CacheRemove. db_simpl. rewrite bind_get, Hy. done. }
  rewrite (bind_ok _ _ _ _ _ Hcr) in Hr. injection Hr as <- <-. split; [done|]. simpl. rewrite !dom_delete. set_solver.
Qed.

Lemma times_delete_all : times (ref_cmd E CDeleteAll).
Proof.
  cbn [ref_cmd]. apply keeps_bind; [exact _|keeps_tac|]. intros _ a a' r. rewrite bind_get. intros Hr.
  destruct (no_cache_shards 0) as (_ & Hs & _).
  assert (times (r_aux CacheClear;; r_aux DeleteAllShard;; mret (ONum (W := W) (Z.of_nat (size (a_dict a)) + a_uncounted a)))) as Ht.
  { keeps_tac. }
  rewrite (bind_ok (put_state _) _ _ _ _ eq_refl) in Hr. intros [Hc Hd]. by apply (Ht _ _ _ Hr).
Qed.

(** The calls that leave the time of a key they take away. *)
Definition leaves_time (c : cmd W) : bool := match c with CEraseStr _ | CRename _ _ => true | _ => false end.

Lemma times_cmd c : leaves_time c = false → times (ref_cmd E c).
Proof.
  intros Hc. pose proof (no_cache_shards 0) as (_ & Hs & Hu & _).
  destruct c; try discriminate Hc; try exact times_delete_all; cbn [ref_cmd];
    try (destruct (no_cache_shards i) as (? & ? & ? & ? & ? & ?)); try (unfold done, ok_; keeps_tac; fail).
  - do 2 (apply keeps_bind; [exact _|keeps_tac|]; intros ?). apply keeps_bind; [exact _|keeps_tac|]. intros e. apply times_delete.
  - unfold done, r_erase. apply keeps_bind; [exact _| |keeps_tac].
    do 2 (apply keeps_bind; [exact _|keeps_tac|]; intros ?). apply keeps_bind; [exact _|keeps_tac|]. intros e.
    case_match; [|keeps_tac]. do 2 (apply keeps_bind; [exact _|keeps_tac|]; intros ?). apply times_erase.
Qed.
End keeps_times.

(** ** Calls that never fault *)

(** [total I m]: from a state with [I], [m] returns or stops, in a state with [I]. *)
Definition total {S A} (I : S → Prop) (m : M S A) : Prop := ∀ s, I s → ∃ s' r, m s = Some (s', r) ∧ I s'.

Section total.
Context {S : Type} (I : S → Prop).

Lemma total_bind {A B} (m : M S A) (f : A → M S B) : total I m → (∀ x, total I (f x)) → total I (m ≫= f).
Proof.
  intros Hm Hf s Hs. destruct (Hm s Hs) as (s1 & [x|c] & Hr & H1).
  - rewrite (bind_ok _ _ _ _ _ Hr). by apply Hf.
  - exists s1, (inr c). split; [|done]. unfold mbind, M_bind. by rewrite Hr.
Qed.
Lemma total_ret {A} (x : A) : total I (mret x).
Proof. intros s Hs. by exists s, (inl x). Qed.
Lemma total_get : total I get_state.
Proof. intros s Hs. by exists s, (inl s). Qed.
Lemma total_stop {A} c : total I (stop (A := A) c).
Proof. intros s Hs. by exists s, (inr c). Qed.
Lemma total_lift {A} (x : A) : total I (lift (Some x)).
Proof. intros s Hs. by exists s, (inl x). Qed.
End total.

Create HintDb total.
#[export] Hint Resolve total_ret total_get total_stop total_lift : total.
Ltac total_tac :=
  repeat first
    [ solve [auto with total]
    | apply total_bind; [|intros ?]
    | case_match ].

Section total_calls.
Context {W C : Type} `{Comparator W} `{!CacheInterface C addr}
  `{HS : !HashFunc string} `{HA : !HashFunc addr} `{HZ : !HashFunc Z}.
Context (E : Env) (Hsharder : is_sharder E = false).
Implicit Types (k : string) (a : ADb W C) (e : addr * AVal W) (x : addr) (y : Aux C).

Definition quiet_aux y : Prop := cache_ y = None ∧ ∃ n, dict_is 0 n (sdict_ y).
Definition quiet a : Prop := times_ok a ∧ quiet_aux (a_aux a).

Lemma quiet_r_aux {A} (m : M (Aux C) A) : total quiet_aux m → total quiet (r_aux m).
Proof.
  intros Hm a [[Hc Hd] Hq]. destruct (Hm _ Hq) as (x & r & Hr & Hx). exists (set_a_aux a x), r.
  unfold r_aux, zoom. rewrite Hr. split; [done|]. split; [|done]. split; [|done]. by apply Hx.
Qed.

Lemma quiet_add x : total quiet_aux (CacheAdd x).
Proof. intros y Hy. pose proof Hy as [Hc _]. exists y, (inl ()). unfold CacheAdd. by rewrite bind_get, Hc. Qed.
Lemma quiet_remove x : total quiet_aux (CacheRemove x).
Proof. intros y Hy. pose proof Hy as [Hc _]. exists y, (inl ()). unfold CacheRemove. by rewrite bind_get, Hc. Qed.
Lemma quiet_touch x : total quiet_aux (CacheUpdate x).
Proof. intros y Hy. pose proof Hy as [Hc _]. exists y, (inl ()). unfold CacheUpdate. by rewrite bind_get, Hc. Qed.
Lemma quiet_cache_clear : total quiet_aux CacheClear.
Proof. intros y Hy. pose proof Hy as [Hc _]. exists y, (inl ()). unfold CacheClear. by rewrite bind_get, Hc. Qed.
Lemma quiet_append k : total quiet_aux (AppendDel k).
Proof. intros y [Hc Hs]. eexists _, (inl ()). split; [reflexivity|]. by split. Qed.
Lemma quiet_no_shards : total quiet_aux DeleteAllShard.
Proof.
  intros y [Hc [n Hn]]. destruct (clear_is _ _ _ Hn) as (d & Hd & Hi & _). exists (with_sdict y d), (inl ()).
  unfold DeleteAllShard, call. rewrite Hd. split; [done|]. split; [done|]. by exists n.
Qed.
Lemma quiet_check k : total quiet_aux (CHECK_SHARD_IS_LOCKED_KEY (C := C) E k).
Proof. unfold CHECK_SHARD_IS_LOCKED_KEY. rewrite Hsharder. apply total_ret. Qed.
Lemma quiet_check_all : total quiet_aux (CHECK_HAS_SHARD_LOCKED_KEY (C := C) E).
Proof. unfold CHECK_HAS_SHARD_LOCKED_KEY. rewrite Hsharder. apply total_ret. Qed.
Lemma quiet_add_key x k : total quiet_aux (AddKeyToShard (C := C) E x k).
Proof. unfold AddKeyToShard. rewrite Hsharder. apply total_ret. Qed.
Lemma quiet_remove_key x k : total quiet_aux (RemoveKeyFromShard (C := C) E x k).
Proof. unfold RemoveKeyFromShard. rewrite Hsharder. apply total_ret. Qed.
#[local] Hint Resolve quiet_add quiet_remove quiet_touch quiet_cache_clear quiet_append quiet_no_shards quiet_check
  quiet_check_all quiet_add_key quiet_remove_key quiet_r_aux : total.

Abbreviation calm m := (total quiet m).

(** A change of the maps, which keeps the times in order. *)
Lemma calm_put (f : ADb W C → ADb W C) :
  (∀ a, a_aux (f a) = a_aux a) → (∀ a, times_ok a → times_ok (f a)) → calm (a ← get_state; put_state (f a)).
Proof. intros Hx Hf a [Ht Hq]. exists (f a), (inl ()). split; [done|]. split; [by apply Hf|]. by rewrite Hx. Qed.

Lemma calm_lookup k : calm (r_lookup k).
Proof. intros a Ha. by eexists a, (inl _). Qed.
Lemma calm_exp_lookup k : calm (r_exp_lookup k).
Proof. intros a Ha. by eexists a, (inl _). Qed.
Lemma calm_r_put k e : calm (r_put k e).
Proof. apply calm_put; [done|]. intros a [? Hd]. split; [done|]. simpl. rewrite dom_insert. set_solver. Qed.
Lemma calm_exp_remove k : calm (r_exp_remove k).
Proof. apply calm_put; [done|]. intros a [? Hd]. split; [done|]. simpl. rewrite dom_delete. set_solver. Qed.
Lemma calm_new : calm r_new.
Proof. intros a Ha. by eexists _, (inl _). Qed.
Lemma calm_or {A} c (o : option A) : calm (r_or c o).
Proof. destruct o; [apply total_ret|apply total_stop]. Qed.
#[local] Hint Resolve calm_lookup calm_exp_lookup calm_r_put calm_exp_remove calm_new calm_or : total.

Lemma calm_typed k t : calm (r_typed k t).
Proof. unfold r_typed. total_tac. Qed.
Lemma calm_shard k : calm (r_shard E k).
Proof. unfold r_shard. total_tac. Qed.
Lemma calm_create k v : calm (r_create E k v).
Proof. unfold r_create. total_tac. Qed.
Lemma calm_replace pkey : calm (r_replace E pkey).
Proof. intros a Ha. pose proof Ha as [[Hc _] _]. exists a, (inl ()). unfold r_replace. by rewrite bind_get, Hc. Qed.

Lemma calm_expire k : calm (r_expire E k).
Proof.
  intros a Ha. pose proof Ha as [[Hc Hd] Hq]. unfold r_expire. rewrite bind_get.
  destruct (a_exp a !! k) as [t|] eqn:Ht; [|by eexists a, (inl _)]. case_match; [|by eexists a, (inl _)].
  rewrite bool_decide_eq_true_2 by (apply elem_of_dom, Hd, elem_of_dom; by exists t).
  rewrite (bind_ok (check true) _ a a ()) by done.
  rewrite (bind_ok (r_exp_remove k) _ _ _ _ eq_refl), (bind_ok (r_remove k) _ _ _ _ eq_refl).
  assert (quiet (set_a_dict (set_a_exp a (delete k (a_exp a))) (delete k (a_dict a)))) as Ha'.
  { split; [|done]. split; [done|]. simpl. rewrite !dom_delete. set_solver. }
  assert (calm (if log_request E then r_aux (AppendDel k);; mret (true, moved_from E k) else mret (true, k))) as Ht'
    by total_tac.
  exact (Ht' _ Ha').
Qed.
#[local] Hint Resolve calm_typed calm_shard calm_create calm_replace calm_expire : total.

Lemma calm_not_expired k : calm (r_not_expired E k).
Proof. unfold r_not_expired. total_tac. Qed.
#[local] Hint Resolve calm_not_expired : total.

(** After [r_typed] the value has the type. *)
Lemma calm_typed_then {A} k t (f : addr * AVal W → M (ADb W C) A) :
  (∀ e, val_type e.2 = t → calm (f e)) → calm (e ← r_typed k t; f e).
Proof.
  intros Hf. unfold r_typed. intros a Ha. rewrite bind_assoc. unfold r_lookup. rewrite (bind_ok _ _ a a (a_dict a !! k)) by done.
  destruct (a_dict a !! k) as [e|]; [|by eexists a, (inr _)]. case_bool_decide as Ht; [|by eexists a, (inr _)].
  rewrite (bind_ok (mret _) _ _ _ _ eq_refl). by apply Hf.
Qed.

Lemma calm_on {A} k t (f : AVal W → option (AVal W * A)) :
  (∀ v, val_type v = t → is_Some (f v)) → calm (r_on E k t f).
Proof.
  intros Hf. unfold r_on. apply total_bind; [auto with total|]. intros _. apply calm_typed_then. intros e He.
  destruct (Hf e.2 He) as [[v x] ->]. total_tac.
Qed.

Lemma calm_open {A} k v0 (f : AVal W → option (AVal W * A)) :
  (∀ v, val_type v = val_type v0 → is_Some (f v)) → calm (r_open E k v0 f).
Proof.
  intros Hf. unfold r_open. apply total_bind; [auto with total|]. intros [e|].
  - case_bool_decide as Ht; [|auto with total]. destruct (Hf e.2 Ht) as [[v x] ->]. total_tac.
  - destruct (Hf v0 eq_refl) as [[v x] ->]. total_tac.
Qed.

Lemma calm_expire_at k t : calm (r_expire_at E k t).
Proof.
  unfold r_expire_at. apply total_bind; [auto with total|]. intros _. case_match; [auto with total|].
  intros a Ha. unfold r_lookup. rewrite (bind_ok _ _ a a (a_dict a !! k)) by done.
  destruct (a_dict a !! k) as [e|] eqn:Hl; [|by eexists a, (inr _)]. case_match; [|by eexists a, (inl _)].
  eexists _, (inl _). split; [reflexivity|]. destruct Ha as [[Hc Hd] Hq]. split; [|done]. split; [done|].
  simpl. rewrite dom_insert. apply elem_of_dom_2 in Hl. set_solver.
Qed.

(** A change defined for the values of one type. *)
Lemma on_list_some {A} (f : list string → list string * A) (v : AVal W) :
  val_type v = D_STRLIST → is_Some (on_list (λ l, Some (f l)) v).
Proof. destruct v; try done. simpl. by destruct (f l). Qed.
Lemma on_kvs_some {A} (f : gmap string string → gmap string string * A) (v : AVal W) :
  val_type v = D_MAP → is_Some (on_kvs f v).
Proof. destruct v; try done. simpl. by destruct (f m). Qed.
Lemma on_mset_some {A} (f : gset string → gset string * A) (v : AVal W) : val_type v = D_SET → is_Some (on_mset f v).
Proof. destruct v; try done. simpl. by destruct (f s). Qed.
#[local] Hint Resolve calm_on calm_open calm_expire_at on_list_some on_kvs_some on_mset_some : total.

(** The calls with no way to fault of their own: not [EraseStr] and [ListDel],
    which read the slot of an absent key, [Rename] and [EraseStr], which leave
    the expiration time behind, [StrPopBack] of more bytes than there are,
    [ListGetRange] up to the last element, the calls on sorted sets, and those on
    shards. *)
Definition safe_cmd (c : cmd W) : bool :=
  match c with
  | CRename _ _ | CEraseStr _ | CListDel _ | CStrPopBack _ _ | CListGetRange _ _ _ | CVsetAdd _ _ | CVsetDel _ _
  | CVsetDelRange _ _ _ | CVsetDelRangeByWeight _ _ _ | CVsetSize _ | CVsetSizeByWeight _ _ _ | CVsetWeight _ _
  | CVsetOrder _ _ | CVsetROrder _ _ | CVsetAll _ | CVsetRange _ _ _ | CVsetRangeByWeight _ _ _ | CVsetRRange _ _ _
  | CVsetRRangeByWeight _ _ _ | CLockShard _ | CUnlockShard _ | CUnlockAllShard | CAddShard _ | CHasShard _
  | CGetShardKeys _ => false
  | _ => true
  end.

Lemma on_set_size_some (v : AVal W) :
  val_type v = D_SET → is_Some (match v with ASet s n => Some (v, Z.of_nat (size s) + n) | _ => None end).
Proof. by destruct v. Qed.
#[local] Hint Resolve on_set_size_some : total.

Lemma calm_on_str {A} k (f : string → string * A) (g : addr → M (ADb W C) ()) (h : addr → AVal W * A → M (ADb W C) (out W)) :
  (∀ x, calm (g x)) → (∀ x r, calm (h x r)) →
  calm (e ← r_typed k D_STRING; g e.1;; r ← lift (on_str (λ s, Some (f s)) e.2); h e.1 r).
Proof.
  intros Hg Hh. apply calm_typed_then. intros [x v] Hv. apply total_bind; [auto|]. intros _.
  destruct v; try done. cbn [on_str snd mbind option_bind]. destruct (f s). apply total_bind; [auto with total|auto].
Qed.

Lemma calm_delete k x :
  calm (r_remove k;; r_aux (RemoveKeyFromShard E x k);; r_aux (CacheRemove x);; r_exp_remove k;; mret (ODone (W := W))).
Proof.
  intros a [[Hc Hd] Hq]. rewrite (bind_ok (r_remove k) _ _ _ _ eq_refl). set (a1 := set_a_dict a _).
  rewrite (bind_ok _ _ a1 a1 ()) by (unfold r_aux, zoom, RemoveKeyFromShard; rewrite Hsharder; by destruct a).
  rewrite (bind_ok _ _ a1 a1 ()) by (unfold r_aux, zoom, CacheRemove; rewrite bind_get; unfold a1; db_simpl; rewrite Hc; by destruct a).
  eexists _, (inl _). split; [reflexivity|]. split; [|done]. split; [done|]. simpl. rewrite !dom_delete. set_solver.
Qed.

Lemma calm_delete_all : calm (ref_cmd E CDeleteAll).
Proof.
  cbn [ref_cmd]. apply total_bind; [auto with total|]. intros _ a Ha. rewrite bind_get, (bind_ok (put_state _) _ _ _ _ eq_refl).
  assert (calm (r_aux CacheClear;; r_aux DeleteAllShard;; mret (ONum (W := W) (Z.of_nat (size (a_dict a)) + a_uncounted a)))) as Ht
    by total_tac.
  apply Ht. destruct Ha as [[Hc Hd] Hq]. by split.
Qed.

Lemma safe_calm c : safe_cmd c → calm (ref_cmd E c).
Proof.
  intros Hc. destruct c; try done; clear Hc; try exact calm_delete_all; cbn [ref_cmd]; unfold done, ok_;
    try (total_tac; fail).
  - do 2 (apply total_bind; [auto with total|]; intros ?). apply total_bind; [auto with total|]. intros e. apply calm_delete.
  - apply total_bind; [auto with total|]. intros _.
    apply (calm_on_str k (λ s, (s, s)) (λ x, r_aux (CacheUpdate x)) (λ _ '(_, s), mret (OString s))); [auto with total|].
    intros x [? ?]. auto with total.
  - do 2 (apply total_bind; [auto with total|]; intros ?). 
    apply (calm_on_str k (λ s, (s +:+ v, ())) (λ x, r_aux (CacheUpdate x))
      (λ x '(w, _), r_put k (x, w);; r_replace E None;; mret ODone)); [auto with total|].
    intros x1 [? ?]. total_tac.
Qed.
End total_calls.

(** ** What a call that returns leaves behind *)

(** [yields P m Q]: when [m] returns from a state with [P], the state has [Q]. *)
Definition yields {S A} (P : S → Prop) (m : M S A) (Q : S → Prop) : Prop :=
  ∀ s s' x, P s → m s = Some (s', inl x) → Q s'.

Lemma yields_bind {S A B} (P Q R : S → Prop) (m : M S A) (f : A → M S B) :
  yields P m Q → (∀ x, yields Q (f x) R) → yields P (m ≫= f) R.
Proof.
  intros Hm Hf s s' y Hs. unfold mbind, M_bind. destruct (m s) as [[s1 [x|c]]|] eqn:H1; [|done|done].
  intros Hr. eapply Hf; [|exact Hr]. by eapply Hm.
Qed.

Lemma yields_ret {S A} (P : S → Prop) (x : A) : yields P (mret x) P.
Proof. by intros s s' y Hs [= <- <-]. Qed.

Lemma yields_weaken {S A} (P P' Q : S → Prop) (m : M S A) : (∀ s, P s → P' s) → yields P' m Q → yields P m Q.
Proof. intros HP Hm s s' x Hs. by apply Hm, HP. Qed.

Section yields.
Context {W C : Type} `{Comparator W} `{!CacheInterface C addr}
  `{HS : !HashFunc string} `{HA : !HashFunc addr} `{HZ : !HashFunc Z}.
Context (E : Env).
Implicit Types (k : string) (a : ADb W C) (v : AVal W).

Definition expired_at t : bool := lazy_expiration E && (t <=? now_ms E).

(** The key has not expired; and it has a value with [P]. *)
Definition live k a : Prop := cache_ (a_aux a) = None ∧ ∀ t, a_exp a !! k = Some t → expired_at t = false.
Definition holds k (P : AVal W → Prop) a : Prop := live k a ∧ ∃ x v, a_dict a !! k = Some (x, v) ∧ P v.

Lemma live_aux k {A} (m : M (Aux C) A) : keeps no_cache m → yields (live k) (r_aux m) (live k).
Proof.
  intros Hm a a' x [Hc He]. unfold r_aux, zoom. destruct (m (a_aux a)) as [[y r]|] eqn:Hr; [|done]. intros [= <- ->].
  split; [by eapply Hm|done].
Qed.

Lemma holds_aux k P {A} (m : M (Aux C) A) : keeps no_cache m → yields (holds k P) (r_aux m) (holds k P).
Proof.
  intros Hm a a' x [Hl Hv] Hr. split; [by eapply live_aux|]. revert Hr. unfold r_aux, zoom.
  destruct (m (a_aux a)) as [[y r]|]; [|done]. by intros [= <- ->].
Qed.

Lemma times_yields {A} (m : M (ADb W C) A) : keeps keeps_times m → yields times_ok m times_ok.
Proof. intros Hm a a' x Ha Hr. by apply (Hm _ _ _ Hr). Qed.

Lemma times_r_shard k : yields (times_ok (W := W) (C := C)) (r_shard E k) times_ok.
Proof. apply times_yields, times_shard. Qed.

Lemma not_expired_live k : yields times_ok (r_not_expired E k) (live k).
Proof.
  intros a a' [] [Hc Hd]. unfold r_not_expired, r_expire. rewrite bind_assoc, bind_get. fold (expired_at).
  destruct (a_exp a !! k) as [t|] eqn:Ht.
  - change (lazy_expiration E && (t <=? now_ms E)) with (expired_at t). destruct (expired_at t) eqn:Hx.
    + intros Hr. exfalso. revert Hr. unfold mbind, M_bind, check, r_exp_remove, r_remove, r_aux, zoom, get_state, put_state.
      repeat case_match; simplify_eq/=; done.
    + intros [= <-]. split; [done|]. intros t' ?. by simplify_eq.
  - intros [= <-]. split; [done|]. intros t' ?. by simplify_eq.
Qed.

Lemma put_holds k x v (P : AVal W → Prop) : P v → yields (live k) (r_put k (x, v)) (holds k P).
Proof. intros Hv a a' [] Hl [= <-]. split; [done|]. exists x, v. simpl. by rewrite lookup_insert_eq. Qed.

Lemma new_live k : yields (live k) r_new (live k).
Proof. by intros a a' x Ha [= <- <-]. Qed.

Lemma create_holds k v (P : AVal W → Prop) : P v → yields (live k) (r_create E k v) (holds k P).
Proof.
  intros Hv. unfold r_create. eapply yields_bind; [apply new_live|]. intros x.
  eapply yields_bind; [by apply put_holds|]. intros _. eapply yields_bind; [apply holds_aux, no_cache_add|]. intros _.
  eapply yields_bind; [apply holds_aux, no_cache_add_key|]. intros _. apply yields_ret.
Qed.

Lemma replace_holds k P pkey : yields (holds k P) (r_replace E pkey) (holds k P).
Proof. intros a a' [] Ha. pose proof Ha as [[Hc _] _]. unfold r_replace. rewrite bind_get, Hc. by intros [= <-]. Qed.

(** Reading a value that is there. *)
Lemma read_live k a : live k a → r_not_expired E k a = Some (a, inl ()).
Proof.
  intros [_ Hx]. unfold r_not_expired, r_expire. rewrite bind_assoc, bind_get. destruct (a_exp a !! k) as [t|]; [|done].
  specialize (Hx t eq_refl). unfold expired_at in Hx. by rewrite Hx.
Qed.

Lemma read_typed k P a t :
  holds k P a → (∀ v, P v → val_type v = t) → ∃ x v, r_typed k t a = Some (a, inl (x, v)) ∧ P v ∧ a_dict a !! k = Some (x, v).
Proof.
  intros [_ (x & v & Hl & Hv)] Ht. exists x, v. split; [|done]. unfold r_typed, r_lookup.
  rewrite (bind_ok _ _ a a (a_dict a !! k)) by done. rewrite Hl. simpl. by rewrite bool_decide_eq_true_2 by auto.
Qed.

Lemma read_on {A} k P a t (f : AVal W → option (AVal W * A)) (y : A) :
  holds k P a → (∀ v, P v → val_type v = t ∧ f v = Some (v, y)) → r_on E k t f a = Some (a, inl y).
Proof.
  intros Ha Hf. unfold r_on. rewrite (bind_ok _ _ _ _ _ (read_live k a (proj1 Ha))).
  destruct (read_typed k P a t Ha) as (x & v & Hr & Hv & Hl); [intros v Hv; by apply Hf|].
  rewrite (bind_ok _ _ _ _ _ Hr), bind_lift. destruct (Hf v Hv) as [_ Hfv]. simpl. rewrite Hfv.
  unfold r_put, mbind, M_bind, get_state, put_state, mret, M_ret. simpl. rewrite insert_id by done. by destruct a.
Qed.

(** A call that writes, one that reads, and what it reads. *)
Inductive reads_back : cmd W → cmd W → out W → Prop :=
  | rb_set_str k (v : string) : reads_back (CSetStr k v) (CGetStr k) (OString v)
  | rb_insert_str k (v : string) : reads_back (CInsertStr k v) (CGetStr k) (OString v)
  | rb_list_add k es : reads_back (CListAdd k es) (CListGetAll k) (OList es)
  | rb_map_set k f (v : string) : reads_back (CMapSet k f v) (CMapGet k f) (OString v).

(** What each write leaves. *)
Definition written (w : cmd W) : option (string * (AVal W → Prop)) :=
  match w with
  | CSetStr k v | CInsertStr k v => Some (k, λ x, x = AStr v)
  | CListAdd k es => Some (k, λ x, x = AList es)
  | CMapSet k f v => Some (k, λ x, ∃ m, x = AMap m ∧ m !! f = Some v)
  | _ => None
  end.

(** A key that is not there has no time. *)
Lemma absent_live k a : times_ok a → a_dict a !! k = None → live k a.
Proof.
  intros [Hc Hd] Hk. split; [done|]. intros t Ht. apply elem_of_dom_2, Hd in Ht. apply elem_of_dom in Ht as [e He].
  by rewrite Hk in He.
Qed.

Lemma create_absent k v :
  yields times_ok (r ← r_lookup k; match r with Some _ => stop S_EXISTS | None => r_create E k v;; mret (ODone (W := W)) end)
    (holds k (λ x, x = v)).
Proof.
  intros a a' o Ha. unfold r_lookup. rewrite (bind_ok _ _ a a (a_dict a !! k)) by done.
  destruct (a_dict a !! k) eqn:Hl; [done|]. intros Hr.
  eapply (yields_bind (live k) (holds k (λ x, x = v))); [by apply create_holds|intros; apply yields_ret| |exact Hr].
  by apply absent_live.
Qed.

Lemma set_str_holds k (v : string) : yields times_ok (ref_cmd E (CSetStr k v)) (holds k (λ x, x = AStr v)).
Proof.
  cbn [ref_cmd]. eapply yields_bind; [apply times_r_shard|]. intros _. eapply yields_bind; [apply not_expired_live|].
  intros _ a a' o Ha. unfold r_lookup. rewrite (bind_ok _ _ a a (a_dict a !! k)) by done.
  assert (∀ {A} (m : M (ADb W C) A), yields (live k) m (holds k (λ x, x = AStr v)) →
    yields (live k) (m;; r_replace E None;; mret (ODone (W := W))) (holds k (λ x, x = AStr v))) as Htail.
  { intros A m Hm. eapply yields_bind; [exact Hm|]. intros _. eapply yields_bind; [apply replace_holds|]. intros _. apply yields_ret. }
  destruct (a_dict a !! k) as [e|]; [case_bool_decide; [|done]|].
  - assert (yields (live k) (r_put k (e.1, AStr v);; r_aux (CacheUpdate e.1);; r_replace E None;; mret (ODone (W := W)))
      (holds k (λ x, x = AStr v))) as Hput; [|by apply Hput].
    apply (yields_bind _ (holds k (λ x, x = AStr v))); [by apply put_holds|]. intros _.
    eapply yields_bind; [apply holds_aux, no_cache_touch|]. intros _. eapply yields_bind; [apply replace_holds|]. intros _. apply yields_ret.
  - intros Hr. by apply (Htail _ _ (create_holds k (AStr v) (λ x, x = AStr v) eq_refl) a a' o).
Qed.

Lemma map_set_holds k f (v : string) :
  yields times_ok (ref_cmd E (CMapSet k f v)) (holds k (λ x, ∃ m, x = AMap m ∧ m !! f = Some v)).
Proof.
  cbn [ref_cmd]. unfold done, r_on. eapply yields_bind; [apply times_r_shard|]. intros _.
  eapply yields_bind; [|intros; apply yields_ret]. eapply yields_bind; [apply not_expired_live|].
  intros _ a a' o Ha. unfold r_typed, r_lookup. rewrite bind_assoc, (bind_ok _ _ a a (a_dict a !! k)) by done.
  destruct (a_dict a !! k) as [[x u]|]; [|done]. case_bool_decide as Ht; [|done]. destruct u; try done.
  intros [= <- <-]. split; [done|]. exists x, (AMap (<[f := v]> m)). simpl. rewrite lookup_insert_eq. split; [done|].
  eexists. split; [done|]. by rewrite lookup_insert_eq.
Qed.

Lemma write_holds w r o k P : reads_back w r o → written w = Some (k, P) → yields times_ok (ref_cmd E w) (holds k P).
Proof.
  destruct 1 as [k' v|k' v|k' es|k' f v]; intros [= <- <-].
  - apply set_str_holds.
  - cbn [ref_cmd]. eapply yields_bind; [apply times_r_shard|]. intros _.
    eapply yields_bind; [apply times_yields, times_replace|]. intros _. apply create_absent.
  - cbn [ref_cmd]. eapply yields_bind; [apply times_r_shard|]. intros _. apply create_absent.
  - apply map_set_holds.
Qed.

Lemma read_holds w r o k P a : reads_back w r o → written w = Some (k, P) → holds k P a → ref_cmd E r a = Some (a, inl o).
Proof.
  assert (∀ k (v : string) a, holds k (λ x, x = AStr v) a → ref_cmd E (CGetStr k) a = Some (a, inl (OString v))) as Hstr.
  { intros k' v a' Ha. cbn [ref_cmd]. rewrite (bind_ok _ _ _ _ _ (read_live k' a' (proj1 Ha))).
    destruct (read_typed k' _ a' D_STRING Ha) as (x & u & Hr & -> & _); [by intros ? ->|]. rewrite (bind_ok _ _ _ _ _ Hr).
    destruct Ha as [[Hc _] _].
    rewrite (bind_ok _ _ a' a' ()) by (unfold r_aux, zoom, CacheUpdate; rewrite bind_get, Hc; by destruct a'). done. }
  destruct 1 as [k' v|k' v|k' es|k' f v]; intros [= <- <-] Ha; [by apply Hstr..| |].
  - cbn [ref_cmd]. unfold ok_. rewrite (bind_ok _ _ a a es); [done|]. eapply read_on; [exact Ha|]. by intros ? ->.
  - cbn [ref_cmd]. rewrite (bind_ok _ _ a a (Some v)); [done|]. eapply read_on; [exact Ha|]. intros u (m & -> & Hm).
    cbn [on_kvs]. by rewrite Hm.
Qed.
End yields.

(** ** Histories on a new database *)

Section histories.
Context {W C : Type} `{Comparator W} `{!CacheInterface C addr}
  `{HS : !HashFunc string} `{HA : !HashFunc addr} `{HZ : !HashFunc Z}.
Implicit Types (k : string) (db : MmkvDb W C) (a : ADb W C) (cs : list (Env * cmd W)).

(** Keys the trees can tell apart, arguments in the range of their types, and
    not more than [max_elems] entries or elements. *)
Definition history_ok cs : Prop := Forall (λ ec, env_ok ec.1 ∧ cmd_ok ec.2) cs ∧ history_cost cs ≤ max_elems.

(** Where a history leads. *)
Lemma reached_rel cache cs db rs :
  history_ok cs → db_run (MmkvDb_new cache) cs = Some (db, rs) →
  ∃ a rs', ref_run (ref_new cache) cs = Some (a, rs') ∧ db_rel (history_cost cs) db a ∧ Forall2 (res_rel out_rel) rs rs'.
Proof.
  intros [Hok Hm] Hr. pose proof (history_sim cs 0 (MmkvDb_new cache) (ref_new cache) Hok ltac:(lia) Hm (new_rel 0 cache ltac:(lia))) as Hs.
  unfold runs_agree in Hs. rewrite Hr in Hs. inversion Hs as [? [a rs'] [Hd Hrs] Hx Hy|]. exists a, rs'. done.
Qed.

Lemma ref_run_keeps (R : relation (ADb W C)) `{!PreOrder R} (ok : Env → cmd W → Prop) cs :
  (∀ E c, ok E c → keeps R (ref_cmd E c)) → Forall (λ ec, ok ec.1 ec.2) cs →
  ∀ a a' rs, ref_run a cs = Some (a', rs) → R a a'.
Proof.
  intros Hc Hok. induction Hok as [|[E c] cs Hec _ IH]; intros a a' rs; cbn [ref_run]; [by intros [= <- <-]|].
  destruct (ref_cmd E c a) as [[a1 r]|] eqn:H1; [|done]. cbn [mbind option_bind].
  destruct (ref_run a1 cs) as [[a2 rs2]|] eqn:H2; [|done]. intros [= <- <-].
  etrans; [by apply (Hc E c Hec a a1 r)|by eapply IH].
Qed.

Lemma new_times : times_ok (ref_new (W := W) (C := C) None).
Proof. by split. Qed.

Lemma new_quiet : quiet (ref_new (W := W) (C := C) None).
Proof.
  split; [apply new_times|]. split; [done|]. exists 0. by destruct (init_is (D := ShardDict) 0 (Z.le_refl 0)).
Qed.

Lemma reached_times cs a rs :
  Forall (λ ec, leaves_time ec.2 = false) cs → ref_run (ref_new None) cs = Some (a, rs) → times_ok a.
Proof.
  intros Hl Hr. apply (ref_run_keeps keeps_times (λ _ c, leaves_time c = false) cs (λ E c, times_cmd E c) Hl _ _ _ Hr), new_times.
Qed.

Lemma ref_run_total (I : ADb W C → Prop) (ok : Env → cmd W → Prop) cs :
  (∀ E c, ok E c → total I (ref_cmd E c)) → Forall (λ ec, ok ec.1 ec.2) cs →
  ∀ a, I a → ∃ a' rs, ref_run a cs = Some (a', rs) ∧ length rs = length cs.
Proof.
  intros Hc Hok. induction Hok as [|[E c] cs Hec _ IH]; intros a Ha; cbn [ref_run]; [by eexists _, _|].
  destruct (Hc E c Hec a Ha) as (a1 & r & -> & H1). cbn [mbind option_bind].
  destruct (IH a1 H1) as (a2 & rs & -> & Hl). cbn. exists a2, (r :: rs). split; [done|]. simpl. by rewrite Hl.
Qed.

(** C2: any history of the calls of [cmd] on a new database, with any replacement policy, is
    the same history on the reference database, whose strings, lists, maps, sets and
    deadlines are finite maps and sequences: it faults exactly where the reference does,
    every call gives the same code and the same results up to the order of a hash table,
    and the database stands for the reference afterwards.  Sorted sets, the shard index,
    the replacement policy and the log are the same objects on both sides, so of them it
    says only that the same calls reach them ([Vset], [ListCache], [LfuCache] and
    [SharderFacts] are about them).  Not among the calls are [SetAnd], [SetOr], [SetSub]
    and their variants, [SetRandDelm], [RemoveShard], [GetShardInfo],
    [DistributeKeysToShard] and [CheckExpireCycle]; keys have no NUL byte (the trees
    compare up to it), and the calls add at most 2^61 elements ([history_ok]). *)
Theorem mmkvdb_refines_reference cache cs :
  history_ok cs → runs_agree (history_cost cs) (db_run (MmkvDb_new cache) cs) (ref_run (ref_new cache) cs).
Proof. intros [Hok Hm]. apply (history_sim cs 0); [done|done|lia|by apply new_rel]. Qed.

(** C25: every entry that a history leaves has an object of the type its tag
    says, so no cast of [any_data] and no destructor goes wrong. *)
Theorem stored_objects_typed cache cs db rs :
  history_ok cs → db_run (MmkvDb_new cache) cs = Some (db, rs) →
  ∀ kv, kv ∈ all_elems (dict_ db) →
    ∃ p, any_data (slot_data (value kv)) = Some p ∧ payload_type p = type (slot_data (value kv))
      ∧ DeleteMmkvData (slot_data (value kv)) = Some ().
Proof.
  intros Hok Hr kv Hin. destruct (reached_rel _ _ _ _ Hok Hr) as (a & rs' & _ & Hd & _).
  pose proof (all_typed _ _ _ Hd) as Ht. rewrite forallb_forall in Ht.
  specialize (Ht kv (proj1 (list_elem_of_In _ _) Hin)). apply bool_decide_eq_true in Ht as [[] Ht].
  destruct Hd as (Hdi & Hm & _). apply (elem_kv_view _ _ _ _ Hdi) in Hin.
  destruct (dict_rel_Some_l _ _ _ _ _ Hm Hin) as (e & _ & _ & p & Hp & _). exists p. rewrite Ht. split_ands; [by rewrite Hp| |done].
  unfold DeleteMmkvData in Ht. rewrite Hp in Ht |- *. cbn [any_data type] in *. by case_bool_decide.
Qed.



Lemma db_run_snoc db cs E c :
  db_run db (cs ++ [(E, c)]) = '(db, rs) ← db_run db cs; '(db, r) ← run_cmd E c db; Some (db, rs ++ [r]).
Proof.
  revert db. induction cs as [|[E' c'] cs IH]; intros db; cbn [db_run app].
  - cbn [mbind option_bind]. by destruct (run_cmd E c db) as [[]|].
  - destruct (run_cmd E' c' db) as [[db1 r1]|]; [|done]. cbn [mbind option_bind]. rewrite IH.
    destruct (db_run db1 cs) as [[db2 rs]|]; [|done]. cbn [mbind option_bind]. by destruct (run_cmd E c db2) as [[]|].
Qed.

Lemma history_cost_app cs cs' : history_cost (cs ++ cs') = history_cost cs + history_cost cs'.
Proof.
  unfold history_cost. induction cs as [|[E c] cs IH]; [done|]. cbn [app foldr fst snd]. rewrite IH. lia.
Qed.

(** C29: what [SetStr], [InsertStr], [ListAdd] or [MapSet] stored is what
    [GetStr], [ListGetAll] or [MapGet] gives back: after any history without
    [EraseStr] and [Rename] on a database without a replacement policy, when the
    write returns [S_OK], the read at the same time returns the value.  Keys have no
    NUL byte. *)
Theorem written_values_read_back cs E w r o o' db db' rs :
  reads_back w r o → history_ok (cs ++ [(E, w); (E, r)]) → Forall (λ ec, leaves_time ec.2 = false) cs →
  db_run (MmkvDb_new (C := C) None) cs = Some (db, rs) → run_cmd E w db = Some (db', inl o') →
  ∃ db'', run_cmd E r db' = Some (db'', inl o).
Proof.
  intros Hrb [Hok Hm] Hl Hrun Hw. rewrite history_cost_app in Hm. apply Forall_app in Hok as [Hok Hwr].
  apply Forall_cons in Hwr as [[HE Hcw] Hwr]. apply Forall_cons in Hwr as [[_ Hcr] _]. cbn [fst snd] in *.
  pose proof (cmd_cost_pos w) as Hpw. pose proof (cmd_cost_pos r) as Hpr. pose proof (history_cost_nonneg cs) as Hnn.
  change (history_cost [(E, w); (E, r)]) with (cmd_cost w + (cmd_cost r + 0)) in Hm.
  destruct (reached_rel None cs db rs) as (a & rs' & Ha & Hd & _); [split; [done|lia]|done|].
  apply (reached_times cs a rs' Hl) in Ha.
  pose proof (call_sim E w Hcw HE _ db a Hnn ltac:(lia) Hd) as Hs. rewrite Hw in Hs.
  destruct (ref_cmd E w a) as [[a' r']|] eqn:Hra; [|done]. destruct Hs as (db1 & r1 & [= <- <-] & Hd' & Hr').
  destruct r' as [o1|]; [|done].
  assert (∃ k P, written w = Some (k, P)) as (k & P & HkP) by (destruct Hrb; by eexists _, _).
  pose proof (write_holds E w r o k P Hrb HkP a a' o1 Ha Hra) as Hh.
  pose proof (call_sim E r Hcr HE (history_cost cs + cmd_cost w) db' a' ltac:(lia) ltac:(lia) Hd') as Hs2.
  rewrite (read_holds E w r o k P a' Hrb HkP Hh) in Hs2. destruct Hs2 as (db2 & [o2|c] & Hr2 & _ & Ho); [|done].
  exists db2. rewrite Hr2. simpl in Ho. destruct Hrb; by inversion Ho; subst.
Qed.
End histories.
