(* ===== verification/KvdbErrors.v ===== *)
(** * Codes, deadlines and faults of the database

    The status codes of the calls on a key that is absent or of another type, the
    deadlines [ExpireAt] and its variants set, and the ways in which calls go
    wrong. *)

From S2P Require Import Prelude Comparator AvlUtil AvlTree Dict HashTableBase HashTable TreeHashTable HashSet.
From S2P Require Import Dictionary Blist Cache ListCache Vset Kvdb KvdbSpec KvdbValues KvdbRefine KvdbCalls.
From S2P Require Import KvdbFacts.

(** ** Status codes *)

Section codes.
Context {W C : Type} `{Comparator W} `{!CacheInterface C addr}
  `{HS : !HashFunc string} `{HA : !HashFunc addr} `{HZ : !HashFunc Z}.
Context (E : Env) (Hsharder : is_sharder E = false).
Implicit Types (k : string) (a : ADb W C) (e : addr * AVal W).

(** The calls on a key that must have a type: the key and the type. *)
Definition cmd_type (c : cmd W) : option (string * DataType) :=
  match c with
  | CGetStr k | CStrAppend k _ | CStrPopBack k _ => Some (k, D_STRING)
  | CListPrepend k _ | CListGetSize k | CListGetAll k | CListGetRange k _ _ | CListPopFront k _ | CListPopBack k _ =>
      Some (k, D_STRLIST)
  | CVsetDel k _ | CVsetDelRange k _ _ | CVsetDelRangeByWeight k _ _ | CVsetSize k | CVsetSizeByWeight k _ _
  | CVsetWeight k _ | CVsetOrder k _ | CVsetROrder k _ | CVsetAll k | CVsetRange k _ _ | CVsetRangeByWeight k _ _
  | CVsetRRange k _ _ | CVsetRRangeByWeight k _ _ => Some (k, D_SORTED_SET)
  | CMapGet k _ | CMapGets k _ | CMapSet k _ _ | CMapDel k _ | CMapSize k | CMapExists k _ | CMapFields k
  | CMapValues k | CMapAll k => Some (k, D_MAP)
  | CSetDelm k _ | CSetSize k | CSetExists k _ | CSetAll k => Some (k, D_SET)
  | _ => None
  end.

(** What such a call answers when the value is not there. *)
Definition refusal k (t : DataType) a : option StatusCode :=
  match a_dict a !! k with
  | None => Some S_NONEXISTS
  | Some e => if bool_decide (val_type e.2 = t) then None else Some S_EXISTS_DIFF_TYPE
  end.

Lemma not_sharded k a : r_shard E k a = Some (a, inl ()).
Proof. unfold r_shard, r_aux, zoom, CHECK_SHARD_IS_LOCKED_KEY. rewrite Hsharder. by destruct a. Qed.

Lemma no_time_live k a : a_exp a !! k = None → r_not_expired E k a = Some (a, inl ()).
Proof. intros He. unfold r_not_expired, r_expire. rewrite bind_assoc, bind_get. by rewrite He. Qed.

Lemma stop_bind {S A B} (m : M S A) (f : A → M S B) s s' c : m s = Some (s', inr c) → (m ≫= f) s = Some (s', inr c).
Proof. intros Hm. unfold mbind, M_bind. by rewrite Hm. Qed.

Lemma refused_typed k t a c : refusal k t a = Some c → r_typed k t a = Some (a, inr c).
Proof.
  unfold refusal, r_typed, r_lookup. rewrite (bind_ok _ _ a a (a_dict a !! k)) by done.
  destruct (a_dict a !! k); [|by intros [= <-]]. case_bool_decide; [done|]. by intros [= <-].
Qed.

Lemma refused_on {A} k t a c (f : AVal W → option (AVal W * A)) :
  a_exp a !! k = None → refusal k t a = Some c → r_on E k t f a = Some (a, inr c).
Proof.
  intros He Hr. unfold r_on. rewrite (bind_ok _ _ _ _ _ (no_time_live k a He)). by apply stop_bind, refused_typed.
Qed.

Lemma refused_cmd c k t a s :
  cmd_type c = Some (k, t) → a_exp a !! k = None → refusal k t a = Some s → ref_cmd E c a = Some (a, inr s).
Proof.
  intros Hc He Hr. destruct c; try discriminate Hc; injection Hc as -> <-; cbn [ref_cmd]; unfold done, ok_;
    rewrite ?(bind_ok _ _ _ _ _ (not_sharded k a));
    first [by apply refused_on | by apply stop_bind, refused_on
          | rewrite (bind_ok _ _ _ _ _ (no_time_live k a He)); by apply stop_bind, refused_typed].
Qed.
End codes.

Section histories.
Context {W C : Type} `{Comparator W} `{!CacheInterface C addr}
  `{HS : !HashFunc string} `{HA : !HashFunc addr} `{HZ : !HashFunc Z}.
Implicit Types (k : string) (db : MmkvDb W C) (a : ADb W C) (cs : list (Env * cmd W)).

(** A call after a history. *)
Lemma reached_call cache cs db rs E c :
  history_ok (cs ++ [(E, c)]) → db_run (MmkvDb_new cache) cs = Some (db, rs) →
  ∃ a rs', ref_run (ref_new cache) cs = Some (a, rs') ∧ db_rel (history_cost cs) db a
    ∧ answers (history_cost (cs ++ [(E, c)])) out_rel (run_cmd E c db) (ref_cmd E c a).
Proof.
  intros [Hok Hm] Hr. rewrite history_cost_app in *. change (history_cost [(E, c)]) with (cmd_cost c + 0) in *.
  rewrite Z.add_0_r in *. pose proof (cmd_cost_pos c). pose proof (history_cost_nonneg cs) as Hn.
  apply Forall_app in Hok as [Hok Hc]. apply Forall_singleton in Hc as [HE Hc].
  destruct (reached_rel cache cs db rs) as (a & rs' & Ha & Hd & _); [split; [done|lia]|done|]. exists a, rs'. split_ands; [done..|].
  by apply (call_sim E c Hc HE).
Qed.

(** The database after a history and the one after one more call stand for one
    reference database. *)
Definition unchanged cs E c db db' : Prop :=
  ∃ a, db_rel (history_cost cs) db a ∧ db_rel (history_cost (cs ++ [(E, c)])) db' a.

(** A call that needs a value of some type, on a key that has no expiration
    time, stops with [S_NONEXISTS] when the key is absent and with
    [S_EXISTS_DIFF_TYPE] when its value has another type, and nothing is
    changed. *)
Theorem typed_call_refused cache cs db rs E c k t :
  history_ok (cs ++ [(E, c)]) → db_run (MmkvDb_new cache) cs = Some (db, rs) → is_sharder E = false →
  cmd_type c = Some (k, t) → kv_view (exp_dict_ db) !! k = None →
  match kv_view (dict_ db) !! k with
  | None => ∃ db', run_cmd E c db = Some (db', inr S_NONEXISTS) ∧ unchanged cs E c db db'
  | Some s =>
      type (slot_data s) = t
      ∨ ∃ db', run_cmd E c db = Some (db', inr S_EXISTS_DIFF_TYPE) ∧ unchanged cs E c db db'
  end.
Proof.
  intros Hok Hr Hsh Hc He. destruct (reached_call cache cs db rs E c Hok Hr) as (a & rs' & _ & Hd & Hans).
  assert (∀ code, refusal k t a = Some code → ∃ db', run_cmd E c db = Some (db', inr code) ∧ unchanged cs E c db db') as Hcode.
  { intros code Href. rewrite (refused_cmd E Hsh c k t a code Hc) in Hans; [|by destruct Hd as (_ & _ & _ & <- & _)|done].
    destruct Hans as (db' & [o|s] & Hrun & Hd' & Hres); [done|]. simpl in Hres. subst s. exists db'. split; [done|]. by exists a. }
  pose proof Hd as (_ & Hm & _). unfold refusal in Hcode.
  destruct (kv_view (dict_ db) !! k) as [s|] eqn:Hs.
  - destruct (dict_rel_Some_l _ _ _ _ _ Hm Hs) as (e & Hek & _ & p & -> & _). rewrite Hek in Hcode. cbn [type].
    case_bool_decide; [by left|]. right. by apply Hcode.
  - apply (dict_rel_None _ _ _ k Hm) in Hs. rewrite Hs in Hcode. by apply Hcode.
Qed.
End histories.

(** ** Deadlines *)

Section deadlines.
Context {W C : Type} `{Comparator W} `{!CacheInterface C addr}
  `{HS : !HashFunc string} `{HA : !HashFunc addr} `{HZ : !HashFunc Z}.
Implicit Types (k : string) (db : MmkvDb W C) (a : ADb W C) (cs : list (Env * cmd W)).

(** The key and the time in milliseconds that a call sets, wrapped to 64 bits. *)
Definition deadline (c : cmd W) : option (string * Z) :=
  match c with
  | CExpireAtMs k t => Some (k, t)
  | CExpireAt k t => Some (k, u64 (t * 1000))
  | CExpireAfterMs k ms i => Some (k, u64 (ms + i))
  | CExpireAfter k ms i => Some (k, u64 (ms + u64 (i * 1000)))
  | _ => None
  end.

Lemma deadline_ref E c k t a a' o :
  deadline c = Some (k, t) → ref_cmd E c a = Some (a', inl o) →
  a_exp a' = (if now_ms E <? t then <[k := t]> (a_exp a) else a_exp a).
Proof.
  intros Hd Hr.
  assert (∃ u, done (W := W) (r_expire_at E k t) a = Some (a', inl u)) as [u Hu]
    by (destruct c; try discriminate Hd; injection Hd as <- <-; by exists o).
  clear Hr. unfold done, r_expire_at, r_shard, r_aux, zoom, r_lookup, r_exp_put in Hu.
  unfold mbind, M_bind, get_state, put_state, mret, M_ret, stop, option_bind in Hu. cbn in Hu.
  repeat (case_match; simplify_eq/=); done.
Qed.

Lemma history_ok_app cs cs' : history_ok (cs ++ cs') → history_ok cs.
Proof.
  intros [Hok Hm]. apply Forall_app in Hok as [Hok _]. rewrite history_cost_app in Hm. pose proof (history_cost_nonneg cs').
  split; [done|lia].
Qed.

(** When [ExpireAtMs], [ExpireAt], [ExpireAfterMs] or [ExpireAfter]
    returns, the deadline of the key is the time wrapped to 64 bits if that is in
    the future, and no other deadline changes; if it is not in the future (as
    when it wrapped around) nothing changes at all, although the call returns
    [S_OK].  [GetTimeToLive] then answers the milliseconds that are left, between
    0 and 2^64, and 0 after the deadline. *)
Theorem time_to_live_bounds cache cs db rs E c k t db1 o E' :
  history_ok ((cs ++ [(E, c)]) ++ [(E', CGetTimeToLive k)]) → db_run (MmkvDb_new (C := C) cache) cs = Some (db, rs) →
  deadline c = Some (k, t) → t < 2 ^ 64 → 0 ≤ now_ms E' → run_cmd E c db = Some (db1, inl o) →
  (kv_view (exp_dict_ db1) = if now_ms E <? t then <[k := t]> (kv_view (exp_dict_ db)) else kv_view (exp_dict_ db)) ∧
  (now_ms E < t → ∃ db2 left, run_cmd E' (CGetTimeToLive k) db1 = Some (db2, inl (ONum left))
     ∧ left = Z.max 0 (t - now_ms E') ∧ 0 ≤ left < 2 ^ 64).
Proof.
  intros Hok Hr Hdl Ht Hn Hc. pose proof (history_ok_app _ _ Hok) as Hok1.
  destruct (reached_call cache cs db rs E c Hok1 Hr) as (a & rs' & Ha & Hd & Hans). rewrite Hc in Hans.
  destruct (ref_cmd E c a) as [[a1 [o1|code]]|] eqn:Hra; [|by destruct Hans as (? & ? & [= <- <-] & _ & ?)|done].
  destruct Hans as (db1' & r1 & [= <- <-] & Hd1 & _). pose proof (deadline_ref E c k t a a1 o1 Hdl Hra) as Hexp.
  pose proof Hd as (_ & _ & _ & Hxv & _). pose proof Hd1 as (_ & _ & _ & Hxv1 & _).
  split; [by rewrite Hxv1, Hexp, Hxv|]. intros Hlt. rewrite (proj2 (Z.ltb_lt _ _) Hlt) in Hexp.
  destruct (reached_call cache (cs ++ [(E, c)]) db1 (rs ++ [inl o]) E' (CGetTimeToLive k) Hok) as (a2 & rs2 & Ha2 & Hd2 & Hans).
  { rewrite db_run_snoc, Hr. cbn [mbind option_bind]. by rewrite Hc. }
  pose proof Hd2 as (_ & _ & _ & Hxv2 & _). cbn [ref_cmd] in Hans. unfold r_exp_lookup in Hans.
  rewrite (bind_ok _ _ a2 a2 (a_exp a2 !! k)) in Hans by done. rewrite <-Hxv2, Hxv1, Hexp, lookup_insert_eq in Hans.
  destruct Hans as (db2 & [o2|c2] & Hrun & _ & Ho); [|done]. exists db2, (Z.max 0 (t - now_ms E')). simpl in Ho.
  split_ands; [|done|lia..]. rewrite Hrun. inversion Ho; subst. do 4 f_equal.
  destruct (Z.leb_spec t (now_ms E')); [lia|]. rewrite u64_small by lia. lia.
Qed.
End deadlines.

(** ** Faults *)

Section faults.
Context {W C : Type} `{Comparator W} `{!CacheInterface C addr}
  `{HS : !HashFunc string} `{HA : !HashFunc addr} `{HZ : !HashFunc Z}.
Implicit Types (k v : string) (db : MmkvDb W C) (a : ADb W C).

(** A replacement policy is never taken away. *)
Definition policy_stays db db' : Prop := is_Some (cache_ (aux db)) → is_Some (cache_ (aux db')).
Definition policy_kept (x x' : Aux C) : Prop := is_Some (cache_ x) → is_Some (cache_ x').

#[local] Instance policy_stays_preorder : PreOrder policy_stays.
Proof. split; [by intros db Hs|]. intros d1 d2 d3 H1 H2 Hs. by apply H2, H1. Qed.
#[local] Instance policy_kept_preorder : PreOrder policy_kept.
Proof. split; [by intros x Hs|]. intros x1 x2 x3 H1 H2 Hs. by apply H2, H1. Qed.

Lemma stays_dict {A} f : keeps policy_stays (on_dict (A := A) f).
Proof. intros db db' r. unfold on_dict, call. destruct (f _) as [[]|]; [|done]. intros [= <- <-] Hs. done. Qed.
Lemma stays_exp {A} f : keeps policy_stays (on_exp (A := A) f).
Proof. intros db db' r. unfold on_exp, call. destruct (f _) as [[]|]; [|done]. intros [= <- <-] Hs. done. Qed.
Lemma stays_aux {A} (m : M (Aux C) A) : keeps policy_kept m → keeps policy_stays (on_aux m).
Proof.
  intros Hm db db' r. unfold on_aux, zoom. destruct (m _) as [[x r']|] eqn:Hr; [|done]. intros [= <- <-] Hs. by eapply Hm.
Qed.
Lemma stays_addr : keeps policy_stays new_addr.
Proof. intros db db' r [= <- <-] Hs. done. Qed.

Lemma kept_call {T A} (get : Aux C → T) set (f : T → option (T * A)) :
  (∀ x t, cache_ (set x t) = cache_ x) → keeps policy_kept (call get set f).
Proof.
  intros Hc x x' r. unfold call. destruct (f _) as [[]|]; [|done]. intros [= <- <-]. unfold policy_kept. by rewrite Hc.
Qed.
Lemma kept_sdict {A} f : keeps policy_kept (call (A := A) sdict_ with_sdict f).
Proof. by apply kept_call. Qed.
Lemma kept_locked {A} f : keeps policy_kept (call (A := A) locked_shard_id_set_ with_locked f).
Proof. by apply kept_call. Qed.
Lemma kept_put_cache x c : keeps policy_kept (put_state (with_cache x (Some c))).
Proof. intros y y' r [= <- <-] _. by exists c. Qed.
#[local] Hint Resolve stays_dict stays_exp stays_aux stays_addr kept_sdict kept_locked kept_put_cache : keeps.

Lemma kept_append k : keeps policy_kept (AppendDel k).
Proof. intros x x' r [= <- <-] Hs. done. Qed.
Lemma kept_cache x : keeps policy_kept (CacheAdd x) ∧ keeps policy_kept (CacheUpdate x).
Proof. unfold CacheAdd, CacheUpdate. split; keeps_tac. Qed.
Lemma kept_check E k : keeps policy_kept (CHECK_SHARD_IS_LOCKED_KEY E k).
Proof. unfold CHECK_SHARD_IS_LOCKED_KEY, HasShard, sdict_Find, IsShardLocked. keeps_tac. Qed.
Lemma kept_add_key E x k : keeps policy_kept (AddKeyToShard E x k).
Proof. unfold AddKeyToShard, on_shard. keeps_tac. Qed.
Lemma kept_add x : keeps policy_kept (CacheAdd x).
Proof. apply kept_cache. Qed.
Lemma kept_update x : keeps policy_kept (CacheUpdate x).
Proof. apply kept_cache. Qed.
#[local] Hint Resolve kept_append kept_check kept_add_key kept_add kept_update : keeps.

Lemma stays_expire E k : keeps policy_stays (CHECK_EXPIRE_ROUTINE E k).
Proof. unfold CHECK_EXPIRE_ROUTINE, CheckExpire, dict_Extract, DropNode. keeps_tac. Qed.
Lemma stays_typed k t : keeps policy_stays (ERROR_ROUTINE_KV k t).
Proof. unfold ERROR_ROUTINE_KV, dict_Find. keeps_tac. Qed.
Lemma stays_shard E k : keeps policy_stays (CHECK_SHARD E k).
Proof. unfold CHECK_SHARD. keeps_tac. Qed.
Lemma stays_set k s p : keeps policy_stays (set_payload k s p).
Proof. unfold set_payload. keeps_tac. Qed.
Lemma stays_insert k t : keeps policy_stays (dict_InsertKvWithDuplicate k t).
Proof. unfold dict_InsertKvWithDuplicate. keeps_tac. Qed.
#[local] Hint Resolve stays_expire stays_typed stays_shard stays_set stays_insert : keeps.

Definition short E : Prop := max_memory_usage E ≤ memory_usage E.

(** The eviction that dereferences a null key. *)
Lemma null_key_faults E db : short E → is_Some (cache_ (aux db)) → TryReplacekey E None db = None.
Proof.
  intros Hs [c Hc]. unfold TryReplacekey. rewrite bind_get, Hc. unfold short in Hs. by rewrite (proj2 (Z.ltb_ge _ _) Hs).
Qed.

(** A computation that, with a policy, does not return. *)
Definition hopeless {A} (m : M (MmkvDb W C) A) : Prop :=
  ∀ db db' x, is_Some (cache_ (aux db)) → m db ≠ Some (db', inl x).

Lemma hopeless_first {A B} (m : M (MmkvDb W C) A) (f : A → M _ B) : hopeless m → hopeless (m ≫= f).
Proof.
  intros Hm db db' x Hc. unfold mbind, M_bind. destruct (m db) as [[db1 [y|c]]|] eqn:H1; [|done|done].
  by destruct (Hm db db1 y Hc).
Qed.

Lemma hopeless_last {A B} (m : M (MmkvDb W C) A) (f : A → M _ B) :
  keeps policy_stays m → (∀ x, hopeless (f x)) → hopeless (m ≫= f).
Proof.
  intros Hm Hf db db' x Hc. unfold mbind, M_bind. destruct (m db) as [[db1 [y|c]]|] eqn:H1; [|done|done].
  apply Hf. by apply (Hm _ _ _ H1).
Qed.

Lemma hopeless_null E : short E → hopeless (TryReplacekey E None).
Proof. intros Hs db db' x Hc. by rewrite null_key_faults. Qed.

(** On a database with a replacement policy whose memory is used up,
    [InsertStr] dereferences a null key, and [SetStr] and [StrAppend] do so after
    they have stored the string: none of them returns [S_OK]. *)
Theorem string_writes_fault_when_full E k v db :
  short E → is_Some (cache_ (aux db)) →
  (is_sharder E = false → run_cmd E (CInsertStr k v) db = None)
  ∧ (∀ c db' o, c ∈ [CInsertStr k v; CSetStr k v; CStrAppend k v] → run_cmd E c db ≠ Some (db', inl o)).
Proof.
  intros Hs Hc. split.
  - intros Hsh. cbn [run_cmd]. unfold done, InsertStr. rewrite bind_assoc.
    rewrite (bind_ok _ _ db db ()) by (unfold CHECK_SHARD, on_aux, zoom, CHECK_SHARD_IS_LOCKED_KEY; rewrite Hsh; by destruct db).
    apply bind_fault, bind_fault. by apply null_key_faults.
  - pose proof (hopeless_null E Hs) as Hn. intros c db' o Hin. revert Hc. revert db db' o. change (hopeless (run_cmd E c)).
    repeat (apply elem_of_cons in Hin as [->|Hin]; [cbn [run_cmd]; unfold done; apply hopeless_first|]); [| | |by apply not_elem_of_nil in Hin].
    + unfold InsertStr. apply hopeless_last; [auto with keeps|]. intros _. by apply hopeless_first.
    + unfold SetStr. do 2 (apply hopeless_last; [auto with keeps|]; intros _). apply hopeless_last; [auto with keeps|].
      intros [[] s]; (apply hopeless_last; [keeps_tac|]; done).
    + unfold StrAppend, GetStr. apply hopeless_last; [auto with keeps|]. intros _.
      apply hopeless_last; [keeps_tac|]. intros [s w]. apply hopeless_last; [auto with keeps|]. done.
Qed.

(** *** A deadline without its key *)

Lemma run_ref_none cache cs : history_ok cs → ref_run (W := W) (ref_new cache) cs = None → db_run (MmkvDb_new cache) cs = None.
Proof.
  intros Hok Hr. pose proof (history_sim cs 0 (MmkvDb_new cache) (ref_new cache)) as Hs. destruct Hok as [Hok Hm].
  specialize (Hs Hok ltac:(lia) ltac:(lia) (new_rel 0 cache ltac:(lia))). unfold runs_agree in Hs. rewrite Hr in Hs. by inversion Hs.
Qed.

(** A time that is past, and no entry. *)
Lemma orphan_faults E k a t :
  lazy_expiration E = true → a_exp a !! k = Some t → t ≤ now_ms E → a_dict a !! k = None → ref_cmd E (CGetStr k) a = None.
Proof.
  intros Hl He Ht Hk. cbn [ref_cmd]. apply bind_fault. unfold r_not_expired. apply bind_fault. unfold r_expire.
  rewrite bind_get, He, Hl, (proj2 (Z.leb_le _ _) Ht), Hk. done.
Qed.

(** A call that takes the key away and leaves its time. *)
Definition takes_away (c : cmd W) k : Prop := c = CEraseStr k ∨ ∃ k', c = CRename k k' ∧ k' ≠ k.

Lemma orphan_made E k c a x v :
  is_sharder E = false → cache_ (a_aux a) = None → (∀ t, a_exp a !! k = Some t → expired_at E t = false) →
  a_dict a = {[ k := (x, AStr v) ]} → takes_away c k →
  ∃ a' o, ref_cmd E c a = Some (a', inl o) ∧ a_exp a' = a_exp a ∧ a_dict a' !! k = None.
Proof.
  intros Hs Hc Hx Hd. assert (a_dict a !! k = Some (x, AStr v)) as Hk by (by rewrite Hd, lookup_singleton_eq).
  intros [->|(k' & -> & Hne)]; cbn [ref_cmd].
  - unfold done, r_erase. rewrite bind_assoc, (bind_ok _ _ _ _ _ (not_sharded E Hs k a)).
    unfold r_lookup. rewrite bind_assoc, (bind_ok _ _ a a (a_dict a !! k)) by done.
    rewrite bind_assoc, bind_lift, Hk. cbn [snd val_type fst]. rewrite bool_decide_eq_true_2 by done.
    rewrite bind_assoc, (bind_ok _ _ a a ()) by (unfold r_aux, zoom, CacheRemove; rewrite bind_get, Hc; by destruct a).
    rewrite bind_assoc, (bind_ok _ _ a a ()) by (unfold r_aux, zoom, RemoveKeyFromShard; rewrite Hs; by destruct a).
    eexists _, _. split; [reflexivity|]. split; [done|]. simpl. by rewrite lookup_delete_eq.
  - rewrite (bind_ok _ _ _ _ _ (not_sharded E Hs k a)). rewrite (bind_ok _ _ _ _ _ (read_live E k a (conj Hc Hx))).
    unfold r_lookup. rewrite (bind_ok _ _ a a (a_dict a !! k')) by done.
    assert (a_dict a !! k' = None) as -> by (by rewrite Hd, lookup_singleton_ne).
    rewrite (bind_ok _ _ a a (a_dict a !! k)) by done. rewrite Hk. rewrite (bind_ok (r_or _ _) _ a a (x, AStr v)) by done.
    rewrite (bind_ok (r_remove k) _ _ _ _ eq_refl). set (a1 := set_a_dict a _).
    rewrite (bind_ok _ _ a1 a1 ()) by (unfold r_replace; rewrite bind_get; unfold a1; db_simpl; by rewrite Hc).
    rewrite (bind_ok (r_put k' _) _ _ _ _ eq_refl). set (a2 := set_a_dict a1 _). cbn [fst].
    rewrite (bind_ok _ _ a2 a2 ()) by (unfold r_aux, zoom, CacheUpdate; rewrite bind_get; unfold a2, a1; db_simpl; rewrite Hc; by destruct a).
    eexists _, _. split; [reflexivity|]. split; [done|]. simpl. rewrite lookup_insert_ne by done. by rewrite lookup_delete_eq.
Qed.

Lemma first_string E k v :
  is_sharder E = false →
  ref_cmd E (CSetStr k v) (ref_new (C := C) None) = Some (added (ref_new None) k (AStr v), inl ODone).
Proof.
  intros Hs. cbn [ref_cmd]. rewrite (bind_ok _ _ _ _ _ (not_sharded E Hs k _)).
  rewrite (bind_ok _ _ _ _ _ (no_time_live E k (ref_new None) (lookup_empty k))).
  rewrite (bind_ok (r_lookup k) _ (ref_new None) (ref_new None) None) by done.
  rewrite r_create_bind. set (a1 := added _ _ _).
  rewrite (bind_ok _ _ a1 a1 ()) by done.
  rewrite (bind_ok _ _ a1 a1 ()) by (unfold r_aux, zoom, AddKeyToShard; by rewrite Hs).
  by rewrite (bind_ok _ _ a1 a1 ()) by done.
Qed.

Lemma first_deadline E k v t :
  is_sharder E = false → IsExpirationDisable E = false → now_ms E < t →
  let a := added (ref_new (C := C) (W := W) None) k (AStr v) in
  ref_cmd E (CExpireAtMs k t) a = Some (set_a_exp a {[ k := t ]}, inl ODone).
Proof.
  intros Hs He Ht a. cbn [ref_cmd]. unfold done, r_expire_at. rewrite bind_assoc, (bind_ok _ _ _ _ _ (not_sharded E Hs k a)).
  rewrite He, bind_assoc. unfold r_lookup. rewrite (bind_ok _ _ a a (Some (1%positive, AStr v))).
  - by rewrite (proj2 (Z.ltb_lt _ _) Ht).
  - rewrite bind_get. unfold a, added. db_simpl. by rewrite lookup_insert_eq.
Qed.

(** [EraseStr] and [Rename] leave the expiration time of the key they take
    away; when that time has come, the next access to the key fails the assertion
    that an expired key has an entry. *)
Theorem left_deadline_faults E E' k v t c :
  history_ok [(E, CSetStr k v); (E, CExpireAtMs k t); (E, c); (E', CGetStr k)] →
  takes_away c k →
  is_sharder E = false → lazy_expiration E = true → lazy_expiration E' = true → now_ms E < t ≤ now_ms E' →
  db_run (MmkvDb_new (C := C) None) [(E, CSetStr k v); (E, CExpireAtMs k t); (E, c); (E', CGetStr k)] = None.
Proof.
  intros Hok Hc Hs Hl Hl' [Ht Ht']. apply run_ref_none; [done|]. cbn [ref_run].
  rewrite first_string by done. cbn [mbind option_bind].
  rewrite first_deadline by (try done; unfold IsExpirationDisable; by rewrite Hl). cbn [mbind option_bind].
  set (a := set_a_exp _ _).
  destruct (orphan_made E k c a 1%positive v) as (a' & o & -> & He & Hd); [done|done| |done|done|].
  { intros t' Ht1. unfold a in Ht1. db_simpl. simpl in Ht1. rewrite lookup_singleton_eq in Ht1. injection Ht1 as <-.
    unfold expired_at. rewrite Hl. simpl. apply Z.leb_gt. lia. }
  cbn [mbind option_bind]. rewrite (orphan_faults E' k a' t Hl'); [done| |done|done]. rewrite He. unfold a. simpl.
  by rewrite lookup_singleton_eq.
Qed.
End faults.

(** ** The periodic sweep *)

Section sweep.
Context {W C : Type} `{Comparator W} `{!CacheInterface C addr}
  `{HS : !HashFunc string} `{HA : !HashFunc addr} `{HZ : !HashFunc Z}.
Context (E : Env).
Implicit Types (k : string) (db : MmkvDb W C) (a : ADb W C).

Definition without {V} (m : gmap string V) (ks : list string) : gmap string V := foldl (λ m k, delete k m) m ks.

Lemma lookup_without {V} (m : gmap string V) ks k : without m ks !! k = if decide (k ∈ ks) then None else m !! k.
Proof.
  revert m. induction ks as [|k' ks IH]; intros m; [by rewrite decide_False by apply not_elem_of_nil|].
  cbn [without foldl]. fold (without (delete k' m) ks). rewrite IH. destruct (decide (k = k')) as [->|Hne].
  - rewrite lookup_delete_eq, (decide_True (P := k' ∈ k' :: ks)) by apply elem_of_cons, or_introl, eq_refl. by case_decide.
  - rewrite lookup_delete_ne by done. destruct (decide (k ∈ ks)) as [Hi|Hi].
    + by rewrite decide_True by (by apply elem_of_cons; right).
    + by rewrite decide_False by (rewrite elem_of_cons; naive_solver).
Qed.

(** The keys that are due among some entries of [exp_dict_]. *)
Definition due (l : list (KeyValue string Z)) : list string :=
  map Comparator.key (filter (λ kt, value kt ≤ now_ms E) l).

(** The reference sweep: entries and times that are due go. *)
Definition is_due (o : option Z) : bool := match o with Some t => t <=? now_ms E | None => false end.
Definition swept a : ADb W C :=
  set_a_exp (set_a_dict a (filter (λ ke, is_due (a_exp a !! ke.1) = false) (a_dict a)))
    (filter (λ kt, is_due (Some kt.2) = false) (a_exp a)).

Lemma expire_loop_sim l : ∀ n db a,
  db_rel n db a → NoDup (map Comparator.key l) →
  Forall (λ kt, key_ok (Comparator.key kt) ∧ is_Some (a_dict a !! Comparator.key kt)) l →
  ∃ db', expire_loop E l db = Some (db', inl (due l)) ∧ db_rel n db' (set_a_dict a (without (a_dict a) (due l)))
    ∧ exp_dict_ db' = exp_dict_ db.
Proof.
  induction l as [|[k t] l IH]; intros n db a Hd Hnd Hl; cbn [expire_loop].
  { exists db. split_ands; [done| |done]. by destruct a. }
  apply Forall_cons in Hl as [[Hk [e He]] Hl]. apply NoDup_cons in Hnd as [Hni Hnd]. cbn [Comparator.key value] in *.
  unfold due. rewrite filter_cons. cbn [value]. destruct (Z.leb_spec t (now_ms E)) as [Ht|Ht].
  - rewrite decide_True by done. destruct (extract_step n db a k Hd Hk) as (db1 & Hx & Hd1). rewrite (bind_ok _ _ _ _ _ Hx).
    pose proof Hd as (_ & Hm & _). destruct (dict_rel_Some _ _ _ _ _ Hm He) as (s & Hs & Hse). rewrite Hs.
    rewrite (bind_ok _ _ _ _ _ (drop_step n s e db1 Hse)).
    destruct (IH n db1 _ Hd1 Hnd) as (db2 & Hr & Hd2 & Hx2).
    { rewrite Forall_forall in Hl |- *. intros kt Hin. specialize (Hl kt Hin) as [Hok Hsome]. split; [done|]. db_simpl.
      rewrite lookup_delete_ne; [done|]. intros ->. apply Hni. by apply list_elem_of_fmap_2. }
    rewrite (bind_ok _ _ _ _ _ Hr). exists db2. split_ands; [done|done|]. rewrite Hx2. revert Hx. clear. unfold dict_Extract.
    unfold mbind, M_bind, on_dict, call. destruct (d_extract _ _) as [[]|]; [|done]. by intros [= <- _].
  - rewrite decide_False by lia. by apply IH.
Qed.

Lemma erase_all_sim ks : ∀ n db a,
  db_rel n db a → Forall key_ok ks →
  ∃ db', each exp_Erase ks db = Some (db', inl ()) ∧ db_rel n db' (set_a_exp a (without (a_exp a) ks)).
Proof.
  induction ks as [|k ks IH]; intros n db a Hd Hk; cbn [each]; [exists db; by destruct a|].
  apply Forall_cons in Hk as [Hk Hks]. destruct (exp_erase_step n db a k Hd Hk) as (db1 & Hx & Hd1).
  rewrite (bind_ok _ _ _ _ _ Hx). destruct (IH n db1 _ Hd1 Hks) as (db2 & Hr & Hd2). by exists db2.
Qed.

Lemma append_all_sim ks : ∀ n db a,
  db_rel n db a →
  ∃ db' x, each (λ k, on_aux (AppendDel k)) ks db = Some (db', inl ()) ∧ db_rel n db' (set_a_aux a x)
    ∧ rlog x = rlog (a_aux a) ++ ks.
Proof.
  induction ks as [|k ks IH]; intros n db a Hd; cbn [each].
  { exists db, (a_aux a). split_ands; [done|by destruct a|]. by rewrite app_nil_r. }
  pose proof Hd as (_ & _ & _ & _ & Hx & _).
  set (x := with_rlog (a_aux a) (rlog (a_aux a) ++ [k])).
  rewrite (bind_ok _ _ db (with_aux db x) ()) by (unfold on_aux, zoom, AppendDel, x; by rewrite Hx).
  destruct (IH n (with_aux db x) (set_a_aux a x)) as (db' & x' & Hr & Hd' & Hl); [by apply db_rel_aux|].
  exists db', x'. split_ands; [done|done|]. rewrite Hl. simpl. by rewrite <-app_assoc.
Qed.

Lemma elem_due l k : k ∈ due l ↔ ∃ t, MkKeyValue k t ∈ l ∧ t ≤ now_ms E.
Proof.
  unfold due. rewrite list_elem_of_fmap. split.
  - intros ([k' t] & -> & [Ht Hin]%list_elem_of_filter). by exists t.
  - intros (t & Hin & Ht). exists (MkKeyValue k t). split; [done|]. by apply list_elem_of_filter.
Qed.

Lemma swept_without a l :
  (∀ k t, MkKeyValue k t ∈ l ↔ a_exp a !! k = Some t) →
  swept a = set_a_exp (set_a_dict a (without (a_dict a) (due l))) (without (a_exp a) (due l)).
Proof.
  intros Hl. assert (∀ k, k ∈ due l ↔ is_due (a_exp a !! k) = true) as Hdue.
  { intros k. rewrite elem_due. split.
    - intros (t & Hin%Hl & Ht). rewrite Hin. simpl. by apply Z.leb_le.
    - destruct (a_exp a !! k) as [t|] eqn:Hk; [|done]. simpl. rewrite Z.leb_le. intros Ht. exists t. by rewrite Hl. }
  unfold swept. f_equal; [f_equal|]; apply map_eq; intros k; rewrite lookup_without.
  - rewrite map_lookup_filter. cbn [fst snd]. case_decide as Hi; rewrite Hdue in Hi.
    + rewrite Hi. by destruct (a_dict a !! k).
    + apply not_true_is_false in Hi. rewrite Hi. by destruct (a_dict a !! k).
  - rewrite map_lookup_filter. cbn [fst snd]. case_decide as Hi; rewrite Hdue in Hi; destruct (a_exp a !! k) as [t|]; try done.
    + cbn [mbind option_bind]. by rewrite Hi.
    + apply not_true_is_false in Hi. cbn [mbind option_bind]. by rewrite Hi.
Qed.

(** The entries of [exp_dict_] as its iterators give them. *)
Lemma exp_entries n db a :
  db_rel n db a → ∃ l, entries (exp_dict_ db) = Some l ∧ NoDup (map Comparator.key l)
    ∧ ∀ k t, MkKeyValue k t ∈ l ↔ a_exp a !! k = Some t.
Proof.
  intros (_ & _ & [u Hx] & Hxv & _). destruct (entries_rel _ _ _ Hx) as (l & Hl & Hp). exists l. split; [done|].
  rewrite Hxv in Hp. split.
  - assert (map Comparator.key l = (map (λ kv, (Comparator.key kv, value kv)) l).*1) as -> by (by rewrite map_map).
    rewrite Hp. apply NoDup_fst_map_to_list.
  - intros k t. rewrite <-elem_of_map_to_list, <-Hp, list_elem_of_fmap. split.
    + intros Hin. by exists (MkKeyValue k t).
    + by intros ([k' t'] & [= -> ->] & Hin).
Qed.

Lemma cycle_sim n db a :
  db_rel n db a → dom (a_exp a) ⊆ dom (a_dict a) →
  ∃ db' x ks, CheckExpireCycle E db = Some (db', inl ()) ∧ db_rel n db' (set_a_aux (swept a) x)
    ∧ rlog x = rlog (a_aux a) ++ ks ∧ ∀ k, log_request E = true → k ∈ ks ↔ is_due (a_exp a !! k) = true.
Proof.
  intros Hd Hdom. destruct (exp_entries n db a Hd) as (l & Hl & Hnd & Hin). unfold CheckExpireCycle. rewrite bind_get, bind_lift, Hl.
  assert (Forall (λ kt, key_ok (Comparator.key kt) ∧ is_Some (a_dict a !! Comparator.key kt)) l) as Hkeys.
  { apply Forall_forall. intros [k t] Hkt. apply Hin in Hkt. pose proof Hd as (_ & _ & [u Hx] & Hxv & _). split.
    - rewrite <-Hxv in Hkt. exact (dict_is_key _ _ _ _ _ Hx Hkt).
    - apply elem_of_dom, Hdom, elem_of_dom. by exists t. }
  destruct (expire_loop_sim l n db a Hd Hnd Hkeys) as (db1 & Hr1 & Hd1 & _). rewrite (bind_ok _ _ _ _ _ Hr1).
  assert (Forall key_ok (due l)) as Hdk.
  { apply Forall_forall. intros k (t & Hkt & _)%elem_due. rewrite Forall_forall in Hkeys. by apply (Hkeys (MkKeyValue k t)). }
  destruct (erase_all_sim (due l) n db1 _ Hd1 Hdk) as (db2 & Hr2 & Hd2). rewrite (bind_ok _ _ _ _ _ Hr2).
  change (a_exp (set_a_dict a _)) with (a_exp a) in Hd2. rewrite <-(swept_without a l Hin) in Hd2.
  destruct (log_request E).
  - destruct (append_all_sim (due l) n db2 _ Hd2) as (db3 & x & Hr3 & Hd3 & Hx). exists db3, x, (due l).
    split_ands; [done|done|exact Hx|]. intros k _. rewrite elem_due. split.
    + intros (t & Hkt%Hin & Ht). rewrite Hkt. by apply Z.leb_le.
    + destruct (a_exp a !! k) as [t|] eqn:Hk; [|done]. simpl. rewrite Z.leb_le. intros Ht. exists t. by rewrite Hin.
  - exists db2, (a_aux a), []. split_ands; [done|by destruct a|by rewrite app_nil_r|done].
Qed.

(** C38: without a replacement policy, and as long as neither [EraseStr] nor
    [Rename] was called, the periodic [CheckExpireCycle] returns and takes away
    exactly the keys whose time has come, with their times, logs each of them
    when requests are logged, and leaves all other entries.  Keys have no NUL
    byte. *)
Theorem expire_cycle_sweeps cs db rs :
  history_ok cs → Forall (λ ec, leaves_time ec.2 = false) cs → db_run (MmkvDb_new (C := C) None) cs = Some (db, rs) →
  ∃ db', CheckExpireCycle E db = Some (db', inl ())
    ∧ kv_view (exp_dict_ db') = filter (λ kt, now_ms E < kt.2) (kv_view (exp_dict_ db))
    ∧ (∀ k, k ∈ dom (kv_view (dict_ db')) ↔ k ∈ dom (kv_view (dict_ db)) ∧ is_due (kv_view (exp_dict_ db) !! k) = false)
    ∧ (∃ a x, db_rel (history_cost cs) db a ∧ db_rel (history_cost cs) db' (set_a_aux (swept a) x))
    ∧ ∃ ks, rlog (aux db') = rlog (aux db) ++ ks ∧
        ∀ k, log_request E = true → k ∈ ks ↔ is_due (kv_view (exp_dict_ db) !! k) = true.
Proof.
  intros Hok Hl Hr. destruct (reached_rel _ _ _ _ Hok Hr) as (a & rs' & Ha & Hd & _).
  apply (reached_times cs a rs' Hl) in Ha as [_ Hdom].
  destruct (cycle_sim _ db a Hd Hdom) as (db' & x & ks & Hc & Hd' & Hx & Hks). exists db'.
  pose proof Hd as (_ & Hm & _ & Hxv & Hax & _). pose proof Hd' as (_ & Hm' & _ & Hxv' & Hax' & _).
  rewrite Hxv', Hxv, Hax, Hax', (dict_rel_dom _ _ _ Hm), (dict_rel_dom _ _ _ Hm'). split_ands; [done| | |by exists a, x|by exists ks].
  - simpl. apply map_filter_ext. intros k t _. simpl. rewrite Z.leb_gt. done.
  - intros k. rewrite !elem_of_dom. simpl. rewrite map_lookup_filter. cbn [fst snd].
    destruct (a_dict a !! k) as [e|]; [|naive_solver]. destruct (is_due (a_exp a !! k)); naive_solver.
Qed.
End sweep.

(** ** Ranges of a list *)

(** The list [ListAdd] makes. *)
Definition list_of (es : list string) : option StrList := push_each sl_PushBack StrList_init es.

(** C39: [ListGetRange] walks a linked list from the nearer end with unsigned
    arithmetic on its bounds; on the list made of any elements it gives, for every
    pair of 64-bit bounds, what the reference range gives: the elements from [i]
    to [j], [S_INVALID_RANGE], or, on the right half, the reversed elements one
    place too far to the right. *)
Theorem list_get_range_reference es :
  Z.of_nat (length es) ≤ max_elems →
  ∃ sl, list_of es = Some sl
    ∧ ∀ i j, - 2 ^ 63 ≤ i < 2 ^ 63 → - 2 ^ 63 ≤ j < 2 ^ 63 → sl_range sl i j = ref_range es i j.
Proof.
  intros Hl. destruct (push_back_each 0 StrList_init [] es) as (sl & Hp & Hr); [by apply list_rel_init|lia|].
  exists sl. split; [done|]. intros i j Hi Hj. apply (range_rel _ _ _ _ _ Hr); [lia|done|done].
Qed.
