(* ===== verification/KvdbFrame.v ===== *)
(** * A call leaves the other keys alone *)

From S2P Require Import Prelude Comparator AvlUtil AvlTree Dict HashTableBase HashTable TreeHashTable HashSet.
From S2P Require Import Dictionary Blist Cache ListCache Vset Kvdb KvdbSpec KvdbValues KvdbRefine KvdbCalls.
From S2P Require Import KvdbFacts KvdbErrors.

Section frame.
Context {W C : Type} `{Comparator W} `{!CacheInterface C addr}
  `{HS : !HashFunc string} `{HA : !HashFunc addr} `{HZ : !HashFunc Z}.
Context (E : Env) (k : string).
Implicit Types (a : ADb W C) (e : addr * AVal W).

(** Only [k] has changed, if there is no replacement policy. *)
Definition only_key a a' : Prop :=
  cache_ (a_aux a) = None →
  cache_ (a_aux a') = None
  ∧ ∀ k', k' ≠ k → a_dict a' !! k' = a_dict a !! k' ∧ a_exp a' !! k' = a_exp a !! k'.

#[local] Instance only_key_preorder : PreOrder only_key.
Proof.
  split; [by intros a Hc|]. intros a1 a2 a3 H1 H2 Hc. destruct (H1 Hc) as [Hc2 Hs1]. destruct (H2 Hc2) as [Hc3 Hs2].
  split; [done|]. intros k' Hk. destruct (Hs1 k' Hk), (Hs2 k' Hk). split; congruence.
Qed.

Abbreviation only m := (keeps only_key m).

Lemma only_aux {A} (m : M (Aux C) A) : keeps no_cache m → only (r_aux m).
Proof.
  intros Hm a a' r. unfold r_aux, zoom. destruct (m (a_aux a)) as [[x r']|] eqn:Hr; [|done]. intros [= <- <-] Hc.
  split; [by eapply Hm|done].
Qed.

(** A change of the entry or the time of [k]. *)
Lemma only_change {A} (m : M (ADb W C) A) :
  (∀ a a' r, m a = Some (a', r) → a_aux a' = a_aux a
     ∧ ∀ k', k' ≠ k → a_dict a' !! k' = a_dict a !! k' ∧ a_exp a' !! k' = a_exp a !! k') → only m.
Proof. intros Hm a a' r Hr Hc. apply Hm in Hr as [Hx Hs]. split; [by rewrite Hx|done]. Qed.

Ltac change_tac :=
  apply only_change; intros a a' r [= <- <-]; split; [done|]; intros k' Hk'; simpl;
  rewrite ?lookup_insert_ne, ?lookup_delete_ne by done; done.

Lemma only_lookup : only (r_lookup k).
Proof. change_tac. Qed.
Lemma only_exp_lookup : only (r_exp_lookup k).
Proof. change_tac. Qed.
Lemma only_put e : only (r_put k e).
Proof. change_tac. Qed.
Lemma only_remove : only (r_remove k).
Proof. change_tac. Qed.
Lemma only_exp_put t : only (r_exp_put k t).
Proof. change_tac. Qed.
Lemma only_exp_remove : only (r_exp_remove k).
Proof. change_tac. Qed.
Lemma only_new : only r_new.
Proof. change_tac. Qed.
Lemma only_uncounted : only r_uncounted.
Proof. change_tac. Qed.
Lemma only_or {A} c (o : option A) : only (r_or c o).
Proof. unfold r_or. keeps_tac. Qed.
Lemma only_replace pkey : only (r_replace E pkey).
Proof. intros a a' r Hr Hc. unfold r_replace in Hr. rewrite bind_get, Hc in Hr. by injection Hr as <- <-. Qed.
#[local] Hint Resolve only_aux only_lookup only_exp_lookup only_put only_remove only_exp_put only_exp_remove only_new
  only_uncounted only_or only_replace no_cache_check no_cache_add_key no_cache_remove_key : keeps.

Lemma only_shard : only (r_shard E k).
Proof. unfold r_shard. keeps_tac. Qed.
Lemma only_expire : only (r_expire E k).
Proof. unfold r_expire. keeps_tac. Qed.
Lemma only_typed t : only (r_typed k t).
Proof. unfold r_typed. keeps_tac. Qed.
Lemma only_create v : only (r_create E k v).
Proof. unfold r_create. keeps_tac. Qed.
#[local] Hint Resolve only_shard only_expire only_typed only_create : keeps.
Lemma only_not_expired : only (r_not_expired E k).
Proof. unfold r_not_expired. keeps_tac. Qed.
#[local] Hint Resolve only_not_expired : keeps.
Lemma only_on {A} t (f : AVal W → option (AVal W * A)) : only (r_on E k t f).
Proof. unfold r_on. keeps_tac. Qed.
Lemma only_open {A} v (f : AVal W → option (AVal W * A)) : only (r_open E k v f).
Proof. unfold r_open. keeps_tac. Qed.
Lemma only_erase t b : only (r_erase E t b k).
Proof. unfold r_erase. keeps_tac. Qed.
Lemma only_expire_at t : only (r_expire_at E k t).
Proof. unfold r_expire_at. keeps_tac. Qed.
#[local] Hint Resolve only_on only_open only_erase only_expire_at : keeps.

(** The key a call is about; [ListAppend] only counts when the key is not moved
    to the log. *)
Definition cmd_key (c : cmd W) : option string :=
  match c with
  | CIsEmpty | CGetAllKeys | CDeleteAll | CRename _ _ | CLockShard _ | CUnlockShard _ | CUnlockAllShard | CAddShard _
  | CHasShard _ | CGetShardKeys _ => None
  | CListAppend k _ => if log_request E then None else Some k
  | CType k | CDelete k | CInsertStr k _ | CEraseStr k | CGetStr k | CStrAppend k _ | CStrPopBack k _ | CSetStr k _
  | CListAdd k _ | CListPrepend k _ | CListGetSize k | CListGetAll k | CListGetRange k _ _ | CListPopFront k _
  | CListPopBack k _ | CListDel k | CVsetAdd k _ | CVsetDel k _ | CVsetDelRange k _ _ | CVsetDelRangeByWeight k _ _
  | CVsetSize k | CVsetSizeByWeight k _ _ | CVsetWeight k _ | CVsetOrder k _ | CVsetROrder k _ | CVsetAll k
  | CVsetRange k _ _ | CVsetRangeByWeight k _ _ | CVsetRRange k _ _ | CVsetRRangeByWeight k _ _ | CMapAdd k _
  | CMapGet k _ | CMapGets k _ | CMapSet k _ _ | CMapDel k _ | CMapSize k | CMapExists k _ | CMapFields k | CMapValues k
  | CMapAll k | CSetAdd k _ | CSetDelm k _ | CSetSize k | CSetExists k _ | CSetAll k | CExpireAtMs k _ | CExpireAt k _
  | CExpireAfterMs k _ _ | CExpireAfter k _ _ | CPersist k | CGetExpiration k | CGetTimeToLive k => Some k
  end.

Lemma only_append es : log_request E = false → only (ref_cmd E (CListAppend k es)).
Proof.
  intros Hl. cbn [ref_cmd]. apply keeps_bind; [exact _|auto with keeps|]. intros _.
  eapply keeps_ext; [|apply (keeps_bind _ (r_expire E k) (λ _, done (W := W) (r_open E k (AList []) (on_list (λ l, Some (l ++ es, ()))))))].
  - intros a. unfold r_expire. rewrite !bind_assoc, !bind_get, Hl. destruct (a_exp a !! k); [|done]. case_match; [|done].
    unfold check. by case_bool_decide.
  - auto with keeps.
  - intros _. unfold done. keeps_tac.
Qed.

Lemma only_cmd c : cmd_key c = Some k → only (ref_cmd E c).
Proof.
  intros Hc. destruct c; try discriminate Hc; try (injection Hc as ->; cbn [ref_cmd]; unfold done, ok_; keeps_tac; fail).
  simpl in Hc. destruct (log_request E) eqn:Hl; [done|]. injection Hc as ->. by apply only_append.
Qed.
End frame.

Section isolation.
Context {W C : Type} `{Comparator W} `{!CacheInterface C addr}
  `{HS : !HashFunc string} `{HA : !HashFunc addr} `{HZ : !HashFunc Z}.
Implicit Types (k : string) (db : MmkvDb W C) (a : ADb W C) (cs : list (Env * cmd W)).

(** C30: on a database without a replacement policy (which evicts other keys), a call
    about one key changes no other key: whether it succeeds or not, every other key has
    the value, the type and the expiration time it had.  About one key are the calls to
    which [cmd_key] gives a key: not [Rename], [DeleteAll] and the calls on shards, and
    not [ListAppend] while requests are logged, which may store the list under the key
    that is left after it was moved to the log.  Keys have no NUL byte. *)
Theorem other_keys_untouched cache cs db rs E c k db' r :
  history_ok (cs ++ [(E, c)]) → db_run (MmkvDb_new cache) cs = Some (db, rs) → cache_ (aux db) = None →
  cmd_key E c = Some k → run_cmd E c db = Some (db', r) →
  ∃ a a', db_rel (history_cost cs) db a ∧ db_rel (history_cost (cs ++ [(E, c)])) db' a'
    ∧ ∀ k', k' ≠ k →
        a_dict a' !! k' = a_dict a !! k'
        ∧ kv_view (exp_dict_ db') !! k' = kv_view (exp_dict_ db) !! k'
        ∧ ((λ s, type (slot_data s)) <$> kv_view (dict_ db') !! k') = ((λ s, type (slot_data s)) <$> kv_view (dict_ db) !! k').
Proof.
  intros Hok Hr Hn Hk Hc. destruct (reached_call cache cs db rs E c Hok Hr) as (a & rs' & _ & Hd & Hans). rewrite Hc in Hans.
  destruct (ref_cmd E c a) as [[a' r']|] eqn:Ha; [|done]. destruct Hans as (db1 & r1 & [= <- <-] & Hd' & _).
  pose proof Hd as (_ & Hm & _ & Hxv & Hax & _). pose proof Hd' as (_ & Hm' & _ & Hxv' & _).
  rewrite Hax in Hn. destruct (only_cmd E k c Hk a a' r' Ha Hn) as [_ Hs].
  exists a, a'. split_ands; [done..|]. intros k' Hk'. destruct (Hs k' Hk') as [Hsd Hse]. split_ands; [done|by rewrite Hxv, Hxv'|].
  specialize (Hm k'). specialize (Hm' k'). rewrite Hsd in Hm'.
  destruct (a_dict a !! k') as [e|]; inversion Hm as [s ? (_ & p & Hp & _) Hx|Hx]; inversion Hm' as [s' ? (_ & p' & Hp' & _) Hx'|Hx'];
    simplify_eq; simpl; [by rewrite Hp, Hp'|done].
Qed.
End isolation.
