(* ===== verification/KvdbExamples.v ===== *)
(** * Concrete databases

    Databases with a concrete hash function and integer weights, the histories
    the theorems on the database are applied to, and the runs that show its
    faults. *)

From S2P Require Import Prelude Comparator AvlUtil AvlTree Dict HashTableBase HashTable TreeHashTable HashSet.
From S2P Require Import Dictionary Blist Cache ListCache Vset Kvdb KvdbSpec KvdbValues KvdbRefine KvdbCalls.
From S2P Require Import KvdbFacts KvdbErrors KvdbFrame.

Module KvdbExamples.
Open Scope string_scope.
Open Scope Z_scope.

(** A polynomial hash. *)
Fixpoint poly (s : string) : Z :=
  match s with
  | EmptyString => 7
  | String.String c r => 31 * poly r + Z.of_nat (Ascii.nat_of_ascii c)
  end.
#[local] Instance HashString : HashFunc string := λ s, poly s mod 2 ^ 64.
#[local] Instance HashInt : HashFunc Z := λ x, x mod 2 ^ 64.
#[local] Instance HashAddr : HashFunc addr := λ a, Zpos a mod 2 ^ 64.

Abbreviation Lru_ := (LruCache (HashState (list (KeyValue addr (option loc)))) addr).
Abbreviation DB := (MmkvDb Z Lru_).
Abbreviation Cmd := (cmd Z).

(** Lazy expiration, requests logged, not a shard server; the clock shows [t]. *)
Definition at_ (t : Z) : Env := MkEnv true 0 false 16 1000 true t 0 (λ _, "") 50.

Definition new_db : DB := MmkvDb_new None.

(** Calls on all types, with an expiration. *)
Definition calls : list (Env * Cmd) :=
  [(at_ 1, CSetStr "s" "one"); (at_ 2, CListAdd "l" ["a"; "b"; "c"]); (at_ 3, CMapAdd "m" [MkKeyValue "f" "v"]);
   (at_ 4, CSetAdd "t" ["x"; "y"; "x"]); (at_ 5, CVsetAdd "z" [MkKeyValue 3 "p"; MkKeyValue 1 "q"]);
   (at_ 6, CStrAppend "s" "two"); (at_ 7, CListPrepend "l" ["z"]); (at_ 8, CMapSet "m" "f" "w");
   (at_ 9, CExpireAtMs "l" 12); (at_ 10, CGetStr "s"); (at_ 11, CListGetAll "l"); (at_ 12, CListGetAll "l");
   (at_ 13, CMapGet "m" "g"); (at_ 14, CSetSize "t"); (at_ 15, CType "z")].

Definition answers_of (cs : list (Env * Cmd)) : option (list (out Z + StatusCode)) := snd <$> db_run new_db cs.

Example calls_answers :
  answers_of calls = Some
    [inl ODone; inl ODone; inl (ONum 1); inl (ONum 2); inl (ONum 2); inl ODone; inl ODone; inl ODone; inl ODone;
     inl (OString "onetwo"); inl (OList ["z"; "a"; "b"; "c"]); inr S_NONEXISTS; inr S_FIELD_NONEXISTS; inl (ONum 2);
     inl (OType (Some D_SORTED_SET))].
Proof. by vm_compute. Qed.

Ltac history_tac :=
  split; [repeat first [apply Forall_nil|apply Forall_cons; split; [split; [by intros ?|]|]]; by repeat split|by vm_compute].

Lemma calls_ok : history_ok calls.
Proof. history_tac. Qed.

Lemma mmkvdb_refines_reference_witness :
  history_ok calls ∧ runs_agree (history_cost calls) (db_run new_db calls) (ref_run (ref_new None) calls).
Proof. split; [exact calls_ok|]. apply (mmkvdb_refines_reference None calls). exact calls_ok. Defined.

(** Where the calls lead. *)
Definition end_db : DB := default new_db (fst <$> db_run new_db calls).
Definition end_answers : list (out Z + StatusCode) := default [] (answers_of calls).

Lemma calls_run : db_run new_db calls = Some (end_db, end_answers).
Proof. by vm_compute. Qed.

Lemma calls_keep_times : Forall (λ ec, leaves_time ec.2 = false) calls.
Proof. by repeat constructor. Qed.

Definition entry (k : string) : KeyValue string (Slot Z) :=
  default (MkKeyValue k (MkSlot 1%positive (MkData D_STRING None))) (head (filter (λ kv, Comparator.key kv = k) (all_elems (dict_ end_db)))).

Lemma stored_objects_typed_witness :
  entry "m" ∈ all_elems (dict_ end_db) ∧
  ∃ p, any_data (slot_data (value (entry "m"))) = Some p ∧ payload_type p = type (slot_data (value (entry "m")))
    ∧ DeleteMmkvData (slot_data (value (entry "m"))) = Some ().
Proof.
  assert (entry "m" ∈ all_elems (dict_ end_db)) as Hin.
  { apply list_elem_of_lookup. exists 3%nat. by vm_compute. }
  split; [exact Hin|]. exact (stored_objects_typed None calls end_db end_answers calls_ok calls_run (entry "m") Hin).
Defined.


(** A history of safe calls, with one that expires and is logged. *)
Definition safe_calls : list (Env * Cmd) :=
  [(at_ 1, CSetStr "s" "one"); (at_ 2, CExpireAfter "s" 2 1); (at_ 3, CGetTimeToLive "s"); (at_ 2000, CGetStr "s");
   (at_ 2001, CListAppend "l" ["a"]); (at_ 2002, CListPopBack "l" 5); (at_ 2003, CListGetAll "l"); (at_ 2004, CMapGet "l" "f");
   (at_ 2005, CDelete "l"); (at_ 2006, CGetAllKeys); (at_ 2007, CDeleteAll)].

Example safe_calls_answers :
  answers_of safe_calls = Some
    [inl ODone; inl ODone; inl (ONum 999); inr S_NONEXISTS; inl ODone; inl ODone; inl (OList []); inr S_EXISTS_DIFF_TYPE;
     inl ODone; inl (OBag []); inl (ONum 0)].
Proof. by vm_compute. Qed.


(** [MapSet] after the calls. *)
Definition map_set : Cmd := CMapSet "m" "g" "u".
Definition map_db : DB := default new_db (fst <$> run_cmd (at_ 20) map_set end_db).

Lemma written_values_read_back_witness :
  run_cmd (at_ 20) map_set end_db = Some (map_db, inl ODone)
  ∧ ∃ db'', run_cmd (at_ 20) (CMapGet "m" "g") map_db = Some (db'', inl (OString "u")).
Proof.
  assert (run_cmd (at_ 20) map_set end_db = Some (map_db, inl ODone)) as Hw by by vm_compute. split; [exact Hw|].
  apply (written_values_read_back calls (at_ 20) map_set (CMapGet "m" "g") (OString "u") ODone end_db map_db end_answers);
    [constructor|history_tac|exact calls_keep_times|exact calls_run|exact Hw].
Defined.

Lemma typed_call_refused_witness :
  ∃ db', run_cmd (at_ 20) (CListGetSize "m") end_db = Some (db', inr S_EXISTS_DIFF_TYPE)
    ∧ unchanged calls (at_ 20) (CListGetSize "m") end_db db'.
Proof.
  pose proof (typed_call_refused None calls end_db end_answers (at_ 20) (CListGetSize "m") "m" D_STRLIST) as Ht.
  assert (kv_view (dict_ end_db) !! "m" = Some (value (entry "m"))) as He by by vm_compute. rewrite He in Ht.
  assert (type (slot_data (value (entry "m"))) = D_MAP) as Hm by by vm_compute. rewrite Hm in Ht.
  destruct Ht as [Ht|Ht]; [history_tac|exact calls_run|done|done|by vm_compute|discriminate Ht|exact Ht].
Defined.

(** A deadline for "m", one second from 20. *)
Definition expire : Cmd := CExpireAfter "m" 20 1.
Definition expire_db : DB := default new_db (fst <$> run_cmd (at_ 20) expire end_db).

Lemma expire_run : run_cmd (at_ 20) expire end_db = Some (expire_db, inl ODone).
Proof. by vm_compute. Qed.

Lemma time_to_live_bounds_witness :
  (kv_view (exp_dict_ expire_db) = if now_ms (at_ 20) <? 1020 then <["m" := 1020]> (kv_view (exp_dict_ end_db)) else kv_view (exp_dict_ end_db))
  ∧ (now_ms (at_ 20) < 1020 →
     ∃ db2 left, run_cmd (at_ 50) (CGetTimeToLive "m") expire_db = Some (db2, inl (ONum left))
       ∧ left = Z.max 0 (1020 - now_ms (at_ 50)) ∧ 0 ≤ left < 2 ^ 64).
Proof.
  apply (time_to_live_bounds None calls end_db end_answers (at_ 20) expire "m" 1020 expire_db ODone (at_ 50));
    [history_tac|exact calls_run|done|done|done|exact expire_run].
Defined.

(** A database with a replacement policy, and no memory left. *)
Definition full_env : Env := MkEnv true 0 false 16 1000 true 30 1000 (λ _, "") 50.
Definition lru_db : DB := MmkvDb_new (Some (cache_new 10)).

Lemma string_writes_fault_when_full_witness :
  run_cmd full_env (CInsertStr "k" "v") lru_db = None
  ∧ (∀ c db' o, c ∈ [CInsertStr "k" "v"; CSetStr "k" "v"; CStrAppend "k" "v"] → run_cmd full_env c lru_db ≠ Some (db', inl o)).
Proof.
  destruct (string_writes_fault_when_full full_env "k" "v" lru_db) as [Hi Hw]; [done|by eexists|].
  split; [by apply Hi|exact Hw].
Defined.

Definition orphan (c : Cmd) : list (Env * Cmd) :=
  [(at_ 1, CSetStr "k" "v"); (at_ 1, CExpireAtMs "k" 10); (at_ 1, c); (at_ 10, CGetStr "k")].

Lemma left_deadline_faults_witness :
  db_run new_db (orphan (CEraseStr "k")) = None ∧ db_run new_db (orphan (CRename "k" "n")) = None.
Proof.
  split; (apply (left_deadline_faults (at_ 1) (at_ 10) "k" "v" 10); [history_tac| |done|done|done|done]).
  - by left.
  - right. by exists "n".
Defined.

Lemma expire_cycle_sweeps_witness :
  ∃ db', CheckExpireCycle (at_ 2000) expire_db = Some (db', inl ())
    ∧ kv_view (exp_dict_ db') = filter (λ kt, 2000 < kt.2) (kv_view (exp_dict_ expire_db))
    ∧ (∀ k, k ∈ dom (kv_view (dict_ db')) ↔
         k ∈ dom (kv_view (dict_ expire_db)) ∧ is_due (at_ 2000) (kv_view (exp_dict_ expire_db) !! k) = false).
Proof.
  destruct (expire_cycle_sweeps (at_ 2000) (calls ++ [(at_ 20, expire)]) expire_db (end_answers ++ [inl ODone]))
    as (db' & Hc & Hx & Hd & _).
  - history_tac.
  - by repeat constructor.
  - by vm_compute.
  - exists db'. by split; [|split].
Defined.

Lemma list_get_range_reference_witness :
  ∃ sl, list_of ["a"; "b"; "c"; "d"] = Some sl
    ∧ (∀ i j, - 2 ^ 63 ≤ i < 2 ^ 63 → - 2 ^ 63 ≤ j < 2 ^ 63 → sl_range sl i j = ref_range ["a"; "b"; "c"; "d"] i j)
    ∧ ref_range ["a"; "b"; "c"; "d"] 0 2 = Some (inl ["a"; "b"])
    ∧ ref_range ["a"; "b"; "c"; "d"] 2 3 = Some (inl ["d"])
    ∧ ref_range ["a"; "b"; "c"; "d"] 1 (-1) = None.
Proof.
  destruct (list_get_range_reference ["a"; "b"; "c"; "d"]) as (sl & Hp & Hr); [by vm_compute|].
  exists sl. split_ands; [exact Hp|exact Hr|by vm_compute..].
Defined.

Lemma other_keys_untouched_witness :
  ∃ a a', db_rel (history_cost calls) end_db a ∧ db_rel (history_cost (calls ++ [(at_ 20, map_set)])) map_db a'
    ∧ ∀ k', k' ≠ "m" →
        a_dict a' !! k' = a_dict a !! k'
        ∧ kv_view (exp_dict_ map_db) !! k' = kv_view (exp_dict_ end_db) !! k'
        ∧ ((λ s, type (slot_data s)) <$> kv_view (dict_ map_db) !! k') = ((λ s, type (slot_data s)) <$> kv_view (dict_ end_db) !! k').
Proof.
  apply (other_keys_untouched None calls end_db end_answers (at_ 20) map_set "m" map_db (inl ODone));
    [history_tac|exact calls_run|by vm_compute|done|by vm_compute].
Defined.
End KvdbExamples.
