(* ===== verification/Mmbp.v ===== *)
(** * The binary protocol

    [mmkv/protocol/mmbp_util.h], [mmbp_request.h], [mmbp_request.cc],
    [mmbp_response.h], [mmbp_response.cc]: the messages, and how their fields are
    written to and read from a buffer.

    A buffer is the list of its readable bytes.  Reading past the end of the
    buffer, and a number that is not a varint, are faults ([None]): the code
    asserts, or reads memory that is not its own.  The varint library and the
    network byte order functions are parameters ([Kvarint], [NetOrder]).  A double
    is its 64 bits. *)

From Stdlib Require Import Ascii String.
From S2P Require Import Prelude Comparator.

Abbreviation bytes := (list ascii).

(** ** Parameters *)

Inductive KvarintResult :=
  | KVARINT_OK (len : nat) (i : Z)
  | KVARINT_DECODE_BUF_INVALID
  | KVARINT_DECODE_BUF_SHORT.

(** [kvarint_encode8/16/32/64], [kvarint_decode8/16/32/64] and
    [kvarint_decode64s], by their width. *)
Class Kvarint := {
  kvarint_encode : Z → Z → bytes;
  kvarint_decode : Z → bytes → KvarintResult;
  kvarint_decode_s : bytes → KvarintResult;
}.

(** What is encoded is decoded, at the same or a larger width; an encoding that is
    cut off is short; decoding reads the bytes it says and not what follows. *)
Class KvarintLaws `{Kvarint} := {
  kvarint_decode_encode w w' x rest :
    0 < w ≤ w' → 0 ≤ x < 2 ^ w → kvarint_decode w' (kvarint_encode w x ++ rest) = KVARINT_OK (length (kvarint_encode w x)) x;
  kvarint_decode_prefix w x p rest :
    0 < w → 0 ≤ x < 2 ^ w → kvarint_encode w x = p ++ rest → rest ≠ [] → kvarint_decode w p = KVARINT_DECODE_BUF_SHORT;
  kvarint_decode_reads w b len i : kvarint_decode w b = KVARINT_OK len i → (0 < len ≤ length b)%nat ∧ 0 ≤ i < 2 ^ w;
  kvarint_decode_s_reads b len i : kvarint_decode_s b = KVARINT_OK len i → (0 < len ≤ length b)%nat;
  kvarint_decode_app w b c len i : kvarint_decode w b = KVARINT_OK len i → kvarint_decode w (b ++ c) = KVARINT_OK len i;
  kvarint_invalid_app w b c : kvarint_decode w b = KVARINT_DECODE_BUF_INVALID → kvarint_decode w (b ++ c) = KVARINT_DECODE_BUF_INVALID;
}.

(** Numbers in network byte order. *)
Class NetOrder := {
  to_net32 : Z → bytes;
  of_net32 : bytes → Z;
  to_net64 : Z → bytes;
  of_net64 : bytes → Z;
}.

Class NetOrderLaws `{NetOrder} := {
  to_net32_length x : length (to_net32 x) = 4%nat;
  of_to_net32 x : 0 ≤ x < 2 ^ 32 → of_net32 (to_net32 x) = x;
  to_net64_length x : length (to_net64 x) = 8%nat;
  of_to_net64 x : 0 ≤ x < 2 ^ 64 → of_net64 (to_net64 x) = x;
}.

(** ** Components *)

Section components.
Context `{Kvarint} `{NetOrder}.
Implicit Types (b : bytes) (s : string).

Definition str_bytes s : bytes := list_ascii_of_string s.
Definition str_size s : Z := Z.of_nat (String.length s).

(** A reader: the value, and what is left of the buffer. *)
Definition Reader (A : Type) : Type := bytes → option (A * bytes).

#[export] Instance Reader_ret : MRet Reader := λ A x b, Some (x, b).
#[export] Instance Reader_bind : MBind Reader := λ A B f r b, '(x, b) ← r b; f x b.

(** [append(buffer.GetReadBegin(), len); buffer.AdvanceRead(len)]. *)
Definition ReadBytes (len : Z) : Reader string := λ b,
  if Z.of_nat (length b) <? len then None
  else Some (string_of_list_ascii (take (Z.to_nat len) b), drop (Z.to_nat len) b).

Definition Read64 : Reader Z := λ b, if Z.of_nat (length b) <? 8 then None else Some (of_net64 (take 8 b), drop 8 b).

Definition ParseUnsigned (bits : Z) : Reader Z := λ b,
  match kvarint_decode bits b with KVARINT_OK len i => Some (i, drop len b) | _ => None end.

Definition ParseSigned64 : Reader Z := λ b,
  match kvarint_decode_s b with KVARINT_OK len i => Some (i, drop len b) | _ => None end.

Definition ParseString (is_16 : bool) : Reader string :=
  len ← ParseUnsigned (if is_16 then 16 else 32);
  ReadBytes len.

(** [values.resize(count)]. *)
Definition resize_to {A} (count : Z) (dflt : A) (l : list A) : list A := resize (Z.to_nat count) dflt l.

(** Elements are appended to the strings that are there. *)
Fixpoint append_each (values : list string) : Reader (list string) :=
  match values with
  | [] => mret []
  | v :: vs =>
      value_size ← ParseUnsigned 64;
      s ← ReadBytes value_size;
      rest ← append_each vs;
      mret ((v +:+ s) :: rest)
  end.

Definition ParseStrValues (values : list string) : Reader (list string) :=
  count ← ParseUnsigned 32;
  append_each (resize_to count "" values).

Fixpoint append_weights (values : list (KeyValue Z string)) : Reader (list (KeyValue Z string)) :=
  match values with
  | [] => mret []
  | v :: vs =>
      w ← Read64;
      value_size ← ParseUnsigned 64;
      s ← ReadBytes value_size;
      rest ← append_weights vs;
      mret (MkKeyValue w (value v +:+ s) :: rest)
  end.

Definition ParseWeightValues (values : list (KeyValue Z string)) : Reader (list (KeyValue Z string)) :=
  count ← ParseUnsigned 32;
  append_weights (resize_to count (MkKeyValue 0 "") values).

Fixpoint append_kvs (kvs : list (KeyValue string string)) : Reader (list (KeyValue string string)) :=
  match kvs with
  | [] => mret []
  | kv :: rest =>
      key_size ← ParseUnsigned 64;
      k ← ReadBytes key_size;
      value_size ← ParseUnsigned 64;
      v ← ReadBytes value_size;
      rest ← append_kvs rest;
      mret (MkKeyValue (key kv +:+ k) (value kv +:+ v) :: rest)
  end.

Definition ParseStrKvs (kvs : list (KeyValue string string)) : Reader (list (KeyValue string string)) :=
  count ← ParseUnsigned 32;
  append_kvs (resize_to count (MkKeyValue "" "") kvs).

(** The sizes are cast to the width they are written with. *)
Definition u_w (w x : Z) : Z := x mod 2 ^ w.

Definition SerializeUnsigned (bits i : Z) : bytes := kvarint_encode bits i.

Definition SerializeString s (is_16 : bool) : bytes :=
  (if is_16 then SerializeUnsigned 16 (u_w 16 (str_size s)) else SerializeUnsigned 32 (u_w 32 (str_size s))) ++ str_bytes s.

Definition SerializeStrValues (values : list string) : bytes :=
  SerializeUnsigned 32 (u_w 32 (Z.of_nat (length values)))
    ++ concat (map (λ v, SerializeUnsigned 32 (u_w 32 (str_size v)) ++ str_bytes v) values).

Definition SerializeStrKvs (kvs : list (KeyValue string string)) : bytes :=
  SerializeUnsigned 32 (u_w 32 (Z.of_nat (length kvs)))
    ++ concat (map (λ kv, SerializeUnsigned 16 (u_w 16 (str_size (key kv))) ++ str_bytes (key kv)
                          ++ SerializeUnsigned 32 (u_w 32 (str_size (value kv))) ++ str_bytes (value kv)) kvs).

Definition SerializeWeightValues (values : list (KeyValue Z string)) : bytes :=
  SerializeUnsigned 32 (u_w 32 (Z.of_nat (length values)))
    ++ concat (map (λ wm, to_net64 (key wm) ++ SerializeUnsigned 32 (u_w 32 (str_size (value wm))) ++ str_bytes (value wm)) values).

Definition SetBit (bits : Z) (idx : Z) : Z := Z.lor bits (Z.shiftl 1 idx).
Definition TestBit (bits : Z) (idx : Z) : bool := negb (Z.land bits (Z.shiftl 1 idx) =? 0).
End components.

(** ** Messages *)

(** [union_left], [union_right] are the two words of the union of [count] and
    [range]: [count] is the low half of the first (little endian). *)
Record MmbpRequest := MkRequest {
  req_bits : Z;
  command : Z;
  req_key : string;
  req_kvs : list (KeyValue string string);
  req_values : list string;
  req_value : string;
  req_vmembers : list (KeyValue Z string);
  expire_time : Z;
  union_left : Z;
  union_right : Z;
}.

Record MmbpResponse := MkResponse {
  res_bits : Z;
  status_code : Z;
  res_count : Z;
  res_value : string;
  res_values : list string;
  res_kvs : list (KeyValue string string);
  res_vmembers : list (KeyValue Z string);
}.

Section messages.
Context `{Kvarint} `{NetOrder}.
Implicit Types (b : bytes) (r : MmbpRequest) (s : MmbpResponse).

(** [COMMAND_NUM]. *)
Definition COMMAND_NUM : Z := 71.

(** The constructor leaves [expire_time] and the union undefined: here [junk]. *)
Definition new_request (junk : Z * Z * Z) : MmbpRequest :=
  let '(t, l, r) := junk in MkRequest 0 COMMAND_NUM "" [] [] "" [] t l r.

Definition HasKey r : bool := TestBit (req_bits r) 0.
Definition HasValue r : bool := TestBit (req_bits r) 1.
Definition HasExpireTime r : bool := TestBit (req_bits r) 2.
Definition HasValues r : bool := TestBit (req_bits r) 3.
Definition HasKvs r : bool := TestBit (req_bits r) 4.
Definition HasCount r : bool := TestBit (req_bits r) 5.
Definition HasRange r : bool := TestBit (req_bits r) 6.
Definition HasVmembers r : bool := TestBit (req_bits r) 7.
Definition HasNone r : bool := req_bits r =? 0.

Definition count r : Z := union_left r mod 2 ^ 32.
Definition range_left r : Z := i64 (union_left r).
Definition range_right r : Z := i64 (union_right r).

Definition set_bits r (x : Z) : MmbpRequest :=
  MkRequest x (command r) (req_key r) (req_kvs r) (req_values r) (req_value r) (req_vmembers r) (expire_time r) (union_left r) (union_right r).
Definition set_command r (x : Z) : MmbpRequest :=
  MkRequest (req_bits r) x (req_key r) (req_kvs r) (req_values r) (req_value r) (req_vmembers r) (expire_time r) (union_left r) (union_right r).
Definition set_key r (x : string) : MmbpRequest :=
  MkRequest (req_bits r) (command r) x (req_kvs r) (req_values r) (req_value r) (req_vmembers r) (expire_time r) (union_left r) (union_right r).
Definition set_kvs r (x : list (KeyValue string string)) : MmbpRequest :=
  MkRequest (req_bits r) (command r) (req_key r) x (req_values r) (req_value r) (req_vmembers r) (expire_time r) (union_left r) (union_right r).
Definition set_values r (x : list string) : MmbpRequest :=
  MkRequest (req_bits r) (command r) (req_key r) (req_kvs r) x (req_value r) (req_vmembers r) (expire_time r) (union_left r) (union_right r).
Definition set_value r (x : string) : MmbpRequest :=
  MkRequest (req_bits r) (command r) (req_key r) (req_kvs r) (req_values r) x (req_vmembers r) (expire_time r) (union_left r) (union_right r).
Definition set_vmembers r (x : list (KeyValue Z string)) : MmbpRequest :=
  MkRequest (req_bits r) (command r) (req_key r) (req_kvs r) (req_values r) (req_value r) x (expire_time r) (union_left r) (union_right r).
Definition set_expire_time r (x : Z) : MmbpRequest :=
  MkRequest (req_bits r) (command r) (req_key r) (req_kvs r) (req_values r) (req_value r) (req_vmembers r) x (union_left r) (union_right r).
Definition set_union r (x y : Z) : MmbpRequest :=
  MkRequest (req_bits r) (command r) (req_key r) (req_kvs r) (req_values r) (req_value r) (req_vmembers r) (expire_time r) x y.
Definition set_count r (n : Z) : MmbpRequest := set_union r (union_left r / 2 ^ 32 * 2 ^ 32 + n) (union_right r).
Definition set_range r (x y : Z) : MmbpRequest := set_union r (u64 x) (u64 y).

(** [SerializeTo], to a [Buffer] and to a [ChunkList] alike. *)
Definition request_SerializeTo r : bytes :=
  SerializeUnsigned 16 (command r) ++ SerializeUnsigned 8 (req_bits r)
  ++ (if HasKey r then SerializeString (req_key r) true else [])
  ++ (if HasValue r then SerializeString (req_value r) false
      else if HasValues r then SerializeStrValues (req_values r)
      else if HasKvs r then SerializeStrKvs (req_kvs r)
      else if HasCount r then SerializeUnsigned 32 (count r)
      else if HasRange r then SerializeUnsigned 64 (union_left r) ++ SerializeUnsigned 64 (union_right r)
      else if HasVmembers r then SerializeWeightValues (req_vmembers r) else [])
  ++ (if HasExpireTime r then SerializeUnsigned 64 (expire_time r) else []).

(** [ParseFrom(buffer)], into the object [r]. *)
Definition request_ParseFrom r : Reader MmbpRequest :=
  c ← ParseUnsigned 16;
  bits ← ParseUnsigned 8;
  let r := set_bits (set_command r c) bits in
  r ← (if HasKey r then k ← ParseString true; mret (set_key r k) else mret r);
  r ← (if HasValue r then v ← ParseString false; mret (set_value r v)
       else if HasValues r then vs ← ParseStrValues (req_values r); mret (set_values r vs)
       else if HasKvs r then kvs ← ParseStrKvs (req_kvs r); mret (set_kvs r kvs)
       else if HasCount r then n ← ParseUnsigned 32; mret (set_count r n)
       else if HasRange r then x ← ParseSigned64; y ← ParseSigned64; mret (set_range r x y)
       else if HasVmembers r then wms ← ParseWeightValues (req_vmembers r); mret (set_vmembers r wms)
       else mret r);
  (if HasExpireTime r then t ← ParseUnsigned 64; mret (set_expire_time r t) else mret r).

Definition request_Reset r : MmbpRequest :=
  set_vmembers (set_value (set_values (set_kvs (set_key (set_bits r 0) "") []) []) "") [].

(** [PeekCommand]. *)
Definition PeekCommand b : option Z := fst <$> ParseUnsigned 16 b.

(** *** Responses *)

(** The constructor leaves [count] undefined. *)
Definition new_response (junk : Z) : MmbpResponse := MkResponse 0 255 junk "" [] [] [].

Definition res_HasValue s : bool := TestBit (res_bits s) 0.
Definition res_HasValues s : bool := TestBit (res_bits s) 1.
Definition res_HasKvs s : bool := TestBit (res_bits s) 2.
Definition res_HasCount s : bool := TestBit (res_bits s) 3.
Definition res_HasVmembers s : bool := TestBit (res_bits s) 4.

Definition response_SerializeTo s : bytes :=
  SerializeUnsigned 8 (status_code s) ++ SerializeUnsigned 8 (res_bits s)
  ++ (if res_HasValue s then SerializeString (res_value s) false
      else if res_HasValues s then SerializeStrValues (res_values s)
      else if res_HasKvs s then SerializeStrKvs (res_kvs s)
      else if res_HasCount s then SerializeUnsigned 64 (res_count s)
      else if res_HasVmembers s then SerializeWeightValues (res_vmembers s) else []).

Definition response_ParseFrom s : Reader MmbpResponse :=
  c ← ParseUnsigned 8;
  bits ← ParseUnsigned 8;
  let s := MkResponse bits c (res_count s) (res_value s) (res_values s) (res_kvs s) (res_vmembers s) in
  let '(MkResponse _ _ n v vs kvs wms) := s in
  if res_HasValue s then v ← ParseString false; mret (MkResponse bits c n v vs kvs wms)
  else if res_HasValues s then vs ← ParseStrValues vs; mret (MkResponse bits c n v vs kvs wms)
  else if res_HasKvs s then kvs ← ParseStrKvs kvs; mret (MkResponse bits c n v vs kvs wms)
  else if res_HasCount s then n ← ParseUnsigned 64; mret (MkResponse bits c n v vs kvs wms)
  else if res_HasVmembers s then wms ← ParseWeightValues wms; mret (MkResponse bits c n v vs kvs wms)
  else mret s.
End messages.

(** ** What fits on the wire *)

Section wire_sizes.

Definition fits (w : Z) (s : string) : bool := str_size s <? 2 ^ w.

Definition kv_fits (kv : KeyValue string string) : bool := fits 16 (key kv) && fits 32 (value kv).
Definition wm_fits (wm : KeyValue Z string) : bool := (0 <=? key wm) && (key wm <? 2 ^ 64) && fits 32 (value wm).
Definition all_fit {A} (ok : A → bool) (l : list A) : bool := (Z.of_nat (length l) <? 2 ^ 32) && forallb ok l.

Definition in_width (w x : Z) : bool := (0 <=? x) && (x <? 2 ^ w).

(** The sizes of a request's fields fit the widths they are written with, and it
    transmits no range. *)
Definition request_fits (r : MmbpRequest) : bool :=
  in_width 16 (command r) && in_width 8 (req_bits r) && fits 16 (req_key r)
  && fits 32 (req_value r) && all_fit (fits 32) (req_values r) && all_fit kv_fits (req_kvs r)
  && all_fit wm_fits (req_vmembers r) && in_width 64 (expire_time r)
  && (HasValue r || HasValues r || HasKvs r || HasCount r || negb (HasRange r)).

Definition response_fits (s : MmbpResponse) : bool :=
  in_width 8 (status_code s) && in_width 8 (res_bits s) && in_width 64 (res_count s)
  && fits 32 (res_value s) && all_fit (fits 32) (res_values s) && all_fit kv_fits (res_kvs s) && all_fit wm_fits (res_vmembers s).

(** What the peer sees of the request [r]: the fields it announces; the rest is
    as in the object [r0] it reads into. *)
Definition transmitted (r0 r : MmbpRequest) : MmbpRequest :=
  let r1 := set_bits (set_command r0 (command r)) (req_bits r) in
  let r2 := if HasKey r then set_key r1 (req_key r) else r1 in
  let r3 := if HasValue r then set_value r2 (req_value r)
            else if HasValues r then set_values r2 (req_values r)
            else if HasKvs r then set_kvs r2 (req_kvs r)
            else if HasCount r then set_count r2 (count r)
            else if HasVmembers r then set_vmembers r2 (req_vmembers r) else r2 in
  if HasExpireTime r then set_expire_time r3 (expire_time r) else r3.

Definition res_transmitted (s0 s : MmbpResponse) : MmbpResponse :=
  let '(MkResponse _ _ n v vs kvs wms) := s0 in
  let '(b, c) := (res_bits s, status_code s) in
  if res_HasValue s then MkResponse b c n (res_value s) vs kvs wms
  else if res_HasValues s then MkResponse b c n v (res_values s) kvs wms
  else if res_HasKvs s then MkResponse b c n v vs (res_kvs s) wms
  else if res_HasCount s then MkResponse b c (res_count s) v vs kvs wms
  else if res_HasVmembers s then MkResponse b c n v vs kvs (res_vmembers s)
  else MkResponse b c n v vs kvs wms.

(** An object whose containers are empty, as after the constructor or [Reset]. *)
Definition request_empty (r : MmbpRequest) : Prop := req_values r = [] ∧ req_kvs r = [] ∧ req_vmembers r = [].
Definition response_empty (s : MmbpResponse) : Prop := res_values s = [] ∧ res_kvs s = [] ∧ res_vmembers s = [].
End wire_sizes.

(** ** Round trips *)

Section round_trips.
Context `{Kvarint, !KvarintLaws, NetOrder, !NetOrderLaws}.
Implicit Types (b rest : bytes) (s : string).

Lemma u_w_small (w x : Z) : 0 ≤ x < 2 ^ w → u_w w x = x.
Proof. apply Z.mod_small. Qed.

Lemma str_size_nonneg s : 0 ≤ str_size s.
Proof. unfold str_size. lia. Qed.

Lemma in_width_spec (w x : Z) : in_width w x = true ↔ 0 ≤ x < 2 ^ w.
Proof. unfold in_width. rewrite andb_true_iff, Z.leb_le, Z.ltb_lt. done. Qed.

Lemma fits_spec (w : Z) s : fits w s = true ↔ 0 ≤ str_size s < 2 ^ w.
Proof. unfold fits. rewrite Z.ltb_lt. pose proof (str_size_nonneg s). lia. Qed.

Lemma ParseUnsigned_Serialize w w' x rest : 0 < w ≤ w' → 0 ≤ x < 2 ^ w → ParseUnsigned w' (SerializeUnsigned w x ++ rest) = Some (x, rest).
Proof. intros. unfold ParseUnsigned, SerializeUnsigned. rewrite kvarint_decode_encode by done. by rewrite drop_app_length. Qed.

Lemma str_bytes_length s : Z.of_nat (length (str_bytes s)) = str_size s.
Proof. unfold str_bytes, str_size. f_equal. induction s; simpl; congruence. Qed.

Lemma ReadBytes_str s rest : ReadBytes (str_size s) (str_bytes s ++ rest) = Some (s, rest).
Proof.
  unfold ReadBytes. rewrite length_app, Nat2Z.inj_add, str_bytes_length.
  destruct (Z.ltb_spec (str_size s + Z.of_nat (length rest)) (str_size s)); [lia|].
  rewrite <-str_bytes_length, Nat2Z.id, take_app_length, drop_app_length.
  unfold str_bytes. by rewrite string_of_list_ascii_of_string.
Qed.

Lemma Read64_to_net x rest : 0 ≤ x < 2 ^ 64 → Read64 (to_net64 x ++ rest) = Some (x, rest).
Proof.
  intros Hx. unfold Read64. rewrite length_app, to_net64_length.
  destruct (Z.ltb_spec (Z.of_nat (8 + length rest)) 8); [lia|].
  rewrite take_app_length', drop_app_length' by (by rewrite to_net64_length). by rewrite of_to_net64.
Qed.

(** A string after its size. *)
Lemma sized_string w w' s rest :
  0 < w ≤ w' → fits w s = true →
  ParseUnsigned w' (SerializeUnsigned w (u_w w (str_size s)) ++ str_bytes s ++ rest) = Some (str_size s, str_bytes s ++ rest).
Proof. intros Hw Hs%fits_spec. rewrite u_w_small by done. by apply ParseUnsigned_Serialize. Qed.

Lemma ParseString_Serialize s (is_16 : bool) rest :
  fits (if is_16 then 16 else 32) s = true → ParseString is_16 (SerializeString s is_16 ++ rest) = Some (s, rest).
Proof.
  intros Hs. unfold ParseString, SerializeString, mbind, Reader_bind. rewrite <-app_assoc.
  destruct is_16; rewrite sized_string by (done || lia); simpl; apply ReadBytes_str.
Qed.

Lemma append_each_Serialize (vs : list string) rest :
  forallb (fits 32) vs = true →
  append_each (replicate (length vs) "") (concat (map (λ v, SerializeUnsigned 32 (u_w 32 (str_size v)) ++ str_bytes v) vs) ++ rest)
  = Some (vs, rest).
Proof.
  induction vs as [|v vs IH]; simpl; [done|]. intros [Hv Hvs]%andb_true_iff.
  unfold mbind, Reader_bind. rewrite <-!app_assoc, sized_string by (done || lia). simpl.
  rewrite ReadBytes_str. simpl. by rewrite (IH Hvs).
Qed.

Lemma append_kvs_Serialize (kvs : list (KeyValue string string)) rest :
  forallb kv_fits kvs = true →
  append_kvs (replicate (length kvs) (MkKeyValue "" ""))
    (concat (map (λ kv, SerializeUnsigned 16 (u_w 16 (str_size (key kv))) ++ str_bytes (key kv)
                        ++ SerializeUnsigned 32 (u_w 32 (str_size (value kv))) ++ str_bytes (value kv)) kvs) ++ rest)
  = Some (kvs, rest).
Proof.
  induction kvs as [|[k v] kvs IH]; simpl; [done|]. intros [[Hk Hv]%andb_true_iff Hvs]%andb_true_iff. simpl in Hk, Hv.
  unfold mbind, Reader_bind. rewrite <-!app_assoc, sized_string by (done || lia). simpl.
  rewrite ReadBytes_str. simpl. rewrite sized_string by (done || lia). simpl. rewrite ReadBytes_str. simpl. by rewrite (IH Hvs).
Qed.

Lemma append_weights_Serialize (wms : list (KeyValue Z string)) rest :
  forallb wm_fits wms = true →
  append_weights (replicate (length wms) (MkKeyValue 0 ""))
    (concat (map (λ wm, to_net64 (key wm) ++ SerializeUnsigned 32 (u_w 32 (str_size (value wm))) ++ str_bytes (value wm)) wms) ++ rest)
  = Some (wms, rest).
Proof.
  induction wms as [|[w v] wms IH]; simpl; [done|]. intros [[Hk%in_width_spec Hv]%andb_true_iff Hvs]%andb_true_iff. simpl in Hk, Hv.
  unfold mbind, Reader_bind. rewrite <-!app_assoc, Read64_to_net by done. simpl.
  rewrite sized_string by (done || lia). simpl. rewrite ReadBytes_str. simpl. by rewrite (IH Hvs).
Qed.

(** The three containers, after their counts. *)
Lemma counted {A B} (ok : A → bool) (l : list A) (dflt : B) (f : list B → Reader (list A)) (body rest : bytes) :
  all_fit ok l = true →
  (forallb ok l = true → f (replicate (length l) dflt) (body ++ rest) = Some (l, rest)) →
  (count ← ParseUnsigned 32; f (resize_to count dflt [])) ((SerializeUnsigned 32 (u_w 32 (Z.of_nat (length l))) ++ body) ++ rest)
  = Some (l, rest).
Proof.
  intros [Hn%Z.ltb_lt Hok]%andb_true_iff Hf. unfold mbind, Reader_bind.
  rewrite <-app_assoc, u_w_small by lia. rewrite ParseUnsigned_Serialize by lia. simpl.
  unfold resize_to. rewrite resize_nil, Nat2Z.id. by apply Hf.
Qed.

Lemma ParseStrValues_Serialize (vs : list string) rest :
  all_fit (fits 32) vs = true → ParseStrValues [] (SerializeStrValues vs ++ rest) = Some (vs, rest).
Proof. intros Hvs. apply (counted (fits 32) vs "" append_each); [done|]. apply append_each_Serialize. Qed.

Lemma ParseStrKvs_Serialize (kvs : list (KeyValue string string)) rest :
  all_fit kv_fits kvs = true → ParseStrKvs [] (SerializeStrKvs kvs ++ rest) = Some (kvs, rest).
Proof. intros Hvs. apply (counted kv_fits kvs (MkKeyValue "" "") append_kvs); [done|]. apply append_kvs_Serialize. Qed.

Lemma ParseWeightValues_Serialize (wms : list (KeyValue Z string)) rest :
  all_fit wm_fits wms = true → ParseWeightValues [] (SerializeWeightValues wms ++ rest) = Some (wms, rest).
Proof. intros Hvs. apply (counted wm_fits wms (MkKeyValue 0 "") append_weights); [done|]. apply append_weights_Serialize. Qed.

(** What a reader of a field gives, after the others. *)
Lemma Reader_bind_Some {A B} (f : A → Reader B) (m : Reader A) (b b' : bytes) (x : A) :
  m b = Some (x, b') → (m ≫= f) b = f x b'.
Proof. intros Hm. unfold mbind, Reader_bind. by rewrite Hm. Qed.

(** A request that is written is read back, field by field, by an object that is
    fresh or was [Reset], and what follows it in the buffer is left there. *)
Lemma request_reads_back (r0 r : MmbpRequest) rest :
  request_fits r = true → request_empty r0 →
  request_ParseFrom r0 (request_SerializeTo r ++ rest) = Some (transmitted r0 r, rest).
Proof.
  unfold request_fits. rewrite !andb_true_iff.
  intros [[[[[[[[Hc%in_width_spec Hb%in_width_spec] Hk] Hv] Hvs] Hkvs] Hwms] Ht%in_width_spec] Hr] (E1 & E2 & E3).
  unfold request_ParseFrom, request_SerializeTo, transmitted. rewrite <-!app_assoc.
  erewrite Reader_bind_Some by (apply ParseUnsigned_Serialize; lia || done).
  erewrite Reader_bind_Some by (apply ParseUnsigned_Serialize; lia || done). cbv zeta.
  set (r1 := set_bits (set_command r0 (command r)) (req_bits r)).
  set (r2 := if HasKey r then set_key r1 (req_key r) else r1).
  erewrite (Reader_bind_Some _ _ _ _ r2); last first.
  { subst r2. change (HasKey r1) with (HasKey r). destruct (HasKey r); [|done].
    erewrite Reader_bind_Some by (by apply ParseString_Serialize). done. }
  assert (Hbits : req_bits r2 = req_bits r) by (subst r2; by destruct (HasKey r)).
  assert (Hempty : request_empty r2) by (subst r2; by destruct (HasKey r)).
  clearbody r2. clear r1 E1 E2 E3. destruct Hempty as (E1 & E2 & E3).
  unfold HasValue, HasValues, HasKvs, HasCount, HasRange, HasVmembers, HasExpireTime in *. rewrite Hbits.
  match goal with |- _ = Some (if _ then set_expire_time ?x _ else _, _) => set (r3 := x) end.
  set (tail := (if TestBit (req_bits r) 2 then _ else []) ++ rest).
  erewrite (Reader_bind_Some _ _ _ tail r3); last first.
  { subst r3. clearbody tail. repeat case_match; simpl in Hr; try discriminate.
    - erewrite Reader_bind_Some by (by apply ParseString_Serialize). done.
    - rewrite E1. erewrite Reader_bind_Some by (by apply ParseStrValues_Serialize). done.
    - rewrite E2. erewrite Reader_bind_Some by (by apply ParseStrKvs_Serialize). done.
    - erewrite Reader_bind_Some by (apply ParseUnsigned_Serialize; [lia|by apply Z.mod_pos_bound]). done.
    - rewrite E3. erewrite Reader_bind_Some by (by apply ParseWeightValues_Serialize). done.
    - done. }
  assert (Hbits3 : req_bits r3 = req_bits r) by (subst r3; repeat case_match; done).
  rewrite Hbits3. subst tail. destruct (TestBit (req_bits r) 2); [|done].
  erewrite Reader_bind_Some by (apply ParseUnsigned_Serialize; lia || done). done.
Qed.

(** The same for a response. *)
Lemma response_reads_back (s0 s : MmbpResponse) rest :
  response_fits s = true → response_empty s0 →
  response_ParseFrom s0 (response_SerializeTo s ++ rest) = Some (res_transmitted s0 s, rest).
Proof.
  unfold response_fits. rewrite !andb_true_iff.
  intros [[[[[[Hc%in_width_spec Hb%in_width_spec] Hn%in_width_spec] Hv] Hvs] Hkvs] Hwms] (E1 & E2 & E3).
  destruct s0 as [? ? n v vs kvs wms]. simpl in E1, E2, E3. subst vs kvs wms.
  unfold response_ParseFrom, response_SerializeTo, res_transmitted. rewrite <-!app_assoc.
  erewrite Reader_bind_Some by (apply ParseUnsigned_Serialize; lia || done).
  erewrite Reader_bind_Some by (apply ParseUnsigned_Serialize; lia || done). simpl.
  change (res_HasValue (MkResponse (res_bits s) _ _ _ _ _ _)) with (res_HasValue s).
  change (res_HasValues (MkResponse (res_bits s) _ _ _ _ _ _)) with (res_HasValues s).
  change (res_HasKvs (MkResponse (res_bits s) _ _ _ _ _ _)) with (res_HasKvs s).
  change (res_HasCount (MkResponse (res_bits s) _ _ _ _ _ _)) with (res_HasCount s).
  change (res_HasVmembers (MkResponse (res_bits s) _ _ _ _ _ _)) with (res_HasVmembers s).
  repeat case_match.
  - erewrite Reader_bind_Some by (by apply ParseString_Serialize). done.
  - erewrite Reader_bind_Some by (by apply ParseStrValues_Serialize). done.
  - erewrite Reader_bind_Some by (by apply ParseStrKvs_Serialize). done.
  - erewrite Reader_bind_Some by (apply ParseUnsigned_Serialize; lia || done). done.
  - erewrite Reader_bind_Some by (by apply ParseWeightValues_Serialize). done.
  - done.
Qed.

(** C21: what is written is read back: a request whose fields fit the widths they are
    written with (and that sends no range) arrives with exactly the fields it
    announces, in an object that is new or was [Reset], and the bytes that follow it
    are left in the buffer; and so does a response. *)
Theorem messages_round_trip (r0 r : MmbpRequest) (s0 s : MmbpResponse) rest :
  request_fits r = true → response_fits s = true → request_empty r0 → response_empty s0 →
  request_ParseFrom r0 (request_SerializeTo r ++ rest) = Some (transmitted r0 r, rest)
  ∧ response_ParseFrom s0 (response_SerializeTo s ++ rest) = Some (res_transmitted s0 s, rest).
Proof. intros. split; [by apply request_reads_back|by apply response_reads_back]. Qed.
End round_trips.
