(* ===== verification/MmbpCodec.v ===== *)
(** * The codec

    [mmkv/protocol/mmbp_codec.h], [mmbp_codec.cc]: messages travel in frames

<<
    size (varint) | "MMBP" | message | checksum (4 bytes)
>>

    and the callback of a connection takes the complete frames out of the bytes
    received so far.  [Buffer] and [ChunkList] are kanon's: the bytes that can be
    read, and the same bytes cut into chunks.  XXH32 is a parameter.

    The message callback parses the message out of the buffer; it is given by an
    instance of [Message].  [None] is a failed [assert] or an access past the end
    of the buffer. *)

From Stdlib Require Import Ascii String.
From S2P Require Import Prelude Comparator Mmbp.

(** ** Interfaces *)

(** [XXH32] with seed 0, at once and chunk by chunk. *)
Class XXHash := { XXH32 : bytes → Z; XXH32_update_all : list bytes → Z }.

Class XXHashLaws `{XXHash} := {
  XXH32_range b : 0 ≤ XXH32 b < 2 ^ 32;
  XXH32_stream cs : XXH32_update_all cs = XXH32 (concat cs);
}.

(** The chunks of an [OutputBuffer] with these contents. *)
Class ChunkBuffer := { chunks_of : bytes → list bytes }.
Class ChunkBufferLaws `{ChunkBuffer} := { concat_chunks b : concat (chunks_of b) = b }.

(** [MmbpMessage]: [ParseFrom] reads into a new object. *)
Class Message (T : Type) := { msg_SerializeTo : T → bytes; msg_ParseFrom : Reader T }.

(** What a message promises to the codec: a message that [fits] is read back as
    [seen], and reading does not add to the buffer. *)
Class MessageLaws (T : Type) `{Message T} := {
  msg_fits : T → Prop;
  msg_seen : T → T;
  msg_round_trip m rest : msg_fits m → msg_ParseFrom (msg_SerializeTo m ++ rest) = Some (msg_seen m, rest);
  msg_shrinks b m b' : msg_ParseFrom b = Some (m, b') → (length b' ≤ length b)%nat;
}.

(** ** The code *)

(** [MmbpCodec::ErrorCode]. *)
Inductive ErrorCode :=
  | E_NOERROR | E_INVALID_SIZE_HEADER | E_INVALID_CHECKSUM | E_INVALID_MESSAGE | E_NO_COMPLETE_MESSAGE.

Definition MAX_SIZE : Z := 2 ^ 26.
Definition MMBP_TAG : bytes := str_bytes "MMBP".
Definition MMBP_TAG_SIZE : Z := 4.
Definition CHECKSUM_LENGTH : Z := 4.
Definition MIN_SIZE : Z := MMBP_TAG_SIZE + CHECKSUM_LENGTH.

(** The calls of [message_cb_] and [error_cb_]. *)
Inductive Event (T : Type) :=
  | Delivered (m : T)
  | Error (e : ErrorCode).
Arguments Delivered {T} m.
Arguments Error {T} e.

Definition blen (b : bytes) : Z := Z.of_nat (length b).

Section codec.
Context `{Kvarint} `{NetOrder} `{XXHash} `{ChunkBuffer} {T : Type} `{Message T}.
Implicit Types (b : bytes) (m : T).

(** [SerializeTo]. *)
Definition codec_SerializeTo m : bytes :=
  let buffer := MMBP_TAG ++ msg_SerializeTo m in
  let checksum := XXH32_update_all (chunks_of buffer) in
  let buffer := buffer ++ to_net32 checksum in
  kvarint_encode 32 (u_w 32 (blen buffer)) ++ buffer.

(** [VerifyCheckSum]. *)
Definition VerifyCheckSum b (size_header : Z) : option bool :=
  let body := u_w 32 (size_header - CHECKSUM_LENGTH) in
  if blen b <? body + CHECKSUM_LENGTH then None
  else Some (XXH32 (take (Z.to_nat body) b) =? of_net32 (take 4 (drop (Z.to_nat body) b))).

(** [AdvanceRead32]. *)
Definition AdvanceRead32 b : option bytes := if blen b <? 4 then None else Some (drop 4 b).

(** The [while (true)] of the connection's message callback. *)
Fixpoint receive_loop (fuel : nat) b : option (list (Event T) * bytes) :=
  match fuel with
  | O => None
  | S fuel =>
      match kvarint_decode 32 b with
      | KVARINT_DECODE_BUF_INVALID => Some ([Error E_INVALID_MESSAGE], b)
      | KVARINT_DECODE_BUF_SHORT => Some ([], b)
      | KVARINT_OK size_header_len size_header =>
          if (size_header <? MIN_SIZE) || (u64 (MAX_SIZE - Z.of_nat size_header_len) <=? size_header)
          then Some ([Error E_INVALID_SIZE_HEADER], b)
          else if u64 (blen b - Z.of_nat size_header_len) <? size_header then Some ([], b)
          else
            let b := drop size_header_len b in
            ok ← VerifyCheckSum b size_header;
            if negb ok then Some ([Error E_INVALID_CHECKSUM], b)
            else if negb (bool_decide (take 4 b = MMBP_TAG)) then Some ([Error E_INVALID_MESSAGE], b)
            else
              '(m, b) ← msg_ParseFrom (drop 4 b);
              b ← AdvanceRead32 b;
              '(evs, b) ← receive_loop fuel b;
              Some (Delivered m :: evs, b)
      end
  end.

(** The message callback [SetUpConnection] installs, on the bytes received so far. *)
Definition on_message b : option (list (Event T) * bytes) :=
  if MAX_SIZE <=? blen b then Some ([Error E_INVALID_SIZE_HEADER], [])
  else receive_loop (S (length b)) b.

(** The bytes arrive in pieces, each appended to the buffer before the callback. *)
Fixpoint receive_all b (pieces : list bytes) : option (list (Event T) * bytes) :=
  match pieces with
  | [] => Some ([], b)
  | c :: cs =>
      '(evs, b) ← on_message (b ++ c);
      '(evs', b) ← receive_all b cs;
      Some (evs ++ evs', b)
  end.
End codec.

(** ** Reassembly *)

Section reassembly.
Context `{Kvarint, !KvarintLaws, NetOrder, !NetOrderLaws, XXHash, !XXHashLaws, ChunkBuffer, !ChunkBufferLaws}.
Context {T : Type} `{Message T, !MessageLaws T}.
Implicit Types (b p q rest : bytes) (m : T).

Lemma blen_app b c : blen (b ++ c) = blen b + blen c.
Proof. unfold blen. rewrite length_app. lia. Qed.

Lemma blen_nonneg b : 0 ≤ blen b.
Proof. unfold blen. lia. Qed.

Lemma blen_net32 (x : Z) : blen (to_net32 x) = 4.
Proof. unfold blen. by rewrite to_net32_length. Qed.

Lemma encode_nonempty w (x : Z) : 0 < w → 0 ≤ x < 2 ^ w → (0 < length (kvarint_encode w x))%nat.
Proof.
  intros Hw Hx. pose proof (kvarint_decode_encode w w x [] ltac:(lia) Hx) as E.
  apply kvarint_decode_reads in E. lia.
Qed.

Lemma decode_nil : kvarint_decode 32 [] = KVARINT_DECODE_BUF_SHORT.
Proof.
  pose proof (encode_nonempty 32 0 ltac:(lia) ltac:(lia)) as Hn.
  apply (kvarint_decode_prefix 32 0 [] (kvarint_encode 32 0)); [lia..|done|].
  intros E. rewrite E in Hn. simpl in Hn. lia.
Qed.

(** A message the peer accepts: its fields fit, and so does its frame. *)
Definition frame_ok m : Prop := msg_fits m ∧ blen (codec_SerializeTo m) < MAX_SIZE.

(** What the size header counts. *)
Definition frame_body m : bytes :=
  let buffer := MMBP_TAG ++ msg_SerializeTo m in buffer ++ to_net32 (XXH32 buffer).

Lemma frame_split m :
  frame_ok m → codec_SerializeTo m = kvarint_encode 32 (blen (frame_body m)) ++ frame_body m ∧ 8 ≤ blen (frame_body m) < 2 ^ 32.
Proof.
  intros [_ Hm]. unfold codec_SerializeTo, frame_body in *. rewrite XXH32_stream, concat_chunks in *.
  set (body := _ ++ to_net32 _) in *. rewrite blen_app in Hm.
  assert (Hl : 8 ≤ blen body).
  { subst body. rewrite !blen_app, blen_net32. change (blen MMBP_TAG) with 4.
    pose proof (blen_nonneg (msg_SerializeTo m)). lia. }
  pose proof (blen_nonneg (kvarint_encode 32 (u_w 32 (blen body)))). unfold MAX_SIZE in Hm.
  rewrite u_w_small by lia. split; [done|lia].
Qed.

Lemma frame_size m : frame_ok m → Z.of_nat (length (kvarint_encode 32 (blen (frame_body m)))) + blen (frame_body m) < MAX_SIZE.
Proof. intros Hm. destruct (frame_split m Hm) as [E _]. destruct Hm as [_ Hm]. rewrite E, blen_app in Hm. done. Qed.

(** The checks of a frame that was sent. *)
Lemma checksum_ok m rest : frame_ok m → VerifyCheckSum (frame_body m ++ rest) (blen (frame_body m)) = Some true.
Proof.
  intros Hm. destruct (frame_split m Hm) as [_ Hn]. unfold VerifyCheckSum, frame_body in *.
  set (buffer := MMBP_TAG ++ msg_SerializeTo m) in *. unfold CHECKSUM_LENGTH. rewrite !blen_app, !blen_net32 in *.
  replace (blen buffer + 4 - 4) with (blen buffer) by lia.
  rewrite u_w_small by (pose proof (blen_nonneg buffer); lia). pose proof (blen_nonneg rest).
  destruct (Z.ltb_spec (blen buffer + 4 + blen rest) (blen buffer + 4)); [lia|].
  unfold blen. rewrite Nat2Z.id, <-!app_assoc, take_app_length, drop_app_length.
  rewrite take_app_length' by (by rewrite to_net32_length).
  rewrite of_to_net32 by apply XXH32_range. by rewrite Z.eqb_refl.
Qed.

Lemma receive_frame fuel m rest :
  frame_ok m → blen (codec_SerializeTo m ++ rest) < 2 ^ 64 →
  receive_loop (T := T) (S fuel) (codec_SerializeTo m ++ rest)
  = ('(evs, b) ← receive_loop fuel rest; Some (Delivered (msg_seen m) :: evs, b)).
Proof.
  intros Hm Hl. destruct (frame_split m Hm) as [E Hn]. pose proof (frame_size m Hm) as Hs.
  rewrite blen_app, E, blen_app in Hl. rewrite E, <-app_assoc. cbn [receive_loop].
  rewrite kvarint_decode_encode by lia. rewrite !blen_app. unfold MIN_SIZE, MMBP_TAG_SIZE, CHECKSUM_LENGTH, MAX_SIZE in *.
  pose proof (blen_nonneg rest). set (enc := kvarint_encode _ _) in *. change (Z.of_nat (length enc)) with (blen enc) in *.
  pose proof (blen_nonneg enc). rewrite !u64_small by lia.
  destruct (Z.ltb_spec (blen (frame_body m)) (4 + 4)); [lia|].
  destruct (Z.leb_spec (2 ^ 26 - blen enc) (blen (frame_body m))); [lia|]. simpl orb. cbv iota.
  destruct (Z.ltb_spec (blen enc + (blen (frame_body m) + blen rest) - blen enc) (blen (frame_body m))); [lia|].
  rewrite drop_app_length. cbv zeta. rewrite checksum_ok by done. simpl mbind. cbv iota.
  rewrite drop_0, <-app_assoc. destruct Hm as [Hf _]. rewrite msg_round_trip by done. simpl.
  unfold AdvanceRead32. rewrite blen_app, blen_net32. destruct (Z.ltb_spec (4 + blen rest) 4); [lia|]. simpl.
  rewrite drop_app_length' by (by rewrite to_net32_length). done.
Qed.

(** A frame whose body is cut off waits for the rest. *)
Lemma receive_short_body fuel m k q :
  frame_ok m → frame_body m = k ++ q → q ≠ [] →
  let p := kvarint_encode 32 (blen (frame_body m)) ++ k in receive_loop (T := T) (S fuel) p = Some ([], p).
Proof.
  intros Hm Hk Hq p. destruct (frame_split m Hm) as [_ Hn]. pose proof (frame_size m Hm) as Hs.
  cbn [receive_loop]. unfold p at 1. rewrite kvarint_decode_encode by lia.
  assert (blen (frame_body m) = blen k + blen q) as Hkq by (by rewrite Hk, blen_app).
  assert (blen p = blen (kvarint_encode 32 (blen (frame_body m))) + blen k) as Hp by (unfold p; by rewrite blen_app).
  unfold MIN_SIZE, MMBP_TAG_SIZE, CHECKSUM_LENGTH, MAX_SIZE in *. set (enc := kvarint_encode _ _) in *. clearbody p.
  change (Z.of_nat (length enc)) with (blen enc) in *. pose proof (blen_nonneg enc). pose proof (blen_nonneg k).
  assert (0 < blen q) by (destruct q; [done|]; unfold blen; simpl; lia). rewrite !u64_small by lia.
  destruct (Z.ltb_spec (blen (frame_body m)) (4 + 4)); [lia|].
  destruct (Z.leb_spec (2 ^ 26 - blen enc) (blen (frame_body m))); [lia|]. simpl orb. cbv iota.
  destruct (Z.ltb_spec (blen p - blen enc) (blen (frame_body m))); [done|lia].
Qed.

(** A frame that is cut off waits. *)
Lemma receive_partial fuel m p q :
  frame_ok m → codec_SerializeTo m = p ++ q → q ≠ [] → receive_loop (T := T) (S fuel) p = Some ([], p).
Proof.
  intros Hm Hpq Hq. destruct (frame_split m Hm) as [E Hn]. rewrite E in Hpq.
  apply app_eq_inv in Hpq as [(k & Hp & Hk)|(k & Hp & Hk)].
  - destruct k as [|x k].
    + rewrite app_nil_r in Hp. simpl in Hk. subst q. rewrite <-(app_nil_r p), <-Hp. by eapply receive_short_body.
    + cbn [receive_loop]. erewrite kvarint_decode_prefix; [done| | |exact Hp|done]; lia.
  - subst p. by eapply receive_short_body.
Qed.

(** The loop ends: every frame it takes makes the buffer shorter. *)
Lemma receive_loop_fuel fuel fuel' b :
  (length b < fuel)%nat → (length b < fuel')%nat → receive_loop (T := T) fuel b = receive_loop fuel' b.
Proof.
  revert fuel' b. induction fuel as [|fuel IH]; intros [|fuel'] b ??; [lia..|]. cbn [receive_loop].
  destruct (kvarint_decode 32 b) as [len n| |] eqn:D; [|done..]. apply kvarint_decode_reads in D as [? _].
  destruct (_ || _); [done|]. destruct (_ <? _); [done|].
  destruct (VerifyCheckSum _ _) as [[]|]; [|done..]. simpl. destruct (negb _); [done|].
  destruct (msg_ParseFrom _) as [[m b1]|] eqn:P; [|done]. apply msg_shrinks in P. rewrite drop_drop, length_drop in P. simpl.
  unfold AdvanceRead32. destruct (_ <? _); [done|]. simpl. rewrite (IH fuel'); [done|rewrite length_drop; lia..].
Qed.

(** What a stream of frames leaves behind when [p] of it has arrived. *)
Definition waits (ms : list T) p q : Prop :=
  p ++ q = concat (map codec_SerializeTo ms) ∧ (ms = [] ∨ ∃ m ms' r, ms = m :: ms' ∧ codec_SerializeTo m = p ++ r ∧ r ≠ []).

Lemma receive_stream ms : ∀ p q,
  Forall frame_ok ms → blen p < 2 ^ 64 → p ++ q = concat (map codec_SerializeTo ms) →
  ∃ ms1 ms2 p', ms = ms1 ++ ms2 ∧ waits ms2 p' q
    ∧ ∀ fuel, (length p < fuel)%nat → receive_loop (T := T) fuel p = Some (map (λ m, Delivered (msg_seen m)) ms1, p').
Proof.
  induction ms as [|m ms IH]; intros p q Hms Hl E; simpl in E.
  - apply app_eq_nil in E as [-> ->]. exists [], [], []. split_and!; [done|by split; [|left]|].
    intros [|fuel] ?; [lia|]. cbn [receive_loop]. by rewrite decode_nil.
  - apply Forall_cons in Hms as [Hm Hms]. pose proof E as E0. apply app_eq_inv in E as [(k & Hp & Hk)|(k & Hp & Hk)].
    + subst p. rewrite blen_app in Hl. pose proof (blen_nonneg (codec_SerializeTo m)).
      destruct (IH k q Hms ltac:(lia) (eq_sym Hk)) as (ms1 & ms2 & p' & -> & Hw & Hr).
      exists (m :: ms1), ms2, p'. split_and!; [done..|]. intros [|fuel] Hf; [lia|]. rewrite length_app in Hf.
      destruct (frame_split m Hm) as [Es ?]. pose proof (f_equal length Es) as El. rewrite length_app in El.
      rewrite receive_frame by (done || (rewrite blen_app; lia)). rewrite Hr; [done|]. unfold blen in *. lia.
    + destruct k as [|x k].
      * rewrite app_nil_r in Hp. simpl in Hk. subst.
        destruct (IH [] (concat (map codec_SerializeTo ms)) Hms) as (ms1 & ms2 & p' & -> & Hw & Hr); [done..|].
        exists (m :: ms1), ms2, p'. split_and!; [done..|]. intros [|fuel] Hf; [lia|].
        rewrite <-(app_nil_r (codec_SerializeTo m)), receive_frame by (by rewrite ?app_nil_r).
        rewrite Hr; [done|]. destruct (frame_split m Hm) as [Es ?]. pose proof (f_equal length Es) as El.
        rewrite length_app in El. unfold blen in *. simpl. lia.
      * exists [], (m :: ms), p. split_and!; [done| |].
        { split; [done|]. right. by exists m, ms, (x :: k). }
        intros [|fuel] Hf; [lia|]. by eapply receive_partial.
Qed.

Lemma frame_nonempty m : frame_ok m → codec_SerializeTo m ≠ [].
Proof.
  intros Hm E. destruct (frame_split m Hm) as [Es ?]. rewrite E in Es.
  destruct (app_eq_nil _ _ (eq_sym Es)) as [_ Eb]. rewrite Eb in *. unfold blen in *. simpl in *. lia.
Qed.

Lemma blen_pos b : b ≠ [] → 0 < blen b.
Proof. destruct b; [done|]. unfold blen. simpl. lia. Qed.

(** An incomplete frame is shorter than a frame. *)
Lemma waits_short ms p q (F : Z) : waits ms p q → Forall (λ m, blen (codec_SerializeTo m) ≤ F) ms → blen p = 0 ∨ blen p < F.
Proof.
  intros [E Hw] Hms. destruct Hw as [->|(m & ms' & r & -> & Er & Hr)].
  - simpl in E. destruct (app_eq_nil _ _ E) as [-> _]. by left.
  - apply Forall_cons in Hms as [Hm _]. rewrite Er, blen_app in Hm. pose proof (blen_pos r Hr). lia.
Qed.

Lemma waits_end ms p : waits ms p [] → ms = [] ∧ p = [].
Proof.
  intros [E Hw]. rewrite app_nil_r in E. destruct Hw as [->|(m & ms' & r & -> & Er & Hr)]; [done|].
  simpl in E. rewrite Er, <-app_assoc in E. rewrite <-(app_nil_r p) in E at 1. apply app_inv_head in E. by destruct r.
Qed.

Lemma waits_start ms : Forall frame_ok ms → waits ms [] (concat (map codec_SerializeTo ms)).
Proof.
  intros Hok. split; [done|]. destruct ms as [|m ms]; [by left|right]. apply Forall_cons in Hok as [Hm _].
  exists m, ms, (codec_SerializeTo m). split_and!; [done..|]. by apply frame_nonempty.
Qed.

(** One piece: the frames it completes are delivered, and the next one waits. *)
Lemma on_message_waits (F : Z) ms p c q :
  Forall frame_ok ms → Forall (λ m, blen (codec_SerializeTo m) ≤ F) ms → F < MAX_SIZE → blen c ≤ MAX_SIZE - Z.max F 1 →
  waits ms p (c ++ q) →
  ∃ ms1 ms2 p', ms = ms1 ++ ms2 ∧ waits ms2 p' q ∧ on_message (p ++ c) = Some (map (λ m, Delivered (msg_seen m)) ms1, p').
Proof.
  intros Hok Hms HF Hc Hw. pose proof (waits_short _ _ _ F Hw Hms) as Hp. destruct Hw as [E _]. rewrite app_assoc in E.
  assert (Hl : blen (p ++ c) < MAX_SIZE) by (rewrite blen_app; lia). unfold on_message.
  destruct (Z.leb_spec MAX_SIZE (blen (p ++ c))); [lia|].
  destruct (receive_stream ms (p ++ c) q) as (ms1 & ms2 & p' & -> & Hw' & Hr); [done|unfold MAX_SIZE in *; lia|done|].
  exists ms1, ms2, p'. rewrite Hr by lia. done.
Qed.

Lemma receive_all_waits (F : Z) pieces : ∀ ms p,
  Forall frame_ok ms → Forall (λ m, blen (codec_SerializeTo m) ≤ F) ms → F < MAX_SIZE →
  Forall (λ c, blen c ≤ MAX_SIZE - Z.max F 1) pieces → waits ms p (concat pieces) →
  receive_all p pieces = Some (map (λ m, Delivered (msg_seen m)) ms, []).
Proof.
  induction pieces as [|c cs IH]; intros ms p Hok Hms HF Hps Hw; cbn [receive_all].
  - by apply waits_end in Hw as [-> ->].
  - apply Forall_cons in Hps as [Hc Hps].
    destruct (on_message_waits F ms p c (concat cs)) as (ms1 & ms2 & p' & -> & Hw' & ->); [done..|].
    simpl. apply Forall_app in Hms as [_ Hms]. apply Forall_app in Hok as [_ Hok].
    rewrite (IH ms2 p') by done. simpl. by rewrite map_app.
Qed.

(** C4: however the bytes of a sequence of frames are cut into pieces on the way, the
    callback delivers exactly the messages, in order, and nothing is left in the
    buffer.  The pieces, and the frames, are such that a piece on top of an
    incomplete frame stays below the limit of 64MB; the stream can be longer. *)
Theorem codec_reassembles (ms : list T) (pieces : list bytes) (F : Z) :
  Forall (λ m, msg_fits m ∧ blen (codec_SerializeTo m) ≤ F) ms → 0 < F < MAX_SIZE →
  Forall (λ c, blen c ≤ MAX_SIZE - F) pieces → concat pieces = concat (map codec_SerializeTo ms) →
  receive_all [] pieces = Some (map (λ m, Delivered (msg_seen m)) ms, []).
Proof.
  intros [Hf Hms]%Forall_and HF Hps E.
  assert (Hok : Forall frame_ok ms).
  { eapply Forall_impl; [exact (proj2 (Forall_and _ _) (conj Hf Hms))|]. intros m [? ?]. split; [done|lia]. }
  apply (receive_all_waits F); [done..|lia| |rewrite E; by apply waits_start].
  eapply Forall_impl; [exact Hps|]. simpl. intros. lia.
Qed.
End reassembly.

(** ** What the codec lets through *)

Section checks.
Context `{Kvarint, !KvarintLaws, NetOrder, XXHash, ChunkBuffer}.
Context {T : Type} `{Message T}.
Implicit Types (b : bytes) (m : T).

(** [b] starts with a frame: a size that is in bounds and complete, the tag, and a
    checksum that is the hash of the tag and the message. *)
Definition verified_frame b (len : nat) (n : Z) : Prop :=
  kvarint_decode 32 b = KVARINT_OK len n ∧ MIN_SIZE ≤ n ∧ Z.of_nat len + n < MAX_SIZE ∧ Z.of_nat len + n ≤ blen b
  ∧ take 4 (drop len b) = MMBP_TAG
  ∧ XXH32 (take (Z.to_nat (n - 4)) (drop len b)) = of_net32 (take 4 (drop (len + Z.to_nat (n - 4)) b)).

(** The events of a call and the buffer it leaves, frame by frame. *)
Inductive receives : bytes → list (Event T) → bytes → Prop :=
  | receives_frame b len n m b1 evs b' :
      verified_frame b len n → msg_ParseFrom (drop 4 (drop len b)) = Some (m, b1) → 4 ≤ blen b1 →
      receives (drop 4 b1) evs b' → receives b (Delivered m :: evs) b'
  | receives_wait b : receives b [] b
  | receives_error b e b' : e ≠ E_NOERROR → receives b [Error e] b'.

Lemma VerifyCheckSum_true b (n : Z) :
  4 ≤ n < 2 ^ 32 → VerifyCheckSum b n = Some true →
  n ≤ blen b ∧ XXH32 (take (Z.to_nat (n - 4)) b) = of_net32 (take 4 (drop (Z.to_nat (n - 4)) b)).
Proof.
  intros Hn. unfold VerifyCheckSum, CHECKSUM_LENGTH. rewrite u_w_small by lia.
  destruct (Z.ltb_spec (blen b) (n - 4 + 4)); [done|]. intros [= E%Z.eqb_eq]. split; [lia|done].
Qed.

(** The size test of the loop, in the terms of [verified_frame]. *)
Lemma size_test b len n :
  blen b < MAX_SIZE → kvarint_decode 32 b = KVARINT_OK len n →
  (n <? MIN_SIZE) || (u64 (MAX_SIZE - Z.of_nat len) <=? n) = false → MIN_SIZE ≤ n ∧ Z.of_nat len + n < MAX_SIZE.
Proof.
  intros Hb [Hl Hn]%kvarint_decode_reads. unfold blen, MAX_SIZE in *. rewrite u64_small by lia.
  rewrite orb_false_iff, Z.ltb_ge, Z.leb_gt. lia.
Qed.

Lemma receive_loop_receives fuel b evs b' :
  blen b < MAX_SIZE → (∀ c m c', msg_ParseFrom c = Some (m, c') → (length c' ≤ length c)%nat) →
  receive_loop (T := T) fuel b = Some (evs, b') → receives b evs b'.
Proof.
  intros Hb Hshrink. revert b Hb evs b'. induction fuel as [|fuel IH]; intros b Hb evs b'; [done|]. cbn [receive_loop].
  destruct (kvarint_decode 32 b) as [len n| |] eqn:D; [|by intros [= <- <-]; constructor..].
  destruct (_ || _) eqn:S; [by intros [= <- <-]; constructor|]. destruct (size_test b len n Hb D S) as [S1 S2]. clear S.
  pose proof (kvarint_decode_reads _ _ _ _ D) as [? _]. unfold MIN_SIZE, MMBP_TAG_SIZE, CHECKSUM_LENGTH, MAX_SIZE in *.
  destruct (_ <? _); [by intros [= <- <-]; constructor|].
  destruct (VerifyCheckSum _ _) as [[]|] eqn:V; [|by intros [= <- <-]; constructor|done].
  apply VerifyCheckSum_true in V as [V1 V2]; [|lia]. rewrite drop_drop in V2. simpl.
  destruct (bool_decide_reflect (take 4 (drop len b) = MMBP_TAG)) as [Ht|]; simpl; [|by intros [= <- <-]; constructor].
  destruct (msg_ParseFrom _) as [[m b1]|] eqn:P; [|done]. simpl. unfold AdvanceRead32.
  destruct (Z.ltb_spec (blen b1) 4); [done|]. simpl.
  destruct (receive_loop fuel (drop 4 b1)) as [[evs1 b2]|] eqn:R; [|done]. intros [= <- <-].
  pose proof (Hshrink _ _ _ P) as HP. rewrite !length_drop in HP.
  eapply (receives_frame _ len n); [|exact P|done|apply IH; [unfold blen in *; rewrite length_drop; lia|exact R]].
  unfold blen in V1. rewrite length_drop in V1. split_and!; [done|unfold MIN_SIZE, MMBP_TAG_SIZE, CHECKSUM_LENGTH; lia|unfold MAX_SIZE; lia|unfold blen; lia|done..].
Qed.

(** C23: a message reaches the callback only out of a frame whose size header is in
    bounds, that is complete, carries the tag, and whose checksum is right; and at
    the first frame that is not so, the call ends with one error or waits. *)
Theorem codec_delivers_verified b evs b' :
  (∀ c m c', msg_ParseFrom c = Some (m, c') → (length c' ≤ length c)%nat) →
  on_message (T := T) b = Some (evs, b') → receives b evs b'.
Proof.
  intros Hs. unfold on_message. destruct (Z.leb_spec MAX_SIZE (blen b)); [intros [= <- <-]; by constructor|].
  by apply receive_loop_receives.
Qed.

(** *** After a bad size header *)

(** The size header of [b] is not a varint, or not a size. *)
Definition bad_header b : Prop :=
  kvarint_decode 32 b = KVARINT_DECODE_BUF_INVALID
  ∨ ∃ len n, kvarint_decode 32 b = KVARINT_OK len n ∧ ((n <? MIN_SIZE) || (u64 (MAX_SIZE - Z.of_nat len) <=? n)) = true.

Lemma bad_header_app b c : bad_header b → bad_header (b ++ c).
Proof.
  intros [E|(len & n & E & Hn)]; [left; by apply kvarint_invalid_app|right]. exists len, n. split; [|done]. by apply kvarint_decode_app.
Qed.

Lemma bad_header_error b : bad_header b → ∃ e, on_message (T := T) b = Some ([Error e], if MAX_SIZE <=? blen b then [] else b).
Proof.
  intros Hb. unfold on_message. destruct (MAX_SIZE <=? blen b); [by eexists|]. cbn [receive_loop].
  destruct Hb as [->|(len & n & -> & ->)]; by eexists.
Qed.

(** After a bad size header the connection is dead: each further piece that
    arrives is answered with one more error and no message is delivered, until the
    buffer has grown to the limit and is discarded. *)
Theorem codec_bad_header_blocks b (pieces : list bytes) :
  bad_header b → blen (b ++ concat pieces) < MAX_SIZE →
  ∃ es, length es = length pieces ∧ receive_all (T := T) b pieces = Some (map Error es, b ++ concat pieces).
Proof.
  revert b. induction pieces as [|c cs IH]; intros b Hb Hl; simpl in *; [exists []; by rewrite app_nil_r|].
  destruct (bad_header_error (b ++ c)) as [e E]; [by apply bad_header_app|]. rewrite app_assoc in *.
  assert (blen (b ++ c) < MAX_SIZE) by (rewrite blen_app in Hl; pose proof (blen_nonneg (concat cs)); lia).
  destruct (Z.leb_spec MAX_SIZE (blen (b ++ c))); [lia|]. rewrite E. simpl.
  destruct (IH (b ++ c)) as (es & Hes & ->); [by apply bad_header_app|done|]. exists (e :: es). split; [simpl; by rewrite Hes|done].
Qed.
End checks.

(** ** Requests and responses as messages *)

(** A reader that does not add to the buffer. *)
Definition shrinking {A} (r : Reader A) : Prop := ∀ b x b', r b = Some (x, b') → (length b' ≤ length b)%nat.

Create HintDb shrinking discriminated.

Section shrinking.
Context `{Kvarint, !KvarintLaws, NetOrder}.

Lemma shrinking_ret {A} (x : A) : shrinking (mret x).
Proof. intros b y b' [= _ <-]. done. Qed.

Lemma shrinking_bind {A B} (r : Reader A) (f : A → Reader B) : shrinking r → (∀ x, shrinking (f x)) → shrinking (r ≫= f).
Proof.
  intros Hr Hf b y b'. unfold mbind, Reader_bind. destruct (r b) as [[x b1]|] eqn:E; [|done]. simpl. intros E1.
  apply Hr in E. apply Hf in E1. lia.
Qed.

Lemma shrinking_if {A} (c : bool) (r r' : Reader A) : shrinking r → shrinking r' → shrinking (if c then r else r').
Proof. by destruct c. Qed.

Lemma shrinking_bytes len : shrinking (ReadBytes len).
Proof. intros b x b'. unfold ReadBytes. destruct (_ <? _); [done|]. intros [= _ <-]. rewrite length_drop. lia. Qed.

Lemma shrinking_64 : shrinking Read64.
Proof. intros b x b'. unfold Read64. destruct (_ <? _); [done|]. intros [= _ <-]. rewrite length_drop. lia. Qed.

Lemma shrinking_unsigned w : shrinking (ParseUnsigned w).
Proof. intros b x b'. unfold ParseUnsigned. destruct (kvarint_decode w b); [|done..]. intros [= _ <-]. rewrite length_drop. lia. Qed.

Lemma shrinking_signed : shrinking ParseSigned64.
Proof. intros b x b'. unfold ParseSigned64. destruct (kvarint_decode_s b); [|done..]. intros [= _ <-]. rewrite length_drop. lia. Qed.
End shrinking.

#[export] Hint Resolve shrinking_ret shrinking_bytes shrinking_64 shrinking_unsigned shrinking_signed : shrinking.
#[export] Hint Resolve shrinking_if : shrinking.

Ltac shrinking_tac := repeat first [apply shrinking_bind; [|intros] | progress cbv zeta | apply shrinking_if]; auto with shrinking.

Section messages.
Context `{Kvarint, !KvarintLaws, NetOrder, !NetOrderLaws}.

Lemma shrinking_each l : shrinking (append_each l).
Proof. induction l; simpl; shrinking_tac. Qed.

Lemma shrinking_kvs l : shrinking (append_kvs l).
Proof. induction l; simpl; shrinking_tac. Qed.

Lemma shrinking_weights l : shrinking (append_weights l).
Proof. induction l; simpl; shrinking_tac. Qed.

#[local] Hint Resolve shrinking_each shrinking_kvs shrinking_weights : shrinking.

Lemma shrinking_request r : shrinking (request_ParseFrom r).
Proof. unfold request_ParseFrom. shrinking_tac. Qed.

Lemma shrinking_response s : shrinking (response_ParseFrom s).
Proof. unfold response_ParseFrom. destruct s. shrinking_tac. Qed.

(** A request is parsed into a new [MmbpRequest], whose uninitialised members are
    [junk]. *)
Definition request_message (junk : Z * Z * Z) : Message MmbpRequest :=
  {| msg_SerializeTo := request_SerializeTo; msg_ParseFrom := request_ParseFrom (new_request junk) |}.

Definition response_message (junk : Z) : Message MmbpResponse :=
  {| msg_SerializeTo := response_SerializeTo; msg_ParseFrom := response_ParseFrom (new_response junk) |}.

#[refine] Definition request_message_laws (junk : Z * Z * Z) : @MessageLaws MmbpRequest (request_message junk) :=
  @Build_MessageLaws _ (request_message junk) (λ r, request_fits r = true) (transmitted (new_request junk)) _ _.
Proof.
  - intros r rest Hr. apply request_reads_back; [done|]. by destruct junk as [[??]?].
  - intros b m b'. apply shrinking_request.
Defined.

#[refine] Definition response_message_laws (junk : Z) : @MessageLaws MmbpResponse (response_message junk) :=
  @Build_MessageLaws _ (response_message junk) (λ s, response_fits s = true) (res_transmitted (new_response junk)) _ _.
Proof.
  - intros s rest Hs. by apply response_reads_back.
  - intros b m b'. apply shrinking_response.
Defined.
End messages.
