(* ===== verification/MmbpExamples.v ===== *)
(** * Concrete frames

    A varint codec (seven bits per byte, least significant first; signed numbers
    zigzag), big endian byte order and a small checksum, as instances of the
    interfaces of the protocol; with them the theorems on messages and frames are
    applied to concrete ones. *)

From Stdlib Require Import Ascii String.
From S2P Require Import Prelude Comparator Mmbp MmbpCodec.

Module MmbpExamples.

Definition byte_of (x : Z) : ascii := ascii_of_N (Z.to_N x).
Definition of_byte (c : ascii) : Z := Z.of_N (N_of_ascii c).

Lemma of_byte_of x : 0 ≤ x < 256 → of_byte (byte_of x) = x.
Proof. intros. unfold of_byte, byte_of. rewrite N_ascii_embedding; lia. Qed.

Lemma of_byte_range c : 0 ≤ of_byte c < 256.
Proof. unfold of_byte. pose proof (N_ascii_bounded c). lia. Qed.

(** ** Varints *)

Fixpoint leb_encode (fuel : nat) (x : Z) : bytes :=
  match fuel with
  | O => [byte_of x]
  | S fuel => if x <? 128 then [byte_of x] else byte_of (x mod 128 + 128) :: leb_encode fuel (x / 128)
  end.

Fixpoint leb_decode (b : bytes) : KvarintResult :=
  match b with
  | [] => KVARINT_DECODE_BUF_SHORT
  | c :: b =>
      if of_byte c <? 128 then KVARINT_OK 1 (of_byte c)
      else match leb_decode b with
           | KVARINT_OK len i => KVARINT_OK (S len) (of_byte c - 128 + 128 * i)
           | r => r
           end
  end.

(** A number that does not fit the width is refused. *)
Definition within (w : Z) (r : KvarintResult) : KvarintResult :=
  match r with KVARINT_OK len i => if i <? 2 ^ w then r else KVARINT_DECODE_BUF_INVALID | _ => r end.

Definition zigzag (i : Z) : Z := if Z.even i then i / 2 else - ((i + 1) / 2).

#[export] Instance leb128 : Kvarint := {|
  kvarint_encode w x := leb_encode (Z.to_nat w) x;
  kvarint_decode w b := within w (leb_decode b);
  kvarint_decode_s b :=
    match within 64 (leb_decode b) with KVARINT_OK len i => KVARINT_OK len (zigzag i) | r => r end;
|}.

Lemma leb_round fuel x rest :
  0 ≤ x < 2 ^ Z.of_nat fuel → leb_decode (leb_encode fuel x ++ rest) = KVARINT_OK (length (leb_encode fuel x)) x.
Proof.
  revert x. induction fuel as [|fuel IH]; intros x Hx; cbn [leb_encode].
  - assert (x = 0) by lia. subst. done.
  - destruct (Z.ltb_spec x 128); cbn [app leb_decode].
    + rewrite of_byte_of by lia. by destruct (Z.ltb_spec x 128); [|lia].
    + pose proof (Z.mod_pos_bound x 128 ltac:(lia)). rewrite of_byte_of by lia.
      destruct (Z.ltb_spec (x mod 128 + 128) 128); [lia|]. rewrite Nat2Z.inj_succ, Z.pow_succ_r in Hx by lia.
      rewrite IH; [|split; [apply Z.div_pos; lia|apply Z.div_lt_upper_bound; lia]].
      f_equal. rewrite (Z.div_mod x 128) at 3 by lia. lia.
Qed.

Lemma leb_prefix fuel x p rest :
  0 ≤ x < 2 ^ Z.of_nat fuel → leb_encode fuel x = p ++ rest → rest ≠ [] → leb_decode p = KVARINT_DECODE_BUF_SHORT.
Proof.
  revert x p. induction fuel as [|fuel IH]; intros x p Hx; cbn [leb_encode].
  - destruct p as [|c [|? ?]]; [done|simpl; intros [= _ <-]; done|done].
  - destruct (Z.ltb_spec x 128).
    + destruct p as [|c [|? ?]]; [done|simpl; intros [= _ <-]; done|done].
    + destruct p as [|c p]; [done|]. intros [= <- E] Hr. cbn [leb_decode].
      pose proof (Z.mod_pos_bound x 128 ltac:(lia)). rewrite of_byte_of by lia.
      destruct (Z.ltb_spec (x mod 128 + 128) 128); [lia|]. rewrite Nat2Z.inj_succ, Z.pow_succ_r in Hx by lia.
      rewrite (IH (x / 128) p); [done| |done..]. split; [apply Z.div_pos; lia|apply Z.div_lt_upper_bound; lia].
Qed.

Lemma leb_reads b len i : leb_decode b = KVARINT_OK len i → (0 < len ≤ length b)%nat ∧ 0 ≤ i.
Proof.
  revert len i. induction b as [|c b IH]; intros len i; [done|]. cbn [leb_decode length]. pose proof (of_byte_range c).
  destruct (Z.ltb_spec (of_byte c) 128); [intros [= <- <-]; lia|].
  destruct (leb_decode b) as [len' i'| |]; [|done..]. intros [= <- <-]. destruct (IH len' i' eq_refl). lia.
Qed.

Lemma leb_app b c len i : leb_decode b = KVARINT_OK len i → leb_decode (b ++ c) = KVARINT_OK len i.
Proof.
  revert len i. induction b as [|x b IH]; intros len i; [done|]. cbn [app leb_decode].
  destruct (_ <? _); [done|]. destruct (leb_decode b) as [len' i'| |]; [|done..]. intros [= <- <-]. by rewrite (IH len' i').
Qed.

Lemma leb_not_invalid b : leb_decode b ≠ KVARINT_DECODE_BUF_INVALID.
Proof. induction b as [|c b IH]; [done|]. cbn [leb_decode]. destruct (_ <? _); [done|]. by destruct (leb_decode b). Qed.

#[export] Instance leb128_laws : KvarintLaws.
Proof.
  split; simpl.
  - intros w w' x rest Hw Hx. rewrite leb_round by (by rewrite Z2Nat.id by lia). simpl.
    destruct (Z.ltb_spec x (2 ^ w')); [done|]. pose proof (Z.pow_le_mono_r 2 w w'). lia.
  - intros w x p rest Hw Hx E Hr. erewrite leb_prefix; [done| |exact E|done]. by rewrite Z2Nat.id by lia.
  - intros w b len i. unfold within. destruct (leb_decode b) as [len' i'| |] eqn:D; [|done..].
    destruct (Z.ltb_spec i' (2 ^ w)); [|done]. intros [= <- <-]. apply leb_reads in D. lia.
  - intros b len i. unfold within. destruct (leb_decode b) as [len' i'| |] eqn:D; [|done..].
    destruct (_ <? _); [|done]. intros [= <- <-]. apply leb_reads in D. lia.
  - intros w b c len i. unfold within. destruct (leb_decode b) as [len' i'| |] eqn:D; [|done..].
    erewrite leb_app by exact D. done.
  - intros w b c. unfold within. destruct (leb_decode b) as [len' i'| |] eqn:D; [|by apply leb_not_invalid in D|done].
    erewrite leb_app by exact D. done.
Qed.

(** ** Network byte order *)

Fixpoint be_bytes (n : nat) (x : Z) : bytes :=
  match n with O => [] | S n => be_bytes n (x / 256) ++ [byte_of (x mod 256)] end.

Definition be_value (b : bytes) : Z := foldl (λ acc c, acc * 256 + of_byte c) 0 b.

Lemma be_bytes_length n x : length (be_bytes n x) = n.
Proof. revert x. induction n; intros x; simpl; [done|]. rewrite length_app, IHn. simpl. lia. Qed.

Lemma be_round n x : 0 ≤ x < 256 ^ Z.of_nat n → be_value (be_bytes n x) = x.
Proof.
  revert x. induction n as [|n IH]; intros x Hx; cbn [be_bytes]; [unfold be_value; simpl; lia|].
  unfold be_value in *. rewrite foldl_app. simpl. rewrite Nat2Z.inj_succ, Z.pow_succ_r in Hx by lia.
  rewrite IH by (split; [apply Z.div_pos; lia|apply Z.div_lt_upper_bound; lia]).
  rewrite of_byte_of by (apply Z.mod_pos_bound; lia). rewrite (Z.div_mod x 256) at 3 by lia. lia.
Qed.

#[export] Instance big_endian : NetOrder := {|
  to_net32 := be_bytes 4; of_net32 := be_value; to_net64 := be_bytes 8; of_net64 := be_value;
|}.

#[export] Instance big_endian_laws : NetOrderLaws.
Proof. split; intros; [apply be_bytes_length|by apply (be_round 4)|apply be_bytes_length|by apply (be_round 8)]. Qed.

(** ** A checksum, chunks of three bytes *)

Definition sum32 (acc : Z) (c : ascii) : Z := (acc * 31 + of_byte c + 1) mod 2 ^ 32.

#[export] Instance small_hash : XXHash := {|
  XXH32 b := foldl sum32 7 b;
  XXH32_update_all cs := foldl (foldl sum32) 7 cs;
|}.

#[export] Instance small_hash_laws : XXHashLaws.
Proof.
  split; simpl.
  - intros b. destruct b as [|c b] using rev_ind; simpl; [lia|]. rewrite foldl_app. simpl. by apply Z.mod_pos_bound.
  - intros cs. generalize 7. induction cs as [|c cs IH]; intros a; simpl; [done|]. by rewrite foldl_app, IH.
Qed.

Fixpoint chunks3 (b : bytes) : list bytes :=
  match b with
  | x :: y :: z :: b => [x; y; z] :: chunks3 b
  | [] => []
  | b => [b]
  end.

#[export] Instance small_chunks : ChunkBuffer := {| chunks_of := chunks3 |}.

#[export] Instance small_chunks_laws : ChunkBufferLaws.
Proof.
  split. simpl. cut (∀ n b, (length b ≤ n)%nat → concat (chunks3 b) = b); [eauto|].
  induction n as [|n IH]; intros [|x [|y [|z b]]] Hl; simpl in *; try done; try lia. by rewrite IH by lia.
Qed.
End MmbpExamples.
