(* ===== verification/Storage.v ===== *)
(** * The storage layer

    [mmkv/storage/db.h], [db.cc]: a [DatabaseInstance] executes a request on its
    database and fills in the response; the [DatabaseManager] has one or more
    instances, picks the instance of a key, and locks it.  With
    [mmkv/protocol/command.h], [mmkv/disk/log_command.h], [log_command.cc] and
    [mmkv/db/data_type.cc].

    The response is a pointer that is null during recovery ([None]).  Otherwise it
    is a new object, with empty containers; when a call fails, its output
    parameters are left as they were.  [None] is a null dereference, a failed
    [assert], an element of a vector that is not there, a fault of the database, or
    a thread that waits for a lock it holds itself. *)

From S2P Require Import Prelude Comparator AvlUtil AvlTree Dict HashTableBase HashTable TreeHashTable HashSet.
From S2P Require Import Dictionary Blist Cache ListCache Vset Kvdb KvdbSpec Mmbp MmbpCodec.

(** ** Commands *)

Inductive Command :=
  | STR_ADD | STR_DEL | STR_GET | STR_SET | STRLEN | STRAPPEND | STRPOPBACK
  | LADD | LAPPEND | LPREPEND | LGETSIZE | LGETALL | LGETRANGE | LPOPFRONT | LPOPBACK | LDEL
  | VADD | VDELM | VDELMRANGE | VDELMRANGEBYWEIGHT | VSIZE | VSIZEBYWEIGHT | VWEIGHT | VORDER | VRORDER | VRANGE | VALL
  | VRANGEBYWEIGHT | VRRANGE | VRRANGEBYWEIGHT
  | MADD | MSET | MGET | MGETS | MDEL | MALL | MFIELDS | MVALUES | MSIZE | MEXISTS
  | SADD | SDELM | SSIZE | SALL | SEXISTS | SAND | SANDTO | SSUB | SSUBTO | SOR | SORTO | SANDSIZE | SSUBSIZE | SORSIZE
  | SRANDDELM
  | MEM_STAT | EXPIRE_AT | EXPIRE_AFTER | EXPIREM_AT | EXPIREM_AFTER | PERSIST | EXPIRATION | TTL | DEL | RENAME | TYPE
  | KEYALL | DELS | DELALL | SHARD_JOIN | SHARD_LEAVE.

#[export] Instance Command_eq_dec : EqDecision Command.
Proof. solve_decision. Defined.

(** The commands in the order of their numbers. *)
Definition commands : list Command :=
  [STR_ADD; STR_DEL; STR_GET; STR_SET; STRLEN; STRAPPEND; STRPOPBACK; LADD; LAPPEND; LPREPEND; LGETSIZE; LGETALL;
   LGETRANGE; LPOPFRONT; LPOPBACK; LDEL; VADD; VDELM; VDELMRANGE; VDELMRANGEBYWEIGHT; VSIZE; VSIZEBYWEIGHT; VWEIGHT;
   VORDER; VRORDER; VRANGE; VALL; VRANGEBYWEIGHT; VRRANGE; VRRANGEBYWEIGHT; MADD; MSET; MGET; MGETS; MDEL; MALL;
   MFIELDS; MVALUES; MSIZE; MEXISTS; SADD; SDELM; SSIZE; SALL; SEXISTS; SAND; SANDTO; SSUB; SSUBTO; SOR; SORTO;
   SANDSIZE; SSUBSIZE; SORSIZE; SRANDDELM; MEM_STAT; EXPIRE_AT; EXPIRE_AFTER; EXPIREM_AT; EXPIREM_AFTER; PERSIST;
   EXPIRATION; TTL; DEL; RENAME; TYPE; KEYALL; DELS; DELALL; SHARD_JOIN; SHARD_LEAVE].

(** [(Command)n]; a number from [COMMAND_NUM] on is no command. *)
Definition command_of (n : Z) : option Command := if 0 <=? n then commands !! Z.to_nat n else None.

Inductive CommandType := CT_READ | CT_WRITE | CT_INVALID.

(** [InitCommandType]. *)
Definition g_command_type (c : Command) : CommandType :=
  match c with
  | STR_ADD | STR_DEL | STR_SET | STRAPPEND | STRPOPBACK | LADD | LAPPEND | LPREPEND | LPOPFRONT | LPOPBACK | LDEL
  | VADD | VDELM | VDELMRANGE | VDELMRANGEBYWEIGHT | MADD | MSET | MDEL | SADD | SDELM | SSUBTO | SORTO | SANDTO
  | DEL | RENAME | DELS | DELALL | EXPIRE_AT | EXPIREM_AT | EXPIRE_AFTER | EXPIREM_AFTER | SRANDDELM | PERSIST => CT_WRITE
  | _ => CT_READ
  end.

Definition GetCommandType (n : Z) : CommandType :=
  match command_of n with Some c => g_command_type c | None => CT_INVALID end.

Definition GetDataTypeString (t : DataType) : string :=
  match t with
  | D_STRING => "string" | D_STRLIST => "list" | D_SORTED_SET => "vset" | D_MAP => "map" | D_SET => "hash set"
  end.

(** The numbers of the status codes. *)
Definition code_num (c : StatusCode) : Z :=
  match c with
  | S_OK => 0 | S_EXISTS => 1 | S_NONEXISTS => 2 | S_INVALID_MESSAGE => 3 | S_INVALID_RANGE => 4
  | S_VMEMBER_NONEXISTS => 5 | S_EXISTS_DIFF_TYPE => 6 | S_FIELD_NONEXISTS => 7 | S_SET_MEMBER_NONEXISTS => 8
  | S_INVALID_REQUEST => 9 | S_SET_NO_MEMBER => 10 | S_DEST_EXISTS => 11 | S_EXPIRE_DISABLE => 12
  | S_SHARD_LOCKED => 13 | S_SHARD_PROCESSING => 14 | S_SHARD_NONEXISTS => 15
  end.

(** [int2double], [double2u64]: the bits of a double. *)
Class DoubleBits (W : Type) := { int2double : Z → W; double2u64 : W → Z }.

(** ** Responses *)

Section responses.
Implicit Types (rs : MmbpResponse).

Definition res_code rs (c : StatusCode) : MmbpResponse :=
  MkResponse (res_bits rs) (code_num c) (res_count rs) (res_value rs) (res_values rs) (res_kvs rs) (res_vmembers rs).
Definition SetOk rs : MmbpResponse := res_code rs S_OK.

(** [SetValue], [SetValues], [SetKvs], [SetCount], [SetVmembers]. *)
Definition res_flag (i : Z) rs : MmbpResponse :=
  MkResponse (SetBit (res_bits rs) i) (status_code rs) (res_count rs) (res_value rs) (res_values rs) (res_kvs rs) (res_vmembers rs).
Definition SetValue rs : MmbpResponse := res_flag 0 rs.
Definition SetValues rs : MmbpResponse := res_flag 1 rs.
Definition SetKvs rs : MmbpResponse := res_flag 2 rs.
Definition SetCount rs : MmbpResponse := res_flag 3 rs.
Definition SetVmembers rs : MmbpResponse := res_flag 4 rs.

Definition put_count rs (n : Z) : MmbpResponse :=
  MkResponse (res_bits rs) (status_code rs) n (res_value rs) (res_values rs) (res_kvs rs) (res_vmembers rs).
Definition put_value rs (s : string) : MmbpResponse :=
  MkResponse (res_bits rs) (status_code rs) (res_count rs) s (res_values rs) (res_kvs rs) (res_vmembers rs).
Definition put_values rs (l : list string) : MmbpResponse :=
  MkResponse (res_bits rs) (status_code rs) (res_count rs) (res_value rs) l (res_kvs rs) (res_vmembers rs).
Definition put_kvs rs (l : list (KeyValue string string)) : MmbpResponse :=
  MkResponse (res_bits rs) (status_code rs) (res_count rs) (res_value rs) (res_values rs) l (res_vmembers rs).
Definition put_vmembers rs (l : list (KeyValue Z string)) : MmbpResponse :=
  MkResponse (res_bits rs) (status_code rs) (res_count rs) (res_value rs) (res_values rs) (res_kvs rs) l.

(** [SET_OK_VALUE], [SET_OK_VALUES_], [SET_OK_KVS_], [SET_OK_COUNT] and
    [SET_OK_VMEMBERS_], the containers filled by the call. *)
Definition SET_OK_VALUE rs (s : string) : MmbpResponse := put_value (SetValue (SetOk rs)) s.
Definition SET_OK_VALUES rs (l : list string) : MmbpResponse := put_values (SetValues (SetOk rs)) l.
Definition SET_OK_KVS rs (l : list (KeyValue string string)) : MmbpResponse := put_kvs (SetKvs (SetOk rs)) l.
Definition SET_OK_COUNT rs (n : Z) : MmbpResponse := put_count (SetCount (SetOk rs)) n.
Definition SET_OK_VMEMBERS rs (l : list (KeyValue Z string)) : MmbpResponse := put_vmembers (SetVmembers (SetOk rs)) l.

(** [SET_XX_ELSE_CODE]. *)
Definition SET_XX_ELSE_CODE {A} (xx : MmbpResponse → A → MmbpResponse) (r : A + StatusCode) rs : MmbpResponse :=
  match r with inl x => xx rs x | inr c => res_code rs c end.

Definition invalid_request rs (msg : string) : MmbpResponse := SetValue (put_value (res_code rs S_INVALID_REQUEST) msg).
End responses.

(** ** Instances *)

Section instance.
Context {W C : Type} `{Comparator W} `{!CacheInterface C addr}
  `{HS : !HashFunc string} `{HA : !HashFunc addr} `{HZ : !HashFunc Z} `{DB : !DoubleBits W}.
Context (E : Env).
#[local] Notation MD := (M (MmkvDb W C)).
Implicit Types (rq : MmbpRequest) (response : option MmbpResponse).

(** A call whose code is looked at. *)
Definition attempt {A} (m : MD A) : MD (A + StatusCode) := λ db, '(db, r) ← m db; Some (db, inl r).

Definition code_of {A} (r : A + StatusCode) : StatusCode := match r with inl _ => S_OK | inr c => c end.

(** [CHECK_INVALID_REQUEST(cond, msg)], the rest of the case being [k]. *)
Definition CHECK_INVALID_REQUEST response (cond : bool) (msg : string) (k : MD (option MmbpResponse)) : MD (option MmbpResponse) :=
  match response with
  | Some rs => if cond then k else mret (Some (invalid_request rs msg))
  | None => k
  end.

(** [if (response) response->status_code = code]. *)
Definition only_code {A} response (m : MD A) : MD (option MmbpResponse) :=
  r ← attempt m; mret ((λ rs, res_code rs (code_of r)) <$> response).

(** [if (response) { SET_XX_ELSE_CODE(xx) }]. *)
Definition if_response {A} response (m : MD A) (xx : MmbpResponse → A → MmbpResponse) : MD (option MmbpResponse) :=
  r ← attempt m; mret (SET_XX_ELSE_CODE xx r <$> response).

(** [SET_XX_ELSE_CODE(xx)] on a response that must be there. *)
Definition need_response {A} response (m : MD A) (xx : MmbpResponse → A → MmbpResponse) : MD (option MmbpResponse) :=
  r ← attempt m; rs ← lift response; mret (Some (SET_XX_ELSE_CODE xx r rs)).

(** [request.GetWeightRange()]. *)
Definition weight_left rq : W := int2double (union_left rq).
Definition weight_right rq : W := int2double (union_right rq).

Definition bits_of (l : list (KeyValue W string)) : list (KeyValue Z string) := map (λ wm, MkKeyValue (double2u64 (key wm)) (value wm)) l.
Definition doubles_of (l : list (KeyValue Z string)) : list (KeyValue W string) := map (λ wm, MkKeyValue (int2double (key wm)) (value wm)) l.

(** The [MSET] case; [MGETS] falls through into it. *)
Definition execute_MSET rq response : MD (option MmbpResponse) :=
  CHECK_INVALID_REQUEST response (HasKey rq && HasValues rq) "mset" (
    v0 ← lift (req_values rq !! 0%nat); v1 ← lift (req_values rq !! 1%nat);
    only_code response (MapSet E (req_key rq) v0 v1)).

(** [SANDTO], [SORTO], [SSUBTO]. *)
Definition set_op_to rq response (msg : string) (op : string → string → string → MD ()) : MD (option MmbpResponse) :=
  CHECK_INVALID_REQUEST response (HasValues rq) msg (
    k1 ← lift (req_values rq !! 1%nat); k2 ← lift (req_values rq !! 2%nat); dest ← lift (req_values rq !! 0%nat);
    only_code response (op k1 k2 dest)).

(** [EXPIRATION], [TTL]: the count is announced also when there is none. *)
Definition expire_count response (m : MD Z) : MD (option MmbpResponse) :=
  r ← attempt m; rs ← lift response;
  let rs := match r with inl n => put_count rs n | inr _ => rs end in
  mret (Some (res_code (SetCount rs) (code_of r))).

(** [DEL]: the status code of [Delete] is taken for a [bool]. *)
Definition delete_success {A} (r : A + StatusCode) : bool := negb (code_num (code_of r) =? 0).

(** The commands on strings. *)
Definition execute_string (c : Command) rq response : MD (option MmbpResponse) :=
  let key := req_key rq in
  let value := req_value rq in
  let CHECK := CHECK_INVALID_REQUEST response in
  match c with
  | STR_ADD => CHECK (HasKey rq && HasValue rq) "stradd" (only_code response (InsertStr E key value))
  | STR_GET => CHECK (HasKey rq) "strget" (need_response response (GetStr E key) (λ rs str, SET_OK_VALUE rs str.2))
  | STR_DEL => CHECK (HasKey rq) "strdel" (only_code response (EraseStr E key))
  | STR_SET => CHECK (HasKey rq && HasValue rq) "strset" (only_code response (SetStr E key value))
  | STRLEN => CHECK (HasKey rq) "strlen" (need_response response (GetStr E key) (λ rs str, SET_OK_COUNT rs (str_size str.2)))
  | STRAPPEND => CHECK (HasKey rq && HasValue rq) "strappend" (only_code response (StrAppend E key value))
  | STRPOPBACK => CHECK (HasKey rq && HasCount rq) "strpopback" (only_code response (StrPopBack E key (count rq)))
  | _ => mret response
  end.

(** The commands on lists. *)
Definition execute_list (c : Command) rq response : MD (option MmbpResponse) :=
  let key := req_key rq in
  let values := req_values rq in
  let CHECK := CHECK_INVALID_REQUEST response in
  match c with
  | LADD => CHECK (HasKey rq && HasValues rq) "ladd" (only_code response (ListAdd E key values))
  | LAPPEND => CHECK (HasKey rq && HasValues rq) "lappend/lprepend" (only_code response (ListAppend E key values))
  | LPREPEND => CHECK (HasKey rq && HasValues rq) "lappend/lprepend" (only_code response (ListPrepend E key values))
  | LPOPFRONT =>
      CHECK (HasKey rq && HasCount rq) "lpopback/popfront" (if_response response (ListPopFront E key (count rq)) (λ rs _, SetCount (SetOk rs)))
  | LPOPBACK =>
      CHECK (HasKey rq && HasCount rq) "lpopback/popfront" (if_response response (ListPopBack E key (count rq)) (λ rs _, SetCount (SetOk rs)))
  | LGETSIZE => CHECK (HasKey rq) "lgetsize" (need_response response (ListGetSize E key) SET_OK_COUNT)
  | LGETRANGE =>
      CHECK (HasRange rq) "lgetrange" (need_response response (ListGetRange E key (range_left rq) (range_right rq)) SET_OK_VALUES)
  | LGETALL => CHECK (HasKey rq) "lgetrange/getall" (need_response response (ListGetAll E key) SET_OK_VALUES)
  | LDEL => CHECK (HasKey rq) "ldel" (only_code response (ListDel E key))
  | _ => mret response
  end.

(** The commands on sorted sets. *)
Definition execute_vset (c : Command) rq response : MD (option MmbpResponse) :=
  let key := req_key rq in
  let value := req_value rq in
  let CHECK := CHECK_INVALID_REQUEST response in
  let vmembers rs l := SET_OK_VMEMBERS rs (bits_of l) in
  match c with
  | VADD => CHECK (HasKey rq && HasVmembers rq) "vadd" (if_response response (VsetAdd E key (doubles_of (req_vmembers rq))) SET_OK_COUNT)
  | VALL => CHECK (HasKey rq) "vall" (need_response response (VsetAll E key) vmembers)
  | VDELM => CHECK (HasKey rq) "vdelm" (only_code response (VsetDel E key value))
  | VDELMRANGE =>
      CHECK (HasKey rq && HasRange rq) "vdelmrange" (if_response response (VsetDelRange E key (range_left rq) (range_right rq)) SET_OK_COUNT)
  | VDELMRANGEBYWEIGHT =>
      CHECK (HasKey rq && HasRange rq) "vdelmrangebyweight"
        (if_response response (VsetDelRangeByWeight E key (weight_left rq) (weight_right rq)) SET_OK_COUNT)
  | VSIZE => CHECK (HasKey rq) "vsize" (need_response response (VsetSize E key) SET_OK_COUNT)
  | VSIZEBYWEIGHT =>
      CHECK (HasKey rq && HasRange rq) "vsizebyweight"
        (need_response response (VsetSizeByWeight E key (weight_left rq) (weight_right rq)) SET_OK_COUNT)
  | VWEIGHT =>
      CHECK (HasKey rq && HasValue rq) "vweight" (need_response response (VsetWeight E key value) (λ rs w, SET_OK_COUNT rs (double2u64 w)))
  | VORDER => CHECK (HasKey rq && HasValue rq) "vorder" (need_response response (VsetOrder E key value) SET_OK_COUNT)
  | VRORDER => CHECK (HasKey rq && HasValue rq) "vrorder" (need_response response (VsetROrder E key value) SET_OK_COUNT)
  | VRANGE =>
      CHECK (HasKey rq && HasRange rq) "vrange" (need_response response (VsetRange E key (range_left rq) (range_right rq)) vmembers)
  | VRRANGE =>
      CHECK (HasKey rq && HasRange rq) "vrrange" (need_response response (VsetRRange E key (range_left rq) (range_right rq)) vmembers)
  | VRANGEBYWEIGHT =>
      CHECK (HasKey rq && HasRange rq) "vrangebyweight"
        (need_response response (VsetRangeByWeight E key (weight_left rq) (weight_right rq)) vmembers)
  | VRRANGEBYWEIGHT =>
      CHECK (HasKey rq && HasRange rq) "vrrangebyweight"
        (need_response response (VsetRRangeByWeight E key (weight_left rq) (weight_right rq)) vmembers)
  | _ => mret response
  end.

(** The commands on maps; [MGETS] has no [break]. *)
Definition execute_map (c : Command) rq response : MD (option MmbpResponse) :=
  let key := req_key rq in
  let value := req_value rq in
  let values := req_values rq in
  let CHECK := CHECK_INVALID_REQUEST response in
  match c with
  | MADD => CHECK (HasKey rq && HasKvs rq) "madd" (if_response response (MapAdd E key (req_kvs rq)) SET_OK_COUNT)
  | MGET => CHECK (HasKey rq && HasValue rq) "mget" (need_response response (MapGet E key value) SET_OK_VALUE)
  | MGETS =>
      CHECK (HasKey rq && HasValues rq) "mgets"
        (response ← need_response response (MapGets E key values) SET_OK_VALUES; execute_MSET rq response)
  | MSET => execute_MSET rq response
  | MDEL => CHECK (HasKey rq && HasValue rq) "mdel" (only_code response (MapDel E key value))
  | MALL => CHECK (HasKey rq) "mall" (need_response response (MapAll E key) SET_OK_KVS)
  | MFIELDS => CHECK (HasKey rq) "mfields" (need_response response (MapFields E key) SET_OK_VALUES)
  | MVALUES => CHECK (HasKey rq) "mvalues" (need_response response (MapValues E key) SET_OK_VALUES)
  | MSIZE => CHECK (HasKey rq) "msize" (need_response response (MapSize E key) SET_OK_COUNT)
  | MEXISTS => CHECK (HasKey rq && HasValue rq) "mexists" (need_response response (MapExists E key value) (λ rs _, SetOk rs))
  | _ => mret response
  end.

(** The commands on sets. *)
Definition execute_set (c : Command) rq response : MD (option MmbpResponse) :=
  let key := req_key rq in
  let value := req_value rq in
  let values := req_values rq in
  let CHECK := CHECK_INVALID_REQUEST response in
  match c with
  | SADD => CHECK (HasKey rq && HasValues rq) "sadd" (if_response response (SetAdd E key values) SET_OK_COUNT)
  | SDELM => CHECK (HasKey rq && HasValue rq) "sdelm" (only_code response (SetDelm E key value))
  | SEXISTS => CHECK (HasKey rq && HasValue rq) "sexists" (need_response response (SetExists E key value) (λ rs _, SetOk rs))
  | SSIZE => CHECK (HasKey rq) "ssize" (need_response response (SetSize E key) SET_OK_COUNT)
  | SALL => CHECK (HasKey rq) "sall" (need_response response (SetAll E key) SET_OK_VALUES)
  | SAND => CHECK (HasKey rq && HasValue rq) "sand" (need_response response (SetAnd E key value) SET_OK_VALUES)
  | SOR => CHECK (HasKey rq && HasValue rq) "sor" (need_response response (SetOr E key value) SET_OK_VALUES)
  | SSUB => CHECK (HasKey rq && HasValue rq) "ssub" (need_response response (SetSub E key value) SET_OK_VALUES)
  | SANDTO => set_op_to rq response "sandto" (SetAndTo E)
  | SORTO => set_op_to rq response "sorto" (SetOrTo E)
  | SSUBTO => set_op_to rq response "ssubto" (SetSubTo E)
  | SANDSIZE => CHECK (HasKey rq && HasValue rq) "sandsize" (need_response response (SetAndSize E key value) SET_OK_COUNT)
  | SORSIZE => CHECK (HasKey rq && HasValue rq) "sorsize" (need_response response (SetOrSize E key value) SET_OK_COUNT)
  | SSUBSIZE => CHECK (HasKey rq && HasValue rq) "ssubsize" (need_response response (SetSubSize E key value) SET_OK_COUNT)
  | SRANDDELM => CHECK (HasKey rq) "sranddelm" (only_code response (SetRandDelm E key))
  | _ => mret response
  end.

(** The commands on keys of any type. *)
Definition execute_common (c : Command) rq response (recv_time : Z) : MD (option MmbpResponse) :=
  let key := req_key rq in
  let value := req_value rq in
  let CHECK := CHECK_INVALID_REQUEST response in
  match c with
  | EXPIRE_AT => CHECK (HasKey rq && HasExpireTime rq) "expireat" (only_code response (ExpireAt E key (expire_time rq)))
  | EXPIRE_AFTER => CHECK (HasKey rq && HasExpireTime rq) "expireafter" (only_code response (ExpireAfter E key recv_time (expire_time rq)))
  | EXPIREM_AT => CHECK (HasKey rq && HasExpireTime rq) "expiremat" (only_code response (ExpireAtMs E key (expire_time rq)))
  | EXPIREM_AFTER =>
      CHECK (HasKey rq && HasExpireTime rq) "expiremafter" (only_code response (ExpireAfterMs E key recv_time (expire_time rq)))
  | PERSIST => CHECK (HasKey rq) "persist" (only_code response (Persist E key))
  | EXPIRATION => CHECK (HasKey rq) "expiration" (expire_count response (GetExpiration key))
  | TTL => CHECK (HasKey rq) "TTL" (expire_count response (GetTimeToLive E key))
  | TYPE =>
      CHECK (HasKey rq) "type" (
        need_response response (t ← Type_ E key; found_or S_NONEXISTS t) (λ rs t, SET_OK_VALUE rs (GetDataTypeString t)))
  | DEL =>
      CHECK (HasKey rq) "del" (
        r ← attempt (Delete E key);
        mret ((λ rs, res_code rs (if delete_success r then S_OK else S_NONEXISTS)) <$> response))
  | RENAME => CHECK (HasKey rq && HasValue rq) "rename" (only_code response (Rename E key value))
  | _ => mret response
  end.

(** [DatabaseInstance::Execute]. *)
Definition instance_Execute rq response (recv_time : Z) : MD (option MmbpResponse) :=
  match command_of (command rq) with
  | None => mret response
  | Some c =>
      match c with
      | STR_ADD | STR_GET | STR_DEL | STR_SET | STRLEN | STRAPPEND | STRPOPBACK => execute_string c rq response
      | LADD | LAPPEND | LPREPEND | LPOPFRONT | LPOPBACK | LGETSIZE | LGETRANGE | LGETALL | LDEL => execute_list c rq
        response
      | VADD | VALL | VDELM | VDELMRANGE | VDELMRANGEBYWEIGHT | VSIZE | VSIZEBYWEIGHT | VWEIGHT | VORDER | VRORDER |
        VRANGE | VRRANGE | VRANGEBYWEIGHT | VRRANGEBYWEIGHT => execute_vset c rq response
      | MADD | MGET | MGETS | MSET | MDEL | MALL | MFIELDS | MVALUES | MSIZE | MEXISTS => execute_map c rq response
      | SADD | SDELM | SEXISTS | SSIZE | SALL | SAND | SOR | SSUB | SANDTO | SORTO | SSUBTO | SANDSIZE | SORSIZE |
        SSUBSIZE | SRANDDELM => execute_set c rq response
      | EXPIRE_AT | EXPIRE_AFTER | EXPIREM_AT | EXPIREM_AFTER | PERSIST | EXPIRATION | TTL | TYPE | DEL | RENAME =>
        execute_common c rq response recv_time
      | MEM_STAT | KEYALL | DELS | DELALL | SHARD_JOIN | SHARD_LEAVE => mret response
      end
  end.
End instance.

(** ** Locks *)

(** [kanon::RWLock], as the one thread of the model sees it: waiting for a lock it
    holds itself is forever. *)
Inductive LockState := Unlocked | RLocked (readers : positive) | WLocked.

#[export] Instance LockState_eq_dec : EqDecision LockState.
Proof. solve_decision. Defined.

Definition RLock (l : LockState) : option LockState :=
  match l with Unlocked => Some (RLocked 1) | RLocked n => Some (RLocked (Pos.succ n)) | WLocked => None end.
Definition WLock (l : LockState) : option LockState := match l with Unlocked => Some WLocked | _ => None end.
Definition RUnlock (l : LockState) : option LockState :=
  match l with RLocked n => Some (if Pos.eqb n 1 then Unlocked else RLocked (Pos.pred n)) | _ => None end.
Definition WUnlock (l : LockState) : option LockState := match l with WLocked => Some Unlocked | _ => None end.

(** ** The manager *)

Inductive ManagerType := LOCAL | LOCAL_MULTI_THREAD | DISTRIBUTED.

#[export] Instance ManagerType_eq_dec : EqDecision ManagerType.
Proof. solve_decision. Defined.

Record DatabaseInstance (W C : Type) := MkInstance { inst_db : MmkvDb W C; inst_lock : LockState }.
Arguments MkInstance {W C}.
Arguments inst_db {W C}.
Arguments inst_lock {W C}.

Record DatabaseManager (W C : Type) := MkManager {
  type_ : ManagerType;
  instances_ : list (DatabaseInstance W C);
  recv_time_ : Z;
  current_index_ : Z;
}.
Arguments MkManager {W C}.
Arguments type_ {W C}.
Arguments instances_ {W C}.
Arguments recv_time_ {W C}.
Arguments current_index_ {W C}.

(** [RoundUpTo2Power]: at most 31 doublings. *)
Fixpoint round_up_loop (n : nat) (ret src : Z) : Z :=
  match n with O => ret | S n => if ret <? src then round_up_loop n (u64 (ret * 2)) src else ret end.
Definition RoundUpTo2Power (src : Z) : Z := round_up_loop 31 1 src.

Fixpoint is_2_power_loop (n : nat) (single_one src : Z) : bool :=
  match n with
  | O => false
  | S n => if Z.lxor src single_one =? 0 then true else is_2_power_loop n (u64 (single_one * 2)) src
  end.
Definition Is2Power (src : Z) : bool := is_2_power_loop 31 1 src.

Section manager.
Context {W C : Type} `{Comparator W} `{!CacheInterface C addr}
  `{HS : !HashFunc string} `{HA : !HashFunc addr} `{HZ : !HashFunc Z} `{DB : !DoubleBits W} `{XXHash}.
Context (E : Env).
#[local] Notation MD := (M (MmkvDb W C)).
Implicit Types (rq : MmbpRequest) (response : option MmbpResponse) (m : DatabaseManager W C)
  (ins : list (DatabaseInstance W C)) (k : string).

(** [DatabaseManager::DatabaseManager], the replacement policy of each database
    made by [new_cache]. *)
Definition manager_new (support_distribution : bool) (thread_num : Z) (new_cache : option C) : option (DatabaseManager W C) :=
  let t := if support_distribution then DISTRIBUTED else if thread_num =? 1 then LOCAL else LOCAL_MULTI_THREAD in
  let db_num := match t with LOCAL | DISTRIBUTED => 1 | LOCAL_MULTI_THREAD => RoundUpTo2Power (u64 thread_num) end in
  if negb (Is2Power db_num) then None
  else Some (MkManager t (replicate (Z.to_nat db_num) (MkInstance (MmkvDb_new new_cache) Unlocked)) 0 0).

Definition with_instances m ins : DatabaseManager W C := MkManager (type_ m) ins (recv_time_ m) (current_index_ m).
Definition SetRecvTime m (tm : Z) : DatabaseManager W C := MkManager (type_ m) (instances_ m) tm (current_index_ m).

Definition GetDatabaseInstanceIndex ins k : nat :=
  if bool_decide (length ins = 1%nat) then 0%nat
  else Z.to_nat (Z.land (XXH32 (str_bytes k)) (Z.of_nat (length ins) - 1)).

Definition GetDatabaseInstanceIndex2 ins (shard_id : Z) : nat :=
  if bool_decide (length ins = 1%nat) then 0%nat else Z.to_nat (Z.land shard_id (Z.of_nat (length ins) - 1)).

(** The instance of a key in [Execute]. *)
Definition key_index m k : nat :=
  if bool_decide (type_ m = DISTRIBUTED) then GetDatabaseInstanceIndex2 (instances_ m) (MakeShardId k)
  else GetDatabaseInstanceIndex (instances_ m) k.

(** A call on the database of an instance, and on its lock. *)
Definition on_instance {A} (i : nat) (f : MD A) ins : option (list (DatabaseInstance W C) * (A + StatusCode)) :=
  inst ← ins !! i;
  '(db, r) ← f (inst_db inst);
  Some (<[i := MkInstance db (inst_lock inst)]> ins, r).

Definition on_lock (i : nat) (f : LockState → option LockState) ins : option (list (DatabaseInstance W C)) :=
  inst ← ins !! i;
  l ← f (inst_lock inst);
  Some (<[i := MkInstance (inst_db inst) l]> ins).

(** [RLOCK_ALL] and the like. *)
Definition lock_all (f : LockState → option LockState) ins : option (list (DatabaseInstance W C)) :=
  mapM (λ inst, l ← f (inst_lock inst); Some (MkInstance (inst_db inst) l)) ins.

(** [KEYALL]: the keys of all instances, one after the other. *)
Fixpoint all_keys ins : option (list string) :=
  match ins with
  | [] => Some []
  | inst :: ins' =>
      '(_, r) ← GetAllKeys (inst_db inst);
      match r with inl keys => (keys ++.) <$> all_keys ins' | inr _ => None end
  end.

(** [DELS]: the instance of each key, its lock not taken. *)
Fixpoint delete_keys (keys : list string) (count : Z) ins : option (list (DatabaseInstance W C) * Z) :=
  match keys with
  | [] => Some (ins, count)
  | k :: keys =>
      '(ins, r) ← on_instance (GetDatabaseInstanceIndex ins k) (Delete E k) ins;
      delete_keys keys (if delete_success r then count ⊞ 1 else count) ins
  end.

(** [DELALL]: up to the first instance that has a locked shard. *)
Fixpoint delete_all ins : option (list (DatabaseInstance W C) * Z) :=
  match ins with
  | [] => Some ([], 0)
  | inst :: ins' =>
      '(db, r) ← DeleteAll E (inst_db inst);
      let inst := MkInstance db (inst_lock inst) in
      match r with
      | inr S_SHARD_LOCKED => Some (inst :: ins', 0)
      | inl n => '(ins', n') ← delete_all ins'; Some (inst :: ins', n ⊞ n')
      | inr _ => '(ins', n') ← delete_all ins'; Some (inst :: ins', n')
      end
  end.

(** The [switch] of [Execute]; the flag says that it ended in a [return].
    [stat] is what [GetMemoryStat] returns, [index] the instance of the key. *)
Definition execute_switch (stat : string) rq response (index : option nat) m :
    option (list (DatabaseInstance W C) * option MmbpResponse * bool) :=
  let ins := instances_ m in
  match command_of (command rq) with
  | Some MEM_STAT =>
      match response with
      | None => None
      | Some rs => if HasNone rq then Some (ins, Some (SET_OK_VALUE rs stat), false)
                   else Some (ins, Some (invalid_request rs "memorystat"), true)
      end
  | Some KEYALL =>
      ins ← lock_all RLock ins;
      keys ← all_keys ins;
      rs ← response;
      ins ← lock_all RUnlock ins;
      Some (ins, Some (SetOk (SetValues (put_values rs (res_values rs ++ keys)))), false)
  | Some DELS =>
      '(ins, count) ← delete_keys (req_values rq) 0 ins;
      Some (ins, (λ rs, SetCount (put_count (res_code rs S_OK) count)) <$> response, false)
  | Some DELALL =>
      ins ← lock_all WLock ins;
      '(ins, count) ← delete_all ins;
      ins ← lock_all WUnlock ins;
      Some (ins, (λ rs, SetCount (put_count (res_code rs S_OK) count)) <$> response, false)
  | _ =>
      i ← index;
      '(ins, r) ← on_instance i (instance_Execute E rq response (recv_time_ m)) ins;
      match r with inl response => Some (ins, response, false) | inr _ => None end
  end.

(** [DatabaseManager::Execute]. *)
Definition manager_Execute (stat : string) rq response m : option (DatabaseManager W C * option MmbpResponse) :=
  let command_type := GetCommandType (command rq) in
  let index := if HasKey rq then Some (key_index m (req_key rq)) else None in
  ins ← match index with
       | None => Some (instances_ m)
       | Some i =>
           match command_type with
           | CT_READ => on_lock i RLock (instances_ m)
           | CT_WRITE => on_lock i WLock (instances_ m)
           | CT_INVALID => None
           end
       end;
  '(ins, response, returned) ← execute_switch stat rq response index (with_instances m ins);
  ins ← match index, returned with
       | Some i, false =>
           match command_type with
           | CT_READ => on_lock i RUnlock ins
           | CT_WRITE => on_lock i WUnlock ins
           | CT_INVALID => Some ins
           end
       | _, _ => Some ins
       end;
  Some (with_instances m ins, response).

(** [DatabaseManager::CheckExpirationCycle]. *)
Definition CheckExpirationCycle m : option (DatabaseManager W C) :=
  let i := Z.to_nat (current_index_ m) in
  ins ← on_lock i WLock (instances_ m);
  '(ins, r) ← on_instance i (empty ← IsEmpty; if empty : bool then mret () else CheckExpireCycle E) ins;
  ins ← on_lock i WUnlock ins;
  let next := current_index_ m ⊞ 1 in
  Some (MkManager (type_ m) ins (recv_time_ m) (if next =? Z.of_nat (length ins) then 0 else next)).
End manager.
