(* ===== verification/StorageFacts.v ===== *)
(** * What the storage layer promises

    A request that carries the fields its command needs is one call of the
    database, and the response carries the result of that call; the instance of a
    key exists and does not change; locks are released; and however many instances
    there are, the manager answers as one reference database. *)

From S2P Require Import Prelude Comparator AvlUtil AvlTree Dict HashTableBase HashTable TreeHashTable HashSet.
From S2P Require Import Dictionary Blist Cache ListCache Vset Kvdb KvdbSpec KvdbValues KvdbRefine KvdbCalls.
From S2P Require Import KvdbFacts KvdbErrors KvdbFrame Mmbp MmbpCodec Storage.

(** ** Requests as calls *)

Section calls.
Context {W C : Type} `{Comparator W} `{!CacheInterface C addr}
  `{HS : !HashFunc string} `{HA : !HashFunc addr} `{HZ : !HashFunc Z} `{DB : !DoubleBits W}.
Implicit Types (rq : MmbpRequest) (rs : MmbpResponse).

(** The call a request asks for, when it has the fields its command needs.  Left out
    are the commands that are no call of [cmd]: [MGETS], which is two calls
    ([mgets_falls_through]), [SRANDDELM], the operations on two sets, and those the
    manager executes without an instance ([MEM_STAT], [KEYALL], [DELS], [DELALL],
    [SHARD_JOIN], [SHARD_LEAVE]). *)
Definition request_cmd rq (recv_time : Z) : option (cmd W) :=
  let k := req_key rq in
  let v := req_value rq in
  let needs (b : bool) (c : cmd W) := if HasKey rq && b then Some c else None in
  match command_of (command rq) with
  | Some STR_ADD => needs (HasValue rq) (CInsertStr k v)
  | Some STR_GET => needs true (CGetStr k)
  | Some STR_DEL => needs true (CEraseStr k)
  | Some STR_SET => needs (HasValue rq) (CSetStr k v)
  | Some STRLEN => needs true (CGetStr k)
  | Some STRAPPEND => needs (HasValue rq) (CStrAppend k v)
  | Some STRPOPBACK => needs (HasCount rq) (CStrPopBack k (count rq))
  | Some LADD => needs (HasValues rq) (CListAdd k (req_values rq))
  | Some LAPPEND => needs (HasValues rq) (CListAppend k (req_values rq))
  | Some LPREPEND => needs (HasValues rq) (CListPrepend k (req_values rq))
  | Some LPOPFRONT => needs (HasCount rq) (CListPopFront k (count rq))
  | Some LPOPBACK => needs (HasCount rq) (CListPopBack k (count rq))
  | Some LGETSIZE => needs true (CListGetSize k)
  | Some LGETRANGE => needs (HasRange rq) (CListGetRange k (range_left rq) (range_right rq))
  | Some LGETALL => needs true (CListGetAll k)
  | Some LDEL => needs true (CListDel k)
  | Some VADD => needs (HasVmembers rq) (CVsetAdd k (doubles_of (req_vmembers rq)))
  | Some VALL => needs true (CVsetAll k)
  | Some VDELM => needs true (CVsetDel k v)
  | Some VDELMRANGE => needs (HasRange rq) (CVsetDelRange k (range_left rq) (range_right rq))
  | Some VDELMRANGEBYWEIGHT => needs (HasRange rq) (CVsetDelRangeByWeight k (weight_left rq) (weight_right rq))
  | Some VSIZE => needs true (CVsetSize k)
  | Some VSIZEBYWEIGHT => needs (HasRange rq) (CVsetSizeByWeight k (weight_left rq) (weight_right rq))
  | Some VWEIGHT => needs (HasValue rq) (CVsetWeight k v)
  | Some VORDER => needs (HasValue rq) (CVsetOrder k v)
  | Some VRORDER => needs (HasValue rq) (CVsetROrder k v)
  | Some VRANGE => needs (HasRange rq) (CVsetRange k (range_left rq) (range_right rq))
  | Some VRRANGE => needs (HasRange rq) (CVsetRRange k (range_left rq) (range_right rq))
  | Some VRANGEBYWEIGHT => needs (HasRange rq) (CVsetRangeByWeight k (weight_left rq) (weight_right rq))
  | Some VRRANGEBYWEIGHT => needs (HasRange rq) (CVsetRRangeByWeight k (weight_left rq) (weight_right rq))
  | Some MADD => needs (HasKvs rq) (CMapAdd k (req_kvs rq))
  | Some MGET => needs (HasValue rq) (CMapGet k v)
  | Some MSET =>
      match req_values rq with f :: v :: _ => needs (HasValues rq) (CMapSet k f v) | _ => None end
  | Some MDEL => needs (HasValue rq) (CMapDel k v)
  | Some MALL => needs true (CMapAll k)
  | Some MFIELDS => needs true (CMapFields k)
  | Some MVALUES => needs true (CMapValues k)
  | Some MSIZE => needs true (CMapSize k)
  | Some MEXISTS => needs (HasValue rq) (CMapExists k v)
  | Some SADD => needs (HasValues rq) (CSetAdd k (req_values rq))
  | Some SDELM => needs (HasValue rq) (CSetDelm k v)
  | Some SEXISTS => needs (HasValue rq) (CSetExists k v)
  | Some SSIZE => needs true (CSetSize k)
  | Some SALL => needs true (CSetAll k)
  | Some EXPIRE_AT => needs (HasExpireTime rq) (CExpireAt k (expire_time rq))
  | Some EXPIRE_AFTER => needs (HasExpireTime rq) (CExpireAfter k recv_time (expire_time rq))
  | Some EXPIREM_AT => needs (HasExpireTime rq) (CExpireAtMs k (expire_time rq))
  | Some EXPIREM_AFTER => needs (HasExpireTime rq) (CExpireAfterMs k recv_time (expire_time rq))
  | Some PERSIST => needs true (CPersist k)
  | Some EXPIRATION => needs true (CGetExpiration k)
  | Some TTL => needs true (CGetTimeToLive k)
  | Some TYPE => needs true (CType k)
  | Some DEL => needs true (CDelete k)
  | Some RENAME => needs (HasValue rq) (CRename k v)
  | _ => None
  end.

(** A result on the wire: its code, and the field for what the call returned. *)
Definition result_answer rs (r : out W + StatusCode) : MmbpResponse :=
  match r with
  | inr c => res_code rs c
  | inl ODone => res_code rs S_OK
  | inl (OString s) => SET_OK_VALUE rs s
  | inl (ONum n) => SET_OK_COUNT rs n
  | inl (OList l) | inl (OBag l) => SET_OK_VALUES rs l
  | inl (OPairBag l) => SET_OK_KVS rs l
  | inl (OWeight w) => SET_OK_COUNT rs (double2u64 w)
  | inl (OWeights l) => SET_OK_VMEMBERS rs (bits_of l)
  | inl (OType (Some t)) => SET_OK_VALUE rs (GetDataTypeString t)
  | inl (OType None) => res_code rs S_NONEXISTS
  | inl (OBool _) | inl (OShardKeys _ _) => rs
  end.

(** The response to a request whose call had the result [r], as the code makes it:
    the length of a string for [STRLEN]; a count that was never written for
    [LPOPFRONT] and [LPOPBACK], and for [EXPIRATION] and [TTL] when the call failed;
    for [DEL], [S_NONEXISTS] when the key was deleted and [S_OK] when the call failed; the
    result of the call for all others. *)
Definition answer rq rs (r : out W + StatusCode) : MmbpResponse :=
  match command_of (command rq) with
  | Some STRLEN => match r with inl (OString s) => SET_OK_COUNT rs (str_size s) | _ => result_answer rs r end
  | Some LPOPFRONT | Some LPOPBACK => match r with inl _ => SetCount (SetOk rs) | inr c => res_code rs c end
  | Some EXPIRATION | Some TTL =>
      match r with
      | inl (ONum n) => res_code (SetCount (put_count rs n)) S_OK
      | inl _ => rs
      | inr c => res_code (SetCount rs) c
      end
  | Some DEL => res_code rs (if delete_success r then S_OK else S_NONEXISTS)
  | _ => result_answer rs r
  end.

(** What [Execute] makes of a call. *)
Definition answered rq (rs : MmbpResponse) (x : option (MmkvDb W C * (out W + StatusCode))) :
    option (MmkvDb W C * (option MmbpResponse + StatusCode)) :=
  '(db, r) ← x; Some (db, inl (Some (answer rq rs r))).

Lemma needs_Some rq (b : bool) (c c' : cmd W) :
  (if HasKey rq && b then Some c else None) = Some c' → HasKey rq = true ∧ b = true ∧ c' = c.
Proof. destruct (HasKey rq), b; simpl; naive_solver. Qed.

(** The ways a result gets into the response, [g] being what is made of it. *)
Definition responded (g : out W + StatusCode → MmbpResponse) (x : option (MmkvDb W C * (out W + StatusCode))) :
    option (MmkvDb W C * (option MmbpResponse + StatusCode)) :=
  '(db, r) ← x; Some (db, inl (Some (g r))).

Lemma only_code_answer {A} rs (m : M (MmkvDb W C) A) db :
  only_code (Some rs) m db = responded (result_answer rs) (done (W := W) m db).
Proof.
  unfold only_code, attempt, responded, done, mbind, M_bind, option_bind, mret, M_ret.
  by destruct (m db) as [[db' [x|c]]|].
Qed.

Lemma if_response_answer {A} rs (m : M (MmkvDb W C) A) (f : A → out W) xx g db :
  (∀ x, xx rs x = g (inl (f x))) → (∀ c, res_code rs c = g (inr c)) → if_response (Some rs) m xx db = responded g (ok_ f m db).
Proof.
  intros Hx Hc. unfold if_response, attempt, responded, ok_, mbind, M_bind, option_bind, mret, M_ret.
  destruct (m db) as [[db' [x|c]]|]; simpl; [by rewrite Hx|by rewrite Hc|done].
Qed.

Lemma need_response_answer {A} rs (m : M (MmkvDb W C) A) (f : A → out W) xx g db :
  (∀ x, xx rs x = g (inl (f x))) → (∀ c, res_code rs c = g (inr c)) → need_response (Some rs) m xx db = responded g (ok_ f m db).
Proof.
  intros Hx Hc. unfold need_response, attempt, responded, ok_, lift, mbind, M_bind, option_bind, mret, M_ret.
  destruct (m db) as [[db' [x|c]]|]; simpl; [by rewrite Hx|by rewrite Hc|done].
Qed.

Lemma expire_count_answer rs (m : M (MmkvDb W C) Z) db :
  expire_count (Some rs) m db
  = responded (λ r, match r with
                    | inl (ONum n) => res_code (SetCount (put_count rs n)) S_OK
                    | inl _ => rs
                    | inr c => res_code (SetCount rs) c
                    end) (ok_ ONum m db).
Proof.
  unfold expire_count, attempt, responded, ok_, lift, mbind, M_bind, option_bind, mret, M_ret.
  by destruct (m db) as [[db' [x|c]]|].
Qed.

Lemma type_answer (E : Env) rs k db :
  need_response (Some rs) (t ← Type_ E k; found_or S_NONEXISTS t) (λ rs t, SET_OK_VALUE rs (GetDataTypeString t)) db
  = responded (result_answer rs) (run_cmd (W := W) (C := C) E (CType k) db).
Proof.
  unfold run_cmd, need_response, attempt, responded, ok_, lift, found_or, mbind, M_bind, option_bind, mret, M_ret.
  destruct (Type_ E k db) as [[db' [[t|]|c]]|]; done.
Qed.

Lemma delete_answer (E : Env) rs k (db : MmkvDb W C) :
  (r ← attempt (Delete E k); mret ((λ rs, res_code rs (if delete_success r then S_OK else S_NONEXISTS)) <$> Some rs)) db
  = responded (λ r, res_code rs (if delete_success r then S_OK else S_NONEXISTS)) (run_cmd (W := W) E (CDelete k) db).
Proof.
  unfold run_cmd, attempt, responded, done, mbind, M_bind, option_bind, mret, M_ret.
  by destruct (Delete E k db) as [[db' [x|c]]|].
Qed.

(** A well-formed request is its call. *)
Lemma execute_call (E : Env) rq rs (t : Z) (c : cmd W) (db : MmkvDb W C) :
  request_cmd rq t = Some c → instance_Execute E rq (Some rs) t db = answered rq rs (run_cmd E c db).
Proof.
  unfold request_cmd, instance_Execute, answered, answer, execute_string, execute_list, execute_vset, execute_map, execute_set, execute_common.
  destruct (command_of (command rq)) as [[]|]; try done;
    try (intros (Hk & Hb & ->)%needs_Some; cbv zeta; rewrite ?Hk, ?Hb; cbn [andb CHECK_INVALID_REQUEST run_cmd];
         first [by rewrite only_code_answer | by apply if_response_answer | by apply need_response_answer | apply type_answer
               | apply expire_count_answer | apply delete_answer | by apply (if_response_answer rs _ (λ _, ODone))
               | by apply (need_response_answer rs _ (λ _, ODone))]; fail).
  destruct (req_values rq) as [|f [|v l]] eqn:Hv; try done. intros (Hk & Hb & ->)%needs_Some.
  unfold execute_MSET. rewrite Hk, Hb, Hv. by apply only_code_answer.
Qed.

(** [MGETS] falls through into [MSET]: after the fields have been looked up, the
    first field is overwritten with the name of the second, and the status is that of
    the write; with fewer than two fields the code reads past the end of the vector. *)
Theorem mgets_falls_through (E : Env) rq rs (t : Z) (db : MmkvDb W C) :
  command_of (command rq) = Some MGETS → HasKey rq = true → HasValues rq = true →
  instance_Execute E rq (Some rs) t db =
    match MapGets E (req_key rq) (req_values rq) db, req_values rq with
    | Some (db', r), f :: g :: _ =>
        '(db'', r') ← MapSet E (req_key rq) f g db';
        Some (db'', inl (Some (res_code (SET_XX_ELSE_CODE SET_OK_VALUES r rs) (code_of r'))))
    | _, _ => None
    end.
Proof.
  intros Hc Hk Hv. unfold instance_Execute, execute_map, execute_MSET. rewrite Hc, Hk, Hv. cbn [andb CHECK_INVALID_REQUEST].
  unfold need_response, only_code, attempt, lift, mbind, M_bind, option_bind, mret, M_ret, CHECK_INVALID_REQUEST.
  destruct (MapGets E (req_key rq) (req_values rq) db) as [[db' r]|]; [|done]. destruct (req_values rq) as [|f [|g l]]; [done..|].
  simpl. by destruct (MapSet E (req_key rq) f g db') as [[db'' r']|].
Qed.
End calls.

(** ** The instances *)

Lemma pow2_double (j : Z) : 0 ≤ j < 63 → u64 (2 ^ j * 2) = 2 ^ (j + 1).
Proof.
  intros Hj. rewrite Z.pow_add_r, Z.pow_1_r by lia. apply u64_small. pose proof (Z.pow_lt_mono_r 2 j 63 ltac:(lia) ltac:(lia) ltac:(lia)).
  pose proof (Z.pow_pos_nonneg 2 j). lia.
Qed.

Lemma round_up_least n (j src : Z) :
  0 ≤ j → j + Z.of_nat n = 31 → 0 < src ≤ 2 ^ 30 → (j = 0 ∨ 2 ^ (j - 1) < src) →
  ∃ i, j ≤ i ≤ 30 ∧ round_up_loop n (2 ^ j) src = 2 ^ i ∧ src ≤ 2 ^ i ∧ (i = 0 ∨ 2 ^ (i - 1) < src).
Proof.
  revert j. induction n as [|n IH]; intros j Hj Hn Hs Hl.
  { assert (j = 31) by lia. subst. destruct Hl; [done|]. change (2 ^ (31 - 1)) with (2 ^ 30) in *. lia. }
  cbn [round_up_loop]. destruct (Z.ltb_spec (2 ^ j) src).
  - assert (j < 30) by (apply (Z.pow_lt_mono_r_iff 2); lia).
    rewrite pow2_double by lia. destruct (IH (j + 1)) as (i & ? & ? & ? & ?); [lia..|right; by replace (j + 1 - 1) with j by lia|].
    exists i. split; [lia|done].
  - exists j. split; [|done]. split; [lia|]. destruct Hl as [->|Hl]; [lia|].
    assert (j - 1 < 30); [|lia]. apply (Z.pow_lt_mono_r_iff 2); lia.
Qed.

Lemma is_2_power_pow n (j i : Z) : 0 ≤ j ≤ i → i < j + Z.of_nat n → j + Z.of_nat n ≤ 31 → is_2_power_loop n (2 ^ j) (2 ^ i) = true.
Proof.
  revert j. induction n as [|n IH]; intros j Hj Hi Hn; [lia|]. cbn [is_2_power_loop].
  destruct (Z.eqb_spec (Z.lxor (2 ^ i) (2 ^ j)) 0) as [|Hx]; [done|]. rewrite pow2_double by lia.
  apply IH; [|lia..]. split; [lia|]. assert (i ≠ j); [|lia]. intros ->. by rewrite Z.lxor_nilpotent in Hx.
Qed.

(** A mask of the low bits is a remainder. *)
Lemma land_mask (x i : Z) : 0 ≤ i → 0 ≤ Z.land x (2 ^ i - 1) < 2 ^ i.
Proof. intros Hi. replace (2 ^ i - 1) with (Z.ones i) by (rewrite Z.ones_equiv; lia). rewrite Z.land_ones by done. apply Z.mod_pos_bound. lia. Qed.

Section instances.
Context {W C : Type} `{Comparator W} `{!CacheInterface C addr}
  `{HS : !HashFunc string} `{HA : !HashFunc addr} `{HZ : !HashFunc Z} `{DB : !DoubleBits W} `{XXHash}.
Implicit Types (rq : MmbpRequest) (m : DatabaseManager W C) (ins : list (DatabaseInstance W C)) (k : string).

Definition all_unlocked ins : Prop := Forall (λ inst, inst_lock inst = Unlocked) ins.
Definition power_of_2 ins : Prop := ∃ i, 0 ≤ i ∧ Z.of_nat (length ins) = 2 ^ i.

(** A new manager: as many instances as the least power of two that is not below
    the number of threads. *)
Definition instance_count (support_distribution : bool) (thread_num db_num : Z) : Prop :=
  if support_distribution then db_num = 1 else ∃ i, 0 ≤ i ∧ db_num = 2 ^ i ∧ thread_num ≤ db_num ∧ (i = 0 ∨ 2 ^ (i - 1) < thread_num).

Lemma manager_new_db_num (dist : bool) (n : Z) (cache : option C) :
  0 < n ≤ 2 ^ 30 →
  ∃ t i, 0 ≤ i ≤ 30 ∧ instance_count dist n (2 ^ i)
    ∧ manager_new (W := W) dist n cache = Some (MkManager t (replicate (Z.to_nat (2 ^ i)) (MkInstance (MmkvDb_new cache) Unlocked)) 0 0)
    ∧ (dist = false → t ≠ DISTRIBUTED).
Proof.
  intros Hn. unfold manager_new, instance_count. destruct dist.
  { exists DISTRIBUTED, 0. by split_ands. }
  destruct (Z.eqb_spec n 1) as [->|Hn1].
  { exists LOCAL, 0. split_ands; [lia|lia|exists 0; split_ands; [lia..|by left]|done|done]. }
  rewrite u64_small by lia. unfold RoundUpTo2Power. change (round_up_loop 31 1 n) with (round_up_loop 31 (2 ^ 0) n).
  destruct (round_up_least 31 0 n) as (i & Hi & -> & Hle & Hl); [lia..|by left|]. exists LOCAL_MULTI_THREAD, i.
  unfold Is2Power. change (is_2_power_loop 31 1 (2 ^ i)) with (is_2_power_loop 31 (2 ^ 0) (2 ^ i)). rewrite (is_2_power_pow 31 0) by lia. split_ands; [lia..|exists i; split_ands; [lia|done..]|done|done].
Qed.

Lemma replicate_power (inst : DatabaseInstance W C) (i : Z) : 0 ≤ i → power_of_2 (replicate (Z.to_nat (2 ^ i)) inst).
Proof. intros Hi. exists i. split; [done|]. rewrite length_replicate, Z2Nat.id; [done|]. apply Z.pow_nonneg. lia. Qed.

Lemma index_lt ins (x : Z) :
  power_of_2 ins →
  ((if bool_decide (length ins = 1%nat) then 0%nat else Z.to_nat (Z.land x (Z.of_nat (length ins) - 1))) < length ins)%nat.
Proof.
  intros (i & Hi & Hl). case_bool_decide; [lia|]. pose proof (land_mask x i Hi). rewrite Hl. lia.
Qed.

Lemma key_index_lt m k : power_of_2 (instances_ m) → (key_index m k < length (instances_ m))%nat.
Proof. intros Hp. unfold key_index. case_bool_decide; by apply index_lt. Qed.

End instances.

(** ** Locks *)

Section locks.
Context {W C : Type} `{Comparator W} `{!CacheInterface C addr}
  `{HS : !HashFunc string} `{HA : !HashFunc addr} `{HZ : !HashFunc Z} `{DB : !DoubleBits W} `{XXHash}.
Context (E : Env).
Implicit Types (rq : MmbpRequest) (m : DatabaseManager W C) (ins : list (DatabaseInstance W C)) (l : LockState).

Definition locks ins : list LockState := map inst_lock ins.

Lemma on_lock_locks i f ins ins' :
  on_lock i f ins = Some ins' → ∃ l l', locks ins !! i = Some l ∧ f l = Some l' ∧ locks ins' = <[i := l']> (locks ins).
Proof.
  unfold on_lock, locks. destruct (ins !! i) as [inst|] eqn:Hi; [|done]. simpl.
  destruct (f (inst_lock inst)) as [l'|] eqn:Hf; [|done]. intros [= <-]. exists (inst_lock inst), l'.
  by rewrite list_lookup_fmap, Hi, list_fmap_insert.
Qed.

Lemma on_instance_locks {A} i (f : M (MmkvDb W C) A) ins ins' r : on_instance i f ins = Some (ins', r) → locks ins' = locks ins.
Proof.
  unfold on_instance, locks. destruct (ins !! i) as [inst|] eqn:Hi; [|done]. simpl.
  destruct (f (inst_db inst)) as [[db r']|]; [|done]. intros [= <- _]. rewrite list_fmap_insert. simpl.
  apply list_insert_id. by rewrite list_lookup_fmap, Hi.
Qed.

Lemma lock_all_locks f ins ins' : lock_all f ins = Some ins' → mapM f (locks ins) = Some (locks ins').
Proof.
  unfold lock_all, locks. revert ins'. induction ins as [|inst ins IH]; intros ins'; simpl; [by intros [= <-]|].
  destruct (f (inst_lock inst)) as [l|]; [|done]. simpl. destruct (mapM _ ins) as [ins1|]; [|done]. intros [= <-].
  simpl. by rewrite (IH ins1).
Qed.

Lemma delete_keys_locks keys n ins ins' n' : delete_keys E keys n ins = Some (ins', n') → locks ins' = locks ins.
Proof.
  revert n ins. induction keys as [|k keys IH]; intros n ins; simpl; [by intros [= <- _]|].
  destruct (on_instance _ _ ins) as [[ins1 r]|] eqn:Hi; [|done]. simpl. intros ->%IH. by eapply on_instance_locks.
Qed.

Lemma delete_all_locks ins ins' n : delete_all E ins = Some (ins', n) → locks ins' = locks ins.
Proof.
  revert ins' n. induction ins as [|inst ins IH]; intros ins' n; cbn [delete_all]; [by intros [= <- _]|].
  destruct (DeleteAll E (inst_db inst)) as [[db r]|]; [|done]. cbn [mbind option_bind].
  destruct (delete_all E ins) as [[ins1 n1]|]; cbn [mbind option_bind].
  - destruct r as [x|[]]; intros [= <- _]; simpl; f_equal; by eapply IH.
  - destruct r as [x|[]]; try done. by intros [= <- _].
Qed.

Lemma unlock_RLock l l' l'' : RLock l = Some l' → RUnlock l' = Some l'' → l'' = l.
Proof.
  destruct l as [|n|]; cbn [RLock]; intros [= <-]; cbn [RUnlock]; [by intros [= <-]|].
  destruct (Pos.eqb_spec (Pos.succ n) 1) as [E1|_]; [by destruct n|]. intros [= <-]. by rewrite Pos.pred_succ.
Qed.

Lemma unlock_WLock l l' l'' : WLock l = Some l' → WUnlock l' = Some l'' → l'' = l.
Proof. destruct l; simpl; intros [= <-]. by intros [= <-]. Qed.

Lemma unlock_all f g ls ls' ls'' :
  (∀ l l' l'', f l = Some l' → g l' = Some l'' → l'' = l) → mapM f ls = Some ls' → mapM g ls' = Some ls'' → ls'' = ls.
Proof.
  intros Hfg. rewrite !mapM_Some. intros Hf. revert ls''. induction Hf as [|l l' ls ls' Hl Hls IH]; intros ls''.
  - by intros ->%Forall2_nil_inv_l.
  - intros (l'' & ls1 & Hl' & Hls' & ->)%Forall2_cons_inv_l. f_equal; [by eapply Hfg|by apply IH].
Qed.

(** The command itself leaves the locks as it found them. *)
Lemma switch_locks stat rq response index m ins response' b :
  execute_switch E stat rq response index m = Some (ins, response', b) → locks ins = locks (instances_ m).
Proof.
  unfold execute_switch. destruct (command_of (command rq)) as [c|].
  2: { destruct index as [i|]; [|done]. simpl. destruct (on_instance _ _ _) as [[ins1 [r|r]]|] eqn:Hi; simpl; [|done..].
       intros [= <- _ _]. by eapply on_instance_locks. }
  destruct c; try (destruct index as [i|]; [|done]; simpl; destruct (on_instance _ _ _) as [[ins1 [r|r]]|] eqn:Hi; simpl; [|done..];
    intros [= <- _ _]; by eapply on_instance_locks).
  - destruct response as [rs|]; [|done]. destruct (HasNone rq); by intros [= <- _ _].
  - destruct (lock_all RLock _) as [ins1|] eqn:H1; [|done]. simpl. destruct (all_keys ins1); [|done]. simpl.
    destruct response; [|done]. simpl. destruct (lock_all RUnlock ins1) as [ins2|] eqn:H2; [|done]. intros [= <- _ _].
    apply lock_all_locks in H1, H2. by eapply unlock_all; [exact unlock_RLock|..].
  - destruct (delete_keys _ _ _ _) as [[ins1 n]|] eqn:Hd; [|done]. intros [= <- _ _]. by eapply delete_keys_locks.
  - destruct (lock_all WLock _) as [ins1|] eqn:H1; [|done]. simpl. destruct (delete_all E ins1) as [[ins2 n]|] eqn:Hd; [|done]. simpl.
    destruct (lock_all WUnlock ins2) as [ins3|] eqn:H2; [|done]. intros [= <- _ _].
    apply lock_all_locks in H1, H2. apply delete_all_locks in Hd. rewrite Hd in H2. by eapply unlock_all; [exact unlock_WLock|..].
Qed.

(** Only [MEM_STAT] returns before the lock is released. *)
Lemma switch_returned stat rq response index m ins response' :
  execute_switch E stat rq response index m = Some (ins, response', true) → command_of (command rq) = Some MEM_STAT.
Proof.
  unfold execute_switch. destruct (command_of (command rq)) as [c|].
  - destruct c; try done; try (destruct index; [|done]; simpl; destruct (on_instance _ _ _) as [[? [?|?]]|]; done).
    + destruct (lock_all _ _); [|done]. simpl. destruct (all_keys _); [|done]. simpl. destruct response; [|done]. simpl.
      by destruct (lock_all _ _).
    + by destruct (delete_keys _ _ _ _) as [[??]|].
    + destruct (lock_all _ _); [|done]. simpl. destruct (delete_all _ _) as [[??]|]; [|done]. simpl. by destruct (lock_all _ _).
  - destruct index; [|done]. simpl. by destruct (on_instance _ _ _) as [[? [?|?]]|].
Qed.

Lemma all_unlocked_locks ins : all_unlocked ins ↔ Forall (.= Unlocked) (locks ins).
Proof. unfold all_unlocked, locks. by rewrite Forall_fmap. Qed.

Lemma lock_unlock_id f g i ins ins' ins2 ins3 :
  (∀ l l' l'', f l = Some l' → g l' = Some l'' → l'' = l) →
  on_lock i f ins = Some ins' → locks ins2 = locks ins' → on_lock i g ins2 = Some ins3 → locks ins3 = locks ins.
Proof.
  intros Hfg (l & l' & Hl & Hf & E1)%on_lock_locks E2 (l1 & l2 & Hl1 & Hg & E3)%on_lock_locks.
  rewrite E2, E1 in *. rewrite list_lookup_insert_eq in Hl1 by (by apply lookup_lt_Some in Hl). injection Hl1 as <-.
  rewrite E3, (Hfg _ _ _ Hf Hg), list_insert_insert_eq. by apply list_insert_id.
Qed.

(** C22: a request that has been executed has released every lock it took, whatever its
    command, its fields and its outcome, with one exception: a [MEM_STAT] request that
    carries a key. *)
Theorem manager_releases_locks stat rq response m m' response' :
  manager_Execute E stat rq response m = Some (m', response') → all_unlocked (instances_ m) →
  ¬ (command_of (command rq) = Some MEM_STAT ∧ HasKey rq = true) → all_unlocked (instances_ m').
Proof.
  unfold manager_Execute. rewrite !all_unlocked_locks. intros Hx Hu Hs. cut (locks (instances_ m') = locks (instances_ m)); [by intros ->|].
  destruct (HasKey rq).
  - set (i := key_index m (req_key rq)) in *.
    destruct (GetCommandType (command rq)); [| |done]; destruct (on_lock i _ (instances_ m)) as [ins1|] eqn:H1; [|done| |done];
      simpl in Hx; destruct (execute_switch _ _ _ _ _ _) as [[[ins2 rs2] b]|] eqn:H2; try done; simpl in Hx;
      destruct b; try (by exfalso; apply Hs; split; [by eapply switch_returned|]);
      apply switch_locks in H2; simpl in H2; destruct (on_lock i _ ins2) as [ins3|] eqn:H3; try done; injection Hx as <- _; simpl;
      eapply lock_unlock_id; [exact unlock_RLock|..|exact unlock_WLock| | |]; done.
  - simpl in Hx. destruct (execute_switch _ _ _ _ _ _) as [[[ins2 rs2] b]|] eqn:H2; [|done]. simpl in Hx. injection Hx as <- _.
    by apply switch_locks in H2.
Qed.

(** After a [MEM_STAT] request with a key has been refused, the lock of the key's
    instance stays taken: every later write to a key of that instance waits forever. *)
Theorem mem_stat_keeps_lock stat rq rs m :
  all_unlocked (instances_ m) → power_of_2 (instances_ m) → command_of (command rq) = Some MEM_STAT → HasKey rq = true →
  ∃ m', manager_Execute E stat rq (Some rs) m = Some (m', Some (invalid_request rs "memorystat"))
    ∧ ∀ stat' rq' response', HasKey rq' = true → key_index m (req_key rq') = key_index m (req_key rq) →
        GetCommandType (command rq') = CT_WRITE → manager_Execute E stat' rq' response' m' = None.
Proof.
  intros Hu Hp Hc Hk. pose proof (key_index_lt m (req_key rq) Hp) as Hi. unfold manager_Execute. rewrite Hk.
  set (i := key_index m (req_key rq)) in *. destruct (lookup_lt_is_Some_2 _ _ Hi) as [inst Hinst].
  unfold all_unlocked in Hu. rewrite Forall_lookup in Hu. specialize (Hu i inst Hinst).
  assert (GetCommandType (command rq) = CT_READ) as -> by (unfold GetCommandType; by rewrite Hc).
  assert (HasNone rq = false) as Hn.
  { unfold HasNone, HasKey, TestBit in *. destruct (Z.eqb_spec (req_bits rq) 0) as [E0|]; [|done]. by rewrite E0 in Hk. }
  assert (on_lock i RLock (instances_ m) = Some (<[i := MkInstance (inst_db inst) (RLocked 1)]> (instances_ m))) as Hl.
  { unfold on_lock. rewrite Hinst. simpl. by rewrite Hu. }
  rewrite Hl. cbn [mbind option_bind]. unfold execute_switch at 1. rewrite Hc, Hn. cbn [mbind option_bind]. eexists. split; [done|].
  intros stat' rq' response' Hk' Hi' Ht. rewrite Hk', Ht.
  assert (key_index (with_instances m (<[i:=MkInstance (inst_db inst) (RLocked 1)]> (instances_ m))) (req_key rq') = i) as Hi2.
  { rewrite <-Hi'. unfold key_index, GetDatabaseInstanceIndex, GetDatabaseInstanceIndex2. simpl. by rewrite length_insert. }
  unfold with_instances in *. simpl in *. rewrite Hi2. unfold on_lock. by rewrite list_lookup_insert_eq.
Qed.
End locks.
