(* ===== verification/StorageRefine.v ===== *)
(** * Many instances, one database

    A manager spreads its keys over instances; a client sees one database.  Two
    reference databases that [agree] on a key answer a call on that key alike, and
    agree on it afterwards; so the instances together answer as a single reference
    database, in every history of requests on keys. *)

From S2P Require Import Prelude Comparator AvlUtil AvlTree Dict HashTableBase HashTable TreeHashTable HashSet.
From S2P Require Import Dictionary Blist Cache ListCache Vset Kvdb KvdbSpec KvdbValues KvdbRefine KvdbCalls.
From S2P Require Import KvdbFacts KvdbErrors KvdbFrame Mmbp MmbpCodec Storage StorageFacts.

Section agreement.
Context {W C : Type} `{Comparator W} `{!CacheInterface C addr}
  `{HS : !HashFunc string} `{HA : !HashFunc addr} `{HZ : !HashFunc Z}.
Context (E : Env) (k : string).
Implicit Types (a : ADb W C) (e : addr * AVal W).
#[local] Abbreviation MR := (M (ADb W C)).

(** The same value, at whatever address. *)
Definition same_value e e' : Prop := e.2 = e'.2.

(** Without replacement policies, the same value and time of [k]. *)
Definition agree a a' : Prop :=
  cache_ (a_aux a) = None ∧ cache_ (a_aux a') = None
  ∧ option_Forall2 same_value (a_dict a !! k) (a_dict a' !! k) ∧ a_exp a !! k = a_exp a' !! k.

(** Two runs that fault together, or end in the same result and agree. *)
Definition alike {A B} (R : A → B → Prop) (x : option (ADb W C * (A + StatusCode))) (y : option (ADb W C * (B + StatusCode))) : Prop :=
  option_Forall2 (λ x y, agree x.1 y.1 ∧ res_rel R x.2 y.2) x y.

Definition tracks {A B} (R : A → B → Prop) (m : MR A) (m' : MR B) : Prop := ∀ a a', agree a a' → alike R (m a) (m' a').

Lemma tracks_bind {A B A' B'} (R : A → B → Prop) (R' : A' → B' → Prop) m m' (f : A → MR A') (f' : B → MR B') :
  tracks R m m' → (∀ x y, R x y → tracks R' (f x) (f' y)) → tracks R' (m ≫= f) (m' ≫= f').
Proof.
  intros Hm Hf a a' Ha. unfold mbind, M_bind. destruct (Hm a a' Ha) as [[b [x|c]] [b' [y|c']] [Hb Hr]|]; [..|constructor]; simpl in Hr; try done.
  - by apply Hf.
  - subst. by constructor.
Qed.

Lemma tracks_ret {A B} (R : A → B → Prop) x y : R x y → tracks R (mret x) (mret y).
Proof. intros HR a a' Ha. by constructor. Qed.

Lemma tracks_same {A} (x : A) : tracks eq (mret x) (mret x).
Proof. by apply tracks_ret. Qed.

Lemma tracks_stop {A B} (R : A → B → Prop) c : tracks R (stop c) (stop c).
Proof. intros a a' Ha. by constructor. Qed.

Lemma tracks_lift {A} (o : option A) : tracks eq (lift o) (lift o).
Proof. intros a a' Ha. unfold lift. destruct o; simpl; constructor. by split. Qed.

Lemma tracks_lift_entry e e' : same_value e e' → tracks same_value (lift (Some e)) (lift (Some e')).
Proof. intros He a a' Ha. by constructor. Qed.

Lemma tracks_or_entry c e e' : same_value e e' → tracks same_value (r_or c (Some e)) (r_or c (Some e')).
Proof. intros He a a' Ha. by constructor. Qed.

(** A function of the state that cannot tell the two apart. *)
Lemma tracks_get {A B} (R : A → B → Prop) (f : ADb W C → MR A) (f' : ADb W C → MR B) :
  (∀ a a', agree a a' → alike R (f a a) (f' a' a')) → tracks R (get_state ≫= f) (get_state ≫= f').
Proof. intros Hf a a' Ha. by apply Hf. Qed.

Lemma tracks_lookup : tracks (option_Forall2 same_value) (r_lookup k) (r_lookup k).
Proof. intros a a' Ha. constructor. split; [done|]. by destruct Ha as (_ & _ & ? & _). Qed.

Lemma tracks_exp_lookup : tracks eq (r_exp_lookup k) (r_exp_lookup k).
Proof. intros a a' Ha. constructor. split; [done|]. by destruct Ha as (_ & _ & _ & ?). Qed.

Ltac update_tac :=
  intros a a' (?&?&?&?); constructor; split; [|done]; split_and!; simpl;
  rewrite ?lookup_insert_eq, ?lookup_delete_eq; by try constructor.

Lemma tracks_put e e' : same_value e e' → tracks eq (r_put k e) (r_put k e').
Proof. intros He. update_tac. Qed.
Lemma tracks_remove : tracks eq (r_remove k) (r_remove k).
Proof. update_tac. Qed.
Lemma tracks_exp_put t : tracks eq (r_exp_put k t) (r_exp_put k t).
Proof. update_tac. Qed.
Lemma tracks_exp_remove : tracks eq (r_exp_remove k) (r_exp_remove k).
Proof. update_tac. Qed.
Lemma tracks_uncounted : tracks eq r_uncounted r_uncounted.
Proof. update_tac. Qed.
Lemma tracks_new : tracks (λ _ _, True) r_new r_new.
Proof. update_tac. Qed.

Lemma tracks_replace pkey pkey' : tracks eq (r_replace E pkey) (r_replace E pkey').
Proof. apply tracks_get. intros a a' Ha. pose proof Ha as (-> & -> & _). by constructor. Qed.

(** What only touches the cache, the shards or the log does nothing here. *)
Definition inert (m : M (Aux C) ()) : Prop := ∀ x, cache_ x = None → ∃ x', m x = Some (x', inl ()) ∧ cache_ x' = None.

Lemma tracks_aux m m' : inert m → inert m' → tracks eq (r_aux m) (r_aux m').
Proof.
  intros Hm Hm' a a' (Hc & Hc' & Hd & Hx). unfold r_aux, zoom.
  destruct (Hm _ Hc) as (x & -> & ?), (Hm' _ Hc') as (x' & -> & ?). by constructor.
Qed.

Lemma inert_update x : inert (CacheUpdate x).
Proof. intros y Hy. unfold CacheUpdate. rewrite bind_get, Hy. by exists y. Qed.
Lemma inert_add x : inert (CacheAdd x).
Proof. apply inert_update. Qed.
Lemma inert_remove x : inert (CacheRemove x).
Proof. intros y Hy. unfold CacheRemove. rewrite bind_get, Hy. by exists y. Qed.
Lemma inert_log s : inert (AppendDel s).
Proof. intros y Hy. unfold AppendDel. rewrite bind_get. by eexists. Qed.

Context (Hsharder : is_sharder E = false).

Lemma inert_check s : inert (CHECK_SHARD_IS_LOCKED_KEY E s).
Proof. intros y Hy. unfold CHECK_SHARD_IS_LOCKED_KEY. rewrite Hsharder. by exists y. Qed.
Lemma inert_add_key x s : inert (AddKeyToShard E x s).
Proof. intros y Hy. unfold AddKeyToShard. rewrite Hsharder. by exists y. Qed.
Lemma inert_remove_key x s : inert (RemoveKeyFromShard E x s).
Proof. intros y Hy. unfold RemoveKeyFromShard. rewrite Hsharder. by exists y. Qed.
End agreement.

Create HintDb tracks.
#[export] Hint Resolve tracks_lift_entry tracks_or_entry tracks_same tracks_lift tracks_stop tracks_lookup tracks_exp_lookup tracks_put tracks_remove tracks_exp_put
  tracks_exp_remove tracks_uncounted tracks_new tracks_replace tracks_aux inert_update inert_add inert_remove inert_log
  inert_check inert_add_key inert_remove_key : tracks.
#[export] Hint Extern 1 (tracks _ _ (mret _) (mret _)) => apply tracks_ret; by auto : tracks.
#[export] Hint Extern 1 (same_value _ _) => reflexivity || assumption : tracks.

(** Use what is known of the two results. *)
Ltac related HR :=
  lazymatch type of HR with
  | _ = _ => subst
  | option_Forall2 _ _ _ => destruct HR as [? ? HR|]; [unfold same_value in HR; rewrite ?HR|]
  | same_value _ _ => unfold same_value in HR; rewrite ?HR
  | _ => idtac
  end.

(** Follow the binds and the branches of two computations. *)
Ltac tracks_tac :=
  repeat first
    [ solve [eauto with tracks]
    | eapply tracks_bind; [solve [eauto with tracks]|]; let HR := fresh "HR" in intros ? ? HR; related HR
    | case_match ].

Section calls.
Context {W C : Type} `{Comparator W} `{!CacheInterface C addr}
  `{HS : !HashFunc string} `{HA : !HashFunc addr} `{HZ : !HashFunc Z}.
Context (E : Env) (k : string) (Hsharder : is_sharder E = false).
#[local] Abbreviation tracks := (tracks (W := W) (C := C) k).

Lemma tracks_shard : tracks eq (r_shard E k) (r_shard E k).
Proof. unfold r_shard. tracks_tac. Qed.

Lemma tracks_or {A} c (o : option A) : tracks eq (r_or c o) (r_or c o).
Proof. unfold r_or. tracks_tac. Qed.

Lemma tracks_typed t : tracks same_value (r_typed k t) (r_typed k t).
Proof. unfold r_typed. tracks_tac. Qed.

Lemma tracks_expire : tracks eq (r_expire E k) (r_expire E k).
Proof.
  apply tracks_get. intros a a' Ha. pose proof Ha as (_ & _ & Hd & ->). destruct (a_exp a' !! k) as [t|]; [|by constructor].
  case_match; [|by constructor].
  assert (bool_decide (is_Some (a_dict a !! k)) = bool_decide (is_Some (a_dict a' !! k))) as ->.
  { apply bool_decide_ext. destruct Hd; split; by intros [? ?]. }
  unfold check. case_bool_decide; [|constructor].
  match goal with |- alike _ _ (?m a) (?m' a') => cut (tracks eq m m'); [intros Ht; by apply Ht|] end. tracks_tac.
Qed.
#[local] Hint Resolve tracks_shard tracks_or tracks_typed tracks_expire : tracks.

Lemma tracks_not_expired : tracks eq (r_not_expired E k) (r_not_expired E k).
Proof. unfold r_not_expired. tracks_tac. Qed.

Lemma tracks_create v : tracks (λ _ _, True) (r_create E k v) (r_create E k v).
Proof. unfold r_create. tracks_tac. Qed.
#[local] Hint Resolve tracks_not_expired tracks_create : tracks.

Lemma tracks_on {A} t (f : AVal W → option (AVal W * A)) : tracks eq (r_on E k t f) (r_on E k t f).
Proof. unfold r_on. tracks_tac. Qed.

Lemma tracks_open {A} v (f : AVal W → option (AVal W * A)) : tracks eq (r_open E k v f) (r_open E k v f).
Proof. unfold r_open. tracks_tac. Qed.

Lemma tracks_erase t b : tracks eq (r_erase E t b k) (r_erase E t b k).
Proof. unfold r_erase. tracks_tac. Qed.

Lemma tracks_expire_at t : tracks eq (r_expire_at E k t) (r_expire_at E k t).
Proof. unfold r_expire_at. tracks_tac. Qed.
#[local] Hint Resolve tracks_on tracks_open tracks_erase tracks_expire_at : tracks.

(** Without the log, the key is still there after it was checked. *)
Lemma expire_key (a b : ADb W C) x : log_request E = false → r_expire E k a = Some (b, inl x) → x.2 = k.
Proof.
  intros Hl. unfold r_expire. rewrite bind_get, Hl. destruct (a_exp a !! k); [|by intros [= _ <-]]. case_match; [|by intros [= _ <-]].
  unfold check. case_bool_decide; [|done]. by intros [= _ <-].
Qed.

Lemma tracks_append es : log_request E = false → tracks eq (ref_cmd E (CListAppend k es)) (ref_cmd E (CListAppend k es)).
Proof.
  intros Hl. cbn [ref_cmd]. eapply tracks_bind; [auto with tracks|]. intros _ _ _.
  apply (tracks_bind k (λ x y, x = y ∧ x.2 = k)); [|intros [? ?] ? [<- Hx]; simpl in Hx; subst; unfold done; tracks_tac].
  intros a a' Ha. pose proof (tracks_expire a a' Ha) as Ht. pose proof (expire_key a) as Hk.
  destruct Ht as [[b [x|?]] [b' [y|?]] [Hb Hr]|]; constructor; [|done..]. split; [done|]. split; [done|]. by eapply Hk.
Qed.

(** A call on [k] does the same in two databases that agree on [k]. *)
Lemma tracks_cmd c : cmd_key E c = Some k → tracks eq (ref_cmd E c) (ref_cmd E c).
Proof.
  intros Hc. destruct c; try discriminate Hc; try (injection Hc as ->; cbn [ref_cmd]; unfold done, ok_; tracks_tac; fail).
  simpl in Hc. destruct (log_request E) eqn:Hl; [done|]. injection Hc as ->. by apply tracks_append.
Qed.
End calls.

(** ** The manager *)

Section manager.
Context {W C : Type} `{Comparator W} `{!CacheInterface C addr}
  `{HS : !HashFunc string} `{HA : !HashFunc addr} `{HZ : !HashFunc Z} `{DB : !DoubleBits W} `{XXHash}.
Context (stat : string) (junk : Z).
Implicit Types (rq : MmbpRequest) (m : DatabaseManager W C) (ins : list (DatabaseInstance W C)) (k : string) (a : ADb W C).

(** Requests one after the other, each with the configuration and clock it sees and
    the time it was received; each is answered in a new response. *)
Fixpoint manager_run m (rqs : list (Env * Z * MmbpRequest)) : option (DatabaseManager W C * list (option MmbpResponse)) :=
  match rqs with
  | [] => Some (m, [])
  | (E, t, rq) :: rqs =>
      '(m, rs) ← manager_Execute E stat rq (Some (new_response junk)) (SetRecvTime m t);
      '(m, rss) ← manager_run m rqs;
      Some (m, rs :: rss)
  end.

(** The calls of the same requests on one reference database: each request with the
    result of its call. *)
Fixpoint ref_serve a (rqs : list (Env * Z * MmbpRequest)) : option (ADb W C * list (MmbpRequest * (out W + StatusCode))) :=
  match rqs with
  | [] => Some (a, [])
  | (E, t, rq) :: rqs =>
      c ← request_cmd rq t;
      '(a, r) ← ref_cmd E c a;
      '(a, rss) ← ref_serve a rqs;
      Some (a, (rq, r) :: rss)
  end.

(** A request for one call on its key, on a server that is not a shard server. *)
Definition keyed_request (x : Env * Z * MmbpRequest) : Prop :=
  let '(E, t, rq) := x in
  is_sharder E = false ∧ env_ok E ∧ ∃ c : cmd W, request_cmd rq t = Some c ∧ cmd_ok c ∧ cmd_key E c = Some (req_key rq).

Definition request_cost (x : Env * Z * MmbpRequest) : Z :=
  let '(E, t, rq) := x in match request_cmd (W := W) rq t with Some c => cmd_cost c | None => 0 end.

Definition requests_cost (rqs : list (Env * Z * MmbpRequest)) : Z := foldr (λ x n, request_cost x + n) 0 rqs.

(** A response that is made of the result of the reference, up to the order of a hash
    table, as the code makes the response to this request. *)
Definition same_answer (x : option MmbpResponse) (y : MmbpRequest * (out W + StatusCode)) : Prop :=
  ∃ o, res_rel out_rel o y.2 ∧ x = Some (answer y.1 (new_response junk) o).

Lemma on_lock_at i f ins inst l :
  ins !! i = Some inst → f (inst_lock inst) = Some l → on_lock i f ins = Some (<[i := MkInstance (inst_db inst) l]> ins).
Proof. intros Hi Hl. unfold on_lock. rewrite Hi. simpl. by rewrite Hl. Qed.

Lemma on_instance_at {A} i (f : M (MmkvDb W C) A) ins inst :
  ins !! i = Some inst →
  on_instance i f ins = ('(db, r) ← f (inst_db inst); Some (<[i := MkInstance db (inst_lock inst)]> ins, r)).
Proof. intros Hi. unfold on_instance. by rewrite Hi. Qed.

Lemma request_cmd_HasKey rq t (c : cmd W) : request_cmd rq t = Some c → HasKey rq = true.
Proof.
  unfold request_cmd. destruct (command_of (command rq)) as [[]|]; try done; try (by intros [? _]%needs_Some).
  destruct (req_values rq) as [|? [|? ?]]; try done. by intros [? _]%needs_Some.
Qed.

(** The command of such a request is for an instance, and has a type. *)
Lemma request_cmd_plain rq t (c : cmd W) :
  request_cmd rq t = Some c →
  (GetCommandType (command rq) = CT_READ ∨ GetCommandType (command rq) = CT_WRITE)
  ∧ ∀ (E : Env) response i m,
      execute_switch E stat rq response (Some i) m =
        ('(ins, r) ← on_instance i (instance_Execute E rq response (recv_time_ m)) (instances_ m);
         match r with inl response => Some (ins, response, false) | inr _ => None end).
Proof.
  unfold request_cmd, GetCommandType, execute_switch. intros Hc.
  destruct (command_of (command rq)) as [[]|]; try done; (split; [simpl; auto|done]).
Qed.

Lemma switch_call (E : Env) rq rs (c : cmd W) m i inst l :
  request_cmd rq (recv_time_ m) = Some c → instances_ m !! i = Some inst →
  execute_switch E stat rq (Some rs) (Some i) (with_instances m (<[i := MkInstance (inst_db inst) l]> (instances_ m)))
  = ('(db, r) ← run_cmd E c (inst_db inst); Some (<[i := MkInstance db l]> (instances_ m), Some (answer rq rs r), false)).
Proof.
  intros Hc Hi. destruct (request_cmd_plain _ _ _ Hc) as [_ ->]. simpl. pose proof (lookup_lt_Some _ _ _ Hi).
  rewrite (on_instance_at _ _ _ (MkInstance (inst_db inst) l)) by (by apply list_lookup_insert_eq). simpl.
  rewrite (execute_call E rq rs _ c _ Hc). unfold answered. destruct (run_cmd E c (inst_db inst)) as [[db r]|]; [|done]. simpl.
  by rewrite list_insert_insert_eq.
Qed.

(** A request for one call, on an unlocked manager. *)
Lemma manager_call (E : Env) rq rs (c : cmd W) m inst :
  let i := key_index m (req_key rq) in
  request_cmd rq (recv_time_ m) = Some c → instances_ m !! i = Some inst → inst_lock inst = Unlocked →
  manager_Execute E stat rq (Some rs) m =
    ('(db, r) ← run_cmd E c (inst_db inst);
     Some (with_instances m (<[i := MkInstance db Unlocked]> (instances_ m)), Some (answer rq rs r))).
Proof.
  intros i Hc Hi Hu. unfold manager_Execute. rewrite (request_cmd_HasKey _ _ _ Hc). fold i. pose proof (lookup_lt_Some _ _ _ Hi).
  destruct (request_cmd_plain _ _ _ Hc) as [[-> | ->] _].
  - rewrite (on_lock_at i RLock _ inst (RLocked 1)) by (done || by rewrite Hu). cbn [mbind option_bind].
    rewrite (switch_call E rq rs c m i inst _ Hc Hi).
    destruct (run_cmd E c (inst_db inst)) as [[db r]|]; [|done]. cbn [mbind option_bind].
    erewrite (on_lock_at i RUnlock) by (by rewrite ?list_lookup_insert_eq). cbn [mbind option_bind]. by rewrite list_insert_insert_eq.
  - rewrite (on_lock_at i WLock _ inst WLocked) by (done || by rewrite Hu). cbn [mbind option_bind].
    rewrite (switch_call E rq rs c m i inst _ Hc Hi).
    destruct (run_cmd E c (inst_db inst)) as [[db r]|]; [|done]. cbn [mbind option_bind].
    erewrite (on_lock_at i WUnlock) by (by rewrite ?list_lookup_insert_eq). cbn [mbind option_bind]. by rewrite list_insert_insert_eq.
Qed.

(** The manager stands for the reference database [a]: each instance for a reference
    that agrees with [a] on the keys of the instance. *)
Definition one_database n m a : Prop :=
  power_of_2 (instances_ m) ∧ all_unlocked (instances_ m) ∧ cache_ (a_aux a) = None
  ∧ ∃ refs, Forall2 (λ inst r, db_rel n (inst_db inst) r) (instances_ m) refs
      ∧ ∀ k, ∃ r, refs !! key_index m k = Some r ∧ agree k r a.

Lemma key_index_with m ins k : length ins = length (instances_ m) → key_index (with_instances m ins) k = key_index m k.
Proof. intros Hl. unfold key_index, GetDatabaseInstanceIndex, GetDatabaseInstanceIndex2. simpl. by rewrite Hl. Qed.

(** A call on [k] leaves the agreement on the other keys. *)
Lemma agree_other (E : Env) k k' (c : cmd W) (a a' b b' : ADb W C) x y :
  cmd_key E c = Some k → k' ≠ k → ref_cmd E c a = Some (a', x) → ref_cmd E c b = Some (b', y) → agree k' a b → agree k' a' b'.
Proof.
  intros Hc Hk Ha Hb (C1 & C2 & Hd & Hx). destruct (only_cmd E k c Hc _ _ _ Ha C1) as [? S1]. destruct (only_cmd E k c Hc _ _ _ Hb C2) as [? S2].
  destruct (S1 k' Hk) as [D1 X1], (S2 k' Hk) as [D2 X2]. unfold agree. rewrite D1, D2, X1, X2. done.
Qed.

Lemma agree_right (E : Env) k k' (c : cmd W) (a b b' : ADb W C) y :
  cmd_key E c = Some k → k' ≠ k → ref_cmd E c b = Some (b', y) → agree k' a b → agree k' a b'.
Proof.
  intros Hc Hk Hb (C1 & C2 & Hd & Hx). destruct (only_cmd E k c Hc _ _ _ Hb C2) as [? S2].
  destruct (S2 k' Hk) as [D2 X2]. unfold agree. rewrite D2, X2. done.
Qed.

(** The instance of [k] and the whole after the same call on [k]. *)
Lemma one_database_update (E : Env) n n' k m a a' (c : cmd W) refs db r0 r x y :
  let i := key_index m k in
  power_of_2 (instances_ m) → all_unlocked (instances_ m) → n ≤ n' →
  Forall2 (λ inst r, db_rel n (inst_db inst) r) (instances_ m) refs → (∀ k, ∃ r, refs !! key_index m k = Some r ∧ agree k r a) →
  cmd_key E c = Some k → refs !! i = Some r0 → ref_cmd E c r0 = Some (r, x) → ref_cmd E c a = Some (a', y) →
  agree k r a' → db_rel n' db r →
  one_database n' (with_instances m (<[i := MkInstance db Unlocked]> (instances_ m))) a'.
Proof.
  intros i Hp Hu Hn Hrefs Hag Hc Hi Hr Ha Hk Hd. pose proof (lookup_lt_Some _ _ _ Hi) as Hlt.
  assert (length (<[i := MkInstance db Unlocked]> (instances_ m)) = length (instances_ m)) as Hl by apply length_insert.
  unfold one_database. split_ands; simpl.
  - destruct Hp as (j & ? & ?). exists j. by rewrite Hl.
  - by apply Forall_insert.
  - by destruct Hk as (_ & ? & _).
  - exists (<[i := r]> refs). split.
    + apply Forall2_insert; [|done]. eapply Forall2_impl; [exact Hrefs|]. intros inst r' Hir. exact (db_rel_mono n n' _ _ Hir Hn).
    + intros k'. rewrite key_index_with by done. destruct (decide (k' = k)) as [->|Hne].
      { exists r. fold i. by rewrite list_lookup_insert_eq. }
      destruct (Hag k') as (r' & Hr' & Hak'). destruct (decide (key_index m k' = i)) as [Ei|Ei].
      * rewrite Ei in *. rewrite Hi in Hr'. injection Hr' as <-. exists r. rewrite list_lookup_insert_eq by done. split; [done|].
        by eapply agree_other.
      * exists r'. rewrite list_lookup_insert_ne by done. split; [done|]. by eapply agree_right.
Qed.

Lemma one_step n m a (E : Env) t rq (c : cmd W) :
  one_database n m a → is_sharder E = false → env_ok E → request_cmd rq t = Some c → cmd_ok c → cmd_key E c = Some (req_key rq) →
  0 ≤ n → n + cmd_cost c ≤ max_elems →
  option_Forall2 (λ x y, one_database (n + cmd_cost c) x.1 y.1 ∧ same_answer x.2 (rq, y.2))
    (manager_Execute E stat rq (Some (new_response junk)) (SetRecvTime m t)) (ref_cmd E c a).
Proof.
  intros (Hp & Hu & Hca & refs & Hrefs & Hag) Hs HE Hc Hok Hk Hn Hm. pose proof (cmd_cost_pos c) as Hpos.
  destruct (Hag (req_key rq)) as (r0 & Hr0 & Hak). destruct (Forall2_lookup_r _ _ _ _ _ Hrefs Hr0) as (inst & Hi & Hd).
  assert (inst_lock inst = Unlocked) as Hul by (by eapply (Forall_lookup_1 _ _ _ _ Hu)).
  rewrite (manager_call E rq _ c (SetRecvTime m t) inst Hc Hi Hul).
  pose proof (call_sim E c Hok HE n _ _ Hn Hm Hd) as Hsim. pose proof (tracks_cmd E (req_key rq) Hs c Hk r0 a Hak) as Ht.
  destruct (ref_cmd E c r0) as [[r x]|] eqn:Er; simpl in Hsim.
  - destruct Hsim as (db & x' & -> & Hd' & Hx). inversion Ht as [? [a' y] [Ha' Hy] Ex Ey|]; subst. simpl in Ha', Hy. constructor. split.
    + simpl. change (key_index (SetRecvTime m t)) with (key_index m).
      eapply (one_database_update E n _ (req_key rq) (SetRecvTime m t) a a' c refs db r0 r x y); try done. lia.
    + exists x'. split; [|done]. simpl. destruct x' as [o|s], x as [o1|s1], y as [o2|s2]; simpl in *; naive_solver.
  - rewrite Hsim. inversion Ht. constructor.
Qed.

Lemma requests_cost_nonneg rqs : 0 ≤ requests_cost rqs.
Proof.
  induction rqs as [|[[E t] rq] rqs IH]; simpl; [done|]. unfold request_cost. destruct (request_cmd rq t) as [c|]; [|lia].
  pose proof (cmd_cost_pos c). lia.
Qed.

Lemma manager_run_one n m a rqs :
  one_database n m a → Forall keyed_request rqs → 0 ≤ n → n + requests_cost rqs ≤ max_elems →
  option_Forall2 (λ x y, one_database (n + requests_cost rqs) x.1 y.1 ∧ Forall2 same_answer x.2 y.2) (manager_run m rqs) (ref_serve a rqs).
Proof.
  revert n m a. induction rqs as [|[[E t] rq] rqs IH]; intros n m a Ho Hrqs Hn Hm.
  { constructor. simpl. by rewrite Z.add_0_r. }
  apply Forall_cons in Hrqs as [(Hs & HE & c & Hc & Hok & Hk) Hrqs]. cbn [requests_cost foldr] in *.
  assert (request_cost (E, t, rq) = cmd_cost c) as Hrc by (unfold request_cost; by rewrite Hc). rewrite Hrc in *.
  cbn [manager_run ref_serve]. rewrite Hc. cbn [mbind option_bind].
  fold (requests_cost rqs) in *. pose proof (requests_cost_nonneg rqs). pose proof (cmd_cost_pos c).
  destruct (one_step n m a E t rq c) as [[m1 x] [a1 y] [Ho1 Hxy]|]; [try done; lia..| |constructor]. cbn [mbind option_bind].
  destruct (IH (n + cmd_cost c) m1 a1) as [[m2 xs] [a2 ys] [Ho2 Hxys]|]; [try done; lia..| |constructor]. cbn [mbind option_bind].
  constructor. simpl. rewrite Z.add_assoc. split; [done|]. by constructor.
Qed.

Lemma new_one_database n (dist : bool) (threads : Z) m :
  0 < threads ≤ 2 ^ 30 → 0 ≤ n → manager_new (W := W) (C := C) dist threads None = Some m → one_database n m (ref_new None).
Proof.
  intros Ht Hn Hm. destruct (manager_new_db_num (W := W) (C := C) dist threads None Ht) as (ty & i & Hi & _ & Hm' & _).
  rewrite Hm in Hm'. injection Hm' as ->. assert (power_of_2 (instances_ (MkManager ty (replicate (Z.to_nat (2 ^ i)) (MkInstance (MmkvDb_new (W := W) (C := C) None) Unlocked)) 0 0))) as Hp by (apply replicate_power; lia).
  unfold one_database. split_ands; [done|by apply Forall_replicate|done|]. exists (replicate (Z.to_nat (2 ^ i)) (ref_new None)). split.
  - simpl. apply Forall2_replicate. simpl. by apply new_rel.
  - intros k. exists (ref_new None). split.
    + apply lookup_replicate. split; [done|]. pose proof (key_index_lt _ k Hp) as Hl. simpl in Hl. by rewrite length_replicate in Hl.
    + split_and!; [done|done|simpl; rewrite lookup_empty; constructor|done].
Qed.

(** C5: however many threads a server that is not a shard server is configured for, and
    so however many database instances without a replacement policy it spreads the keys
    over, it answers every history of requests that are one call on their key as one
    reference database answers the calls, each result in the response as the code puts
    it there for the command ([answer]: for [DEL] the status is inverted, [LPOPFRONT]
    and [LPOPBACK] announce a count that was not written); and it faults when that one
    does.  Requests that are one call on their key have the fields their command needs
    and are not [MGETS], [SRANDDELM], [RENAME], an operation on two sets, a command
    without a key, or [LAPPEND] while requests are logged; their keys have no NUL byte,
    and what they add stays below 2^61 elements. *)
Theorem manager_is_one_database (dist : bool) (threads : Z) m rqs :
  0 < threads ≤ 2 ^ 30 → manager_new dist threads None = Some m → Forall keyed_request rqs → requests_cost rqs ≤ max_elems →
  option_Forall2 (Forall2 same_answer) (snd <$> manager_run m rqs) (snd <$> ref_serve (ref_new None) rqs).
Proof.
  intros Ht Hm Hrqs Hc. pose proof (new_one_database 0 dist threads m Ht ltac:(lia) Hm) as Ho.
  destruct (manager_run_one 0 m _ rqs Ho Hrqs ltac:(lia) ltac:(lia)) as [[? ?] [? ?] [_ ?]|]; by constructor.
Qed.
End manager.
