(* ===== verification/Server.v ===== *)
(** * The server

    [mmkv/server/mmkv_server.cc]: the message callback of the codec parses the
    request, executes it and sends the response; and the error callback of
    [mmkv/protocol/mmbp_codec.cc].  One connection, requests not logged
    ([log_method] is [LM_NONE]).

    [SHARD_JOIN] and [SHARD_LEAVE] go to the controller client: what it
    does is a parameter here (see [ServerMain]).  [None] is as in the layers below, and a
    command number past the table of the commands' names, which are logged. *)

From Stdlib Require Import Ascii String.
From S2P Require Import Prelude Comparator AvlUtil AvlTree Dict HashTableBase HashTable TreeHashTable HashSet.
From S2P Require Import Dictionary Blist Cache ListCache Vset Kvdb KvdbSpec KvdbValues KvdbRefine KvdbCalls.
From S2P Require Import KvdbFacts KvdbErrors KvdbFrame Mmbp MmbpCodec Storage StorageFacts StorageRefine.

Section server.
Context {W C : Type} `{Comparator W} `{!CacheInterface C addr}
  `{HS : !HashFunc string} `{HA : !HashFunc addr} `{HZ : !HashFunc Z} `{DB : !DoubleBits W}.
Context `{Kvarint, NetOrder, XXHash, ChunkBuffer}.

(** What the controller client does with a request; the memory statistics; the
    uninitialised members of new messages; the configuration and clock at the
    n-th message. *)
Context (shard_request : MmbpRequest → DatabaseManager W C → MmbpResponse → DatabaseManager W C * MmbpResponse).
Context (stat : string) (junk_rq : Z * Z * Z) (junk_rs : Z) (env : nat → Env).

#[local] Instance request_msg : Message MmbpRequest := request_message junk_rq.
#[local] Instance response_msg : Message MmbpResponse := response_message junk_rs.

(** The databases, the bytes of the connection not yet consumed, and the number of
    messages so far. *)
Record Server := MkServer { srv_manager : DatabaseManager W C; srv_buffer : bytes; srv_count : nat }.

(** The part of the message callback after [request.ParseFrom(buffer)]. *)
Definition serve_request (E : Env) (recv_time : Z) (rq : MmbpRequest) (m : DatabaseManager W C) :
    option (DatabaseManager W C * MmbpResponse) :=
  let m := SetRecvTime m recv_time in
  let response := new_response junk_rs in
  match command_of (command rq) with
  | None => None
  | Some SHARD_JOIN | Some SHARD_LEAVE => Some (shard_request rq m response)
  | Some _ => '(m, response) ← manager_Execute E stat rq (Some response) m; rs ← response; Some (m, rs)
  end.

(** The error callback: an error response, without a frame. *)
Definition error_reply : bytes := response_SerializeTo (res_code (new_response junk_rs) S_INVALID_MESSAGE).

(** The callbacks of one call of the codec, and the bytes they send. *)
Fixpoint serve_events (recv_time : Z) (evs : list (Event MmbpRequest)) (m : DatabaseManager W C) (n : nat) :
    option (DatabaseManager W C * nat * list bytes) :=
  match evs with
  | [] => Some (m, n, [])
  | Delivered rq :: evs =>
      '(m, rs) ← serve_request (env n) recv_time rq m;
      '(m, n, outs) ← serve_events recv_time evs m (S n);
      Some (m, n, codec_SerializeTo rs :: outs)
  | Error _ :: evs =>
      '(m, n, outs) ← serve_events recv_time evs m n;
      Some (m, n, error_reply :: outs)
  end.

(** A piece arrives. *)
Definition on_piece (recv_time : Z) (piece : bytes) (s : Server) : option (Server * list bytes) :=
  '(evs, b) ← on_message (srv_buffer s ++ piece);
  '(m, n, outs) ← serve_events recv_time evs (srv_manager s) (srv_count s);
  Some (MkServer m b n, outs).

Fixpoint server_run (s : Server) (pieces : list (Z * bytes)) : option (Server * list bytes) :=
  match pieces with
  | [] => Some (s, [])
  | (t, c) :: pieces =>
      '(s, outs) ← on_piece t c s;
      '(s, outs') ← server_run s pieces;
      Some (s, outs ++ outs')
  end.
End server.
Arguments Server : clear implicits.

Section end_to_end.
Context {W C : Type} `{Comparator W} `{!CacheInterface C addr}
  `{HS : !HashFunc string} `{HA : !HashFunc addr} `{HZ : !HashFunc Z} `{DB : !DoubleBits W}.
Context `{Kvarint, !KvarintLaws, NetOrder, !NetOrderLaws, XXHash, !XXHashLaws, ChunkBuffer, !ChunkBufferLaws}.
Context (shard_request : MmbpRequest → DatabaseManager W C → MmbpResponse → DatabaseManager W C * MmbpResponse).
Context (stat : string) (junk_rq : Z * Z * Z) (junk_rs : Z) (env : nat → Env).
Implicit Types (m : DatabaseManager W C) (rqs : list MmbpRequest).

#[local] Instance request_laws : @MessageLaws MmbpRequest (request_msg junk_rq) := request_message_laws junk_rq.
#[local] Abbreviation frame := (@codec_SerializeTo _ _ _ _ MmbpRequest (request_msg junk_rq)).
#[local] Abbreviation reply := (@codec_SerializeTo _ _ _ _ MmbpResponse (response_msg junk_rs)).
#[local] Abbreviation seen := (transmitted (new_request junk_rq)).
#[local] Abbreviation run := (server_run shard_request stat junk_rq junk_rs env).

(** The requests as the server sees them, with the times [ts] they are received. *)
Fixpoint timed (n : nat) (ts : list Z) rqs : list (Env * Z * MmbpRequest) :=
  match ts, rqs with
  | t :: ts, rq :: rqs => (env n, t, seen rq) :: timed (S n) ts rqs
  | _, _ => []
  end.

Lemma timed_app n ts ts' rqs rqs' :
  length ts = length rqs → timed n (ts ++ ts') (rqs ++ rqs') = timed n ts rqs ++ timed (n + length rqs) ts' rqs'.
Proof.
  revert n rqs. induction ts as [|t ts IH]; intros n [|rq rqs] Hl; simpl in *; try done; [by rewrite Nat.add_0_r|].
  rewrite IH by lia. by rewrite Nat.add_succ_r.
Qed.

Lemma manager_run_app m xs ys :
  manager_run stat junk_rs m (xs ++ ys)
  = ('(m, rs) ← manager_run stat junk_rs m xs; '(m, rs') ← manager_run stat junk_rs m ys; Some (m, rs ++ rs')).
Proof.
  revert m. induction xs as [|[[E t] rq] xs IH]; intros m; cbn [app manager_run mbind option_bind].
  { by destruct (manager_run stat junk_rs m ys) as [[? ?]|]. }
  destruct (manager_Execute _ _ _ _ _) as [[m1 rs]|]; [|done]. cbn [mbind option_bind]. rewrite IH.
  destruct (manager_run stat junk_rs m1 xs) as [[m2 rs2]|]; [|done]. cbn [mbind option_bind].
  by destruct (manager_run stat junk_rs m2 ys) as [[m3 rs3]|].
Qed.

(** The frames of the responses. *)
Definition replies (rss : list (option MmbpResponse)) : option (list bytes) := mapM (λ rs, reply <$> rs) rss.

Lemma replies_app rs rs' : replies (rs ++ rs') = (x ← replies rs; y ← replies rs'; Some (x ++ y)).
Proof.
  unfold replies. induction rs as [|[r|] rs IH]; simpl; [by destruct (mapM _ rs')| |done]. rewrite IH.
  destruct (mapM _ rs); [|done]. simpl. by destruct (mapM _ rs').
Qed.

(** What the manager makes of requests, sent. *)
Definition sent m xs : option (DatabaseManager W C * list bytes) :=
  '(m, rss) ← manager_run stat junk_rs m xs; outs ← replies rss; Some (m, outs).

Lemma sent_app m xs ys : sent m (xs ++ ys) = ('(m, x) ← sent m xs; '(m, y) ← sent m ys; Some (m, x ++ y)).
Proof.
  unfold sent. rewrite manager_run_app. destruct (manager_run stat junk_rs m xs) as [[m1 rs]|]; [|done]. cbn [mbind option_bind].
  destruct (replies rs) as [x|] eqn:Ex; cbn [mbind option_bind].
  - destruct (manager_run stat junk_rs m1 ys) as [[m2 rs2]|]; [|done]. cbn [mbind option_bind]. rewrite replies_app, Ex. simpl.
    by destruct (replies rs2).
  - destruct (manager_run stat junk_rs m1 ys) as [[m2 rs2]|]; [|done]. cbn [mbind option_bind]. by rewrite replies_app, Ex.
Qed.

(** A request for a call is executed by the manager. *)
Lemma serve_request_call (E : Env) t rq m :
  is_Some (request_cmd (W := W) rq t) →
  serve_request shard_request stat junk_rs E t rq m
  = ('(m, response) ← manager_Execute E stat rq (Some (new_response junk_rs)) (SetRecvTime m t); rs ← response; Some (m, rs)).
Proof.
  intros [c Hc]. unfold serve_request. unfold request_cmd in Hc. by destruct (command_of (command rq)) as [[]|].
Qed.

Lemma serve_events_sent t rqs n m :
  Forall (λ rq, is_Some (request_cmd (W := W) (seen rq) t)) rqs →
  serve_events shard_request stat junk_rs env t (map (λ rq, Delivered (seen rq)) rqs) m n
  = ('(m, outs) ← sent m (timed n (replicate (length rqs) t) rqs); Some (m, (n + length rqs)%nat, outs)).
Proof.
  revert n m. induction rqs as [|rq rqs IH]; intros n m Hrqs; cbn [map serve_events length replicate timed].
  { simpl. by rewrite Nat.add_0_r. }
  apply Forall_cons in Hrqs as [Hrq Hrqs]. rewrite serve_request_call by done. unfold sent. cbn [manager_run].
  destruct (manager_Execute _ _ _ _ _) as [[m1 [rs|]]|]; [| |done]; cbn [mbind option_bind].
  - rewrite IH by done. unfold sent. destruct (manager_run stat junk_rs m1 _) as [[m2 rss]|]; [|done]. cbn [mbind option_bind].
    unfold replies. simpl. destruct (mapM _ rss); [|done]. simpl. by rewrite Nat.add_succ_r.
  - destruct (manager_run stat junk_rs m1 _) as [[m2 rss]|]; done.
Qed.

(** Requests a client sends: their fields and frames fit, and the server takes each
    for one call on its key. *)
Definition client_requests (F : Z) rqs : Prop :=
  Forall (λ rq, request_fits rq = true ∧ blen (frame rq) ≤ F ∧ ∀ n t, keyed_request (W := W) (env n, t, seen rq)) rqs.

Lemma timed_keyed n ts rqs : Forall (λ rq, ∀ n t, keyed_request (W := W) (env n, t, seen rq)) rqs → Forall keyed_request (timed n ts rqs).
Proof.
  revert n rqs. induction ts as [|t ts IH]; intros n [|rq rqs] Hrqs; simpl; try constructor.
  - by apply Forall_cons in Hrqs as [Hrq _].
  - apply IH. by apply Forall_cons in Hrqs as [_ ?].
Qed.

(** The times of the messages of one piece, before those of the others. *)
Lemma times_cons (t : Z) (n n' : nat) (ts ts' : list Z) :
  length ts = n' → Forall (.∈ ts') ts → length (replicate n t ++ ts) = (n + n')%nat ∧ Forall (.∈ t :: ts') (replicate n t ++ ts).
Proof.
  intros <- Hin. rewrite length_app, length_replicate. split; [done|]. apply Forall_app.
  split; [apply Forall_replicate; left|]. eapply Forall_impl; [exact Hin|]. intros x Hx. by right.
Qed.

(** Pieces of the stream of frames, after some of it was consumed. *)
Lemma server_run_sent (F : Z) pieces : ∀ rqs m n p,
  client_requests F rqs → 0 < F < MAX_SIZE → Forall (λ tc, blen tc.2 ≤ MAX_SIZE - F) pieces →
  waits (H7 := request_msg junk_rq) rqs p (concat pieces.*2) →
  ∃ ts, length ts = length rqs ∧ Forall (.∈ pieces.*1) ts
    ∧ run (MkServer m p n) pieces
      = ('(m, outs) ← sent m (timed n ts rqs); Some (MkServer m [] (n + length rqs), outs)).
Proof.
  induction pieces as [|[t c] pieces IH]; intros rqs m n p Hrqs HF Hps Hw.
  { apply (waits_end (H7 := request_msg junk_rq)) in Hw as [-> ->]. exists []. split_and!; [done..|]. simpl. by rewrite Nat.add_0_r. }
  apply Forall_cons in Hps as [Hc Hps]. pose proof Hrqs as [Hfit [Hlen Hkey]%Forall_and]%Forall_and.
  destruct (on_message_waits (H7 := request_msg junk_rq) (MessageLaws0 := request_laws) F rqs p c (concat pieces.*2)) as (rqs1 & rqs2 & p' & -> & Hw' & Hon); [..|done|].
  { eapply Forall_impl; [exact (proj2 (Forall_and _ _) (conj Hfit Hlen))|]. intros rq [? ?]. split; [done|lia]. }
  { done. } { lia. } { simpl in Hc. lia. }
  apply Forall_app in Hkey as [Hkey _]. apply Forall_app in Hrqs as [_ Hrqs].
  change (on_message (H3 := request_msg junk_rq) (p ++ c) = Some (map (λ rq, Delivered (seen rq)) rqs1, p')) in Hon.
  cbn [server_run]. unfold on_piece. cbn [srv_buffer srv_manager srv_count]. rewrite Hon. cbn [mbind option_bind].
  rewrite (serve_events_sent t rqs1 n m).
  2: { eapply Forall_impl; [exact Hkey|]. intros rq Hk. destruct (Hk n t) as (_ & _ & d & Hd & _). by exists d. }
  destruct (sent m (timed n (replicate (length rqs1) t) rqs1)) as [[m1 outs]|] eqn:Es; cbn [mbind option_bind];
    [pose (m2 := m1)|pose (m2 := m)];
    destruct (IH rqs2 m2 (n + length rqs1)%nat p') as (ts & Hts & Hin & Hr); try done;
    exists (replicate (length rqs1) t ++ ts); rewrite (length_app rqs1 rqs2), timed_app by (by rewrite length_replicate);
    destruct (times_cons t (length rqs1) _ ts pieces.*1 Hts Hin) as [-> ?]; (split_and!; [done..|]); rewrite sent_app, Es; [|done].
  subst m2. rewrite Hr. cbn [mbind option_bind]. destruct (sent m1 _) as [[m2 outs2]|]; [|done]. simpl. by rewrite Nat.add_assoc.
Qed.

(** A frame that carries the response the code makes of a result of the reference. *)
Definition reply_of (out : bytes) (y : MmbpRequest * (KvdbSpec.out W + StatusCode)) : Prop :=
  ∃ rs, out = reply rs ∧ same_answer (W := W) junk_rs (Some rs) y.

Lemma replies_same rss ys : Forall2 (same_answer (W := W) junk_rs) rss ys → ∃ outs, replies rss = Some outs ∧ Forall2 reply_of outs ys.
Proof.
  intros Hs. unfold replies. induction Hs as [|x y xs ys Hxy Hs IH]; [by exists []|]. destruct IH as (outs & E & Ho).
  destruct Hxy as (o & Hr & ->). simpl. rewrite E. eexists. split; [done|]. constructor; [|done].
  eexists. split; [done|]. by exists o.
Qed.

(** C1: a client sends requests, each one call on its key, to a server that is not a
    shard server and has no replacement policy, and the network cuts the bytes into
    pieces in any way; the server, with any number of database instances, sends back one
    frame per request, in order, and these frames carry the results a single reference
    database gives to the calls, made at the times the pieces were received, each as the
    code puts it into the response for the command ([answer]: inverted for [DEL], a
    count that was not written for [LPOPFRONT] and [LPOPBACK]); and the server faults
    when that database does.  One call on its key: the fields the command needs are in
    the request, and the command is not [MGETS], [SRANDDELM], [RENAME], an operation on
    two sets, a command without a key, or [LAPPEND] while requests are logged; nor does
    the request carry a range, which is written by the unsigned encoder and read by the
    signed decoder.  Keys have no NUL byte, the fields fit their lengths on the wire, a frame and a piece
    together the limit of the codec (64 MB), and what the requests add stays below 2^61
    elements. *)
Theorem server_is_one_database (F : Z) (dist : bool) (threads : Z) m rqs pieces :
  0 < threads ≤ 2 ^ 30 → manager_new dist threads None = Some m →
  client_requests F rqs → 0 < F < MAX_SIZE → Forall (λ tc, blen tc.2 ≤ MAX_SIZE - F) pieces →
  concat pieces.*2 = concat (map frame rqs) → (∀ ts, requests_cost (W := W) (timed 0 ts rqs) ≤ max_elems) →
  ∃ ts, length ts = length rqs ∧ Forall (.∈ pieces.*1) ts
    ∧ option_Forall2 (Forall2 reply_of)
        (snd <$> run (MkServer m [] 0) pieces) (snd <$> ref_serve (ref_new (C := C) None) (timed 0 ts rqs)).
Proof.
  intros Ht Hm Hrqs HF Hps Hcat Hcost. pose proof Hrqs as [Hfit [Hlen Hkey]%Forall_and]%Forall_and.
  destruct (server_run_sent F pieces rqs m 0 []) as (ts & Hts & Hin & Hr); [done..| |].
  { rewrite Hcat. apply waits_start. eapply Forall_impl; [exact (proj2 (Forall_and _ _) (conj Hfit Hlen))|].
    intros rq [? ?]. split; [done|lia]. }
  exists ts. split_and!; [done..|]. rewrite Hr. unfold sent.
  pose proof (new_one_database 0 dist threads m Ht ltac:(lia) Hm) as Ho. specialize (Hcost ts).
  destruct (manager_run_one stat junk_rs 0 m _ (timed 0 ts rqs) Ho (timed_keyed 0 ts rqs Hkey) ltac:(lia) ltac:(lia))
    as [[m' rss] [a' rss'] [_ Hs]|]; [|constructor].
  cbn [mbind option_bind]. simpl in Hs. destruct (replies_same rss rss' Hs) as (outs & -> & Hout). by constructor.
Qed.
End end_to_end.
