(* ===== verification/ServerExamples.v ===== *)
(** * Concrete requests

    Messages, frames, managers and a server with the concrete hash function of
    [KvdbExamples] and the codec of [MmbpExamples]: what the theorems on the protocol,
    the storage layer and the server are applied to, and the runs that show their
    faults. *)

From Stdlib Require Import Ascii String.
From S2P Require Import Prelude Comparator AvlUtil AvlTree Dict HashTableBase HashTable TreeHashTable HashSet.
From S2P Require Import Dictionary Blist Cache ListCache Vset Kvdb KvdbSpec KvdbValues KvdbRefine KvdbCalls.
From S2P Require Import KvdbFacts KvdbErrors KvdbFrame KvdbExamples Mmbp MmbpCodec MmbpExamples.
From S2P Require Import Storage StorageFacts StorageRefine Server.

Module ServerExamples.
Import KvdbExamples MmbpExamples.
Open Scope string_scope.
Open Scope Z_scope.

#[local] Existing Instance HashString.
#[local] Existing Instance HashInt.
#[local] Existing Instance HashAddr.

(** Integer weights. *)
#[local] Instance int_bits : DoubleBits Z := {| int2double := λ x, x; double2u64 := λ x, x |}.

Definition junk : Z * Z * Z := (11, 12, 13).

Definition number_of (c : Command) : Z :=
  match list_find (c =.) commands with Some (i, _) => Z.of_nat i | None => COMMAND_NUM end.

(** A request with the fields its bits announce. *)
Definition request (c : Command) (bits : Z) (k v : string) (vs : list string) : MmbpRequest :=
  MkRequest bits (number_of c) k [] vs v [] 0 0 0.

(** Bit 0 is the key, bit 1 the value, bit 3 the values. *)
Definition set_a : MmbpRequest := request STR_SET 3 "a" "one" [].
Definition get_a : MmbpRequest := request STR_GET 1 "a" "" [].
Definition add_l : MmbpRequest := request LADD 9 "l" "" ["x"; "yz"].
Definition get_l : MmbpRequest := request LGETALL 1 "l" "" [].
Definition size_a : MmbpRequest := request LGETSIZE 1 "a" "" [].
Definition del_a : MmbpRequest := request DEL 1 "a" "" [].
Definition ttl_a : MmbpRequest := request TTL 1 "a" "" [].
Definition len_a : MmbpRequest := request STRLEN 1 "a" "" [].
Definition requests : list MmbpRequest := [set_a; get_a; add_l; get_l; size_a; len_a; ttl_a; del_a; del_a].

(** ** Frames *)

#[local] Instance rq_message : Message MmbpRequest := request_message junk.
#[local] Instance rq_laws : MessageLaws MmbpRequest := request_message_laws junk.

Definition stream : bytes := concat (map codec_SerializeTo requests).

(** The stream in pieces of five bytes. *)
Fixpoint cut (n : nat) (b : bytes) : list bytes :=
  match n with O => [b] | S n => take 5 b :: cut n (drop 5 b) end.
Definition pieces : list bytes := cut 16 stream.

Example stream_delivered :
  receive_all [] pieces = Some (map (λ r, Delivered (transmitted (new_request junk) r)) requests, []).
Proof. by vm_compute. Qed.

Lemma codec_reassembles_witness :
  concat pieces = stream ∧ receive_all [] pieces = Some (map (λ m, Delivered (msg_seen m)) requests, []).
Proof.
  split; [by vm_compute|]. apply (codec_reassembles requests pieces 100).
  - repeat (apply Forall_cons; split; [split; by vm_compute|]). apply Forall_nil. exact I.
  - by vm_compute.
  - apply Forall_forall. intros c Hc. assert (forallb (λ c, blen c <=? MAX_SIZE - 100) pieces = true) as Hb by (by vm_compute).
    rewrite forallb_forall in Hb. apply Z.leb_le, Hb. by apply list_elem_of_In.
  - by vm_compute.
Defined.

Lemma codec_delivers_verified_witness :
  let evs := [Delivered (transmitted (new_request junk) set_a)] in
  on_message (codec_SerializeTo set_a) = Some (evs, []) ∧ receives (codec_SerializeTo set_a) evs [].
Proof.
  intros evs. assert (on_message (codec_SerializeTo set_a) = Some (evs, [])) as Ho by (by vm_compute).
  split; [exact Ho|]. apply (codec_delivers_verified (codec_SerializeTo set_a) evs []); [exact msg_shrinks|exact Ho].
Defined.

(** A size header of 1. *)
Definition bad : bytes := [byte_of 1].

Lemma bad_is_bad : bad_header bad.
Proof. right. exists 1%nat, 1. by vm_compute. Qed.

Definition two : list bytes := [str_bytes "ab"; codec_SerializeTo set_a].

Lemma codec_bad_header_blocks_witness :
  bad_header bad ∧ ∃ es, length es = length two ∧ receive_all bad two = Some (map Error es, (bad ++ concat two)%list).
Proof. split; [exact bad_is_bad|]. apply (codec_bad_header_blocks bad two bad_is_bad). by vm_compute. Defined.

(** ** Managers *)

Abbreviation Manager := (DatabaseManager Z Lru_).


Definition four : Manager := MkManager LOCAL_MULTI_THREAD (replicate 4 (MkInstance new_db Unlocked)) 0 0.

Example four_is_new : manager_new false 3 None = Some four.
Proof. by vm_compute. Qed.

Lemma four_unlocked : all_unlocked (instances_ four).
Proof. by apply Forall_replicate. Qed.

Lemma four_power : power_of_2 (instances_ four).
Proof. exists 2. by vm_compute. Qed.

(** Requests at times 1, 2, ... *)
Fixpoint at_times (t : Z) (rqs : list MmbpRequest) : list (Env * Z * MmbpRequest) :=
  match rqs with [] => [] | rq :: rqs => (at_ t, t, rq) :: at_times (t + 1) rqs end.

Definition codes (x : option (Manager * list (option MmbpResponse))) : option (list (option Z)) :=
  match x with Some (_, rss) => Some (map (option_map status_code) rss) | None => None end.

Example four_answers :
  codes (manager_run "" 0 four (at_times 1 requests)) = Some [Some 0; Some 0; Some 0; Some 0; Some 6; Some 0; Some 2; Some 2; Some 0].
Proof. by vm_compute. Qed.

Ltac keyed_tac := split; [reflexivity|split; [by intros ?|eexists; split; [reflexivity|split; [by repeat split|reflexivity]]]].

Lemma requests_keyed : Forall (keyed_request (W := Z)) (at_times 1 requests).
Proof. repeat (apply Forall_cons; split; [keyed_tac|]). by apply Forall_nil. Qed.

Lemma manager_is_one_database_witness :
  is_Some (manager_run "" 0 four (at_times 1 requests))
  ∧ option_Forall2 (Forall2 (same_answer (W := Z) 0))
      (snd <$> manager_run "" 0 four (at_times 1 requests)) (snd <$> ref_serve (ref_new None) (at_times 1 requests)).
Proof.
  split; [eexists; by vm_compute|].
  apply (manager_is_one_database "" 0 false 3 four (at_times 1 requests)); [lia|exact four_is_new|exact requests_keyed|by vm_compute].
Defined.

(** *** Locks *)

Definition after_set_a : Manager := match manager_Execute (at_ 1) "" set_a None four with Some (m, _) => m | None => four end.

Lemma set_a_executed : manager_Execute (at_ 1) "" set_a None four = Some (after_set_a, None).
Proof. by vm_compute. Qed.

Lemma manager_releases_locks_witness :
  manager_Execute (at_ 1) "" set_a None four = Some (after_set_a, None) ∧ all_unlocked (instances_ after_set_a).
Proof.
  split; [exact set_a_executed|].
  apply (manager_releases_locks (at_ 1) "" set_a None four after_set_a None set_a_executed four_unlocked). by intros [? _].
Defined.

Definition mem_stat_a : MmbpRequest := request MEM_STAT 1 "a" "" [].

Lemma mem_stat_keeps_lock_witness :
  ∃ m', manager_Execute (at_ 1) "" mem_stat_a (Some (new_response 0)) four = Some (m', Some (invalid_request (new_response 0) "memorystat"))
    ∧ manager_Execute (at_ 1) "" set_a None m' = None.
Proof.
  destruct (mem_stat_keeps_lock (at_ 1) "" mem_stat_a (new_response 0) four four_unlocked four_power) as (m' & Hm & Hb); [by vm_compute..|].
  exists m'. split; [exact Hm|]. exact (Hb "" set_a None ltac:(reflexivity) ltac:(reflexivity) ltac:(reflexivity)).
Defined.

(** ** The server *)

Definition no_controller (rq : MmbpRequest) (m : Manager) (rs : MmbpResponse) : Manager * MmbpResponse := (m, rs).
Definition env_at (n : nat) : Env := at_ (Z.of_nat n).
Definition timed_pieces : list (Z * bytes) := map (λ c, (7, c)) pieces.

Definition served := server_run no_controller "" junk 0 env_at (MkServer four [] 0) timed_pieces.

Lemma requests_from_client : client_requests (W := Z) junk env_at 100 requests.
Proof. repeat (apply Forall_cons; split; [split; [reflexivity|split; [by vm_compute|intros n t; keyed_tac]]|]). by apply Forall_nil. Qed.

Lemma pieces_short : Forall (λ tc : Z * bytes, blen tc.2 ≤ MAX_SIZE - 100) timed_pieces.
Proof.
  apply Forall_forall. intros c Hc. assert (forallb (λ tc : Z * bytes, blen tc.2 <=? MAX_SIZE - 100) timed_pieces = true) as Hb by (by vm_compute).
  rewrite forallb_forall in Hb. apply Z.leb_le, Hb. by apply list_elem_of_In.
Qed.

Lemma requests_small ts : requests_cost (W := Z) (timed junk env_at 0 ts requests) ≤ max_elems.
Proof. destruct ts as [|? [|? [|? [|? [|? [|? [|? [|? [|? [|? ?]]]]]]]]]]; by vm_compute. Qed.

Lemma server_is_one_database_witness :
  (∃ s outs, served = Some (s, outs) ∧ length outs = 9%nat)
  ∧ ∃ ts, length ts = 9%nat ∧ Forall (.∈ timed_pieces.*1) ts
    ∧ option_Forall2 (Forall2 (reply_of (W := Z) 0)) (snd <$> served) (snd <$> ref_serve (ref_new (C := Lru_) None) (timed junk env_at 0 ts requests)).
Proof.
  split; [eexists _, _; split; by vm_compute|].
  apply (server_is_one_database no_controller "" junk 0 env_at 100 false 3 four requests timed_pieces).
  - lia.
  - exact four_is_new.
  - exact requests_from_client.
  - by vm_compute.
  - exact pieces_short.
  - by vm_compute.
  - exact requests_small.
Defined.

(** ** Commands that answer something else *)

Definition run_four (rqs : list MmbpRequest) := codes (manager_run "" 0 four (at_times 1 rqs)).

(** Deleting a key that is there is reported as "no such key", and the other way
    round. *)
Example delete_reports : run_four [set_a; del_a; del_a] = Some [Some 0; Some 2; Some 0].
Proof. by vm_compute. Qed.

(** Reading two fields of a map writes one of them. *)
Definition add_m : MmbpRequest := MkRequest 17 (number_of MADD) "m" [MkKeyValue "f" "1"; MkKeyValue "g" "2"] [] "" [] 0 0 0.
Definition gets_m : MmbpRequest := request MGETS 9 "m" "" ["f"; "g"].
Definition get_f : MmbpRequest := request MGET 3 "m" "f" [].
Example mgets_writes :
  match manager_run "" 0 four (at_times 1 [add_m; get_f; gets_m; get_f]) with
  | Some (_, rss) => map (option_map res_value) rss
  | None => []
  end = [Some ""; Some "1"; Some ""; Some "g"].
Proof. by vm_compute. Qed.

(** A count that is announced but was never set goes out. *)
Example ttl_sends_junk :
  match manager_run "" 4242 four (at_times 1 [ttl_a]) with
  | Some (_, [Some rs]) => Some (status_code rs, res_HasCount rs, res_count rs)
  | _ => None
  end = Some (2, true, 4242).
Proof. by vm_compute. Qed.

Definition after_add_m : DB := match MapAdd (at_ 1) "m" (req_kvs add_m) new_db with Some (db, _) => db | None => new_db end.

Lemma mgets_falls_through_witness :
  instance_Execute (at_ 2) gets_m (Some (new_response 0)) 2 after_add_m =
    match MapGets (at_ 2) "m" ["f"; "g"] after_add_m with
    | Some (db', r) =>
        '(db'', r') ← MapSet (at_ 2) "m" "f" "g" db';
        Some (db'', inl (Some (res_code (SET_XX_ELSE_CODE SET_OK_VALUES r (new_response 0)) (code_of r'))))
    | None => None
    end.
Proof.
  rewrite (mgets_falls_through (at_ 2) gets_m (new_response 0) 2 after_add_m ltac:(reflexivity) ltac:(reflexivity) ltac:(reflexivity)).
  reflexivity.
Defined.

Definition some_response : MmbpResponse := SET_OK_VALUES (new_response 5) ["p"; "qr"].

Lemma messages_round_trip_witness :
  request_ParseFrom (new_request junk) (request_SerializeTo add_l ++ str_bytes "rest")%list = Some (transmitted (new_request junk) add_l, str_bytes "rest")
  ∧ response_ParseFrom (new_response 6) (response_SerializeTo some_response ++ str_bytes "rest")%list = Some (res_transmitted (new_response 6) some_response, str_bytes "rest").
Proof. apply (messages_round_trip (new_request junk) add_l (new_response 6) some_response (str_bytes "rest")); by vm_compute. Defined.

(** An object that is read into twice without [Reset] keeps the old strings. *)
Definition dels_x : MmbpRequest := request DELS 8 "" "" ["x"].
Definition dels_y : MmbpRequest := request DELS 8 "" "" ["y"].
Example reused_object_appends :
  (match request_ParseFrom (new_request junk) (request_SerializeTo dels_x) with
   | Some (r, _) => match request_ParseFrom r (request_SerializeTo dels_y) with Some (r, _) => req_values r | None => [] end
   | None => []
   end) = ["xy"].
Proof. by vm_compute. Qed.

(** The ends of a range are written unsigned and read signed: with zigzag numbers
    [2, 5) is read as [1, -3). *)
Definition range_l : MmbpRequest := MkRequest 65 (number_of LGETRANGE) "l" [] [] "" [] 0 2 5.
Example range_read_signed :
  match request_ParseFrom (new_request junk) (request_SerializeTo range_l) with
  | Some (r, _) => Some (range_left r, range_right r)
  | None => None
  end = Some (1, -3).
Proof. by vm_compute. Qed.
End ServerExamples.
