(* ===== verification/Disk.v ===== *)
(** * The request log

    [mmkv/disk/file.h], [file.cc], [request_log.h], [request_log.cc], [recover.h],
    [recover.cc], the function [LogRequestToFile] of [mmkv/server/mmkv_server.cc] and
    the loop of [mmkv/app/rlog_dump.cc].

    A server with [log_method] [LM_REQUEST] appends the requests that write to a log;
    a thread writes the log to a file; when the server starts, it reads the file and
    executes the requests again.

    The log is a state machine: what the threads do to it, in any order, is a
    sequence of [LogEvent]s.  [FixedBuffer], [AppendFile] and the locks are kanon's: a
    block is its bytes, and appending more than it has room for is a fault ([None]).
    A file that is read is a C stream: the bytes after its position, its flags, and
    what will happen to the next calls of [fread]. *)

From Stdlib Require Import Ascii String.
From S2P Require Import Prelude Comparator AvlUtil AvlTree Dict HashTableBase HashTable TreeHashTable HashSet.
From S2P Require Import Dictionary Blist Cache ListCache Vset Kvdb KvdbSpec Mmbp MmbpCodec Storage.

(** Numbers of 16 bits in network byte order, the most significant byte first. *)
Class NetOrder16 := { to_net16 : Z → bytes; of_net16 : bytes → Z }.

Class NetOrder16Laws `{NetOrder16} := {
  to_net16_length x : length (to_net16 x) = 2%nat;
  of_net16_bytes a b : of_net16 [a; b] = 256 * Z.of_N (N_of_ascii a) + Z.of_N (N_of_ascii b);
}.

(** [BUFFER_SIZE], of the blocks of the log and of the reads of the file. *)
Definition BUFFER_SIZE : Z := 65536.

(** ** Files *)

Module File.

(** What happens to a call of [fread]: it completes, or it is interrupted by a signal
    or fails after some bytes. *)
Inductive FreadOutcome := Completed | Interrupted (n : nat) | Failed (n : nat).

Inductive Errno := EINTR | EIO.

#[export] Instance Errno_eq_dec : EqDecision Errno.
Proof. solve_decision. Defined.

(** [f_err] is the error flag of the stream, with [errno]. *)
Record FILE := MkFILE { f_rest : bytes; f_eof : bool; f_err : option Errno; f_next : list FreadOutcome }.

Definition fread (n : nat) (f : FILE) : bytes * FILE :=
  let '(MkFILE rest eof err next) := f in
  match next with
  | Interrupted k :: next => let k := (k `min` n)%nat in (take k rest, MkFILE (drop k rest) eof (Some EINTR) next)
  | Failed k :: next => let k := (k `min` n)%nat in (take k rest, MkFILE (drop k rest) eof (Some EIO) next)
  | _ => (take n rest, MkFILE (drop n rest) (eof || bool_decide (length rest < n)%nat) err (tail next))
  end.

(** The loop of [File::Read]: [buf] is what is in the buffer before [p]; [None] is the
    return value -1.  An interrupted call is made again with the same [p]. *)
Fixpoint read_loop (fuel : nat) (len : nat) (buf : bytes) (remaining : nat) (f : FILE) : option (option bytes * FILE) :=
  match fuel with
  | O => None
  | S fuel =>
      if bool_decide (remaining = 0)%nat then Some (Some buf, f)
      else
        let '(got, f) := fread remaining f in
        if bool_decide (length got < len)%nat then
          if f_eof f then Some (Some (buf ++ got), f)
          else if bool_decide (f_err f = Some EINTR) then read_loop fuel len buf remaining f
          else Some (None, f)
        else read_loop fuel len (buf ++ got) (remaining - length got)%nat f
  end.

Definition Read (len : nat) (f : FILE) : option (option bytes * FILE) := read_loop (length (f_next f) + 2) len [] len f.

(** The mode string of [File::Open]. *)
Definition open_mode (mode : Z) : string :=
  let has (bit : Z) := negb (Z.land mode bit =? 0) in
  (if has 2 then "r+"
   else if has 1 then (if has 8 then "a+" else if has 4 then "w+" else "r")
   else if has 8 then "a" else if has 4 then "w" else "") +:+ (if has 16 then "b" else "").

(** A file that is opened to be read. *)
Definition opened (contents : bytes) : FILE := MkFILE contents false None [].

Lemma length_take_lt (n : nat) (l : bytes) : (length (take n l) < n)%nat ↔ (length l < n)%nat.
Proof. rewrite length_take. lia. Qed.

(** A read that nothing interrupts. *)
Lemma read_completes (len : nat) f :
  (0 < len)%nat → Forall (.= Completed) (f_next f) →
  ∃ f', Read len f = Some (Some (take len (f_rest f)), f') ∧ f_rest f' = drop len (f_rest f) ∧ Forall (.= Completed) (f_next f').
Proof.
  destruct f as [rest eof err next]. intros Hlen Hn. simpl in Hn. unfold Read. rewrite Nat.add_comm. cbn [Nat.add read_loop].
  rewrite bool_decide_eq_false_2 by lia.
  assert (fread len (MkFILE rest eof err next)
    = (take len rest, MkFILE (drop len rest) (eof || bool_decide (length rest < len)%nat) err (tail next))) as ->.
  { destruct Hn as [|? ? ->]; done. }
  assert (Forall (.= Completed) (tail next)) by (by destruct Hn).
  cbn [f_eof]. case_bool_decide as H1.
  - rewrite (bool_decide_eq_true_2 (length rest < len)%nat) by (by apply length_take_lt). rewrite orb_true_r. eauto.
  - rewrite length_take in H1. rewrite length_take, (bool_decide_eq_true_2 (len - _ = 0)%nat) by lia. eauto.
Qed.
End File.

(** ** The log *)

Module RequestLog.

(** Where the thread of the log is: it has not started, it is before its critical
    section, it writes the blocks it took, it has ended. *)
Inductive IoThread := NotStarted | Collecting | Writing (blks : list bytes) | Ended.

Record RequestLog := MkLog {
  cur_blk_ : bytes;
  blks_ : list bytes;
  running_ : bool;
  io_thread_ : IoThread;
  file_ : bytes;
}.

Definition new_log (file : bytes) : RequestLog := MkLog [] [] false NotStarted file.

Definition avali (blk : bytes) : Z := BUFFER_SIZE - blen blk.

(** [FixedBuffer::Append]. *)
Definition block_append (blk data : bytes) : option bytes := if blen data <=? avali blk then Some (blk ++ data) else None.

(** [RequestLog::Append]. *)
Definition Append (data : bytes) (l : RequestLog) : option RequestLog :=
  if blen data <=? avali (cur_blk_ l) then
    b ← block_append (cur_blk_ l) data;
    Some (MkLog b (blks_ l) (running_ l) (io_thread_ l) (file_ l))
  else
    let writable := Z.to_nat (avali (cur_blk_ l)) in
    b ← block_append (cur_blk_ l) (take writable data);
    b' ← block_append [] (drop writable data);
    Some (MkLog b' (blks_ l ++ [b]) (running_ l) (io_thread_ l) (file_ l)).

(** What the threads do: a request is appended; the thread starts; it takes the
    blocks, or finds that it shall end; it writes and flushes what it took; the log
    is stopped. *)
Inductive LogEvent := EAppend (data : bytes) | EStart | ECollect | EWrite | EStop.

Definition log_step (e : LogEvent) (l : RequestLog) : option RequestLog :=
  let '(MkLog cur blks running io file) := l in
  match e, io with
  | EAppend data, _ => Append data l
  | EStart, NotStarted => Some (MkLog cur blks true Collecting file)
  | ECollect, Collecting => Some (if running then MkLog [] [] running (Writing (blks ++ [cur])) file else MkLog cur blks running Ended file)
  | EWrite, Writing taken => Some (MkLog cur blks running Collecting (file ++ concat taken))
  | EStop, _ => Some (MkLog cur blks false io file)
  | _, _ => None
  end.

Fixpoint log_run (es : list LogEvent) (l : RequestLog) : option RequestLog :=
  match es with [] => Some l | e :: es => l ← log_step e l; log_run es l end.

(** The bytes that were appended. *)
Definition appended (es : list LogEvent) : bytes := concat (map (λ e, match e with EAppend data => data | _ => [] end) es).

(** All bytes of the log, in order. *)
Definition taken (io : IoThread) : bytes := match io with Writing blks => concat blks | _ => [] end.
Definition contents (l : RequestLog) : bytes := file_ l ++ taken (io_thread_ l) ++ concat (blks_ l) ++ cur_blk_ l.

(** Blocks are not overfull. *)
Definition blocks_ok (l : RequestLog) : Prop := blen (cur_blk_ l) ≤ BUFFER_SIZE.

Lemma Append_contents data l :
  blocks_ok l → blen data ≤ BUFFER_SIZE → ∃ l', Append data l = Some l' ∧ blocks_ok l' ∧ contents l' = contents l ++ data.
Proof.
  unfold blocks_ok, Append, avali, block_append. intros Hok Hd. destruct (Z.leb_spec (blen data) (BUFFER_SIZE - blen (cur_blk_ l))) as [Hle|Hlt].
  - simpl. destruct (Z.leb_spec (blen data) (avali (cur_blk_ l))); unfold avali in *; [|lia]. eexists. split; [done|]. simpl.
    rewrite blen_app. split; [lia|]. unfold contents. simpl. by rewrite <-!app_assoc.
  - set (w := Z.to_nat (BUFFER_SIZE - blen (cur_blk_ l))). unfold avali.
    assert (blen (take w data) = BUFFER_SIZE - blen (cur_blk_ l)) as Ht by (unfold blen in *; rewrite length_take; lia).
    assert (blen (drop w data) ≤ BUFFER_SIZE) as Hdr by (unfold blen in *; rewrite length_drop; lia).
    destruct (Z.leb_spec (blen (take w data)) (BUFFER_SIZE - blen (cur_blk_ l))); [|lia].
    change (blen []) with 0. destruct (Z.leb_spec (blen (drop w data)) (BUFFER_SIZE - 0)); [|lia]. eexists. split; [done|]. simpl.
    split; [done|]. unfold contents. simpl. rewrite concat_app. simpl. rewrite app_nil_r, <-!app_assoc, take_drop. done.
Qed.

(** The records that are appended fit a block. *)
Definition records_fit (es : list LogEvent) : Prop := Forall (λ e, match e with EAppend data => blen data ≤ BUFFER_SIZE | _ => True end) es.

Lemma step_contents e l l' :
  log_step e l = Some l' → blocks_ok l → records_fit [e] → blocks_ok l' ∧ contents l' = contents l ++ appended [e].
Proof.
  intros Hs Hok [He _]%Forall_cons. destruct l as [cur blks running io file]. unfold appended. simpl. rewrite app_nil_r.
  destruct e as [data| | | |].
  { destruct (Append_contents data (MkLog cur blks running io file) Hok He) as (l2 & E & ? & ?). simpl in Hs. rewrite E in Hs. by injection Hs as <-. }
  all: rewrite ?app_nil_r; destruct io as [| |tk|]; try done; simpl in Hs; try (destruct running); injection Hs as <-;
    unfold blocks_ok, contents in *; simpl in *; try (split; [done|]); rewrite ?concat_app, <-?app_assoc; simpl; rewrite ?app_nil_r; done.
Qed.

Lemma run_contents es l l' :
  log_run es l = Some l' → blocks_ok l → records_fit es → blocks_ok l' ∧ contents l' = contents l ++ appended es.
Proof.
  revert l. induction es as [|e es IH]; intros l Hr Hok Hf; simpl in Hr.
  { injection Hr as <-. unfold appended. simpl. by rewrite app_nil_r. }
  destruct (log_step e l) as [l1|] eqn:Hs; [|done]. apply Forall_cons in Hf as [He Hf].
  destruct (step_contents e l l1 Hs Hok) as [Hok1 E1]; [by constructor|]. destruct (IH l1 Hr Hok1 Hf) as [Hok2 E2].
  split; [done|]. rewrite E2, E1. unfold appended. simpl. by rewrite app_nil_r, <-app_assoc.
Qed.

(** C12: whatever the order in which requests are appended (each of at most 64 KiB) and
    the thread of the log takes and writes blocks, the file, the blocks that are being
    written, the full blocks and the current block hold, in this order, exactly the
    bytes that were appended, in order. *)
Theorem request_log_in_order (file : bytes) es l :
  log_run es (new_log file) = Some l → records_fit es → contents l = file ++ appended es.
Proof.
  intros Hr Hf. assert (blocks_ok (new_log file)) as H0 by (unfold blocks_ok; done).
  destruct (run_contents es _ l Hr H0 Hf) as [_ ->]. unfold contents. simpl. by rewrite !app_nil_r.
Qed.

Lemma flush_writes l :
  running_ l = true → io_thread_ l = Collecting →
  ∃ l', log_run [ECollect; EWrite] l = Some l' ∧ file_ l' = contents l ∧ cur_blk_ l' = [] ∧ blks_ l' = [] ∧ io_thread_ l' = Collecting ∧ running_ l' = true.
Proof.
  destruct l as [cur blks running io file]. simpl. intros -> ->. simpl. eexists. split; [done|]. simpl. split_and!; try done.
  unfold contents. simpl. by rewrite concat_app; simpl; rewrite app_nil_r.
Qed.

(** When the thread of a running log makes a round in which nothing is appended,
    everything appended so far is in the file. *)
Theorem request_log_flushes (file : bytes) es l :
  log_run es (new_log file) = Some l → records_fit es → running_ l = true → io_thread_ l = Collecting →
  ∃ l', log_run (es ++ [ECollect; EWrite]) (new_log file) = Some l' ∧ file_ l' = file ++ appended es.
Proof.
  intros Hr Hf Hrun Hio. destruct (flush_writes l Hrun Hio) as (l' & E & Hfile & _). exists l'. split.
  - clear -Hr E. revert Hr. generalize (new_log file). induction es as [|e es IH]; intros l0; cbn [app log_run].
    + by intros [= ->].
    + destruct (log_step e l0); [|done]. simpl. apply IH.
  - assert (blocks_ok (new_log file)) as H0 by (unfold blocks_ok; done). rewrite Hfile.
    destruct (run_contents es _ l Hr H0 Hf) as [_ ->]. unfold contents. simpl. by rewrite !app_nil_r.
Qed.
End RequestLog.

(** ** Logging requests *)

Section logging.
Context `{Kvarint, NetOrder, NetOrder16}.
Implicit Types (b : bytes) (l : RequestLog.RequestLog) (E : Env).

(** The size and the bytes of a message, as [AppendDel] writes them to the log. *)
Definition record_of (rq : MmbpRequest) : bytes := let b := request_SerializeTo rq in to_net32 (blen b) ++ b.

(** [RequestLog::AppendDel]. *)
Definition log_AppendDel (junk : Z * Z * Z) (key : string) l : option RequestLog.RequestLog :=
  let rq := new_request junk in
  let rq := set_bits rq (SetBit (req_bits rq) 0) in
  RequestLog.Append (record_of (set_command (set_key rq key) 63)) l.

(** [memcpy(buffer.GetReadBegin() + off, data, ...)]. *)
Definition overwrite b (off : nat) (data : bytes) : bytes := take off b ++ data ++ drop (off + length data) b.

(** The expiration time that is logged, and sent on to [ParseFrom]: milliseconds since
    the epoch; [None] for a command that is logged as it is. *)
Definition logged_expiration (cmd recv_time exp : Z) : option Z :=
  match command_of cmd with
  | Some EXPIRE_AT => Some (u64 (1000 * exp))
  | Some EXPIRE_AFTER => Some (u64 (1000 * exp + recv_time))
  | Some EXPIREM_AFTER => Some (u64 (exp + recv_time))
  | _ => None
  end.

(** [LogRequestToFile]: the buffer, and the log.  The expiration time of a request that
    is too short to have one is not used unless its command needs it. *)
Definition LogRequestToFile E (recv_time : Z) (request_len : Z) (x : bytes * RequestLog.RequestLog) :
    option (bytes * RequestLog.RequestLog) :=
  let '(b, l) := x in
  if IsExpirationDisable E then Some (b, l)
  else if blen b <? 2 then None
  else
    let cmd := of_net16 (take 2 b) in
    match GetCommandType cmd with
    | CT_WRITE =>
        l ← RequestLog.Append (to_net32 request_len) l;
        if blen b <? 8 then None
        else
          let off := Z.to_nat (request_len - 8) in
          b ← match logged_expiration cmd recv_time (of_net64 (take 8 (drop off b))) with
              | Some exp =>
                  if request_len <? 8 then None
                  else Some (overwrite (overwrite b 0 (to_net16 58)) off (to_net64 exp))
              | None => Some b
              end;
          l ← RequestLog.Append (take (Z.to_nat request_len) b) l;
          Some (b, l)
    | _ => Some (b, l)
    end.
End logging.

(** ** Reading the log *)

Section reading.
Context `{Kvarint, NetOrder}.
Context {S : Type}.

(** What is done with the n-th request: [Recover::ParseFromRequest] executes it,
    [rlog_dump] prints it.  In both the request must be one that writes. *)
Context (handle : nat → MmbpRequest → S → option S).

(** The space [GetWritableSize()] of the n-th read of the file. *)
Context (writable : nat → nat).

Definition handle_write (n : nat) (rq : MmbpRequest) (s : S) : option S :=
  s ← handle n rq s;
  match GetCommandType (command rq) with CT_WRITE => Some s | _ => None end.

(** The inner loop: the requests in the buffer, all parsed into one object. *)
Fixpoint parse_records (fuel : nat) (n : nat) (b : bytes) (rq : MmbpRequest) (s : S) : option (nat * bytes * MmbpRequest * S) :=
  match fuel with
  | O => None
  | Datatypes.S fuel =>
      if blen b <? 4 then Some (n, b, rq, s)
      else
        let size := of_net32 (take 4 b) in
        let b := drop 4 b in
        if u64 (size - 4) <=? blen b then
          '(rq, b) ← request_ParseFrom rq b;
          s ← handle_write n rq s;
          parse_records fuel (Datatypes.S n) b rq s
        else Some (n, b, rq, s)
  end.

(** The outer loop; [i] counts the reads. *)
Fixpoint read_log_loop (fuel : nat) (i n : nat) (b : bytes) (rq : MmbpRequest) (f : File.FILE) (s : S) : option S :=
  match fuel with
  | O => None
  | Datatypes.S fuel =>
      '(got, f) ← File.Read (writable i) f;
      match got with
      | None => Some s
      | Some got =>
          '(n, b, rq, s) ← parse_records (Datatypes.S (length (b ++ got))) n (b ++ got) rq s;
          if blen got <? BUFFER_SIZE then Some s else read_log_loop fuel (Datatypes.S i) n b rq f s
      end
  end.

Definition read_log (junk : Z * Z * Z) (f : File.FILE) (s : S) : option S :=
  read_log_loop (Datatypes.S (length (File.f_rest f))) 0 0 [] (new_request junk) f s.
End reading.

(** [Recover::ParseFromRequest]; [env] is the configuration and clock at the n-th
    request. *)
Section recover.
Context {W C : Type} `{Comparator W} `{!CacheInterface C addr}
  `{HS : !HashFunc string} `{HA : !HashFunc addr} `{HZ : !HashFunc Z} `{DB : !DoubleBits W} `{XXHash, Kvarint, NetOrder}.
Context (stat : string) (env : nat → Env).

Definition recover_request (n : nat) (rq : MmbpRequest) (m : DatabaseManager W C) : option (DatabaseManager W C) :=
  fst <$> manager_Execute (env n) stat rq None m.

Definition ParseFromRequest (writable : nat → nat) (junk : Z * Z * Z) (f : File.FILE) (m : DatabaseManager W C) :
    option (DatabaseManager W C) :=
  read_log recover_request writable junk f m.
End recover.

(** The loop of [rlog_dump]: [request_num], and the requests given to [PrintRequest]. *)
Definition dump_request (_ : nat) (rq : MmbpRequest) (x : nat * list MmbpRequest) : option (nat * list MmbpRequest) :=
  let '(request_num, printed) := x in Some (S request_num, printed ++ [rq]).

Definition rlog_dump `{Kvarint, NetOrder} (writable : nat → nat) (junk : Z * Z * Z) (f : File.FILE) : option (nat * list MmbpRequest) :=
  read_log dump_request writable junk f (0%nat, []).
