(* ===== verification/Recovery.v ===== *)
(** * What recovery restores

    A log that is read back in one piece replays its requests: the database that is
    recovered answers as the one reference database that executed them.  And where the
    log and its reader go wrong: what is never logged, what a reused request object
    does to lists, what happens at the end of a read. *)

From Stdlib Require Import Ascii String.
From S2P Require Import Prelude Comparator AvlUtil AvlTree Dict HashTableBase HashTable TreeHashTable HashSet.
From S2P Require Import Dictionary Blist Cache ListCache Vset Kvdb KvdbSpec KvdbValues KvdbRefine KvdbCalls.
From S2P Require Import KvdbFacts KvdbErrors KvdbFrame Mmbp MmbpCodec Storage StorageFacts StorageRefine Disk.

Section replay.
Context `{Kvarint, !KvarintLaws, NetOrder, !NetOrderLaws}.
Context {S : Type} (handle : nat → MmbpRequest → S → option S) (writable : nat → nat).
Implicit Types (rq r : MmbpRequest) (s : S).

(** A request without lists, and long enough for the test on its size. *)
Definition scalar rq : bool := negb (HasValues rq || HasKvs rq || HasVmembers rq).

Definition replayable rq : Prop := request_fits rq = true ∧ scalar rq = true ∧ 4 ≤ blen (request_SerializeTo rq) < 2 ^ 32.

(** The requests as the one object sees them that they are parsed into. *)
Fixpoint seen_from r0 (rqs : list MmbpRequest) : list MmbpRequest :=
  match rqs with [] => [] | rq :: rqs => let r := transmitted r0 rq in r :: seen_from r rqs end.

(** Requests handled one after the other. *)
Fixpoint handle_all (n : nat) (rqs : list MmbpRequest) s : option S :=
  match rqs with [] => Some s | rq :: rqs => s ← handle_write handle n rq s; handle_all (Datatypes.S n) rqs s end.

Lemma transmitted_empty r0 rq : scalar rq = true → request_empty r0 → request_empty (transmitted r0 rq).
Proof.
  unfold scalar, transmitted, request_empty. intros Hs (E1 & E2 & E3).
  destruct (HasValues rq), (HasKvs rq), (HasVmembers rq); try done.
  destruct (HasKey rq), (HasValue rq), (HasCount rq), (HasExpireTime rq); done.
Qed.

(** One record at the front of the buffer. *)
Lemma record_front fuel n rq rq' r s rest :
  4 ≤ blen (request_SerializeTo rq) < 2 ^ 32 → request_ParseFrom r (request_SerializeTo rq ++ rest) = Some (rq', rest) →
  parse_records handle (Datatypes.S fuel) n (record_of rq ++ rest) r s
  = (s ← handle_write handle n rq' s; parse_records handle fuel (Datatypes.S n) rest rq' s).
Proof.
  intros Hlen Hp. cbn [parse_records]. unfold record_of. rewrite <-app_assoc.
  destruct (Z.ltb_spec (blen (to_net32 (blen (request_SerializeTo rq)) ++ request_SerializeTo rq ++ rest)) 4) as [Hlt|_].
  { unfold blen in Hlt. rewrite length_app, to_net32_length in Hlt. lia. }
  rewrite take_app_length', drop_app_length' by (by rewrite to_net32_length). rewrite of_to_net32, u64_small by lia.
  destruct (Z.leb_spec (blen (request_SerializeTo rq) - 4) (blen (request_SerializeTo rq ++ rest))) as [_|Hgt]; [by rewrite Hp|].
  unfold blen in Hgt. rewrite length_app in Hgt. lia.
Qed.

Lemma parse_record fuel n rq r0 s rest :
  replayable rq → request_empty r0 →
  parse_records handle (Datatypes.S fuel) n (record_of rq ++ rest) r0 s
  = (s ← handle_write handle n (transmitted r0 rq) s; parse_records handle fuel (Datatypes.S n) rest (transmitted r0 rq) s).
Proof. intros (Hf & Hs & Hlen) He. apply record_front; [done|]. by apply request_reads_back. Qed.

Definition last_seen r0 (rqs : list MmbpRequest) : MmbpRequest := default r0 (last (seen_from r0 rqs)).

Lemma last_seen_cons r0 rq rqs : last_seen r0 (rq :: rqs) = last_seen (transmitted r0 rq) rqs.
Proof. unfold last_seen. cbn [seen_from]. rewrite last_cons. by destruct (last (seen_from (transmitted r0 rq) rqs)). Qed.

Lemma parse_records_replay fuel n rqs r0 s rest :
  Forall replayable rqs → request_empty r0 → (length rqs ≤ fuel)%nat →
  parse_records handle fuel n (concat (map record_of rqs) ++ rest) r0 s
  = (s ← handle_all n (seen_from r0 rqs) s; parse_records handle (fuel - length rqs) (n + length rqs) rest (last_seen r0 rqs) s).
Proof.
  revert fuel n r0 s. induction rqs as [|rq rqs IH]; intros fuel n r0 s Hrqs He Hfuel; simpl.
  { rewrite Nat.sub_0_r, Nat.add_0_r. done. }
  apply Forall_cons in Hrqs as [Hrq Hrqs]. destruct fuel as [|fuel]; simpl in Hfuel; [lia|]. rewrite <-app_assoc, parse_record by done.
  destruct (handle_write handle n (transmitted r0 rq) s) as [s1|]; [|done]. cbn [mbind option_bind].
  rewrite IH; [|done|by apply transmitted_empty; [apply Hrq|]|lia]. rewrite last_seen_cons, Nat.add_succ_r. done.
Qed.

Lemma records_length rqs : (length rqs ≤ length (concat (map record_of rqs)))%nat.
Proof.
  induction rqs as [|rq rqs IH]; simpl; [done|]. unfold record_of at 1. rewrite !length_app, to_net32_length. lia.
Qed.

Lemma parse_end fuel n r0 s b : blen b < 4 → parse_records handle (Datatypes.S fuel) n b r0 s = Some (n, b, r0, s).
Proof. intros Hb. cbn [parse_records]. by destruct (Z.ltb_spec (blen b) 4); [|lia]. Qed.

(** A log that the first read takes whole. *)
Lemma read_log_replay junk rqs s :
  (∀ i, BUFFER_SIZE ≤ Z.of_nat (writable i)) → Forall replayable rqs → blen (concat (map record_of rqs)) ≤ BUFFER_SIZE →
  read_log handle writable junk (File.opened (concat (map record_of rqs))) s = handle_all 0 (seen_from (new_request junk) rqs) s.
Proof.
  intros Hw Hrqs Hlen. set (b := concat (map record_of rqs)) in *. unfold read_log. cbn [File.opened File.f_rest].
  assert (request_empty (new_request junk)) as He by (destruct junk as [[? ?] ?]; done). unfold BUFFER_SIZE, blen in *.
  cbn [read_log_loop]. pose proof (Hw 0%nat) as Hw0.
  destruct (File.read_completes (writable 0) (File.opened b)) as (f & -> & Hf & Hn); [lia|by constructor|]. cbn [mbind option_bind].
  cbn [File.opened File.f_rest] in *. rewrite take_ge, drop_ge in * by lia. cbn [app].
  pose proof (parse_records_replay (Datatypes.S (length b)) 0 rqs (new_request junk) s []) as Hp.
  rewrite app_nil_r in Hp. fold b in Hp. pose proof (records_length rqs) as Hl. fold b in Hl. rewrite Hp by (done || lia). clear Hp.
  replace (Datatypes.S (length b) - length rqs)%nat with (Datatypes.S (length b - length rqs)) by lia.
  destruct (handle_all 0 _ s) as [s1|]; [|done]. cbn [mbind option_bind]. rewrite parse_end by done. cbn [mbind option_bind].
  destruct (Z.ltb_spec (blen b) BUFFER_SIZE) as [|Hge]; [done|]. unfold BUFFER_SIZE, blen in Hge.
  destruct (length b) as [|k] eqn:Eb; [lia|]. cbn [read_log_loop]. pose proof (Hw 1%nat).
  destruct (File.read_completes (writable 1) f) as (f' & -> & _ & _); [lia|done|]. cbn [mbind option_bind]. rewrite Hf, take_nil.
  cbn [app length]. by rewrite parse_end.
Qed.
End replay.

(** ** The printed log *)

Section dump.
Context `{Kvarint, !KvarintLaws, NetOrder, !NetOrderLaws}.

Lemma dump_all (rqs : list MmbpRequest) : ∀ n k printed,
  Forall (λ rq, GetCommandType (command rq) = CT_WRITE) rqs →
  handle_all dump_request n rqs (k, printed) = Some ((k + length rqs)%nat, printed ++ rqs).
Proof.
  induction rqs as [|rq rqs IH]; intros n k printed Hw; simpl. { by rewrite Nat.add_0_r, app_nil_r. }
  apply Forall_cons in Hw as [Hrq Hw]. unfold handle_write. simpl. rewrite Hrq. simpl.
  rewrite IH by done. by rewrite Nat.add_succ_r, <-app_assoc.
Qed.

Lemma seen_commands (rqs : list MmbpRequest) : ∀ r, map command (seen_from r rqs) = map command rqs.
Proof.
  induction rqs as [|rq rqs IH]; intros r; simpl; [done|]. f_equal; [|apply IH].
  unfold transmitted. destruct (HasKey rq), (HasValue rq), (HasValues rq), (HasKvs rq), (HasCount rq), (HasVmembers rq), (HasExpireTime rq); done.
Qed.

(** The dump of a log that holds requests (writes without lists, together at most 64
    KiB) prints each of them once, in order, with the fields it was logged with, counts
    them, and ends. *)
Theorem rlog_dump_prints (writable : nat → nat) junk (rqs : list MmbpRequest) :
  (∀ i, BUFFER_SIZE ≤ Z.of_nat (writable i)) → Forall replayable rqs → blen (concat (map record_of rqs)) ≤ BUFFER_SIZE →
  Forall (λ rq, GetCommandType (command rq) = CT_WRITE) rqs →
  rlog_dump writable junk (File.opened (concat (map record_of rqs))) = Some (length rqs, seen_from (new_request junk) rqs).
Proof.
  intros Hw Hrqs Hlen Hcmd. unfold rlog_dump. rewrite read_log_replay by done. rewrite dump_all; simpl.
  - f_equal. f_equal. rewrite <-(length_map command), seen_commands. apply length_map.
  - apply (Forall_map command (λ c, GetCommandType c = CT_WRITE)). rewrite seen_commands. by apply Forall_map.
Qed.
End dump.

(** ** The recovered database *)

Section recovered.
Context {W C : Type} `{Comparator W} `{!CacheInterface C addr}
  `{HS : !HashFunc string} `{HA : !HashFunc addr} `{HZ : !HashFunc Z} `{DB : !DoubleBits W}.
Context `{Kvarint, !KvarintLaws, NetOrder, !NetOrderLaws, XXHash}.
Context (stat : string) (junk_rq : Z * Z * Z) (junk : Z) (env : nat → Env) (writable : nat → nat).
Implicit Types (rq : MmbpRequest) (m : DatabaseManager W C) (a : ADb W C).

(** Without a response, the call is the same. *)
Lemma silent_only_code {A} (f : M (MmkvDb W C) A) db :
  only_code None f db = ('(db, _) ← done (W := W) f db; Some (db, inl None)).
Proof. unfold only_code, attempt, done, mbind, M_bind, option_bind, mret, M_ret. by destruct (f db) as [[db' [x|c]]|]. Qed.

Lemma silent_if_response {A} (f : M (MmkvDb W C) A) (g : A → out W) xx db :
  if_response None f xx db = ('(db, _) ← ok_ g f db; Some (db, inl None)).
Proof. unfold if_response, attempt, ok_, mbind, M_bind, option_bind, mret, M_ret. by destruct (f db) as [[db' [x|c]]|]. Qed.

Lemma silent_delete (E : Env) k (g : () + StatusCode → MmbpResponse → MmbpResponse) (db : MmkvDb W C) :
  (r ← attempt (Delete E k); mret (g r <$> None)) db = ('(db, _) ← run_cmd (W := W) E (CDelete k) db; Some (db, inl None)).
Proof. unfold run_cmd, attempt, done, mbind, M_bind, option_bind, mret, M_ret. by destruct (Delete E k db) as [[db' [x|c]]|]. Qed.

Lemma silent_execute (E : Env) rq (t : Z) (c : cmd W) (db : MmkvDb W C) :
  request_cmd rq t = Some c → GetCommandType (command rq) = CT_WRITE →
  instance_Execute E rq None t db = ('(db, _) ← run_cmd E c db; Some (db, inl None)).
Proof.
  unfold request_cmd, instance_Execute, GetCommandType, execute_string, execute_list, execute_vset, execute_map, execute_set, execute_common.
  destruct (command_of (command rq)) as [[]|]; try done;
    try (intros (_ & _ & ->)%needs_Some _; cbv zeta; cbn [CHECK_INVALID_REQUEST run_cmd];
         first [by rewrite silent_only_code | by erewrite silent_if_response | by apply silent_if_response | apply silent_delete]; fail).
  destruct (req_values rq) as [|f [|v l]] eqn:Hv; try done. intros (_ & _ & ->)%needs_Some _.
  unfold execute_MSET. rewrite Hv. by apply silent_only_code.
Qed.

Lemma silent_call (E : Env) rq rs (c : cmd W) m inst :
  request_cmd rq (recv_time_ m) = Some c → GetCommandType (command rq) = CT_WRITE →
  instances_ m !! key_index m (req_key rq) = Some inst → inst_lock inst = Unlocked →
  fst <$> manager_Execute E stat rq None m = fst <$> manager_Execute E stat rq (Some rs) m.
Proof.
  intros Hc Hw Hi Hu. rewrite (manager_call stat E rq rs c m inst Hc Hi Hu). unfold manager_Execute.
  rewrite (request_cmd_HasKey _ _ _ Hc), Hw. set (i := key_index m (req_key rq)) in *. pose proof (lookup_lt_Some _ _ _ Hi).
  rewrite (on_lock_at i WLock _ inst WLocked) by (done || by rewrite Hu). cbn [mbind option_bind].
  destruct (request_cmd_plain stat _ _ _ Hc) as [_ ->]. cbn [with_instances instances_ recv_time_].
  rewrite (on_instance_at _ _ _ (MkInstance (inst_db inst) WLocked)) by (by apply list_lookup_insert_eq). cbn [inst_db inst_lock].
  rewrite (silent_execute E rq _ c _ Hc Hw). destruct (run_cmd E c (inst_db inst)) as [[db r]|]; [|done]. cbn [mbind option_bind].
  rewrite list_insert_insert_eq. erewrite (on_lock_at i WUnlock) by (by rewrite ?list_lookup_insert_eq). cbn [mbind option_bind].
  by rewrite list_insert_insert_eq.
Qed.

Lemma manager_recv_time (E : Env) rq response m m' response' :
  manager_Execute E stat rq response m = Some (m', response') → recv_time_ m' = recv_time_ m.
Proof.
  unfold manager_Execute. intros Hx.
  match type of Hx with mbind _ ?e = _ => destruct e as [ins|]; [|done] end. simpl in Hx.
  destruct (execute_switch _ _ _ _ _ _) as [[[ins2 rs2] b]|]; [|done]. simpl in Hx.
  match type of Hx with mbind _ ?e = _ => destruct e as [ins3|]; [|done] end. by injection Hx as <- _.
Qed.

(** The requests of a log, at the times and with the configuration they are executed
    again. *)
Fixpoint at_start (n : nat) (rqs : list MmbpRequest) : list (Env * Z * MmbpRequest) :=
  match rqs with [] => [] | rq :: rqs => (env n, 0, rq) :: at_start (S n) rqs end.

Definition logged_write rq : Prop := GetCommandType (command rq) = CT_WRITE ∧ ∀ n, keyed_request (W := W) (env n, 0, rq).

Lemma recover_one k n m a rq :
  one_database n m a → recv_time_ m = 0 → logged_write rq → 0 ≤ n → n + request_cost (W := W) (env k, 0, rq) ≤ max_elems →
  option_Forall2 (λ m' y, one_database (n + request_cost (W := W) (env k, 0, rq)) m' y.1 ∧ recv_time_ m' = 0)
    (handle_write (recover_request stat env) k rq m) (c ← request_cmd rq 0; ref_cmd (env k) c a).
Proof.
  intros Ho Ht [Hw Hk] Hn Hc. destruct (Hk k) as (Hs & HE & c & Hcmd & Hok & Hkey).
  assert (request_cost (W := W) (env k, 0, rq) = cmd_cost c) as Hrc by (unfold request_cost; by rewrite Hcmd). rewrite Hrc in *.
  pose proof (one_step stat junk n m a (env k) 0 rq c Ho Hs HE Hcmd Hok Hkey Hn Hc) as Hst.
  assert (SetRecvTime m 0 = m) as Em by (destruct m; simpl in *; by subst). rewrite Em in Hst.
  destruct Ho as (Hp & Hu & _ & refs & Hrefs & Hag). destruct (Hag (req_key rq)) as (r0 & Hr0 & _).
  destruct (Forall2_lookup_r _ _ _ _ _ Hrefs Hr0) as (inst & Hi & _).
  assert (inst_lock inst = Unlocked) as Hul by (by eapply (Forall_lookup_1 _ _ _ _ Hu)).
  unfold handle_write, recover_request.
  rewrite (silent_call (env k) rq (new_response junk) c m inst) by (done || by rewrite Ht). rewrite Hcmd, Hw. cbn [mbind option_bind].
  destruct (manager_Execute (env k) stat rq (Some (new_response junk)) m) as [[m1 x]|] eqn:Ex; cbn [fmap option_fmap option_map mbind option_bind fst].
  - apply manager_recv_time in Ex. inversion Hst as [? [a1 y] [Ho1 _] E1 E2|]; subst. constructor. simpl. split; [exact Ho1|congruence].
  - inversion Hst. constructor.
Qed.

Lemma recover_all rqs : ∀ k n m a,
  one_database n m a → recv_time_ m = 0 → Forall logged_write rqs → 0 ≤ n → n + requests_cost (W := W) (at_start k rqs) ≤ max_elems →
  option_Forall2 (λ m' y, one_database (n + requests_cost (W := W) (at_start k rqs)) m' y.1)
    (handle_all (recover_request stat env) k rqs m) (ref_serve a (at_start k rqs)).
Proof.
  induction rqs as [|rq rqs IH]; intros k n m a Ho Ht Hrqs Hn Hc.
  { constructor. simpl. by rewrite Z.add_0_r. }
  apply Forall_cons in Hrqs as [Hrq Hrqs]. cbn [at_start requests_cost foldr] in *. fold (requests_cost (W := W) (at_start (S k) rqs)) in *.
  pose proof (requests_cost_nonneg (W := W) (at_start (S k) rqs)).
  assert (0 ≤ request_cost (W := W) (env k, 0, rq)).
  { unfold request_cost. destruct (request_cmd rq 0) as [c|]; [|lia]. pose proof (cmd_cost_pos (W := W) c). lia. }
  pose proof (recover_one k n m a rq Ho Ht Hrq Hn ltac:(lia)) as Hst. cbn [handle_all ref_serve].
  destruct (request_cmd rq 0) as [c|]; cbn [mbind option_bind] in *; [|inversion Hst; constructor].
  destruct (ref_cmd (env k) c a) as [[a1 y]|]; cbn [mbind option_bind] in *; [|inversion Hst; constructor].
  inversion Hst as [m1 ? [Ho1 Ht1] E1 E2|]; subst. cbn [mbind option_bind fst] in *.
  destruct (IH (S k) _ m1 a1 Ho1 Ht1 Hrqs ltac:(lia) ltac:(lia)) as [m2 [a2 ys] Ho2|]; cbn [mbind option_bind]; constructor.
  simpl in *. by rewrite Z.add_assoc.
Qed.

(** C11: the requests in the log of a server (writes that are one call on their key,
    without lists of strings, pairs or weights, together at most 64 KiB), all of them
    written to the file by its thread in whatever rounds, are executed again when a new
    server starts on that file (not a shard server, no replacement policy): it then
    answers every history of requests that are one call on their key as the one reference
    database that executed the calls of the log, each result in the response as the code
    puts it there ([answer]: inverted for [DEL]), and faults when that one does.  Not one
    call on their key are [MGETS], [SRANDDELM], [RENAME], the operations on two sets, the
    commands without a key, [LAPPEND] while requests are logged, and requests without the
    fields their command needs; a logged request does not carry a range either, and has at
    least four bytes.  Keys have no NUL byte. *)
Theorem recovery_restores es l (dist : bool) (threads : Z) m rqs later :
  RequestLog.log_run es (RequestLog.new_log []) = Some l → RequestLog.records_fit es →
  RequestLog.appended es = concat (map record_of rqs) → RequestLog.file_ l = RequestLog.contents l →
  0 < threads ≤ 2 ^ 30 → manager_new dist threads None = Some m → (∀ i, BUFFER_SIZE ≤ Z.of_nat (writable i)) →
  Forall replayable rqs → blen (concat (map record_of rqs)) ≤ BUFFER_SIZE →
  Forall logged_write (seen_from (new_request junk_rq) rqs) → Forall (keyed_request (W := W)) later →
  requests_cost (W := W) (at_start 0 (seen_from (new_request junk_rq) rqs)) + requests_cost (W := W) later ≤ max_elems →
  option_Forall2 (Forall2 (same_answer (W := W) junk))
    (m' ← ParseFromRequest stat env writable junk_rq (File.opened (RequestLog.file_ l)) m; snd <$> manager_run stat junk m' later)
    ('(a, _) ← ref_serve (ref_new (C := C) None) (at_start 0 (seen_from (new_request junk_rq) rqs)); snd <$> ref_serve a later).
Proof.
  intros Hr Hf Happ Hfile Ht Hm Hwr Hrqs Hlen Hlog Hlater Hc.
  assert (RequestLog.file_ l = concat (map record_of rqs)) as ->.
  { rewrite Hfile. assert (RequestLog.blocks_ok (RequestLog.new_log [])) as Hok by done.
    destruct (RequestLog.run_contents es _ l Hr Hok Hf) as [_ ->]. by rewrite Happ. }
  unfold ParseFromRequest. rewrite read_log_replay by done.
  set (rqs' := seen_from (new_request junk_rq) rqs) in *. pose proof (requests_cost_nonneg (W := W) (at_start 0 rqs')).
  pose proof (requests_cost_nonneg (W := W) later).
  pose proof (new_one_database 0 dist threads m Ht ltac:(lia) Hm) as Ho.
  assert (recv_time_ m = 0) as Hrt. { unfold manager_new in Hm. destruct (negb _); [done|]. by injection Hm as <-. }
  destruct (recover_all rqs' 0 0 m _ Ho Hrt Hlog ltac:(lia) ltac:(lia)) as [m1 [a1 ys] Ho1|]; cbn [mbind option_bind]; [|constructor].
  simpl in Ho1. destruct (manager_run_one stat junk _ m1 a1 later Ho1 Hlater ltac:(lia) ltac:(lia)) as [[? ?] [? ?] [_ ?]|]; by constructor.
Qed.
End recovered.

(** ** What is not restored *)

(** A number below 128 is one byte. *)
Class KvarintSmall `{Kvarint} := kvarint_small w x : 8 ≤ w → 0 ≤ x < 128 → kvarint_encode w x = [ascii_of_N (Z.to_N x)].

Section not_logged.
Context `{Kvarint, !KvarintLaws, !KvarintSmall, NetOrder, NetOrder16, !NetOrder16Laws}.
Implicit Types (rq : MmbpRequest) (l : RequestLog.RequestLog).

Lemma encode_first w x : 0 < w → 0 ≤ x < 2 ^ w → ∃ c b, kvarint_encode w x = c :: b.
Proof. intros Hw Hx. pose proof (encode_nonempty w x Hw Hx) as Hl. destruct (kvarint_encode w x) as [|c b]; simpl in Hl; [lia|eauto]. Qed.

Lemma byte_value x : 0 ≤ x < 128 → Z.of_N (N_of_ascii (ascii_of_N (Z.to_N x))) = x.
Proof. intros. rewrite N_ascii_embedding; lia. Qed.

(** The first two bytes of a request, read as one number. *)
Lemma request_first16 rq rest :
  0 ≤ command rq < 128 → 0 ≤ req_bits rq < 256 →
  ∃ c b, request_SerializeTo rq ++ rest = ascii_of_N (Z.to_N (command rq)) :: c :: b
    ∧ of_net16 (take 2 (request_SerializeTo rq ++ rest)) = 256 * command rq + Z.of_N (N_of_ascii c)
    ∧ (req_bits rq < 128 → c = ascii_of_N (Z.to_N (req_bits rq))).
Proof.
  intros Hc Hb. destruct (encode_first 8 (req_bits rq)) as (c & b & E8); [lia|change (2 ^ 8) with 256; lia|].
  unfold request_SerializeTo, SerializeUnsigned. rewrite kvarint_small, E8 by lia. rewrite <-!app_assoc. cbn [app].
  eexists c, _. split; [done|]. cbn [take]. rewrite take_0, of_net16_bytes, byte_value by done. split; [done|].
  intros Hb'. rewrite kvarint_small in E8 by lia. congruence.
Qed.

Lemma command_of_large n : 71 ≤ n → command_of n = None.
Proof. intros Hn. unfold command_of. destruct (Z.leb_spec 0 n); [|done]. apply lookup_ge_None_2. simpl. lia. Qed.

(** The server logs a request that it received, with the bytes after it, before it
    parses it. *)
Definition log_received (E : Env) (recv_time : Z) rq rest l : option (bytes * RequestLog.RequestLog) :=
  LogRequestToFile E recv_time (blen (request_SerializeTo rq)) (request_SerializeTo rq ++ rest, l).

(** C31: of all requests the server logs only those that add a string: the function that
    logs takes the first two bytes of a request for its command, but the command is one
    byte, and the second byte tells which fields the request has.  So a request with
    any other command is not logged, and a request that adds a string is logged because
    its two fields have the number of a command that writes. *)
Theorem only_string_adds_logged (E : Env) (recv_time : Z) rq rest l :
  0 ≤ req_bits rq < 256 →
  (0 < command rq < COMMAND_NUM →
     log_received E recv_time rq rest l
     = Some (request_SerializeTo rq ++ rest, l))
  ∧ (command rq = 0 → req_bits rq = 3 → IsExpirationDisable E = false → 8 ≤ blen (request_SerializeTo rq ++ rest) →
     log_received E recv_time rq rest l
     = (l ← RequestLog.Append (to_net32 (blen (request_SerializeTo rq))) l;
        l ← RequestLog.Append (request_SerializeTo rq) l;
        Some (request_SerializeTo rq ++ rest, l))).
Proof.
  unfold COMMAND_NUM, log_received. intros Hb. split.
  - intros Hc. destruct (request_first16 rq rest) as (c & b & Eb & E16 & _); [lia..|]. unfold LogRequestToFile.
    destruct (IsExpirationDisable E); [done|]. rewrite E16.
    destruct (Z.ltb_spec (blen (request_SerializeTo rq ++ rest)) 2) as [Hl|_]; [rewrite Eb in Hl; unfold blen in Hl; simpl in Hl; lia|].
    unfold GetCommandType. rewrite command_of_large; [done|]. lia.
  - intros Hc Hb3 HE H8. destruct (request_first16 rq rest) as (c & b & Eb & E16 & Hc2); [lia..|]. specialize (Hc2 ltac:(lia)). subst c.
    unfold LogRequestToFile. rewrite HE, E16, Hc, Hb3. destruct (Z.ltb_spec (blen (request_SerializeTo rq ++ rest)) 2); [lia|].
    destruct (Z.ltb_spec (blen (request_SerializeTo rq ++ rest)) 8); [lia|].
    change (256 * 0 + Z.of_N (N_of_ascii (ascii_of_N (Z.to_N 3)))) with 3. cbn [GetCommandType command_of].
    assert (GetCommandType 3 = CT_WRITE) as -> by done.
    assert (∀ t x, logged_expiration 3 t x = None) as Hle by done. rewrite Hle.
    destruct (RequestLog.Append (to_net32 _) l) as [l1|]; [|done]. cbn [mbind option_bind].
    unfold blen at 1. by rewrite Nat2Z.id, take_app_length.
Qed.
End not_logged.

Section reused.
Context `{Kvarint, !KvarintLaws, NetOrder, !NetOrderLaws}.
Context {S : Type} (handle : nat → MmbpRequest → S → option S).
Implicit Types (rq r : MmbpRequest) (s : S).

Lemma append_each_onto (old vs : list string) rest :
  forallb (fits 32) vs = true → length old = length vs →
  append_each old (concat (map (λ v, SerializeUnsigned 32 (u_w 32 (str_size v)) ++ str_bytes v) vs) ++ rest)
  = Some (zip_with String.append old vs, rest).
Proof.
  revert old. induction vs as [|v vs IH]; intros [|o old]; simpl; try done. intros [Hv Hvs]%andb_true_iff [= Hl].
  unfold mbind, Reader_bind. rewrite <-!app_assoc, sized_string by (done || lia). simpl.
  rewrite ReadBytes_str. simpl. by rewrite (IH old Hvs Hl).
Qed.

(** What an object that holds [old] makes of the list [vs]. *)
Definition merged (old vs : list string) : list string := zip_with String.append (resize (length vs) "" old) vs.

Lemma ParseStrValues_onto (old vs : list string) rest :
  all_fit (fits 32) vs = true → ParseStrValues old (SerializeStrValues vs ++ rest) = Some (merged old vs, rest).
Proof.
  intros [Hn%Z.ltb_lt Hok]%andb_true_iff. unfold ParseStrValues, SerializeStrValues, mbind, Reader_bind.
  rewrite <-app_assoc, u_w_small by lia. rewrite ParseUnsigned_Serialize by lia. simpl.
  unfold resize_to, merged. rewrite Nat2Z.id. apply append_each_onto; [done|apply length_resize].
Qed.

(** A request with a list and a key, and nothing else. *)
Definition list_request rq : bool := request_fits rq && HasKey rq && HasValues rq && negb (HasValue rq) && negb (HasExpireTime rq).

(** The request an object becomes. *)
Definition list_seen r rq : MmbpRequest :=
  set_values (set_key (set_bits (set_command r (command rq)) (req_bits rq)) (req_key rq)) (merged (req_values r) (req_values rq)).

Lemma list_reads_back r rq rest :
  list_request rq = true →
  request_ParseFrom r (request_SerializeTo rq ++ rest)
  = Some (list_seen r rq, rest).
Proof.
  unfold list_request, request_fits. rewrite !andb_true_iff, !negb_true_iff.
  intros [[[[[[[[[[[[Hc%in_width_spec Hb%in_width_spec] Hk] Hv] Hvs] Hkvs] Hwms] Ht%in_width_spec] Hr] Bk] Bvs] Bv] Bt].
  unfold request_ParseFrom, request_SerializeTo. rewrite <-!app_assoc.
  erewrite Reader_bind_Some by (apply ParseUnsigned_Serialize; lia || done).
  erewrite Reader_bind_Some by (apply ParseUnsigned_Serialize; lia || done). cbv zeta.
  set (r1 := set_bits (set_command r (command rq)) (req_bits rq)). change (HasKey r1) with (HasKey rq). rewrite Bk.
  erewrite (Reader_bind_Some _ _ _ _ (set_key r1 (req_key rq))) by (by erewrite Reader_bind_Some by (by apply ParseString_Serialize)).
  change (HasValue (set_key r1 _)) with (HasValue rq). change (HasValues (set_key r1 _)) with (HasValues rq). rewrite Bv, Bvs, Bt.
  erewrite (Reader_bind_Some _ _ _ _ (set_values (set_key r1 (req_key rq)) (merged (req_values r) (req_values rq)))).
  2: { by erewrite Reader_bind_Some by (by apply ParseStrValues_onto). }
  change (HasExpireTime _) with (HasExpireTime rq). by rewrite Bt.
Qed.

Lemma merged_nil (vs : list string) : merged [] vs = vs.
Proof. unfold merged. rewrite resize_nil. induction vs; simpl; by f_equal. Qed.

Lemma list_seen_fresh r rq : list_request rq = true → request_empty r → list_seen r rq = transmitted r rq.
Proof.
  unfold list_request. rewrite !andb_true_iff, !negb_true_iff. intros [[[[_ Bk] Bvs] Bv] Bt] (E & _).
  unfold transmitted, list_seen. by rewrite Bk, Bvs, Bv, Bt, E, merged_nil.
Qed.

(** The reader of the log parses all requests into one object and does not reset it,
    so a list is appended, element by element, to what the list of the request before
    holds: of two requests with lists in the log, the second is executed with the
    concatenations of its elements and those of the first. *)
Theorem recovery_merges_lists n x y r s rest :
  list_request x = true → list_request y = true → request_empty r →
  4 ≤ blen (request_SerializeTo x) < 2 ^ 32 → 4 ≤ blen (request_SerializeTo y) < 2 ^ 32 → blen rest < 4 →
  let b := record_of x ++ record_of y ++ rest in
  ∃ y', parse_records handle (Datatypes.S (length b)) n b r s
        = (s ← handle_write handle n (transmitted r x) s;
           s ← handle_write handle (Datatypes.S n) y' s;
           Some (Datatypes.S (Datatypes.S n), rest, y', s))
    ∧ command y' = command y ∧ req_key y' = req_key y
    ∧ req_values y' = zip_with String.append (resize (length (req_values y)) "" (req_values x)) (req_values y).
Proof.
  intros Hx Hy He Lx Ly Hrest b. rewrite <-list_seen_fresh by done. exists (list_seen (list_seen r x) y). split.
  - assert (2 ≤ length b)%nat as Hl by (subst b; unfold record_of; rewrite !length_app, !to_net32_length; lia).
    destruct (length b) as [|[|fuel]]; [lia..|]. subst b. erewrite record_front by (done || by apply list_reads_back).
    destruct (handle_write handle n _ s) as [s1|]; [|done]. cbn [mbind option_bind].
    erewrite record_front by (done || by apply list_reads_back).
    destruct (handle_write handle _ _ s1) as [s2|]; [|done]. cbn [mbind option_bind]. by rewrite parse_end.
  - split_and!; [done..|]. simpl. destruct He as (-> & _). by rewrite merged_nil.
Qed.

(** A record that is cut off by the end of a read loses its size: the four bytes are
    taken from the buffer before the test, and what is left in the buffer for the next
    round is the beginning of the request, which is then read as a size. *)
Theorem recovery_loses_size n rqs rq (j : nat) r s :
  Forall replayable rqs → replayable rq → request_empty r → 4 ≤ Z.of_nat j < blen (request_SerializeTo rq) →
  let b := concat (map record_of rqs) ++ take j (record_of rq) in
  parse_records handle (Datatypes.S (length b)) n b r s
  = (s ← handle_all handle n (seen_from r rqs) s;
     Some ((n + length rqs)%nat, take (j - 4) (request_SerializeTo rq), last_seen r rqs, s)).
Proof.
  intros Hrqs (_ & _ & Hlen) He Hj b. pose proof (records_length rqs) as Hl. subst b. rewrite parse_records_replay by (done || rewrite length_app; lia).
  destruct (handle_all handle n (seen_from r rqs) s) as [s1|]; [|done]. cbn [mbind option_bind].
  rewrite length_app. replace (Datatypes.S (_ + _) - length rqs)%nat with (Datatypes.S (length (concat (map record_of rqs)) + length (take j (record_of rq)) - length rqs)) by lia.
  cbn [parse_records]. assert (take j (record_of rq) = to_net32 (blen (request_SerializeTo rq)) ++ take (j - 4) (request_SerializeTo rq)) as ->.
  { unfold record_of. rewrite take_app, to_net32_length. f_equal. apply take_ge. rewrite to_net32_length. lia. }
  destruct (Z.ltb_spec (blen (to_net32 (blen (request_SerializeTo rq)) ++ take (j - 4) (request_SerializeTo rq))) 4) as [Hlt|_].
  { unfold blen in Hlt. rewrite length_app, to_net32_length in Hlt. lia. }
  rewrite take_app_length', drop_app_length' by (by rewrite to_net32_length). rewrite of_to_net32, u64_small by lia.
  destruct (Z.leb_spec (blen (request_SerializeTo rq) - 4) (blen (take (j - 4) (request_SerializeTo rq)))) as [Hle|_]; [|done].
  unfold blen in *. rewrite length_take in Hle. lia.
Qed.
End reused.
