(* ===== verification/RecoveryExamples.v ===== *)
(** * Concrete logs

    Logs, files and recoveries with the concrete codec of [MmbpExamples]: what the
    theorems on the request log are applied to, and the runs in which requests are
    lost. *)

From Stdlib Require Import Ascii String.
From S2P Require Import Prelude Comparator AvlUtil AvlTree Dict HashTableBase HashTable TreeHashTable HashSet.
From S2P Require Import Dictionary Blist Cache ListCache Vset Kvdb KvdbSpec KvdbValues KvdbRefine KvdbCalls.
From S2P Require Import KvdbFacts KvdbErrors KvdbFrame KvdbExamples Mmbp MmbpCodec MmbpExamples.
From S2P Require Import Storage StorageFacts StorageRefine Server ServerExamples Disk Recovery.

Module RecoveryExamples.
Import KvdbExamples MmbpExamples ServerExamples File RequestLog.
Open Scope string_scope.
Open Scope Z_scope.

#[local] Existing Instance HashString.
#[local] Existing Instance HashInt.
#[local] Existing Instance HashAddr.
#[local] Existing Instance int_bits.

#[export] Instance big_endian16 : NetOrder16 := {| to_net16 := be_bytes 2; of_net16 := be_value |}.

#[export] Instance big_endian16_laws : NetOrder16Laws.
Proof. split; [apply be_bytes_length|]. intros a b. cbn [of_net16 big_endian16]. unfold be_value, of_byte. cbn [foldl]. lia. Qed.

#[export] Instance leb128_small : KvarintSmall.
Proof.
  intros w x Hw Hx. simpl. destruct (Z.to_nat w) as [|n] eqn:En; [lia|]. cbn [leb_encode].
  destruct (Z.ltb_spec x 128); [done|lia].
Qed.

(** ** The log *)

Definition log_events : list LogEvent :=
  [EAppend (str_bytes "ab"); EStart; ECollect; EAppend (str_bytes "cd"); EWrite; EAppend (str_bytes "e")].

Definition log_after (es : list LogEvent) : RequestLog := match log_run es (new_log []) with Some l => l | None => new_log [] end.

Lemma log_events_run : log_run log_events (new_log []) = Some (log_after log_events).
Proof. by vm_compute. Qed.

Lemma log_events_fit : records_fit log_events.
Proof. repeat (apply Forall_cons; split; [by vm_compute|]). by apply Forall_nil. Qed.

Lemma request_log_in_order_witness :
  log_run log_events (new_log []) = Some (log_after log_events) ∧ contents (log_after log_events) = str_bytes "abcde".
Proof.
  split; [exact log_events_run|].
  rewrite (request_log_in_order [] log_events (log_after log_events) log_events_run log_events_fit). reflexivity.
Defined.

Lemma request_log_flushes_witness :
  ∃ l, log_run (log_events ++ [ECollect; EWrite])%list (new_log []) = Some l ∧ file_ l = ([] ++ appended log_events)%list.
Proof.
  apply (request_log_flushes [] log_events (log_after log_events) log_events_run log_events_fit); reflexivity.
Defined.

(** A log that is stopped while its thread writes loses what was appended meanwhile. *)
Example stop_loses_requests :
  match log_run [EAppend (str_bytes "ab"); EStart; ECollect; EAppend (str_bytes "cd"); EStop; EWrite; ECollect] (new_log []) with
  | Some l => (io_thread_ l, file_ l, cur_blk_ l)
  | None => (NotStarted, [], [])
  end = (Ended, str_bytes "ab", str_bytes "cd").
Proof. by vm_compute. Qed.

(** An interrupted read loses the bytes it had read. *)
Example interrupted_read_loses :
  match Read 4 (MkFILE (str_bytes "abcdefgh") false None [Interrupted 2]) with
  | Some (got, f) => (got, f_rest f)
  | None => (None, [])
  end = (Some (str_bytes "cdef"), str_bytes "gh").
Proof. by vm_compute. Qed.

(** ** Recovery *)

Definition append_a : MmbpRequest := request STRAPPEND 3 "a" "+" [].
Definition in_log : list MmbpRequest := [request STR_ADD 3 "a" "one" []; set_a; request STR_ADD 3 "b" "two" []; request STR_DEL 1 "b" "" []].
Definition in_log_events : list LogEvent := EStart :: map (λ rq, EAppend (record_of rq)) in_log ++ [ECollect; EWrite].
Definition later : list (Env * Z * MmbpRequest) := at_times 1 [get_a; request STR_GET 1 "b" "" []].

Definition space (i : nat) : nat := Z.to_nat BUFFER_SIZE.
Lemma space_enough i : BUFFER_SIZE ≤ Z.of_nat (space i).
Proof. unfold space. rewrite Z2Nat.id; [done|]. by vm_compute. Qed.

Lemma in_log_replayable : Forall replayable in_log.
Proof. repeat (apply Forall_cons; split; [repeat split; by vm_compute|]). by apply Forall_nil. Qed.

Lemma rlog_dump_prints_witness :
  rlog_dump space junk (opened (concat (map record_of in_log))) = Some (4%nat, seen_from (new_request junk) in_log)
  ∧ map req_value (seen_from (new_request junk) in_log) = ["one"; "one"; "two"; "two"].
Proof.
  split; [|by vm_compute]. apply (rlog_dump_prints space junk in_log space_enough in_log_replayable); [by vm_compute|].
  repeat (apply Forall_cons; split; [reflexivity|]). by apply Forall_nil.
Defined.

Lemma in_log_keyed : Forall (logged_write (W := Z) env_at) (seen_from (new_request junk) in_log).
Proof. repeat (apply Forall_cons; split; [split; [reflexivity|intros n; keyed_tac]|]). by apply Forall_nil. Qed.

Lemma later_keyed : Forall (keyed_request (W := Z)) later.
Proof. repeat (apply Forall_cons; split; [keyed_tac|]). by apply Forall_nil. Qed.

Definition recovered := ParseFromRequest "" env_at space junk (opened (file_ (log_after in_log_events))) four.

Definition answers (m : option Manager) : list (option (Z * string)) :=
  match m with
  | Some m => match manager_run "" 0 m later with Some (_, rss) => map (option_map (λ rs, (status_code rs, res_value rs))) rss | None => [] end
  | None => []
  end.

Example recovered_answers : answers recovered = [Some (0, "one"); Some (2, "")].
Proof. by vm_compute. Qed.

Lemma recovery_restores_witness :
  is_Some (m' ← recovered; snd <$> manager_run "" 0 m' later)
  ∧ option_Forall2 (Forall2 (same_answer (W := Z) 0))
      (m' ← recovered; snd <$> manager_run "" 0 m' later)
      ('(a, _) ← ref_serve (ref_new (C := Lru_) None) (at_start env_at 0 (seen_from (new_request junk) in_log)); snd <$> ref_serve a later).
Proof.
  split; [eexists; by vm_compute|].
  apply (recovery_restores "" junk 0 env_at space in_log_events (log_after in_log_events) false 3 four in_log later).
  - by vm_compute.
  - repeat (apply Forall_cons; split; [by vm_compute|]). by apply Forall_nil.
  - by vm_compute.
  - by vm_compute.
  - lia.
  - exact four_is_new.
  - exact space_enough.
  - exact in_log_replayable.
  - by vm_compute.
  - exact in_log_keyed.
  - exact later_keyed.
  - by vm_compute.
Defined.

(** A string longer than a read is not recovered, though it is in the log. *)
Fixpoint long (n : nat) (s : string) : string := match n with O => s | S n => long n (String.append s s) end.
Definition add_long : MmbpRequest := request STR_ADD 3 "a" (long 13 "abcdefghi") [].

Example long_string_lost : answers (ParseFromRequest "" env_at space junk (opened (record_of add_long)) four) = [Some (2, ""); Some (2, "")].
Proof. by vm_compute. Qed.

Lemma recovery_loses_size_witness :
  parse_records (S := unit) (λ _ _ _, Some ()) 18 0 (concat [] ++ take 7 (record_of set_a))%list (new_request junk) ()
  = Some (0%nat, take 3 (request_SerializeTo set_a), new_request junk, ()).
Proof.
  assert (replayable set_a) as Hr by (repeat split; by vm_compute).
  pose proof (recovery_loses_size (S := unit) (λ _ _ _, Some ()) 0 [] set_a 7 (new_request junk) () (Forall_nil_2 _) Hr) as Hl.
  specialize (Hl ltac:(by vm_compute) ltac:(split; by vm_compute)). vm_compute in Hl. vm_compute. exact Hl.
Defined.

Definition append_x : MmbpRequest := request LAPPEND 9 "l" "" ["x"; "y"].
Definition append_z : MmbpRequest := request LAPPEND 9 "l" "" ["z"].

Definition noted (n : nat) (rq : MmbpRequest) (s : list (list string)) : option (list (list string)) := Some (req_values rq :: s).

Example append_z_merged :
  option_map snd (parse_records noted 99 0 (record_of append_x ++ record_of append_z ++ [])%list (new_request junk) []) = Some [["xz"]; ["x"; "y"]].
Proof. by vm_compute. Qed.

Lemma recovery_merges_lists_witness :
  ∃ z, parse_records noted (S (length (record_of append_x ++ record_of append_z ++ [])%list)) 0
         (record_of append_x ++ record_of append_z ++ [])%list (new_request junk) []
       = (s ← handle_write noted 0 (transmitted (new_request junk) append_x) []; s ← handle_write noted 1 z s; Some (2%nat, [], z, s))
    ∧ req_values z = ["xz"].
Proof.
  destruct (recovery_merges_lists noted 0 append_x append_z (new_request junk) [] []) as (z & Hz & _ & _ & Hv); [by vm_compute..|].
  exists z. split; [exact Hz|exact Hv].
Defined.

Lemma only_string_adds_logged_witness :
  log_received (at_ 1) 0 set_a [] (new_log [])
  = Some (request_SerializeTo set_a ++ [], new_log [])%list.
Proof.
  apply (only_string_adds_logged (at_ 1) 0 set_a [] (new_log []) ltac:(split; by vm_compute)). by vm_compute.
Defined.
End RecoveryExamples.
