(* ===== verification/Translator.v ===== *)
(** * The command line of the client

    [mmkv/util/tokenizer.h], [mmkv/client/translator.h], [translator.cc], the formats of
    the commands in [mmkv/client/information.h], [information.cc], and the names of the
    commands in [mmkv/protocol/command.cc]: a line of the console becomes a request.

    kanon's [StringView] is a parameter: its three functions that the tokenizer uses, with
    the laws of [std::string_view].  So is [strtod], which gives the bits of a double or
    converts nothing.  A position is a [size_t], [npos] the largest.  [None] is a token
    too long for the buffer it is copied to, or a failed [assert]. *)

From Stdlib Require Import Ascii String.
From S2P Require Import Prelude Comparator AvlUtil AvlTree Dict HashTableBase HashTable TreeHashTable HashSet.
From S2P Require Import Dictionary Blist Cache ListCache Vset Kvdb KvdbSpec Mmbp MmbpCodec Storage.

(** ** Tokens *)

Definition npos : Z := 2 ^ 64 - 1.

Class StringView := {
  find_first_not_of : bytes → ascii → Z → Z;
  find : bytes → ascii → Z → Z;
  substr_range : bytes → Z → Z → bytes;
}.

(** The number of characters at the front that do not satisfy [p]. *)
Fixpoint span_length (p : ascii → bool) (b : bytes) : option nat :=
  match b with [] => None | c :: b => if p c then Some 0%nat else S <$> span_length p b end.

(** The first position from [pos] on of a character that satisfies [p]. *)
Definition first_from (p : ascii → bool) (b : bytes) (pos : Z) : Z :=
  match span_length p (drop (Z.to_nat pos) b) with Some n => pos + Z.of_nat n | None => npos end.

Class StringViewLaws `{StringView} := {
  find_first_not_of_law b c pos : 0 ≤ pos → blen b < npos → find_first_not_of b c pos = first_from (λ x, negb (Ascii.eqb x c)) b pos;
  find_law b c pos : 0 ≤ pos → blen b < npos → find b c pos = first_from (Ascii.eqb c) b pos;
  substr_range_law b s e : 0 ≤ s ≤ blen b → s ≤ e →
    substr_range b s e = take (Z.to_nat (Z.min e (blen b) - s)) (drop (Z.to_nat s) b);
}.

Module Tokenizer.
Section tokenizer.
Context `{StringView}.

Record Tokenizer := MkTokenizer { text_ : bytes; deli_ : ascii }.
Record iterator := MkIter { start_ : Z; end_ : Z }.
Implicit Types (t : Tokenizer) (it : iterator).

Definition tk_begin t : iterator :=
  let start := find_first_not_of (text_ t) " " 0 in
  MkIter start (find (text_ t) (deli_ t) (u64 (start + 1))).

Definition tk_end : iterator := MkIter npos npos.

Definition value t it : bytes := substr_range (text_ t) (start_ it) (end_ it).

Definition Increment t it : iterator :=
  let start := if end_ it =? npos then npos else find_first_not_of (text_ t) (deli_ t) (end_ it + 1) in
  let e := if start =? npos then npos else find (text_ t) (deli_ t) (start + 1) in
  MkIter start e.

Definition at_end it : bool := start_ it =? start_ tk_end.

(** The tokens a loop over the iterators sees. *)
Fixpoint tokens_from (fuel : nat) t it : option (list bytes) :=
  match fuel with
  | O => None
  | S fuel => if at_end it then Some [] else rest ← tokens_from fuel t (Increment t it); Some (value t it :: rest)
  end.

Definition tokens (text : bytes) : option (list bytes) :=
  let t := MkTokenizer text " " in tokens_from (S (length text)) t (tk_begin t).
End tokenizer.

(** The words of a text: its longest parts without spaces. *)
Fixpoint words_acc (word : bytes) (text : bytes) : list bytes :=
  match text with
  | [] => match word with [] => [] | _ => [word] end
  | c :: text =>
      if Ascii.eqb c " " then match word with [] => words_acc [] text | _ => word :: words_acc [] text end
      else words_acc (word ++ [c]) text
  end.

Definition words (text : bytes) : list bytes := words_acc [] text.

(** *** The iterators visit the words *)

Lemma span_split p (b : bytes) n :
  span_length p b = Some n → ∃ u c v, b = u ++ c :: v ∧ length u = n ∧ p c = true ∧ Forall (λ x, p x = false) u.
Proof.
  revert n. induction b as [|x b IH]; intros n; [done|]. cbn [span_length]. destruct (p x) eqn:Hx.
  - intros [= <-]. by exists [], x, b.
  - destruct (span_length p b) as [m|]; [|done]. intros [= <-]. destruct (IH m eq_refl) as (u & c & v & -> & <- & Hc & Hu).
    exists (x :: u), c, v. split_and!; try done. by constructor.
Qed.

Lemma span_none p (b : bytes) : span_length p b = None → Forall (λ x, p x = false) b.
Proof.
  induction b as [|x b IH]; [by constructor|]. cbn [span_length]. destruct (p x) eqn:Hx; [done|].
  destruct (span_length p b); [done|]. intros _. constructor; [done|]. by apply IH.
Qed.

Lemma words_skip (u v : bytes) : Forall (λ x, Ascii.eqb x " " = true) u → words (u ++ v) = words v.
Proof. induction 1 as [|x u Hx Hu IH]; [done|]. cbn [app]. unfold words at 1. cbn [words_acc]. by rewrite Hx. Qed.

Lemma words_acc_word (word u v : bytes) : Forall (λ x, Ascii.eqb x " " = false) u → words_acc word (u ++ v) = words_acc (word ++ u) v.
Proof.
  intros Hu. revert word. induction Hu as [|x u Hx Hu IH]; intros word; cbn [app words_acc]; [by rewrite app_nil_r|].
  rewrite Hx, IH, <-app_assoc. done.
Qed.

(** Lengths of texts put together from parts. *)
Ltac len_tac := unfold blen, npos in *; repeat (progress (rewrite ?length_app in *; cbn [length] in *)); lia.

Section facts.
Context `{StringView, !StringViewLaws}.
Implicit Types (text u v : bytes).

Lemma first_from_app p u v : first_from p (u ++ v) (blen u) = match span_length p v with Some n => blen u + Z.of_nat n | None => npos end.
Proof. unfold first_from, blen. by rewrite Nat2Z.id, drop_app_length. Qed.

Lemma negb_space (x : ascii) : negb (Ascii.eqb x " ") = false ↔ Ascii.eqb x " " = true.
Proof. by rewrite negb_false_iff. Qed.

(** An iterator that looks for the next token after [u]. *)
Definition next_from text (pos : Z) : iterator :=
  let start := find_first_not_of text " " pos in
  MkIter start (if start =? npos then npos else find text " " (start + 1)).

Lemma begin_next text : blen text < npos → at_end (next_from text 0) = at_end (tk_begin (MkTokenizer text " "))
  ∧ (at_end (next_from text 0) = false → tk_begin (MkTokenizer text " ") = next_from text 0).
Proof.
  intros Hl. unfold next_from, tk_begin, at_end. cbn [start_ text_ deli_ tk_end]. split; [done|]. intros Hs. rewrite Hs. f_equal.
  rewrite u64_small; [done|]. rewrite find_first_not_of_law in * by done. unfold first_from in *. apply Z.eqb_neq in Hs.
  destruct (span_length _ _) as [n|] eqn:E; [|done]. apply span_split in E as (u & c & v & E & <- & _). rewrite drop_0 in E.
  subst text. rewrite blen_app in Hl. unfold blen, npos in *. simpl in Hl. lia.
Qed.

(** The token after [u], when the text is [u], spaces, the token and [v]. *)
Lemma next_token u v :
  blen (u ++ v) < npos →
  match words v with
  | [] => at_end (next_from (u ++ v) (blen u)) = true
  | w :: ws =>
      at_end (next_from (u ++ v) (blen u)) = false
      ∧ value (MkTokenizer (u ++ v) " ") (next_from (u ++ v) (blen u)) = w
      ∧ ∃ u' v', u ++ v = u' ++ v' ∧ (length v' < length v)%nat ∧ words v' = ws
          ∧ Increment (MkTokenizer (u ++ v) " ") (next_from (u ++ v) (blen u))
            = (if end_ (next_from (u ++ v) (blen u)) =? npos then tk_end else next_from (u' ++ v') (blen u'))
          ∧ (end_ (next_from (u ++ v) (blen u)) = npos → v' = [])
  end.
Proof.
  intros Hlen. assert (0 ≤ blen u) by (unfold blen; lia). unfold next_from. rewrite find_first_not_of_law by done. rewrite first_from_app.
  destruct (span_length (λ x, negb (Ascii.eqb x " ")) v) as [n|] eqn:E.
  2: { apply span_none in E. rewrite <-(app_nil_r v), words_skip; [done|]. eapply Forall_impl; [exact E|]. intros x. by rewrite negb_space. }
  apply span_split in E as (sp & c & v1 & -> & <- & Hc & Hsp). apply negb_true_iff in Hc.
  assert (Forall (λ x, Ascii.eqb x " " = true) sp) as Hsp' by (eapply Forall_impl; [exact Hsp|]; intros x; by rewrite negb_space).
  assert (blen u + Z.of_nat (length sp) = blen (u ++ sp)) as -> by (rewrite blen_app; done).
  rewrite words_skip by done. unfold words. cbn [words_acc app]. rewrite Hc. cbn [app].
  rewrite !blen_app in Hlen. unfold blen in Hlen at 3. cbn [length] in Hlen. pose proof (blen_app u sp) as Hus.
  assert (blen (u ++ sp) =? npos = false) as Hne by (apply Z.eqb_neq; len_tac). unfold at_end. cbn [start_ tk_end]. rewrite Hne.
  assert (u ++ sp ++ c :: v1 = (u ++ sp ++ [c]) ++ v1) as Etext by (by rewrite <-!app_assoc).
  assert (blen (u ++ sp) + 1 = blen (u ++ sp ++ [c])) as Epos by len_tac.
  rewrite find_law by len_tac. rewrite Epos, Etext, first_from_app.
  destruct (span_length (Ascii.eqb " ") v1) as [n|] eqn:E1.
  - apply span_split in E1 as (w & s & v2 & -> & <- & Hs & Hw). apply Ascii.eqb_eq in Hs as <-.
    assert (Forall (λ x, Ascii.eqb x " " = false) w) as Hw' by (eapply Forall_impl; [exact Hw|]; intros x; by rewrite Ascii.eqb_sym).
    rewrite words_acc_word by done. cbn [app words_acc]. rewrite Ascii.eqb_refl. cbn [app].
    assert (blen (u ++ sp ++ [c]) + Z.of_nat (length w) = blen (u ++ sp ++ c :: w)) as Ee by len_tac.
    rewrite Ee. assert (blen (u ++ sp ++ c :: w) =? npos = false) as Hee.
    { apply Z.eqb_neq. len_tac. }
    split_and!; [done| |].
    + unfold value. cbn [text_ start_ end_]. rewrite substr_range_law by len_tac.
      replace (Z.min _ _ - _) with (Z.of_nat (S (length w))) by len_tac.
      unfold blen. rewrite !Nat2Z.id. rewrite <-Etext, (app_assoc u), drop_app_length. cbn [take]. by rewrite take_app_length.
    + exists (u ++ sp ++ c :: w ++ [" "%char]), v2. cbn [end_]. rewrite Hee. split_and!.
      * by rewrite <-!app_assoc; simpl; rewrite <-!app_assoc.
      * len_tac.
      * done.
      * unfold Increment, next_from. cbn [end_ text_ deli_ start_]. rewrite Hee.
        assert (blen (u ++ sp ++ c :: w) + 1 = blen (u ++ sp ++ c :: w ++ [" "%char])) as -> by len_tac.
        by rewrite <-!app_assoc; simpl; rewrite <-!app_assoc.
      * intros E2. by rewrite E2, Z.eqb_refl in Hee.
  - apply span_none in E1. assert (Forall (λ x, Ascii.eqb x " " = false) v1) as Hv1 by (eapply Forall_impl; [exact E1|]; intros x; by rewrite Ascii.eqb_sym).
    assert (words_acc [c] v1 = [c :: v1]) as -> by (rewrite <-(app_nil_r v1) at 1; by rewrite words_acc_word). cbn [app words_acc]. split_and!; [done| |].
    + unfold value. cbn [text_ start_ end_]. rewrite substr_range_law by len_tac.
      replace (Z.min _ _ - _) with (Z.of_nat (S (length v1))) by len_tac.
      unfold blen. rewrite !Nat2Z.id. rewrite <-Etext, (app_assoc u), drop_app_length. cbn [take]. by rewrite take_ge.
    + exists (u ++ sp ++ c :: v1), []. cbn [end_]. rewrite Z.eqb_refl. split_and!; [by rewrite <-!app_assoc, app_nil_r|len_tac|done| |done].
      unfold Increment, tk_end. cbn [end_]. by rewrite Z.eqb_refl.
Qed.

Lemma tokens_from_words fuel : ∀ u v,
  blen (u ++ v) < npos → (length v < fuel)%nat → tokens_from fuel (MkTokenizer (u ++ v) " ") (next_from (u ++ v) (blen u)) = Some (words v).
Proof.
  induction fuel as [|fuel IH]; intros u v Hlen Hf; [lia|]. pose proof (next_token u v Hlen) as Hn. cbn [tokens_from].
  destruct (words v) as [|w ws]; [by rewrite Hn|]. destruct Hn as (-> & -> & u' & v' & Etext & Hv & <- & -> & Hend).
  destruct (Z.eqb_spec (end_ (next_from (u ++ v) (blen u))) npos) as [E|_].
  - rewrite (Hend E). destruct fuel as [|fuel]; [lia|]. done.
  - rewrite Etext in *. by rewrite IH by lia.
Qed.

Lemma tokens_are_words text : blen text < npos → tokens text = Some (words text).
Proof.
  intros Hlen. destruct (begin_next text Hlen) as [He Hb]. pose proof (tokens_from_words (S (length text)) [] text Hlen ltac:(lia)) as Ht.
  cbn [app] in Ht. change (blen []) with 0 in Ht. unfold tokens. destruct (at_end (next_from text 0)) eqn:E.
  - cbn [tokens_from] in *. rewrite E in Ht. by rewrite <-He.
  - by rewrite Hb.
Qed.

(** C28: the tokens of a text are its words, the longest parts without spaces, in order;
    spaces before, between and after them do not matter. *)
Theorem tokenizer_words text : blen text < npos → tokens text = Some (words text).
Proof. apply tokens_are_words. Qed.
End facts.
End Tokenizer.

(** ** The formats of the commands *)

Inductive CommandFormat :=
  | F_ONLY_KEY | F_VALUE | F_VALUES | F_COUNT | F_RANGE | F_DRANGE | F_VSET_MEMBERS | F_MAP_VALUES | F_FIELD_VALUE
  | F_SET_OP | F_SET_OP_TO | F_EXPIRE | F_NONE | F_MUL_KEYS | F_INVALID.

(** [GenCommandMetadata]. *)
Definition GetCommandFormat (c : Command) : CommandFormat :=
  match c with
  | MEM_STAT | KEYALL | DELALL | SHARD_LEAVE => F_NONE
  | STR_ADD | STR_SET | STRAPPEND | MEXISTS | MDEL | MGET => F_VALUE
  | MGETS => F_VALUES
  | MSET => F_FIELD_VALUE
  | SAND | SOR | SSUB | SANDSIZE | SORSIZE | SSUBSIZE => F_SET_OP
  | SANDTO | SORTO | SSUBTO => F_SET_OP_TO
  | SADD => F_VALUES
  | STR_GET | STR_DEL | STRLEN | LGETALL | LGETSIZE | LDEL | VSIZE | VALL | DEL | TYPE | MALL | MSIZE | MFIELDS | MVALUES
  | SALL | SSIZE | SRANDDELM | PERSIST | EXPIRATION | TTL => F_ONLY_KEY
  | LADD | LAPPEND | LPREPEND => F_VALUES
  | STRPOPBACK | LPOPBACK | LPOPFRONT | SHARD_JOIN => F_COUNT
  | LGETRANGE => F_RANGE
  | VADD => F_VSET_MEMBERS
  | MADD => F_MAP_VALUES
  | VDELM | VWEIGHT | VORDER | VRORDER | SDELM | SEXISTS => F_VALUE
  | VDELMRANGE | VRANGE | VRRANGE => F_RANGE
  | VDELMRANGEBYWEIGHT | VRANGEBYWEIGHT | VRRANGEBYWEIGHT | VSIZEBYWEIGHT => F_DRANGE
  | RENAME => F_VALUE
  | EXPIRE_AT | EXPIREM_AT | EXPIRE_AFTER | EXPIREM_AFTER => F_EXPIRE
  | DELS => F_MUL_KEYS
  end.

(** [command_strings]. *)
Definition command_strings : list string :=
  ["STRADD"; "STRDEL"; "STRGET"; "STRSET"; "STRLEN"; "STRAPPEND"; "STRPOPBACK"; "LADD"; "LAPPEND"; "LPREPEND"; "LGETSIZE";
   "LGETALL"; "LGETRANGE"; "LPOPFRONT"; "LPOPBACK"; "LDEL"; "VADD"; "VDELM"; "VDELMRANGE"; "VDELMRANGEBYWEIGHT"; "VSIZE";
   "VSIZEBYWEIGHT"; "VWEIGHT"; "VORDER"; "VRORDER"; "VRANGE"; "VALL"; "VRANGEBYWEIGHT"; "VRRANGE"; "VRRANGEBYWEIGHT"; "MADD";
   "MSET"; "MGET"; "MGETS"; "MDEL"; "MALL"; "MFIELDS"; "MVALUES"; "MSIZE"; "MEXISTS"; "SADD"; "SDELM"; "SSIZE"; "SALL";
   "SEXISTS"; "SAND"; "SANDTO"; "SSUB"; "SSUBTO"; "SOR"; "SORTO"; "SANDSIZE"; "SSUBSIZE"; "SORSIZE"; "SRANDDELM"; "MEMORYSTAT";
   "EXPIREAT"; "EXPIREAFTER"; "EXPIREMAT"; "EXPIREMAFTER"; "PERSIST"; "EXPIRATION"; "TTL"; "DEL"; "RENAME"; "TYPE"; "KEYALL";
   "DELS"; "DELALL"; "SHARD_JOIN"; "SHARD_LEAVE"].

(** The number of a command. *)
Definition number_of_command (c : Command) : Z := match list_find (c =.) commands with Some (i, _) => Z.of_nat i | None => COMMAND_NUM end.

(** [GetCommandString], and [GetCommand] by the map [GenCommandMap] makes. *)
Definition GetCommandString (n : Z) : option string := command_strings !! Z.to_nat n.
Definition GetCommand (name : string) : option Command :=
  '(i, _) ← list_find (name =.) command_strings; commands !! i.

(** ** Numbers *)

Definition is_space (c : ascii) : bool := let n := N_of_ascii c in (n =? 32)%N || ((9 <=? n) && (n <=? 13))%N.
Definition digit_of (c : ascii) : option Z := let n := Z.of_N (N_of_ascii c) in if (48 <=? n) && (n <=? 57) then Some (n - 48) else None.

Fixpoint skip_spaces (b : bytes) : bytes := match b with c :: b' => if is_space c then skip_spaces b' else b | [] => [] end.

Fixpoint digits (acc : Z) (b : bytes) : Z :=
  match b with
  | c :: b' => match digit_of c with Some d => digits (10 * acc + d) b' | None => acc end
  | [] => acc
  end.

(** The sign and the number at the front, if there is one. *)
Definition scan_number (s : string) : option (bool * Z) :=
  let b := skip_spaces (str_bytes s) in
  let '(neg, b) := match b with
                   | c :: b' => if Ascii.eqb c "-" then (true, b') else if Ascii.eqb c "+" then (false, b') else (false, b)
                   | [] => (false, [])
                   end in
  match b with c :: _ => match digit_of c with Some _ => Some (neg, digits 0 b) | None => None end | [] => None end.

(** [strtoull(buf, &end, 10)], [strtol(buf, &end, 10)]; [None] when [end == buf]. *)
Definition strtoull (s : string) : option Z :=
  '(neg, n) ← scan_number s;
  Some (if 2 ^ 64 <=? n then 2 ^ 64 - 1 else if neg : bool then u64 (- n) else n).
Definition strtol (s : string) : option Z :=
  '(neg, n) ← scan_number s;
  let v := if neg : bool then - n else n in
  Some (Z.min (Z.max v (- 2 ^ 63)) (2 ^ 63 - 1)).

Class Strtod := strtod : string → option Z.

(** ** The translation *)

Inductive ErrorCode := E_SYNTAX_ERROR | E_NO_COMMAND.

(** The request and the tokens not yet consumed, the tokens from the iterator on. *)
Abbreviation TState := (list string * MmbpRequest)%type.
Abbreviation Step := (TState → option (TState + ErrorCode)).

Definition then_ (f g : Step) : Step := λ x, r ← f x; match r with inl x => g x | inr e => Some (inr e) end.
Notation "f ;>; g" := (then_ f g) (at level 60, right associativity).

Section translator.
Context `{Strtod}.
Implicit Types (rq : MmbpRequest) (ts : list string) (t : string).

Definition flag (i : Z) rq : MmbpRequest := set_bits rq (SetBit (req_bits rq) i).

Definition syntax_error : option (TState + ErrorCode) := Some (inr E_SYNTAX_ERROR).

(** [SYNTAX_ERROR_ROUTINE], then what is done with the token, and [++token_iter]. *)
Definition take_token (f : string → MmbpRequest → option (MmbpRequest + ErrorCode)) : Step := λ '(ts, rq),
  match ts with
  | [] => syntax_error
  | t :: ts => r ← f t rq; Some (match r with inl rq => inl (ts, rq) | inr e => inr e end)
  end.

Definition SYNTAX_ERROR_ROUTINE_END : Step := λ '(ts, rq), match ts with [] => Some (inl (ts, rq)) | _ => syntax_error end.
Definition on_request (f : MmbpRequest → MmbpRequest) : Step := λ '(ts, rq), Some (inl (ts, f rq)).

Definition SET_KEY : Step := take_token (λ t rq, Some (inl (set_key (flag 0 rq) t))).
Definition SET_VALUE : Step := take_token (λ t rq, Some (inl (set_value (flag 1 rq) t))).

Definition SET_VALUES : Step := λ '(ts, rq),
  match ts with [] => syntax_error | _ => Some (inl ([], set_values (flag 3 rq) ts)) end.

(** [SET_INTEGER], [SET_SIGN_INTEGER], [SET_DOUBLE]: buffers of 64, 64 and 128 bytes;
    the variable has the type of [var]. *)
Definition number_token (size : Z) (conv : string → option Z) (var : Z → Z) (put : MmbpRequest → Z → MmbpRequest) : Step :=
  take_token (λ t rq,
    if size <=? str_size t then None
    else Some (match conv t with Some n => inl (put rq (var n)) | None => inr E_SYNTAX_ERROR end)).

Definition SET_INTEGER (bits : Z) : (MmbpRequest → Z → MmbpRequest) → Step := number_token 64 strtoull (u_w bits).
Definition SET_SIGN_INTEGER : (MmbpRequest → Z → MmbpRequest) → Step := number_token 64 strtol (λ n, n).
Definition SET_DOUBLE : (MmbpRequest → Z → MmbpRequest) → Step := number_token 128 strtod (λ n, n).

(** [F_FIELD_VALUE]: the token is pushed twice, and the iterator stays. *)
Definition push_token : Step := λ '(ts, rq),
  match ts with [] => syntax_error | t :: _ => Some (inl (ts, set_values rq (req_values rq ++ [t]))) end.

(** The loops of [F_VSET_MEMBERS] and [F_MAP_VALUES], after their first [++token_iter]. *)
Fixpoint vset_members (ts : list string) rq : option (TState + ErrorCode) :=
  match ts with
  | [] => Some (inl ([], rq))
  | w :: ts =>
      if 128 <=? str_size w then None
      else match strtod w, ts with
           | Some weight, m :: ts => vset_members ts (set_vmembers rq (req_vmembers rq ++ [MkKeyValue weight m]))
           | _, _ => syntax_error
           end
  end.

Fixpoint map_values (ts : list string) rq : option (TState + ErrorCode) :=
  match ts with
  | [] => Some (inl ([], rq))
  | t :: ts => map_values ts (set_kvs rq (req_kvs rq ++ [MkKeyValue t t]))
  end.

Definition put_left rq (n : Z) : MmbpRequest := set_union rq (u64 n) (union_right rq).
Definition put_right rq (n : Z) : MmbpRequest := set_union rq (union_left rq) (u64 n).

(** The [switch] of [Translator::Parse]. *)
Definition parse_format (f : CommandFormat) : Step :=
  match f with
  | F_NONE => SYNTAX_ERROR_ROUTINE_END
  | F_VALUE => SET_KEY ;>; SET_VALUE ;>; SYNTAX_ERROR_ROUTINE_END
  | F_ONLY_KEY => SET_KEY ;>; SYNTAX_ERROR_ROUTINE_END
  | F_VALUES => SET_KEY ;>; SET_VALUES
  | F_SET_OP => SET_KEY ;>; SET_VALUE ;>; SYNTAX_ERROR_ROUTINE_END
  | F_SET_OP_TO =>
      SET_VALUES ;>; λ '(ts, rq), if 3 <? Z.of_nat (length (req_values rq)) then syntax_error else Some (inl (ts, rq))
  | F_FIELD_VALUE => SET_KEY ;>; push_token ;>; push_token ;>; SYNTAX_ERROR_ROUTINE_END ;>; on_request (flag 3)
  | F_RANGE => SET_KEY ;>; SET_SIGN_INTEGER put_left ;>; SET_SIGN_INTEGER put_right ;>; on_request (flag 6) ;>; SYNTAX_ERROR_ROUTINE_END
  | F_COUNT => SET_KEY ;>; SET_INTEGER 32 (λ rq n, set_count (flag 5 rq) n) ;>; SYNTAX_ERROR_ROUTINE_END
  | F_VSET_MEMBERS => SET_KEY ;>; (λ '(ts, rq), vset_members (tail ts) rq) ;>; on_request (flag 7)
  | F_DRANGE => SET_KEY ;>; SET_DOUBLE put_left ;>; SET_DOUBLE put_right ;>; SYNTAX_ERROR_ROUTINE_END ;>; on_request (flag 6)
  | F_MAP_VALUES => SET_KEY ;>; (λ '(ts, rq), map_values (tail ts) rq) ;>; on_request (flag 4)
  | F_EXPIRE => SET_KEY ;>; SET_INTEGER 64 set_expire_time ;>; on_request (flag 2) ;>; SYNTAX_ERROR_ROUTINE_END
  | F_MUL_KEYS => SET_VALUES
  | F_INVALID => λ _, None
  end.

(** [Translator::Parse], of the tokens of the statement. *)
Definition parse_tokens (c : Command) (rq : MmbpRequest) (ts : list string) : option (MmbpRequest + ErrorCode) :=
  r ← parse_format (GetCommandFormat c) (ts, set_command rq (number_of_command c));
  Some (match r with inl (_, rq) => inl rq | inr e => inr e end).

Definition Parse `{StringView} (c : Command) (rq : MmbpRequest) (statement : bytes) : option (MmbpRequest + ErrorCode) :=
  ts ← Tokenizer.tokens statement; parse_tokens c rq (map string_of_list_ascii ts).
End translator.
