(* ===== verification/TranslatorFacts.v ===== *)
(** * What the console sends

    A well-formed line of the console, translated, sent, read back and executed by the
    manager of a server, is the call its command stands for; and the lines that the
    translator gets wrong. *)

From Stdlib Require Import Ascii String.
From S2P Require Import Prelude Comparator AvlUtil AvlTree Dict HashTableBase HashTable TreeHashTable HashSet.
From S2P Require Import Dictionary Blist Cache ListCache Vset Kvdb KvdbSpec KvdbValues KvdbRefine KvdbCalls.
From S2P Require Import KvdbFacts KvdbErrors KvdbFrame Mmbp MmbpCodec Storage StorageFacts StorageRefine Translator.

(** The name of a command leads back to it. *)
Lemma command_of_number c : command_of (number_of_command c) = Some c.
Proof. by destruct c. Qed.

Lemma GetCommand_name c : (s ← GetCommandString (number_of_command c); GetCommand s) = Some c.
Proof. by destruct c. Qed.

Section console.
Context {W C : Type} `{Comparator W} `{!CacheInterface C addr}
  `{HS : !HashFunc string} `{HA : !HashFunc addr} `{HZ : !HashFunc Z} `{DB : !DoubleBits W} `{Strtod}.
Context (junk : Z * Z * Z).
Implicit Types (ts : list string) (k v : string).

(** The number a word stands for, when it fits the buffer of the translator. *)
Definition word_number (conv : string → option Z) (t : string) : option Z := if 64 <=? str_size t then None else conv t.

(** What the user of the console means, for the commands whose lines arrive as one call:
    not those of index and weight ranges, which are written and read by different
    encoders, nor [VADD], [MADD] and [MSET], which the translator gets wrong (below),
    [MGETS], [SRANDDELM], the operations on two sets and the commands without a key. *)
Definition console_call (c : Command) ts (recv_time : Z) : option (cmd W) :=
  let on_key (f : string → cmd W) := match ts with [k] => Some (f k) | _ => None end in
  let on_value (f : string → string → cmd W) := match ts with [k; v] => Some (f k v) | _ => None end in
  let on_values (f : string → list string → cmd W) := match ts with k :: v :: vs => Some (f k (v :: vs)) | _ => None end in
  let on_number (f : string → Z → cmd W) := match ts with [k; t] => f k <$> word_number strtoull t | _ => None end in
  match c with
  | STR_ADD => on_value CInsertStr
  | STR_SET => on_value CSetStr
  | STRAPPEND => on_value CStrAppend
  | STR_GET => on_key CGetStr
  | STR_DEL => on_key CEraseStr
  | STRLEN => on_key CGetStr
  | STRPOPBACK => on_number (λ k n, CStrPopBack k (u_w 32 n))
  | LADD => on_values CListAdd
  | LAPPEND => on_values CListAppend
  | LPREPEND => on_values CListPrepend
  | LGETSIZE => on_key CListGetSize
  | LGETALL => on_key CListGetAll
  | LPOPFRONT => on_number (λ k n, CListPopFront k (u_w 32 n))
  | LPOPBACK => on_number (λ k n, CListPopBack k (u_w 32 n))
  | LDEL => on_key CListDel
  | VALL => on_key CVsetAll
  | VSIZE => on_key CVsetSize
  | VDELM => on_value CVsetDel
  | VWEIGHT => on_value CVsetWeight
  | VORDER => on_value CVsetOrder
  | VRORDER => on_value CVsetROrder
  | MGET => on_value CMapGet
  | MDEL => on_value CMapDel
  | MEXISTS => on_value CMapExists
  | MALL => on_key CMapAll
  | MFIELDS => on_key CMapFields
  | MVALUES => on_key CMapValues
  | MSIZE => on_key CMapSize
  | SADD => on_values CSetAdd
  | SDELM => on_value CSetDelm
  | SEXISTS => on_value CSetExists
  | SSIZE => on_key CSetSize
  | SALL => on_key CSetAll
  | EXPIRE_AT => on_number CExpireAt
  | EXPIREM_AT => on_number CExpireAtMs
  | EXPIRE_AFTER => on_number (λ k n, CExpireAfter k recv_time n)
  | EXPIREM_AFTER => on_number (λ k n, CExpireAfterMs k recv_time n)
  | PERSIST => on_key CPersist
  | EXPIRATION => on_key CGetExpiration
  | TTL => on_key CGetTimeToLive
  | TYPE => on_key CType
  | DEL => on_key CDelete
  | RENAME => on_value CRename
  | _ => None
  end.

Lemma digits_nonneg (b : bytes) : ∀ acc, 0 ≤ acc → 0 ≤ digits acc b.
Proof.
  induction b as [|c b IH]; intros acc Hacc; cbn [digits]; [done|]. destruct (digit_of c) as [d|] eqn:E; [|done]. apply IH.
  unfold digit_of in E. destruct (_ && _) eqn:Hr in E; [|done]. injection E as <-. apply andb_true_iff in Hr as [?%Z.leb_le _]. lia.
Qed.

Lemma scan_number_nonneg t neg n : scan_number t = Some (neg, n) → 0 ≤ n.
Proof.
  unfold scan_number. destruct (match skip_spaces (str_bytes t) with [] => _ | _ => _ end) as [ng b]. destruct b as [|c b]; [done|].
  destruct (digit_of c); [|done]. intros [= _ Hn]. rewrite <-Hn. change (0 ≤ digits 0 (c :: b)). by apply digits_nonneg.
Qed.

Lemma strtoull_range t n : strtoull t = Some n → 0 ≤ n < 2 ^ 64.
Proof.
  unfold strtoull. destruct (scan_number t) as [[neg m]|] eqn:E; [|done]. simpl. intros [= <-]. apply scan_number_nonneg in E.
  destruct (Z.leb_spec (2 ^ 64) m); [lia|]. destruct neg; [apply u64_range|lia].
Qed.

Lemma number_token_ok (size : Z) conv var put t ts rq n :
  str_size t < size → conv t = Some n → number_token size conv var put (t :: ts, rq) = Some (inl (ts, put rq (var n))).
Proof. intros Hs Hc. unfold number_token, take_token. destruct (Z.leb_spec size (str_size t)); [lia|]. by rewrite Hc. Qed.

Lemma word_number_Some conv t n : word_number conv t = Some n → str_size t < 64 ∧ conv t = Some n.
Proof. unfold word_number. destruct (Z.leb_spec 64 (str_size t)); [done|]. by split. Qed.

(** The translation of each format. *)
Lemma translate_only_key c k :
  GetCommandFormat c = F_ONLY_KEY →
  parse_tokens c (new_request junk) [k] = Some (inl (set_key (flag 0 (set_command (new_request junk) (number_of_command c))) k)).
Proof. intros Hf. unfold parse_tokens. by rewrite Hf. Qed.

Lemma translate_value c k v :
  GetCommandFormat c = F_VALUE →
  parse_tokens c (new_request junk) [k; v]
  = Some (inl (set_value (flag 1 (set_key (flag 0 (set_command (new_request junk) (number_of_command c))) k)) v)).
Proof. intros Hf. unfold parse_tokens. by rewrite Hf. Qed.

Lemma translate_values c k v vs :
  GetCommandFormat c = F_VALUES →
  parse_tokens c (new_request junk) (k :: v :: vs)
  = Some (inl (set_values (flag 3 (set_key (flag 0 (set_command (new_request junk) (number_of_command c))) k)) (v :: vs))).
Proof. intros Hf. unfold parse_tokens. by rewrite Hf. Qed.

Lemma translate_count c k t n :
  GetCommandFormat c = F_COUNT → word_number strtoull t = Some n →
  parse_tokens c (new_request junk) [k; t]
  = Some (inl (set_count (flag 5 (set_key (flag 0 (set_command (new_request junk) (number_of_command c))) k)) (u_w 32 n))).
Proof.
  intros Hf [Hs Hn]%word_number_Some. unfold parse_tokens. rewrite Hf. unfold parse_format, then_, SET_KEY, SET_INTEGER, take_token at 1. cbn [mbind option_bind].
  by erewrite number_token_ok by done.
Qed.

Lemma translate_expire c k t n :
  GetCommandFormat c = F_EXPIRE → word_number strtoull t = Some n →
  parse_tokens c (new_request junk) [k; t]
  = Some (inl (flag 2 (set_expire_time (set_key (flag 0 (set_command (new_request junk) (number_of_command c))) k) n))).
Proof.
  intros Hf [Hs Hn]%word_number_Some. unfold parse_tokens. rewrite Hf. unfold parse_format, then_, SET_KEY, SET_INTEGER, take_token at 1. cbn [mbind option_bind].
  erewrite number_token_ok by done. unfold u_w. rewrite Z.mod_small by (by apply strtoull_range in Hn). done.
Qed.

(** The words fit the lengths that are written before them: 16 bits for the key, 32
    for the others and for their number. *)
Definition line_fits ts : bool := match ts with k :: vs => fits 16 k && all_fit (fits 32) vs | [] => true end.

(** The request of a line fits the wire and arrives as the call. *)
Definition arrives_as c ts (t : Z) (junk' : Z * Z * Z) (x : cmd W) : Prop :=
  ∃ rq, parse_tokens c (new_request junk) ts = Some (inl rq) ∧ request_fits rq = true
    ∧ (let rq' := transmitted (new_request junk') rq in
       request_cmd rq' t = Some x ∧ head ts = Some (req_key rq') ∧ command_of (command rq') = Some c).

Lemma all_fit_head {A} (ok : A → bool) x (l : list A) : all_fit ok (x :: l) = true → ok x = true.
Proof. unfold all_fit. rewrite andb_true_iff. cbn [forallb]. rewrite andb_true_iff. tauto. Qed.

(** A count is the low half of the first word of the union. *)
Lemma low_half (a n : Z) : (a * 2 ^ 32 + n) mod 2 ^ 32 = n mod 2 ^ 32.
Proof. rewrite Z.add_comm. by apply Z.mod_add. Qed.

Lemma transmitted_count (junk' : Z * Z * Z) c k (n : Z) :
  ∃ t l r, transmitted (new_request junk') (set_count (flag 5 (set_key (flag 0 (set_command (new_request junk) (number_of_command c))) k)) (u_w 32 n))
    = MkRequest 33 (number_of_command c) k [] [] "" [] t l r ∧ l mod 2 ^ 32 = u_w 32 n.
Proof.
  destruct junk as [[? ?] ?], junk' as [[? ?] ?]. eexists _, _, _. split; [reflexivity|]. unfold Mmbp.count, u_w. cbn -[Z.pow].
  by rewrite !low_half, !Z.mod_mod by done.
Qed.

Ltac fits_tac := unfold request_fits; cbn -[Z.pow fits all_fit in_width]; rewrite ?andb_true_iff; split_and!; done.

Lemma line_arrives c ts (t : Z) (x : cmd W) (junk' : Z * Z * Z) :
  console_call c ts t = Some x → line_fits ts = true → in_width 64 junk.1.1 = true → arrives_as c ts t junk' x.
Proof.
  intros Hx Hf Hj. destruct junk' as [[i1 i2] i3]. unfold arrives_as. destruct junk as [[j1 j2] j3] eqn:Ej. cbn [fst] in Hj.
  destruct c; try discriminate Hx; cbn [console_call] in Hx; (destruct ts as [|k ts]; [done|]); cbn [line_fits] in Hf;
    apply andb_true_iff in Hf as [Hk Hvs].
  all: try (destruct ts; [|done]; injection Hx as <-; eexists; split; [rewrite <-Ej; by apply translate_only_key|]; rewrite Ej; split; [fits_tac|by split_and!]).
  all: destruct ts as [|v ts]; [done|].
  all: pose proof (all_fit_head _ _ _ Hvs) as Hv.
  all: try (injection Hx as <-; eexists; split; [rewrite <-Ej; by apply translate_values|]; rewrite Ej; split; [fits_tac|by split_and!]).
  all: destruct ts as [|b ts]; try done.
  all: try (injection Hx as <-; eexists; split; [rewrite <-Ej; by apply translate_value|]; rewrite Ej; split; [fits_tac|by split_and!]).
  all: destruct (word_number strtoull v) as [n|] eqn:Hn; [|done]; injection Hx as <-; apply word_number_Some in Hn as Hn'; destruct Hn' as [_ Hn'%strtoull_range].
  all: try (eexists; split; [rewrite <-Ej; by apply translate_count|]; rewrite Ej; split; [fits_tac|];
            rewrite <-Ej; match goal with |- context [number_of_command ?cc] =>
              destruct (transmitted_count (i1, i2, i3) cc k n) as (? & ? & ? & -> & <-) end; by split_and!).
  all: assert (in_width 64 n = true) by (apply in_width_spec; lia).
  all: eexists; split; [rewrite <-Ej; by apply translate_expire|]; rewrite Ej; split; [fits_tac|by split_and!].
Qed.

(** C27: a line of the console for one of the commands of [console_call], whose words fit
    the lengths they are sent with, is translated to a request; its bytes are read back by
    the server as a request for exactly the call the line means; and a manager whose
    instances are unlocked executes that call on the instance of the key, no other,
    unlocks it, and makes the response of the result, as the code does for the command.  The lines of ranges, [VADD], [MADD],
    [MSET], [MGETS], [SRANDDELM], two sets and the commands without a key are not among
    them. *)
Theorem console_line_is_call `{Kvarint, !KvarintLaws, NetOrder, !NetOrderLaws, XXHash, StringView, !StringViewLaws}
    c (line rest : bytes) (t : Z) (x : cmd W) (junk' : Z * Z * Z) (E : Env) (stat : string) rs (m : DatabaseManager W C) :
  let ts := map string_of_list_ascii (Tokenizer.words line) in
  blen line < npos → console_call c ts t = Some x → line_fits ts = true → in_width 64 junk.1.1 = true →
  power_of_2 (instances_ m) → all_unlocked (instances_ m) →
  ∃ rq rq' inst, let i := key_index m (req_key rq') in
    Parse c (new_request junk) line = Some (inl rq)
    ∧ request_ParseFrom (new_request junk') (request_SerializeTo rq ++ rest) = Some (rq', rest)
    ∧ head ts = Some (req_key rq') ∧ command_of (command rq') = Some c
    ∧ instances_ m !! i = Some inst
    ∧ manager_Execute E stat rq' (Some rs) (SetRecvTime m t)
      = ('(db, r) ← run_cmd E x (inst_db inst);
         Some (with_instances (SetRecvTime m t) (<[i := MkInstance db Unlocked]> (instances_ m)), Some (answer rq' rs r))).
Proof.
  intros ts Hl Hx Hf Hj Hp Hu. destruct (line_arrives c ts t x junk' Hx Hf Hj) as (rq & Hrq & Hfit & Hcmd & Hk & Hc).
  set (rq' := transmitted (new_request junk') rq) in *.
  destruct (lookup_lt_is_Some_2 (instances_ m) (key_index m (req_key rq'))) as [inst Hi]; [by apply key_index_lt|].
  assert (inst_lock inst = Unlocked) as Hul by (by eapply (Forall_lookup_1 _ _ _ _ Hu)).
  exists rq, rq', inst. split_and!.
  - unfold Parse. by rewrite Tokenizer.tokens_are_words.
  - apply request_reads_back; [done|]. by destruct junk' as [[? ?] ?].
  - done.
  - done.
  - done.
  - by apply (manager_call stat E rq' rs x (SetRecvTime m t) inst).
Qed.


(** The console cannot send [MSET]: the translator takes the field for the value too,
    does not move on, and then finds tokens left over; every line of that command is a
    syntax error. *)
Theorem console_refuses_mset ts : parse_tokens MSET (new_request junk) ts = Some (inr E_SYNTAX_ERROR).
Proof. unfold parse_tokens. simpl. destruct ts as [|k [|f ts]]; done. Qed.

Lemma vset_members_odd (n : nat) : ∀ ts rq x, length ts = (2 * n + 1)%nat → vset_members ts rq ≠ Some (inl x).
Proof.
  induction n as [|n IH]; intros ts rq x Hl.
  - destruct ts as [|w [|? ?]]; try done. simpl. destruct (128 <=? _); [done|]. by destruct (strtod w).
  - destruct ts as [|w [|m ts]]; [simpl in Hl; lia..|]. cbn [vset_members]. destruct (128 <=? _); [done|]. destruct (strtod w); [|done].
    apply IH. simpl in Hl. lia.
Qed.

(** The words of a line that names a key and pairs. *)
Definition pair_words k (pairs : list (string * string)) : list string := k :: concat (map (λ p, [p.1; p.2]) pairs).

(** The console cannot add members to a sorted set: the translator skips the first
    weight, so that of a key and pairs of weight and member it is left with an odd
    number of words, and reports a syntax error (or overflows the buffer for a word). *)
Theorem console_refuses_vadd k (pairs : list (string * string)) :
  pairs ≠ [] → ∀ rq, parse_tokens VADD (new_request junk) (pair_words k pairs) ≠ Some (inl rq).
Proof.
  intros Hne rq Hp. unfold parse_tokens, pair_words in Hp. cbn [GetCommandFormat parse_format] in Hp. unfold then_, SET_KEY, take_token in Hp. cbn [mbind option_bind] in Hp.
  destruct pairs as [|[w m] pairs]; [done|]. cbn [map concat app tail fst snd] in Hp.
  assert (length (m :: concat (map (λ p : string * string, [p.1; p.2]) pairs)) = 2 * length pairs + 1)%nat as Hl.
  { clear. simpl. induction pairs as [|p pairs IH]; simpl; lia. }
  destruct (vset_members _ _) as [[x|e]|] eqn:Ev in Hp; [|done..]. by eapply (vset_members_odd _ _ _ _ Hl) in Ev.
Qed.

(** Adding fields to a map from the console stores something else: the translator
    skips the first field and takes every other word for a field that is its own value. *)
Theorem console_madd_wrong k f v ts (t : Z) :
  ∃ rq, parse_tokens MADD (new_request junk) (k :: f :: v :: ts) = Some (inl rq)
    ∧ request_cmd (W := W) rq t = Some (CMapAdd k (map (λ s, MkKeyValue s s) (v :: ts))).
Proof.
  assert (∀ l rq, map_values l rq = Some (inl ([], set_kvs rq (req_kvs rq ++ map (λ s, MkKeyValue s s) l)))) as Hm.
  { induction l as [|s l IH]; intros rq; simpl; [by rewrite app_nil_r; destruct rq|]. rewrite IH. simpl. by rewrite <-app_assoc. }
  unfold parse_tokens. cbn [GetCommandFormat parse_format]. unfold then_, SET_KEY, take_token. cbn [mbind option_bind tail]. rewrite Hm. cbn [mbind option_bind].
  eexists. split; [done|]. destruct junk as [[? ?] ?]. done.
Qed.

(** A line that stores the intersection, union or difference of two sets crashes the
    server: the request has no key, so the manager has no instance to execute it on. *)
Theorem console_set_store_crashes `{XXHash} (E : Env) (stat : string) c ts rq rs (m : DatabaseManager W C) :
  GetCommandFormat c = F_SET_OP_TO → parse_tokens c (new_request junk) ts = Some (inl rq) → manager_Execute E stat rq rs m = None.
Proof.
  intros Hf Hp. unfold parse_tokens in Hp. rewrite Hf in Hp. cbn [parse_format] in Hp. unfold then_, SET_VALUES in Hp.
  destruct ts as [|v vs]; [done|]. cbn [mbind option_bind] in Hp. destruct (3 <? _); [done|]. cbn [mbind option_bind] in Hp. injection Hp as <-.
  unfold manager_Execute, execute_switch. destruct junk as [[? ?] ?].
  destruct c; try done; cbn [set_values flag set_command set_bits command HasKey TestBit req_bits]; done.
Qed.
End console.
