(* ===== verification/TranslatorExamples.v ===== *)
(** * Concrete lines of the console

    [std::string_view] as the instance of the interface of the tokenizer, and a [strtod]
    that reads integers; lines that the theorems on the translator are applied to. *)

From Stdlib Require Import Ascii String.
From S2P Require Import Prelude Comparator AvlUtil AvlTree Dict HashTableBase HashTable TreeHashTable HashSet.
From S2P Require Import Dictionary Blist Cache ListCache Vset Kvdb KvdbSpec KvdbValues KvdbRefine KvdbCalls.
From S2P Require Import KvdbFacts KvdbErrors KvdbFrame KvdbExamples Mmbp MmbpCodec MmbpExamples.
From S2P Require Import Storage StorageFacts StorageRefine Server ServerExamples Translator TranslatorFacts.

Module TranslatorExamples.
Import KvdbExamples MmbpExamples ServerExamples.
Open Scope string_scope.
Open Scope Z_scope.

#[local] Existing Instance HashString.
#[local] Existing Instance HashInt.
#[local] Existing Instance HashAddr.
#[local] Existing Instance int_bits.

#[export] Instance std_string_view : StringView := {|
  find_first_not_of b c pos := first_from (λ x, negb (Ascii.eqb x c)) b pos;
  find b c pos := first_from (Ascii.eqb c) b pos;
  substr_range b s e := take (Z.to_nat (Z.min e (blen b) - s)) (drop (Z.to_nat s) b);
|}.

#[export] Instance std_string_view_laws : StringViewLaws.
Proof. by split. Qed.

#[export] Instance integer_strtod : Strtod := strtol.

Definition line : bytes := str_bytes "  key   one two ".

Lemma tokenizer_words_witness : Tokenizer.tokens line = Some [str_bytes "key"; str_bytes "one"; str_bytes "two"].
Proof. rewrite (Tokenizer.tokenizer_words line); [reflexivity|by vm_compute]. Defined.

(** The line of an append, translated, sent, read and executed by the manager of four
    instances. *)
Lemma console_line_is_call_witness :
  ∃ rq rq' inst, let i := key_index four (req_key rq') in
    Parse LAPPEND (new_request junk) line = Some (inl rq)
    ∧ request_ParseFrom (new_request (1, 2, 3)) (request_SerializeTo rq ++ [])%list = Some (rq', [])
    ∧ Some "key" = Some (req_key rq') ∧ command_of (command rq') = Some LAPPEND
    ∧ instances_ four !! i = Some inst
    ∧ manager_Execute (at_ 7) "" rq' (Some (new_response 0)) (SetRecvTime four 7)
      = ('(db, r) ← run_cmd (at_ 7) (CListAppend "key" ["one"; "two"]) (inst_db inst);
         Some (with_instances (SetRecvTime four 7) (<[i := MkInstance db Unlocked]> (instances_ four)), Some (answer rq' (new_response 0) r))).
Proof.
  apply (console_line_is_call junk LAPPEND line [] 7 (CListAppend "key" ["one"; "two"]) (1, 2, 3) (at_ 7) "" (new_response 0) four).
  - by vm_compute.
  - reflexivity.
  - reflexivity.
  - reflexivity.
  - exact four_power.
  - exact four_unlocked.
Defined.

(** The whole way of a line. *)
Example line_parsed :
  match Parse LAPPEND (new_request junk) line with Some (inl rq) => request_cmd (W := Z) rq 7 | _ => None end = Some (CListAppend "key" ["one"; "two"]).
Proof. by vm_compute. Qed.

Lemma console_refuses_vadd_witness :
  match parse_tokens VADD (new_request junk) ["k"; "1"; "m"; "2"; "n"] with Some (inl _) => False | _ => True end.
Proof.
  pose proof (console_refuses_vadd junk "k" [("1", "m"); ("2", "n")] ltac:(done)) as Hr. unfold pair_words in Hr. cbn [map concat app fst snd] in Hr.
  destruct (parse_tokens VADD _ _) as [[rq|e]|]; [|done..]. exact (Hr rq eq_refl).
Defined.

Definition store_request : MmbpRequest := match parse_tokens SANDTO (new_request junk) ["d"; "a"; "b"] with Some (inl rq) => rq | _ => new_request junk end.

Lemma console_set_store_crashes_witness : manager_Execute (at_ 1) "" store_request None four = None.
Proof. apply (console_set_store_crashes junk (at_ 1) "" SANDTO ["d"; "a"; "b"] store_request None four); reflexivity. Defined.

(** A number that is too long for the buffer on the stack. *)
Example long_number_overflows :
  parse_tokens STRPOPBACK (new_request junk) ["k"; "1234567890123456789012345678901234567890123456789012345678901234"] = None.
Proof. by vm_compute. Qed.
End TranslatorExamples.
