(* ===== verification/Controller.v ===== *)
(** * The shard controller

    [mmkv/tracker/type.h], [shard_controller_server.h], [shard_controller_server.cc],
    [shard_controller_session.h], [shard_controller_session.cc],
    [internal/shard_controller_session_impl.h] and [mmkv/configd/configd.cc].

    The keys of a cluster fall into shards; the controller keeps the configuration,
    which node holds which shards.  A node that joins is told what to pull from the
    others, a node that leaves what to push to them; the new configuration is pending
    until the node reports that it has finished.

    Messages are protobuf's: records, with [map] fields as finite maps.  The order in
    which a map is iterated is not specified, so it comes from the outside, as do the
    address of a peer, the random numbers drawn, the state of connections and what is
    left of a repeated field that is moved away ([Net]).
    What a handler sends is a list of [Output]s.  [None] is a failed assertion.  The
    field [node_session_map] is left out: nothing is ever inserted. *)

From Stdlib Require Import String.
From S2P Require Import Prelude.

(** ** Messages and configurations *)

Record NodeConf := MkNodeConf { nc_port : Z; nc_host : string; nc_mmkvd_port : Z; nc_shard_ids : list Z }.

(** [node_conf_map]. *)
Abbreviation Configuration := (gmap Z NodeConf).

Definition INVALID_NODE_ID : Z := 2 ^ 64 - 1.

Inductive ConfState := CONF_STATE_JOIN_NODE | CONF_STATE_LEAVE_NODE.

#[export] Instance ConfState_eq_dec : EqDecision ConfState.
Proof. solve_decision. Defined.

#[export] Instance ConfState_countable : Countable ConfState.
Proof.
  refine (inj_countable' (λ s, match s with CONF_STATE_JOIN_NODE => true | CONF_STATE_LEAVE_NODE => false end)
    (λ b : bool, if b then CONF_STATE_JOIN_NODE else CONF_STATE_LEAVE_NODE) _). by intros [].
Defined.

Record PendingConf := MkPending { conf : Configuration; state : ConfState; pending_node_id : Z }.

Inductive ControllerOperation :=
  | CONTROL_OP_ADD_NODE | CONTROL_OP_LEAVE_NODE | CONTROL_OP_ADD_NODE_COMPLETE | CONTROL_OP_LEAVE_NODE_COMPLETE
  | CONTROL_OP_QUERY_NODE_INFO.

Inductive ControllerStatusCode :=
  | CONTROL_STATUS_OK | CONTROL_STATUS_WAIT | CONTROL_STATUS_HB | CONTROL_STATUS_NODE_HAS_ADDED | CONTROL_STATUS_NODE_FULL
  | CONTROL_STATUS_NODE_NON_EXISTS | CONTROL_STATUS_INVALID_MSG | CONTROL_STATUS_CONF_CHANGE.

Record ControllerRequest := MkControllerRequest {
  operation : ControllerOperation;
  req_node_id : Z;
  req_sharder_port : Z;
  req_mmkvd_port : Z;
  req_shard_ids : list Z;
}.

Record NodeInfo := MkNodeInfo { ni_node_id : Z; ni_port : Z; ni_host : string; ni_shard_ids : list Z; ni_is_push : bool }.

Record ControllerResponse := MkControllerResponse {
  status : ControllerStatusCode;
  resp_node_id : option Z;
  node_infos : list NodeInfo;
  resp_shard_num : option Z;
}.

(** Connections have numbers. *)
Inductive Output := Send (conn : Z) (resp : ControllerResponse) | ShutdownWrite (conn : Z) | SyncConfig (c : Configuration).

Record Net := MkNet {
  peer_ip : string;
  draws : list Z;
  map_order : Configuration → list (Z * NodeConf);
  alive : Z → bool;
  moved_from : list Z → list Z;
}.

(** ** The state *)

(** [sessions] has the field [node_id_] of the session of each connection. *)
Record Controller := MkController {
  shard_num_ : Z;
  config_ : Configuration;
  pending_conf_q_ : list PendingConf;
  pending_conf_conn_dict_ : gmap (ConfState * Z) Z;
  sessions : gmap Z Z;
}.

Definition controller_new (shard_num : Z) : Controller := MkController shard_num ∅ [] ∅ ∅.

Definition with_config (c : Controller) (conf : Configuration) : Controller :=
  MkController (shard_num_ c) conf (pending_conf_q_ c) (pending_conf_conn_dict_ c) (sessions c).
Definition with_queue (c : Controller) (q : list PendingConf) : Controller :=
  MkController (shard_num_ c) (config_ c) q (pending_conf_conn_dict_ c) (sessions c).
Definition with_dict (c : Controller) (d : gmap (ConfState * Z) Z) : Controller :=
  MkController (shard_num_ c) (config_ c) (pending_conf_q_ c) d (sessions c).
Definition with_sessions (c : Controller) (s : gmap Z Z) : Controller :=
  MkController (shard_num_ c) (config_ c) (pending_conf_q_ c) (pending_conf_conn_dict_ c) s.

Definition GetRecentConf (c : Controller) : Configuration := match pending_conf_q_ c with [] => config_ c | p :: _ => conf p end.

Definition PushPendingConf (c : Controller) (p : PendingConf) : Controller := with_queue c (pending_conf_q_ c ++ [p]).

(** [GenerateNodeId]: the loop over the numbers drawn, [None] when none of them will do. *)
Fixpoint generate_loop (draws : list Z) (pre_id : Z) (m : Configuration) : option Z :=
  match draws with
  | [] => None
  | id :: draws =>
      if id =? pre_id then generate_loop draws pre_id m
      else match m !! id with None => Some id | Some _ => generate_loop draws id m end
  end.

Definition GenerateNodeId (net : Net) (c : Controller) : option Z := generate_loop (draws net) INVALID_NODE_ID (GetRecentConf c).

Definition MakeControllerResponse (s : ControllerStatusCode) : ControllerResponse := MkControllerResponse s None [] None.

Definition SendRejectResponse (conn : Z) (s : ControllerStatusCode) : Output := Send conn (MakeControllerResponse s).

(** ** Joining *)

(** A [uint32_t]: the width of a session's [node_id_], which is given ids of 64 bits. *)
Definition u32 (x : Z) : Z := x `mod` 2 ^ 32.

Definition set_shard_ids (nc : NodeConf) (ids : list Z) : NodeConf := MkNodeConf (nc_port nc) (nc_host nc) (nc_mmkvd_port nc) ids.

Definition shard_ids_size (nc : NodeConf) : Z := Z.of_nat (length (nc_shard_ids nc)).

Definition node_info (id : Z) (nc : NodeConf) (ids : list Z) (is_push : bool) : NodeInfo :=
  MkNodeInfo id (nc_port nc) (nc_host nc) ids is_push.

(** The loop over the old nodes: their new configurations, the shards of the new node,
    and what the response says of each node. *)
Fixpoint steal (every_node_at_least more_than_one_num : Z) (nodes : list (Z * NodeConf)) :
    option (list (Z * NodeConf) * list Z * list NodeInfo) :=
  match nodes with
  | [] => Some ([], [], [])
  | (id, nc) :: nodes =>
      let diff := i64 (u64 (shard_ids_size nc - every_node_at_least)) in
      if diff <? 0 then None
      else if (0 <? more_than_one_num) && negb (0 <? diff) then
        '(ncs, ids, infos) ← steal every_node_at_least more_than_one_num nodes;
        Some ((id, nc) :: ncs, ids, infos)
      else
        let '(diff, more_than_one_num) := if 0 <? more_than_one_num then (diff - 1, more_than_one_num - 1) else (diff, more_than_one_num) in
        let kept := Z.to_nat (shard_ids_size nc - diff) in
        let moved := reverse (drop kept (nc_shard_ids nc)) in
        '(ncs, ids, infos) ← steal every_node_at_least more_than_one_num nodes;
        Some ((id, set_shard_ids nc (take kept (nc_shard_ids nc))) :: ncs, moved ++ ids, node_info id nc moved false :: infos)
  end.

(** The configurations of the old nodes, the shards of the new one, and the node infos. *)
Definition redistribute (net : Net) (shard_num new_node_num : Z) (recent : Configuration) :
    option (Configuration * list Z * list NodeInfo) :=
  if new_node_num =? 1 then Some (recent, seqZ 0 shard_num, [])
  else
    '(ncs, ids, infos) ← steal (shard_num / new_node_num) (shard_num `mod` new_node_num) (map_order net recent);
    Some (list_to_map ncs, ids, infos).

Definition Join (net : Net) (conn : Z) (req : ControllerRequest) (c : Controller) : option (Controller * list Output) :=
  let recent := GetRecentConf c in
  if negb (req_node_id req =? INVALID_NODE_ID) then
    match recent !! req_node_id req with
    | Some _ => Some (c, [SendRejectResponse conn CONTROL_STATUS_NODE_HAS_ADDED; ShutdownWrite conn])
    | None => Some (c, [ShutdownWrite conn])
    end
  else if shard_num_ c <? u64 (Z.of_nat (size recent) + 1) then
    Some (c, [SendRejectResponse conn CONTROL_STATUS_NODE_FULL; ShutdownWrite conn])
  else
    peer_node_id ← GenerateNodeId net c;
    let new_node_num := Z.of_nat (size recent) + 1 in
    '(old, ids, infos) ← redistribute net (shard_num_ c) new_node_num recent;
    let new_node_conf := MkNodeConf (req_sharder_port req) (peer_ip net) (req_mmkvd_port req) ids in
    let pending := MkPending (<[peer_node_id := new_node_conf]> old) CONF_STATE_JOIN_NODE peer_node_id in
    let c := PushPendingConf c pending in
    let c := with_sessions c (<[conn := u32 (req_node_id req)]> (sessions c)) in
    Some (c, [Send conn (MkControllerResponse CONTROL_STATUS_OK (Some peer_node_id) infos (Some (shard_num_ c)))]).

(** ** Leaving *)

(** The loop over the nodes that stay; [removed] are the shards not yet handed over. *)
Fixpoint hand_over (at_least_shard_num more_than_node_num : Z) (removed : list Z) (nodes : list (Z * NodeConf)) :
    option (list (Z * NodeConf) * list NodeInfo) :=
  match nodes with
  | [] => Some ([], [])
  | (id, nc) :: nodes =>
      if negb (shard_ids_size nc <? at_least_shard_num) then None
      else
        let diff := i64 (u64 (at_least_shard_num - shard_ids_size nc)) in
        if diff <? 0 then None
        else if (0 <? more_than_node_num) && (diff =? 0) then
          '(ncs, infos) ← hand_over at_least_shard_num more_than_node_num removed nodes;
          Some ((id, nc) :: ncs, infos)
        else
          let '(diff, more_than_node_num) := if 0 <? more_than_node_num then (diff + 1, more_than_node_num - 1) else (diff, more_than_node_num) in
          let given := take (Z.to_nat diff) removed in
          let removed := drop (Z.to_nat diff) removed in
          let nc' := set_shard_ids nc (nc_shard_ids nc ++ given) in
          let info := node_info id nc given true in
          match removed with
          | [] => Some ((id, nc') :: nodes, [info])
          | _ =>
              '(ncs, infos) ← hand_over at_least_shard_num more_than_node_num removed nodes;
              Some ((id, nc') :: ncs, info :: infos)
          end
  end.

(** The configuration without the node [peer_node_id]; the last node stays in it. *)
Definition without_node (net : Net) (recent : Configuration) (peer_node_id : Z) (nc : NodeConf) :
    option (Configuration * list NodeInfo) :=
  let new_node_num := Z.of_nat (size recent) - 1 in
  if 0 <? new_node_num then
    '(ncs, infos) ← hand_over (shard_ids_size nc / new_node_num) (shard_ids_size nc `mod` new_node_num) (nc_shard_ids nc)
                      (map_order net (delete peer_node_id recent));
    Some (list_to_map ncs, infos)
  else Some (recent, []).

Definition Leave (net : Net) (conn : Z) (req : ControllerRequest) (c : Controller) : option (Controller * list Output) :=
  if req_node_id req =? INVALID_NODE_ID then Some (c, [SendRejectResponse conn CONTROL_STATUS_NODE_NON_EXISTS])
  else
    let peer_node_id := req_node_id req in
    let recent := GetRecentConf c in
    match recent !! peer_node_id with
    | None => Some (c, [SendRejectResponse conn CONTROL_STATUS_NODE_NON_EXISTS])
    | Some nc =>
        node_id ← sessions c !! conn;
        if negb (node_id =? peer_node_id) then None
        else
          '(new_conf, infos) ← without_node net recent peer_node_id nc;
          let c := PushPendingConf c (MkPending new_conf CONF_STATE_LEAVE_NODE peer_node_id) in
          Some (c, [Send conn (MkControllerResponse CONTROL_STATUS_OK (Some peer_node_id) infos None)])
    end.

(** ** Completion *)

(** [UpdateConfig]. *)
Definition UpdateConfig (c : Controller) (new_conf : Configuration) : Controller * list Output := (with_config c new_conf, [SyncConfig new_conf]).

(** [CheckPendingConfSessionAndResponse]; the fuel is the length of the queue. *)
Fixpoint check_pending (fuel : nat) (net : Net) (c : Controller) : option (Controller * list Output) :=
  match fuel, pending_conf_q_ c with
  | S fuel, p :: q =>
      let key := (state p, pending_node_id p) in
      match pending_conf_conn_dict_ c !! key with
      | None => Some (c, [])
      | Some conn =>
          let '(c, out) :=
            if alive net conn then
              let '(c, out) := UpdateConfig c (conf p) in
              (c, Send conn (MakeControllerResponse CONTROL_STATUS_CONF_CHANGE) :: out)
            else (with_dict c (delete key (pending_conf_conn_dict_ c)), []) in
          '(c, out') ← check_pending fuel net (with_queue c q);
          Some (c, out ++ out')
      end
  | _, _ => None
  end.

Definition CheckPendingConfSessionAndResponse (net : Net) (c : Controller) : option (Controller * list Output) :=
  check_pending (S (length (pending_conf_q_ c))) net c.

(** [ControllorOperationComplete]; a dictionary keeps the first of two entries with the
    same key. *)
Definition ControllorOperationComplete (net : Net) (conn : Z) (req : ControllerRequest) (conf_state : ConfState) (c : Controller) :
    option (Controller * list Output) :=
  match pending_conf_q_ c with
  | [] => None
  | p :: q =>
      if (pending_node_id p =? req_node_id req) && bool_decide (state p = conf_state) then
        let '(c, out) := UpdateConfig c (conf p) in
        let c := with_queue c q in
        '(c, out') ← (match q with [] => Some (c, []) | _ => CheckPendingConfSessionAndResponse net c end);
        Some (c, out ++ out' ++ [Send conn (MakeControllerResponse CONTROL_STATUS_CONF_CHANGE)])
      else
        let key := (conf_state, req_node_id req) in
        let d := match pending_conf_conn_dict_ c !! key with None => <[key := conn]> (pending_conf_conn_dict_ c) | Some _ => pending_conf_conn_dict_ c end in
        Some (with_dict c d, [Send conn (MakeControllerResponse CONTROL_STATUS_WAIT)])
  end.

(** ** Queries *)

(** The nodes that hold a shard. *)
Definition holders (nodes : list (Z * NodeConf)) (shard : Z) : list (Z * NodeConf) :=
  filter (λ x, shard ∈ nc_shard_ids x.2) nodes.

(** [node_id_shard_id_map_]: the shards asked for, by the node that holds them. *)
Definition collect (found : list (Z * Z)) : gmap Z (list Z) :=
  foldl (λ table x, <[x.1 := default [] (table !! x.1) ++ [x.2]]> table) ∅ found.

(** The node infos: the shards of a node are moved out of the table into its first
    entry; what the move leaves behind goes to the next entry of that node. *)
Fixpoint query_infos (moved_from : list Z → list Z) (table : gmap Z (list Z)) (confs : list (Z * NodeConf)) : list NodeInfo :=
  match confs with
  | [] => []
  | (id, nc) :: confs =>
      let ids := default [] (table !! id) in
      node_info id nc ids true :: query_infos moved_from (<[id := moved_from ids]> table) confs
  end.

Definition QueryNodeInfo (net : Net) (conn : Z) (req : ControllerRequest) (c : Controller) : option (Controller * list Output) :=
  node_id ← sessions c !! conn;
  if negb (req_node_id req =? node_id) then Some (c, [ShutdownWrite conn])
  else
    let confs := concat (map (holders (map_order net (GetRecentConf c))) (req_shard_ids req)) in
    if negb (bool_decide (length confs = length (req_shard_ids req))) then None
    else
      let found := zip (map fst confs) (req_shard_ids req) in
      Some (c, [Send conn (MkControllerResponse CONTROL_STATUS_OK None (query_infos (moved_from net) (collect found) confs) None)]).

(** ** The server *)

Inductive Event := Connect (conn junk : Z) | Message (conn : Z) (net : Net) (req : ControllerRequest) | Disconnect (conn : Z).

(** The message callback; the case of the query has no [break]. *)
Definition on_controller_message (net : Net) (conn : Z) (req : ControllerRequest) (c : Controller) : option (Controller * list Output) :=
  match operation req with
  | CONTROL_OP_ADD_NODE => Join net conn req c
  | CONTROL_OP_LEAVE_NODE => Leave net conn req c
  | CONTROL_OP_ADD_NODE_COMPLETE => ControllorOperationComplete net conn req CONF_STATE_JOIN_NODE c
  | CONTROL_OP_LEAVE_NODE_COMPLETE => ControllorOperationComplete net conn req CONF_STATE_LEAVE_NODE c
  | CONTROL_OP_QUERY_NODE_INFO => '(c, out) ← QueryNodeInfo net conn req c; Some (c, out ++ [ShutdownWrite conn])
  end.

(** A session's [node_id_], 32 bits wide, is not initialised. *)
Definition controller_step (e : Event) (c : Controller) : option (Controller * list Output) :=
  match e with
  | Connect conn junk => Some (with_sessions c (<[conn := u32 junk]> (sessions c)), [])
  | Disconnect conn => Some (with_sessions c (delete conn (sessions c)), [])
  | Message conn net req => on_controller_message net conn req c
  end.

Fixpoint controller_run (es : list Event) (c : Controller) : option (Controller * list Output) :=
  match es with
  | [] => Some (c, [])
  | e :: es => '(c, out) ← controller_step e c; '(c, out') ← controller_run es c; Some (c, out ++ out')
  end.

(** [CONF_OP_FETCH] of the configuration daemon, and [SyncConfig]: every peer is sent the
    configuration, which is swapped into the message and back. *)
Definition fetch_config (c : Controller) : Configuration := config_ c.

Fixpoint sync_peers (peers : list Z) (resp_map conf_copy : Configuration) : list (Z * Configuration) :=
  match peers with
  | [] => []
  | peer :: peers =>
      let '(resp_map, conf_copy) := (conf_copy, resp_map) in
      (peer, resp_map) :: (let '(conf_copy, resp_map) := (resp_map, conf_copy) in sync_peers peers resp_map conf_copy)
  end.
