(* ===== verification/ControllerFacts.v ===== *)
(** * What the shard controller guarantees

    Whatever nodes join and complete, in whatever order, every configuration gives each
    shard to exactly one node, and the nodes hold equal numbers of shards but for one.
    And where it goes wrong: joins that overlap forget each other, nodes cannot leave,
    completions out of order stop the controller. *)

From S2P Require Import Prelude Controller.

(** ** Configurations *)

(** All shards, node by node. *)
Definition shards_of (nodes : list (Z * NodeConf)) : list Z := flat_map (λ x, nc_shard_ids x.2) nodes.
Definition shards (m : Configuration) : list Z := shards_of (map_to_list m).

Definition node_num (m : Configuration) : Z := Z.of_nat (size m).

(** Each shard below [S] is at one node, and no node has more than one shard more than
    another. *)
Definition balanced (S : Z) (m : Configuration) : Prop :=
  ∀ id nc, m !! id = Some nc → S / node_num m ≤ shard_ids_size nc ≤ S / node_num m + 1.

Definition sound (S : Z) (m : Configuration) : Prop :=
  m = ∅ ∨ (shards m ≡ₚ seqZ 0 S ∧ balanced S m ∧ node_num m ≤ S).

(** The order of iteration is some order. *)
Definition net_ok (net : Net) : Prop := ∀ m, map_order net m ≡ₚ map_to_list m.

#[export] Instance shards_of_Permutation : Proper ((≡ₚ) ==> (≡ₚ)) shards_of.
Proof. intros l l' Hl. by apply Permutation_flat_map. Qed.

Lemma shards_of_cons id nc nodes : shards_of ((id, nc) :: nodes) = nc_shard_ids nc ++ shards_of nodes.
Proof. done. Qed.

Lemma shards_of_length_le id nc nodes : (id, nc) ∈ nodes → shard_ids_size nc ≤ Z.of_nat (length (shards_of nodes)).
Proof.
  unfold shard_ids_size. induction nodes as [|[id' nc'] nodes IH]; [by intros ?%not_elem_of_nil|].
  intros [[= -> ->]|Hin]%elem_of_cons; rewrite shards_of_cons, length_app; [lia|]. specialize (IH Hin). lia.
Qed.

Lemma sound_length S m : 0 ≤ S → shards m ≡ₚ seqZ 0 S → Z.of_nat (length (shards m)) = S.
Proof. intros HS ->. rewrite length_seqZ. lia. Qed.

Lemma sound_size S m id nc : 0 ≤ S → shards m ≡ₚ seqZ 0 S → m !! id = Some nc → shard_ids_size nc ≤ S.
Proof.
  intros HS Hp Hl. rewrite <-(sound_length S m HS Hp) at 1. apply shards_of_length_le with id. by apply elem_of_map_to_list.
Qed.

(** ** Taking shards from the old nodes *)

Definition rich (al : Z) (nodes : list (Z * NodeConf)) : Z := Z.of_nat (length (filter (λ x, al < shard_ids_size x.2) nodes)).

Lemma rich_cons al id nc nodes : rich al ((id, nc) :: nodes) = (if bool_decide (al < shard_ids_size nc) then 1 else 0) + rich al nodes.
Proof. unfold rich. rewrite filter_cons. cbn [snd]. case_bool_decide; case_decide; try done; simpl; lia. Qed.

Lemma diff_exact (x : Z) : 0 ≤ x < 2 ^ 63 → i64 (u64 x) = x.
Proof. intros Hx. rewrite u64_small, i64_small; lia. Qed.

Lemma keep_shards id nc (n : nat) ncs ids nodes :
  shards_of ncs ++ ids ≡ₚ shards_of nodes →
  shards_of ((id, set_shard_ids nc (take n (nc_shard_ids nc))) :: ncs) ++ reverse (drop n (nc_shard_ids nc)) ++ ids
  ≡ₚ shards_of ((id, nc) :: nodes).
Proof.
  intros Hsh. rewrite !shards_of_cons. cbn [set_shard_ids nc_shard_ids]. rewrite <-Hsh, reverse_Permutation.
  rewrite <-(take_drop n (nc_shard_ids nc)) at 3. solve_Permutation.
Qed.

Lemma steal_spec al more nodes :
  0 ≤ al → 0 ≤ more → Forall (λ x, al ≤ shard_ids_size x.2 < 2 ^ 31) nodes →
  ∃ ncs ids infos, steal al more nodes = Some (ncs, ids, infos) ∧ ncs.*1 = nodes.*1 ∧ shards_of ncs ++ ids ≡ₚ shards_of nodes
    ∧ Forall (λ x, al ≤ shard_ids_size x.2 ≤ al + 1) ncs
    ∧ Z.of_nat (length (shards_of ncs)) = Z.of_nat (length nodes) * al + Z.min more (rich al nodes)
    ∧ flat_map ni_shard_ids infos = ids.
Proof.
  intros Hal. revert more. induction nodes as [|[id nc] nodes IH]; intros more Hmore Hall.
  { exists [], [], []. split_and!; try done. unfold rich. simpl. lia. }
  apply Forall_cons in Hall as [Hnc Hall]. cbn [snd] in Hnc. cbn [steal]. rewrite diff_exact by lia. rewrite rich_cons.
  assert (0 ≤ rich al nodes) by (unfold rich; lia).
  destruct (Z.ltb_spec (shard_ids_size nc - al) 0) as [|Hdiff]; [lia|].
  destruct (Z.ltb_spec 0 more) as [Hm|Hm]; cbn [andb]; [destruct (Z.ltb_spec 0 (shard_ids_size nc - al)) as [Hd|Hd]; cbn [negb]|].
  - destruct (IH (more - 1) ltac:(lia) Hall) as (ncs & ids & infos & -> & Hids & Hsh & Hbal & Hlen & Hinf). cbn [mbind option_bind].
    set (n := Z.to_nat (shard_ids_size nc - (shard_ids_size nc - al - 1))).
    assert (length (take n (nc_shard_ids nc)) = Z.to_nat (al + 1)) as Ht by (unfold n, shard_ids_size in *; rewrite length_take; lia).
    eexists _, _, _. split; [done|]. split_and!.
    + by rewrite !fmap_cons, Hids.
    + by apply keep_shards.
    + constructor; [|done]. cbn [snd]. unfold shard_ids_size at 1 2. cbn [set_shard_ids nc_shard_ids]. lia.
    + rewrite shards_of_cons, length_app. cbn [set_shard_ids nc_shard_ids length]. rewrite bool_decide_eq_true_2 by lia. lia.
    + simpl. by rewrite Hinf.
  - destruct (IH more Hmore Hall) as (ncs & ids & infos & -> & Hids & Hsh & Hbal & Hlen & Hinf). cbn [mbind option_bind].
    eexists _, _, _. split; [done|]. split_and!; try done.
    + by rewrite !fmap_cons, Hids.
    + rewrite !shards_of_cons, <-app_assoc. by rewrite Hsh.
    + constructor; [cbn [snd]; lia|done].
    + rewrite shards_of_cons, length_app. cbn [length]. rewrite bool_decide_eq_false_2 by lia. unfold shard_ids_size in *. lia.
  - destruct (IH more Hmore Hall) as (ncs & ids & infos & -> & Hids & Hsh & Hbal & Hlen & Hinf). cbn [mbind option_bind].
    set (n := Z.to_nat (shard_ids_size nc - (shard_ids_size nc - al))).
    assert (length (take n (nc_shard_ids nc)) = Z.to_nat al) as Ht by (unfold n, shard_ids_size in *; rewrite length_take; lia).
    eexists _, _, _. split; [done|]. split_and!.
    + by rewrite !fmap_cons, Hids.
    + by apply keep_shards.
    + constructor; [|done]. cbn [snd]. unfold shard_ids_size at 1 2. cbn [set_shard_ids nc_shard_ids]. lia.
    + rewrite shards_of_cons, length_app. cbn [set_shard_ids nc_shard_ids length]. case_bool_decide; lia.
    + simpl. by rewrite Hinf.
Qed.

Lemma rich_all al nodes : Forall (λ x, al < shard_ids_size x.2) nodes → rich al nodes = Z.of_nat (length nodes).
Proof.
  induction 1 as [|[id nc] nodes Hx Hall IH]; [done|]. rewrite rich_cons, bool_decide_eq_true_2, IH by done. cbn [length]. lia.
Qed.

Lemma rich_sum al nodes :
  Forall (λ x, shard_ids_size x.2 ≤ al + 1) nodes →
  Z.of_nat (length (shards_of nodes)) ≤ Z.of_nat (length nodes) * al + rich al nodes.
Proof.
  induction 1 as [|[id nc] nodes Hx Hall IH]; [done|]. rewrite rich_cons, shards_of_cons, length_app. cbn [snd length] in *.
  unfold shard_ids_size in *. case_bool_decide; lia.
Qed.

(** Enough of the old nodes have a shard to spare. *)
Lemma rich_enough S n (nodes : list (Z * NodeConf)) :
  n = Z.of_nat (length nodes) → 0 < n → 0 ≤ S → Z.of_nat (length (shards_of nodes)) = S →
  Forall (λ x, S / n ≤ shard_ids_size x.2 ≤ S / n + 1) nodes → S `mod` (n + 1) ≤ rich (S / (n + 1)) nodes.
Proof.
  intros Hn Hpos HS Hlen Hall. set (al := S / (n + 1)). pose proof (Z.mod_pos_bound S (n + 1) ltac:(lia)) as Hmod.
  assert (al ≤ S / n) as Hle by (apply Z.div_le_compat_l; lia). pose proof (Z.div_mod S (n + 1) ltac:(lia)) as Hdm. fold al in Hdm.
  assert (0 ≤ al) by (apply Z.div_pos; lia).
  destruct (decide (al < S / n)) as [Hlt|Heq].
  - rewrite rich_all; [lia|]. eapply Forall_impl; [exact Hall|]. simpl. lia.
  - assert (Z.of_nat (length (shards_of nodes)) ≤ Z.of_nat (length nodes) * al + rich al nodes) as Hs; [|nia].
    apply rich_sum. eapply Forall_impl; [exact Hall|]. simpl. lia.
Qed.

(** ** What the new node is told *)

(** A node info names a node, its address, and the shards it has no more. *)
Definition pulled_from (before after : Z → NodeConf → Prop) (i : NodeInfo) : Prop :=
  ∃ nc nc', before (ni_node_id i) nc ∧ after (ni_node_id i) nc' ∧ nc_shard_ids nc = nc_shard_ids nc' ++ reverse (ni_shard_ids i)
    ∧ ni_host i = nc_host nc ∧ ni_port i = nc_port nc ∧ ni_is_push i = false.

Lemma pulled_from_mono (before before' after after' : Z → NodeConf → Prop) infos :
  (∀ id nc, before id nc → before' id nc) → (∀ id nc, after id nc → after' id nc) →
  Forall (pulled_from before after) infos → Forall (pulled_from before' after') infos.
Proof. intros Hb Ha Hf. eapply Forall_impl; [exact Hf|]. intros i (nc & nc' & ? & ? & ?). exists nc, nc'. split_and!; naive_solver. Qed.

Lemma steal_infos al : ∀ nodes more ncs ids infos,
  steal al more nodes = Some (ncs, ids, infos) → Forall (pulled_from (λ id nc, (id, nc) ∈ nodes) (λ id nc, (id, nc) ∈ ncs)) infos.
Proof.
  induction nodes as [|[id nc] nodes IH]; intros more ncs ids infos; cbn [steal]; [intros [= <- <- <-]; constructor|].
  destruct (_ <? 0); [done|]. destruct (_ && _).
  - destruct (steal al more nodes) as [[[ncs' ids'] infos']|] eqn:E; [|done]. intros [= <- <- <-].
    eapply pulled_from_mono; [..|exact (IH _ _ _ _ E)]; intros; by apply list_elem_of_further.
  - destruct (if 0 <? more then _ else _) as [diff more']. destruct (steal al more' nodes) as [[[ncs' ids'] infos']|] eqn:E; [|done].
    intros [= <- <- <-]. constructor.
    + exists nc, (set_shard_ids nc (take (Z.to_nat (shard_ids_size nc - diff)) (nc_shard_ids nc))). cbn [node_info ni_node_id ni_shard_ids].
      split_and!; try done; [by left|by left|]. cbn [set_shard_ids nc_shard_ids]. by rewrite reverse_involutive, take_drop.
    + eapply pulled_from_mono; [..|exact (IH _ _ _ _ E)]; intros; by apply list_elem_of_further.
Qed.

(** ** The configuration with a new node *)

Lemma shards_insert (m : Configuration) id nc : m !! id = None → shards (<[id := nc]> m) ≡ₚ nc_shard_ids nc ++ shards m.
Proof. intros Hm. unfold shards. by rewrite map_to_list_insert. Qed.

Lemma node_num_insert (m : Configuration) id nc : m !! id = None → node_num (<[id := nc]> m) = node_num m + 1.
Proof. intros Hm. unfold node_num. rewrite map_size_insert_None by done. lia. Qed.

Lemma order_lookup net m x : net_ok net → x ∈ map_order net m ↔ m !! x.1 = Some x.2.
Proof. intros Hn. rewrite (Hn m). destruct x as [id nc]. by rewrite elem_of_map_to_list. Qed.

Lemma order_NoDup net m : net_ok net → NoDup (map_order net m).*1.
Proof. intros Hn. rewrite (Hn m). apply NoDup_fst_map_to_list. Qed.

Lemma order_length net m : net_ok net → Z.of_nat (length (map_order net m)) = node_num m.
Proof. intros Hn. rewrite (Hn m). unfold node_num. by rewrite length_map_to_list. Qed.

Lemma order_shards net m : net_ok net → shards_of (map_order net m) ≡ₚ shards m.
Proof. intros Hn. by rewrite (Hn m). Qed.

Lemma list_to_map_facts (ncs nodes : list (Z * NodeConf)) :
  NoDup nodes.*1 → ncs.*1 = nodes.*1 →
  shards (list_to_map ncs) ≡ₚ shards_of ncs ∧ node_num (list_to_map ncs) = Z.of_nat (length nodes)
  ∧ ∀ id, is_Some (list_to_map (M := Configuration) ncs !! id) ↔ id ∈ nodes.*1.
Proof.
  intros Hnd Hids. rewrite <-Hids in Hnd.
  assert (map_to_list (list_to_map (M := Configuration) ncs) ≡ₚ ncs) as Hp by (by apply map_to_list_to_map). split_and!.
  - unfold shards. by rewrite Hp.
  - unfold node_num. rewrite <-length_map_to_list, Hp, <-(length_fmap fst ncs), Hids, length_fmap. done.
  - intros id. rewrite <-Hids. rewrite list_elem_of_fmap. split.
    + intros [nc Hl%elem_of_list_to_map_2]. by exists (id, nc).
    + intros ([id' nc] & -> & Hin). exists nc. by apply elem_of_list_to_map_1.
Qed.

Lemma first_node_sound S id nc : 0 < S → nc_shard_ids nc = seqZ 0 S → sound S {[id := nc]}.
Proof.
  intros HS Hids. right. unfold node_num. rewrite map_size_singleton. change (Z.of_nat 1) with 1. split_and!; [..|lia].
  - unfold shards. rewrite map_to_list_singleton. simpl. by rewrite Hids, app_nil_r.
  - intros id' nc' [-> <-]%lookup_singleton_Some. unfold node_num. rewrite map_size_singleton. change (Z.of_nat 1) with 1.
    unfold shard_ids_size. rewrite Hids, length_seqZ, Z.div_1_r. lia.
Qed.

Lemma sound_nonempty S m : 0 < S → shards m ≡ₚ seqZ 0 S → 0 < node_num m.
Proof.
  intros HS Hsh. destruct (decide (m = ∅)) as [->|Hne].
  - apply Permutation_length in Hsh. unfold shards in Hsh. rewrite map_to_list_empty, length_seqZ in Hsh. simpl in Hsh. lia.
  - unfold node_num. assert (size m ≠ 0%nat) by (by intros ?%map_size_empty_inv). lia.
Qed.

Lemma redistribute_sound net S m :
  net_ok net → 0 < S < 2 ^ 31 → sound S m → node_num m + 1 ≤ S →
  ∃ old ids infos, redistribute net S (node_num m + 1) m = Some (old, ids, infos)
    ∧ (∀ id, is_Some (old !! id) ↔ is_Some (m !! id)) ∧ node_num old = node_num m
    ∧ (∀ id nc, m !! id = None → nc_shard_ids nc = ids → sound S (<[id := nc]> old))
    ∧ (m = ∅ ∧ infos = [] ∨ m ≠ ∅ ∧ flat_map ni_shard_ids infos = ids)
    ∧ Forall (pulled_from (λ id nc, m !! id = Some nc) (λ id nc, old !! id = Some nc)) infos.
Proof.
  intros Hnet HS Hm Hfull. unfold redistribute. destruct Hm as [->|(Hsh & Hbal & Hnum)].
  { exists ∅, (seqZ 0 S), []. split_and!; try done; [intros id nc _ Hids; by apply first_node_sound; [lia|]|by left]. }
  set (n := node_num m) in *. assert (0 < n) as Hn by (by eapply sound_nonempty; [|exact Hsh]; lia).
  destruct (Z.eqb_spec (n + 1) 1); [lia|]. set (nodes := map_order net m).
  assert (n = Z.of_nat (length nodes)) as Hlen by (unfold nodes; by rewrite order_length).
  assert (Forall (λ x, S / n ≤ shard_ids_size x.2 ≤ S / n + 1) nodes) as Hall.
  { apply Forall_forall. intros x Hx%(order_lookup net m x Hnet). by eapply Hbal. }
  assert (Z.of_nat (length (shards_of nodes)) = S) as Htot.
  { unfold nodes. rewrite order_shards by done. by apply sound_length; [lia|]. }
  set (al := S / (n + 1)). assert (al ≤ S / n) as Hle by (apply Z.div_le_compat_l; lia). assert (0 ≤ al) by (apply Z.div_pos; lia).
  pose proof (Z.mod_pos_bound S (n + 1) ltac:(lia)) as Hmod. pose proof (Z.div_mod S (n + 1) ltac:(lia)) as Hdm. fold al in Hdm.
  pose proof (rich_enough S n nodes Hlen Hn ltac:(lia) Htot Hall) as Hrich. fold al in Hrich.
  destruct (steal_spec al (S `mod` (n + 1)) nodes) as (ncs & ids & infos & Hst & Hids & Hperm & Hb & Hsum & Hinf); [lia|lia|..].
  { apply Forall_forall. intros x Hx. pose proof (proj1 (Forall_forall _ _) Hall x Hx) as Hx2. simpl in Hx2.
    apply (order_lookup net m x Hnet) in Hx. pose proof (sound_size S m _ _ ltac:(lia) Hsh Hx). lia. }
  rewrite Hst. cbn [mbind option_bind]. exists (list_to_map ncs), ids, infos. split; [done|].
  destruct (list_to_map_facts ncs nodes (order_NoDup net m Hnet) Hids) as (Hsh' & Hnum' & Hdom').
  assert (∀ id, is_Some (list_to_map (M := Configuration) ncs !! id) ↔ is_Some (m !! id)) as Hdom.
  { intros id. rewrite Hdom'. unfold nodes. rewrite (Hnet m). rewrite list_elem_of_fmap. split.
    - intros ([id' nc] & -> & Hin%elem_of_map_to_list). by exists nc.
    - intros [nc Hnc]. exists (id, nc). by rewrite elem_of_map_to_list. }
  split; [exact Hdom|]. split; [lia|]. split; cycle 1.
  { split; [right; split; [|done]; intros ->; by unfold n, node_num in Hn; rewrite map_size_empty in Hn|].
    eapply pulled_from_mono; [..|exact (steal_infos _ _ _ _ _ _ Hst)]; intros id nc Hin; [by apply (order_lookup net m (id, nc))|].
    apply elem_of_list_to_map_1; [|done]. rewrite Hids. by apply order_NoDup. }
  intros id nc Hid Hnc. right.
  assert (list_to_map (M := Configuration) ncs !! id = None) as Hfresh by (apply eq_None_not_Some; rewrite Hdom, Hid; by intros [? ?]).
  split_and!.
  - rewrite shards_insert, Hnc, Hsh', Permutation_app_comm, Hperm by done. unfold nodes. by rewrite order_shards.
  - apply Permutation_length in Hperm. rewrite length_app in Hperm.
    intros id' nc' Hl. rewrite node_num_insert, Hnum', <-Hlen by done. fold al.
    apply lookup_insert_Some in Hl as [[-> <-]|[Hne Hl]].
    + unfold shard_ids_size. rewrite Hnc. lia.
    + apply elem_of_list_to_map_2 in Hl. exact (proj1 (Forall_forall _ _) Hb _ Hl).
  - rewrite node_num_insert by done. lia.
Qed.

(** ** Joining *)

(** An id the controller can give to a new node. *)
Definition unused (m : Configuration) (id : Z) : Prop := m !! id = None ∧ id ≠ INVALID_NODE_ID.

Lemma generate_loop_fresh m draws pre_id id : generate_loop draws pre_id m = Some id → m !! id = None.
Proof.
  revert pre_id. induction draws as [|d draws IH]; intros pre_id; simpl; [done|]. destruct (d =? pre_id); [apply IH|].
  destruct (m !! d) eqn:E; [apply IH|]. by intros [= <-].
Qed.

Lemma generate_loop_ends m draws pre_id :
  Exists (unused m) draws → pre_id = INVALID_NODE_ID ∨ is_Some (m !! pre_id) → is_Some (generate_loop draws pre_id m).
Proof.
  intros Hex. revert pre_id. induction draws as [|d draws IH]; intros pre_id Hpre; [by inversion Hex|]. simpl.
  destruct (Z.eqb_spec d pre_id) as [->|Hne].
  - apply IH; [|done]. apply Exists_cons in Hex as [[Hn Hi]|Hex]; [|done]. destruct Hpre as [?|[? ?]]; congruence.
  - destruct (m !! d) eqn:E; [|done]. apply IH; [|right; by rewrite E]. apply Exists_cons in Hex as [[? ?]|Hex]; [congruence|done].
Qed.

(** All configurations are sound. *)
Definition confs_sound (S : Z) (c : Controller) : Prop :=
  shard_num_ c = S ∧ sound S (config_ c) ∧ Forall (λ p, sound S (conf p)) (pending_conf_q_ c).

Lemma recent_sound S c : confs_sound S c → sound S (GetRecentConf c).
Proof. intros (_ & Hc & Hq). unfold GetRecentConf. by destruct Hq. Qed.

(** The answer to a node that joins, and the configuration that is pending from then
    on. *)
Definition joined (S : Z) (net : Net) (conn : Z) (req : ControllerRequest) (c c' : Controller) (out : list Output) : Prop :=
  ∃ id nc m infos,
    out = [Send conn (MkControllerResponse CONTROL_STATUS_OK (Some id) infos (Some S))]
    ∧ GetRecentConf c !! id = None ∧ m !! id = Some nc
    ∧ nc_host nc = peer_ip net ∧ nc_port nc = req_sharder_port req ∧ nc_mmkvd_port nc = req_mmkvd_port req
    ∧ config_ c' = config_ c ∧ pending_conf_q_ c' = pending_conf_q_ c ++ [MkPending m CONF_STATE_JOIN_NODE id]
    ∧ sound S m ∧ node_num m = node_num (GetRecentConf c) + 1
    ∧ (GetRecentConf c = ∅ ∧ infos = [] ∨ GetRecentConf c ≠ ∅ ∧ flat_map ni_shard_ids infos = nc_shard_ids nc)
    ∧ Forall (pulled_from (λ id nc, GetRecentConf c !! id = Some nc) (λ id nc, m !! id = Some nc)) infos.

Lemma Join_joined S net conn req c :
  net_ok net → 0 < S < 2 ^ 31 → confs_sound S c → req_node_id req = INVALID_NODE_ID → node_num (GetRecentConf c) < S →
  match GenerateNodeId net c with
  | Some _ => ∃ c' out, Join net conn req c = Some (c', out) ∧ joined S net conn req c c' out ∧ shard_num_ c' = S
  | None => Join net conn req c = None
  end.
Proof.
  intros Hnet HS Hc Hid Hfull. pose proof (recent_sound S c Hc) as Hm. destruct Hc as (HcS & _).
  unfold Join. rewrite Hid, Z.eqb_refl, HcS. cbn [negb]. fold (node_num (GetRecentConf c)).
  assert (0 ≤ node_num (GetRecentConf c)) by (unfold node_num; lia). rewrite u64_small by lia.
  destruct (Z.ltb_spec S (node_num (GetRecentConf c) + 1)); [lia|].
  destruct (GenerateNodeId net c) as [id|] eqn:Eg; [|done]. cbn [mbind option_bind]. apply generate_loop_fresh in Eg.
  destruct (redistribute_sound net S (GetRecentConf c) Hnet HS Hm ltac:(lia)) as (old & ids & infos & -> & Hdom & Hnum & Hsound & Hinf & Hpull).
  cbn [mbind option_bind]. eexists _, _. split; [done|]. split; [|done].
  assert (old !! id = None) as Hold by (apply eq_None_not_Some; rewrite Hdom, Eg; by intros [? ?]).
  exists id, (MkNodeConf (req_sharder_port req) (peer_ip net) (req_mmkvd_port req) ids), (<[id := MkNodeConf (req_sharder_port req) (peer_ip net) (req_mmkvd_port req) ids]> old), infos.
  cbn [shard_num_ with_sessions PushPendingConf with_queue]. rewrite HcS. split_and!; try done.
  - by rewrite lookup_insert_eq.
  - by apply Hsound.
  - rewrite node_num_insert by done. lia.
  - refine (pulled_from_mono _ _ _ _ infos _ _ Hpull); [done|]. intros id' nc' Hl. rewrite lookup_insert_ne; [done|]. intros ->. congruence.
Qed.

(** C17: a node that joins a cluster with room, at a controller whose configurations are
    sound, is accepted as soon as an unused id is drawn: the new configuration again
    gives each shard to exactly one node and shares them evenly, with one node more;
    and the response names the new node's shards, each with the node that gave it up,
    unless the node is the first, which gets all. *)
Theorem controller_accepts_node S net conn req c :
  net_ok net → 0 < S < 2 ^ 31 → confs_sound S c → req_node_id req = INVALID_NODE_ID → node_num (GetRecentConf c) < S →
  Exists (unused (GetRecentConf c)) (draws net) →
  ∃ c' out, Join net conn req c = Some (c', out) ∧ joined S net conn req c c' out.
Proof.
  intros Hnet HS Hc Hid Hfull Hdr. pose proof (Join_joined S net conn req c Hnet HS Hc Hid Hfull) as Hj. unfold GenerateNodeId in Hj.
  destruct (generate_loop_ends (GetRecentConf c) (draws net) INVALID_NODE_ID Hdr ltac:(by left)) as [id Eg]. rewrite Eg in Hj.
  destruct Hj as (c' & out & ? & ? & _). by exists c', out.
Qed.

(** ** Every configuration is sound *)

Definition out_sound (S : Z) (o : Output) : Prop := match o with SyncConfig m => sound S m | _ => True end.

#[local] Ltac outs := repeat (apply Forall_cons; split; [first [exact I | assumption]|]); first [apply Forall_nil; exact I | assumption].

Definition no_leave (e : Event) : Prop :=
  match e with Message _ net req => net_ok net ∧ operation req ≠ CONTROL_OP_LEAVE_NODE | _ => True end.

Lemma Join_sound S net conn req c c' out :
  net_ok net → 0 < S < 2 ^ 31 → confs_sound S c → Join net conn req c = Some (c', out) → confs_sound S c' ∧ Forall (out_sound S) out.
Proof.
  intros Hnet HS Hc Hj. destruct (Z.eqb_spec (req_node_id req) INVALID_NODE_ID) as [Hid|Hid]; cycle 1.
  { unfold Join in Hj. destruct (Z.eqb_spec (req_node_id req) INVALID_NODE_ID); [done|]. cbn [negb] in Hj.
    destruct (_ !! _); injection Hj as <- <-; (split; [done|]); outs. }
  destruct (Z.ltb_spec (node_num (GetRecentConf c)) S) as [Hlt|Hge].
  - pose proof (Join_joined S net conn req c Hnet HS Hc Hid Hlt) as Hjd.
    destruct (GenerateNodeId net c); [|congruence]. destruct Hjd as (c2 & out2 & E & Hjd & HS2). rewrite E in Hj. injection Hj as <- <-.
    destruct Hjd as (id & nc & m & infos & -> & _ & _ & _ & _ & _ & Hcfg & Hq & Hm & _). destruct Hc as (_ & Hcs & Hqs).
    unfold confs_sound. rewrite Hcfg, Hq. split; [|outs]. split_and!; try done.
    apply Forall_app. split; [done|]. by constructor.
  - unfold Join in Hj. rewrite Hid, Z.eqb_refl in Hj. cbn [negb] in Hj. destruct Hc as (HcS & Hcs). unfold node_num in Hge.
    pose proof (recent_sound S c (conj HcS Hcs)) as Hm. assert (Z.of_nat (size (GetRecentConf c)) ≤ S) as Hle.
    { destruct Hm as [->|(_ & _ & Hn)]; [rewrite map_size_empty; lia|done]. }
    rewrite u64_small in Hj by lia. rewrite HcS in Hj. destruct (Z.ltb_spec S (Z.of_nat (size (GetRecentConf c)) + 1)); [|lia].
    injection Hj as <- <-. split; [done|]. outs.
Qed.

Lemma check_pending_sound S net : ∀ fuel c c' out,
  confs_sound S c → check_pending fuel net c = Some (c', out) → confs_sound S c' ∧ Forall (out_sound S) out.
Proof.
  induction fuel as [|fuel IH]; intros c c' out Hc; cbn [check_pending]; [done|].
  destruct (pending_conf_q_ c) as [|p q] eqn:Eq; [done|]. destruct (_ !! _) as [conn|]; [|intros [= <- <-]; split; [done|outs]].
  destruct Hc as (HcS & Hcs & Hqs). rewrite Eq in Hqs. apply Forall_cons in Hqs as [Hp Hqs]. simpl.
  destruct (alive net conn); simpl; (destruct (check_pending fuel net _) as [[c2 out2]|] eqn:E; [|done]); intros [= <- <-];
    apply IH in E as [Hc2 Ho2]; try done; (split; [done|]); outs.
Qed.

Lemma Complete_sound S net conn req st c c' out :
  confs_sound S c → ControllorOperationComplete net conn req st c = Some (c', out) → confs_sound S c' ∧ Forall (out_sound S) out.
Proof.
  intros Hc. unfold ControllorOperationComplete. destruct (pending_conf_q_ c) as [|p q] eqn:Eq; [done|].
  destruct Hc as (HcS & Hcs & Hqs). rewrite Eq in Hqs. apply Forall_cons in Hqs as [Hp Hqs'].
  destruct (_ && _); [|intros [= <- <-]; split; [|outs]; unfold confs_sound; simpl; rewrite Eq; split_and!; try done; by constructor].
  simpl. set (c1 := with_queue (with_config c (conf p)) q). assert (confs_sound S c1) as Hc1 by done.
  destruct q as [|p' q].
  - simpl. intros [= <- <-]. split; [done|]. outs.
  - unfold CheckPendingConfSessionAndResponse. destruct (check_pending _ net c1) as [[c2 out2]|] eqn:E; [|done]. simpl. intros [= <- <-].
    apply (check_pending_sound S) in E as [Hc2 Ho2]; [|done]. split; [done|]. apply Forall_cons. split; [exact Hp|]. apply Forall_app. split; [done|]. outs.
Qed.

Lemma step_sound S e c c' out :
  0 < S < 2 ^ 31 → no_leave e → confs_sound S c → controller_step e c = Some (c', out) → confs_sound S c' ∧ Forall (out_sound S) out.
Proof.
  intros HS He Hc. destruct e as [conn junk|conn net req|conn]; simpl.
  - intros [= <- <-]. split; [done|outs].
  - destruct He as [Hnet Hop]. unfold on_controller_message. destruct (operation req) eqn:E; try done.
    + by apply Join_sound.
    + by apply Complete_sound.
    + by apply Complete_sound.
    + unfold QueryNodeInfo. destruct (_ !! _) as [nid|]; [|done]. simpl. destruct (negb _); [intros [= <- <-]; split; [done|outs]|].
      destruct (negb _); [done|]. intros [= <- <-]. split; [done|]. outs.
  - intros [= <- <-]. split; [done|outs].
Qed.

Lemma run_sound S es c out :
  0 < S < 2 ^ 31 → Forall no_leave es → controller_run es (controller_new S) = Some (c, out) →
  confs_sound S c ∧ Forall (out_sound S) out.
Proof.
  intros HS Hes. assert (confs_sound S (controller_new S)) as Hc by (split_and!; [done|by left|constructor]). revert Hc.
  generalize (controller_new S) as c0. revert c out. induction Hes as [|e es He Hes IH]; intros c out c0 Hc; simpl.
  { intros [= <- <-]. split; [done|outs]. }
  destruct (controller_step e c0) as [[c1 out1]|] eqn:E; [|done]. simpl. apply (step_sound S) in E as [Hc1 Ho1]; [|done..].
  destruct (controller_run es c1) as [[c2 out2]|] eqn:E2; [|done]. simpl. intros [= <- <-]. apply IH in E2 as [? ?]; [|done].
  split; [done|]. by apply Forall_app.
Qed.

(** C14: whatever nodes connect, join, complete and ask, in whatever order and with
    whatever delays, the configuration of the controller, every pending configuration,
    and every configuration it sends to the clients give each of the shards to exactly
    one node and share them evenly (or are empty). *)
Theorem controller_shares_shards S es c out :
  0 < S < 2 ^ 31 → Forall no_leave es → controller_run es (controller_new S) = Some (c, out) →
  confs_sound S c ∧ Forall (out_sound S) out.
Proof. apply run_sound. Qed.

(** ** Queries *)

Lemma holders_absent nodes shard : shard ∉ shards_of nodes → holders nodes shard = [].
Proof.
  intros Hs. apply filter_none. intros [id nc] Hin Hsh. apply Hs. unfold shards_of. apply list_elem_of_In, in_flat_map.
  exists (id, nc). by split; apply list_elem_of_In.
Qed.

Lemma node_unique (nodes : list (Z * NodeConf)) id nc nc' : NoDup nodes.*1 → (id, nc) ∈ nodes → (id, nc') ∈ nodes → nc = nc'.
Proof.
  intros Hnd Hx Hy. apply (inj Some). by rewrite <-(elem_of_list_to_map_1 (M := gmap Z) nodes id nc), <-(elem_of_list_to_map_1 (M := gmap Z) nodes id nc').
Qed.

(** A shard has one holder. *)
Lemma holders_one nodes shard :
  NoDup (shards_of nodes) → shard ∈ shards_of nodes → ∃ x, holders nodes shard = [x] ∧ x ∈ nodes ∧ shard ∈ nc_shard_ids x.2.
Proof.
  induction nodes as [|[id nc] nodes IH]; [by intros _ ?%not_elem_of_nil|]. rewrite shards_of_cons. intros Hnd Hs.
  apply NoDup_app in Hnd as (_ & Hdisj & Hnd). unfold holders. rewrite filter_cons. cbn [snd]. fold (holders nodes shard).
  case_decide as Hin.
  - exists (id, nc). rewrite holders_absent by (by apply Hdisj). split_and!; try done. by left.
  - apply elem_of_app in Hs as [?|Hs]; [done|]. destruct (IH Hnd Hs) as (x & -> & Hx & ?). exists x. split_and!; try done. by right.
Qed.

Lemma find_holders nodes queried :
  NoDup (shards_of nodes) → Forall (.∈ shards_of nodes) queried →
  Forall2 (λ x shard, x ∈ nodes ∧ shard ∈ nc_shard_ids x.2) (concat (map (holders nodes) queried)) queried.
Proof.
  intros Hnd. induction 1 as [|shard queried Hs Hall IH]; [constructor|]. simpl.
  destruct (holders_one nodes shard Hnd Hs) as (x & -> & ? & ?). by constructor.
Qed.

Lemma collect_lookup found id : default [] (collect found !! id) = map snd (filter (λ x, x.1 = id) found).
Proof.
  unfold collect. induction found as [|[id' s] found IH] using rev_ind; [done|]. rewrite foldl_snoc, filter_app, map_app, <-IH. cbn [fst snd].
  rewrite filter_cons, filter_nil. cbn [fst]. case_decide as He.
  - subst. by rewrite lookup_insert_eq.
  - rewrite lookup_insert_ne by done. by rewrite app_nil_r.
Qed.

(** What an entry of the answer says, if no entry before it is of the same node. *)
Lemma query_infos_lookup moved : ∀ confs table (i : nat) id nc,
  confs !! i = Some (id, nc) →
  ∃ ids, query_infos moved table confs !! i = Some (node_info id nc ids true) ∧ (id ∉ (take i confs).*1 → ids = default [] (table !! id)).
Proof.
  induction confs as [|[id' nc'] confs IH]; intros table i id nc; [done|]. destruct i as [|i]; simpl.
  - intros [= -> ->]. eauto.
  - intros Hl. destruct (IH (<[id' := moved (default [] (table !! id'))]> table) i id nc Hl) as (ids & -> & Hids). exists ids. split; [done|].
    intros [Hne Hni]%not_elem_of_cons. rewrite Hids by done. by rewrite lookup_insert_ne.
Qed.

Lemma query_infos_length moved table confs : length (query_infos moved table confs) = length confs.
Proof. revert table. induction confs as [|[id nc] confs IH]; intros table; simpl; [done|]. by rewrite IH. Qed.

Lemma query_infos_ids moved table confs (i : nat) : map ni_node_id (take i (query_infos moved table confs)) = (take i confs).*1.
Proof. revert table i. induction confs as [|[id nc] confs IH]; intros table [|i]; simpl; try done. f_equal. apply IH. Qed.

(** The shards of the query that a node holds. *)
Definition held_by (nc : NodeConf) (queried : list Z) : list Z := filter (.∈ nc_shard_ids nc) queried.

Lemma found_at nodes queried confs id nc :
  NoDup nodes.*1 → NoDup (shards_of nodes) → Forall2 (λ x shard, x ∈ nodes ∧ shard ∈ nc_shard_ids x.2) confs queried → (id, nc) ∈ nodes →
  map snd (filter (λ x, x.1 = id) (zip (map fst confs) queried)) = held_by nc queried.
Proof.
  intros Hids Hnd Hf Hin. unfold held_by. induction Hf as [|[id' nc'] shard confs queried [Hx Hs] Hf IH]; [done|]. cbn [map fst zip_with zip snd] in *.
  rewrite !filter_cons. cbn [fst]. destruct (decide (id' = id)) as [->|Hne].
  - assert (nc' = nc) as -> by (by eapply node_unique). rewrite decide_True by done. cbn [map snd]. by rewrite IH.
  - rewrite decide_False; [done|]. intros Hs'. apply Hne. destruct (holders_one nodes shard Hnd) as (x & Eh & _ & _).
    { unfold shards_of. apply list_elem_of_In, in_flat_map. exists (id, nc). by split; apply list_elem_of_In. }
    assert (∀ y, y ∈ nodes → shard ∈ nc_shard_ids y.2 → y = x) as Hu.
    { intros y Hy Hsy. apply list_elem_of_singleton. rewrite <-Eh. unfold holders. by apply list_elem_of_filter. }
    pose proof (Hu _ Hx Hs). pose proof (Hu _ Hin Hs'). congruence.
Qed.

(** A node that asks, with the id of its session, which nodes hold shards of the
    cluster is told, for each shard in the order of the query, the id and address of
    the node that holds it; the first entry of each node lists exactly the shards of
    the query that it holds. *)
Theorem query_names_holders S net conn req c :
  net_ok net → 0 < S < 2 ^ 31 → confs_sound S c → GetRecentConf c ≠ ∅ → sessions c !! conn = Some (req_node_id req) →
  Forall (λ s, 0 ≤ s < S) (req_shard_ids req) →
  ∃ infos, QueryNodeInfo net conn req c = Some (c, [Send conn (MkControllerResponse CONTROL_STATUS_OK None infos None)])
    ∧ length infos = length (req_shard_ids req)
    ∧ ∀ (i : nat) shard, req_shard_ids req !! i = Some shard →
        ∃ id nc ids, GetRecentConf c !! id = Some nc ∧ shard ∈ nc_shard_ids nc ∧ infos !! i = Some (node_info id nc ids true)
          ∧ (id ∉ map ni_node_id (take i infos) → ids = held_by nc (req_shard_ids req)).
Proof.
  intros Hnet HS Hc Hne Hses Hq. destruct (recent_sound S c Hc) as [?|(Hsh & _ & _)]; [done|]. set (m := GetRecentConf c) in *.
  set (nodes := map_order net m). set (queried := req_shard_ids req) in *.
  assert (shards_of nodes ≡ₚ seqZ 0 S) as Hp by (unfold nodes; by rewrite order_shards).
  assert (NoDup (shards_of nodes)) as Hnd by (rewrite Hp; apply NoDup_seqZ).
  assert (NoDup nodes.*1) as Hids by (by apply order_NoDup).
  assert (Forall2 (λ x shard, x ∈ nodes ∧ shard ∈ nc_shard_ids x.2) (concat (map (holders nodes) queried)) queried) as Hf.
  { apply find_holders; [done|]. eapply Forall_impl; [exact Hq|]. intros s Hs. simpl in Hs. rewrite Hp. apply elem_of_seqZ. lia. }
  unfold QueryNodeInfo. rewrite Hses. cbn [mbind option_bind]. rewrite Z.eqb_refl. cbn [negb]. fold m queried nodes.
  set (confs := concat (map (holders nodes) queried)) in *. rewrite bool_decide_eq_true_2 by (by eapply Forall2_length). cbn [negb].
  eexists. split; [done|]. split; [by rewrite query_infos_length, (Forall2_length _ _ _ Hf)|]. intros i shard Hi.
  destruct (Forall2_lookup_r _ _ _ _ _ Hf Hi) as ([id nc] & Hx & Hin & Hs). cbn [snd] in Hs.
  destruct (query_infos_lookup (moved_from net) confs (collect (zip (map fst confs) queried)) i id nc Hx) as (ids & Hl & Heq).
  exists id, nc, ids. split_and!; try done; [by apply (order_lookup net m (id, nc))|]. intros Hni. rewrite Heq.
  - rewrite collect_lookup. by apply (found_at nodes queried confs id nc).
  - by rewrite <-(query_infos_ids (moved_from net) (collect (zip (map fst confs) queried)) confs i).
Qed.
