(* ===== verification/ControllerErrors.v ===== *)
(** * Where the shard controller goes wrong

    Leaving, joins that overlap, and completions out of order. *)

From S2P Require Import Prelude Controller ControllerFacts.

(** ** Leaving *)

(** The node that gets the shards of the other one of two nodes gets at most as many as
    bring it up to what that node had. *)
Lemma hand_over_one al removed id nc ncs infos :
  0 ≤ al < 2 ^ 31 → hand_over al 0 removed [(id, nc)] = Some (ncs, infos) →
  shard_ids_size nc < al ∧ ncs.*1 = [id] ∧ Z.of_nat (length (shards_of ncs)) ≤ al.
Proof.
  intros Hal. cbn [hand_over]. destruct (Z.ltb_spec (shard_ids_size nc) al) as [Hlt|]; cbn [negb]; [|done].
  assert (0 ≤ shard_ids_size nc) by (unfold shard_ids_size; lia). rewrite diff_exact by lia.
  destruct (Z.ltb_spec (al - shard_ids_size nc) 0); [lia|]. cbn [Z.ltb Z.compare andb].
  intros E. split; [done|]. assert (ncs = [(id, set_shard_ids nc (nc_shard_ids nc ++ take (Z.to_nat (al - shard_ids_size nc)) removed))]) as ->.
  { destruct (drop _ removed); by injection E as <- _. }
  split; [done|]. rewrite shards_of_cons. cbn [set_shard_ids nc_shard_ids shards_of flat_map]. unfold shard_ids_size in *.
  rewrite app_nil_r, length_app, length_take. lia.
Qed.

(** If two or more nodes stay, the first has more shards than it may have. *)
Lemma hand_over_many S n al more removed nodes :
  3 ≤ n ≤ S → al ≤ (S / n + 1) / (n - 1) → nodes ≠ [] → Forall (λ x, S / n ≤ shard_ids_size x.2) nodes →
  hand_over al more removed nodes = None.
Proof.
  intros Hn Hal Hne Hall. destruct nodes as [|[id nc] nodes]; [done|]. apply Forall_cons in Hall as [Hnc _]. cbn [snd] in Hnc. cbn [hand_over].
  assert (1 ≤ S / n) by (apply Z.div_le_lower_bound; lia).
  assert ((S / n + 1) / (n - 1) ≤ S / n) by (apply Z.div_le_upper_bound; nia).
  by destruct (Z.ltb_spec (shard_ids_size nc) al); [lia|].
Qed.

(** C35: no node ever leaves the cluster properly: when a node of a sound configuration
    asks to leave, either an assertion fails, or the new configuration still has the
    node (if it was the last), or shards are lost. *)
Theorem no_node_leaves_properly S net conn req c c' out nc :
  net_ok net → 0 < S < 2 ^ 31 → sound S (GetRecentConf c) → req_node_id req ≠ INVALID_NODE_ID → GetRecentConf c !! req_node_id req = Some nc →
  Leave net conn req c = Some (c', out) →
  ∃ m, pending_conf_q_ c' = pending_conf_q_ c ++ [MkPending m CONF_STATE_LEAVE_NODE (req_node_id req)]
    ∧ (m !! req_node_id req = Some nc ∨ Z.of_nat (length (shards m)) < S).
Proof.
  intros Hnet HS Hm Hid Hnc. unfold Leave. destruct (Z.eqb_spec (req_node_id req) INVALID_NODE_ID) as [?|_]; [done|]. rewrite Hnc.
  destruct (sessions c !! conn) as [node_id|]; [|done]. cbn [mbind option_bind]. destruct (negb _); [done|].
  set (m := GetRecentConf c) in *. set (id := req_node_id req) in *.
  destruct (without_node net m id nc) as [[m' infos]|] eqn:Ew; [|done]. cbn [mbind option_bind]. intros [= <- _]. exists m'. split; [done|].
  unfold without_node in Ew. destruct Hm as [Hm|(Hsh & Hbal & Hnum)]; [by rewrite Hm in Hnc|]. unfold node_num in *.
  set (n := Z.of_nat (size m)) in *. destruct (Z.ltb_spec 0 (n - 1)) as [Hlt|_]; [|injection Ew as <- _; by left]. right.
  set (nodes := map_order net (delete id m)) in *.
  assert (Forall (λ x, S / n ≤ shard_ids_size x.2 ≤ S / n + 1) nodes) as Hall.
  { apply Forall_forall. intros x Hx%(order_lookup net _ x Hnet). apply lookup_delete_Some in Hx as [_ Hx]. by eapply Hbal. }
  assert (Z.of_nat (length nodes) = n - 1) as Hlen.
  { unfold nodes. rewrite order_length by done. unfold node_num. rewrite map_size_delete_Some by done. lia. }
  assert (S / n ≤ shard_ids_size nc ≤ S / n + 1) as Hr by (by eapply Hbal).
  destruct (hand_over _ _ _ nodes) as [[ncs infos']|] eqn:Eh; [|done]. cbn [mbind option_bind] in Ew. injection Ew as <- _.
  destruct (decide (n = 2)) as [Hn2|Hn2]; cycle 1.
  { exfalso. rewrite (hand_over_many S n) in Eh; [done|lia|apply Z.div_le_mono; lia|by intros E; rewrite E in Hlen; simpl in Hlen; lia|].
    eapply Forall_impl; [exact Hall|]. simpl. lia. }
  rewrite Hn2 in *. change (2 - 1) with 1 in *. rewrite Z.div_1_r, Z.mod_1_r in Eh.
  destruct nodes as [|[id1 nc1] [|? ?]] eqn:En in *; simpl in Hlen; try lia. apply Forall_cons in Hall as [Hnc1 _]. cbn [snd] in Hnc1.
  pose proof (sound_size S m id nc ltac:(lia) Hsh Hnc).
  destruct (hand_over_one (shard_ids_size nc) _ _ _ _ _ ltac:(unfold shard_ids_size in *; lia) Eh) as (Hlt1 & Hids & Hle).
  assert (length (shards (list_to_map ncs)) ≤ length (shards_of ncs))%nat as Hsh'.
  { unfold shards. rewrite map_to_list_to_map; [done|]. rewrite Hids. apply NoDup_singleton. }
  assert (shard_ids_size nc + shard_ids_size nc1 = S) as Hsum.
  { rewrite <-(sound_length S m ltac:(lia) Hsh). rewrite <-(insert_delete_id m id nc Hnc). rewrite shards_insert by apply lookup_delete_eq.
    rewrite length_app, <-(order_shards net (delete id m) Hnet). fold nodes. rewrite En. unfold shard_ids_size. simpl. rewrite app_nil_r. lia. }
  pose proof (Z.div_mod S 2 ltac:(lia)). pose proof (Z.mod_pos_bound S 2 ltac:(lia)). lia.
Qed.

(** A session remembers the low half of the id of the request by which its node joined,
    which is no id, and not the id the node was given. *)
Lemma Join_session net conn req c c' out :
  Join net conn req c = Some (c', out) → c' ≠ c → sessions c' !! conn = Some (u32 INVALID_NODE_ID).
Proof.
  unfold Join. destruct (Z.eqb_spec (req_node_id req) INVALID_NODE_ID) as [Hid|_]; cbn [negb].
  - destruct (_ <? _); [by intros [= <- _]|]. destruct (GenerateNodeId net c) as [id|]; [|done]. cbn [mbind option_bind].
    destruct (redistribute _ _ _ _) as [[[old ids] infos]|]; [|done]. cbn [mbind option_bind]. intros [= <- _] _.
    simpl. by rewrite lookup_insert_eq, Hid.
  - destruct (_ !! _); by intros [= <- _].
Qed.

(** A node that has joined over a connection cannot leave over it: whatever has
    happened since to the configurations, as long as the controller has not replaced
    the session, a request to leave by a node of the cluster fails an assertion, unless
    the id the node was given happens to be 2^32 - 1. *)
Theorem joined_session_cannot_leave net conn req c c' out net' req' c2 :
  Join net conn req c = Some (c', out) → c' ≠ c → sessions c2 !! conn = sessions c' !! conn →
  req_node_id req' ≠ INVALID_NODE_ID → req_node_id req' ≠ u32 INVALID_NODE_ID → is_Some (GetRecentConf c2 !! req_node_id req') →
  Leave net' conn req' c2 = None.
Proof.
  intros Hj Hne Hs Hid Hid32 [nc Hnc]. rewrite (Join_session _ _ _ _ _ _ Hj Hne) in Hs. unfold Leave.
  destruct (Z.eqb_spec (req_node_id req') INVALID_NODE_ID); [done|]. rewrite Hnc, Hs. cbn [mbind option_bind].
  by destruct (Z.eqb_spec (u32 INVALID_NODE_ID) (req_node_id req')).
Qed.

(** ** Joins that overlap *)

(** C36: when two configurations are pending, a node that joins is given a configuration
    made from the first of them: the node that joined second is not in it (unless the
    new node has been given the same id), so once all three are complete the second
    node is no longer in the cluster. *)
Theorem overlapping_joins_forget S net conn req c c' out p p' q :
  net_ok net → 0 < S < 2 ^ 31 → confs_sound S c → pending_conf_q_ c = p :: p' :: q → conf p !! pending_node_id p' = None →
  req_node_id req = INVALID_NODE_ID → node_num (GetRecentConf c) < S → Join net conn req c = Some (c', out) →
  ∃ m id, pending_conf_q_ c' = p :: p' :: q ++ [MkPending m CONF_STATE_JOIN_NODE id] ∧ (m !! pending_node_id p' = None ∨ id = pending_node_id p').
Proof.
  intros Hnet HS Hc Hq Hp Hid Hfull Hj. pose proof (recent_sound S c Hc) as Hm. destruct Hc as (HcS & _). unfold Join in Hj.
  assert (GetRecentConf c = conf p) as Er by (unfold GetRecentConf; by rewrite Hq). rewrite Er in *.
  rewrite Hid, Z.eqb_refl in Hj. cbn [negb] in Hj. fold (node_num (conf p)) in Hj. rewrite HcS in Hj.
  assert (0 ≤ node_num (conf p)) by (unfold node_num; lia). rewrite u64_small in Hj by lia.
  destruct (Z.ltb_spec S (node_num (conf p) + 1)); [lia|]. destruct (GenerateNodeId net c) as [id|]; [|done]. cbn [mbind option_bind] in Hj.
  destruct (redistribute_sound net S (conf p) Hnet HS Hm ltac:(lia)) as (old & ids & infos & Hr & Hdom & _). rewrite Hr in Hj.
  cbn [mbind option_bind] in Hj. injection Hj as <- _. eexists _, id. split; [simpl; by rewrite Hq|].
  destruct (decide (id = pending_node_id p')) as [|Hne]; [by right|]. left. rewrite lookup_insert_ne by done.
  apply eq_None_not_Some. rewrite Hdom, Hp. by intros [? ?].
Qed.

(** ** Completions out of order *)

Lemma check_pending_stops net : ∀ fuel c,
  Forall (λ p, ∃ conn, pending_conf_conn_dict_ c !! (state p, pending_node_id p) = Some conn ∧ alive net conn = true) (pending_conf_q_ c) →
  check_pending fuel net c = None.
Proof.
  induction fuel as [|fuel IH]; intros c Hall; cbn [check_pending]; [done|]. destruct (pending_conf_q_ c) as [|p q]; [done|].
  apply Forall_cons in Hall as [(conn & -> & Ha) Hall]. rewrite Ha. simpl. by rewrite IH.
Qed.

(** C37: the controller stops at an assertion when the nodes of all other pending
    configurations have already reported that they are ready, and are still
    connected, when the node of the first one reports it: the loop that takes them
    over looks for another one in the empty queue. *)
Theorem completion_after_others_stops net conn req st c p q :
  pending_conf_q_ c = p :: q → q ≠ [] → pending_node_id p = req_node_id req → state p = st →
  Forall (λ p, ∃ conn, pending_conf_conn_dict_ c !! (state p, pending_node_id p) = Some conn ∧ alive net conn = true) q →
  ControllorOperationComplete net conn req st c = None.
Proof.
  intros Hq Hne Hid Hst Hall. unfold ControllorOperationComplete. rewrite Hq, Hid, Z.eqb_refl, bool_decide_eq_true_2 by done. cbn [andb].
  destruct q as [|p' q]; [done|]. simpl. unfold CheckPendingConfSessionAndResponse. by rewrite check_pending_stops.
Qed.

(** ** The configuration daemon *)

(** Every peer is sent the configuration. *)
Lemma sync_peers_all peers m : sync_peers peers ∅ m = map (λ peer, (peer, m)) peers.
Proof. induction peers as [|peer peers IH]; simpl; [done|]. by rewrite IH. Qed.
