(* ===== verification/ConfigdClient.v ===== *)
(** * The configuration at the clients

    [mmkv/configd/configd_client.h], [configd_client.cc]: a client keeps, from the
    configurations it is sent, a vector of the endpoints of the nodes and a dictionary
    from shards to indices of that vector.  The dictionary is an [AvlDictionary], used
    through the interface [DictOps]. *)

From stdpp Require Import pretty.
From S2P Require Import Prelude Comparator Dict HashTableBase HashTable Dictionary Controller ControllerFacts.

Record NodeEndPoint := MkEndPoint { ep_node_id : Z; ep_host : string; ep_port : Z }.

Record ConfigdClient (D : Type) := MkConfigdClient {
  shard_node_idx_dict_ : D;
  node_idx_node_ep_map_ : list NodeEndPoint;
  node_conf_map_ : Configuration;
}.
Arguments MkConfigdClient {D}.
Arguments shard_node_idx_dict_ {D}.
Arguments node_idx_node_ep_map_ {D}.
Arguments node_conf_map_ {D}.

(** [(uint16_t)port]. *)
Definition u16 (x : Z) : Z := x `mod` 2 ^ 16.

Section configd_client.
Context {D : Type} `{!DictOps D Z (KeyValue Z Z)}.
Implicit Types (d : D) (cl : ConfigdClient D) (nc : NodeConf).

Definition configd_client_new : ConfigdClient D := MkConfigdClient (d_init (T := KeyValue Z Z)) [] ∅.

(** The shards of the node with index [idx]. *)
Fixpoint index_shards d (idx : Z) (ids : list Z) : option D :=
  match ids with
  | [] => Some d
  | shard_id :: ids =>
      '(d, ok, dep) ← InsertKvWithDuplicate d shard_id idx;
      d ← (if ok : bool then Some d else dict_write d (key dep) idx);
      index_shards d idx ids
  end.

Definition end_point (id : Z) nc : NodeEndPoint := MkEndPoint id (nc_host nc) (u16 (nc_mmkvd_port nc)).

(** The loop over the nodes. *)
Fixpoint index_nodes d (eps : list NodeEndPoint) (nodes : list (Z * NodeConf)) : option (D * list NodeEndPoint) :=
  match nodes with
  | [] => Some (d, eps)
  | (id, nc) :: nodes =>
      let eps := eps ++ [end_point id nc] in
      d ← index_shards d (Z.of_nat (length eps) - 1) (nc_shard_ids nc);
      index_nodes d eps nodes
  end.

(** [OnMessage], for a configuration; without nodes the old [node_conf_map_] stays. *)
Definition OnMessage (order : Configuration → list (Z * NodeConf)) (m : Configuration) cl : option (ConfigdClient D) :=
  '(d, eps) ← index_nodes (shard_node_idx_dict_ cl) [] (order m);
  Some (MkConfigdClient d eps (if bool_decide (m = ∅) then node_conf_map_ cl else m)).

(** [None] is an index out of range. *)
Definition QueryNodeEndpoint (shard_id : Z) cl : option (ConfigdClient D * option NodeEndPoint) :=
  '(d, kv) ← d_find (T := KeyValue Z Z) (shard_node_idx_dict_ cl) shard_id;
  let cl := MkConfigdClient d (node_idx_node_ep_map_ cl) (node_conf_map_ cl) in
  match kv with
  | None => Some (cl, None)
  | Some kv => ep ← node_idx_node_ep_map_ cl !! Z.to_nat (value kv); Some (cl, Some ep)
  end.

Definition QueryNodeEndpointByNodeIdx (node_idx : Z) cl : option NodeEndPoint :=
  if Z.of_nat (length (node_idx_node_ep_map_ cl)) <=? node_idx then None else node_idx_node_ep_map_ cl !! Z.to_nat node_idx.
End configd_client.

(** ** Printing *)

Definition to_string (x : Z) : string := pretty (Z.to_N x).

(** [AppendShardInterval]; it resets [begin] and [end] to -1. *)
Definition AppendShardInterval (shard_str : string) (b e : Z) : string :=
  shard_str +:+ "[" +:+ to_string b +:+ (if b =? e then "" else "-" +:+ to_string e) +:+ "]".

Definition NO_SHARD : Z := 2 ^ 64 - 1.

(** The loop over the sorted shards of a node: the text, [begin] and [end]. *)
Fixpoint shard_intervals (shard_str : string) (b e : Z) (ids : list Z) : string :=
  match ids with
  | [] => if b =? NO_SHARD then shard_str else AppendShardInterval shard_str b e
  | shard_id :: ids =>
      if b =? NO_SHARD then shard_intervals shard_str shard_id shard_id ids
      else if u64 (e + 1) =? shard_id then shard_intervals shard_str b (u64 (e + 1)) ids
      else shard_intervals (AppendShardInterval shard_str b e) NO_SHARD NO_SHARD ids
  end.

Definition shards_text (ids : list Z) : string := shard_intervals "" NO_SHARD NO_SHARD (merge_sort Z.le ids).

(** ** Every shard is found *)

Section lookup.
Context {D : Type} `{!DictOps D Z (KeyValue Z Z)} `{!DictLaws D Z (KeyValue Z Z) TO_GK}.
Implicit Types (d : D) (cl : ConfigdClient D) (nc : NodeConf).

Lemma index_shards_spec e idx ids : ∀ n d,
  dict_is e n d → n + Z.of_nat (length ids) ≤ max_elems → Forall d_key_ok ids →
  ∃ d', index_shards d idx ids = Some d' ∧ dict_is e (n + Z.of_nat (length ids)) d'
    ∧ ∀ s, kv_view d' !! s = if decide (s ∈ ids) then Some idx else kv_view d !! s.
Proof.
  induction ids as [|s ids IH]; intros n d Hd Hn Hk; cbn [index_shards length] in *.
  { exists d. rewrite Z.add_0_r. split_and!; try done. }
  apply Forall_cons in Hk as [Hs Hk]. destruct (insert_is e n d s idx Hd ltac:(lia) Hs) as (d1 & Hd1 & Hi).
  assert (∃ d2, (' (d, ok, dep) ← InsertKvWithDuplicate d s idx; if ok : bool then Some d else dict_write d (key dep) idx) = Some d2
    ∧ dict_is e (n + 1) d2 ∧ kv_view d2 = <[s := idx]> (kv_view d)) as (d2 & E & Hd2 & Hv).
  { destruct (kv_view d !! s) as [w|] eqn:Ew; destruct Hi as [-> Hv1]; cbn [mbind option_bind].
    - destruct (write_is e (n + 1) d1 s idx w Hd1) as (d2 & Hw & Hd2 & Hv2); [by rewrite Hv1|]. exists d2. by rewrite Hv2, Hv1.
    - by exists d1. }
  destruct (IH (n + 1) d2 Hd2 ltac:(lia) Hk) as (d3 & E3 & Hd3 & Hv3). exists d3. split_and!.
  - destruct (InsertKvWithDuplicate d s idx) as [[[d0 ok] dep]|]; [|done]. cbn [mbind option_bind] in *. by rewrite E.
  - by replace (n + Z.of_nat (S (length ids))) with (n + 1 + Z.of_nat (length ids)) by lia.
  - intros s'. rewrite Hv3, Hv. destruct (decide (s' ∈ ids)) as [Hin|Hni].
    + rewrite decide_True by (by right). done.
    + destruct (decide (s' = s)) as [->|Hne]; [rewrite lookup_insert_eq, decide_True by (by left); done|].
      rewrite lookup_insert_ne, decide_False by (done || by intros [?|?]%elem_of_cons). done.
Qed.

(** Where the nodes seen so far hold a shard, the dictionary has the index of one of
    them. *)
Definition indexed (eps : list NodeEndPoint) (nodes : list (Z * NodeConf)) d : Prop :=
  ∀ s, s ∈ shards_of nodes → ∃ (i : nat) id nc, kv_view d !! s = Some (Z.of_nat i) ∧ eps !! i = Some (end_point id nc) ∧ (id, nc) ∈ nodes ∧ s ∈ nc_shard_ids nc.

Lemma index_nodes_spec e nodes : ∀ n d eps before,
  dict_is e n d → n + Z.of_nat (length (shards_of nodes)) ≤ max_elems → Forall d_key_ok (shards_of nodes) → indexed eps before d →
  ∃ d' eps', index_nodes d eps nodes = Some (d', eps') ∧ dict_is e (n + Z.of_nat (length (shards_of nodes))) d' ∧ indexed eps' (before ++ nodes) d'
    ∧ ∀ s, s ∉ shards_of nodes → kv_view d' !! s = kv_view d !! s.
Proof.
  induction nodes as [|[id nc] nodes IH]; intros n d eps before Hd Hn Hk Hix; cbn [index_nodes].
  { exists d, eps. rewrite app_nil_r, Z.add_0_r. split_and!; try done. }
  rewrite shards_of_cons, length_app in Hn. rewrite shards_of_cons in Hk. apply Forall_app in Hk as [Hk1 Hk2].
  rewrite length_app. cbn [length]. replace (Z.of_nat (length eps + 1) - 1) with (Z.of_nat (length eps)) by lia.
  destruct (index_shards_spec e (Z.of_nat (length eps)) (nc_shard_ids nc) n d Hd ltac:(lia) Hk1) as (d1 & -> & Hd1 & Hv1). cbn [mbind option_bind].
  destruct (IH _ d1 (eps ++ [end_point id nc]) (before ++ [(id, nc)]) Hd1 ltac:(lia) Hk2) as (d2 & eps2 & E & Hd2 & Hix2 & Hv2).
  { intros s Hs. rewrite Hv1. destruct (decide (s ∈ nc_shard_ids nc)) as [Hin|Hni].
    - exists (length eps), id, nc. split_and!; try done; [by rewrite lookup_app_r, Nat.sub_diag|]. apply elem_of_app. right. by left.
    - unfold shards_of in Hs. rewrite flat_map_app in Hs. simpl in Hs. rewrite app_nil_r in Hs. apply elem_of_app in Hs as [Hs|?]; [|done].
      destruct (Hix s Hs) as (i & id' & nc' & ? & Hl & ? & ?). exists i, id', nc'. split_and!; try done.
      + rewrite lookup_app_l; [done|]. by eapply lookup_lt_Some.
      + apply elem_of_app. by left. }
  exists d2, eps2. split_and!; [done| | |].
  - rewrite shards_of_cons, length_app. by replace (n + Z.of_nat (length (nc_shard_ids nc) + length (shards_of nodes)))
      with (n + Z.of_nat (length (nc_shard_ids nc)) + Z.of_nat (length (shards_of nodes))) by lia.
  - by rewrite <-app_assoc in Hix2.
  - intros s Hs. rewrite shards_of_cons in Hs. apply not_elem_of_app in Hs as [Hs1 Hs2]. by rewrite Hv2, Hv1, decide_False.
Qed.

Lemma OnMessage_finds S e n order m cl :
  0 < S → (∀ m, order m ≡ₚ map_to_list m) → shards m ≡ₚ seqZ 0 S → m ≠ ∅ → (∀ s, 0 ≤ s < S → d_key_ok s) →
  dict_is e n (shard_node_idx_dict_ cl) → n + S ≤ max_elems →
  ∃ cl', OnMessage order m cl = Some cl' ∧ dict_is e (n + S) (shard_node_idx_dict_ cl') ∧ node_conf_map_ cl' = m
    ∧ indexed (node_idx_node_ep_map_ cl') (order m) (shard_node_idx_dict_ cl').
Proof.
  intros HS Hord Hsh Hne Hk Hd Hn. assert (shards_of (order m) ≡ₚ seqZ 0 S) as Hp by (by rewrite (Hord m)).
  assert (Z.of_nat (length (shards_of (order m))) = S) as Hlen by (rewrite Hp, length_seqZ; lia).
  destruct (index_nodes_spec e (order m) n (shard_node_idx_dict_ cl) [] [] Hd) as (d & eps & Hi & Hd' & Hix & _); [lia| |by intros s ?%not_elem_of_nil|].
  { rewrite Hp. apply Forall_forall. intros s Hs%elem_of_seqZ. apply Hk. lia. }
  unfold OnMessage. rewrite Hi. cbn [mbind option_bind]. eexists. split; [done|]. rewrite Hlen in Hd'.
  by rewrite bool_decide_eq_false_2 by done.
Qed.

(** C16: whatever nodes have joined at the controller, a client that is sent one of its
    configurations (with nodes) looks up each shard of the cluster and finds the
    endpoint of the node that the configuration gives the shard to, whatever older
    configurations it was sent before. *)
Theorem clients_find_holders S es c out m order e n cl :
  0 < S < 2 ^ 31 → Forall no_leave es → controller_run es (controller_new S) = Some (c, out) → SyncConfig m ∈ out → m ≠ ∅ →
  (∀ m, order m ≡ₚ map_to_list m) → (∀ s, 0 ≤ s < S → d_key_ok s) → dict_is e n (shard_node_idx_dict_ cl) → n + S ≤ max_elems →
  ∃ cl', OnMessage order m cl = Some cl' ∧
    ∀ s, 0 ≤ s < S → ∃ cl'' id nc, QueryNodeEndpoint s cl' = Some (cl'', Some (end_point id nc)) ∧ m !! id = Some nc ∧ s ∈ nc_shard_ids nc.
Proof.
  intros HS Hes Hrun Hsync Hne Hord Hk Hd Hn. destruct (run_sound S es c out HS Hes Hrun) as [_ Hout].
  destruct (proj1 (Forall_forall _ _) Hout _ Hsync) as [?|(Hsh & _ & _)]; [done|].
  destruct (OnMessage_finds S e n order m cl ltac:(lia) Hord Hsh Hne Hk Hd Hn) as (cl' & Hm & Hd' & _ & Hix).
  exists cl'. split; [done|]. intros s Hs. destruct (Hix s) as (i & id & nc & Hv & Hep & Hin & Hsn).
  { rewrite (Hord m). fold (shards m). rewrite Hsh. apply elem_of_seqZ. lia. }
  destruct (find_is e (n + S) (shard_node_idx_dict_ cl') s Hd' (Hk s Hs)) as (d & Hf & _ & _).
  unfold QueryNodeEndpoint. rewrite Hf, Hv. cbn [mbind option_bind fmap option_fmap option_map value]. rewrite Nat2Z.id.
  cbn [node_idx_node_ep_map_]. rewrite Hep. cbn [mbind option_bind]. eexists _, id, nc. split_and!; try done.
  by rewrite (Hord m), elem_of_map_to_list in Hin.
Qed.
End lookup.
