(* ===== verification/ControllerExamples.v ===== *)
(** * Concrete clusters

    Histories of joins at a shard controller, what the theorems are applied to, and the
    runs in which nodes and shards are lost. *)

From S2P Require Import Prelude Comparator AvlUtil AvlTree Dict HashTableBase HashTable TreeHashTable Dictionary.
From S2P Require Import Controller ControllerFacts ControllerErrors ConfigdClient.

Module ControllerExamples.
Open Scope string_scope.
Open Scope Z_scope.

#[local] Instance HashZ : HashFunc Z := λ x, x.

Definition net (ids : list Z) : Net := MkNet "10.0.0.1" ids map_to_list (λ _, true) (λ _, []).

Lemma net_fine ids : net_ok (net ids).
Proof. by intros m. Qed.

Definition message (op : ControllerOperation) (id : Z) (ids : list Z) : ControllerRequest := MkControllerRequest op id 9998 9997 ids.
Definition join (conn id : Z) : Event := Message conn (net [id]) (message CONTROL_OP_ADD_NODE INVALID_NODE_ID []).
Definition complete (conn id : Z) : Event := Message conn (net []) (message CONTROL_OP_ADD_NODE_COMPLETE id []).
Definition connects : list Event := [Connect 1 0; Connect 2 0; Connect 3 0].

Definition after (S : Z) (es : list Event) : Controller := match controller_run es (controller_new S) with Some (c, _) => c | None => controller_new S end.

Definition shares (m : Configuration) : list (Z * list Z) := map (λ x, (x.1, nc_shard_ids x.2)) (map_to_list m).

(** Three nodes share ten shards. *)
Definition three_joins : list Event := connects ++ [join 1 11; complete 1 11; join 2 22; complete 2 22; join 3 33; complete 3 33].

Example three_shares : shares (config_ (after 10 three_joins)) = [(11, [0; 1; 2; 3]); (33, [4; 5; 6]); (22, [9; 8; 7])].
Proof. by vm_compute. Qed.

Lemma joins_no_leave es : forallb (λ e, match e with Message _ _ rq => match operation rq with CONTROL_OP_LEAVE_NODE => false | _ => true end | _ => true end) es = true →
  Forall (λ e, match e with Message _ n _ => net_ok n | _ => True end) es → Forall no_leave es.
Proof.
  induction es as [|e es IH]; simpl; [done|]. intros [He Hes]%andb_prop [Hn Hns]%Forall_cons. constructor; [|by apply IH].
  destruct e as [| |]; try done. split; [done|]. by intros E; rewrite E in He.
Qed.

#[local] Ltac no_leave_tac := apply joins_no_leave; [by vm_compute|repeat (apply Forall_cons; split; [first [exact I | apply net_fine]|]); apply Forall_nil; exact I].

Lemma three_joins_run : ∃ out, controller_run three_joins (controller_new 10) = Some (after 10 three_joins, out).
Proof. eexists. by vm_compute. Qed.

Lemma controller_shares_shards_witness :
  ∃ out, controller_run three_joins (controller_new 10) = Some (after 10 three_joins, out) ∧ confs_sound 10 (after 10 three_joins) ∧ Forall (out_sound 10) out.
Proof.
  destruct three_joins_run as [out Hr]. exists out. split; [exact Hr|].
  apply (controller_shares_shards 10 three_joins (after 10 three_joins) out ltac:(lia)); [no_leave_tac|exact Hr].
Defined.

Lemma three_sound : confs_sound 10 (after 10 three_joins).
Proof. destruct three_joins_run as [out Hr]. apply (run_sound 10 three_joins _ out); [lia|no_leave_tac|done]. Qed.

Lemma controller_accepts_node_witness :
  ∃ c' out, Join (net [11; 44]) 4 (message CONTROL_OP_ADD_NODE INVALID_NODE_ID []) (after 10 three_joins) = Some (c', out)
    ∧ joined 10 (net [11; 44]) 4 (message CONTROL_OP_ADD_NODE INVALID_NODE_ID []) (after 10 three_joins) c' out.
Proof.
  apply (controller_accepts_node 10 (net [11; 44]) 4 (message CONTROL_OP_ADD_NODE INVALID_NODE_ID []) (after 10 three_joins) (net_fine _)
    ltac:(lia) three_sound eq_refl); [by vm_compute|].
  apply Exists_cons_tl, Exists_cons_hd. split; [by vm_compute|done].
Defined.

(** Shards are asked for. *)
Definition asking : Controller := with_sessions (after 10 three_joins) {[7 := 33]}.

Lemma query_names_holders_witness :
  ∃ infos, QueryNodeInfo (net []) 7 (message CONTROL_OP_QUERY_NODE_INFO 33 [0; 8; 3]) asking
             = Some (asking, [Send 7 (MkControllerResponse CONTROL_STATUS_OK None infos None)])
    ∧ map ni_node_id infos = [11; 22; 11].
Proof.
  destruct (query_names_holders 10 (net []) 7 (message CONTROL_OP_QUERY_NODE_INFO 33 [0; 8; 3]) asking (net_fine _)) as (infos & Hq & _).
  - lia.
  - exact three_sound.
  - apply (bool_decide_unpack _). by vm_compute.
  - by vm_compute.
  - repeat (apply Forall_cons; split; [lia|]). apply Forall_nil; exact I.
  - exists infos. split; [exact Hq|].
    assert (QueryNodeInfo (net []) 7 (message CONTROL_OP_QUERY_NODE_INFO 33 [0; 8; 3]) asking
      = Some (asking, [Send 7 (MkControllerResponse CONTROL_STATUS_OK None
          [node_info 11 (MkNodeConf 9998 "10.0.0.1" 9997 [0; 1; 2; 3]) [0; 3] true; node_info 22 (MkNodeConf 9998 "10.0.0.1" 9997 [9; 8; 7]) [8] true;
           node_info 11 (MkNodeConf 9998 "10.0.0.1" 9997 [0; 1; 2; 3]) [] true] None)])) as E by (by vm_compute).
    rewrite E in Hq. by injection Hq as <-.
Defined.

(** ** What goes wrong *)

(** The third of three joins that overlap forgets the second node. *)
Definition overlapping : list Event := connects ++ [join 1 11; join 2 22; join 3 33].

Example second_node_forgotten :
  shares (config_ (after 10 (overlapping ++ [complete 1 11; complete 2 22; complete 3 33]))) = [(11, [0; 1; 2; 3; 4]); (33, [9; 8; 7; 6; 5])].
Proof. by vm_compute. Qed.

Definition two_pending : Controller := after 10 (connects ++ [join 1 11; join 2 22]).

Lemma two_pending_sound : confs_sound 10 two_pending.
Proof.
  apply (run_sound 10 (connects ++ [join 1 11; join 2 22]) two_pending
    (match controller_run (connects ++ [join 1 11; join 2 22]) (controller_new 10) with Some (_, out) => out | None => [] end)); [lia|no_leave_tac|by vm_compute].
Qed.

Lemma two_pending_queue : ∃ p p', pending_conf_q_ two_pending = [p; p'] ∧ pending_node_id p = 11 ∧ pending_node_id p' = 22 ∧ conf p !! 22 = None ∧ state p' = CONF_STATE_JOIN_NODE ∧ state p = CONF_STATE_JOIN_NODE.
Proof. eexists _, _. by vm_compute. Qed.

Lemma overlapping_joins_forget_witness :
  ∃ c' out, Join (net [33]) 3 (message CONTROL_OP_ADD_NODE INVALID_NODE_ID []) two_pending = Some (c', out)
    ∧ ∃ p p' m id, pending_conf_q_ c' = [p; p'; MkPending m CONF_STATE_JOIN_NODE id] ∧ (m !! 22 = None ∨ id = 22).
Proof.
  destruct two_pending_queue as (p & p' & Hq & _ & Hid' & Hn & _ & _).
  destruct (Join (net [33]) 3 (message CONTROL_OP_ADD_NODE INVALID_NODE_ID []) two_pending) as [[c' out]|] eqn:Hj; [|by vm_compute in Hj].
  exists c', out. split; [done|]. exists p, p'. rewrite <-Hid' in Hn |- *.
  apply (overlapping_joins_forget 10 (net [33]) 3 (message CONTROL_OP_ADD_NODE INVALID_NODE_ID []) two_pending c' out p p' []
    (net_fine _) ltac:(lia) two_pending_sound Hq Hn eq_refl ltac:(by vm_compute) Hj).
Defined.

(** The second node is ready before the first. *)
Definition second_ready : Controller := after 10 (connects ++ [join 1 11; join 2 22; complete 2 22]).

Lemma completion_after_others_stops_witness :
  ControllorOperationComplete (net []) 1 (message CONTROL_OP_ADD_NODE_COMPLETE 11 []) CONF_STATE_JOIN_NODE second_ready = None.
Proof.
  assert (∃ p p', pending_conf_q_ second_ready = [p; p'] ∧ pending_node_id p = 11 ∧ state p = CONF_STATE_JOIN_NODE
    ∧ pending_conf_conn_dict_ second_ready !! (state p', pending_node_id p') = Some 2) as (p & p' & Hq & Hid & Hst & Hd) by (eexists _, _; by vm_compute).
  apply (completion_after_others_stops (net []) 1 (message CONTROL_OP_ADD_NODE_COMPLETE 11 []) CONF_STATE_JOIN_NODE second_ready p [p']); try done.
  apply Forall_singleton. by exists 2.
Defined.

(** A node leaves over a connection whose session happens to have its id. *)
Definition leaving : Controller := after 3 (connects ++ [join 1 11; complete 1 11; join 2 22; complete 2 22; Connect 5 11]).

Lemma leaving_sound : confs_sound 3 leaving.
Proof.
  apply (run_sound 3 (connects ++ [join 1 11; complete 1 11; join 2 22; complete 2 22; Connect 5 11]) leaving
    (match controller_run (connects ++ [join 1 11; complete 1 11; join 2 22; complete 2 22; Connect 5 11]) (controller_new 3) with Some (_, out) => out | None => [] end));
    [lia|no_leave_tac|by vm_compute].
Qed.

Lemma no_node_leaves_properly_witness :
  ∃ c' out, Leave (net []) 5 (message CONTROL_OP_LEAVE_NODE 11 []) leaving = Some (c', out)
    ∧ ∃ m, pending_conf_q_ c' = [MkPending m CONF_STATE_LEAVE_NODE 11] ∧ (is_Some (m !! 11) ∨ Z.of_nat (length (shards m)) < 3).
Proof.
  destruct (Leave (net []) 5 (message CONTROL_OP_LEAVE_NODE 11 []) leaving) as [[c' out]|] eqn:Hl; [|by vm_compute in Hl].
  exists c', out. split; [done|]. destruct (GetRecentConf leaving !! 11) as [nc|] eqn:Hnc; [|by vm_compute in Hnc].
  destruct (no_node_leaves_properly 3 (net []) 5 (message CONTROL_OP_LEAVE_NODE 11 []) leaving c' out nc (net_fine _) ltac:(lia)
    (recent_sound 3 leaving leaving_sound) ltac:(done) Hnc Hl) as (m & Hq & Hm).
  exists m. split; [exact Hq|]. destruct Hm as [Hm|Hm]; [left; cbn [req_node_id message] in Hm; by rewrite Hm|by right].
Defined.

Lemma joined_session_cannot_leave_witness :
  Leave (net []) 1 (message CONTROL_OP_LEAVE_NODE 11 []) (after 10 three_joins) = None.
Proof.
  destruct (Join (net [11]) 1 (message CONTROL_OP_ADD_NODE INVALID_NODE_ID []) (after 10 connects)) as [[c' out]|] eqn:Hj; [|by vm_compute in Hj].
  apply (joined_session_cannot_leave (net [11]) 1 (message CONTROL_OP_ADD_NODE INVALID_NODE_ID []) (after 10 connects) c' out
    (net []) (message CONTROL_OP_LEAVE_NODE 11 []) (after 10 three_joins) Hj); [by intros ->; vm_compute in Hj| |done|done|eexists; by vm_compute].
  vm_compute in Hj. injection Hj as <- _. by vm_compute.
Defined.

(** ** At a client *)

Abbreviation dict := (HashState (AvlTreeBase unit (KeyValue Z Z))).

Definition synced : Configuration := config_ (after 10 three_joins).

Definition client : ConfigdClient dict :=
  match OnMessage map_to_list synced configd_client_new with Some cl => cl | None => configd_client_new end.

Example shard_8_at : (snd <$> QueryNodeEndpoint 8 client) = Some (Some (MkEndPoint 22 "10.0.0.1" 9997)).
Proof. by vm_compute. Qed.

Lemma clients_find_holders_witness :
  ∃ cl, OnMessage map_to_list synced (configd_client_new (D := dict)) = Some cl
    ∧ ∃ cl' id nc, QueryNodeEndpoint 8 cl = Some (cl', Some (end_point id nc)) ∧ synced !! id = Some nc ∧ 8 ∈ nc_shard_ids nc.
Proof.
  destruct three_joins_run as [out Hr].
  destruct (clients_find_holders (D := dict) 10 three_joins (after 10 three_joins) out synced map_to_list 0 0 configd_client_new) as (cl & Hm & Hf).
  - lia.
  - no_leave_tac.
  - exact Hr.
  - vm_compute in Hr. injection Hr as <-. vm_compute. repeat (first [left; reflexivity | right]).
  - apply (bool_decide_unpack _). by vm_compute.
  - done.
  - done.
  - apply init_is. lia.
  - by vm_compute.
  - exists cl. split; [exact Hm|]. apply Hf. lia.
Defined.

(** The first shard after a gap is not printed. *)
Example shard_after_gap : shards_text [1; 2; 6; 5] = "[1-2][6]".
Proof. by vm_compute. Qed.
End ControllerExamples.
