(* ===== verification/Joining.v ===== *)
(** * A node that joins or leaves

    [mmkv/tracker/shard_controller_client.h], [shard_controller_client.cc],
    [internal/shard_controller_client_impl.h], [mmkv/sharder/sharder_client.h] and
    [sharder_client.cc]: the node's side of the protocol of [Controller].  The node asks
    the controller to join, pulls the shards it is told from the other nodes, one
    client for each of them, and reports when all have finished.

    What a callback sends and what it does to the database is a list of [Action]s.
    [None] is a failed assertion, an index out of range, or a call that does not return
    because it waits for a connection to the controller ([WaitConn]). *)

From S2P Require Import Prelude Controller.

Inductive ClientState := IDLE | JOINING | LEAVING | JOIN_PUSHING.

#[export] Instance ClientState_eq_dec : EqDecision ClientState.
Proof. solve_decision. Defined.

(** [SharderClient::State]. *)
Inductive TransferState := TRANSFER_IDLE | PULLING | PUSHING.

Inductive ShardOperation := SHARD_OP_PUSH | SHARD_OP_PULL | SHARD_OP_DEL.

(** A client of another node; [shard_num_] is the number of [shard_ids_]. *)
Record SharderClient := MkSharderClient { shard_ids_ : list Z; shard_index_ : Z; transfer_state_ : TransferState }.

(** [node_shard_num] is [mmkv_config().shard_num]; [conn_] says whether there is a
    connection to the controller. *)
Record NodeClient := MkNodeClient {
  state_ : ClientState;
  node_id_ : Z;
  finish_node_num_ : Z;
  joining_push_num_ : Z;
  shard_clis_ : list SharderClient;
  node_shard_num : Z;
  conn_ : bool;
}.

(** A message to the controller or to a peer, by the index of its client; a shard that is
    added to a database instance, the data of a shard that is executed, the session
    that waits for a shard and is served, and what the node does when it has left. *)
Inductive Action :=
  | ToController (op : ControllerOperation) (node_id : Z)
  | ToPeer (i : nat) (op : ShardOperation) (shard_id : Z)
  | AddShardTo (instance : nat) (shard_id : Z)
  | PullShardData (shard_id : Z)
  | ServePending (shard_id : Z)
  | DistributeKeys (instance : nat)
  | StartSharder
  | DeleteAllShards.

Definition node_new : NodeClient := MkNodeClient IDLE INVALID_NODE_ID 0 0 [] 0 false.

Definition with_state (n : NodeClient) (s : ClientState) : NodeClient :=
  MkNodeClient s (node_id_ n) (finish_node_num_ n) (joining_push_num_ n) (shard_clis_ n) (node_shard_num n) (conn_ n).
Definition with_finish (n : NodeClient) (k : Z) : NodeClient :=
  MkNodeClient (state_ n) (node_id_ n) k (joining_push_num_ n) (shard_clis_ n) (node_shard_num n) (conn_ n).
Definition with_push_num (n : NodeClient) (k : Z) : NodeClient :=
  MkNodeClient (state_ n) (node_id_ n) (finish_node_num_ n) k (shard_clis_ n) (node_shard_num n) (conn_ n).
Definition with_clis (n : NodeClient) (l : list SharderClient) : NodeClient :=
  MkNodeClient (state_ n) (node_id_ n) (finish_node_num_ n) (joining_push_num_ n) l (node_shard_num n) (conn_ n).

(** ** Requests and completion *)

Definition with_conn (n : NodeClient) (b : bool) : NodeClient :=
  MkNodeClient (state_ n) (node_id_ n) (finish_node_num_ n) (joining_push_num_ n) (shard_clis_ n) (node_shard_num n) b.

(** [Impl::WaitConn]: returns when the connection is there, and not before. *)
Definition WaitConn (n : NodeClient) : option () := if conn_ n then Some () else None.

Definition node_Join (n : NodeClient) : option (NodeClient * list Action) :=
  WaitConn n;; Some (with_state n JOINING, [ToController CONTROL_OP_ADD_NODE (node_id_ n)]).
Definition node_Leave (n : NodeClient) : option (NodeClient * list Action) :=
  WaitConn n;; Some (with_state n LEAVING, [ToController CONTROL_OP_LEAVE_NODE (node_id_ n)]).

(** The connection callback. *)
Definition node_connected (n : NodeClient) : option (NodeClient * list Action) :=
  let n := with_conn n true in
  if bool_decide (state_ n = IDLE) then node_Join n else Some (n, []).
Definition node_disconnected (n : NodeClient) : NodeClient := with_conn n false.

Definition NotifyJoinFinish (n : NodeClient) : option (NodeClient * list Action) :=
  WaitConn n;; Some (with_finish n 0, [ToController CONTROL_OP_ADD_NODE_COMPLETE (node_id_ n)]).
Definition NotifyLeaveFinish (n : NodeClient) : option (NodeClient * list Action) :=
  WaitConn n;; Some (with_finish n 0, [ToController CONTROL_OP_LEAVE_NODE_COMPLETE (node_id_ n)]).

Definition GetPeerNum (n : NodeClient) : Z := Z.of_nat (length (shard_clis_ n)).

Definition NotifyPullFinish (n : NodeClient) : option (NodeClient * list Action) :=
  let n := with_finish n (u32 (finish_node_num_ n + 1)) in
  if finish_node_num_ n =? u64 (GetPeerNum n + joining_push_num_ n) then NotifyJoinFinish n else Some (n, []).

Definition NotifyPushFinish (n : NodeClient) : option (NodeClient * list Action) :=
  if bool_decide (state_ n = JOIN_PUSHING) then NotifyPullFinish n
  else
    let n := with_finish n (u32 (finish_node_num_ n + 1)) in
    if finish_node_num_ n =? GetPeerNum n then NotifyLeaveFinish n else Some (n, []).

(** ** Answers of the controller *)

(** [SendAllPeersRequest]: each new client is appended, but the one that is set up is the
    one with the index of its node info.  [SetUpShards] asserts that there are shards;
    the requests are sent when the connection is there. *)
Fixpoint send_all_peers (st : TransferState) (i : nat) (infos : list NodeInfo) (clis : list SharderClient) : option (list SharderClient * list Action) :=
  match infos with
  | [] => Some (clis, [])
  | info :: infos =>
      let clis := clis ++ [MkSharderClient [] 0 TRANSFER_IDLE] in
      c ← clis !! i;
      if bool_decide (ni_shard_ids info = []) then None
      else
        let clis := <[i := MkSharderClient (ni_shard_ids info) (shard_index_ c) st]> clis in
        let op := match st with PULLING => SHARD_OP_PULL | _ => SHARD_OP_PUSH end in
        '(clis, acts) ← send_all_peers st (S i) infos clis;
        Some (clis, map (ToPeer i op) (ni_shard_ids info) ++ acts)
  end.

(** [SetAllShardNode], for the first node, with [dbs] database instances. *)
Fixpoint add_all_shards (dbs : nat) (i : nat) (db_shard_num more_than_one shard_idx : Z) : Z * list Action :=
  match dbs with
  | O => (shard_idx, [])
  | S dbs =>
      let '(alloc_shard_num, more_than_one) := if 0 <? more_than_one then (db_shard_num + 1, more_than_one - 1) else (db_shard_num, more_than_one) in
      let '(idx, acts) := add_all_shards dbs (S i) db_shard_num more_than_one (shard_idx + alloc_shard_num) in
      (idx, map (AddShardTo i) (seqZ shard_idx alloc_shard_num) ++ DistributeKeys i :: acts)
  end.

Definition SetAllShardNode (dbs : nat) (n : NodeClient) : option (NodeClient * list Action) :=
  let shard_num := node_shard_num n in
  let '(shard_idx, acts) := add_all_shards dbs 0 (shard_num / Z.of_nat dbs) (shard_num `mod` Z.of_nat dbs) 0 in
  if negb (shard_idx =? shard_num) then None
  else '(n, acts') ← NotifyJoinFinish n; Some (n, acts ++ acts' ++ [StartSharder]).

Definition HandleJoinOk (dbs : nat) (resp : ControllerResponse) (n : NodeClient) : option (NodeClient * list Action) :=
  shard_num ← resp_shard_num resp;
  let n := MkNodeClient (state_ n) (default 0 (resp_node_id resp)) (finish_node_num_ n) (joining_push_num_ n) (shard_clis_ n) shard_num (conn_ n) in
  match node_infos resp with
  | [] => SetAllShardNode dbs n
  | infos => '(clis, acts) ← send_all_peers PULLING 0 infos (shard_clis_ n); Some (with_clis n clis, acts)
  end.

(** The node infos have been moved out of the response before: [left] is the size of what
    the move left there. *)
Definition HandleJoinPushing (left : nat) (resp : ControllerResponse) (n : NodeClient) : option (NodeClient * list Action) :=
  if (length (node_infos resp) <? left)%nat then None
  else
    '(clis, acts) ← send_all_peers PUSHING 0 (take left (node_infos resp)) (shard_clis_ n);
    Some (with_clis (with_push_num n (Z.of_nat left)) clis, acts).

Definition HandleLeaveOk (resp : ControllerResponse) (n : NodeClient) : option (NodeClient * list Action) :=
  match node_infos resp with
  | [] => NotifyLeaveFinish n
  | infos => '(clis, acts) ← send_all_peers PUSHING 0 infos (shard_clis_ n); Some (with_clis n clis, acts)
  end.

(** [DelAllShards] of the first [pull_node_num] clients. *)
Definition HandleJoinConfChange (n : NodeClient) : option (NodeClient * list Action) :=
  let pull_node_num := Z.of_nat (length (shard_clis_ n)) - joining_push_num_ n in
  let dels := concat (imap (λ i c, map (ToPeer i SHARD_OP_DEL) (shard_ids_ c)) (take (Z.to_nat pull_node_num) (shard_clis_ n))) in
  Some (with_push_num (with_state n IDLE) 0, dels).

Definition HandleLeaveConfChange (n : NodeClient) : option (NodeClient * list Action) := Some (with_state n IDLE, [DeleteAllShards]).

(** The callback of the controller's answers; [LOG_FATAL] ends the program. *)
Definition on_controller_response (dbs left : nat) (resp : ControllerResponse) (n : NodeClient) : option (NodeClient * list Action) :=
  match status resp with
  | CONTROL_STATUS_OK =>
      match state_ n with
      | JOINING => HandleJoinOk dbs resp n
      | LEAVING => HandleLeaveOk resp n
      | JOIN_PUSHING => HandleJoinPushing left resp n
      | IDLE => None
      end
  | CONTROL_STATUS_CONF_CHANGE =>
      match state_ n with
      | JOINING | JOIN_PUSHING => HandleJoinConfChange n
      | LEAVING => HandleLeaveConfChange n
      | IDLE => Some (n, [])
      end
  | _ => Some (n, [])
  end.

(** ** Answers of the peers *)

(** The callback of [SetUpCodec] for an answer with the status [SHARD_STATUS_OK] on the
    connection of client [i]; [dbs] is the number of database instances. *)
Definition on_shard_response (dbs : nat) (i : nat) (shard_id : Z) (n : NodeClient) : option (NodeClient * list Action) :=
  c ← shard_clis_ n !! i;
  let c' := MkSharderClient (shard_ids_ c) (u64 (shard_index_ c + 1)) (transfer_state_ c) in
  let finished := shard_index_ c' =? Z.of_nat (length (shard_ids_ c')) in
  match transfer_state_ c with
  | PULLING =>
      let at_db := if bool_decide (dbs = 1%nat) then 0%nat else Z.to_nat (Z.land shard_id (Z.of_nat dbs - 1)) in
      let acts := [AddShardTo at_db shard_id; PullShardData shard_id] in
      if finished then
        '(n, acts') ← NotifyPullFinish (with_clis n (<[i := c']> (shard_clis_ n)));
        Some (with_clis n (<[i := MkSharderClient (shard_ids_ c) 0 (transfer_state_ c)]> (shard_clis_ n)), acts ++ acts' ++ [ServePending shard_id])
      else Some (with_clis n (<[i := c']> (shard_clis_ n)), acts ++ [ServePending shard_id])
  | PUSHING =>
      if negb (shard_index_ c =? shard_id) then None
      else
        let n := with_clis n (<[i := c']> (shard_clis_ n)) in
        if finished then NotifyPushFinish n else Some (n, [])
  | TRANSFER_IDLE => None
  end.
