(* ===== verification/JoiningFacts.v ===== *)
(** * What a joining node does

    However the answers of the peers interleave, the node reports that it has joined
    once, when every shard has been answered.  The shards it asks for are those the
    controller has given it.  And the cases in which joining goes wrong. *)

From S2P Require Import Prelude Controller ControllerFacts Joining.

(** ** The clients *)

Definition pulling (ids : list Z) : SharderClient := MkSharderClient ids 0 PULLING.

Lemma send_all_peers_fresh infos : ∀ clis,
  Forall (λ info, ni_shard_ids info ≠ []) infos →
  send_all_peers PULLING (length clis) infos clis
  = Some (clis ++ map (λ info, pulling (ni_shard_ids info)) infos,
          concat (imap (λ i info, map (ToPeer (length clis + i) SHARD_OP_PULL) (ni_shard_ids info)) infos)).
Proof.
  induction infos as [|info infos IH]; intros clis Hall; cbn [send_all_peers map imap concat]; [by rewrite app_nil_r|].
  apply Forall_cons in Hall as [Hne Hall]. rewrite lookup_app_r, Nat.sub_diag by done. cbn [lookup list_lookup mbind option_bind].
  rewrite bool_decide_eq_false_2 by done. rewrite insert_app_r_alt, Nat.sub_diag by done. cbn [insert list_insert].
  specialize (IH (clis ++ [pulling (ni_shard_ids info)]) Hall). rewrite length_app, Nat.add_1_r in IH. unfold pulling in IH at 1.
  cbn [shard_index_]. rewrite IH. cbn [mbind option_bind]. rewrite Nat.add_0_r, <-app_assoc. f_equal. f_equal. f_equal. f_equal.
  apply imap_ext. intros i x _. simpl. by rewrite Nat.add_succ_r.
Qed.

(** Of the shards of each client, so many have been answered. *)
Fixpoint finished (ids : list (list Z)) (cs : list nat) : Z :=
  match ids, cs with
  | l :: ids, c :: cs => (if bool_decide (c = length l) then 1 else 0) + finished ids cs
  | _, _ => 0
  end.

Definition client_at (l : list Z) (c : nat) : SharderClient := MkSharderClient l (if bool_decide (c = length l) then 0 else Z.of_nat c) PULLING.

Lemma finished_range ids cs : 0 ≤ finished ids cs ≤ Z.of_nat (length ids).
Proof. revert cs. induction ids as [|l ids IH]; intros [|c cs]; simpl; try lia. specialize (IH cs). case_bool_decide; lia. Qed.

Lemma finished_all ids cs : length ids = length cs → finished ids cs = Z.of_nat (length ids) ↔ cs = map length ids.
Proof.
  revert cs. induction ids as [|l ids IH]; intros [|c cs] Hlen; simpl in *; try done. injection Hlen as Hlen.
  pose proof (finished_range ids cs). specialize (IH cs Hlen). case_bool_decide as Hc.
  - split; [intros ?; f_equal; [done|]; apply IH; lia|]. intros [= _ ->%IH]. lia.
  - split; [lia|]. by intros [= ? _].
Qed.

Lemma finished_step (i : nat) : ∀ ids cs l c,
  ids !! i = Some l → cs !! i = Some c → c ≠ length l →
  finished ids (<[i := S c]> cs) = finished ids cs + (if bool_decide (S c = length l) then 1 else 0).
Proof.
  induction i as [|i IH]; intros [|l0 ids] [|c0 cs] l c Hl Hc Hne; simpl in *; try done.
  - injection Hl as ->. injection Hc as ->. rewrite (bool_decide_eq_false_2 (c = length l)) by done. lia.
  - rewrite (IH ids cs l c Hl Hc Hne). lia.
Qed.

(** ** Counting the answers *)

(** The node after so many answers. *)
Definition node_at (id snum : Z) (ids : list (list Z)) (cs : list nat) : NodeClient :=
  MkNodeClient JOINING id (if bool_decide (cs = map length ids) then 0 else finished ids cs) 0 (zip_with client_at ids cs) snum true.

Definition is_complete (a : Action) : bool := match a with ToController CONTROL_OP_ADD_NODE_COMPLETE _ => true | _ => false end.
Definition completes (acts : list Action) : list Action := filter (λ a, is_complete a = true) acts.

Lemma completes_app a b : completes (a ++ b) = completes a ++ completes b.
Proof. apply filter_app. Qed.

Lemma map_length_insert (ids : list (list Z)) (i : nat) c cs l :
  ids !! i = Some l → cs !! i = Some c → c ≠ length l → cs ≠ map length ids.
Proof. intros Hl Hc Hne ->. by rewrite list_lookup_fmap, Hl in Hc; injection Hc as <-. Qed.

Lemma clients_insert (i : nat) : ∀ ids cs l (c c' : nat),
  ids !! i = Some l → cs !! i = Some c →
  <[i := client_at l c']> (zip_with client_at ids cs) = zip_with client_at ids (<[i := c']> cs).
Proof. induction i as [|i IH]; intros [|l0 ids] [|c0 cs] l c c' Hl Hc; simpl in *; try done; [by injection Hl as ->|]. f_equal. by eapply IH. Qed.

Lemma NotifyPullFinish_spec st id f clis snum :
  0 ≤ f < 2 ^ 32 - 1 → Z.of_nat (length clis) < 2 ^ 32 →
  NotifyPullFinish (MkNodeClient st id f 0 clis snum true)
  = Some (if f + 1 =? Z.of_nat (length clis) then (MkNodeClient st id 0 0 clis snum true, [ToController CONTROL_OP_ADD_NODE_COMPLETE id])
          else (MkNodeClient st id (f + 1) 0 clis snum true, [])).
Proof.
  intros Hf Hl. unfold NotifyPullFinish, GetPeerNum, u32. simpl. rewrite Z.add_0_r, Z.mod_small, u64_small by lia. by destruct (_ =? _).
Qed.

#[local] Ltac node_red := cbv beta iota delta [with_clis state_ node_id_ finish_node_num_ joining_push_num_ shard_clis_ node_shard_num conn_].

Lemma answer_step dbs id snum ids cs (i : nat) l c shard :
  length ids = length cs → Z.of_nat (length ids) < 2 ^ 32 → Forall (λ l, Z.of_nat (length l) < 2 ^ 64) ids →
  ids !! i = Some l → cs !! i = Some c → (c < length l)%nat →
  ∃ acts, on_shard_response dbs i shard (node_at id snum ids cs) = Some (node_at id snum ids (<[i := S c]> cs), acts)
    ∧ completes acts = if bool_decide (<[i := S c]> cs = map length ids) then [ToController CONTROL_OP_ADD_NODE_COMPLETE id] else [].
Proof.
  intros Hlen Hn Hsmall Hl Hc Hlt. unfold on_shard_response, node_at. cbn [shard_clis_]. rewrite lookup_zip_with, Hl, Hc. cbn [mbind option_bind].
  assert (bool_decide (c = length l) = false) as Hcl by (apply bool_decide_eq_false_2; lia).
  assert (client_at l c = MkSharderClient l (Z.of_nat c) PULLING) as -> by (unfold client_at; by rewrite Hcl).
  cbn [transfer_state_ shard_ids_ shard_index_].
  pose proof (proj1 (Forall_lookup _ _) Hsmall i l Hl) as Hll. simpl in Hll. rewrite u64_small by lia.
  pose proof (map_length_insert ids i c cs l Hl Hc ltac:(lia)) as Hncs. rewrite (bool_decide_eq_false_2 (cs = _)) by done.
  pose proof (finished_step i ids cs l c Hl Hc ltac:(lia)) as Hfs. set (cs' := <[i := S c]> cs) in *.
  assert (length ids = length cs') as Hlen' by (unfold cs'; by rewrite length_insert).
  pose proof (finished_all ids cs' Hlen') as Hall. pose proof (finished_range ids cs') as Hr. pose proof (finished_range ids cs) as Hr0.
  assert (length (zip_with client_at ids cs) = length ids) as Hzl by (rewrite length_zip_with; lia).
  destruct (Z.eqb_spec (Z.of_nat c + 1) (Z.of_nat (length l))) as [Heq|Hne].
  - rewrite (bool_decide_eq_true_2 (S c = length l)) in Hfs by lia.
    node_red. rewrite NotifyPullFinish_spec by (rewrite ?length_insert; lia). cbn [mbind option_bind]. rewrite length_insert, Hzl.
    assert (<[i := MkSharderClient l 0 PULLING]> (zip_with client_at ids cs) = zip_with client_at ids cs') as Hci.
    { unfold cs'. rewrite <-(clients_insert i ids cs l c (S c)) by done. f_equal. unfold client_at. by rewrite bool_decide_eq_true_2 by lia. }
    destruct (Z.eqb_spec (finished ids cs + 1) (Z.of_nat (length ids))) as [Hf|Hf].
    + rewrite (bool_decide_eq_true_2 (cs' = _)) by (apply Hall; lia). 
      eexists. split; [node_red; by rewrite list_insert_insert, decide_True, Hci by done|done].
    + rewrite (bool_decide_eq_false_2 (cs' = _)) by (intros E%Hall; lia). eexists. split; [node_red; by rewrite list_insert_insert, decide_True, Hci, Hfs by done|done].
  - rewrite (bool_decide_eq_false_2 (S c = length l)), Z.add_0_r in Hfs by lia.
    assert (finished ids cs' ≠ Z.of_nat (length ids)) as Hnf.
    { intros E. apply Hall in E. assert (map length ids !! i = Some (S c)) as E2 by (rewrite <-E; unfold cs'; apply list_lookup_insert_eq; by eapply lookup_lt_Some).
      rewrite list_lookup_fmap, Hl in E2. injection E2 as E2. lia. }
    assert (<[i := MkSharderClient l (Z.of_nat c + 1) PULLING]> (zip_with client_at ids cs) = zip_with client_at ids cs') as Hci.
    { unfold cs'. rewrite <-(clients_insert i ids cs l c (S c)) by done. f_equal. unfold client_at. rewrite bool_decide_eq_false_2 by lia. f_equal. lia. }
    rewrite (bool_decide_eq_false_2 (cs' = _)) by (by intros E%Hall). eexists. split; [node_red; by rewrite Hci, Hfs|done].
Qed.

(** Answers one after the other: the client, and the shard. *)
Fixpoint node_answers (dbs : nat) (evs : list (nat * Z)) (n : NodeClient) : option (NodeClient * list Action) :=
  match evs with
  | [] => Some (n, [])
  | (i, shard) :: evs => '(n, acts) ← on_shard_response dbs i shard n; '(n, acts') ← node_answers dbs evs n; Some (n, acts ++ acts')
  end.

(** How many answers each of [k] clients has had. *)
Definition tally (k : nat) (evs : list (nat * Z)) : list nat := foldl (λ cs e, alter S e.1 cs) (replicate k 0%nat) evs.

Lemma tally_snoc k evs e : tally k (evs ++ [e]) = alter S e.1 (tally k evs).
Proof. unfold tally. by rewrite foldl_snoc. Qed.

Lemma length_tally k evs : length (tally k evs) = k.
Proof. induction evs as [|e evs IH] using rev_ind; [apply length_replicate|]. by rewrite tally_snoc, length_alter. Qed.

Lemma node_answers_snoc dbs evs i shard n :
  node_answers dbs (evs ++ [(i, shard)]) n
  = ('(n, acts) ← node_answers dbs evs n; '(n, acts') ← on_shard_response dbs i shard n; Some (n, acts ++ acts')).
Proof.
  revert n. induction evs as [|[j s] evs IH]; intros n; cbn [app node_answers].
  - cbn [mbind option_bind]. destruct (on_shard_response dbs i shard n) as [[n1 a1]|]; [|done]. cbn [mbind option_bind]. by rewrite app_nil_r.
  - destruct (on_shard_response dbs j s n) as [[n1 a1]|]; [|done]. cbn [mbind option_bind]. rewrite IH.
    destruct (node_answers dbs evs n1) as [[n2 a2]|]; [|done]. cbn [mbind option_bind].
    destruct (on_shard_response dbs i shard n2) as [[n3 a3]|]; [|done]. cbn [mbind option_bind]. by rewrite app_assoc.
Qed.

(** No client has more answers than shards. *)
Definition answers_fit (ids : list (list Z)) (evs : list (nat * Z)) : Prop :=
  Forall (λ e, (e.1 < length ids)%nat) evs ∧ Forall2 (λ c l, (c ≤ length l)%nat) (tally (length ids) evs) ids.

Lemma alter_le (f : nat → nat) (i : nat) : ∀ (cs : list nat) (ids : list (list Z)),
  (∀ c, (c ≤ f c)%nat) → Forall2 (λ c l, (c ≤ length l)%nat) (alter f i cs) ids → Forall2 (λ c l, (c ≤ length l)%nat) cs ids.
Proof.
  induction i as [|i IH]; intros [|c cs] [|l ids] Hf H2; simpl in *; inversion H2; subst; constructor; try done.
  - specialize (Hf c). lia.
  - by apply IH.
Qed.

Lemma answers_counted dbs id snum ids evs :
  Z.of_nat (length ids) < 2 ^ 32 → Forall (λ l, Z.of_nat (length l) < 2 ^ 64) ids → Forall (λ l, l ≠ []) ids → ids ≠ [] → answers_fit ids evs →
  ∃ acts, node_answers dbs evs (MkNodeClient JOINING id 0 0 (map pulling ids) snum true) = Some (node_at id snum ids (tally (length ids) evs), acts)
    ∧ completes acts = if bool_decide (tally (length ids) evs = map length ids) then [ToController CONTROL_OP_ADD_NODE_COMPLETE id] else [].
Proof.
  intros Hn Hsm Hne Hids. induction evs as [|[i shard] evs IH] using rev_ind; intros [Hi Hf].
  - exists []. cbn [node_answers]. unfold tally in *. cbn [foldl] in *.
    assert (replicate (length ids) 0%nat ≠ map length ids) as Hnz.
    { destruct ids as [|l ids]; [done|]. inversion Hne; subst. simpl. intros [= E%symmetry%nil_length_inv _]. done. }
    rewrite bool_decide_eq_false_2 by done. split; [|done]. unfold node_at. rewrite bool_decide_eq_false_2 by done. f_equal. f_equal. f_equal.
    + clear -Hne. induction Hne as [|l ids Hl Hne IH]; [done|]. simpl. rewrite bool_decide_eq_false_2; [lia|]. by intros E%symmetry%nil_length_inv.
    + clear -Hne. induction Hne as [|l ids Hl Hne IH]; [done|]. simpl. rewrite IH. f_equal. unfold client_at. rewrite bool_decide_eq_false_2; [done|].
      by intros E%symmetry%nil_length_inv.
  - apply Forall_app in Hi as [Hi [Hi1 _]%Forall_cons]. cbn [fst] in Hi1. rewrite tally_snoc in *. cbn [fst] in *.
    set (cs := tally (length ids) evs) in *. assert (length cs = length ids) as Hlc by apply length_tally.
    destruct (IH (conj Hi (alter_le S i cs ids ltac:(lia) Hf))) as (acts & Hr & Hc).
    destruct (lookup_lt_is_Some_2 ids i Hi1) as [l Hl]. destruct (lookup_lt_is_Some_2 cs i ltac:(lia)) as [c Hcs].
    assert (alter S i cs = <[i := S c]> cs) as Ha by (by apply list_eq; intros j; destruct (decide (i = j)) as [->|];
      [rewrite list_lookup_alter_eq, list_lookup_insert_eq, Hcs by lia|rewrite list_lookup_alter_ne, list_lookup_insert_ne by done]).
    rewrite Ha in *. assert (S c ≤ length l)%nat as Hle.
    { eapply (Forall2_lookup_lr _ _ _ i (S c) l Hf); [|done]. apply list_lookup_insert_eq. lia. }
    destruct (answer_step dbs id snum ids cs i l c shard ltac:(done) Hn Hsm Hl Hcs ltac:(lia)) as (acts' & Hs & Hc').
    exists (acts ++ acts'). rewrite node_answers_snoc, Hr. cbn [mbind option_bind]. rewrite Hs. cbn [mbind option_bind]. split; [done|].
    rewrite completes_app, Hc', Hc. rewrite (bool_decide_eq_false_2 (cs = _)); [done|].
    apply (map_length_insert ids i c cs l Hl Hcs). lia.
Qed.

(** A node that pulls shards from other nodes reports to the controller that it has
    joined exactly once, and not before every shard has been answered, however the
    answers of the nodes interleave. *)
Theorem joining_node_reports_once dbs id snum ids evs :
  Z.of_nat (length ids) < 2 ^ 32 → Forall (λ l, Z.of_nat (length l) < 2 ^ 64) ids → Forall (λ l, l ≠ []) ids → ids ≠ [] → answers_fit ids evs →
  ∃ n acts, node_answers dbs evs (MkNodeClient JOINING id 0 0 (map pulling ids) snum true) = Some (n, acts)
    ∧ completes acts = if bool_decide (tally (length ids) evs = map length ids) then [ToController CONTROL_OP_ADD_NODE_COMPLETE id] else [].
Proof. intros. destruct (answers_counted dbs id snum ids evs) as (acts & ? & ?); [done..|]. by eexists _, _. Qed.

(** ** The whole protocol *)

(** The request by which a new node joins, and the one by which it reports. *)
Definition join_request (n : NodeClient) (sharder_port mmkvd_port : Z) : ControllerRequest :=
  MkControllerRequest CONTROL_OP_ADD_NODE (node_id_ n) sharder_port mmkvd_port [].
Definition complete_request (id : Z) : ControllerRequest := MkControllerRequest CONTROL_OP_ADD_NODE_COMPLETE id 0 0 [].

(** The shards a node asks the others for. *)
Definition pulls (acts : list Action) : list Z := flat_map (λ a, match a with ToPeer _ SHARD_OP_PULL s => [s] | _ => [] end) acts.

Lemma pulls_app a b : pulls (a ++ b) = pulls a ++ pulls b.
Proof. apply flat_map_app. Qed.

Lemma pulls_peer i ids : pulls (map (ToPeer i SHARD_OP_PULL) ids) = ids.
Proof. induction ids as [|s ids IH]; simpl; [done|]. by rewrite IH. Qed.

Lemma pulls_infos (f : nat → nat) infos :
  pulls (concat (imap (λ i info, map (ToPeer (f i) SHARD_OP_PULL) (ni_shard_ids info)) infos)) = flat_map ni_shard_ids infos.
Proof.
  revert f. induction infos as [|info infos IH]; intros f; [done|]. cbn [imap concat flat_map]. rewrite pulls_app, pulls_peer. f_equal.
  apply (IH (f ∘ S)).
Qed.

Lemma infos_small (infos : list NodeInfo) :
  Forall (λ i, ni_shard_ids i ≠ []) infos →
  (length infos ≤ length (flat_map ni_shard_ids infos))%nat
  ∧ Forall (λ l, (length l ≤ length (flat_map ni_shard_ids infos))%nat) (map ni_shard_ids infos).
Proof.
  induction 1 as [|i infos Hi Hall [IH1 IH2]]; [done|]. simpl. rewrite length_app. split.
  - destruct (ni_shard_ids i); [done|]. simpl. lia.
  - constructor; [lia|]. eapply Forall_impl; [exact IH2|]. simpl. lia.
Qed.

(** A new node, once it is connected and has sent its request. *)
Definition joining_node : NodeClient := MkNodeClient JOINING INVALID_NODE_ID 0 0 [] 0 true.

Lemma new_node_asks : node_connected node_new = Some (joining_node, [ToController CONTROL_OP_ADD_NODE INVALID_NODE_ID]).
Proof. done. Qed.

(** The node's side: what it does with the answer to its request. *)
Lemma node_pulls dbs left id snum infos :
  Forall (λ i, ni_shard_ids i ≠ []) infos → infos ≠ [] →
  ∃ acts, on_controller_response dbs left (MkControllerResponse CONTROL_STATUS_OK (Some id) infos (Some snum)) joining_node
      = Some (MkNodeClient JOINING id 0 0 (map pulling (map ni_shard_ids infos)) snum true, acts)
    ∧ pulls acts = flat_map ni_shard_ids infos.
Proof.
  intros Hall Hne. unfold joining_node.
  unfold on_controller_response. cbn [status state_]. unfold HandleJoinOk. cbn [resp_shard_num mbind option_bind node_infos resp_node_id default node_id_ finish_node_num_ joining_push_num_ shard_clis_ state_].
  destruct infos as [|i0 l0] eqn:Ei; [done|]. rewrite <-Ei in *. rewrite (send_all_peers_fresh infos [] Hall : send_all_peers PULLING 0 infos [] = _).
  cbn [mbind option_bind app length]. eexists. split; [unfold with_clis; simpl; by rewrite map_map|]. apply (pulls_infos (λ i, (0 + i)%nat)).
Qed.

(** C15: a new node joins a cluster of less than 2^31 shards at whose controller no change
    is pending, that has nodes, but fewer than shards, and for which an unused id is
    drawn.  Connected, the node
    asks to join, and the controller answers.  If the answer names no node without shards
    (the new node would fail an assertion on it), the node pulls exactly the shards the new
    configuration gives it; when all have been answered, in whatever order, while the
    connection to the controller stays, it reports once; with the report the controller
    takes over the new configuration, which shares the shards evenly among one node more,
    and tells the node, which is then idle. *)
Theorem node_joins_cluster S dbs left net conn sp mp c :
  net_ok net → 0 < S < 2 ^ 31 → confs_sound S c → pending_conf_q_ c = [] → config_ c ≠ ∅ → node_num (config_ c) < S →
  Exists (unused (config_ c)) (draws net) →
  ∃ n0 c1 id infos m nc, node_connected node_new = Some (n0, [ToController CONTROL_OP_ADD_NODE (node_id_ node_new)])
    ∧ Join net conn (join_request node_new sp mp) c
      = Some (c1, [Send conn (MkControllerResponse CONTROL_STATUS_OK (Some id) infos (Some S))])
    ∧ sound S m ∧ node_num m = node_num (config_ c) + 1 ∧ m !! id = Some nc
    ∧ (Forall (λ i, ni_shard_ids i ≠ []) infos →
       ∃ n1 acts1, on_controller_response dbs left (MkControllerResponse CONTROL_STATUS_OK (Some id) infos (Some S)) n0 = Some (n1, acts1)
         ∧ pulls acts1 = nc_shard_ids nc
         ∧ ∀ evs, Forall (λ e, (e.1 < length infos)%nat) evs → tally (length infos) evs = map length (map ni_shard_ids infos) →
             ∃ n2 acts2, node_answers dbs evs n1 = Some (n2, acts2) ∧ completes acts2 = [ToController CONTROL_OP_ADD_NODE_COMPLETE id]
               ∧ ∀ net', ∃ c2 out, ControllorOperationComplete net' conn (complete_request id) CONF_STATE_JOIN_NODE c1 = Some (c2, out)
                   ∧ config_ c2 = m ∧ pending_conf_q_ c2 = [] ∧ Send conn (MakeControllerResponse CONTROL_STATUS_CONF_CHANGE) ∈ out
                   ∧ ∃ n3 acts3, on_controller_response dbs left (MakeControllerResponse CONTROL_STATUS_CONF_CHANGE) n2 = Some (n3, acts3)
                       ∧ state_ n3 = IDLE ∧ node_id_ n3 = id).
Proof.
  intros Hnet HS Hc Hq Hne Hfull Hdr. assert (GetRecentConf c = config_ c) as Er by (unfold GetRecentConf; by rewrite Hq).
  pose proof (Join_joined S net conn (join_request node_new sp mp) c Hnet HS Hc eq_refl ltac:(by rewrite Er)) as Hj.
  destruct (generate_loop_ends (GetRecentConf c) (draws net) INVALID_NODE_ID ltac:(by rewrite Er) ltac:(by left)) as [id0 Eg].
  unfold GenerateNodeId in Hj. rewrite Eg in Hj. destruct Hj as (c1 & out & HJ & (id & nc & m & infos & -> & _ & Hm & _ & _ & _ & _ & Hq1 & Hsound & Hnum & Hinf & _) & _).
  exists joining_node, c1, id, infos, m, nc. rewrite Er in *. split_and!; try done. intros Hall. destruct Hinf as [[? _]|[_ Hflat]]; [done|].
  assert (Z.of_nat (length (nc_shard_ids nc)) ≤ S) as Hsmall.
  { destruct Hsound as [->|(Hsh & _ & _)]; [done|]. by apply (sound_size S m id nc ltac:(lia) Hsh). }
  assert (infos ≠ []) as Hi0.
  { intros ->. simpl in Hflat. destruct Hsound as [->|(_ & Hbal & Hle)]; [done|]. pose proof (Hbal id nc Hm) as Hb.
    assert (1 ≤ S / node_num m) by (apply Z.div_le_lower_bound; unfold node_num in *; lia). unfold shard_ids_size in Hb. rewrite <-Hflat in Hb. simpl in Hb. lia. }
  destruct (node_pulls dbs left id S infos Hall Hi0) as (acts1 & Hr & Hpulls). eexists _, acts1. split; [done|]. split; [congruence|].
  intros evs Hevs Ht. destruct (infos_small infos Hall) as [Hl1 Hl2]. rewrite Hflat in Hl1, Hl2.
  destruct (answers_counted dbs id S (map ni_shard_ids infos) evs) as (acts2 & Ha & Hcomp).
  - rewrite length_map. lia.
  - eapply Forall_impl; [exact Hl2|]. simpl. lia.
  - by apply Forall_map.
  - by destruct infos.
  - split; rewrite length_map; [done|]. rewrite Ht. clear. induction (map ni_shard_ids infos) as [|l ids IH]; constructor; done.
  - rewrite length_map, Ht, bool_decide_eq_true_2 in Hcomp by done. eexists _, acts2. split; [done|]. split; [done|]. intros net'.
    rewrite Hq in Hq1. unfold ControllorOperationComplete. rewrite Hq1. cbn [app pending_node_id complete_request req_node_id state conf].
    rewrite Z.eqb_refl, bool_decide_eq_true_2 by done. cbn [andb UpdateConfig mbind option_bind]. eexists _, _. split; [done|].
    split_and!; [done|done|by right; left|by eexists _, _].
Qed.

(** ** The first node *)

Definition added (acts : list Action) : list Z := flat_map (λ a, match a with AddShardTo _ s => [s] | _ => [] end) acts.

Lemma added_to i ids : added (map (AddShardTo i) ids) = ids.
Proof. induction ids as [|s ids IH]; simpl; [done|]. by rewrite IH. Qed.

Lemma completes_to i ids : completes (map (AddShardTo i) ids) = [].
Proof. by induction ids. Qed.

Lemma add_all_shards_spec dbs : ∀ i q more idx,
  0 ≤ q → 0 ≤ more ≤ Z.of_nat dbs →
  ∃ acts, add_all_shards dbs i q more idx = (idx + Z.of_nat dbs * q + more, acts) ∧ added acts = seqZ idx (Z.of_nat dbs * q + more) ∧ completes acts = [].
Proof.
  induction dbs as [|dbs IH]; intros i q more idx Hq Hm; cbn [add_all_shards].
  { exists []. replace more with 0 by lia. split_and!; [f_equal; lia|done|done]. }
  set (x := if 0 <? more then (q + 1, more - 1) else (q, more)).
  assert (∃ a r, x = (a, r) ∧ 0 ≤ a ∧ 0 ≤ r ≤ Z.of_nat dbs ∧ a + r = q + more) as (a & r & -> & Ha & Hr & Hsum).
  { unfold x. destruct (Z.ltb_spec 0 more); eexists _, _; (split; [done|]); lia. }
  destruct (IH (S i) q r (idx + a) Hq Hr) as (acts & -> & Hadd & Hcomp). eexists. split; [f_equal; lia|]. split; cycle 1.
  { rewrite completes_app, completes_to. cbn [app]. unfold completes. rewrite filter_cons_False by done. exact Hcomp. }
  unfold added. rewrite flat_map_app. fold (added (map (AddShardTo i) (seqZ idx a))). rewrite added_to. cbn [flat_map app]. fold (added acts). rewrite Hadd.
  rewrite <-seqZ_app by lia. f_equal. lia.
Qed.

(** The first node of a cluster adds every shard to one of its databases, once, and
    reports that it has joined; the assertion on their number holds. *)
Theorem first_node_adds_all dbs left id S :
  (0 < dbs)%nat → 0 < S →
  ∃ n acts, on_controller_response dbs left (MkControllerResponse CONTROL_STATUS_OK (Some id) [] (Some S)) joining_node = Some (n, acts)
    ∧ added acts = seqZ 0 S ∧ completes acts = [ToController CONTROL_OP_ADD_NODE_COMPLETE id] ∧ shard_clis_ n = [].
Proof.
  intros Hdbs HS. unfold joining_node.
  unfold on_controller_response. cbn [status state_]. unfold HandleJoinOk, SetAllShardNode. cbn [resp_shard_num mbind option_bind node_infos resp_node_id default node_shard_num].
  pose proof (Z.mod_pos_bound S (Z.of_nat dbs) ltac:(lia)) as Hmod. pose proof (Z.div_mod S (Z.of_nat dbs) ltac:(lia)) as Hdm.
  destruct (add_all_shards_spec dbs 0 (S / Z.of_nat dbs) (S `mod` Z.of_nat dbs) 0) as (acts & -> & Hadd & Hcomp); [apply Z.div_pos; lia|lia|].
  rewrite <-Hdm in Hadd. destruct (Z.eqb_spec (0 + Z.of_nat dbs * (S / Z.of_nat dbs) + S `mod` Z.of_nat dbs) S) as [_|]; [|lia]. cbn [negb].
  eexists _, _. split; [done|]. split; [unfold added in *; rewrite flat_map_app, Hadd; cbn [flat_map app]; by rewrite app_nil_r|]. split; [|done].
  by rewrite completes_app, Hcomp.
Qed.
