(* ===== verification/JoiningExamples.v ===== *)
(** * Concrete joins

    What the theorems on joining nodes are applied to, and joins that fail. *)

From S2P Require Import Prelude Comparator Dict Controller ControllerFacts ControllerErrors ConfigdClient ControllerExamples Joining JoiningFacts.

Module JoiningExamples.
Import ControllerExamples.
Open Scope Z_scope.

Definition pulled : list (list Z) := [[0; 1]; [5]].
Definition answers : list (nat * Z) := [(0%nat, 0); (1%nat, 5); (0%nat, 1)].

Lemma joining_node_reports_once_witness :
  ∃ n acts, node_answers 1 answers (MkNodeClient JOINING 7 0 0 (map pulling pulled) 10 true) = Some (n, acts)
    ∧ completes acts = [ToController CONTROL_OP_ADD_NODE_COMPLETE 7].
Proof.
  apply (joining_node_reports_once 1 7 10 pulled answers); [done| | |done|].
  - repeat (apply Forall_cons; split; [done|]). apply Forall_nil; exact I.
  - repeat (apply Forall_cons; split; [done|]). apply Forall_nil; exact I.
  - split; [repeat (apply Forall_cons; split; [simpl; lia|]); apply Forall_nil; exact I|].
    repeat (constructor; [by vm_compute|]). constructor.
Defined.

Definition one_node : list Event := connects ++ [join 1 11; complete 1 11].

Lemma one_node_sound : confs_sound 10 (after 10 one_node).
Proof.
  apply (run_sound 10 one_node (after 10 one_node) (match controller_run one_node (controller_new 10) with Some (_, out) => out | None => [] end));
    [lia| |by vm_compute].
  apply joins_no_leave; [by vm_compute|]. repeat (apply Forall_cons; split; [first [exact I | apply net_fine]|]). apply Forall_nil; exact I.
Qed.

(** The second node of a cluster: it pulls five shards from the first, which answers them
    in any order, here the last first; it reports, and the configuration has two nodes. *)
Definition second_answers : list (nat * Z) := map (λ s, (0%nat, s)) [5; 6; 7; 8; 9].

Lemma node_joins_cluster_witness :
  ∃ n0 c1 n1 acts1 n2 acts2 c2 out n3 acts3,
    Join (net [22]) 2 (join_request node_new 9998 9997) (after 10 one_node)
      = Some (c1, [Send 2 (MkControllerResponse CONTROL_STATUS_OK (Some 22) [MkNodeInfo 11 9998 "10.0.0.1" [9; 8; 7; 6; 5] false] (Some 10))])
    ∧ node_connected node_new = Some (n0, [ToController CONTROL_OP_ADD_NODE INVALID_NODE_ID])
    ∧ on_controller_response 1 0 (MkControllerResponse CONTROL_STATUS_OK (Some 22) [MkNodeInfo 11 9998 "10.0.0.1" [9; 8; 7; 6; 5] false] (Some 10)) n0 = Some (n1, acts1)
    ∧ pulls acts1 = [9; 8; 7; 6; 5]
    ∧ node_answers 1 second_answers n1 = Some (n2, acts2) ∧ completes acts2 = [ToController CONTROL_OP_ADD_NODE_COMPLETE 22]
    ∧ ControllorOperationComplete (net []) 2 (complete_request 22) CONF_STATE_JOIN_NODE c1 = Some (c2, out)
    ∧ sound 10 (config_ c2) ∧ node_num (config_ c2) = 2
    ∧ on_controller_response 1 0 (MakeControllerResponse CONTROL_STATUS_CONF_CHANGE) n2 = Some (n3, acts3) ∧ state_ n3 = IDLE.
Proof.
  destruct (node_joins_cluster 10 1 0 (net [22]) 2 9998 9997 (after 10 one_node) (net_fine _) ltac:(lia) one_node_sound) as (n0 & c1 & id & infos & m & nc & H0 & HJ & Hs & Hn & Hm & Hrest).
  - by vm_compute.
  - apply (bool_decide_unpack _). by vm_compute.
  - by vm_compute.
  - apply Exists_cons_hd. split; [by vm_compute|done].
  - assert (snd <$> Join (net [22]) 2 (join_request node_new 9998 9997) (after 10 one_node)
      = Some [Send 2 (MkControllerResponse CONTROL_STATUS_OK (Some 22) [MkNodeInfo 11 9998 "10.0.0.1" [9; 8; 7; 6; 5] false] (Some 10))]) as Hv by (by vm_compute).
    rewrite HJ in Hv. injection Hv as -> ->. destruct Hrest as (n1 & acts1 & H1 & Hp & Hans); [by apply Forall_singleton|].
    destruct (Hans second_answers) as (n2 & acts2 & H2 & Hc & Hcomp); [repeat (apply Forall_cons; split; [by vm_compute|]); by apply Forall_nil|by vm_compute|].
    destruct (Hcomp (net [])) as (c2 & out & H3 & Hm2 & _ & _ & n3 & acts3 & H4 & Hi & _). exists n0, c1, n1, acts1, n2, acts2, c2, out, n3, acts3.
    split_and!; try done; [|by rewrite Hm2|rewrite Hm2, Hn; by vm_compute].
    vm_compute in H0. injection H0 as <-. vm_compute in H1. injection H1 as _ <-. by vm_compute.
Defined.

Lemma first_node_adds_all_witness :
  ∃ n acts, on_controller_response 2 0 (MkControllerResponse CONTROL_STATUS_OK (Some 11) [] (Some 5)) joining_node = Some (n, acts)
    ∧ added acts = [0; 1; 2; 3; 4] ∧ completes acts = [ToController CONTROL_OP_ADD_NODE_COMPLETE 11] ∧ shard_clis_ n = [].
Proof. apply (first_node_adds_all 2 0 11 5); lia. Defined.

(** ** What goes wrong *)

(** The fourth node of a cluster of ten shards is told to pull no shards from one of the
    nodes, and stops at the assertion on their number. *)
Definition answer_to_fourth : list ControllerResponse :=
  match Join (net [44]) 4 (join_request node_new 9998 9997) (after 10 three_joins) with
  | Some (_, out) => omap (λ o, match o with Send _ resp => Some resp | _ => None end) out
  | None => []
  end.

Example fourth_node_told : map (λ resp, map (λ i, (ni_node_id i, ni_shard_ids i)) (node_infos resp)) answer_to_fourth = [[(11, [3]); (33, []); (22, [7])]].
Proof. by vm_compute. Qed.

Example fourth_node_stops : map (λ resp, on_controller_response 1 0 resp joining_node) answer_to_fourth = [None].
Proof. by vm_compute. Qed.

(** The first node adds its shards in order to its two databases, but shard 1 is looked
    up in the other one. *)
Example first_node_misplaces :
  match on_controller_response 2 0 (MkControllerResponse CONTROL_STATUS_OK (Some 11) [] (Some 4)) joining_node with
  | Some (_, acts) => (take 2 acts, Z.land 1 (2 - 1))
  | None => ([], 0)
  end = ([AddShardTo 0 0; AddShardTo 0 1], 1).
Proof. by vm_compute. Qed.

(** A push is acknowledged by the id of the shard, which is compared with its index. *)
Example push_answer_stops :
  on_shard_response 1 0 7 (MkNodeClient LEAVING 11 0 0 [MkSharderClient [7; 8] 0 PUSHING] 10 true) = None.
Proof. by vm_compute. Qed.

(** The clients of the last transfer are still there: the new one is not set up. *)
Example old_clients_stay :
  match on_controller_response 1 0 (MkControllerResponse CONTROL_STATUS_OK (Some 11) [MkNodeInfo 22 9998 "10.0.0.1" [3] true] None)
          (MkNodeClient LEAVING 11 0 0 [MkSharderClient [7; 8] 0 PULLING] 10 true) with
  | Some (n, _) => shard_clis_ n
  | None => []
  end = [MkSharderClient [3] 0 PUSHING; MkSharderClient [] 0 TRANSFER_IDLE].
Proof. by vm_compute. Qed.
End JoiningExamples.
