(* ===== verification/RawMmbp.v ===== *)
(** * Messages in raw memory

    The second half of the parsers of [mmkv/protocol/mmbp_util.h], with [mmbp.h] and
    [mmbp_request.cc]: the data of a shard is not in a [Buffer] but in memory, and the
    parsers move a pointer and count down the bytes that are left.

    The memory is the list of the bytes from the pointer to the end of the data; the
    number of bytes left, which the code keeps apart, can differ from its length.
    Reading past the end of the data is a fault.  A varint is looked for in at most the
    bytes left. *)

From Stdlib Require Import Ascii String.
From S2P Require Import Prelude Comparator Mmbp.

(** ** Components *)

Section raw_components.
Context `{Kvarint} `{NetOrder}.
Implicit Types (mem : bytes) (size : Z).

(** The value, the memory from the new pointer on, and the bytes left. *)
Definition RawReader (A : Type) : Type := bytes * Z → option (A * (bytes * Z)).

#[export] Instance RawReader_ret : MRet RawReader := λ A x s, Some (x, s).
#[export] Instance RawReader_bind : MBind RawReader := λ A B f r s, '(x, s) ← r s; f x s.

(** [MMKV_PARSE_UNSIGNED_RAW_], [MMKV_PARSE_SIGNED_RAW_]. *)
Definition raw_varint (decode : bytes → KvarintResult) : RawReader Z := λ '(mem, size),
  match decode (take (Z.to_nat size) mem) with
  | KVARINT_OK len i => Some (i, (drop len mem, u64 (size - Z.of_nat len)))
  | _ => None
  end.

Definition raw_ParseUnsigned (bits : Z) : RawReader Z := raw_varint (kvarint_decode bits).
Definition raw_ParseSigned64 : RawReader Z := raw_varint kvarint_decode_s.

(** [str.append] of the bytes at the pointer, which moves past them. *)
Definition raw_append (len : Z) : RawReader string := λ '(mem, size),
  '(s, mem) ← ReadBytes len mem; Some (s, (mem, size)).

(** The same, and [len] bytes fewer are left. *)
Definition raw_ReadBytes (len : Z) : RawReader string := λ '(mem, size),
  '(s, (mem, size)) ← raw_append len (mem, size); Some (s, (mem, u64 (size - len))).

(** The size that is left is not counted down by the length of the string. *)
Definition raw_ParseString (is_16 : bool) : RawReader string :=
  len ← raw_ParseUnsigned (if is_16 then 16 else 32);
  raw_append len.

Fixpoint raw_append_each (values : list string) : RawReader (list string) :=
  match values with
  | [] => mret []
  | v :: vs =>
      value_size ← raw_ParseUnsigned 64;
      s ← raw_ReadBytes value_size;
      rest ← raw_append_each vs;
      mret ((v +:+ s) :: rest)
  end.

Definition raw_ParseStrValues (values : list string) : RawReader (list string) :=
  count ← raw_ParseUnsigned 32;
  raw_append_each (resize_to count "" values).

(** A weight is read as a varint, while it is written as eight bytes. *)
Fixpoint raw_append_weights (values : list (KeyValue Z string)) : RawReader (list (KeyValue Z string)) :=
  match values with
  | [] => mret []
  | v :: vs =>
      weight ← raw_ParseUnsigned 64;
      value_size ← raw_ParseUnsigned 64;
      s ← raw_ReadBytes value_size;
      rest ← raw_append_weights vs;
      mret (MkKeyValue weight (value v +:+ s) :: rest)
  end.

Definition raw_ParseWeightValues (values : list (KeyValue Z string)) : RawReader (list (KeyValue Z string)) :=
  count ← raw_ParseUnsigned 32;
  raw_append_weights (resize_to count (MkKeyValue 0 "") values).

Fixpoint raw_append_kvs (kvs : list (KeyValue string string)) : RawReader (list (KeyValue string string)) :=
  match kvs with
  | [] => mret []
  | kv :: rest =>
      key_size ← raw_ParseUnsigned 64;
      k ← raw_ReadBytes key_size;
      value_size ← raw_ParseUnsigned 64;
      v ← raw_ReadBytes value_size;
      rest ← raw_append_kvs rest;
      mret (MkKeyValue (key kv +:+ k) (value kv +:+ v) :: rest)
  end.

Definition raw_ParseStrKvs (kvs : list (KeyValue string string)) : RawReader (list (KeyValue string string)) :=
  count ← raw_ParseUnsigned 32;
  raw_append_kvs (resize_to count (MkKeyValue "" "") kvs).

(** ** Requests *)

Definition raw_len : RawReader Z := λ s, Some (s.2, s).

(** What follows the bits. *)
Definition raw_fields (r : MmbpRequest) : RawReader MmbpRequest :=
  r ← (if HasKey r then k ← raw_ParseString true; mret (set_key r k) else mret r);
  r ← (if HasValue r then v ← raw_ParseString false; mret (set_value r v)
       else if HasValues r then vs ← raw_ParseStrValues (req_values r); mret (set_values r vs)
       else if HasKvs r then kvs ← raw_ParseStrKvs (req_kvs r); mret (set_kvs r kvs)
       else if HasCount r then n ← raw_ParseUnsigned 32; mret (set_count r n)
       else if HasRange r then x ← raw_ParseSigned64; y ← raw_ParseSigned64; mret (set_range r x y)
       else if HasVmembers r then wms ← raw_ParseWeightValues (req_vmembers r); mret (set_vmembers r wms)
       else mret r);
  (if HasExpireTime r then t ← raw_ParseUnsigned 64; mret (set_expire_time r t) else mret r).

(** [ParseFrom(pp_data, len)], with [sizeof(command)] and [sizeof(has_bits_)]. *)
Definition raw_ParseFrom (r : MmbpRequest) : RawReader MmbpRequest :=
  len ← raw_len;
  if len <? 2 then mret r
  else
    c ← raw_ParseUnsigned 16;
    let r := set_command r c in
    len ← raw_len;
    if len <? 1 then mret r
    else bits ← raw_ParseUnsigned 8; raw_fields (set_bits r bits).

(** [ParseFrom2]: both sides of [pp_data - old_pp_data] are the same pointer. *)
Definition ParseFrom2 (r : MmbpRequest) : RawReader MmbpRequest := λ '(mem, size),
  '(r, (mem, _)) ← raw_ParseFrom r (mem, size);
  Some (r, (mem, u64 (size - 0))).
End raw_components.

(** ** The raw parsers agree with the parsers of a buffer *)

Section agreement.
Context `{Kvarint, !KvarintLaws, NetOrder, !NetOrderLaws}.
Implicit Types (mem rest : bytes) (size : Z).

(** Enough bytes are said to be left. *)
Definition covers mem size : Prop := Z.of_nat (length mem) ≤ size < 2 ^ 64.

Definition agrees {A} (r : Reader A) (rr : RawReader A) : Prop := ∀ mem size, covers mem size →
  match r mem with
  | Some (x, rest) => ∃ size', rr (mem, size) = Some (x, (rest, size')) ∧ covers rest size'
  | None => rr (mem, size) = None
  end.

Lemma agrees_ret {A} (x : A) : agrees (mret x) (mret x).
Proof. intros mem size Hc. by exists size. Qed.

Lemma agrees_bind {A B} (r : Reader A) rr (f : A → Reader B) ff :
  agrees r rr → (∀ mem x rest, r mem = Some (x, rest) → agrees (f x) (ff x)) → agrees (r ≫= f) (rr ≫= ff).
Proof.
  intros Hr Hf mem size Hc. specialize (Hr mem size Hc). unfold mbind, Reader_bind, RawReader_bind.
  destruct (r mem) as [[x rest]|] eqn:Er; [|by rewrite Hr]. destruct Hr as (size' & -> & Hc'). simpl. by eapply Hf.
Qed.

Lemma agrees_varint (decode : bytes → KvarintResult) :
  (∀ b len i, decode b = KVARINT_OK len i → (0 < len ≤ length b)%nat) →
  agrees (λ b, match decode b with KVARINT_OK len i => Some (i, drop len b) | _ => None end) (raw_varint decode).
Proof.
  intros Hd mem size Hc. unfold raw_varint, covers in *. rewrite take_ge by lia.
  destruct (decode mem) as [len i| |] eqn:Ed; [|done|done]. apply Hd in Ed. eexists. split; [done|].
  rewrite length_drop, u64_small by lia. lia.
Qed.

Lemma agrees_unsigned bits : agrees (ParseUnsigned bits) (raw_ParseUnsigned bits).
Proof. apply agrees_varint. intros b len i Hd. apply (kvarint_decode_reads bits b len i Hd). Qed.

Lemma agrees_signed : agrees ParseSigned64 raw_ParseSigned64.
Proof. apply agrees_varint. intros b len i. apply kvarint_decode_s_reads. Qed.

Lemma agrees_append len : agrees (ReadBytes len) (raw_append len).
Proof.
  intros mem size Hc. unfold raw_append, ReadBytes, covers in *. destruct (Z.ltb_spec (Z.of_nat (length mem)) len); [done|].
  eexists. split; [done|]. rewrite length_drop. lia.
Qed.

Lemma unsigned_nonneg bits mem x rest : ParseUnsigned bits mem = Some (x, rest) → 0 ≤ x.
Proof. unfold ParseUnsigned. destruct (kvarint_decode bits mem) as [len i| |] eqn:Ed; [|done|done]. intros [= <- _]. apply kvarint_decode_reads in Ed. lia. Qed.

Lemma agrees_bytes len : 0 ≤ len → agrees (ReadBytes len) (raw_ReadBytes len).
Proof.
  intros Hl mem size Hc. unfold raw_ReadBytes, raw_append, ReadBytes, covers in *. destruct (Z.ltb_spec (Z.of_nat (length mem)) len); [done|].
  eexists. split; [done|]. rewrite length_drop, u64_small by lia. lia.
Qed.

(** A string after its size, and what is made of it. *)
Lemma agrees_sized {A} (f : string → Reader A) ff : (∀ s, agrees (f s) (ff s)) →
  agrees (len ← ParseUnsigned 64; s ← ReadBytes len; f s) (len ← raw_ParseUnsigned 64; s ← raw_ReadBytes len; ff s).
Proof.
  intros Hf. apply agrees_bind; [apply agrees_unsigned|]. intros mem len rest Hl%unsigned_nonneg.
  apply agrees_bind; [by apply agrees_bytes|done].
Qed.

Lemma agrees_string is_16 : agrees (ParseString is_16) (raw_ParseString is_16).
Proof. apply agrees_bind; [apply agrees_unsigned|]. intros. apply agrees_append. Qed.

Lemma agrees_each vs : agrees (append_each vs) (raw_append_each vs).
Proof.
  induction vs as [|v vs IH]; cbn [append_each raw_append_each]; [apply agrees_ret|]. apply agrees_sized. intros s.
  apply agrees_bind; [done|]. intros. apply agrees_ret.
Qed.

Lemma agrees_kvs kvs : agrees (append_kvs kvs) (raw_append_kvs kvs).
Proof.
  induction kvs as [|kv kvs IH]; cbn [append_kvs raw_append_kvs]; [apply agrees_ret|]. apply agrees_sized. intros k.
  apply agrees_sized. intros v. apply agrees_bind; [done|]. intros. apply agrees_ret.
Qed.

Lemma agrees_if {A} (b : bool) (r r' : Reader A) rr rr' : agrees r rr → agrees r' rr' → agrees (if b then r else r') (if b then rr else rr').
Proof. by destruct b. Qed.

(** [ParseFrom] gets to the weights. *)
Definition reads_weights (r : MmbpRequest) : bool :=
  negb (HasValue r || HasValues r || HasKvs r || HasCount r || HasRange r) && HasVmembers r.

(** The fields of a request, as the parser of a buffer reads them. *)
Definition buffer_fields (r : MmbpRequest) : Reader MmbpRequest :=
  r ← (if HasKey r then k ← ParseString true; mret (set_key r k) else mret r);
  r ← (if HasValue r then v ← ParseString false; mret (set_value r v)
       else if HasValues r then vs ← ParseStrValues (req_values r); mret (set_values r vs)
       else if HasKvs r then kvs ← ParseStrKvs (req_kvs r); mret (set_kvs r kvs)
       else if HasCount r then n ← ParseUnsigned 32; mret (set_count r n)
       else if HasRange r then x ← ParseSigned64; y ← ParseSigned64; mret (set_range r x y)
       else if HasVmembers r then wms ← ParseWeightValues (req_vmembers r); mret (set_vmembers r wms)
       else mret r);
  (if HasExpireTime r then t ← ParseUnsigned 64; mret (set_expire_time r t) else mret r).

Lemma agrees_fields r : reads_weights r = false → agrees (buffer_fields r) (raw_fields r).
Proof.
  intros Hw. unfold buffer_fields, raw_fields. apply agrees_bind.
  { apply agrees_if; [|apply agrees_ret]. apply agrees_bind; [apply agrees_string|]. intros. apply agrees_ret. }
  intros m0 r1 b0 Hk. assert (req_bits r1 = req_bits r) as Hb.
  { destruct (HasKey r); [|by injection Hk as <- _]. unfold mbind, Reader_bind in Hk. destruct (ParseString true m0) as [[k rest]|]; [|done]. by injection Hk as <- _. }
  assert (reads_weights r1 = false) as Hw1 by (revert Hw; unfold reads_weights, HasValue, HasValues, HasKvs, HasCount, HasRange, HasVmembers; by rewrite Hb).
  clear m0 b0 Hk Hb Hw r. unfold reads_weights in Hw1. apply agrees_bind.
  { destruct (HasValue r1); [|destruct (HasValues r1); [|destruct (HasKvs r1); [|destruct (HasCount r1); [|destruct (HasRange r1); [|destruct (HasVmembers r1); [done|]]]]]].
    - apply agrees_bind; [apply agrees_string|]. intros. apply agrees_ret.
    - apply agrees_bind; [|intros; apply agrees_ret]. apply agrees_bind; [apply agrees_unsigned|]. intros. apply agrees_each.
    - apply agrees_bind; [|intros; apply agrees_ret]. apply agrees_bind; [apply agrees_unsigned|]. intros. apply agrees_kvs.
    - apply agrees_bind; [apply agrees_unsigned|]. intros. apply agrees_ret.
    - apply agrees_bind; [apply agrees_signed|]. intros. apply agrees_bind; [apply agrees_signed|]. intros. apply agrees_ret.
    - apply agrees_ret. }
  intros _ r2 _ _. apply agrees_if; [|apply agrees_ret]. apply agrees_bind; [apply agrees_unsigned|]. intros. apply agrees_ret.
Qed.

Lemma Reader_bind_inv {A B} (m : Reader A) (f : A → Reader B) mem y :
  (m ≫= f) mem = Some y → ∃ x rest, m mem = Some (x, rest) ∧ f x rest = Some y.
Proof. unfold mbind, Reader_bind. destruct (m mem) as [[x rest]|]; [|done]. simpl. intros Hf. by exists x, rest. Qed.

Lemma RawReader_bind_Some {A B} (f : A → RawReader B) (m : RawReader A) s s' x : m s = Some (x, s') → (m ≫= f) s = f x s'.
Proof. intros Hm. unfold mbind, RawReader_bind. by rewrite Hm. Qed.

(** Reading fields does not change which there are. *)
Lemma keeps_bits {A} (m : Reader A) (f : A → MmbpRequest) (bits : Z) mem r rest :
  (∀ x, req_bits (f x) = bits) → (x ← m; mret (f x)) mem = Some (r, rest) → req_bits r = bits.
Proof. intros Hf (x & b & _ & Hx)%Reader_bind_inv. by injection Hx as <- _. Qed.

Lemma fields_bits r mem r' rest : buffer_fields r mem = Some (r', rest) → req_bits r' = req_bits r.
Proof.
  unfold buffer_fields. intros (r1 & m1 & E1 & (r2 & m2 & E2 & Hp)%Reader_bind_inv)%Reader_bind_inv.
  assert (req_bits r1 = req_bits r) as <-.
  { destruct (HasKey r); [by eapply keeps_bits in E1|by injection E1 as <- _]. }
  assert (req_bits r2 = req_bits r1) as <-.
  { repeat (match type of E2 with context [if ?b then _ else _] => destruct b end); try (by eapply keeps_bits in E2); [|by injection E2 as <- _].
    apply Reader_bind_inv in E2 as (x & b & _ & E2). by eapply keeps_bits in E2. }
  destruct (HasExpireTime r2); [by eapply keeps_bits in Hp|by injection Hp as <- _].
Qed.

Lemma ParseUnsigned_shorter bits mem x rest : ParseUnsigned bits mem = Some (x, rest) → (length rest < length mem)%nat.
Proof.
  unfold ParseUnsigned. destruct (kvarint_decode bits mem) as [len i| |] eqn:Ed; [|done|done]. intros [= _ <-].
  apply kvarint_decode_reads in Ed. rewrite length_drop. lia.
Qed.

Lemma raw_follows_buffer r mem size r' rest :
  covers mem size → request_ParseFrom r mem = Some (r', rest) → reads_weights r' = false →
  ∃ size', raw_ParseFrom r (mem, size) = Some (r', (rest, size')) ∧ covers rest size'.
Proof.
  intros Hc Hp Hw. change (request_ParseFrom r mem) with ((c ← ParseUnsigned 16; bits ← ParseUnsigned 8; buffer_fields (set_bits (set_command r c) bits)) mem) in Hp.
  apply Reader_bind_inv in Hp as (c & m1 & E1 & (bits & m2 & E2 & Hp)%Reader_bind_inv).
  pose proof (ParseUnsigned_shorter _ _ _ _ E1) as Hl1. pose proof (ParseUnsigned_shorter _ _ _ _ E2) as Hl2.
  pose proof (agrees_unsigned 16 mem size Hc) as Ha. rewrite E1 in Ha. destruct Ha as (s1 & Ha & Hc1).
  pose proof (agrees_unsigned 8 m1 s1 Hc1) as Hb. rewrite E2 in Hb. destruct Hb as (s2 & Hb & Hc2).
  unfold raw_ParseFrom. rewrite (RawReader_bind_Some _ _ _ (mem, size) size) by done. unfold covers in *.
  destruct (Z.ltb_spec size 2); [lia|]. rewrite (RawReader_bind_Some _ _ _ _ _ Ha). cbv zeta.
  rewrite (RawReader_bind_Some _ _ _ (m1, s1) s1) by done. destruct (Z.ltb_spec s1 1); [lia|]. rewrite (RawReader_bind_Some _ _ _ _ _ Hb).
  assert (reads_weights (set_bits (set_command r c) bits) = false) as Hw0.
  { revert Hw. enough (req_bits r' = bits) as Hbb by (unfold reads_weights, HasValue, HasValues, HasKvs, HasCount, HasRange, HasVmembers; by rewrite Hbb).
    by apply (fields_bits _ _ _ _ Hp). }
  pose proof (agrees_fields _ Hw0 m2 s2 Hc2) as Hd. unfold Reader in Hp. rewrite Hp in Hd. exact Hd.
Qed.

(** C20: in memory, a request is parsed as in a buffer: whatever the parser of a buffer
    makes of the bytes, unless it reads weights, the parser of raw memory makes of
    them, and leaves the same bytes behind, although it loses count of the bytes that
    are left. *)
Theorem raw_parses_as_buffer r mem size r' rest :
  covers mem size → request_ParseFrom r mem = Some (r', rest) → reads_weights r' = false →
  ∃ size', raw_ParseFrom r (mem, size) = Some (r', (rest, size')) ∧ covers rest size'.
Proof. apply raw_follows_buffer. Qed.
End agreement.
