(* ===== verification/Sharder.v ===== *)
(** * Moving the data of shards

    [mmkv/sharder/util.h], [util.cc], [sharder.h], [sharder_session.h],
    [sharder_session.cc], [internal/shard_session_impl.h], and [GetShard], [PutShard]
    and the execution of pulled data of [sharder_client.cc]: a node locks a shard,
    writes its keys and values as requests into a message, and another node parses
    and executes them.

    Sessions and clients have numbers.  The sets of cancelled sessions and clients are
    left out: nothing is ever inserted.  A message is protobuf's, its optional fields
    [option]s; a field that is not set reads as 0 or empty.  [None] is a failed
    assertion, a dangling pointer, or a fault of the database. *)

From S2P Require Import Prelude Comparator AvlUtil AvlTree Dict HashTableBase HashTable TreeHashTable HashSet.
From S2P Require Import Dictionary Blist Cache ListCache Vset Kvdb KvdbSpec Mmbp MmbpCodec Storage Joining RawMmbp.

(** ** Messages *)

Inductive ShardMessageType := SHARD_MSG_REQUEST | SHARD_MSG_RESPONSE.
Inductive ShardStatusCode := SHARD_STATUS_OK | SHARD_STATUS_WAIT.

Record ShardMessage := MkShardMessage {
  msg_type : ShardMessageType;
  msg_operation : option ShardOperation;
  msg_status : option ShardStatusCode;
  msg_shard_id : option Z;
  msg_data_num : option Z;
  msg_data : option bytes;
}.

Definition MakeShardRequest : ShardMessage := MkShardMessage SHARD_MSG_REQUEST None None None None None.
Definition MakeShardResponse : ShardMessage := MkShardMessage SHARD_MSG_RESPONSE None None None None None.

Definition set_operation (m : ShardMessage) (op : ShardOperation) : ShardMessage :=
  MkShardMessage (msg_type m) (Some op) (msg_status m) (msg_shard_id m) (msg_data_num m) (msg_data m).
Definition set_status (m : ShardMessage) (s : ShardStatusCode) : ShardMessage :=
  MkShardMessage (msg_type m) (msg_operation m) (Some s) (msg_shard_id m) (msg_data_num m) (msg_data m).
Definition set_shard_id (m : ShardMessage) (i : Z) : ShardMessage :=
  MkShardMessage (msg_type m) (msg_operation m) (msg_status m) (Some i) (msg_data_num m) (msg_data m).

(** One more request in the data. *)
Definition append_data (m : ShardMessage) (b : bytes) : ShardMessage :=
  MkShardMessage (msg_type m) (msg_operation m) (msg_status m) (msg_shard_id m)
    (Some (u64 (default 0 (msg_data_num m) + 1))) (Some (default [] (msg_data m) ++ b)).

Definition GetShard (shard_id : Z) : ShardMessage := set_shard_id (set_operation MakeShardRequest SHARD_OP_PULL) shard_id.
Definition RemShard (shard_id : Z) : ShardMessage := set_shard_id (set_operation MakeShardRequest SHARD_OP_DEL) shard_id.

(** ** The state *)

(** [keys_] and [send_key_index_] of a session or client. *)
Record SendState := MkSendState { send_keys : list addr; send_key_index : Z }.

Definition session_new : SendState := MkSendState [] 0.
(** The constructor of a client does not initialise the index. *)
Definition client_new (junk : Z) : SendState := MkSendState [] junk.

(** The dictionaries map to a pointer, which can be null. *)
Record Sharder (W C : Type) := MkSharder {
  sh_instances : list (DatabaseInstance W C);
  pending_shard_session_dict_ : gmap Z (option Z);
  pending_shard_client_dict_ : gmap Z (option Z);
}.
Arguments MkSharder {W C}.
Arguments sh_instances {W C}.
Arguments pending_shard_session_dict_ {W C}.
Arguments pending_shard_client_dict_ {W C}.

(** [InsertKv] keeps an entry that is there; [operator[]] makes one with a null pointer. *)
Definition pending_insert (d : gmap Z (option Z)) (shard_id who : Z) : gmap Z (option Z) :=
  match d !! shard_id with Some _ => d | None => <[shard_id := Some who]> d end.
Definition pending_at (d : gmap Z (option Z)) (shard_id : Z) : gmap Z (option Z) * option Z :=
  match d !! shard_id with Some p => (d, p) | None => (<[shard_id := None]> d, None) end.

Section sharder.
Context {W C : Type} `{Comparator W} `{!CacheInterface C addr}
  `{HS : !HashFunc string} `{HA : !HashFunc addr} `{HZ : !HashFunc Z} `{DB : !DoubleBits W}.
Context `{Kvarint} `{NetOrder}.
Context (E : Env) (junk : Z * Z * Z).
#[local] Notation MD := (M (MmkvDb W C)).
Implicit Types (msg : ShardMessage) (keys : list addr) (sh : Sharder W C) (ins : list (DatabaseInstance W C)) (shard_id : Z).

(** ** Sending *)

(** The request that adds a string; [STR_ADD] is the first command. *)
Definition string_request (k v : string) : MmbpRequest :=
  let rq := set_key (set_command (new_request junk) 0) k in
  let rq := set_bits rq (SetBit (req_bits rq) 0) in
  let rq := set_value rq v in
  set_bits rq (SetBit (req_bits rq) 1).

(** The loop of [SerializeMmbpDataToSharderRequest].  When [Type] finds the key expired,
    it frees it, and the reference [key] dangles. *)
Fixpoint serialize_keys keys msg : MD ShardMessage :=
  match keys with
  | [] => mret msg
  | a :: keys =>
      db ← get_state;
      k ← lift (deref_in (dict_ db) a);
      t ← Type_ E k;
      t ← lift t;
      if bool_decide (t = D_STRING) then
        r ← attempt (GetStr E k);
        match r with
        | inl (_, str) => serialize_keys keys (append_data msg (request_SerializeTo (string_request k str)))
        | inr _ => serialize_keys keys msg
        end
      else fault
  end.

Definition SerializeMmbpDataToSharderRequest (s : SendState) msg : MD (SendState * ShardMessage) :=
  msg ← serialize_keys (drop (Z.to_nat (send_key_index s)) (send_keys s)) msg;
  mret (MkSendState (send_keys s) (Z.max (send_key_index s) (Z.of_nat (length (send_keys s)))), msg).

(** A call under a lock. *)
Definition locked_call {A} (lock unlock : LockState → option LockState) (i : nat) (f : MD A) ins :
    option (list (DatabaseInstance W C) * A) :=
  ins ← on_lock i lock ins;
  '(ins, r) ← on_instance i f ins;
  x ← (match r with inl x => Some x | inr _ => None end);
  ins ← on_lock i unlock ins;
  Some (ins, x).

(** The keys of the shard are pushed behind those that are there. *)
Definition get_shard_keys shard_id (s : SendState) : MD (ShardCode * SendState) :=
  '(code, keys) ← on_aux (GetShardKeys E shard_id);
  mret (code, MkSendState (send_keys s ++ keys) (send_key_index s)).

(** What [OnPullShard] does under the read lock. *)
Definition pull_data shard_id (s : SendState) : MD (ShardCode * SendState * ShardMessage) :=
  '(code, s) ← get_shard_keys shard_id s;
  match code with
  | SC_OK =>
      '(s, resp) ← SerializeMmbpDataToSharderRequest s MakeShardResponse;
      mret (code, s, set_shard_id resp shard_id)
  | SC_NO_SHARD => mret (code, s, set_status MakeShardResponse SHARD_STATUS_WAIT)
  | _ => mret (code, s, MakeShardResponse)
  end.

(** [OnPullShard], also [PushShard], of session number [session]: the state of the
    session and the response. *)
Definition OnPullShard (session : Z) (s : SendState) shard_id sh : option (Sharder W C * SendState * ShardMessage) :=
  let i := GetDatabaseInstanceIndex2 (sh_instances sh) shard_id in
  '(ins, _) ← locked_call WLock WUnlock i (on_aux (LockShard shard_id)) (sh_instances sh);
  '(ins, (code, s, resp)) ← locked_call RLock RUnlock i (pull_data shard_id s) ins;
  let pending := match code with
                 | SC_NO_SHARD => pending_insert (pending_shard_session_dict_ sh) shard_id session
                 | _ => pending_shard_session_dict_ sh
                 end in
  let s := if Z.of_nat (length (send_keys s)) =? send_key_index s then MkSendState (send_keys s) 0 else s in
  Some (MkSharder ins pending (pending_shard_client_dict_ sh), s, resp).

(** [PutShard] of client number [client]; when the server is not a sharder, the read
    lock is not released. *)
Definition PutShard (client : Z) (s : SendState) shard_id sh : option (Sharder W C * SendState * ShardMessage) :=
  let i := GetDatabaseInstanceIndex2 (sh_instances sh) shard_id in
  '(ins, _) ← locked_call WLock WUnlock i (on_aux (LockShard shard_id)) (sh_instances sh);
  ins ← on_lock i RLock ins;
  '(ins, r) ← on_instance i (get_shard_keys shard_id s) ins;
  '(code, s) ← (match r with inl x => Some x | inr _ => None end);
  '(ins, s, req, clients) ← (match code with
    | SC_NO_SHARD =>
        ins ← on_lock i RUnlock ins;
        Some (ins, s, MakeShardRequest, pending_insert (pending_shard_client_dict_ sh) shard_id client)
    | SC_OK =>
        '(ins, r) ← on_instance i (SerializeMmbpDataToSharderRequest s MakeShardRequest) ins;
        '(s, req) ← (match r with inl x => Some x | inr _ => None end);
        ins ← on_lock i RUnlock ins;
        Some (ins, s, req, pending_shard_client_dict_ sh)
    | _ => Some (ins, s, MakeShardRequest, pending_shard_client_dict_ sh)
    end);
  Some (MkSharder ins (pending_shard_session_dict_ sh) clients, s, set_shard_id (set_operation req SHARD_OP_PUSH) shard_id).

(** ** Receiving *)

(** The loop over pulled data: [ParseFrom2] and [Execute]. *)
Fixpoint execute_pulled (data_num : nat) (st : bytes * Z) : MD () :=
  match data_num with
  | O => mret ()
  | S data_num =>
      '(request, st) ← lift (ParseFrom2 (new_request junk) st);
      instance_Execute E request None 0;;
      execute_pulled data_num st
  end.

(** What the callback of [SetUpCodec] does with a pulled shard. *)
Definition receive_shard (resp : ShardMessage) ins : option (list (DatabaseInstance W C)) :=
  shard_id ← msg_shard_id resp;
  let i := GetDatabaseInstanceIndex2 ins shard_id in
  '(ins, _) ← locked_call WLock WUnlock i (on_aux (AddShard E shard_id)) ins;
  match msg_data resp, msg_data_num resp with
  | Some data, Some data_num =>
      '(ins, r) ← on_instance i (execute_pulled (Z.to_nat data_num) (data, Z.of_nat (length data))) ins;
      match r with inl _ => Some ins | inr _ => None end
  | _, _ => Some ins
  end.

(** The loop of [OnPushShard] that parses, and the bytes left. *)
Fixpoint parse_pushed (data_num : nat) (st : bytes * Z) : option (list MmbpRequest * Z) :=
  match data_num with
  | O => Some ([], st.2)
  | S data_num =>
      let '(p_old_data, data_size) := st in
      '(rq, (p_data, _)) ← raw_ParseFrom (new_request junk) (p_old_data, data_size);
      let data_size := u64 (data_size - (Z.of_nat (length p_old_data) - Z.of_nat (length p_data))) in
      '(rqs, remaining) ← parse_pushed data_num (p_data, data_size);
      Some (rq :: rqs, remaining)
  end.

Definition set_ignore (b : bool) : MD () :=
  on_aux (x ← get_state; put_state (MkAux (cache_ x) (sdict_ x) (locked_shard_id_set_ x) b (rlog x))).

Fixpoint execute_all (rqs : list MmbpRequest) : MD () :=
  match rqs with [] => mret () | rq :: rqs => instance_Execute E rq None 0;; execute_all rqs end.

(** [OnPushShard]: also the client that waits for the shard, if any, which is then asked
    to [PutShard].  Nothing is sent back. *)
Definition OnPushShard (req : ShardMessage) sh : option (Sharder W C * option Z) :=
  let shard_id := default 0 (msg_shard_id req) in
  let i := GetDatabaseInstanceIndex2 (sh_instances sh) shard_id in
  '(ins, r) ← on_instance i (on_aux (HasShard shard_id)) (sh_instances sh);
  has ← (match r with inl b => Some b | inr _ => None end);
  if has : bool then None
  else
    let data := default [] (msg_data req) in
    '(rqs, data_size) ← parse_pushed (Z.to_nat (default 0 (msg_data_num req))) (data, Z.of_nat (length data));
    if negb (data_size =? 0) then None
    else
      '(ins, _) ← locked_call WLock WUnlock i (set_ignore true;; execute_all rqs;; set_ignore false) ins;
      let '(clients, pending_client) := pending_at (pending_shard_client_dict_ sh) shard_id in
      Some (MkSharder ins (pending_shard_session_dict_ sh) clients, pending_client).

Definition OnDelShard (req : ShardMessage) sh : option (Sharder W C) :=
  let shard_id := default 0 (msg_shard_id req) in
  let i := GetDatabaseInstanceIndex2 (sh_instances sh) shard_id in
  '(ins, _) ← locked_call WLock WUnlock i (RemoveShard E shard_id;; on_aux (UnlockShard shard_id)) (sh_instances sh);
  Some (MkSharder ins (pending_shard_session_dict_ sh) (pending_shard_client_dict_ sh)).

(** ** Dispatching *)

(** The message callback of session number [session]: also the response and the client
    that is asked to [PutShard]. *)
Definition session_message (session : Z) (s : SendState) (req : ShardMessage) sh :
    option (Sharder W C * SendState * option ShardMessage * option Z) :=
  match default SHARD_OP_PUSH (msg_operation req) with
  | SHARD_OP_PULL =>
      '(sh, s, resp) ← OnPullShard session s (default 0 (msg_shard_id req)) sh;
      Some (sh, s, Some resp, None)
  | SHARD_OP_PUSH => '(sh, pending_client) ← OnPushShard req sh; Some (sh, s, None, pending_client)
  | SHARD_OP_DEL => sh ← OnDelShard req sh; Some (sh, s, None, None)
  end.

(** A client in state [PULLING] gets a shard: also the session that waits for it, which is
    then asked to [PushShard]. *)
Definition client_pulled (resp : ShardMessage) sh : option (Sharder W C * option Z) :=
  ins ← receive_shard resp (sh_instances sh);
  let '(sessions, pending_session) := pending_at (pending_shard_session_dict_ sh) (default 0 (msg_shard_id resp)) in
  Some (MkSharder ins sessions (pending_shard_client_dict_ sh), pending_session).
End sharder.

(** The messages of [DelAllShards]; it asserts that the node is joining. *)
Definition DelAllShards (state : ClientState) (cli : SharderClient) : option (list ShardMessage) :=
  match state with
  | JOINING | JOIN_PUSHING => Some (map RemShard (shard_ids_ cli))
  | _ => None
  end.
