(* ===== verification/SharderFacts.v ===== *)
(** * What arrives of a shard

    The data of a shard as a session sends it, what the receiver makes of it, the shard
    index of both sides, and the theorem that puts them together. *)

From Stdlib Require Import Ascii String.
From S2P Require Import Prelude Comparator AvlUtil AvlTree Dict HashTableBase HashTable TreeHashTable HashSet.
From S2P Require Import Dictionary Blist Cache ListCache Vset Kvdb KvdbSpec KvdbValues KvdbRefine KvdbCalls.
From S2P Require Import Mmbp MmbpCodec Storage StorageFacts StorageRefine Disk Recovery Joining RawMmbp Sharder.

(** ** The data of a message *)

Section data.
Context `{Kvarint, !KvarintLaws, NetOrder, !NetOrderLaws}.
Context (junk : Z * Z * Z).
Implicit Types (kv : string * string).

Definition data_of (kvs : list (string * string)) : bytes := concat (map (λ kv, request_SerializeTo (string_request junk kv.1 kv.2)) kvs).

(** What fits the widths of the protocol. *)
Definition sendable kv : Prop := fits 16 kv.1 = true ∧ fits 32 kv.2 = true.

Lemma string_request_fits kv : in_width 64 junk.1.1 = true → sendable kv → request_fits (string_request junk kv.1 kv.2) = true.
Proof. destruct junk as [[t l] r], kv as [k v]. intros Ht [Hk Hv]. cbn in Ht, Hk, Hv. unfold request_fits, string_request. cbn -[Z.pow fits in_width]. by rewrite Hk, Hv, Ht. Qed.

(** The request as the other side sees it. *)
Definition string_received (junk2 : Z * Z * Z) kv : MmbpRequest := transmitted (new_request junk2) (string_request junk kv.1 kv.2).

Lemma new_request_empty j : request_empty (new_request j).
Proof. by destruct j as [[? ?] ?]. Qed.

(** A request at the front of the memory. *)
Lemma raw_string junk2 kv rest size :
  in_width 64 junk.1.1 = true → sendable kv → covers (request_SerializeTo (string_request junk kv.1 kv.2) ++ rest) size →
  ∃ size', raw_ParseFrom (new_request junk2) (request_SerializeTo (string_request junk kv.1 kv.2) ++ rest, size)
    = Some (string_received junk2 kv, (rest, size')) ∧ covers rest size'.
Proof.
  intros Hj Hkv Hc. apply (raw_follows_buffer _ _ _ _ _ Hc); [apply request_reads_back; [by apply string_request_fits|apply new_request_empty]|].
  unfold string_received. by destruct junk as [[? ?] ?], junk2 as [[? ?] ?].
Qed.

Lemma string_received_cmd {W} `{!DoubleBits W} junk2 kv :
  request_cmd (W := W) (string_received junk2 kv) 0 = Some (CInsertStr kv.1 kv.2) ∧ GetCommandType (command (string_received junk2 kv)) = CT_WRITE.
Proof. unfold string_received. destruct junk as [[? ?] ?], junk2 as [[? ?] ?]. by destruct kv. Qed.

(** The message after all keys. *)
Lemma append_all kvs : ∀ m, length kvs ≠ 0%nat → default 0 (msg_data_num m) = 0 → msg_data m = None → Z.of_nat (length kvs) < 2 ^ 64 →
  foldl (λ m kv, append_data m (request_SerializeTo (string_request junk kv.1 kv.2))) m kvs
  = MkShardMessage (msg_type m) (msg_operation m) (msg_status m) (msg_shard_id m) (Some (Z.of_nat (length kvs))) (Some (data_of kvs)).
Proof.
  induction kvs as [|kv kvs IH] using rev_ind; [done|]. intros m _ Hn Hd Hl. rewrite length_app in Hl. cbn [length] in Hl. rewrite foldl_app. cbn [foldl].
  unfold data_of. rewrite map_app, concat_app. cbn [map concat]. rewrite app_nil_r, length_app. cbn [length].
  destruct (decide (length kvs = 0%nat)) as [->%nil_length_inv|Hne].
  - cbn. unfold append_data. by rewrite Hn, Hd.
  - rewrite IH by (done || lia). unfold append_data. cbn [msg_type msg_operation msg_status msg_shard_id msg_data_num msg_data from_option id].
    rewrite u64_small by lia. do 2 f_equal. lia.
Qed.
End data.

(** ** Receiving *)

Section receiving.
Context {W C : Type} `{Comparator W} `{!CacheInterface C addr}
  `{HS : !HashFunc string} `{HA : !HashFunc addr} `{HZ : !HashFunc Z} `{DB : !DoubleBits W}.
Context `{Kvarint, !KvarintLaws, NetOrder, !NetOrderLaws}.
Context (E : Env) (junk junk2 : Z * Z * Z).
Implicit Types (db : MmkvDb W C) (a : ADb W C) (ins : list (DatabaseInstance W C)) (kvs : list (string * string)).

(** The calls that the data stands for. *)
Definition adds kvs : list (Env * cmd W) := map (λ kv, (E, CInsertStr kv.1 kv.2)) kvs.

Definition ran {A} (x : A) (r : option (MmkvDb W C * list (out W + StatusCode))) : option (MmkvDb W C * (A + StatusCode)) := '(db, _) ← r; Some (db, inl x).

Lemma execute_received kv db :
  instance_Execute E (string_received junk junk2 kv) None 0 db = ('(db, _) ← run_cmd E (CInsertStr kv.1 kv.2) db; Some (db, inl None)).
Proof. destruct (string_received_cmd (W := W) junk junk2 kv) as [Hc Ht]. by apply silent_execute. Qed.

Lemma execute_pulled_adds kvs : ∀ size db,
  in_width 64 junk.1.1 = true → Forall sendable kvs → covers (data_of junk kvs) size →
  execute_pulled E junk2 (length kvs) (data_of junk kvs, size) db = ran () (db_run db (adds kvs)).
Proof.
  induction kvs as [|kv kvs IH]; intros size db Hj Hs Hc; [done|]. apply Forall_cons in Hs as [Hkv Hs].
  cbn [length execute_pulled]. change (data_of junk (kv :: kvs)) with (request_SerializeTo (string_request junk kv.1 kv.2) ++ data_of junk kvs) in *.
  destruct (raw_string junk junk2 kv (data_of junk kvs) size Hj Hkv Hc) as (size' & Hr & Hc').
  unfold mbind at 1, M_bind at 1, lift at 1. unfold ParseFrom2. rewrite Hr. cbn [mbind option_bind].
  unfold mbind at 1, M_bind at 1. rewrite execute_received. cbn [adds map db_run]. destruct (run_cmd E _ db) as [[db' r]|]; [|done]. cbn [mbind option_bind].
  rewrite Z.sub_0_r, u64_small; [|unfold covers in Hc; lia]. rewrite IH; [|done|done|].
  - fold (adds kvs). by destruct (db_run db' (adds kvs)) as [[db2 rs]|].
  - unfold covers in *. rewrite length_app in Hc. lia.
Qed.

(** A call under a lock that is free. *)
Lemma locked_call_free {A} (lock : LockState) lk unlk i (f : M (MmkvDb W C) A) ins db db' (x : A) :
  ins !! i = Some (MkInstance db Unlocked) → lk Unlocked = Some lock → unlk lock = Some Unlocked → f db = Some (db', inl x) →
  locked_call lk unlk i f ins = Some (<[i := MkInstance db' Unlocked]> ins, x).
Proof.
  intros Hi Hl Hu Hf. pose proof (lookup_lt_Some _ _ _ Hi). unfold locked_call. rewrite (on_lock_at i lk ins _ lock Hi) by done. cbn [mbind option_bind inst_db].
  rewrite (on_instance_at _ _ _ (MkInstance db lock)) by (by apply list_lookup_insert_eq). cbn [inst_db inst_lock]. rewrite Hf. cbn [mbind option_bind].
  rewrite list_insert_insert_eq. erewrite (on_lock_at i unlk) by (by rewrite ?list_lookup_insert_eq). cbn [mbind option_bind inst_db]. by rewrite list_insert_insert_eq.
Qed.

Lemma locked_call_faults {A} (lock : LockState) lk unlk i (f : M (MmkvDb W C) A) ins db :
  ins !! i = Some (MkInstance db Unlocked) → lk Unlocked = Some lock → f db = None → locked_call lk unlk i f ins = None.
Proof.
  intros Hi Hl Hf. pose proof (lookup_lt_Some _ _ _ Hi). unfold locked_call. rewrite (on_lock_at i lk ins _ lock Hi) by done. cbn [mbind option_bind inst_db].
  rewrite (on_instance_at _ _ _ (MkInstance db lock)) by (by apply list_lookup_insert_eq). cbn [inst_db]. by rewrite Hf.
Qed.

Lemma index2_insert ins i x shard_id : GetDatabaseInstanceIndex2 (<[i := x]> ins) shard_id = GetDatabaseInstanceIndex2 ins shard_id.
Proof. unfold GetDatabaseInstanceIndex2. by rewrite length_insert. Qed.

(** The instance after the calls. *)
Definition instance_after i ins (r : option (MmkvDb W C * list (out W + StatusCode))) : option (list (DatabaseInstance W C)) :=
  '(db, _) ← r; Some (<[i := MkInstance db Unlocked]> ins).

(** The message that carries the data. *)
Definition data_message shard_id kvs : ShardMessage :=
  MkShardMessage SHARD_MSG_RESPONSE None None (Some shard_id) 
    (match kvs with [] => None | _ => Some (Z.of_nat (length kvs)) end) (match kvs with [] => None | _ => Some (data_of junk kvs) end).

Lemma receive_runs shard_id kvs ins i db :
  i = GetDatabaseInstanceIndex2 ins shard_id → ins !! i = Some (MkInstance db Unlocked) →
  in_width 64 junk.1.1 = true → Forall sendable kvs → Z.of_nat (length (data_of junk kvs)) < 2 ^ 64 →
  receive_shard E junk2 (data_message shard_id kvs) ins = instance_after i ins (db_run db ((E, CAddShard shard_id) :: adds kvs)).
Proof.
  intros -> Hi Hj Hs Hd. set (i := GetDatabaseInstanceIndex2 ins shard_id) in *. pose proof (lookup_lt_Some _ _ _ Hi).
  unfold receive_shard, data_message. cbn [msg_shard_id msg_data msg_data_num mbind option_bind]. fold i.
  assert (match on_aux (AddShard E shard_id) db with Some (_, inr _) => False | _ => True end) as Hret.
  { unfold on_aux, zoom, AddShard. destruct (is_sharder E); [|exact I]. unfold mbind, M_bind, call. destruct (InsertKv (sdict_ (aux db)) shard_id HashTable_init) as [[d b]|]; exact I. }
  destruct (on_aux (AddShard E shard_id) db) as [[db1 [[]|c]]|] eqn:Ea; [|done|].
  2:{ rewrite (locked_call_faults WLocked WLock WUnlock i _ ins db Hi eq_refl Ea). cbn [db_run run_cmd]. unfold done. by rewrite (bind_fault _ _ _ Ea). }
  rewrite (locked_call_free WLocked WLock WUnlock i _ ins db db1 () Hi eq_refl eq_refl Ea). cbn [db_run run_cmd]. unfold done. rewrite (bind_ok _ _ _ _ _ Ea). cbn [mbind option_bind mret M_ret].
  destruct kvs as [|kv kvs]; [done|]. rewrite (on_instance_at _ _ _ (MkInstance db1 Unlocked)) by (by apply list_lookup_insert_eq). cbn [inst_db inst_lock].
  rewrite Nat2Z.id, execute_pulled_adds; [|done|done|unfold covers; lia]. unfold ran, instance_after.
  destruct (db_run db1 (adds (kv :: kvs))) as [[db2 rs]|]; [|done]. cbn [mbind option_bind]. by rewrite list_insert_insert_eq.
Qed.
End receiving.

(** ** Sending *)

Section sending.
Context {W C : Type} `{Comparator W} `{!CacheInterface C addr}
  `{HS : !HashFunc string} `{HA : !HashFunc addr} `{HZ : !HashFunc Z} `{DB : !DoubleBits W}.
Context `{Kvarint, !KvarintLaws, NetOrder, !NetOrderLaws}.
Context (E : Env) (junk : Z * Z * Z).
Implicit Types (db : MmkvDb W C) (a : ADb W C) (sh : Sharder W C) (kvs : list (string * string)).

(** The key at the address [x] holds a string that does not expire. *)
Definition held a (x : addr) (kv : string * string) : Prop :=
  a_dict a !! kv.1 = Some (x, AStr kv.2) ∧ a_exp a !! kv.1 = None ∧ sendable kv.

Lemma a_deref_held (g : gmap string (addr * AVal W)) next k e : addrs_ok g next → g !! k = Some e → a_deref g e.1 = Some k.
Proof.
  intros [Hinj _] Hk. unfold a_deref. destruct (filter _ _) as [|[k' e'] l] eqn:Ef.
  - exfalso. assert ((k, e) ∈ filter (λ ke : string * (addr * AVal W), ke.2.1 = e.1) (map_to_list g)) as Hin.
    { apply list_elem_of_filter. split; [done|]. by apply elem_of_map_to_list. }
    rewrite Ef in Hin. by apply not_elem_of_nil in Hin.
  - assert ((k', e') ∈ filter (λ ke : string * (addr * AVal W), ke.2.1 = e.1) (map_to_list g)) as Hin by (rewrite Ef; by left).
    apply list_elem_of_filter in Hin as [He Hl%elem_of_map_to_list]. cbn in He. simpl. f_equal. by apply (Hinj k' k e' e).
Qed.

Lemma ok_inv {S A} (f : A → out W) (m : M S A) s s' o : ok_ f m s = Some (s', inl o) → ∃ x, m s = Some (s', inl x) ∧ o = f x.
Proof. unfold ok_, mbind, M_bind, mret, M_ret. destruct (m s) as [[s1 [x|c]]|]; [|done|done]. intros [= <- <-]. by exists x. Qed.

Lemma set_aux_same a : set_a_aux a (a_aux a) = a.
Proof. by destruct a. Qed.

Lemma cache_update_none x (y : Aux C) : cache_ y = None → CacheUpdate x y = Some (y, inl ()).
Proof. intros Hc. unfold CacheUpdate, mbind, M_bind, get_state. simpl. by rewrite Hc. Qed.

Lemma held_read a x kv : cache_ (a_aux a) = None → held a x kv →
  ref_cmd E (CType kv.1) a = Some (a, inl (OType (Some D_STRING))) ∧ ref_cmd E (CGetStr kv.1) a = Some (a, inl (OString kv.2)).
Proof.
  intros Hc (Hk & Hx & _). assert (r_expire (W := W) E kv.1 a = Some (a, inl (false, kv.1))) as He by (unfold r_expire; rewrite bind_get; by rewrite Hx).
  assert (∀ y, r_aux (W := W) (CacheUpdate y) a = Some (a, inl ())) as Hu.
  { intros y. unfold r_aux, zoom. rewrite (cache_update_none y (a_aux a) Hc). simpl. by rewrite set_aux_same. }
  split; cbn [ref_cmd].
  - rewrite (bind_ok _ _ _ _ _ He). unfold r_lookup. rewrite (bind_ok _ _ a a (a_dict a !! kv.1)) by done. rewrite Hk. by rewrite (bind_ok _ _ _ _ _ (Hu x)).
  - rewrite (bind_ok (r_not_expired E kv.1) _ a a ()) by (unfold r_not_expired; by rewrite (bind_ok _ _ _ _ _ He)).
    rewrite (bind_ok (r_typed kv.1 D_STRING) _ a a (x, AStr kv.2)); [by rewrite (bind_ok _ _ _ _ _ (Hu x))|].
    unfold r_typed, r_lookup. rewrite (bind_ok _ _ a a (a_dict a !! kv.1)) by done. by rewrite Hk.
Qed.

(** One key of the loop. *)
Lemma serialize_one n db a x kv :
  db_rel n db a → 0 ≤ n → n + 2 ≤ max_elems → cache_ (a_aux a) = None → held a x kv →
  ∃ db1 db2 s, deref_in (dict_ db) x = Some kv.1 ∧ Type_ E kv.1 db = Some (db1, inl (Some D_STRING))
    ∧ GetStr E kv.1 db1 = Some (db2, inl (s, kv.2)) ∧ db_rel (n + 2) db2 a.
Proof.
  intros Hd Hn Hm Hc Hh. pose proof (held_read a x kv Hc Hh) as [Ht Hg]. destruct Hh as (Hk & _ & _).
  assert (a_deref (a_dict a) x = Some kv.1) as Hx by (destruct Hd as (_ & _ & _ & _ & _ & _ & Ha); by apply (a_deref_held _ _ _ _ Ha) in Hk).
  destruct (deref_key n db a x kv.1 Hd Hx) as [Hok _].
  pose proof (type_sim E kv.1 Hok n db a Hn ltac:(unfold cmd_cost; lia) Hd) as Hs1. rewrite Ht in Hs1. destruct Hs1 as (db1 & r & Hr & Hd1 & Ho).
  destruct r as [o|]; [|done]. cbn [run_cmd] in Hr. apply ok_inv in Hr as (t & Hr & ->). assert (t = Some D_STRING) as -> by (inversion Ho; congruence).
  change (cmd_cost (W := W) (CType kv.1)) with 1 in Hd1.
  pose proof (get_str_sim E kv.1 Hok (n + 1) db1 a ltac:(lia) ltac:(unfold cmd_cost; lia) Hd1) as Hs2. rewrite Hg in Hs2. destruct Hs2 as (db2 & r & Hr2 & Hd2 & Ho2).
  destruct r as [o|]; [|done]. cbn [run_cmd] in Hr2. apply ok_inv in Hr2 as ([s str] & Hr2 & ->). cbn [snd] in Ho2.
  assert (str = kv.2) as -> by (inversion Ho2; congruence). change (cmd_cost (W := W) (CGetStr kv.1)) with 1 in Hd2.
  exists db1, db2, s. split_and!; [by rewrite (deref_rel n db a x Hd)|done|done|]. by replace (n + 2) with (n + 1 + 1) by lia.
Qed.

Lemma serialize_keys_sends xs kvs : ∀ msg n db a,
  db_rel n db a → 0 ≤ n → n + 2 * Z.of_nat (length kvs) ≤ max_elems → cache_ (a_aux a) = None → Forall2 (held a) xs kvs →
  ∃ db', serialize_keys E junk xs msg db
      = Some (db', inl (foldl (λ m kv, append_data m (request_SerializeTo (string_request junk kv.1 kv.2))) msg kvs))
    ∧ db_rel (n + 2 * Z.of_nat (length kvs)) db' a.
Proof.
  revert xs. induction kvs as [|kv kvs IH]; intros xs msg n db a Hd Hn Hm Hc Hs2; inversion Hs2 as [|x ? xs' ? Hx Hxs]; subst; cbn [serialize_keys foldl].
  { exists db. by rewrite Z.add_0_r. }
  cbn [length] in Hm. destruct (serialize_one n db a x kv Hd Hn ltac:(lia) Hc Hx) as (db1 & db2 & s & Hde & Ht & Hg & Hd2).
  rewrite bind_get, bind_lift, Hde, (bind_ok _ _ _ _ _ Ht), bind_lift, bool_decide_eq_true_2 by done.
  rewrite (bind_ok (attempt (GetStr E kv.1)) _ db1 db2 (inl (s, kv.2))) by (unfold attempt; by rewrite Hg).
  destruct (IH xs' (append_data msg (request_SerializeTo (string_request junk kv.1 kv.2))) (n + 2) db2 a Hd2 ltac:(lia) ltac:(lia) Hc Hxs) as (db' & -> & Hd').
  exists db'. split; [done|]. by replace (n + 2 * Z.of_nat (length (kv :: kvs))) with (n + 2 + 2 * Z.of_nat (length kvs)) by (cbn [length]; lia).
Qed.

(** What only looks at the shards leaves the cache alone. *)
Lemma call_keeps_cache {T A} (get : Aux C → T) (set : Aux C → T → Aux C) (f : T → option (T * A)) x x' r :
  (∀ x t, cache_ (set x t) = cache_ x) → call get set f x = Some (x', r) → cache_ x' = cache_ x.
Proof. intros Hs. unfold call. destruct (f (get x)) as [[t y]|]; [|done]. intros [= <- _]. apply Hs. Qed.

Lemma LockShard_cache sid x x' r : LockShard sid x = Some (x', r) → cache_ x' = cache_ (C := C) x.
Proof.
  unfold LockShard, IsShardLocked, mbind, M_bind, mret, M_ret.
  destruct (call locked_shard_id_set_ with_locked (λ s, HashTable.Find HASH_FUNC s sid) x) as [[y [o|c]]|] eqn:E1; [| |done].
  - apply call_keeps_cache in E1; [|done]. unfold check. destruct (negb _); [|done]. cbn [mret M_ret].
    destruct (call locked_shard_id_set_ with_locked (λ s, HashTable.Insert HASH_FUNC s sid) y) as [[z [o'|c]]|] eqn:E2; [| |done]; intros [= <- _];
      (apply call_keeps_cache in E2; [congruence|done]).
  - apply call_keeps_cache in E1; [|done]. intros [= <- _]. congruence.
Qed.

Lemma GetShardKeys_cache sid x x' r : GetShardKeys E sid x = Some (x', r) → cache_ x' = cache_ (C := C) x.
Proof.
  unfold GetShardKeys. destruct (negb (is_sharder E)); [by intros [= <- _]|]. unfold sdict_Find, mbind, M_bind, mret, M_ret.
  destruct (call sdict_ with_sdict (λ d, d_find (T := KeyValue Z ShardIdSet) d sid) x) as [[y [o|c]]|] eqn:E1; [| |done].
  - apply call_keeps_cache in E1; [|done]. destruct (value <$> o) as [set|]; [|intros [= <- _]; congruence]. unfold lift. destruct (HashSet.members set); [|done].
    cbn [mbind option_bind]. intros [= <- _]. congruence.
  - apply call_keeps_cache in E1; [|done]. intros [= <- _]. congruence.
Qed.

Lemma on_aux_step {A} (m : M (Aux C) A) n db a y (x : A) :
  db_rel n db a → 0 ≤ n ≤ max_elems → m (a_aux a) = Some (y, inl x) →
  ∃ db', on_aux m db = Some (db', inl x) ∧ db_rel n db' (set_a_aux a y).
Proof.
  intros Hd Hn Hm. pose proof (sim_aux m n db a ltac:(lia) ltac:(lia) Hd) as Hs. unfold r_aux, zoom in Hs. rewrite Hm in Hs. cbn [mbind option_bind answers] in Hs.
  destruct Hs as (db' & r & Hr & Hd' & Hx). exists db'. destruct r as [x'|]; [|done]. cbn in Hx. subst x'. by rewrite Z.add_0_r in Hd'.
Qed.

Lemma pull_message sid kvs : Z.of_nat (length kvs) < 2 ^ 64 →
  set_shard_id (foldl (λ m kv, append_data m (request_SerializeTo (string_request junk kv.1 kv.2))) MakeShardResponse kvs) sid = data_message junk sid kvs.
Proof. intros Hl. destruct kvs as [|kv kvs]; [done|]. by rewrite append_all. Qed.

(** The pull, as seen by the session. *)
Lemma pull_sends n db a sid x1 x2 l s kvs :
  db_rel n db a → 0 ≤ n → n + 2 * Z.of_nat (length kvs) ≤ max_elems → cache_ (a_aux a) = None → a_aux a = x1 →
  GetShardKeys E sid x1 = Some (x2, inl (SC_OK, l)) → send_key_index s = 0 → Forall2 (held a) (send_keys s ++ l) kvs →
  ∃ db', pull_data E junk sid s db = Some (db', inl (SC_OK, MkSendState (send_keys s ++ l) (Z.of_nat (length (send_keys s ++ l))), data_message junk sid kvs)).
Proof.
  intros Hd Hn Hm Hc <- Hg Hz Hh. destruct (on_aux_step _ n db a x2 _ Hd ltac:(lia) Hg) as (db1 & E1 & Hd1).
  unfold pull_data. rewrite (bind_ok _ _ db db1 (SC_OK, MkSendState (send_keys s ++ l) (send_key_index s))) by (unfold get_shard_keys; by rewrite (bind_ok _ _ _ _ _ E1)).
  unfold SerializeMmbpDataToSharderRequest. cbn [send_key_index send_keys]. rewrite Hz. cbn [Z.to_nat drop].
  destruct (serialize_keys_sends (send_keys s ++ l) kvs MakeShardResponse n db1 (set_a_aux a x2) Hd1 Hn Hm) as (db2 & E2 & _);
    [by rewrite <-Hc, <-(GetShardKeys_cache _ _ _ _ Hg)|done|].
  exists db2. rewrite bind_assoc, (bind_ok _ _ _ _ _ E2), (bind_ok (mret _) _ _ _ _ eq_refl). rewrite pull_message by (unfold max_elems in Hm; lia).
  by rewrite Z.max_r by lia.
Qed.

Lemma held_keys_ok n db a xs kvs : db_rel n db a → Forall2 (held a) xs kvs → Forall (λ kv, key_ok kv.1 ∧ sendable kv) kvs.
Proof.
  intros Hd. induction 1 as [|x kv xs kvs (Hk & _ & Hs) _ IH]; constructor; [|done]. split; [|done].
  apply (deref_key n db a x kv.1 Hd). destruct Hd as (_ & _ & _ & _ & _ & _ & Ha). by apply (a_deref_held _ _ _ _ Ha) in Hk.
Qed.
End sending.

(** ** The shards of a node *)

Section shards.
Context {W C : Type} `{Comparator W} `{!CacheInterface C addr}
  `{HS : !HashFunc string} `{HA : !HashFunc addr} `{HZ : !HashFunc Z} `{DB : !DoubleBits W}.
Context (E : Env) (sid : Z).
Implicit Types (x : Aux C) (a : ADb W C) (kv : string * string) (kvs : list (string * string)).

(** A set of keys with room for more, [n] bounding its size. *)
Definition set_is (n : Z) (s : ShardIdSet) : Prop :=
  ∃ dr, HashTable_wfx dr s ∧ Z.of_nat (size (d_view (DictLaws := HashTable_laws (T := addr)) s)) + @drift dr ≤ n.

(** The shard is not locked. *)
Definition not_locked (n : Z) (s : HashState (list Z)) : Prop :=
  ∃ dr, HashTable_wfx dr s ∧ d_view (DictLaws := HashTable_laws (T := Z)) s !! sid = None
    ∧ Z.of_nat (size (d_view (DictLaws := HashTable_laws (T := Z)) s)) + @drift dr < n.

(** The shard has the keys [keys], and no pull has locked it. *)
Definition files x (keys : ShardIdSet) : Prop :=
  (∃ e n, dict_is e n (sdict_ x) ∧ kv_view (sdict_ x) !! sid = Some keys) ∧ (∃ dr, HashTable_wfx dr keys)
  ∧ not_locked max_elems (locked_shard_id_set_ x).

(** A node without a policy that can take keys of the shard; [n] bounds the number of
    shards and of the keys in each. *)
Definition takes (n : Z) x : Prop :=
  cache_ x = None ∧ (∃ e, dict_is e n (sdict_ x)) ∧ map_Forall (λ _ s, set_is n s) (kv_view (sdict_ x))
  ∧ not_locked max_elems (locked_shard_id_set_ x).

Definition has_shard x : Prop := is_Some (kv_view (sdict_ x) !! sid).

Lemma takes_files n x keys : takes n x → kv_view (sdict_ x) !! sid = Some keys → files x keys.
Proof. intros (_ & (e & Hd) & Hsets & Hl) Hk. split_and!; [by exists e, n| |done]. destruct (Hsets sid keys Hk) as (dr & Hw & _). by exists dr. Qed.

(** A new node. *)
Lemma takes_new : takes 0 (a_aux (ref_new (W := W) (C := C) None)).
Proof.
  destruct (init_is (D := ShardDict) 0 ltac:(lia)) as [Hd Hv]. split_and!; [done|by exists 0| |].
  - change (sdict_ (a_aux (ref_new None))) with (d_init (D := ShardDict) (T := KeyValue Z ShardIdSet)). rewrite Hv. apply map_Forall_empty.
  - exists no_drift. destruct (d_init_law (DictLaws := HashTable_laws (T := Z))) as [Hw Hv']. split; [exact Hw|].
    change (locked_shard_id_set_ (a_aux (ref_new None))) with (d_init (D := HashState (list Z)) (T := Z)). by rewrite Hv', map_size_empty, lookup_empty.
Qed.

Lemma set_init n : 0 ≤ n → set_is n HashTable_init.
Proof.
  intros Hn. exists no_drift. destruct (d_init_law (DictLaws := HashTable_laws (T := addr))) as [Hw Hv]. split; [exact Hw|].
  change (d_view (DictLaws := HashTable_laws (T := addr)) HashTable_init) with (d_view (DictLaws := HashTable_laws (T := addr)) d_init).
  rewrite Hv, map_size_empty. simpl. lia.
Qed.

Lemma set_is_weaken n n' s : set_is n s → n ≤ n' → set_is n' s.
Proof. intros (dr & Hw & Hn) ?. exists dr. split; [done|lia]. Qed.

Lemma sets_weaken n n' (g : gmap Z ShardIdSet) : map_Forall (λ _ s, set_is n s) g → n ≤ n' → map_Forall (λ _ s, set_is n' s) g.
Proof. intros Hg Hn i s Hi. exact (set_is_weaken n n' s (Hg i s Hi) Hn). Qed.

Lemma sdict_find x e n :
  dict_is e n (sdict_ x) →
  ∃ d, sdict_Find sid x = Some (with_sdict x d, inl (kv_view (sdict_ x) !! sid)) ∧ dict_is e n d ∧ kv_view d = kv_view (sdict_ x).
Proof.
  intros Hd. destruct (find_is e n (sdict_ x) sid Hd I) as (d & Hf & Hd' & Hv). exists d. split_and!; [|done..].
  unfold sdict_Find. erewrite bind_ok; [|unfold call; by rewrite Hf]. by destruct (kv_view (sdict_ x) !! sid).
Qed.

Lemma lock_not_found n x :
  not_locked n (locked_shard_id_set_ x) → ∃ s, IsShardLocked sid x = Some (with_locked x s, inl false) ∧ not_locked n s.
Proof.
  intros (dr & Hw & Hy & Hn). destruct (d_find_lawx (DictLaws := HashTable_laws (T := Z)) dr (locked_shard_id_set_ x) sid Hw I) as (s & Hf & Hw' & Hv).
  exists s. split; [|exists dr; by rewrite Hv].
  unfold IsShardLocked. erewrite bind_ok; [|unfold call; change (HashTable.Find HASH_FUNC (locked_shard_id_set_ x) sid) with (d_find (DictOps := HashTable_ops (T := Z)) (locked_shard_id_set_ x) sid); by rewrite Hf].
  by rewrite Hy.
Qed.

(** The pull locks the shard and lists its keys. *)
Lemma files_lock x keys :
  files x keys → ∃ x', LockShard sid x = Some (x', inl ()) ∧ sdict_ x' = sdict_ x.
Proof.
  intros (_ & _ & Hl). destruct (lock_not_found _ x Hl) as (s & Hf & (dr & Hw & Hv & Hn)).
  destruct (d_insert_lawx (DictLaws := HashTable_laws (T := Z)) dr s sid Hw Hn I) as (s' & ok & dup & Hi & _).
  change (HashTable.InsertWithDuplicate HASH_FUNC s sid = Some (s', ok, dup)) in Hi.
  exists (with_locked (with_locked x s) s'). split; [|done]. unfold LockShard. rewrite (bind_ok _ _ _ _ _ Hf). unfold check. cbn [negb].
  rewrite (bind_ok (mret ()) _ _ _ _ eq_refl). erewrite bind_ok; [done|]. unfold call. cbn [with_locked locked_shard_id_set_]. unfold HashTable.Insert. by rewrite Hi.
Qed.

Lemma files_keys x x' keys :
  is_sharder E = true → files x keys → sdict_ x' = sdict_ x →
  ∃ x'', GetShardKeys E sid x' = Some (x'', inl (SC_OK, all_elems keys)).
Proof.
  intros Hs ((e & n & Hd & Hv) & (dr & Hw) & _) Hx. rewrite <-Hx in Hd, Hv. destruct (sdict_find x' e n Hd) as (d & Hf & _).
  exists (with_sdict x' d). unfold GetShardKeys. rewrite Hs. cbn [negb]. rewrite (bind_ok _ _ _ _ _ Hf), Hv. rewrite bind_lift, (members_spec keys Hw). done.
Qed.

(** The shard is added. *)
Lemma takes_shard n x :
  is_sharder E = true → takes n x → 0 ≤ n < max_elems → ∃ x', AddShard E sid x = Some (x', inl ()) ∧ takes (n + 1) x' ∧ has_shard x'.
Proof.
  intros Hs (Hc & (e & Hd) & Hsets & Hl) Hn. destruct (insert_kv_is e n (sdict_ x) sid HashTable_init Hd ltac:(lia) I) as (d & Hd' & Hi).
  pose proof (set_init (n + 1) ltac:(lia)) as Hnew.
  assert (∃ o, InsertKv (sdict_ x) sid HashTable_init = Some (d, o) ∧ map_Forall (λ _ s, set_is (n + 1) s) (kv_view d) ∧ is_Some (kv_view d !! sid)) as (o & Ho & Hf & Hh).
  { pose proof (sets_weaken n (n + 1) _ Hsets ltac:(lia)) as Hw.
    destruct (kv_view (sdict_ x) !! sid) as [w|] eqn:Ev; destruct Hi as [Hi ->]; (eexists; split; [exact Hi|]).
    - split; [done|]. by rewrite Ev.
    - split; [by apply map_Forall_insert_2|]. by rewrite lookup_insert_eq. }
  exists (with_sdict x d). split_and!; [|split_and!; [done|by exists e|done|done]|done].
  unfold AddShard. rewrite Hs. erewrite bind_ok; [done|]. unfold call. by rewrite Ho.
Qed.

(** A key of the shard passes the check. *)
Lemma takes_check n x k :
  is_sharder E = true → shard_num E ≠ 0 → MakeShardId k mod shard_num E = sid → takes n x → has_shard x →
  ∃ x', CHECK_SHARD_IS_LOCKED_KEY E k x = Some (x', inl ()) ∧ takes n x' ∧ has_shard x'.
Proof.
  intros Hs Hn Hk (Hc & (e & Hd) & Hsets & Hl) Hh. destruct (sdict_find x e n Hd) as (d & Hf & Hd' & Hv).
  destruct (lock_not_found _ (with_sdict x d) Hl) as (s & Hlk & Hl'). exists (with_locked (with_sdict x d) s). split.
  - unfold CHECK_SHARD_IS_LOCKED_KEY. rewrite Hs. unfold check. destruct (Z.eqb_spec (shard_num E) 0); [done|]. cbn [negb].
    rewrite (bind_ok (mret ()) _ _ _ _ eq_refl), Hk. rewrite (bind_ok _ _ x (with_sdict x d) true).
    + cbn [negb]. by rewrite (bind_ok _ _ _ _ _ Hlk), bind_get.
    + unfold HasShard. rewrite (bind_ok _ _ _ _ _ Hf). by destruct Hh as [w ->].
  - split; [|unfold has_shard; cbn [with_locked with_sdict sdict_]; by rewrite Hv].
    split_and!; [done|by exists e| |exact Hl']. cbn [with_locked with_sdict sdict_]. by rewrite Hv.
Qed.

(** [sdict_[h]], and a key added to a set. *)
Lemma shard_at x e n h :
  dict_is e n (sdict_ x) → map_Forall (λ _ s, set_is n s) (kv_view (sdict_ x)) → 0 ≤ n < max_elems →
  ∃ d s, dict_at (sdict_ x) h HashTable_init = Some (d, MkKeyValue h s) ∧ dict_is e (n + 1) d
    ∧ kv_view d = <[h := s]> (kv_view (sdict_ x)) ∧ set_is n s.
Proof.
  intros Hd Hsets Hn. unfold dict_at. destruct (find_is e n (sdict_ x) h Hd I) as (d & -> & Hd' & Hv). cbn [mbind option_bind].
  destruct (kv_view (sdict_ x) !! h) as [s|] eqn:Eh; cbn [fmap option_fmap option_map].
  - exists d, s. split_and!; [done|by apply (dict_is_weaken e n); [|lia]|by rewrite Hv, insert_id|exact (Hsets h s Eh)].
  - destruct (insert_kv_is e n d h HashTable_init Hd' ltac:(lia) I) as (d2 & Hd2 & Hi). rewrite Hv, Eh in Hi. destruct Hi as [-> Hv2].
    exists d2, HashTable_init. split_and!; [done|done|by rewrite Hv2|apply set_init; lia].
Qed.

Lemma set_insert n s (y : addr) :
  set_is n s → n < max_elems → ∃ s' ok, HashTable.Insert HASH_FUNC s y = Some (s', ok) ∧ set_is (n + 1) s'.
Proof.
  intros (dr & Hw & Hn) Hm.
  destruct (d_insert_lawx (DictLaws := HashTable_laws (T := addr)) dr s y Hw (Z.le_lt_trans _ _ _ Hn Hm) I) as (s' & ok & dup & Hi & Hw' & Hv).
  change (HashTable.InsertWithDuplicate HASH_FUNC s y = Some (s', ok, dup)) in Hi. exists s'. unfold HashTable.Insert. rewrite Hi. eexists. split; [done|].
  exists dr. split; [done|]. destruct (d_view s !! TO_GK y) as [z|] eqn:Ez; destruct Hv as (_ & _ & ->).
  - eapply Z.le_trans; [exact Hn|lia].
  - rewrite map_size_insert_None, Nat2Z.inj_succ, Z.add_succ_l, <-Z.add_1_r by done. by apply Z.add_le_mono_r.
Qed.

(** A key is filed under its hash. *)
Lemma takes_key n x (y : addr) k :
  is_sharder E = true → takes n x → has_shard x → 0 ≤ n < max_elems →
  ∃ x', AddKeyToShard E y k x = Some (x', inl ()) ∧ takes (n + 1) x' ∧ has_shard x'.
Proof.
  intros Hs (Hc & (e & Hd) & Hsets & Hl) Hh Hn. set (h := MakeShardId k).
  destruct (shard_at x e n h Hd Hsets Hn) as (d & s & Ha & Hd' & Hv & Hset).
  destruct (set_insert n s y Hset ltac:(lia)) as (s' & ok & Hi & Hset').
  destruct (write_is e (n + 1) d h s' s Hd') as (d' & Hw & Hd'' & Hv'); [by rewrite Hv, lookup_insert_eq|].
  assert (map_Forall (λ _ s, set_is (n + 1) s) (kv_view d')) as Hsets'.
  { rewrite Hv', Hv, insert_insert_eq. apply map_Forall_insert_2; [done|]. by apply (sets_weaken n); [|lia]. }
  exists (with_sdict (with_sdict x d) d'). split_and!; [|split_and!; [done|by exists e|done|done]|].
  - unfold AddKeyToShard. rewrite Hs. erewrite bind_ok; [done|]. unfold on_shard. fold h.
    erewrite bind_ok; [|unfold call; by rewrite Ha]. rewrite bind_lift. cbn [value]. rewrite Hi.
    erewrite bind_ok; [done|]. unfold call. cbn [with_sdict sdict_]. by rewrite Hw.
  - unfold has_shard. cbn [with_sdict sdict_]. rewrite Hv', Hv, insert_insert_eq. destruct (decide (h = sid)) as [->|Hne]; [by rewrite lookup_insert_eq|].
    by rewrite lookup_insert_ne.
Qed.

(** A string of the shard is added, unless the key is there with that string. *)
Definition free_for a kv : Prop := ∀ e, a_dict a !! kv.1 = Some e → e.2 = AStr kv.2.

Lemma takes_aux {A} (m : M (Aux C) A) a x' (r : A) : m (a_aux a) = Some (x', inl r) → r_aux m a = Some (set_a_aux a x', inl r).
Proof. intros Hm. unfold r_aux, zoom. by rewrite Hm. Qed.

Lemma takes_insert n a kv :
  is_sharder E = true → shard_num E ≠ 0 → MakeShardId kv.1 mod shard_num E = sid →
  takes n (a_aux a) → has_shard (a_aux a) → 0 ≤ n < max_elems → free_for a kv →
  ∃ a' r, ref_cmd E (CInsertStr kv.1 kv.2) a = Some (a', r) ∧ takes (n + 1) (a_aux a') ∧ has_shard (a_aux a') ∧ a_exp a' = a_exp a
    ∧ (∃ y, a_dict a' !! kv.1 = Some (y, AStr kv.2)) ∧ ∀ k, k ≠ kv.1 → a_dict a' !! k = a_dict a !! k.
Proof.
  intros Hs Hn Hk Ht Hh Hm Hfree. destruct (takes_check n (a_aux a) kv.1 Hs Hn Hk Ht Hh) as (x1 & Hc & Ht1 & Hh1). pose proof Ht1 as (Hcache & _).
  cbn [ref_cmd]. unfold r_shard. rewrite (bind_ok _ _ _ _ _ (takes_aux _ a x1 () Hc)).
  rewrite (bind_ok (r_replace E None) _ _ (set_a_aux a x1) ()) by (unfold r_replace; rewrite bind_get; cbn [set_a_aux a_aux]; by rewrite Hcache).
  unfold r_lookup. rewrite (bind_ok _ _ _ (set_a_aux a x1) (a_dict a !! kv.1)) by done. destruct (a_dict a !! kv.1) as [[y v]|] eqn:El.
  - exists (set_a_aux a x1), (inr S_EXISTS). split; [done|]. pose proof (Hfree _ El) as Hv. cbn [snd] in Hv. subst v.
    split_and!; [|done|done|by exists y|done]. destruct Ht1 as (? & (e & ?) & ? & ?). split_and!; [done|exists e; by apply (dict_is_weaken e n); [|lia]|by apply (sets_weaken n); [|lia]|done].
  - destruct (takes_key n x1 (a_next a) kv.1 Hs Ht1 Hh1 Hm) as (x2 & Ha & Ht2 & Hh2).
    set (a1 := set_a_aux a x1). set (a2 := MkADb (<[kv.1 := (a_next a, AStr kv.2)]> (a_dict a)) (a_exp a) x1 (a_uncounted a) (Pos.succ (a_next a))).
    exists (set_a_aux a2 x2), (inl ODone). split.
    + erewrite bind_ok; [done|]. unfold r_create. erewrite bind_ok; [|done]. erewrite bind_ok; [|done].
      rewrite (bind_ok (r_aux (CacheAdd (a_next a))) _ _ a2 ()).
      * erewrite bind_ok; [done|]. exact (takes_aux _ a2 x2 () Ha).
      * unfold r_aux, zoom, CacheAdd, mbind, M_bind, get_state. cbn. by rewrite Hcache.
    + split_and!; [done|done|done|exists (a_next a); apply lookup_insert_eq|]. intros k Hne. by apply lookup_insert_ne.
Qed.

Definition agree_values kvs : Prop := ∀ kv kv', kv ∈ kvs → kv' ∈ kvs → kv.1 = kv'.1 → kv.2 = kv'.2.

Lemma takes_all kvs : ∀ n a,
  is_sharder E = true → shard_num E ≠ 0 → Forall (λ kv, MakeShardId kv.1 mod shard_num E = sid) kvs → agree_values kvs →
  takes n (a_aux a) → has_shard (a_aux a) → 0 ≤ n → n + Z.of_nat (length kvs) ≤ max_elems → Forall (free_for a) kvs →
  ∃ a' rs, ref_run a (adds (W := W) E kvs) = Some (a', rs) ∧ has_shard (a_aux a') ∧ a_exp a' = a_exp a
    ∧ (∀ kv, kv ∈ kvs → ∃ y, a_dict a' !! kv.1 = Some (y, AStr kv.2)) ∧ ∀ k, k ∉ kvs.*1 → a_dict a' !! k = a_dict a !! k.
Proof.
  induction kvs as [|kv kvs IH]; intros n a Hs Hn Hks Hag Ht Hh Hm Hl Hf.
  { exists a, []. split_and!; try done. by intros kv Hkv%not_elem_of_nil. }
  apply Forall_cons in Hks as [Hk Hks]. apply Forall_cons in Hf as [Hfk Hf]. cbn [length] in Hl.
  destruct (takes_insert n a kv Hs Hn Hk Ht Hh ltac:(lia) Hfk) as (a1 & r & Hr & Ht1 & Hh1 & He1 & [y Hy] & Ho1).
  assert (agree_values kvs) as Hag' by (intros p q Hp Hq; apply Hag; by right).
  assert (Forall (free_for a1) kvs) as Hf1.
  { apply Forall_forall. intros p Hp e He. rewrite Forall_forall in Hf. destruct (decide (p.1 = kv.1)) as [Ep|Ep].
    - rewrite Ep, Hy in He. injection He as <-. cbn [snd]. f_equal. apply Hag; [by left|by right|done].
    - rewrite Ho1 in He by done. by apply (Hf p Hp). }
  destruct (IH (n + 1) a1 Hs Hn Hks Hag' Ht1 Hh1 ltac:(lia) ltac:(lia) Hf1) as (a' & rs & Hrun & Hh' & He' & Hin & Hout).
  exists a', (r :: rs). split_and!.
  - cbn [adds map ref_run]. rewrite Hr. cbn [mbind option_bind]. fold (adds (W := W) E kvs). by rewrite Hrun.
  - done.
  - congruence.
  - intros p [->|Hp]%elem_of_cons; [|by apply Hin]. destruct (decide (kv.1 ∈ kvs.*1)) as [(q & Eq & Hq)%list_elem_of_fmap|Hni].
    + destruct (Hin q Hq) as [z Hz]. exists z. rewrite Eq, Hz. do 3 f_equal. symmetry. apply Hag; [by left|by right|done].
    + exists y. by rewrite Hout.
  - intros k Hk'. rewrite fmap_cons, not_elem_of_cons in Hk'. destruct Hk' as [Hne Hni]. rewrite Hout by done. by apply Ho1.
Qed.
End shards.

(** ** From one node to another *)

Section transfer.
Context {W C : Type} `{Comparator W} `{!CacheInterface C addr}
  `{HS : !HashFunc string} `{HA : !HashFunc addr} `{HZ : !HashFunc Z} `{DB : !DoubleBits W}.
Context `{Kvarint, !KvarintLaws, NetOrder, !NetOrderLaws}.
Implicit Types (db : MmkvDb W C) (a : ADb W C) (sh : Sharder W C) (ins : list (DatabaseInstance W C)) (kvs : list (string * string)).

(** What the instances are after calls that the reference has made from [a]. *)
Definition received (n : Z) (i : nat) ins (r : option (list (DatabaseInstance W C))) (x : option (ADb W C * list (out W + StatusCode))) : Prop :=
  match x with
  | None => r = None
  | Some (a', _) => ∃ db', r = Some (<[i := MkInstance db' Unlocked]> ins) ∧ db_rel n db' a'
  end.

Lemma receive_shard_runs E junk junk2 sid kvs ins db n a :
  env_ok E → ins !! GetDatabaseInstanceIndex2 ins sid = Some (MkInstance db Unlocked) → db_rel n db a → 0 ≤ n →
  in_width 64 junk.1.1 = true → Forall (λ kv, key_ok kv.1 ∧ sendable kv) kvs → Z.of_nat (length (data_of junk kvs)) < 2 ^ 64 →
  let cs := (E, CAddShard sid) :: adds (W := W) E kvs in n + history_cost cs ≤ max_elems →
  received (n + history_cost cs) (GetDatabaseInstanceIndex2 ins sid) ins (receive_shard E junk2 (data_message junk sid kvs) ins) (ref_run a cs).
Proof.
  intros HE Hi Hd Hn Hj Hkvs Hl cs Hm. rewrite (receive_runs E junk junk2 sid kvs ins _ db eq_refl Hi Hj); [|eapply Forall_impl; [exact Hkvs|by intros ? [_ ?]]|done].
  fold cs. assert (Forall (λ ec, env_ok ec.1 ∧ cmd_ok ec.2) cs) as Hok.
  { apply Forall_cons. split; [done|]. unfold adds. apply Forall_map. eapply Forall_impl; [exact Hkvs|]. by intros kv [? _]. }
  pose proof (history_sim cs n db a Hok Hn Hm Hd) as Hr. unfold received, instance_after.
  unfold runs_agree in Hr. destruct (ref_run a cs) as [[a' rs']|], (db_run db cs) as [[db' rs]|]; inversion Hr as [? ? [Hd' _]|]; subst; [by exists db'|done].
Qed.

(** Two values of one key are one. *)
Lemma held_agree a xs kvs : Forall2 (held (W := W) (C := C) a) xs kvs → agree_values kvs.
Proof.
  intros Hh kv kv' (i & Hi)%list_elem_of_lookup_1 (j & Hj)%list_elem_of_lookup_1 Hk.
  destruct (Forall2_lookup_r _ _ _ _ _ Hh Hi) as (x & _ & Hx & _). destruct (Forall2_lookup_r _ _ _ _ _ Hh Hj) as (y & _ & Hy & _).
  rewrite Hk, Hy in Hx. congruence.
Qed.

(** The reference adds the shard and then every string. *)
Lemma reference_takes E sid kvs n a :
  is_sharder E = true → shard_num E ≠ 0 → Forall (λ kv, MakeShardId kv.1 mod shard_num E = sid) kvs → agree_values kvs →
  takes sid n (a_aux a) → 0 ≤ n → n + 1 + Z.of_nat (length kvs) ≤ max_elems → Forall (free_for a) kvs →
  ∃ a' rs, ref_run a ((E, CAddShard sid) :: adds (W := W) E kvs) = Some (a', rs) ∧ has_shard sid (a_aux a') ∧ a_exp a' = a_exp a
    ∧ (∀ kv, kv ∈ kvs → ∃ x, a_dict a' !! kv.1 = Some (x, AStr kv.2)) ∧ ∀ k, k ∉ kvs.*1 → a_dict a' !! k = a_dict a !! k.
Proof.
  intros Hs Hn Hks Hag Ht Hm Hl Hf. destruct (takes_shard E sid n (a_aux a) Hs Ht ltac:(lia)) as (x & Hx & Ht1 & Hh1).
  destruct (takes_all E sid kvs (n + 1) (set_a_aux a x) Hs Hn Hks Hag Ht1 Hh1 ltac:(lia) ltac:(lia) Hf) as (a' & rs & Hr & ?).
  exists a', (inl ODone :: rs). split; [|done]. cbn [ref_run ref_cmd]. unfold done. rewrite (bind_ok _ _ _ _ _ (takes_aux _ a x () Hx)).
  cbn [mbind option_bind mret M_ret]. by rewrite Hr.
Qed.

(** C18: the keys that are filed under a shard arrive when another node pulls it.  The
    session of a node without a policy, on which the shard is not locked, locks it and
    answers with a message that carries every key of the shard's set (after the keys it
    has sent before), all of them holding strings without deadlines that fit the protocol.  A node without a policy that receives the message,
    to whose shard the keys belong, that has not locked it and does not hold one of them
    with another value, then has the shard, holds every key with its string, and every
    other key and every deadline as before.  Only the keys whose whole hash is the number
    of the shard are filed under it: [AddKeyToShard] does not reduce the hash.  All sizes
    stay below 2^61. *)
Theorem pulled_shard_arrives E junk session s sid sh db n a keys kvs :
  sh_instances sh !! GetDatabaseInstanceIndex2 (sh_instances sh) sid = Some (MkInstance db Unlocked) → db_rel n db a →
  0 ≤ n → n + 2 * Z.of_nat (length kvs) ≤ max_elems → is_sharder E = true → cache_ (a_aux a) = None → files sid (a_aux a) keys →
  send_key_index s = 0 → Forall2 (held a) (send_keys s ++ all_elems keys) kvs →
  in_width 64 junk.1.1 = true → Z.of_nat (length (data_of junk kvs)) < 2 ^ 64 →
  ∃ sh' msg, OnPullShard E junk session s sid sh = Some (sh', MkSendState (send_keys s ++ all_elems keys) 0, msg) ∧
    ∀ E2 junk2 ins2 db2 n2 a2 m, let i := GetDatabaseInstanceIndex2 ins2 sid in
      let cost := history_cost ((E2, CAddShard sid) :: adds (W := W) E2 kvs) in
      env_ok E2 → is_sharder E2 = true → shard_num E2 ≠ 0 → Forall (λ kv, MakeShardId kv.1 mod shard_num E2 = sid) kvs →
      ins2 !! i = Some (MkInstance db2 Unlocked) → db_rel n2 db2 a2 → 0 ≤ n2 → n2 + cost ≤ max_elems →
      takes sid m (a_aux a2) → 0 ≤ m → m + 1 + Z.of_nat (length kvs) ≤ max_elems → Forall (free_for a2) kvs →
      ∃ db' a', receive_shard E2 junk2 msg ins2 = Some (<[i := MkInstance db' Unlocked]> ins2) ∧ db_rel (n2 + cost) db' a'
        ∧ has_shard sid (aux db') ∧ (∀ kv, kv ∈ kvs → ∃ x, a_dict a' !! kv.1 = Some (x, AStr kv.2))
        ∧ (∀ k, k ∉ kvs.*1 → a_dict a' !! k = a_dict a2 !! k) ∧ a_exp a' = a_exp a2.
Proof.
  intros Hi Hd Hn Hm Hs Hc Hfiles Hz Hh Hj Hl. set (i := GetDatabaseInstanceIndex2 (sh_instances sh) sid) in *. pose proof (lookup_lt_Some _ _ _ Hi).
  destruct (files_lock sid (a_aux a) keys Hfiles) as (x1 & Hlock & Hx1). destruct (files_keys E sid (a_aux a) x1 keys Hs Hfiles Hx1) as (x2 & Hkeys).
  destruct (on_aux_step (LockShard sid) n db a x1 () Hd ltac:(lia) Hlock) as (db1 & E1 & Hd1).
  destruct (pull_sends E junk n db1 (set_a_aux a x1) sid x1 x2 (all_elems keys) s kvs Hd1 Hn Hm) as (db2 & E2); try done.
  { by rewrite <-Hc, <-(LockShard_cache _ _ _ _ Hlock). }
  eexists _, (data_message junk sid kvs). split.
  - unfold OnPullShard. fold i. rewrite (locked_call_free WLocked WLock WUnlock i _ _ db db1 () Hi eq_refl eq_refl E1). cbn [mbind option_bind].
    rewrite (locked_call_free (RLocked 1) RLock RUnlock i _ _ db1 db2 _ (list_lookup_insert_eq _ _ _ ltac:(done)) eq_refl eq_refl E2).
    cbn [mbind option_bind send_keys send_key_index]. by rewrite Z.eqb_refl.
  - intros E2' junk2 ins2 db2' n2 a2 m i2 cost HE2 Hs2 Hnum Hks Hi2 Hd2 Hn2 Hm2 Ht Hm0 Hml Hfree.
    destruct (reference_takes E2' sid kvs m a2 Hs2 Hnum Hks (held_agree _ _ _ Hh) Ht Hm0 Hml Hfree) as (a' & rs & Hr & Hhas & He & Hin & Hout).
    pose proof (receive_shard_runs E2' junk junk2 sid kvs ins2 db2' n2 a2 HE2 Hi2 Hd2 Hn2 Hj (held_keys_ok n db a _ _ Hd Hh) Hl Hm2) as Hrec.
    unfold received in Hrec. rewrite Hr in Hrec. destruct Hrec as (db' & Hrec & Hdb'). exists db', a'. split_and!; try done.
    pose proof Hdb' as (_ & _ & _ & _ & -> & _). done.
Qed.
End transfer.
