(* ===== verification/SharderErrors.v ===== *)
(** * What goes wrong with shards *)

From Stdlib Require Import Ascii String.
From S2P Require Import Prelude Comparator AvlUtil AvlTree Dict HashTableBase HashTable TreeHashTable HashSet.
From S2P Require Import Dictionary Blist Cache ListCache Vset Kvdb KvdbSpec KvdbValues KvdbRefine KvdbCalls.
From S2P Require Import Mmbp MmbpCodec Storage StorageFacts StorageRefine Disk Recovery Joining RawMmbp Sharder SharderFacts.

(** ** Shards that are pushed *)

Section pushed.
Context {W C : Type} `{Comparator W} `{!CacheInterface C addr}
  `{HS : !HashFunc string} `{HA : !HashFunc addr} `{HZ : !HashFunc Z} `{DB : !DoubleBits W}.
Context `{Kvarint, !KvarintLaws, NetOrder, !NetOrderLaws}.
Context (E : Env) (junk junk2 : Z * Z * Z) (sid : Z).
Implicit Types (db : MmkvDb W C) (x : Aux C) (sh : Sharder W C) (kvs : list (string * string)).

Definition no_shard x : Prop := ∃ e n, dict_is e n (sdict_ x) ∧ kv_view (sdict_ x) !! sid = None.

(** The keys and deadlines are as before, and the shard is not there. *)
Definition untouched db db' : Prop := dict_ db' = dict_ db ∧ exp_dict_ db' = exp_dict_ db ∧ no_shard (aux db').

Lemma untouched_trans db db' db'' : untouched db db' → untouched db' db'' → untouched db db''.
Proof. intros (? & ? & _) (? & ? & ?). split_and!; [congruence|congruence|done]. Qed.

Lemma sdict_find_none x : no_shard x → ∃ x', sdict_Find sid x = Some (x', inl None) ∧ no_shard x'.
Proof.
  intros (e & n & Hd & Hv). destruct (find_is e n (sdict_ x) sid Hd I) as (d & Hf & Hd' & Hv').
  exists (with_sdict x d). split; [|exists e, n; cbn [with_sdict sdict_]; by rewrite Hv'].
  unfold sdict_Find. erewrite bind_ok; [|unfold call; by rewrite Hf]. by rewrite Hv.
Qed.

Lemma on_aux_untouched {A} (m : M (Aux C) A) db x' r : m (aux db) = Some (x', r) → no_shard x' → ∃ db', on_aux m db = Some (db', r) ∧ untouched db db'.
Proof. intros Hm Hx. unfold on_aux, zoom. rewrite Hm. cbn [mbind option_bind]. by eexists. Qed.

Lemma HasShard_none x : no_shard x → ∃ x', HasShard sid x = Some (x', inl false) ∧ no_shard x'.
Proof. intros Hx. destruct (sdict_find_none x Hx) as (x' & Hf & Hx'). exists x'. split; [|done]. unfold HasShard. by rewrite (bind_ok _ _ _ _ _ Hf). Qed.

(** A string of the shard is refused. *)
Lemma insert_refused kv db :
  is_sharder E = true → shard_num E ≠ 0 → MakeShardId kv.1 mod shard_num E = sid → no_shard (aux db) →
  ∃ db', run_cmd E (CInsertStr kv.1 kv.2) db = Some (db', inr S_SHARD_NONEXISTS) ∧ untouched db db'.
Proof.
  intros Hs Hn Hk Hx. destruct (HasShard_none (aux db) Hx) as (x' & Hf & Hx').
  assert (CHECK_SHARD_IS_LOCKED_KEY E kv.1 (aux db) = Some (x', inr S_SHARD_NONEXISTS)) as Hc.
  { unfold CHECK_SHARD_IS_LOCKED_KEY. rewrite Hs. unfold check. destruct (Z.eqb_spec (shard_num E) 0); [done|]. cbn [negb].
    rewrite (bind_ok (mret ()) _ _ _ _ eq_refl), Hk. by rewrite (bind_ok _ _ _ _ _ Hf). }
  destruct (on_aux_untouched _ db x' _ Hc Hx') as (db' & Ho & Hu). exists db'. split; [|done].
  cbn [run_cmd]. unfold done, InsertStr, CHECK_SHARD, mbind, M_bind. by rewrite Ho.
Qed.

Lemma execute_all_refused kvs : ∀ db,
  is_sharder E = true → shard_num E ≠ 0 → Forall (λ kv, MakeShardId kv.1 mod shard_num E = sid) kvs → no_shard (aux db) →
  ∃ db', execute_all E (map (string_received junk junk2) kvs) db = Some (db', inl ()) ∧ untouched db db'.
Proof.
  induction kvs as [|kv kvs IH]; intros db Hs Hn Hk Hx; cbn [map execute_all]; [by exists db|]. apply Forall_cons in Hk as [Hk Hks].
  destruct (insert_refused kv db Hs Hn Hk Hx) as (db1 & Hr & Hu). destruct (IH db1 Hs Hn Hks ltac:(apply Hu)) as (db2 & He & Hu2).
  exists db2. split; [|by eapply untouched_trans]. erewrite bind_ok; [exact He|]. by rewrite execute_received, Hr.
Qed.

Lemma parse_pushed_data kvs : ∀ size,
  in_width 64 junk.1.1 = true → Forall sendable kvs → size = Z.of_nat (length (data_of junk kvs)) → size < 2 ^ 64 →
  parse_pushed junk2 (length kvs) (data_of junk kvs, size) = Some (map (string_received junk junk2) kvs, 0).
Proof.
  induction kvs as [|kv kvs IH]; intros size Hj Hs Hz Hl; cbn [length parse_pushed map]; [by rewrite Hz|]. apply Forall_cons in Hs as [Hkv Hs].
  change (data_of junk (kv :: kvs)) with (request_SerializeTo (string_request junk kv.1 kv.2) ++ data_of junk kvs) in *.
  destruct (raw_string junk junk2 kv (data_of junk kvs) size Hj Hkv) as (size' & -> & _); [unfold covers; lia|]. cbn [mbind option_bind].
  rewrite length_app in *. rewrite (IH (u64 _)); [done|done|done| |]; rewrite u64_small; lia.
Qed.

Definition push_message kvs : ShardMessage :=
  MkShardMessage SHARD_MSG_REQUEST (Some SHARD_OP_PUSH) None (Some sid) (Some (Z.of_nat (length kvs))) (Some (data_of junk kvs)).

(** C32: a shard that is pushed to another node is lost: the node accepts the message, but
    has not got the shard (it asserts so) and does not add it, so that every string of
    the shard is refused, and its database is as before; and it sends no answer. *)
Theorem pushed_shard_is_dropped sh db kvs :
  let i := GetDatabaseInstanceIndex2 (sh_instances sh) sid in
  is_sharder E = true → shard_num E ≠ 0 → sh_instances sh !! i = Some (MkInstance db Unlocked) → no_shard (aux db) →
  in_width 64 junk.1.1 = true → Forall sendable kvs → Z.of_nat (length (data_of junk kvs)) < 2 ^ 64 →
  Forall (λ kv, MakeShardId kv.1 mod shard_num E = sid) kvs →
  ∃ sh' client db', OnPushShard E junk2 (push_message kvs) sh = Some (sh', client)
    ∧ sh_instances sh' = <[i := MkInstance db' Unlocked]> (sh_instances sh) ∧ untouched db db'.
Proof.
  intros i Hs Hn Hi Hx Hj Hkv Hl Hk. pose proof (lookup_lt_Some _ _ _ Hi). unfold OnPushShard, push_message. cbn [msg_shard_id msg_data msg_data_num from_option id]. fold i.
  destruct (HasShard_none (aux db) Hx) as (x1 & Hf & Hx1). destruct (on_aux_untouched _ db x1 _ Hf Hx1) as (db1 & Ho & Hu1).
  rewrite (on_instance_at i _ _ _ Hi). cbn [inst_db inst_lock]. rewrite Ho. cbn [mbind option_bind].
  rewrite Nat2Z.id, parse_pushed_data by done. cbn [mbind option_bind]. rewrite Z.eqb_refl. cbn [negb].
  assert (∀ b db0, no_shard (aux db0) → ∃ db', set_ignore b db0 = Some (db', inl ()) ∧ untouched db0 db') as Hig.
  { intros b db0 Hx0. by eapply on_aux_untouched. }
  destruct (Hig true db1 ltac:(apply Hu1)) as (db2 & Ei & Hu2). destruct (execute_all_refused kvs db2 Hs Hn Hk ltac:(apply Hu2)) as (db3 & Ee & Hu3).
  destruct (Hig false db3 ltac:(apply Hu3)) as (db4 & Ei2 & Hu4).
  erewrite (locked_call_free WLocked WLock WUnlock i _ _ db1 db4); [|by apply list_lookup_insert_eq|done|done|by rewrite (bind_ok _ _ _ _ _ Ei), (bind_ok _ _ _ _ _ Ee), Ei2].
  cbn [mbind option_bind]. destruct (pending_at _ _) as [clients client]. eexists _, _, db4. split; [done|]. split; [cbn [sh_instances]; by rewrite list_insert_insert_eq|].
  eapply untouched_trans; [exact Hu1|]. eapply untouched_trans; [exact Hu2|]. by eapply untouched_trans.
Qed.
End pushed.

(** ** Shards that are deleted *)

Section deleted.
Context {W C : Type} `{Comparator W} `{!CacheInterface C addr}
  `{HS : !HashFunc string} `{HA : !HashFunc addr} `{HZ : !HashFunc Z} `{DB : !DoubleBits W}.
Context (E : Env) (sid : Z) (keys : ShardIdSet).
Implicit Types (db : MmkvDb W C) (x : Aux C) (sh : Sharder W C).

Definition locked_in (s : HashState (list Z)) : Prop := ∃ dr, HashTable_wfx dr s ∧ is_Some (d_view (DictLaws := HashTable_laws (T := Z)) s !! sid).

(** The shard has the keys [keys] and is locked. *)
Definition moving x : Prop :=
  (∃ e n, dict_is e n (sdict_ x) ∧ kv_view (sdict_ x) !! sid = Some keys) ∧ locked_in (locked_shard_id_set_ x) ∧ is_ignore_locked_shard x = false.

Lemma moving_find x : moving x → ∃ x', sdict_Find sid x = Some (x', inl (Some keys)) ∧ moving x'.
Proof.
  intros ((e & n & Hd & Hv) & Hl & Hi). destruct (find_is e n (sdict_ x) sid Hd I) as (d & Hf & Hd' & Hv').
  exists (with_sdict x d). split; [|split; [exists e, n; cbn [with_sdict sdict_]; by rewrite Hv'|done]].
  unfold sdict_Find. erewrite bind_ok; [|unfold call; by rewrite Hf]. by rewrite Hv.
Qed.

Lemma locked_found x : locked_in (locked_shard_id_set_ x) → ∃ s, IsShardLocked sid x = Some (with_locked x s, inl true) ∧ locked_in s.
Proof.
  intros (dr & Hw & [y Hy]). destruct (d_find_lawx (DictLaws := HashTable_laws (T := Z)) dr (locked_shard_id_set_ x) sid Hw I) as (s & Hf & Hw' & Hv).
  exists s. split; [|exists dr; by rewrite Hv].
  unfold IsShardLocked. erewrite bind_ok; [|unfold call; change (HashTable.Find HASH_FUNC (locked_shard_id_set_ x) sid) with (d_find (DictOps := HashTable_ops (T := Z)) (locked_shard_id_set_ x) sid); by rewrite Hf].
  by rewrite Hy.
Qed.

Lemma moving_locked x : moving x → ∃ x', IsShardLocked sid x = Some (x', inl true) ∧ moving x'.
Proof. intros (Hs & Hl & Hi). destruct (locked_found x Hl) as (s & Hf & Hl'). by exists (with_locked x s). Qed.

(** A key of the shard is not deleted. *)
Lemma delete_refused k x :
  is_sharder E = true → shard_num E ≠ 0 → MakeShardId k mod shard_num E = sid → moving x →
  ∃ x', CHECK_SHARD_IS_LOCKED_KEY E k x = Some (x', inr S_SHARD_LOCKED) ∧ moving x'.
Proof.
  intros Hs Hn Hk Hx. destruct (moving_find x Hx) as (x1 & Hf & Hx1). destruct (moving_locked x1 Hx1) as (x2 & Hl & Hx2). exists x2. split; [|done].
  unfold CHECK_SHARD_IS_LOCKED_KEY. rewrite Hs. unfold check. destruct (Z.eqb_spec (shard_num E) 0); [done|]. cbn [negb].
  rewrite (bind_ok (mret ()) _ _ _ _ eq_refl), Hk. rewrite (bind_ok _ _ x x1 true) by (unfold HasShard; by rewrite (bind_ok _ _ _ _ _ Hf)). cbn [negb].
  rewrite (bind_ok _ _ _ _ _ Hl), bind_get. by destruct Hx2 as (_ & _ & ->).
Qed.

(** The keys and deadlines are as before. *)
Definition same_keys db db' : Prop := dict_ db' = dict_ db ∧ exp_dict_ db' = exp_dict_ db.

Definition of_shard db (a : addr) : Prop := ∃ k, deref_in (dict_ db) a = Some k ∧ MakeShardId k mod shard_num E = sid.

Lemma remove_loop_keeps l : ∀ db,
  is_sharder E = true → shard_num E ≠ 0 → Forall (of_shard db) l → moving (aux db) →
  ∃ db', remove_shard_loop E l db = Some (db', inl ()) ∧ same_keys db db' ∧ moving (aux db').
Proof.
  induction l as [|a l IH]; intros db Hs Hn Ho Hx; cbn [remove_shard_loop]; [by exists db|].
  apply Forall_cons in Ho as [(k & Hk & Hsid) Ho].
  destruct (delete_refused k (aux db) Hs Hn Hsid Hx) as (x1 & Hc & Hx1). set (db1 := with_aux db x1).
  assert (Delete E k db = Some (db1, inr S_SHARD_LOCKED)) as Hd by (unfold Delete, CHECK_SHARD, on_aux, zoom, mbind at 1, M_bind at 1; by rewrite Hc).
  rewrite bind_get, bind_lift, Hk. erewrite bind_ok; [|by rewrite Hd]. destruct (IH db1 Hs Hn Ho Hx1) as (db' & Hr & [H1 H2] & Hx'). by exists db'.
Qed.

Lemma unlock_found x : locked_in (locked_shard_id_set_ x) → ∃ x', UnlockShard sid x = Some (x', inl ()) ∧ sdict_ x' = sdict_ x.
Proof.
  intros Hl. destruct (locked_found x Hl) as (s & Hf & (dr & Hw & [y Hy])).
  destruct (d_extract_lawx (DictLaws := HashTable_laws (T := Z)) dr s sid Hw I) as (s' & Hx & _ & _).
  change (HashTable.Extract HASH_FUNC s sid = Some (s', d_view (DictLaws := HashTable_laws (T := Z)) s !! sid)) in Hx.
  exists (with_locked (with_locked x s) s'). split; [|done]. unfold UnlockShard. rewrite (bind_ok _ _ _ _ _ Hf). unfold check.
  rewrite (bind_ok (mret ()) _ _ _ _ eq_refl). erewrite bind_ok; [done|]. unfold call. cbn [with_locked locked_shard_id_set_]. unfold HashTable.Erase. by rewrite Hx.
Qed.

(** C33: the keys of a shard that another node has pulled are not deleted with it: the pull
    has locked the shard, and [Delete] refuses the keys of a locked shard; the request
    to delete the shard takes it off the index and unlocks it, but every key of it is
    still in the dictionary, with its deadline. *)
Theorem deleted_shard_keeps_keys sh db req dr :
  let i := GetDatabaseInstanceIndex2 (sh_instances sh) sid in
  is_sharder E = true → shard_num E ≠ 0 → msg_shard_id req = Some sid → sh_instances sh !! i = Some (MkInstance db Unlocked) →
  moving (aux db) → HashTable_wfx dr keys → Forall (of_shard db) (all_elems keys) →
  ∃ sh' db', OnDelShard E req sh = Some sh' ∧ sh_instances sh' = <[i := MkInstance db' Unlocked]> (sh_instances sh)
    ∧ same_keys db db' ∧ kv_view (sdict_ (aux db')) !! sid = None.
Proof.
  intros i Hs Hn Hreq Hi Hx Hw Ho. unfold OnDelShard. rewrite Hreq. cbn [from_option id]. fold i.
  destruct (moving_find (aux db) Hx) as (x1 & Hf & Hx1).
  destruct (remove_loop_keeps (all_elems keys) (with_aux db x1) Hs Hn Ho Hx1) as (db2 & Hr & [Hd2 He2] & ((e & n & Hd & Hv) & Hl & _)).
  destruct (erase_is e n (sdict_ (aux db2)) sid Hd I) as (d & Hde & _ & Hv').
  destruct (unlock_found (with_sdict (aux db2) d) Hl) as (x4 & Hu & Hs4).
  erewrite (locked_call_free WLocked WLock WUnlock i _ _ db (with_aux (with_aux db2 (with_sdict (aux db2) d)) x4) () Hi eq_refl eq_refl).
  - cbn [mbind option_bind]. eexists _, _. split; [done|]. split; [done|]. split; [done|]. cbn [with_aux aux]. by rewrite Hs4, <-(lookup_delete_eq (kv_view (sdict_ (aux db2))) sid), <-Hv'.
  - unfold RemoveShard. rewrite Hs. rewrite (bind_ok _ _ db (with_aux (with_aux db2 (with_sdict (aux db2) d)) (with_sdict (aux db2) d)) ()).
    + unfold on_aux, zoom. cbn [with_aux aux]. by rewrite Hu.
    + erewrite bind_ok; [|unfold on_aux, zoom; by rewrite Hf]. rewrite bind_lift, bind_lift, (members_spec keys Hw), (bind_ok _ _ _ _ _ Hr).
      erewrite bind_ok; [done|]. unfold on_aux, zoom, call. by rewrite Hde.
Qed.
End deleted.
