(* ===== verification/SharderExamples.v ===== *)
(** * Concrete shards

    Nodes with a shard of one key, and what is sent between them, with the concrete
    hash function and codec of the other examples. *)

From Stdlib Require Import Ascii String.
From S2P Require Import Prelude Comparator AvlUtil AvlTree Dict HashTableBase HashTable TreeHashTable HashSet.
From S2P Require Import Dictionary Blist Cache ListCache Vset Kvdb KvdbSpec KvdbValues KvdbRefine KvdbCalls.
From S2P Require Import KvdbFacts KvdbErrors KvdbFrame KvdbExamples Mmbp MmbpCodec MmbpExamples.
From S2P Require Import Storage StorageFacts StorageRefine Server ServerExamples Disk Recovery Joining RawMmbp Sharder SharderFacts SharderErrors.

Module SharderExamples.
Import KvdbExamples MmbpExamples ServerExamples.
Open Scope string_scope.
Open Scope Z_scope.

#[local] Existing Instance HashString.
#[local] Existing Instance HashInt.
#[local] Existing Instance HashAddr.
#[local] Existing Instance int_bits.

(** A server of a cluster with 1000 shards; the key "a" is in shard 314. *)
Definition shard_env : Env := MkEnv true 0 true 1000 1000 false 1 0 (λ _, "") 50.

Example a_shard : MakeShardId "a" = 314.
Proof. by vm_compute. Qed.

Definition holds_a : list (Env * Cmd) := [(shard_env, CAddShard 314); (shard_env, CInsertStr "a" "one")].

Definition db_after (cs : list (Env * Cmd)) : DB := match db_run new_db cs with Some (db, _) => db | None => new_db end.
Definition ref_after (cs : list (Env * Cmd)) : ADb Z Lru_ := match ref_run (ref_new None) cs with Some (a, _) => a | None => ref_new None end.

Lemma holds_a_rel : db_rel (history_cost holds_a) (db_after holds_a) (ref_after holds_a).
Proof.
  assert (Forall (λ ec : Env * Cmd, env_ok ec.1 ∧ cmd_ok ec.2) holds_a) as Hok.
  { repeat first [apply Forall_nil|apply Forall_cons; split; [split; [by intros ?|]|]]; by repeat split. }
  pose proof (history_sim holds_a 0 new_db (ref_new None) Hok ltac:(lia) ltac:(by vm_compute) (new_rel 0 None ltac:(lia))) as Hr.
  unfold runs_agree in Hr. unfold db_after, ref_after.
  destruct (db_run new_db holds_a) as [[db rs]|] eqn:E1; [|by vm_compute in E1].
  destruct (ref_run (ref_new None) holds_a) as [[a rs']|] eqn:E2; [|by vm_compute in E2]. inversion Hr as [? ? [Hd _]|]. exact Hd.
Qed.

Definition node_a : Sharder Z Lru_ := MkSharder [MkInstance (db_after holds_a) Unlocked] ∅ ∅.
Definition empty_node : Sharder Z Lru_ := MkSharder [MkInstance new_db Unlocked] ∅ ∅.

Definition keys_a : ShardIdSet := match HashTable.Insert HASH_FUNC HashTable_init (1%positive : addr) with Some (s, _) => s | None => HashTable_init end.

Definition one_string : list (string * string) := [("a", "one")].

Lemma a_held : Forall2 (held (ref_after holds_a)) (send_keys session_new ++ [1%positive]) one_string.
Proof. constructor; [|constructor]. split_and!; by vm_compute. Qed.

(** The shard 314 of [node_a] holds the key, and is not locked. *)
Lemma a_filed : files 314 (a_aux (ref_after holds_a)) keys_a.
Proof.
  destruct (takes_shard shard_env 314 0 (a_aux (ref_new (W := Z) (C := Lru_) None)) eq_refl (takes_new 314) ltac:(by vm_compute)) as (x1 & Hx1 & Ht1 & Hh1).
  destruct (takes_insert shard_env 314 (0 + 1) (set_a_aux (ref_new (W := Z) None) x1) ("a", "one") eq_refl ltac:(done) ltac:(by vm_compute) Ht1 Hh1 ltac:(by vm_compute))
    as (a' & r & Hr & Ht & _); [by intros e ?|].
  assert (ref_cmd shard_env (CAddShard 314) (ref_new None) = Some (set_a_aux (ref_new None) x1, inl ODone)) as Hadd.
  { cbn [ref_cmd]. unfold done. by rewrite (bind_ok _ _ _ _ _ (takes_aux _ _ x1 () Hx1)). }
  assert (ref_after holds_a = a') as Ea by (unfold ref_after, holds_a; cbn [ref_run]; rewrite Hadd; cbn [mbind option_bind]; cbn [fst snd] in Hr; by rewrite Hr).
  rewrite <-Ea in Ht. eapply takes_files; [exact Ht|]. by vm_compute.
Qed.

(** The shard is pulled from [node_a] and arrives at a new node. *)
Lemma pulled_shard_arrives_witness :
  ∃ sh' msg db' a' x, OnPullShard shard_env junk 1 session_new 314 node_a = Some (sh', MkSendState [1%positive] 0, msg)
    ∧ receive_shard shard_env junk msg (sh_instances empty_node) = Some [MkInstance db' Unlocked]
    ∧ db_rel 5 db' a' ∧ a_dict a' !! "a" = Some (x, AStr "one").
Proof.
  destruct (pulled_shard_arrives shard_env junk 1 session_new 314 node_a (db_after holds_a) (history_cost holds_a) (ref_after holds_a)
    keys_a one_string) as (sh' & msg & Hp & Hr).
  - by vm_compute.
  - exact holds_a_rel.
  - by vm_compute.
  - by vm_compute.
  - done.
  - by vm_compute.
  - exact a_filed.
  - done.
  - exact a_held.
  - by vm_compute.
  - by vm_compute.
  - assert (∀ P : string * string → Prop, P ("a", "one") → Forall P one_string) as Hone by (intros P HP; apply Forall_cons; split; [exact HP|by apply Forall_nil]).
    assert (Forall (λ kv, MakeShardId kv.1 mod shard_num shard_env = 314) one_string) as Hsid by (apply Hone; by vm_compute).
    assert (Forall (free_for (ref_new (W := Z) (C := Lru_) None)) one_string) as Hfree by (apply Hone; by intros e ?).
    assert (sh_instances empty_node !! GetDatabaseInstanceIndex2 (sh_instances empty_node) 314 = Some (MkInstance new_db Unlocked)) as Hi by (by vm_compute).
    assert (0 + history_cost ((shard_env, CAddShard 314) :: adds (W := Z) shard_env one_string) ≤ max_elems) as Hcost by (by vm_compute).
    destruct (Hr shard_env junk (sh_instances empty_node) new_db 0 (ref_new None) 0 ltac:(by intros ?) eq_refl ltac:(done) Hsid Hi
      (new_rel 0 None ltac:(lia)) ltac:(lia) Hcost (takes_new 314) ltac:(lia) ltac:(by vm_compute) Hfree)
      as (db' & a' & Hrec & Hd & _ & Hin & _).
    destruct (Hin ("a", "one") ltac:(by left)) as [x Hx]. exists sh', msg, db', a', x. split_and!; [exact Hp|exact Hrec|exact Hd|exact Hx].
Defined.

(** What it then holds. *)
Definition moved : option (option (list (out Z + StatusCode))) :=
  '(_, _, msg) ← OnPullShard shard_env junk 1 session_new 314 node_a;
  ins ← receive_shard shard_env junk msg (sh_instances empty_node);
  inst ← ins !! 0%nat;
  Some (snd <$> db_run (inst_db inst) [(shard_env, CGetStr "a")]).

Example moved_a : moved = Some (Some [inl (OString "one")]).
Proof. by vm_compute. Qed.

(** A second pull over the same session fails: its keys are sent again, but the shard is
    locked already. *)
Example pulled_twice :
  ('(sh, s, _) ← OnPullShard shard_env junk 1 session_new 314 node_a; OnPullShard shard_env junk 1 s 314 sh) = None.
Proof. by vm_compute. Qed.

(** After a pull of shard 314, a pull of another shard sends the key of shard 314 again. *)
Definition holds_two : list (Env * Cmd) := holds_a ++ [(shard_env, CAddShard 315); (shard_env, CInsertStr "b" "two")].
Definition node_two : Sharder Z Lru_ := MkSharder [MkInstance (db_after holds_two) Unlocked] ∅ ∅.

Example keys_sent_again :
  ('(sh, s, _) ← OnPullShard shard_env junk 1 session_new 314 node_two; '(_, _, msg) ← OnPullShard shard_env junk 1 s 315 sh;
   Some (msg_data_num msg, msg_data msg))
  = Some (Some 2, Some (data_of junk [("a", "one"); ("b", "two")])).
Proof. by vm_compute. Qed.

Lemma pushed_shard_is_dropped_witness :
  ∃ sh' client db', OnPushShard shard_env junk (push_message junk 314 one_string) empty_node = Some (sh', client)
    ∧ sh_instances sh' = [MkInstance db' Unlocked] ∧ untouched 314 new_db db'.
Proof.
  apply (pushed_shard_is_dropped shard_env junk junk 314 empty_node new_db one_string).
  - done.
  - done.
  - by vm_compute.
  - destruct (init_is (D := ShardDict) 0 ltac:(lia)) as [Hd Hv]. exists 0, 0. split; [exact Hd|]. change (sdict_ (aux new_db)) with (d_init (D := ShardDict) (T := KeyValue Z ShardIdSet)). by rewrite Hv.
  - by vm_compute.
  - apply Forall_cons. split; [split; by vm_compute|]. by apply Forall_nil.
  - by vm_compute.
  - apply Forall_cons. split; [by vm_compute|]. by apply Forall_nil.
Defined.

(** ** A shard that is deleted *)

Definition shards_a : ShardDict := match InsertKv (d_init (D := ShardDict) (T := KeyValue Z ShardIdSet)) 314 keys_a with Some (d, _) => d | None => TreeHashTable_init end.
Definition locks_a : HashState (list Z) := match HashTable.Insert HASH_FUNC HashTable_init 314 with Some (s, _) => s | None => HashTable_init end.

(** [node_a] after the pull. *)
Definition pulled_db : DB := MkDb (dict_ (db_after holds_a)) (exp_dict_ (db_after holds_a)) (MkAux None shards_a locks_a false []) 2%positive.

Lemma inserted_wf {K} `{!HashFunc K} `{Countable K} `{!EqualKey K} `{!EqualKeyOk K} (x : K) s :
  match HashTable.Insert HASH_FUNC HashTable_init x with Some (s, _) => Some s | None => None end = Some s →
  HashTable_wfx no_drift s ∧ d_view (DictLaws := HashTable_laws (T := K)) s !! x = Some x.
Proof.
  destruct (d_init_law (DictLaws := HashTable_laws (T := K))) as [Hw Hv].
  destruct (d_insert_lawx (DictLaws := HashTable_laws (T := K)) no_drift d_init x Hw) as (s' & ok & dup & Hi & Hw' & Hx); [by rewrite Hv, map_size_empty|done|].
  change (HashTable.InsertWithDuplicate HASH_FUNC HashTable_init x = Some (s', ok, dup)) in Hi. unfold HashTable.Insert. rewrite Hi. intros [= <-].
  split; [exact Hw'|]. rewrite Hv, lookup_empty in Hx. destruct Hx as (_ & _ & ->). apply lookup_insert_eq.
Qed.

Lemma pulled_moving : moving 314 keys_a (aux pulled_db).
Proof.
  destruct (init_is (D := ShardDict) 0 ltac:(lia)) as [Hd Hv].
  destruct (insert_kv_is 0 0 (d_init (D := ShardDict) (T := KeyValue Z ShardIdSet)) 314 keys_a Hd ltac:(by vm_compute) I) as (d & Hd' & Hi).
  rewrite Hv, lookup_empty in Hi. destruct Hi as [Hi Hv']. split; [|split; [|done]].
  - change (sdict_ (aux pulled_db)) with shards_a. unfold shards_a. rewrite Hi. exists 0, (0 + 1). split; [done|]. rewrite Hv'. apply lookup_insert_eq.
  - exists no_drift. destruct (inserted_wf 314 locks_a) as [Hw Hl]; [by vm_compute|]. split; [exact Hw|]. by eexists.
Qed.

Lemma deleted_shard_keeps_keys_witness :
  ∃ sh' db', OnDelShard shard_env (RemShard 314) (MkSharder [MkInstance pulled_db Unlocked] ∅ ∅) = Some sh'
    ∧ sh_instances sh' = [MkInstance db' Unlocked] ∧ same_keys pulled_db db' ∧ kv_view (sdict_ (aux db')) !! 314 = None.
Proof.
  apply (deleted_shard_keeps_keys shard_env 314 keys_a (MkSharder [MkInstance pulled_db Unlocked] ∅ ∅) pulled_db (RemShard 314) no_drift).
  - done.
  - done.
  - done.
  - done.
  - exact pulled_moving.
  - destruct (inserted_wf (1%positive : addr) keys_a) as [Hw _]; [by vm_compute|]. exact Hw.
  - replace (all_elems keys_a) with [1%positive : addr] by (by vm_compute). apply Forall_cons. split; [exists "a"; split; by vm_compute|]. by apply Forall_nil.
Defined.

(** The whole exchange: pulled, received, deleted; the key stays at the old node, where
    nothing but a request without a key still finds it. *)
Example old_node_keeps_a :
  ('(sh, _, _) ← OnPullShard shard_env junk 1 session_new 314 node_a; sh ← OnDelShard shard_env (RemShard 314) sh;
   inst ← sh_instances sh !! 0%nat; snd <$> db_run (inst_db inst) [(shard_env, CGetAllKeys); (shard_env, CSetStr "a" "two")])
  = Some [inl (OBag ["a"]); inr S_SHARD_NONEXISTS].
Proof. by vm_compute. Qed.

(** A key with a deadline arrives without it. *)
Definition holds_deadline : list (Env * Cmd) := holds_a ++ [(shard_env, CExpireAtMs "a" 50)].

Example deadline_lost :
  ('(_, _, msg) ← OnPullShard shard_env junk 1 session_new 314 (MkSharder [MkInstance (db_after holds_deadline) Unlocked] ∅ ∅);
   ins ← receive_shard shard_env junk msg (sh_instances empty_node); inst ← ins !! 0%nat;
   snd <$> db_run (inst_db inst) [(shard_env, CGetStr "a"); (shard_env, CGetExpiration "a")])
  = Some [inl (OString "one"); inr S_NONEXISTS].
Proof. by vm_compute. Qed.

(** A shard with a list in it cannot be pulled. *)
Example lists_stop_pull :
  OnPullShard shard_env junk 1 session_new 314
    (MkSharder [MkInstance (db_after [(shard_env, CAddShard 314); (shard_env, CListAdd "a" ["x"])]) Unlocked] ∅ ∅) = None.
Proof. by vm_compute. Qed.

(** ** Raw memory *)

Lemma raw_parses_as_buffer_witness :
  ∃ size', raw_ParseFrom (new_request junk) (request_SerializeTo add_l ++ request_SerializeTo set_a, 100)%list
    = Some (transmitted (new_request junk) add_l, (request_SerializeTo set_a, size')) ∧ covers (request_SerializeTo set_a) size'.
Proof. apply (raw_parses_as_buffer (new_request junk) (request_SerializeTo add_l ++ request_SerializeTo set_a)%list 100); by vm_compute. Defined.

(** Weights that are written as eight bytes are read as varints. *)
Definition add_v : MmbpRequest := MkRequest 129 (number_of VADD) "v" [] [] "" [MkKeyValue 5 "m"] 0 0 0.

Example weights_misread :
  (req_vmembers ∘ fst <$> request_ParseFrom (new_request junk) (request_SerializeTo add_v)) = Some [MkKeyValue 5 "m"]
  ∧ (req_vmembers ∘ fst <$> raw_ParseFrom (new_request junk) (request_SerializeTo add_v, blen (request_SerializeTo add_v))) = Some [MkKeyValue 0 ""].
Proof. split; by vm_compute. Qed.

(** The bytes left are not counted down by the strings. *)
Example strings_not_counted :
  (snd ∘ snd <$> raw_ParseFrom (new_request junk) (request_SerializeTo set_a, blen (request_SerializeTo set_a))) = Some 4.
Proof. by vm_compute. Qed.
End SharderExamples.
