(* ===== verification/Console.v ===== *)
(** * The console client

    [mmkv/client/mmkv_client.h], [mmkv_client.cc], [information.h], [information.cc],
    [response_printer.cc], [option.h], [mmkv/protocol/status_code.cc]: a line that the
    user types is a command of the console, of the shell, of the configuration or of the
    server.  With a configuration daemon, the client chooses the node that holds the key
    of a command, and connects to it.

    The functions of kanon and replxx that the console calls, [system], and the printing
    of doubles are parameters ([ConsoleLib]).  What the console does to the outside is a
    list of actions; a wait ([IoWait]) is one of them, and the console goes on after it.
    [None] is a failed assertion, a fatal log or a null pointer. *)

From Stdlib Require Import Ascii String.
From stdpp Require Import pretty.
From S2P Require Import Prelude Comparator AvlUtil AvlTree Dict HashTableBase HashTable TreeHashTable HashSet.
From S2P Require Import Dictionary Blist Cache ListCache Vset Kvdb KvdbSpec Mmbp MmbpCodec Storage Translator.
From S2P Require Import Controller ControllerFacts ConfigdClient.

(** ** Colours and lines *)

Definition color (code : string) : string := String (ascii_of_nat 27) ("[" +:+ code +:+ "m").
Definition RESET : string := color "0".
Definition L_GREEN : string := color "1;32".
Definition YELLOW : string := color "1;33".
Definition BLUE : string := color "0;34".
Definition CYAN : string := color "0;36".
Definition NL : string := String (ascii_of_nat 10) "".

(** ** The commands of the console *)

Inductive CliCommand := CLI_HELP | CLI_QUIT | CLI_EXIT | CLI_HISTORY | CLI_CLEAR | CLI_CLEAR_HISTORY.
Inductive ConfigCommand := CONFIG_FETCH_CONF | CONFIG_CACL_SHARD | CONFIG_SELECT.

Definition cli_commands : list CliCommand := [CLI_HELP; CLI_QUIT; CLI_EXIT; CLI_HISTORY; CLI_CLEAR; CLI_CLEAR_HISTORY].
Definition config_commands : list ConfigCommand := [CONFIG_FETCH_CONF; CONFIG_CACL_SHARD; CONFIG_SELECT].

Definition cli_command_strings : list string := ["HELP"; "QUIT"; "EXIT"; "HISTORY"; "CLEAR"; "CLEARHISTORY"].
Definition config_command_strings : list string := ["FETCH_CONF"; "CACL_SHARD"; "SELECT"].

(** Looking a name up in the map that [GenCommandMap] makes of an array of names. *)
Definition named {A} (names : list string) (cs : list A) (name : string) : option A :=
  '(i, _) ← list_find (name =.) names; cs !! i.

(** [CLI_COMMAND_NUM] and [CONFIG_COMMAND_NUM] are [None]. *)
Definition GetCliCommand : string → option CliCommand := named cli_command_strings cli_commands.
Definition GetConfigCommand : string → option ConfigCommand := named config_command_strings config_commands.

Definition GetConfigCommandString (c : ConfigCommand) : string :=
  match c with CONFIG_FETCH_CONF => "FETCH_CONF" | CONFIG_CACL_SHARD => "CACL_SHARD" | CONFIG_SELECT => "SELECT" end.

(** The hints that [GenCommandMetadata] makes. *)
Definition GetCommandHint (c : Command) : string :=
  match c with
  | MEM_STAT | KEYALL | DELALL | SHARD_LEAVE => ""
  | STR_ADD | STR_SET | STRAPPEND => " key value"
  | MEXISTS | MDEL | MGET => " key field"
  | MGETS => " key fields..."
  | MSET => " key field value"
  | SAND | SOR | SSUB | SANDSIZE | SORSIZE | SSUBSIZE => " key1 key2"
  | SANDTO | SORTO | SSUBTO => " destination key1 key2"
  | SADD => " key members..."
  | STR_GET | STR_DEL | STRLEN | LGETALL | LGETSIZE | LDEL | VSIZE | VALL | DEL | TYPE | MALL | MSIZE | MFIELDS | MVALUES
  | SALL | SSIZE | SRANDDELM | PERSIST | EXPIRATION | TTL => " key"
  | LADD | LAPPEND | LPREPEND => " key values..."
  | STRPOPBACK | LPOPBACK | LPOPFRONT => " key count"
  | SHARD_JOIN => " host port"
  | LGETRANGE => " key index_range(integer)"
  | VADD => " key <weight, member>..."
  | MADD => " key <field, value>..."
  | VDELM | VWEIGHT | VORDER | VRORDER | SDELM | SEXISTS => " key member"
  | VDELMRANGE | VRANGE | VRRANGE => " key order_range(integer)"
  | VDELMRANGEBYWEIGHT | VRANGEBYWEIGHT | VRRANGEBYWEIGHT | VSIZEBYWEIGHT => " key weight_range(double)"
  | RENAME => " key new_name"
  | EXPIRE_AT | EXPIREM_AT => " key expiration_time"
  | EXPIRE_AFTER | EXPIREM_AFTER => " key time_interval"
  | DELS => " keys..."
  end.

Definition GetCliCommandHint (c : CliCommand) : string := "".
Definition GetConfigCommandHint (c : ConfigCommand) : string :=
  match c with CONFIG_FETCH_CONF => "" | CONFIG_SELECT => " node_idx" | CONFIG_CACL_SHARD => " key" end.

(** The names and hints of a kind of command, in the order of their numbers. *)
Definition cli_entries : list (string * string) := zip_with pair cli_command_strings (map GetCliCommandHint cli_commands).
Definition command_entries : list (string * string) := zip_with pair command_strings (map GetCommandHint commands).
Definition config_entries : list (string * string) := zip_with pair config_command_strings (map GetConfigCommandHint config_commands).

Definition help_lines (c : string) (es : list (string * string)) : string :=
  foldr (λ e s, c +:+ e.1 +:+ RESET +:+ e.2 +:+ NL +:+ s) "" es.

(** [GenHelp]. *)
Definition GetHelp : string :=
  "Help: " +:+ NL +:+ help_lines CYAN cli_entries +:+ help_lines L_GREEN command_entries +:+ help_lines BLUE config_entries.

(** ** Printing responses *)

(** [GetStatusMessage]; it aborts on [S_SHARD_PROCESSING] and unknown codes. *)
Definition GetStatusMessage (code : Z) : option string :=
  match code with
  | 0 => Some "OK"
  | 1 => Some "ERROR: Key already exists"
  | 2 => Some "ERROR: Key doesn't exists"
  | 3 => Some "ERROR: Invalid message"
  | 4 => Some "ERROR: Invalid range"
  | 5 => Some "ERROR: Member doesn't exists in vset"
  | 6 => Some "ERROR: Key exists but with different type"
  | 7 => Some "ERROR: Field doesn't exists"
  | 8 => Some "ERROR: Member doesn't exists in set"
  | 9 => Some "ERROR: Invalid request(client error)"
  | 10 => Some "ERROR: No member in the set"
  | 11 => Some "ERROR: The destination set already exists"
  | 12 => Some "ERROR: The expiration is disable"
  | 13 => Some "ERROR: The shard which key belonging is locked"
  | 15 => Some "ERROR: The shard does not exists in peer node"
  | _ => None
  end.

(** [InetAddr] of a host and a port. *)
Record Address := MkAddress { addr_host : string; addr_port : Z }.

#[export] Instance Address_eq_dec : EqDecision Address.
Proof. solve_decision. Defined.

(** Functions of kanon, replxx and the C library.  [show_double] prints a double given
    by its bits; [system] is whether the result is not 0. *)
Class ConsoleLib := {
  ToUpperString : bytes → bytes;
  substr : bytes → Z → Z → bytes;
  remove_prefix : bytes → Z → bytes;
  StringViewToU64 : string → option Z;
  ToIpPort : Address → string;
  EndpointToIpPort : string → string;
  history_add : list string → string → list string;
  system : string → bool;
  show_double : Z → string;
}.

Definition upper_char (c : ascii) : ascii :=
  let n := nat_of_ascii c in if (97 <=? n)%nat && (n <=? 122)%nat then ascii_of_nat (n - 32) else c.

Class ConsoleLibLaws `{ConsoleLib} := {
  ToUpperString_law b : ToUpperString b = map upper_char b;
  substr_law b n : 0 ≤ n → substr b 0 n = take (Z.to_nat (Z.min n (blen b))) b;
  remove_prefix_law b n : 0 ≤ n ≤ blen b → remove_prefix b n = drop (Z.to_nat n) b;
}.

Section printer.
Context `{ConsoleLib}.

(** The loops over the values, the members and the pairs. *)
Fixpoint values_text (vs : list string) : string :=
  match vs with
  | [] => ""
  | [v] => v +:+ "}" +:+ NL
  | v :: vs => v +:+ ", " +:+ values_text vs
  end.

Fixpoint vmembers_text (order : Z) (wms : list (KeyValue Z string)) : string :=
  match wms with
  | [] => ""
  | wm :: wms =>
      "[" +:+ to_string order +:+ "]: " +:+ value wm +:+ "(" +:+ show_double (key wm) +:+ ")" +:+ NL +:+ vmembers_text (order + 1) wms
  end.

Fixpoint kvs_text (i : Z) (kvs : list (KeyValue string string)) : string :=
  match kvs with
  | [] => ""
  | kv :: kvs =>
      "[" +:+ to_string i +:+ "]: " +:+ "(" +:+ key kv +:+ ", " +:+ value kv +:+ ")" +:+ NL +:+ kvs_text (i + 1) kvs
  end.

(** [ResponsePrinter::Printf]; [cmd] is the number of the command. *)
Definition ResponsePrinter_Printf (cmd : Z) (response : MmbpResponse) : option string :=
  if status_code response =? code_num S_OK then
    Some (if res_HasValue response then res_value response +:+ NL
          else if res_HasValues response then
            match res_values response with [] => "{}" +:+ NL | vs => "{" +:+ values_text vs end
          else if res_HasCount response then
            if cmd =? number_of_command VWEIGHT then "(double)" +:+ show_double (res_count response) +:+ NL
            else "(integer)" +:+ to_string (res_count response) +:+ NL
          else if res_HasVmembers response then vmembers_text 0 (res_vmembers response)
          else if res_HasKvs response then kvs_text 0 (res_kvs response)
          else "Success!" +:+ NL)
  else s ← GetStatusMessage (status_code response); Some (s +:+ NL).
End printer.

(** ** The state *)

(** The options that the console looks at. *)
Record CliOption := MkCliOption { opt_host : string; opt_port : Z; configd_endpoint : string }.

Definition is_conn_configd (o : CliOption) : bool := negb (String.eqb (configd_endpoint o) "").

(** [client_] is the address that it is connected to; [con_history] what replxx keeps. *)
Record Console (D : Type) := MkConsole {
  client_ : option Address;
  p_conf_cli_ : option (ConfigdClient D);
  prompt_ : string;
  current_cmd_ : Z;
  current_peer_node_id : Z;
  cur_cmd_ : string;
  upper_cur_cmd_ : string;
  is_exit : bool;
  con_history : list string;
}.
Arguments MkConsole {D}.
Arguments client_ {D}.
Arguments p_conf_cli_ {D}.
Arguments prompt_ {D}.
Arguments current_cmd_ {D}.
Arguments current_peer_node_id {D}.
Arguments cur_cmd_ {D}.
Arguments upper_cur_cmd_ {D}.
Arguments is_exit {D}.
Arguments con_history {D}.

(** [Out], [Err] and [Warn] print, the last two in colour. *)
Inductive ConsoleAction :=
  | Out (s : string) | Err (s : string) | Warn (s : string)
  | ConnectTo (a : Address) | Disconnect | DisconnectConfigd
  | SendTo (a : Address) (rq : MmbpRequest) | SendFetch
  | RunShell (s : string) | ClearScreen | SaveHistory (l : list string) | Wait.

(** A line typed ([None] at the end of the input), a configuration, a response. *)
Inductive ConsoleEvent := Input (line : option bytes) | ConfigReceived (m : Configuration) | Responded (r : MmbpResponse).

Section console.
Context {D : Type} `{!DictOps D Z (KeyValue Z Z)} `{HS : !HashFunc string} `{Strtod} `{StringView} `{ConsoleLib}.
Context (opt : CliOption) (junk : Z * Z * Z) (order : Configuration → list (Z * NodeConf)).
Implicit Types (con : Console D) (cl : ConfigdClient D) (cmd : string) (line : bytes).
#[local] Notation Result := (option (Console D * list ConsoleAction)).

Definition ShardNum cl : Z := d_size (T := KeyValue Z Z) (shard_node_idx_dict_ cl).

(** [SetPrompt]. *)
Definition prompt_text con : string :=
  let p := match p_conf_cli_ con with
           | Some _ => BLUE +:+ "config " +:+ EndpointToIpPort (configd_endpoint opt) +:+ RESET
           | None => ""
           end in
  let p := match client_ con with
           | Some a => (if String.eqb p "" then p else p +:+ " ") +:+ YELLOW +:+ "mmkv " +:+ ToIpPort a +:+ RESET
           | None => p
           end in
  p +:+ "> ".

Definition SetPrompt con : Console D :=
  MkConsole (client_ con) (p_conf_cli_ con) (prompt_text con) (current_cmd_ con) (current_peer_node_id con)
    (cur_cmd_ con) (upper_cur_cmd_ con) (is_exit con) (con_history con).

Definition with_conf con cl : Console D :=
  MkConsole (client_ con) (Some cl) (prompt_ con) (current_cmd_ con) (current_peer_node_id con)
    (cur_cmd_ con) (upper_cur_cmd_ con) (is_exit con) (con_history con).
Definition with_client con (a : Address) (node_id : Z) : Console D :=
  MkConsole (Some a) (p_conf_cli_ con) (prompt_ con) (current_cmd_ con) node_id
    (cur_cmd_ con) (upper_cur_cmd_ con) (is_exit con) (con_history con).
Definition with_current_cmd con (c : Z) : Console D :=
  MkConsole (client_ con) (p_conf_cli_ con) (prompt_ con) c (current_peer_node_id con)
    (cur_cmd_ con) (upper_cur_cmd_ con) (is_exit con) (con_history con).
Definition with_words con (w u : string) : Console D :=
  MkConsole (client_ con) (p_conf_cli_ con) (prompt_ con) (current_cmd_ con) (current_peer_node_id con)
    w u (is_exit con) (con_history con).
Definition with_exit con : Console D :=
  MkConsole (client_ con) (p_conf_cli_ con) (prompt_ con) (current_cmd_ con) (current_peer_node_id con)
    (cur_cmd_ con) (upper_cur_cmd_ con) true (con_history con).
Definition with_history con (l : list string) : Console D :=
  MkConsole (client_ con) (p_conf_cli_ con) (prompt_ con) (current_cmd_ con) (current_peer_node_id con)
    (cur_cmd_ con) (upper_cur_cmd_ con) (is_exit con) l.

(** The constructor and [Start]: the console connects to the daemon or to the server. *)
Definition console_new (cmd0 : Z) (history : list string) : Console D :=
  let none := MkConsole None None "" cmd0 (2 ^ 64 - 1) "" "" false history in
  SetPrompt (if is_conn_configd opt then with_conf none configd_client_new
             else with_client none (MkAddress (opt_host opt) (opt_port opt)) (2 ^ 64 - 1)).

(** ** Commands of the console *)

(** [printf("%*s", n, s)]. *)
Definition align (n : Z) (s : string) : string :=
  string_of_list_ascii (repeat " "%char (Z.to_nat (n - str_size s))) +:+ s.

Definition align_padding_size con : Z :=
  str_size (prompt_ con)
  - (match client_ con with Some _ => str_size YELLOW + str_size RESET | None => 0 end)
  - (match p_conf_cli_ con with Some _ => str_size BLUE + str_size RESET | None => 0 end).

Fixpoint history_lines (n i : Z) (l : list string) : list ConsoleAction :=
  match l with
  | [] => []
  | s :: l => Out (align n (if i =? 0 then "latest" else to_string i) +:+ ": " +:+ s +:+ NL) :: history_lines n (i + 1) l
  end.

(** [CliCommandProcess]; [None] when it returns false. *)
Definition CliCommandProcess cmd con : option (Console D * list ConsoleAction) :=
  c ← GetCliCommand cmd;
  Some (match c with
        | CLI_HELP => (con, [Out GetHelp])
        | CLI_EXIT | CLI_QUIT =>
            (with_exit con, (match client_ con with Some _ => [Disconnect] | None => [] end)
                            ++ (match p_conf_cli_ con with Some _ => [DisconnectConfigd] | None => [] end))
        | CLI_HISTORY => (con, history_lines (align_padding_size con) 0 (rev (con_history con)))
        | CLI_CLEAR => (con, [ClearScreen])
        | CLI_CLEAR_HISTORY => (with_history con [], [SaveHistory []])
        end).

(** [ShellCommandProcess]; [None] when it returns false. *)
Definition ShellCommandProcess line : option (list ConsoleAction) :=
  match line with
  | c :: _ =>
      if Ascii.eqb c "!" then
        let shell_cmd := string_of_list_ascii (substr line 1 npos) in
        Some (RunShell shell_cmd :: if system shell_cmd then [Err ("SYNTAX ERROR: no command" +:+ NL)] else [])
      else None
  | [] => None
  end.

(** ** Nodes *)

(** [SelectNode], with [SetupMmkvClient]: the old client is destroyed. *)
Definition SelectNode (node_addr : Address) (node_id : Z) con : Console D * list ConsoleAction :=
  if bool_decide (client_ con = None) || negb (node_id =? current_peer_node_id con) then
    (SetPrompt (with_client con node_addr node_id),
      [Out ("Connecting node in " +:+ ToIpPort node_addr +:+ "..." +:+ NL); ConnectTo node_addr; Wait])
  else (con, []).

Definition ep_address (ep : NodeEndPoint) : Address := MkAddress (ep_host ep) (ep_port ep).

(** What a configuration command does with the tokens after it; [inr ()] is a syntax
    error. *)
Definition config_command (c : ConfigCommand) (tokens : list string) con cl : (Console D * list ConsoleAction) + () :=
  match c, tokens with
  | CONFIG_FETCH_CONF, _ => inl (con, [SendFetch; Wait])
  | CONFIG_SELECT, [t] =>
      match StringViewToU64 t with
      | None => inr ()
      | Some node_idx =>
          inl (match QueryNodeEndpointByNodeIdx node_idx cl with
               | Some ep => SelectNode (ep_address ep) (ep_node_id ep) con
               | None => (con, [Err ("INDEX ERROR: The index is invalid" +:+ NL)])
               end)
      end
  | CONFIG_CACL_SHARD, [k] =>
      inl (con, [if 0 <? ShardNum cl then Out ("The shard id is " +:+ to_string (MakeShardId k mod ShardNum cl) +:+ NL)
                 else Err ("ERROR: Can't calculate the shard id since there is no shard num from configd" +:+ NL)])
  | _, _ => inr ()
  end.

(** [ConfigCommandProcess]; [Some None] when it returns false. *)
Definition ConfigCommandProcess cmd line con : option (option (Console D * list ConsoleAction)) :=
  match GetConfigCommand cmd with
  | None => Some None
  | Some c =>
      match p_conf_cli_ con with
      | None => Some (Some (con, [Err ("ERROR: The address of configd is not specified!" +:+ NL)]))
      | Some cl =>
          ts ← Tokenizer.tokens (remove_prefix line (str_size cmd));
          Some (Some (match config_command c (map string_of_list_ascii ts) con cl with
                      | inl r => r
                      | inr _ => (con, [Err ("SYNTAX ERROR: " +:+ GetConfigCommandString c +:+ GetConfigCommandHint c +:+ NL)])
                      end))
      end
  end.

(** ** Commands of the server *)

Definition NO_NODES : string := "ERROR: There are no avaliable nodes can execute command!" +:+ NL.
Definition NO_KEY : string :=
  "WARN: Command without key don't gather response from all nodes now" +:+ NL
  +:+ "ie. The command will get the response from current selected node only" +:+ NL.
Definition NO_SELECTED : string :=
  "ERROR: There is no selected node" +:+ NL +:+ "You can select a node by SELECT command" +:+ NL
  +:+ "OR a node is selected by command with key" +:+ NL.

(** The node for a request: the actions, and whether it is then sent. *)
Definition choose_node (request : MmbpRequest) con : option (Console D * list ConsoleAction * bool) :=
  if is_conn_configd opt then
    if HasKey request then
      cl ← p_conf_cli_ con;
      if ShardNum cl =? 0 then Some (con, [Err NO_NODES], false)
      else
        '(cl, ret) ← QueryNodeEndpoint (MakeShardId (req_key request) mod ShardNum cl) cl;
        node_ep ← ret;
        let '(con, acts) := SelectNode (ep_address node_ep) (ep_node_id node_ep) (with_conf con cl) in
        Some (con, acts, true)
    else
      match client_ con with
      | None => Some (con, [Warn NO_KEY; Err NO_SELECTED], false)
      | Some _ => Some (con, [Warn NO_KEY], true)
      end
  else Some (con, [], true).

(** [MmkvCommandProcess]. *)
Definition MmkvCommandProcess cmd line con : Result :=
  match GetCommand cmd with
  | None => Some (con, [Err ("ERROR: invalid command: " +:+ cur_cmd_ con +:+ NL)])
  | Some c =>
      r ← Parse c (new_request junk) (remove_prefix line (str_size cmd));
      let con := with_current_cmd con (number_of_command c) in
      match r with
      | inr E_SYNTAX_ERROR =>
          name ← GetCommandString (number_of_command c);
          Some (con, [Err ("SYNTAX ERROR: " +:+ name +:+ GetCommandHint c +:+ NL)])
      | inr E_NO_COMMAND => None
      | inl request =>
          '(con, acts, ok) ← choose_node request con;
          if ok : bool then a ← client_ con; Some (con, acts ++ [SendTo a request; Wait]) else Some (con, acts)
      end
  end.

(** [ConsoleIoProcess]; the end of the input is a null pointer given to [strlen]. *)
Definition ConsoleIoProcess (input : option bytes) con : Result :=
  line ← input;
  match line with
  | [] => Some (con, [Err ("SYNTAX ERROR: no command" +:+ NL)])
  | _ =>
      let space_pos := find line " " 0 in
      let word := substr line 0 space_pos in
      let con := with_words con (string_of_list_ascii word) (string_of_list_ascii (ToUpperString word)) in
      let cmd := upper_cur_cmd_ con in
      match CliCommandProcess cmd con with
      | Some (con, acts) => Some (con, acts ++ if is_exit con then [Wait] else [])
      | None =>
          let con := with_history con (history_add (con_history con) (string_of_list_ascii line)) in
          let save := [SaveHistory (con_history con)] in
          match ShellCommandProcess line with
          | Some acts => Some (con, save ++ acts)
          | None =>
              r ← ConfigCommandProcess cmd line con;
              match r with
              | Some (con, acts) => Some (con, save ++ acts)
              | None => '(con, acts) ← MmkvCommandProcess cmd line con; Some (con, save ++ acts)
              end
          end
      end
  end.

(** ** Messages *)

(** The lines of [PrintNodeConfiguration]. *)
Fixpoint node_lines (node_idx : Z) (nodes : list (Z * NodeConf)) : list ConsoleAction :=
  match nodes with
  | [] => []
  | (_, nc) :: nodes =>
      Out ("[" +:+ to_string node_idx +:+ "]: " +:+ nc_host nc +:+ ":" +:+ to_string (nc_mmkvd_port nc)
           +:+ " (#=" +:+ to_string (Z.of_nat (length (nc_shard_ids nc))) +:+ "){" +:+ shards_text (nc_shard_ids nc) +:+ "}" +:+ NL)
      :: node_lines (node_idx + 1) nodes
  end.

(** [PrintNodeConfiguration] sorts the shards in place. *)
Definition sort_shards (nc : NodeConf) : NodeConf :=
  MkNodeConf (nc_port nc) (nc_host nc) (nc_mmkvd_port nc) (merge_sort Z.le (nc_shard_ids nc)).
Definition PrintNodeConfiguration cl : ConfigdClient D * list ConsoleAction :=
  (MkConfigdClient (shard_node_idx_dict_ cl) (node_idx_node_ep_map_ cl) (sort_shards <$> node_conf_map_ cl),
    node_lines 0 (order (node_conf_map_ cl))).

(** The callbacks that [SetupConfigClient] and [SetupMmkvClient] install. *)
Definition console_step (e : ConsoleEvent) con : Result :=
  match e with
  | Input line => ConsoleIoProcess line con
  | ConfigReceived m =>
      cl ← p_conf_cli_ con;
      cl ← OnMessage order m cl;
      let '(cl, acts) := PrintNodeConfiguration cl in
      Some (with_conf con cl, Out ("Success!" +:+ NL) :: acts)
  | Responded r => s ← ResponsePrinter_Printf (current_cmd_ con) r; Some (con, [Out s])
  end.

Fixpoint console_run (es : list ConsoleEvent) con : Result :=
  match es with
  | [] => Some (con, [])
  | e :: es =>
      '(con, out) ← console_step e con;
      '(con, out') ← console_run es con;
      Some (con, out ++ out')
  end.

(** ** Hints *)

(** [RegisterCommandHints] for one kind of command. *)
Definition RegisterCommandHints (es : list (string * string)) (line_len : Z) (cmd : string) : list string :=
  flat_map (λ e, if str_size e.1 <? line_len then []
                 else if bool_decide (str_bytes cmd `prefix_of` str_bytes e.1) then [e.1 +:+ e.2] else []) es.

Definition OnCommandHint line : list string :=
  let blank_pos := find line " " 0 in
  let blank_pos := if blank_pos =? npos then blen line else blank_pos in
  let cmd := string_of_list_ascii (ToUpperString (substr line 0 blank_pos)) in
  RegisterCommandHints command_entries (blen line) cmd ++ RegisterCommandHints cli_entries (blen line) cmd
  ++ RegisterCommandHints config_entries (blen line) cmd.
End console.
