(* ===== verification/ConsoleFacts.v ===== *)
(** * The console finds the node of a key

    A console that knows a configuration daemon: whatever lines were typed, responses
    printed and configurations of the controller received, a command with a key goes to
    the node to which the last configuration gives the shard of the key. *)

From Stdlib Require Import Ascii String.
From S2P Require Import Prelude Comparator AvlUtil AvlTree Dict HashTableBase HashTable TreeHashTable HashSet.
From S2P Require Import Dictionary Blist Cache ListCache Vset Kvdb KvdbSpec Mmbp MmbpCodec Storage Translator.
From S2P Require Import Controller ControllerFacts ConfigdClient Console.

(** ** Names *)

#[local] Instance CliCommand_eq_dec : EqDecision CliCommand.
Proof. solve_decision. Defined.
#[local] Instance ConfigCommand_eq_dec : EqDecision ConfigCommand.
Proof. solve_decision. Defined.

(** No command of the server has the name of another command, or of the shell. *)
Lemma command_strings_only : forallb (λ name, bool_decide (GetCliCommand name = None) && bool_decide (GetConfigCommand name = None)
  && match str_bytes name with c :: _ => negb (Ascii.eqb c "!") | [] => false end) command_strings = true.
Proof. by vm_compute. Qed.

Lemma GetCommand_only name c : GetCommand name = Some c →
  GetCliCommand name = None ∧ GetConfigCommand name = None ∧ ∃ x l, str_bytes name = x :: l ∧ x ≠ "!"%char.
Proof.
  unfold GetCommand. destruct (list_find (name =.) command_strings) as [[i s]|] eqn:E; [|done]. intros _.
  apply list_find_Some in E as (Hi & <- & _). apply list_elem_of_lookup_2 in Hi.
  pose proof (proj1 (forallb_forall _ _) command_strings_only name (proj1 (list_elem_of_In _ _) Hi)) as Hb.
  apply andb_true_iff in Hb as [[Hc%bool_decide_eq_true Hf%bool_decide_eq_true]%andb_true_iff Hs].
  split_and!; [done..|]. destruct (str_bytes name) as [|x l]; [done|]. exists x, l. split; [done|].
  intros ->. by rewrite Ascii.eqb_refl in Hs.
Qed.

(** ** What the console knows *)

Section facts.
Context {D : Type} `{!DictOps D Z (KeyValue Z Z)} `{!DictLaws D Z (KeyValue Z Z) TO_GK} `{HS : !HashFunc string}.
Context `{Strtod} `{StringView} `{ConsoleLib}.
Context (opt : CliOption) (junk : Z * Z * Z) (order : Configuration → list (Z * NodeConf)).
Context (S : Z) (hosts : Z → Address).
Context (S_range : 0 < S < 2 ^ 31) (order_perm : ∀ m, order m ≡ₚ map_to_list m) (keys_ok : ∀ s, 0 ≤ s < S → d_key_ok s).
Implicit Types (con : Console D) (cl : ConfigdClient D) (m : Configuration) (mo : option Configuration).

Definition node_address (id : Z) (nc : NodeConf) : Address := ep_address (end_point id nc).

(** The nodes of a configuration have the addresses [hosts]. *)
Definition agrees_on m : Prop := ∀ id nc, m !! id = Some nc → node_address id nc = hosts id.

(** A configuration of the cluster. *)
Definition cluster m : Prop := shards m ≡ₚ seqZ 0 S ∧ agrees_on m.

Definition nodes_of mo : list (Z * NodeConf) := from_option order [] mo.

(** The configuration client has indexed the last configuration [mo]. *)
Definition indexes mo (n : Z) cl : Prop :=
  dict_is 0 n (shard_node_idx_dict_ cl)
  ∧ (∀ s, is_Some (kv_view (shard_node_idx_dict_ cl) !! s) ↔ is_Some mo ∧ 0 ≤ s < S)
  ∧ indexed (node_idx_node_ep_map_ cl) (nodes_of mo) (shard_node_idx_dict_ cl)
  ∧ node_idx_node_ep_map_ cl = map (λ p, end_point p.1 p.2) (nodes_of mo).

(** The console has that client, and the address of the node it is connected to. *)
Definition knows mo (n : Z) con : Prop :=
  (∃ cl, p_conf_cli_ con = Some cl ∧ indexes mo n cl)
  ∧ (∀ a, client_ con = Some a → a = hosts (current_peer_node_id con))
  ∧ from_option cluster True mo.

Lemma knows_same mo n con con' :
  p_conf_cli_ con' = p_conf_cli_ con → client_ con' = client_ con → current_peer_node_id con' = current_peer_node_id con →
  knows mo n con → knows mo n con'.
Proof. intros Hp Hc Hi. unfold knows. by rewrite Hp, Hc, Hi. Qed.

Lemma knows_weaken mo n n' con : n ≤ n' → knows mo n con → knows mo n' con.
Proof.
  intros Hn ((cl & Hcl & Hd & Hrest) & Hsel). split; [|done]. exists cl. split; [done|]. split; [|done].
  eapply dict_is_weaken; [exact Hd|lia].
Qed.

Lemma index_nodes_eps (nodes : list (Z * NodeConf)) : ∀ (d d' : D) eps eps',
  index_nodes d eps nodes = Some (d', eps') → eps' = eps ++ map (λ p, end_point p.1 p.2) nodes.
Proof.
  induction nodes as [|[id nc] nodes IH]; intros d d' eps eps'; cbn [index_nodes].
  { intros [= _ <-]. by rewrite app_nil_r. }
  destruct (index_shards _ _ _) as [d1|]; [|done]. cbn [mbind option_bind]. intros ->%IH. by rewrite <-app_assoc.
Qed.

(** A configuration arrives. *)
Lemma indexes_message mo n m cl :
  indexes mo n cl → n + S ≤ max_elems → shards m ≡ₚ seqZ 0 S →
  ∃ cl', OnMessage order m cl = Some cl' ∧ indexes (Some m) (n + S) cl'.
Proof.
  intros (Hd & Hdom & _) Hn Hsh. assert (shards_of (order m) ≡ₚ seqZ 0 S) as Hp by (by rewrite (order_perm m)).
  assert (Z.of_nat (length (shards_of (order m))) = S) as Hlen by (rewrite Hp, length_seqZ; lia).
  assert (∀ s, s ∈ shards_of (order m) ↔ 0 ≤ s < S) as Hin by (intros s; rewrite Hp, elem_of_seqZ; lia).
  destruct (index_nodes_spec 0 (order m) n (shard_node_idx_dict_ cl) [] [] Hd) as (d & eps & Hi & Hd' & Hix & Hout); [lia| |by intros s ?%not_elem_of_nil|].
  { apply Forall_forall. intros s Hs%Hin. by apply keys_ok. }
  unfold OnMessage. rewrite Hi. cbn [mbind option_bind]. eexists. split; [done|]. rewrite Hlen in Hd'.
  unfold indexes. cbn [shard_node_idx_dict_ node_idx_node_ep_map_ nodes_of from_option]. split_and!; [done| |done|].
  - intros s. split.
    + intros Hs. split; [by eexists|]. destruct (decide (0 ≤ s < S)) as [?|Hns]; [done|].
      rewrite Hout in Hs by (by rewrite Hin). by apply Hdom in Hs as [_ ?].
    + intros [_ Hs%Hin]. destruct (Hix s Hs) as (i & ? & ? & -> & _). by eexists.
  - by apply index_nodes_eps in Hi.
Qed.

(** ** Choosing a node *)

(** A client that has indexed a configuration knows how many shards there are. *)
Lemma indexes_ShardNum mo n cl : indexes mo n cl → ShardNum cl = from_option (λ _, S) 0 mo.
Proof.
  intros ((dr & Hw & Hdr & _) & Hdom & _). unfold ShardNum. rewrite (d_size_lawx _ _ Hw), Hdr, <-kv_view_size, Z.add_0_r.
  set (v := kv_view (shard_node_idx_dict_ cl)) in *. destruct mo as [m|]; cbn [from_option] in *.
  - assert (dom v = list_to_set (seqZ 0 S)) as Hv.
    { apply set_eq. intros s. rewrite elem_of_dom, Hdom, elem_of_list_to_set, elem_of_seqZ. split; [lia|]. split; [by eexists|lia]. }
    rewrite <-size_dom, Hv, size_list_to_set by apply NoDup_seqZ. rewrite length_seqZ, Z2Nat.id by lia. apply u64_small. lia.
  - assert (v = ∅) as ->; [|done]. apply map_eq. intros s. rewrite lookup_empty. apply eq_None_not_Some. rewrite Hdom. by intros [[? [=]] _].
Qed.

(** A shard is found at the node that holds it. *)
Lemma indexes_query m n cl s : indexes (Some m) n cl → cluster m → 0 ≤ s < S →
  ∃ cl' id nc, QueryNodeEndpoint s cl = Some (cl', Some (end_point id nc)) ∧ m !! id = Some nc ∧ s ∈ nc_shard_ids nc ∧ indexes (Some m) n cl'.
Proof.
  intros (Hd & Hdom & Hix & Heps) [Hsh _] Hs. destruct (Hix s) as (i & id & nc & Hv & Hep & Hno & Hsn).
  { cbn [nodes_of from_option]. rewrite (order_perm m). fold (shards m). rewrite Hsh, elem_of_seqZ. lia. }
  destruct (find_is 0 n (shard_node_idx_dict_ cl) s Hd (keys_ok s Hs)) as (d & Hf & Hd' & Hvd).
  unfold QueryNodeEndpoint. rewrite Hf, Hv. cbn [mbind option_bind fmap option_fmap option_map value]. rewrite Nat2Z.id.
  cbn [node_idx_node_ep_map_]. rewrite Hep. cbn [mbind option_bind]. eexists _, id, nc. split_and!; [done| |done|].
  - by rewrite (order_perm m), elem_of_map_to_list in Hno.
  - unfold indexes. cbn [shard_node_idx_dict_ node_idx_node_ep_map_]. unfold indexed. by rewrite Hvd.
Qed.

(** A node is found by its index. *)
Lemma indexes_by_index mo n cl i ep : indexes mo n cl → QueryNodeEndpointByNodeIdx i cl = Some ep →
  ∃ m id nc, mo = Some m ∧ m !! id = Some nc ∧ ep = end_point id nc.
Proof.
  intros (_ & _ & _ & Heps). unfold QueryNodeEndpointByNodeIdx. destruct (_ <=? i); [done|]. rewrite Heps.
  intros Hl. apply list_elem_of_lookup_2, list_elem_of_fmap in Hl as ([id nc] & -> & Hin).
  destruct mo as [m|]; cbn [nodes_of from_option] in Hin; [|by apply not_elem_of_nil in Hin].
  exists m, id, nc. by rewrite (order_perm m), elem_of_map_to_list in Hin.
Qed.

Lemma knows_select m n con id nc con' acts :
  knows (Some m) n con → m !! id = Some nc → SelectNode opt (node_address id nc) id con = (con', acts) →
  knows (Some m) n con' ∧ client_ con' = Some (node_address id nc).
Proof.
  intros (Hcl & Hsel & Hm) Hid. pose proof (proj2 Hm id nc Hid) as Ha. unfold SelectNode.
  destruct (client_ con) as [a|] eqn:Ec; cbn [bool_decide].
  - rewrite bool_decide_eq_false_2 by done. destruct (Z.eqb_spec id (current_peer_node_id con)) as [->|Hne]; cbn [orb negb]; intros [= <- <-].
    + rewrite Ha, <-(Hsel a eq_refl). split; [|done]. split; [done|]. split; [|done]. intros a' Ha'. apply Hsel. congruence.
    + split; [|done]. split; [done|]. split; [|done]. by intros a' [= <-].
  - rewrite bool_decide_eq_true_2 by done. cbn [orb]. intros [= <- <-]. split; [|done]. split; [done|]. split; [|done]. by intros a' [= <-].
Qed.

(** The request of a key goes to the node that holds its shard. *)
Lemma choose_node_holder m n con rq :
  is_conn_configd opt = true → HasKey rq = true → knows (Some m) n con →
  ∃ con' acts id nc, choose_node opt rq con = Some (con', acts, true) ∧ knows (Some m) n con'
    ∧ client_ con' = Some (node_address id nc) ∧ m !! id = Some nc ∧ MakeShardId (req_key rq) mod S ∈ nc_shard_ids nc.
Proof.
  intros Ho Hk Hkn. pose proof Hkn as ((cl & Hp & Hix) & Hsel & Hm). unfold choose_node. rewrite Ho, Hk, Hp. cbn [mbind option_bind].
  pose proof (indexes_ShardNum _ _ _ Hix) as ->. cbn [from_option]. destruct (Z.eqb_spec S 0) as [?|_]; [lia|].
  destruct (indexes_query m n cl (MakeShardId (req_key rq) mod S) Hix Hm ltac:(apply Z.mod_pos_bound; lia)) as (cl' & id & nc & -> & Hid & Hs & Hix').
  cbn [mbind option_bind]. change (ep_address (end_point id nc)) with (node_address id nc). change (ep_node_id (end_point id nc)) with id.
  destruct (SelectNode opt (node_address id nc) id (with_conf con cl')) as [con' acts] eqn:Es.
  eapply (knows_select m n) in Es as [Hkn' Hc]; [|split; [by exists cl'|done]|done]. by exists con', acts, id, nc.
Qed.

(** ** Lines *)

Lemma choose_node_knows mo n con rq con' acts ok :
  knows mo n con → choose_node opt rq con = Some (con', acts, ok) → knows mo n con'.
Proof.
  intros Hkn. unfold choose_node. destruct (is_conn_configd opt) eqn:Ho; [|by intros [= <- _ _]].
  destruct (HasKey rq) eqn:Hk; [|destruct (client_ con); by intros [= <- _ _]].
  pose proof Hkn as ((cl & Hp & Hix) & _). destruct mo as [m|].
  - destruct (choose_node_holder m n con rq Ho Hk Hkn) as (con1 & acts1 & id & nc & Hc & Hkn' & _).
    unfold choose_node in Hc. rewrite Ho, Hk in Hc. rewrite Hc. by intros [= <- _ _].
  - rewrite Hp. cbn [mbind option_bind]. rewrite (indexes_ShardNum _ _ _ Hix). by intros [= <- _ _].
Qed.

Lemma config_command_knows mo n c ts con cl con' acts :
  knows mo n con → p_conf_cli_ con = Some cl → config_command opt c ts con cl = inl (con', acts) → knows mo n con'.
Proof.
  intros Hkn Hp. pose proof Hkn as ((cl0 & Hp0 & Hix) & _). assert (cl0 = cl) as -> by congruence.
  unfold config_command. destruct c; [by intros [= <- _]|destruct ts as [|t [|? ?]]; [done| |done]..].
  - by intros [= <- _].
  - destruct (StringViewToU64 t) as [i|]; [|done]. destruct (QueryNodeEndpointByNodeIdx i cl) as [ep|] eqn:Eq; [|by intros [= <- _]].
    destruct (indexes_by_index _ _ _ _ _ Hix Eq) as (m & id & nc & -> & Hid & ->). intros [= Es]. by eapply (knows_select m n) in Es as [? _].
Qed.

Lemma cli_command_knows mo n cmd con con' acts : knows mo n con → CliCommandProcess cmd con = Some (con', acts) → knows mo n con'.
Proof. intros Hkn. unfold CliCommandProcess. destruct (GetCliCommand cmd) as [c|]; [|done]. destruct c; by intros [= <- _]. Qed.

Lemma mmkv_command_knows mo n cmd line con con' acts :
  knows mo n con → MmkvCommandProcess opt junk cmd line con = Some (con', acts) → knows mo n con'.
Proof.
  intros Hkn. unfold MmkvCommandProcess. destruct (GetCommand cmd) as [c|]; [|by intros [= <- _]].
  destruct (Parse _ _ _) as [[rq|e]|]; [| |done]; cbn [mbind option_bind].
  - destruct (choose_node opt rq (with_current_cmd con (number_of_command c))) as [[[con1 acts1] ok]|] eqn:Ec; [|done].
    apply (choose_node_knows mo n) in Ec; [|done]. cbn [mbind option_bind]. destruct ok; [|by intros [= <- _]].
    destruct (client_ con1); [|done]. by intros [= <- _].
  - destruct e; [|done]. destruct (GetCommandString _); [|done]. by intros [= <- _].
Qed.

Lemma input_knows mo n line con con' acts : knows mo n con → ConsoleIoProcess opt junk line con = Some (con', acts) → knows mo n con'.
Proof.
  intros Hkn. unfold ConsoleIoProcess. destruct line as [[|x line]|]; [by intros [= <- _]| |done]. cbn [mbind option_bind].
  set (w := with_words _ _ _). destruct (CliCommandProcess (upper_cur_cmd_ w) w) as [[con1 acts1]|] eqn:E1.
  { intros [= <- _]. by eapply (cli_command_knows mo n) in E1. }
  set (h := with_history _ _). assert (knows mo n h) as Hh by done.
  destruct (ShellCommandProcess (x :: line)); [by intros [= <- _]|].
  destruct (ConfigCommandProcess opt (upper_cur_cmd_ w) (x :: line) h) as [[[con1 acts1]|]|] eqn:E2; [| |done]; cbn [mbind option_bind].
  - intros [= <- _]. unfold ConfigCommandProcess in E2. destruct (GetConfigCommand _) as [c|]; [|done].
    destruct (p_conf_cli_ h) as [cl|] eqn:Ep; [|by injection E2 as <- _]. destruct (Tokenizer.tokens _) as [ts|]; [|done]. cbn [mbind option_bind] in E2.
    destruct (config_command opt c _ h cl) as [[con2 acts2]|] eqn:Ec; injection E2 as <- _; [|done]. by eapply config_command_knows.
  - destruct (MmkvCommandProcess _ _ _ _ h) as [[con2 acts2]|] eqn:E3; [|done]. intros [= <- _]. by eapply mmkv_command_knows.
Qed.

(** ** Runs *)

(** Configurations are the controller's, with nodes; lines and responses are any. *)
Definition from_controller (out : list Output) (e : ConsoleEvent) : Prop :=
  match e with ConfigReceived m => SyncConfig m ∈ out ∧ m ≠ ∅ | _ => True end.

(** The last configuration received. *)
Fixpoint last_config (mo : option Configuration) (es : list ConsoleEvent) : option Configuration :=
  match es with [] => mo | ConfigReceived m :: es => last_config (Some m) es | _ :: es => last_config mo es end.

Lemma step_knows mo n e con con' acts :
  knows mo n con → n + S ≤ max_elems → (∀ m, e = ConfigReceived m → cluster m) →
  console_step opt junk order e con = Some (con', acts) → knows (last_config mo [e]) (n + S) con'.
Proof.
  intros Hkn Hn He. destruct e as [line|m|r]; cbn [console_step last_config].
  - intros Hc. apply (knows_weaken mo n); [lia|]. by eapply input_knows.
  - pose proof Hkn as ((cl & Hp & Hix) & Hsel & _). rewrite Hp. cbn [mbind option_bind].
    destruct (indexes_message mo n m cl Hix Hn (proj1 (He m eq_refl))) as (cl' & -> & Hix'). cbn [mbind option_bind PrintNodeConfiguration].
    intros [= <- _]. split; [by eexists|]. split; [done|]. by apply He.
  - destruct (ResponsePrinter_Printf _ _); [|done]. intros [= <- _]. apply (knows_weaken mo n); [lia|done].
Qed.

Lemma run_knows es : ∀ mo n con con' acts,
  knows mo n con → n + Z.of_nat (length es) * S ≤ max_elems → (∀ m, ConfigReceived m ∈ es → cluster m) →
  console_run opt junk order es con = Some (con', acts) → knows (last_config mo es) (n + Z.of_nat (length es) * S) con'.
Proof.
  induction es as [|e es IH]; intros mo n con con' acts Hkn Hn He; cbn [console_run].
  { intros [= <- _]. cbn [length last_config]. by replace (n + Z.of_nat 0 * S) with n by lia. }
  destruct (console_step opt junk order e con) as [[con1 acts1]|] eqn:E; [|done]. cbn [mbind option_bind].
  cbn [length] in Hn. apply (step_knows mo n) in E; [|done|nia|intros m ->; apply He; by left].
  destruct (console_run opt junk order es con1) as [[con2 acts2]|] eqn:E2; [|done]. cbn [mbind option_bind]. intros [= <- _].
  apply (IH (last_config mo [e]) (n + S)) in E2; [|done|lia|intros m Hm; apply He; by right].
  cbn [length]. replace (n + Z.of_nat (Datatypes.S (length es)) * S) with (n + S + Z.of_nat (length es) * S) by lia.
  destruct e; exact E2.
Qed.

Lemma new_knows cmd0 history : is_conn_configd opt = true → knows None 0 (console_new (D := D) opt cmd0 history).
Proof.
  intros Ho. unfold console_new. rewrite Ho. split; [|done]. eexists. split; [done|]. destruct (init_is 0 ltac:(lia)) as [Hi Hv].
  split_and!; [done| | |done].
  - intros s. cbn [configd_client_new shard_node_idx_dict_]. rewrite Hv, lookup_empty. split; [by intros [? [=]]|by intros [[? [=]] _]].
  - by intros s ?%not_elem_of_nil.
Qed.
End facts.

(** ** A command with a key *)

Section reaches.
Context {D : Type} `{!DictOps D Z (KeyValue Z Z)} `{!DictLaws D Z (KeyValue Z Z) TO_GK} `{HS : !HashFunc string}.
Context `{Strtod} `{StringView, !StringViewLaws} `{ConsoleLib, !ConsoleLibLaws}.
Context (opt : CliOption) (junk : Z * Z * Z) (order : Configuration → list (Z * NodeConf)).

(** A line: a word without spaces, a space and the rest. *)
Definition line_of (word rest : bytes) : bytes := word ++ " "%char :: rest.

Definition no_space (word : bytes) : Prop := Forall (λ x, Ascii.eqb " " x = false) word.

Lemma line_word word rest : no_space word → blen (line_of word rest) < npos → substr (line_of word rest) 0 (find (line_of word rest) " " 0) = word.
Proof.
  intros Hw Hl. assert (0 ≤ blen word) by (unfold blen; lia). rewrite find_law by done. unfold first_from. rewrite drop_0.
  assert (span_length (Ascii.eqb " ") (line_of word rest) = Some (length word)) as ->.
  { clear Hl. unfold line_of. induction Hw as [|x word Hx Hw IH]; [done|]. cbn [app span_length length]. by rewrite Hx, IH by (unfold blen; lia). }
  rewrite substr_law by lia. unfold line_of in *. rewrite blen_app in *. unfold blen in *. cbn [length] in *.
  replace (Z.to_nat _) with (length word) by lia. apply take_app_length.
Qed.

Lemma line_rest word rest : blen (line_of word rest) < npos →
  Tokenizer.tokens (remove_prefix (line_of word rest) (blen word)) = Some (Tokenizer.words rest).
Proof.
  intros Hl. unfold line_of in *. rewrite blen_app in Hl. assert (0 ≤ blen word) by (unfold blen; lia).
  rewrite remove_prefix_law by (rewrite blen_app; unfold blen; lia). unfold blen at 1. rewrite Nat2Z.id, drop_app_length.
  rewrite Tokenizer.tokens_are_words by (unfold blen in *; lia). done.
Qed.

(** The console sends a command with a key. *)
Lemma keyed_line S hosts m n con word rest c rq :
  0 < S < 2 ^ 31 → (∀ m, order m ≡ₚ map_to_list m) → (∀ s, 0 ≤ s < S → d_key_ok s) → is_conn_configd opt = true →
  knows (D := D) order S hosts (Some m) n con → no_space word → blen (line_of word rest) < npos →
  GetCommand (string_of_list_ascii (map upper_char word)) = Some c →
  parse_tokens c (new_request junk) (map string_of_list_ascii (Tokenizer.words rest)) = Some (inl rq) → HasKey rq = true →
  ∃ con' acts id nc, ConsoleIoProcess opt junk (Some (line_of word rest)) con = Some (con', acts ++ [SendTo (node_address id nc) rq; Wait])
    ∧ m !! id = Some nc ∧ MakeShardId (req_key rq) mod S ∈ nc_shard_ids nc.
Proof.
  intros HSr Hord Hk Ho Hkn Hw Hl Hc Hp Hkey. destruct (GetCommand_only _ _ Hc) as (Hcli & Hcfg & x & l & Hx & Hne).
  unfold str_bytes in Hx. rewrite list_ascii_of_string_of_list_ascii in Hx. destruct word as [|x0 word]; [done|]. injection Hx as Hx0 _.
  unfold ConsoleIoProcess. cbn [mbind option_bind]. destruct (line_of (x0 :: word) rest) as [|y line] eqn:El; [done|].
  rewrite <-El in *. rewrite line_word, ToUpperString_law by done. cbn [upper_cur_cmd_ with_words].
  unfold CliCommandProcess. rewrite Hcli. cbn [mbind option_bind].
  assert (ShellCommandProcess (line_of (x0 :: word) rest) = None) as ->.
  { unfold ShellCommandProcess. cbn [line_of app]. destruct (Ascii.eqb_spec x0 "!") as [->|]; [|done]. by subst x. }
  unfold ConfigCommandProcess. rewrite Hcfg. cbn [mbind option_bind]. unfold MmkvCommandProcess. rewrite Hc. unfold Parse.
  assert (str_size (string_of_list_ascii (map upper_char (x0 :: word))) = blen (x0 :: word)) as ->.
  { rewrite <-str_bytes_length. unfold str_bytes, blen. by rewrite list_ascii_of_string_of_list_ascii, length_map. }
  rewrite line_rest by done. cbn [mbind option_bind]. rewrite Hp. cbn [mbind option_bind].
  set (con0 := with_current_cmd _ _). assert (knows order S hosts (Some m) n con0) as Hkn0 by done.
  destruct (choose_node_holder opt order S hosts HSr Hord Hk m n con0 rq Ho Hkey Hkn0) as (con' & acts & id & nc & -> & _ & Hcl & Hid & Hs).
  cbn [mbind option_bind]. rewrite Hcl. cbn [mbind option_bind]. eexists con', _, id, nc. split; [by rewrite app_assoc|done].
Qed.

(** C19: a console that knows the configuration daemon, whatever was typed, printed and
    received before, in a cluster that no node has asked to leave: the line of a command
    of the server with a key is sent to the address of a node to which the last
    configuration received gives the shard of the key.  The configurations received are
    ones the controller has sent out, not empty, and together no more than 2^61 shards;
    and every node id has the same address in all the controller sends out ([hosts]):
    [SelectNode] compares ids only, and keeps the old connection. *)
Theorem console_reaches_holder S es c out hosts evs cmd0 history con acts m word rest cm rq :
  0 < S < 2 ^ 31 → Forall no_leave es → controller_run es (controller_new S) = Some (c, out) →
  (∀ m, SyncConfig m ∈ out → agrees_on hosts m) → (∀ m, order m ≡ₚ map_to_list m) → (∀ s, 0 ≤ s < S → d_key_ok s) →
  is_conn_configd opt = true → Forall (from_controller out) evs → Z.of_nat (length evs) * S ≤ max_elems →
  console_run opt junk order evs (console_new (D := D) opt cmd0 history) = Some (con, acts) → last_config None evs = Some m →
  no_space word → blen (line_of word rest) < npos → GetCommand (string_of_list_ascii (map upper_char word)) = Some cm →
  parse_tokens cm (new_request junk) (map string_of_list_ascii (Tokenizer.words rest)) = Some (inl rq) → HasKey rq = true →
  ∃ con' acts' id nc, console_step opt junk order (Input (Some (line_of word rest))) con = Some (con', acts' ++ [SendTo (node_address id nc) rq; Wait])
    ∧ m !! id = Some nc ∧ MakeShardId (req_key rq) mod S ∈ nc_shard_ids nc.
Proof.
  intros HSr Hes Hrun Hag Hord Hk Ho Hev Hlen Hcon Hlast Hw Hl Hc Hp Hkey. destruct (run_sound S es c out HSr Hes Hrun) as [_ Hout].
  apply (run_knows opt junk order S hosts HSr Hord Hk evs None 0) in Hcon; [|by apply new_knows|lia|].
  - rewrite Hlast in Hcon. by eapply keyed_line.
  - intros m' Hm'. destruct (proj1 (Forall_forall _ _) Hev _ Hm') as [Hs Hne].
    destruct (proj1 (Forall_forall _ _) Hout _ Hs) as [?|(Hsh & _ & _)]; [done|]. split; [done|by apply Hag].
Qed.
End reaches.
