(* ===== verification/ConsoleExamples.v ===== *)
(** * Concrete consoles

    The library functions with the meaning that kanon documents, a console of the cluster
    of three nodes, and lines typed at it. *)

From Stdlib Require Import Ascii String.
From S2P Require Import Prelude Comparator AvlUtil AvlTree Dict HashTableBase HashTable TreeHashTable HashSet.
From S2P Require Import Dictionary Blist Cache ListCache Vset Kvdb KvdbSpec KvdbValues KvdbRefine KvdbCalls.
From S2P Require Import KvdbFacts KvdbErrors KvdbFrame KvdbExamples Mmbp MmbpCodec MmbpExamples.
From S2P Require Import Storage StorageFacts StorageRefine Server ServerExamples Translator TranslatorFacts TranslatorExamples.
From S2P Require Import Controller ControllerFacts ControllerErrors ConfigdClient ControllerExamples Console ConsoleFacts.

Module ConsoleExamples.
Import KvdbExamples MmbpExamples ServerExamples TranslatorExamples ControllerExamples.
Open Scope string_scope.
Open Scope Z_scope.
Open Scope list_scope.

#[local] Existing Instance HashString.
#[local] Existing Instance ControllerExamples.HashZ.

(** [system] always succeeds; doubles are printed as their bits. *)
#[export] Instance library : ConsoleLib := {|
  ToUpperString := map upper_char;
  substr b s n := take (Z.to_nat (Z.min n (blen b - s))) (drop (Z.to_nat s) b);
  remove_prefix b n := drop (Z.to_nat n) b;
  StringViewToU64 := strtoull;
  ToIpPort a := addr_host a +:+ ":" +:+ to_string (addr_port a);
  EndpointToIpPort s := s;
  history_add l s := app l [s];
  system _ := false;
  show_double := to_string;
|}.

#[export] Instance library_laws : ConsoleLibLaws.
Proof. split; [done| |done]. intros b n Hn. cbn [substr library]. by rewrite Z.sub_0_r, drop_0. Qed.

Definition opt : CliOption := MkCliOption "127.0.0.1" 9998 "10.0.0.9:9996".

(** Three nodes join from three hosts. *)
Definition net_at (host : string) (ids : list Z) : Net := MkNet host ids map_to_list (λ _, true) (λ _, []).
Lemma net_at_fine host ids : net_ok (net_at host ids).
Proof. by intros m. Qed.

Definition join_at (conn : Z) (host : string) (id : Z) : list Event :=
  [Message conn (net_at host [id]) (message CONTROL_OP_ADD_NODE INVALID_NODE_ID []);
   Message conn (net_at host []) (message CONTROL_OP_ADD_NODE_COMPLETE id [])].
Definition joins : list Event := connects ++ join_at 1 "10.0.0.1" 11 ++ join_at 2 "10.0.0.2" 22 ++ join_at 3 "10.0.0.3" 33.
Definition cluster_out : list Output := match controller_run joins (controller_new 10) with Some (_, out) => out | None => [] end.
Definition synced : Configuration := config_ (after 10 joins).

Definition hosts (id : Z) : Address :=
  MkAddress (if id =? 11 then "10.0.0.1" else if id =? 22 then "10.0.0.2" else "10.0.0.3") 9997.

(** The console receives the configuration of three nodes; lines are typed. *)
Definition fresh : Console dict := console_new opt 0 [].
Definition typed (s : string) : ConsoleEvent := Input (Some (str_bytes s)).
Definition events : list ConsoleEvent := [ConfigReceived synced; typed "help"; typed "stradd a 1"; typed "select 1"].
Definition con : Console dict := match console_run opt junk map_to_list events fresh with Some (con, _) => con | None => fresh end.

Definition sent (r : option (Console dict * list ConsoleAction)) : list ConsoleAction :=
  match r with Some (_, l) => List.filter (λ a, match a with SendTo _ _ | ConnectTo _ | Err _ => true | _ => false end) l | None => [] end.

Definition get_key : MmbpRequest :=
  match parse_tokens STR_GET (new_request junk) ["key"] with Some (inl rq) => rq | _ => new_request junk end.

(** The controller's configurations have the addresses. *)
Lemma outputs_agree m : SyncConfig m ∈ cluster_out → agrees_on hosts m.
Proof.
  assert (forallb (λ o, match o with SyncConfig m => bool_decide (map_Forall (λ id nc, node_address id nc = hosts id) m) | _ => true end) cluster_out = true)
    as Hf by (by vm_compute).
  intros Hm%list_elem_of_In. exact (bool_decide_eq_true_1 _ (proj1 (forallb_forall _ _) Hf _ Hm)).
Qed.

Lemma console_reaches_holder_witness :
  ∃ con' acts' id nc,
    console_step opt junk map_to_list (typed "StrGet key") con = Some (con', acts' ++ [SendTo (node_address id nc) get_key; Wait])
    ∧ synced !! id = Some nc ∧ MakeShardId "key" mod 10 ∈ nc_shard_ids nc.
Proof.
  destruct (console_run opt junk map_to_list events fresh) as [[con' acts]|] eqn:Hc; [|by vm_compute in Hc].
  assert (con' = con) as -> by (unfold con; by rewrite Hc).
  apply (console_reaches_holder (D := dict) opt junk map_to_list 10 joins (after 10 joins) cluster_out hosts events 0 [] con acts synced
    (str_bytes "StrGet") (str_bytes "key") STR_GET get_key).
  - lia.
  - apply joins_no_leave; [by vm_compute|]. repeat (apply Forall_cons; split; [first [exact I | apply net_at_fine]|]). apply Forall_nil; exact I.
  - by vm_compute.
  - apply outputs_agree.
  - done.
  - done.
  - reflexivity.
  - apply Forall_cons. split; [|repeat (apply Forall_cons; split; [exact I|]); apply Forall_nil; exact I].
    split; [|apply (bool_decide_unpack _); by vm_compute]. vm_compute. repeat (first [left; reflexivity | right]).
  - by vm_compute.
  - exact Hc.
  - reflexivity.
  - repeat (apply Forall_cons; split; [reflexivity|]). apply Forall_nil; exact I.
  - by vm_compute.
  - reflexivity.
  - reflexivity.
  - reflexivity.
Defined.

(** Before a configuration has arrived there is no node. *)
Example no_nodes_yet : sent (console_step opt junk map_to_list (typed "strget key") fresh) = [Err NO_NODES].
Proof. by vm_compute. Qed.

(** A space in front of a command hides it. *)
Example space_in_front : sent (console_step opt junk map_to_list (typed " strget key") con) = [Err ("ERROR: invalid command: " +:+ NL)].
Proof. by vm_compute. Qed.

(** At the end of the input, [strlen] is given a null pointer. *)
Example end_of_input : console_step opt junk map_to_list (Input None) con = None.
Proof. reflexivity. Qed.

(** The answer of a server that is joining already stops the console. *)
Example processing_aborts (rs : MmbpResponse) : console_step opt junk map_to_list (Responded (res_code rs S_SHARD_PROCESSING)) con = None.
Proof. reflexivity. Qed.

(** A configuration without nodes, after one with nodes: the shards lead nowhere. *)
Example nodes_gone :
  match console_step opt junk map_to_list (ConfigReceived ∅) con with
  | Some (con, _) => console_step opt junk map_to_list (typed "strget key") con = None
  | None => False
  end.
Proof. by vm_compute. Qed.

(** Hints for what has been typed. *)
Example hints_lp : OnCommandHint (str_bytes "lpop") = ["LPOPFRONT key count"; "LPOPBACK key count"].
Proof. by vm_compute. Qed.

Example printed_list : ResponsePrinter_Printf 11 (SET_OK_VALUES (MkResponse 0 0 0 "" [] [] []) ["a"; "b"]) = Some ("{a, b}" +:+ NL).
Proof. by vm_compute. Qed.
End ConsoleExamples.
