(* ===== verification/ServerMain.v ===== *)
(** * Starting a server, and its cluster commands

    [mmkv/server/config.h], [config.cc], [mmkv/util/conv.cc], [mmkv/app/server_main.cc],
    and of [mmkv/server/mmkv_server.cc] the constructor, [Start] and the handling of
    [SHARD_JOIN] and [SHARD_LEAVE].

    The configuration is a Lua program; what its globals hold when it has run is a
    parameter ([LuaEnv]).  A text global that is missing leaves a pointer that is not
    valid, [None].  The debug log is on.  [None] is a failed assertion, an invalid
    pointer, or an abort. *)

From Stdlib Require Import Ascii String.
From S2P Require Import Prelude Comparator AvlUtil AvlTree Dict HashTableBase HashTable TreeHashTable HashSet.
From S2P Require Import Dictionary Blist Cache ListCache Vset Kvdb KvdbSpec Mmbp MmbpCodec Storage Translator.
From S2P Require Import Controller ControllerFacts ConfigdClient Joining Console.

(** ** The configuration *)

Inductive LogMethod := LM_REQUEST | LM_NONE.
Inductive ReplacePolicy := RP_LRU | RP_MRU | RP_LFU | RP_NONE.

Record MmkvConfig := MkConfig {
  cfg_log_method : LogMethod;
  cfg_replace_policy : ReplacePolicy;
  cfg_lazy_expiration : bool;
  cfg_max_memory_usage : Z;
  cfg_expiration_check_cycle : Z;
  cfg_request_log_location : string;
  cfg_diagnostic_log_dir : string;
  cfg_shard_controller_endpoint : string;
  cfg_sharder_endpoint : string;
  cfg_shard_num : Z;
  cfg_thread_num : Z;
  cfg_nodes : list string;
}.

Definition default_config : MmkvConfig :=
  MkConfig LM_NONE RP_NONE false 0 0 "/tmp/.mmkv-request.log" "" "" "*:19998" 1 1 [].

Definition IsSharder (config : MmkvConfig) : bool := negb (String.eqb (cfg_shard_controller_endpoint config) "").

(** Whether the file runs, its globals by type, its function [ParseMemoryUsage], and the
    elements of [DataNodes]. *)
Record LuaEnv := MkLuaEnv {
  DoFile : bool;
  lua_string : string → option string;
  lua_integer : string → option Z;
  lua_boolean : string → option bool;
  ParseMemoryUsage : string → Z;
  DataNodes : list string;
}.

Definition strcasecmp_eq (a b : string) : bool :=
  bool_decide (map upper_char (str_bytes a) = map upper_char (str_bytes b)).

(** [ParseMmkvConfig]: the configuration and the result; [ERROR_HANDLE] does nothing. *)
Definition ParseMmkvConfig (env : LuaEnv) (config : MmkvConfig) : option (MmkvConfig * bool) :=
  if negb (DoFile env) then Some (config, false)
  else
    log_method ← lua_string env "LogMethod";
    let method := if strcasecmp_eq log_method "none" then LM_NONE
                  else if strcasecmp_eq log_method "request" then LM_REQUEST else cfg_log_method config in
    let cycle := default (cfg_expiration_check_cycle config) (lua_integer env "ExpirationCheckCycle") in
    let location := default (cfg_request_log_location config) (lua_string env "RequestLogLocation") in
    let lazy := default (cfg_lazy_expiration config) (lua_boolean env "LazyExpiration") in
    replace_policy ← lua_string env "ReplacePolicy";
    let policy := if strcasecmp_eq replace_policy "none" then RP_NONE
                  else if strcasecmp_eq replace_policy "lru" then RP_LRU
                  else if strcasecmp_eq replace_policy "mru" then RP_MRU
                  else if strcasecmp_eq replace_policy "lfu" then RP_LFU else cfg_replace_policy config in
    max_mem_usage ← lua_string env "MaxMemoryUsage";
    let controller := default (cfg_shard_controller_endpoint config) (lua_string env "ShardControllerEndpoint") in
    let sharder := default (cfg_sharder_endpoint config) (lua_string env "SharderEndpoint") in
    Some (MkConfig method policy lazy (u64 (ParseMemoryUsage env max_mem_usage)) cycle location (cfg_diagnostic_log_dir config)
            controller sharder (cfg_shard_num config) (cfg_thread_num config) (cfg_nodes config ++ DataNodes env), true).

(** The view that [log_method2str] returns has the zero at the end of its literal. *)
Definition log_method2str (m : LogMethod) : string :=
  (match m with LM_REQUEST => "request" | LM_NONE => "none" end) +:+ String (ascii_of_nat 0) "".

Definition replace_policy2str (rp : ReplacePolicy) : option string :=
  match rp with RP_LRU => Some "lru" | RP_NONE => Some "none" | _ => None end.

Inductive MemoryUnit := MU_B | MU_KB | MU_MB | MU_GB.

Definition memory_unit2str (mu : MemoryUnit) : string :=
  match mu with MU_B => "B" | MU_KB => "KB" | MU_MB => "MB" | MU_GB => "GB" end.

(** The unit and what the usage is divided by. *)
Definition format_memory_usage (usage : Z) : MemoryUnit * Z :=
  if 2 ^ 30 <=? usage then (MU_GB, 2 ^ 30)
  else if 2 ^ 20 <=? usage then (MU_MB, 2 ^ 20)
  else if 2 ^ 10 <=? usage then (MU_KB, 2 ^ 10) else (MU_B, 1).

Section server.
Context `{ConsoleLib}.
(** The text of a quotient of doubles. *)
Context (show_quotient : Z → Z → string).

Definition PrintMmkvConfig (config : MmkvConfig) : option (list string) :=
  let '(unit, divisor) := format_memory_usage (cfg_max_memory_usage config) in
  policy ← replace_policy2str (cfg_replace_policy config);
  Some (["==== Mmkv Config Entries =====";
         "LogMethod = " +:+ log_method2str (cfg_log_method config);
         "ExpirationCheckCycle = " +:+ to_string (cfg_expiration_check_cycle config);
         "LazyExpiration = " +:+ (if cfg_lazy_expiration config then "1" else "0");
         "RequestLogLocation = " +:+ cfg_request_log_location config;
         "ReplacePolicy = " +:+ policy;
         "DiagnosticLogDirectory = " +:+ cfg_diagnostic_log_dir config;
         "MaxMemoryUsage = " +:+ show_quotient (cfg_max_memory_usage config) divisor +:+ " " +:+ memory_unit2str unit;
         "SharderAddress = " +:+ cfg_sharder_endpoint config;
         "SharderControllerAddress = " +:+ cfg_shard_controller_endpoint config;
         "ShardNum = " +:+ to_string (cfg_shard_num config);
         "Nodes: "]
        ++ imap (λ i n, "node " +:+ to_string (Z.of_nat i) +:+ ": " +:+ n) (cfg_nodes config)).

(** ** The server *)

(** [ctler_cli_], and the endpoint in the configuration. *)
Record ShardServer := MkShardServer { controller_endpoint : string; ctler_cli_ : option NodeClient }.

Inductive ServerAction :=
  | ConnectController (endpoint : string)
  | FromNode (a : Action)
  | Recover | StartLog | CheckEvery (seconds : Z) | Listen.

(** The constructor. *)
Definition server_new (config : MmkvConfig) : ShardServer * list ServerAction :=
  let endpoint := cfg_shard_controller_endpoint config in
  if IsSharder config then (MkShardServer endpoint (Some node_new), [ConnectController endpoint])
  else (MkShardServer endpoint None, []).

Definition Start (config : MmkvConfig) : list ServerAction :=
  (match cfg_log_method config with LM_REQUEST => [Recover; StartLog] | LM_NONE => [] end)
  ++ (if 0 <? cfg_expiration_check_cycle config then [CheckEvery (cfg_expiration_check_cycle config)] else [])
  ++ [Listen].

(** [main]: nothing is done when the configuration cannot be read. *)
Definition server_main (env : LuaEnv) : option (option (ShardServer * list ServerAction)) :=
  '(config, ok) ← ParseMmkvConfig env default_config;
  if ok : bool then
    _ ← PrintMmkvConfig config;
    let '(s, acts) := server_new config in
    Some (Some (s, acts ++ Start config))
  else Some None.

(** The message callback for [SHARD_JOIN] and [SHARD_LEAVE].  [None] is a callback that
    does not return: [Leave] waits until the client is connected. *)
Definition shard_command (rq : MmbpRequest) (response : MmbpResponse) (s : ShardServer) :
    option (ShardServer * MmbpResponse * list ServerAction) :=
  match command_of (command rq) with
  | Some SHARD_JOIN =>
      if negb (HasKey rq) || negb (HasCount rq) then Some (s, res_code response S_INVALID_REQUEST, [])
      else
        let idle := match ctler_cli_ s with Some n => bool_decide (state_ n = IDLE) | None => true end in
        if negb idle then Some (s, res_code response S_SHARD_PROCESSING, [])
        else Some (MkShardServer (ToIpPort (MkAddress (req_key rq) (u16 (count rq)))) (Some node_new), response, [])
  | Some SHARD_LEAVE =>
      match ctler_cli_ s with
      | Some n => '(n, acts) ← node_Leave n; Some (MkShardServer (controller_endpoint s) (Some n), response, map FromNode acts)
      | None => Some (s, response, [])
      end
  | _ => Some (s, response, [])
  end.

(** [response.DebugPrint()] after the switch: the message of the status code is written
    to the log. *)
Definition shard_reply (rq : MmbpRequest) (junk : Z) (s : ShardServer) : option (ShardServer * MmbpResponse * list ServerAction) :=
  '(s, response, acts) ← shard_command rq (new_response junk) s;
  _ ← GetStatusMessage (status_code response);
  Some (s, response, acts).
End server.

(** ** What the commands do *)

Section facts.
Context `{ConsoleLib} `{Kvarint, !KvarintLaws} `{NetOrder, !NetOrderLaws}.

(** A request that the server accepts: to join, with a host and a port, or to leave. *)
Definition cluster_request (rq : MmbpRequest) : bool :=
  match command_of (command rq) with Some SHARD_JOIN => HasKey rq && HasCount rq | Some SHARD_LEAVE => true | _ => false end.

Lemma shard_command_answer rq rs0 s s' rs acts :
  cluster_request rq = true → shard_command rq rs0 s = Some (s', rs, acts) → rs = rs0 ∨ rs = res_code rs0 S_SHARD_PROCESSING.
Proof.
  unfold cluster_request, shard_command. destruct (command_of (command rq)) as [[]|]; try done.
  - intros [-> ->]%andb_true_iff. cbn [negb orb]. destruct (negb _); intros [= <- <- <-]; [by right|by left].
  - intros _. destruct (ctler_cli_ s) as [n|]; [|intros [= <- <- <-]; by left].
    destruct (node_Leave n) as [[n' acts']|]; [|done]. intros [= <- <- <-]. by left.
Qed.

Lemma shard_join_silent rq rs0 s s' rs acts :
  cluster_request rq = true → command_of (command rq) = Some SHARD_JOIN → shard_command rq rs0 s = Some (s', rs, acts) → acts = [].
Proof.
  unfold cluster_request, shard_command. intros Hrq Hj. rewrite Hj in *. apply andb_true_iff in Hrq as [-> ->]. cbn [negb orb].
  destruct (negb _); by intros [= <- <- <-].
Qed.

(** Only a request to leave, at a client that is not connected, keeps the server waiting. *)
Lemma shard_command_waits rq rs0 s :
  cluster_request rq = true → shard_command rq rs0 s = None →
  command_of (command rq) = Some SHARD_LEAVE ∧ ∃ n, ctler_cli_ s = Some n ∧ conn_ n = false.
Proof.
  unfold cluster_request, shard_command. destruct (command_of (command rq)) as [[]|]; try done.
  - intros [-> ->]%andb_true_iff. cbn [negb orb]. by destruct (negb _).
  - intros _. destruct (ctler_cli_ s) as [n|]; [|done]. unfold node_Leave, WaitConn. destruct (conn_ n) eqn:E; [done|]. intros _. split; [done|]. by exists n.
Qed.

Lemma join_makes_unconnected rq rs0 s s' rs acts :
  command_of (command rq) = Some SHARD_JOIN → shard_command rq rs0 s = Some (s', rs, acts) →
  s' = s ∨ ∃ n, ctler_cli_ s' = Some n ∧ conn_ n = false.
Proof.
  unfold shard_command. intros ->. destruct (_ || _); [intros [= <- _ _]; by left|]. destruct (negb _); intros [= <- _ _]; [by left|].
  right. by exists node_new.
Qed.

(** C34: the commands of the cluster do not work from the console.  What the server answers to a
    well-formed request to join or to leave carries a status without a message: the
    server aborts when it logs the answer, and a console that receives it aborts when it
    prints it.  A server that is told to join sends nothing to the controller: it makes a
    client for it and never connects it.  And a request to leave at a server whose client
    is not connected, as the one that a request to join makes, is not answered at all:
    the server waits for the connection. *)
Theorem cluster_commands_abort rq junk junk' s cmd :
  cluster_request rq = true → in_width 64 junk = true →
  match shard_command rq (new_response junk) s with
  | Some (s', rs, acts) =>
      shard_reply rq junk s = None
      ∧ (∃ rs', response_ParseFrom (new_response junk') (response_SerializeTo rs) = Some (rs', []) ∧ ResponsePrinter_Printf cmd rs' = None)
      ∧ (command_of (command rq) = Some SHARD_JOIN → acts = [] ∧ (s' = s ∨ ∃ n, ctler_cli_ s' = Some n ∧ conn_ n = false))
  | None => command_of (command rq) = Some SHARD_LEAVE ∧ ∃ n, ctler_cli_ s = Some n ∧ conn_ n = false
  end.
Proof.
  intros Hrq Hj. destruct (shard_command rq (new_response junk) s) as [[[s' rs] acts]|] eqn:Hc; [|by eapply shard_command_waits].
  pose proof (shard_command_answer _ _ _ _ _ _ Hrq Hc) as Hrs. split_and!.
  - unfold shard_reply. rewrite Hc. cbn [mbind option_bind]. by destruct Hrs as [->| ->].
  - exists (res_transmitted (new_response junk') rs). split.
    + rewrite <-(app_nil_r (response_SerializeTo rs)). apply response_reads_back; [|by repeat split].
      destruct Hrs as [->| ->]; unfold response_fits; cbn [new_response res_code res_count]; by rewrite Hj.
    + by destruct Hrs as [->| ->].
  - intros Hjoin. split; [by eapply shard_join_silent|by eapply join_makes_unconnected].
Qed.
End facts.
