(* ===== verification/ServerMainExamples.v ===== *)
(** * Concrete servers that start and join *)

From Stdlib Require Import Ascii String.
From S2P Require Import Prelude Comparator AvlUtil AvlTree Dict HashTableBase HashTable TreeHashTable HashSet.
From S2P Require Import Dictionary Blist Cache ListCache Vset Kvdb KvdbSpec KvdbValues KvdbRefine KvdbCalls.
From S2P Require Import KvdbFacts KvdbErrors KvdbFrame KvdbExamples Mmbp MmbpCodec MmbpExamples.
From S2P Require Import Storage StorageFacts StorageRefine Server ServerExamples Translator TranslatorFacts TranslatorExamples.
From S2P Require Import Controller ControllerFacts ControllerErrors ConfigdClient ControllerExamples Joining Console ConsoleFacts ConsoleExamples ServerMain.

Module ServerMainExamples.
Import KvdbExamples MmbpExamples ServerExamples TranslatorExamples ControllerExamples ConsoleExamples.
Open Scope string_scope.
Open Scope Z_scope.
Open Scope list_scope.

(** The request of a line [shard_join 10.0.0.5 9996]. *)
Definition join_request : MmbpRequest :=
  match parse_tokens SHARD_JOIN (new_request junk) ["10.0.0.5"; "9996"] with Some (inl rq) => rq | _ => new_request junk end.

Definition alone : ShardServer := MkShardServer "" None.

Definition joined : ShardServer := MkShardServer "10.0.0.5:9996" (Some node_new).

(** The server is told to join, and aborts when it logs its answer. *)
Lemma cluster_commands_abort_witness :
  shard_command join_request (new_response 7) alone = Some (joined, new_response 7, [])
  ∧ shard_reply join_request 7 alone = None
  ∧ (∃ rs', response_ParseFrom (new_response 8) (response_SerializeTo (new_response 7)) = Some (rs', []) ∧ ResponsePrinter_Printf 69 rs' = None)
  ∧ (command_of (command join_request) = Some SHARD_JOIN → @nil ServerAction = [] ∧ (joined = alone ∨ ∃ n, ctler_cli_ joined = Some n ∧ conn_ n = false)).
Proof.
  assert (shard_command join_request (new_response 7) alone = Some (joined, new_response 7, [])) as Hc by (by vm_compute). split; [exact Hc|].
  pose proof (cluster_commands_abort join_request 7 8 alone 69 ltac:(by vm_compute) ltac:(by vm_compute)) as Ha. rewrite Hc in Ha. exact Ha.
Defined.

(** A request to leave is then not answered. *)
Definition leave_request : MmbpRequest :=
  match parse_tokens SHARD_LEAVE (new_request junk) [] with Some (inl rq) => rq | _ => new_request junk end.

Example leave_waits : shard_command leave_request (new_response 7) joined = None.
Proof. by vm_compute. Qed.

(** A configuration file. *)
Definition entries (policy : string) (name : string) : option string :=
  if String.eqb name "LogMethod" then Some "Request" else if String.eqb name "ReplacePolicy" then Some policy
  else if String.eqb name "MaxMemoryUsage" then Some "64MB" else if String.eqb name "ShardControllerEndpoint" then Some "10.0.0.9:9996" else None.
Definition file (policy : string) : LuaEnv :=
  MkLuaEnv true (entries policy) (λ s, if String.eqb s "ExpirationCheckCycle" then Some 5 else None) (λ _, None) (λ _, 64 * 2 ^ 20) ["10.0.0.1:9998"].

Example server_starts :
  server_main (λ a b, to_string (a / b)) (file "LRU")
  = Some (Some (MkShardServer "10.0.0.9:9996" (Some node_new), [ConnectController "10.0.0.9:9996"; Recover; StartLog; CheckEvery 5; Listen])).
Proof. by vm_compute. Qed.

(** The policies MRU and LFU are parsed, but have no name to be logged with. *)
Example lfu_stops : server_main (λ a b, to_string (a / b)) (file "lfu") = None ∧ server_main (λ a b, to_string (a / b)) (file "MRU") = None.
Proof. by vm_compute. Qed.
End ServerMainExamples.
